(* ===== verification/_CoqProject ===== *)
-Q . S2P
Prelude.v
Interfaces.v
Completers.v
Slots.v
Mpsc.v
Uring.v
Requests.v
Queue.v
QueueRing.v
QueueSafety.v
QueueRun.v
QueueCalls.v
QueueExamples.v
Tasks.v
Timespecs.v
Fds.v
Addresses.v
Sockets.v
EventFds.v
Futures.v
Channels.v
ChannelExample.v
Pool.v
Waits.v
Text.v
Logging.v
Modest.v
Unchecked.v
EventLoop.v
Histories.v
Cancels.v
Stories.v
Servers.v
Relays.v
Callbacks.v
CallbackRelays.v
Descriptors.v
SessionSockets.v
Finishing.v
Buffers.v
Proxy.v
ProxyRelays.v
Functions.v
ServerExamples.v
LoopExamples.v
Programs.v
ProgramExamples.v
ProxyProgram.v
Submits.v
TaskObjects.v
Messages.v
UdpRelays.v
Net.v
Resolves.v
