(* ===== verification/Prelude.v ===== *)
(** * aiopp: a verification library

    aiopp is a C++ library for asynchronous I/O on io_uring with coroutines.  This
    development models its library code (include/aiopp, src) and the servers among
    its examples, and proves what makes them correct.  This file holds what the
    others share; the rest of this comment describes the whole.

    ** The program and its parts

    A coroutine calls a member of [IoQueue], which takes an entry of the submission
    queue ([IoURing], a wrapper of liburing), fills it in, and returns an
    [OperationHandle].  [co_await] on the handle stores a completer under the
    operation's id in the [CompleterMap] and suspends.  [run] submits, takes one
    completion, looks its id up, and resumes the coroutine with the result, until no
    operation is awaited.  [Task] is a coroutine that is awaited, [BasicCoroutine]
    one that is only started.  Threads reach a queue through eventfds: [Promise] and
    [Future], [Channel] (over an [MpscQueue]) and [ThreadPool].

    Files, in dependency order, with what they model:

    - [Interfaces]: what the queue needs of its completer table, as the class
      [CompleterTable] with its contract [CompleterTableSpec].
    - [Completers]: completermap.hpp/.cpp.  Open addressing with tombstones; the
      instance of the contract.
    - [Slots]: vectormap.hpp and slotmap.hpp.  Raw and constructed cells of storage
      are told apart, so that touching a raw cell is undefined.
    - [Mpsc]: mpscqueue.hpp.  Producers and the consumer as interleaved steps, one
      for each access to an atomic.
    - [Uring]: iouring.hpp/.cpp over the class [LibUring] (the calls of liburing) and
      its documented laws [LibUringSpec]; [SimRing] is a ring that satisfies them.
      [Requests]: what the kernel reads in the entries that are prepared.
    - [Queue]: ioqueue.hpp/.cpp and ioqueue_impl_iouring.hpp/.cpp, the definitions.
      A coroutine is a program ([prog]) over the members; suspended, it is the
      continuation its awaiter holds.  The state ([World]) has the queue, the
      completers on the heap and the coroutine frames.
    - [QueueRing], [QueueSafety], [QueueRun], [QueueCalls]: what the members do to the
      ring; the discipline ([wf]) and the invariant; the run loop; single members.
      [QueueExamples]: concrete executions.
    - [Modest], [Unchecked]: coroutines that take one operation at a time, and how many
      entries they have in the submission queue; such coroutines when they do not look
      at their handles.
    - [EventLoop]: the specification of the queue - operations, who awaits them, and
      what completions do, without ring, table and handles - and the refinement.
      [Histories]: what each coroutine lives through on it, from its own program.
      [Stories]: with what led to its start, from the first program; a chain of
      callbacks is read off there.  [Cancels]: who is not resumed any more.
    - [Tasks], [TaskObjects]: task.hpp and basiccoroutine.hpp, as a machine of frames
      and transfers, and as objects that own frames.
    - [Timespecs]: setTimespec of ioqueue_impl_iouring.cpp.  [Messages]: the headers
      of recvfrom and sendto (ioqueue.cpp).
    - [Fds], [Addresses], [Sockets], [Net]: fd.hpp/.cpp, socket.hpp/.cpp, net.cpp.
    - [EventFds], [Futures], [Channels], [Pool], [Submits]: result.hpp and eventfd;
      future.hpp with [IoQueue::wait]; channel.hpp; threadpool.hpp/.cpp; and [submit]
      with [wrapAsTask], which runs [Pool] and [Futures] together.
    - [Waits]: wait.hpp.  [Text]: util.cpp and [FdLogger]; [Logging]: the global
      logger and the examples' adapter.  [Functions]: function.hpp.
    - [Servers], [Callbacks], [Proxy]: the example servers - on coroutines, on
      callbacks, and the proxy, whose two coroutines share their sockets.
      [Relays], [CallbackRelays], [ProxyRelays], [UdpRelays]: the bytes they
      receive and send, with the contents of memory.  [Programs], [ProxyProgram]: their main functions, which put
      addresses, sockets, queue and servers together.  [Descriptors]: which coroutine
      owns which descriptor when numbers are given out again.  [SessionSockets]: the
      close a session of echo-tcp.cpp queues at its end, when its [Fd] has closed the
      descriptor, and a ring with scripted completions.
      [Finishing]: that coroutines come to their end.  [Buffers]: that the kernel works
      for suspended coroutines only.  [ChannelExample], [Resolves]: the examples
      channel.cpp and resolve.cpp.  [ServerExamples], [LoopExamples],
      [ProgramExamples]: concrete executions.

    ** How the model reads

    - An [outcome] is a result or a [Crash]: a failed [assert] (the build system
      never defines NDEBUG, so assertions are on), [abort], or undefined behaviour.
    - Integers are [Z]; what the code keeps in 32 or 64 bits unsigned goes through
      [u32] or [u64] ([wrap]) at the operations that can overflow.
    - Memory is modelled where sharing matters: submission entries by their address,
      completers, frames, nodes of lists, cells of storage, [Fd], [Task] and
      [Function] objects, loggers and locals under names.  For the queue, buffers are
      addresses; their contents are modelled where something is said about them:
      messages, hexDump, addresses, and what servers receive and send.
    - Threads are interleaved sequences of steps.  A step is one access to an atomic,
      or a critical section nobody else can look into.  Memory is sequentially
      consistent: weaker orders that the code names are not modelled.
    - What is not under src/ is a parameter with its documented laws, as a class or a
      section variable: liburing, [operator new], close, pipe, socket and its kin,
      eventfd, inet_aton and inet_ntoa (of which [Programs] supposes that it reads
      0.0.0.0), getaddrinfo.  Each law has an instance that
      satisfies it, with which the theorems are applied to concrete inputs.
      A submission may fail, and may take any number of the prepared entries.
      [ReliableRing] (a submission succeeds, and a wait brings a completion when an
      operation is outstanding) is assumed only by the theorems that name it, for
      what they say of [run] returning.
    - The descriptors that coroutines close themselves, without the queue (an [Fd] that
      is destroyed), are recorded in the state of the queue ([closed]).
    - A coroutine that is the body of a lambda reads what it captured through the
      closure.  [Waits] keeps whether that is still there: for [WaitAll] and [WaitAny]
      it is not once the coroutine was suspended, and what follows is undefined.

    ** What is shown

    - The queue: [queue_implements_loop] (whatever disciplined coroutines do on the
      queue, with all it starts, cancels and destroys, is what the specification does
      with the completions taken from the kernel), [ioqueue_safe] (no assertion fails
      and nothing dead is used, for every system of disciplined coroutines and
      whatever the kernel reports), [ioqueue_terminates], [coroutines_follow] (each
      coroutine awaits and gets what its own program allows; [loop_stories] says the
      same of chains of callbacks), [cancel_disables] (a coroutine whose operation was
      cancelled with its handler is never resumed again), and
      the members' effects: [run_dispatch], [operation_ids], [call_appends_entry],
      [link_timeout_follows], [await_ignored_hangs].  [unchecked_like_checked]: a coroutine
      that awaits without looking at its handles behaves like one that checks them, if
      it takes one operation at a time and the submission queue has an entry for each
      coroutine (two, and one more, if operations have time limits), however many
      entries each submission takes.
      The discipline [wf] is what the library expects and does not check: a handle is
      awaited before its coroutine next suspends, [linkTimeout] follows its operation,
      at most [size + 1] operations are awaited at once, and fewer than 2^63 are
      prepared.
    - The programs, from main on: [echo_program], [http_program], [callback_program],
      [udp_programs], [programs_end] (set-up, safety, exit codes, descriptors, the end,
      and what is sent; for a number of connections for which the queue has entries,
      see below), over [servers_safe], [servers_end],
      [echo_server_echoes], [http_server_answers], [callback_server_safe],
      [sendall_sends] and [udp_server_idle]; [udp_server_echoes];
      [coroutines_finish] (when [run] returns every coroutine has finished, if the
      programs cancel nothing with its handler); [kernel_serves_suspended] (what the
      ring has is awaited by a suspended coroutine, whose frame has the buffers, if the
      programs take one operation at a time and destroy nobody who waits; what happens if
      they do is [destroyed_request_stays]); [sessions_keep_sockets] (a coroutine
      uses and closes only the descriptor it was started with or got, although numbers
      are given out again) and [queued_close_stale] (the close that a session queues
      after its socket has closed itself: never its own, possibly another's);
      [proxy_closes_once] (with the undefined end of a connection) and [proxy_relays]
      for a connection of the proxy, and
      [proxy_address_dangles] for the program; [channel_example_prints],
      [resolve_prints].
    - Data structures: [run_ops_refines] (the completer map is a finite map),
      [mpsc_fifo], [mpsc_no_leak], [slotmap_safe], [vectormap_emplace_cases],
      [function_refines] (functions are optional values).
    - Coroutines and threads: [tasks_inline] (nested tasks run like inlined code),
      [task_ownership], [future_delivers], [channel_fifo], [channel_delivers],
      [pool_fifo], [pool_no_lost_task], [submit_delivers],
      with the reads that fail, the descriptors that run out and the submission queue
      that is full as cases of their own.
    - System objects and text: [fd_ownership], [listen_socket_spec],
      [parse_toString], [parse_spec], [setTimespec_at_spec], [logging_spec];
      [prepare_encodes] (the kernel reads in an entry what was asked for, but for
      lengths of 2^32 and more, of which it reads the lower half).
    - Behaviour that is not what the code means to do is stated as it is, for
      instance [pool_destructor_deadlock], [void_wait_hangs],
      [waitall_needs_ready], [waitany_needs_ready], [submit_void_not_called],
      [insert_wrap_aborts].

    The main theorems with hypotheses come with a lemma of their name and the suffix
    [_witness] that applies them to concrete inputs.

    ** Fuel and bounds

    - [run] of the queue takes the number of iterations: [ioqueue_terminates] shows
      that one for each entry a program can prepare is enough; the safety theorems
      hold for every number.
    - Loops over tables ([probe], [lookup_loop], [primes]) take as many rounds as
      the table has slots or entries, which is all their loops can take.  [collect]
      takes the number of nodes; [resolve_addresses] shows that it suffices.
    - The servers' endless loops are unrolled to a number of rounds; the theorems
      hold for every number, that is for every finite part of an execution.
      [sendall_sends] shows that a buffer takes at most one round for each byte.
    - The queues of the examples have 1543 entries.  A coroutine has one entry at a time,
      or two with a time limit, and a connection has one coroutine: hence the theorems
      on the programs are for up to 771 calls of [accept] in all for echo-tcp-coro, and
      for up to 1025 for the others, for which [wf] allows as many awaited operations.
      Beyond, the assertion of [co_await] may fail.
    - Machines of threads run along arbitrary finite lists of actions.
    - A table of 196613 slots or more cannot be made (its assertion fails), hence the
      bound on [size].

    ** Not modelled

    - Build files.  Messages that components log: text for people, without effect on
      the program ([Logging] says where they go).  The message of an error number
      comes from the standard library and is a parameter of [errnoToString].
    - [Channel::receive] with a callback: it calls a member of [EventFd] that does not
      exist, so there is no behaviour to model.
    - Destructors that only free storage, and the members of [IoQueue] that pass their
      arguments on to [IoQueueImpl]: a member and its implementation are one
      definition.
    - The end of a process: what [exit] does to statics, and what becomes of suspended
      coroutines when a queue is destroyed. *)

From Stdlib Require Import ZArith Lia List.
From stdpp Require Import base numbers list gmap option.

Declare Scope aiopp_scope.
Delimit Scope aiopp_scope with aiopp.

(** ** Outcomes

    The code reports a broken contract with [assert] (the build system never
    defines NDEBUG), gives up with [std::abort], or runs into behaviour the
    language leaves undefined.  A function that can do one of these returns an
    [outcome]. *)
Inductive crash : Type :=
| AssertFailed
| Aborted
| UndefinedBehaviour.

Inductive outcome (A : Type) : Type :=
| Ok (a : A)
| Crash (c : crash).

Arguments Ok {A} a.
Arguments Crash {A} c.

#[export] Instance crash_eq_dec : EqDecision crash.
Proof. solve_decision. Defined.

#[export] Instance outcome_eq_dec {A} `{!EqDecision A} : EqDecision (outcome A).
Proof. solve_decision. Defined.

#[export] Instance outcome_ret : MRet outcome := fun A a => Ok a.

#[export] Instance outcome_bind : MBind outcome := fun A B f m =>
  match m with
  | Ok a => f a
  | Crash c => Crash c
  end.

#[export] Instance outcome_fmap : FMap outcome := fun A B f m =>
  match m with
  | Ok a => Ok (f a)
  | Crash c => Crash c
  end.

(** The C macro [assert]. *)
Definition cassert (b : bool) : outcome unit :=
  if b then Ok tt else Crash AssertFailed.

(** Reading through a pointer or an index: undefined when there is no object. *)
Definition deref {A} (o : option A) : outcome A :=
  match o with
  | Some a => Ok a
  | None => Crash UndefinedBehaviour
  end.

Lemma outcome_bind_Ok {A B} (m : outcome A) (f : A -> outcome B) b :
  m ≫= f = Ok b <-> exists a, m = Ok a /\ f a = Ok b.
Proof.
  destruct m as [a|c]; cbn; split; [by eauto | by intros (? & [= ->] & ?) | done | by intros (? & ? & _)].
Qed.

Lemma cassert_Ok b u : cassert b = Ok u <-> b = true.
Proof. destruct b, u; naive_solver. Qed.

Lemma deref_Ok {A} (o : option A) a : deref o = Ok a <-> o = Some a.
Proof. destruct o; naive_solver. Qed.

Lemma cassert_bind {B} b (k : unit -> outcome B) :
  b = true -> (cassert b ≫= k) = k tt.
Proof. by intros ->. Qed.

Lemma cassert_bind_false {B} b (k : unit -> outcome B) :
  b = false -> (cassert b ≫= k) = Crash AssertFailed.
Proof. by intros ->. Qed.

(** ** Machine integers

    A [w]-bit unsigned integer is a [Z] in [[0, 2^w)]; an operation computes in
    [Z] and wraps its result. *)
Abbreviation U64MAX := (2 ^ 64 - 1)%Z.

Definition wrap (w x : Z) : Z := (x mod 2 ^ w)%Z.

Abbreviation u8 := (wrap 8).
Abbreviation u16 := (wrap 16).
Abbreviation u32 := (wrap 32).
Abbreviation u64 := (wrap 64).

(** Conversion to a [w]-bit two's complement integer. *)
Definition swrap (w x : Z) : Z :=
  (let y := wrap w x in if y <? 2 ^ (w - 1) then y else y - 2 ^ w)%Z.

Abbreviation i32 := (swrap 32).
Abbreviation i64 := (swrap 64).

Lemma wrap_range w x : (0 <= w)%Z -> (0 <= wrap w x < 2 ^ w)%Z.
Proof. intros Hw. apply Z.mod_pos_bound. by apply Z.pow_pos_nonneg. Qed.

Lemma wrap_small w x : (0 <= x < 2 ^ w)%Z -> wrap w x = x.
Proof. intros Hx. by apply Z.mod_small. Qed.

Lemma wrap_idem w x : wrap w (wrap w x) = wrap w x.
Proof. unfold wrap. apply Z.mod_mod_divide. exists 1%Z. lia. Qed.

Lemma wrap_id_iff w x : (0 <= w)%Z -> wrap w x = x <-> (0 <= x < 2 ^ w)%Z.
Proof.
  intros Hw. split; [|apply wrap_small].
  intros <-. by apply wrap_range.
Qed.

Lemma u64_range x : (0 <= u64 x < 2 ^ 64)%Z.
Proof. by apply wrap_range. Qed.

Lemma u64_small x : (0 <= x < 2 ^ 64)%Z -> u64 x = x.
Proof. apply wrap_small. Qed.

(** ** Generic lemmas on lists *)

Lemma list_insert_same {A} (l : list A) i x :
  l !! i = Some x -> <[i:=x]> l = l.
Proof. apply list_insert_id. Qed.

Lemma lookup_insert_cases {A} (l : list A) i j x y :
  <[i:=x]> l !! j = Some y ->
  (i = j /\ y = x /\ i < length l) \/ (i <> j /\ l !! j = Some y).
Proof.
  intros H. destruct (decide (i = j)) as [->|Hij].
  - left. assert (j < length l).
    { rewrite <- (length_insert l j x). by eapply lookup_lt_Some. }
    rewrite list_lookup_insert_eq in H by done. naive_solver.
  - right. rewrite list_lookup_insert_ne in H by done. done.
Qed.

(** ** Sums over finite maps *)
Section msum.
Context {A : Type} (g : A -> nat).

Definition msum (m : gmap Z A) : nat := map_fold (fun _ x n => g x + n)%nat 0%nat m.

Lemma msum_empty : msum ∅ = 0%nat.
Proof. apply map_fold_empty. Qed.

Lemma msum_insert_new m i x : m !! i = None -> msum (<[i := x]> m) = (g x + msum m)%nat.
Proof.
  intros. unfold msum.
  apply (map_fold_insert_L (fun _ x n => g x + n)%nat 0%nat i x m); [intros; lia | done].
Qed.

Lemma msum_delete m i x : m !! i = Some x -> msum m = (g x + msum (delete i m))%nat.
Proof.
  intros H. rewrite <- (msum_insert_new (delete i m) i x) by apply lookup_delete_eq.
  by rewrite insert_delete_id.
Qed.

Lemma msum_delete_le m i : (msum (delete i m) <= msum m)%nat.
Proof.
  destruct (m !! i) as [x|] eqn:H; [rewrite (msum_delete m i x H); lia|].
  by rewrite delete_id.
Qed.

Lemma msum_insert m i x y :
  m !! i = Some x -> (msum (<[i := y]> m) + g x = g y + msum m)%nat.
Proof.
  intros H. rewrite (msum_delete m i x H).
  rewrite <- (insert_delete_eq m i y), msum_insert_new by apply lookup_delete_eq. lia.
Qed.

(** Distinct keys whose values count at least one each. *)
Lemma msum_keys ks m :
  NoDup ks -> (forall k, k ∈ ks -> exists x, m !! k = Some x /\ (1 <= g x)%nat) ->
  (length ks <= msum m)%nat.
Proof.
  intros Hnd. revert m. induction Hnd as [|k ks Hk Hnd IH]; intros m H; cbn [length]; [lia|].
  destruct (H k) as (x & Hx & Hg); [by apply list_elem_of_here|].
  rewrite (msum_delete m k x Hx).
  enough (length ks <= msum (delete k m))%nat by lia.
  apply IH. intros k' Hk'. destruct (H k') as (x' & ? & ?); [by right|].
  exists x'. rewrite lookup_delete_ne by (intros ->; done). done.
Qed.
End msum.

(** ** Automation *)
Create HintDb aiopp discriminated.
#[export] Hint Resolve u64_range : aiopp.

(** Takes a hypothesis [m = Ok r] on a monadic computation apart. *)
Ltac outcome_inv :=
  repeat match goal with
  | H : Ok _ = Ok _ |- _ => injection H as H; try subst
  | H : Crash _ = Ok _ |- _ => discriminate H
  | H : Ok _ = Crash _ |- _ => discriminate H
  | H : mret _ = Ok _ |- _ => unfold mret, outcome_ret in H
  | H : mbind _ _ = Ok _ |- _ =>
      apply outcome_bind_Ok in H as (? & ? & H); cbn beta iota in H
  | H : cassert _ = Ok _ |- _ => apply cassert_Ok in H
  | H : deref _ = Ok _ |- _ => apply deref_Ok in H
  | H : (let '(_, _) := ?p in _) = Ok _ |- _ => destruct p eqn:?
  | H : exists _, _ |- _ => destruct H
  | H : _ /\ _ |- _ => destruct H
  end.
