(* ===== verification/Interfaces.v ===== *)
(** * What one component promises another

    The I/O queue is verified against these classes; the components discharge
    them. *)

From Stdlib Require Import ZArith Lia.
From stdpp Require Import base numbers gmap.
From S2P Require Import Prelude.

Local Open Scope Z_scope.

(** The operations [IoQueueImpl] uses of its completer table. *)
Class CompleterTable (T : Type) := {
  tbl_make : Z -> outcome T;
  tbl_insert : Z -> Z -> T -> outcome T;
  tbl_remove : Z -> T -> outcome (Z * T);
  tbl_size : T -> Z;
  tbl_capacity : T -> Z
}.

(** A pointer a table may store: neither null nor the all-ones address. *)
Definition storable (p : Z) : Prop := p <> 0 /\ p <> U64MAX.

(** The keys an insertion is guaranteed to find a slot for. *)
Definition plain_key (k : Z) : Prop := 0 <= k < 2 ^ 63.

(** The contract of a completer table: it behaves as a finite map. *)
Class CompleterTableSpec (T : Type) `{!CompleterTable T} := {
  tbl_rep : T -> gmap Z Z -> Prop;
  tbl_make_spec n : 0 <= n < 196613 ->
    exists t, tbl_make n = Ok t /\ tbl_rep t ∅ /\ n < tbl_capacity t;
  tbl_insert_spec t σ k p :
    tbl_rep t σ -> σ !! k = None -> plain_key k -> storable p ->
    Z.of_nat (size σ) < tbl_capacity t ->
    exists t', tbl_insert k p t = Ok t' /\ tbl_rep t' (<[k := p]> σ) /\
      tbl_capacity t' = tbl_capacity t;
  tbl_insert_full t σ k p :
    tbl_rep t σ -> tbl_capacity t <= Z.of_nat (size σ) ->
    tbl_insert k p t = Crash AssertFailed;
  tbl_remove_spec t σ k :
    tbl_rep t σ ->
    exists t', tbl_remove k t = Ok (default 0 (σ !! k), t') /\
      tbl_rep t' (delete k σ) /\ tbl_capacity t' = tbl_capacity t;
  tbl_size_spec t σ : tbl_rep t σ -> tbl_size t = Z.of_nat (size σ)
}.
