(* ===== verification/Completers.v ===== *)
(** * The completer table: [CompleterMap] of completermap.hpp / completermap.cpp

    An open-addressing hash table with double hashing over a prime number of
    slots, which keeps one completer pointer per pending operation id.  It is
    shown to refine a finite map. *)

From Stdlib Require Import ZArith Znumtheory Lia List.
From stdpp Require Import base numbers list gmap option.
From S2P Require Import Prelude.
From S2P Require Import Interfaces.

Local Open Scope Z_scope.

Module CompleterMap.

(** ** Data *)

(** A [void*] is its address. *)
Definition Empty : Z := 0.
Definition Tombstone : Z := U64MAX.

Record Entry : Type := mkEntry { key : Z; value : Z }.

(** [Entry]'s default member initializers. *)
Definition defaultEntry : Entry := mkEntry U64MAX 0.

Record CompleterMap : Type := mkCompleterMap {
  entries_ : list Entry;
  size_ : Z
}.

Definition size (m : CompleterMap) : Z := size_ m.
Definition capacity (m : CompleterMap) : Z := Z.of_nat (length (entries_ m)).

(** ** Construction *)

Definition primes : list Z :=
  [53; 97; 193; 389; 769; 1543; 3079; 6151; 12289; 24593; 49157; 98317; 196613].

(** The [for] loop of [getNextSize] and the [assert(false)] behind it. *)
Fixpoint getNextSize_loop (num : Z) (ps : list Z) : outcome Z :=
  match ps with
  | [] => Crash AssertFailed
  | prime :: ps' => if num <? prime then Ok prime else getNextSize_loop num ps'
  end.

Definition getNextSize (num : Z) : outcome Z :=
  _ ← cassert (num <=? List.last primes 0);
  getNextSize_loop num primes.

(** The constructor [CompleterMap(size_t numEntries)]. *)
Definition make (numEntries : Z) : outcome CompleterMap :=
  n ← getNextSize numEntries;
  Ok (mkCompleterMap (replicate (Z.to_nat n) defaultEntry) 0).

(** ** Probing *)

(** SplitMix64. *)
Definition hash (x : Z) : Z :=
  let x := Z.lxor x (Z.shiftr x 30) in
  let x := u64 (x * 0xbf58476d1ce4e5b9) in
  let x := Z.lxor x (Z.shiftr x 27) in
  let x := u64 (x * 0x94d049bb133111eb) in
  let x := Z.lxor x (Z.shiftr x 31) in
  x.

(** The step [h] of the probe sequence of [k] in a table of [sz] slots. *)
Definition probe_step (k sz : Z) : Z := u64 (hash k `mod` u64 (sz - 1) + 1).

(** The [i]-th probed index, [(key + i * h) % entries_.size()]. *)
Definition probe (k h sz i : Z) : Z := u64 (k + u64 (i * h)) `mod` sz.

(** ** Lookup *)

(** The [for] loop of [lookup]; [fuel] is the number of iterations left. *)
Fixpoint lookup_loop (es : list Entry) (k h : Z) (fuel : nat) (i : Z)
    : outcome (option Z) :=
  match fuel with
  | O => Ok None
  | S fuel' =>
      let idx := probe k h (Z.of_nat (length es)) i in
      entry ← deref (es !! Z.to_nat idx);
      if value entry =? Empty then Ok None
      else if negb (value entry =? Tombstone) && (key entry =? k)
      then Ok (Some idx)
      else lookup_loop es k h fuel' (i + 1)
  end.

Definition lookup (k : Z) (m : CompleterMap) : outcome (option Z) :=
  lookup_loop (entries_ m) k (probe_step k (capacity m)) (length (entries_ m)) 0.

Definition get (k : Z) (m : CompleterMap) : outcome Z :=
  idx ← lookup k m;
  match idx with
  | None => Ok 0
  | Some idx => entry ← deref (entries_ m !! Z.to_nat idx); Ok (value entry)
  end.

(** ** Insertion and removal *)

(** The [for] loop of [insert] and the [std::abort] behind it. *)
Fixpoint insert_loop (es : list Entry) (k v h : Z) (fuel : nat) (i : Z)
    : outcome (list Entry) :=
  match fuel with
  | O => Crash Aborted
  | S fuel' =>
      let idx := Z.to_nat (probe k h (Z.of_nat (length es)) i) in
      entry ← deref (es !! idx);
      if (value entry =? Empty) || (value entry =? Tombstone)
      then Ok (<[idx := mkEntry k v]> es)
      else insert_loop es k v h fuel' (i + 1)
  end.

Definition insert (k v : Z) (m : CompleterMap) : outcome CompleterMap :=
  _ ← cassert (size m <? capacity m);
  es ← insert_loop (entries_ m) k v (probe_step k (capacity m))
         (length (entries_ m)) 0;
  Ok (mkCompleterMap es (u64 (size_ m + 1))).

Definition remove (k : Z) (m : CompleterMap) : outcome (Z * CompleterMap) :=
  idx ← lookup k m;
  match idx with
  | None => Ok (0, m)
  | Some idx =>
      let idx := Z.to_nat idx in
      entry ← deref (entries_ m !! idx);
      Ok (value entry,
          mkCompleterMap (<[idx := mkEntry (key entry) Tombstone]> (entries_ m))
            (u64 (size_ m - 1)))
  end.

(** ** Small evaluations *)

Example make_1024 : (capacity <$> make 1024) = Ok 1543.
Proof. vm_compute. reflexivity. Qed.

Example insert_get_remove :
  (m ← make 10; m ← insert 7 4096 m; m ← insert 60 8192 m;
   a ← get 60 m; '(b, m) ← remove 7 m; c ← get 7 m; d ← get 60 m;
   Ok (a, b, c, d, size m)) = Ok (8192, 4096, 0, 8192, 1).
Proof. vm_compute. reflexivity. Qed.

(** ** Primality of the table sizes *)

(** No [d] with [2 <= d < n + 2] divides [p]. *)
Definition no_divisor_below (n : nat) (p : Z) : bool :=
  forallb (fun d => negb (p `mod` (Z.of_nat d + 2) =? 0)) (seq 0 n).

Lemma no_divisor_below_spec n p d :
  no_divisor_below n p = true -> 2 <= d < Z.of_nat n + 2 -> ~ (d | p).
Proof.
  unfold no_divisor_below. rewrite forallb_forall. intros Hall Hd Hdiv.
  specialize (Hall (Z.to_nat (d - 2))). rewrite in_seq in Hall.
  replace (Z.of_nat (Z.to_nat (d - 2)) + 2) with d in Hall by lia.
  apply Z.mod_divide in Hdiv; [|lia]. rewrite Hdiv in Hall.
  by specialize (Hall ltac:(lia)).
Qed.

Lemma prime_by_trial n p :
  no_divisor_below n p = true -> 1 < p < (Z.of_nat n + 2) * (Z.of_nat n + 2) ->
  Z.of_nat n + 2 <= p -> Z.prime p.
Proof.
  intros Hn Hp Hnp. split; [lia|]. intros d Hd Hdiv.
  destruct (decide (d < Z.of_nat n + 2)).
  - by apply (no_divisor_below_spec n p d); [| lia|].
  - destruct Hdiv as [q Hq].
    apply (no_divisor_below_spec n p q); [done|nia|].
    exists d. lia.
Qed.

Definition trial_bound (p : Z) : nat := Z.to_nat (Z.sqrt p - 1).

Definition table_prime (p : Z) : bool :=
  no_divisor_below (trial_bound p) p && (4 <=? p).

Lemma table_prime_prime p : table_prime p = true -> Z.prime p.
Proof.
  unfold table_prime, trial_bound. rewrite andb_true_iff, Z.leb_le. intros [Hn Hp].
  pose proof (Z.sqrt_spec p ltac:(lia)) as Hs. unfold Z.succ in Hs.
  assert (2 <= Z.sqrt p) by (apply Z.sqrt_le_square; lia).
  apply (prime_by_trial _ _ Hn); rewrite Z2Nat.id; nia.
Qed.

Lemma primes_prime : Forall Z.prime primes.
Proof.
  assert (forallb table_prime primes = true) as H by (vm_compute; reflexivity).
  rewrite forallb_forall in H. apply Forall_forall. intros p Hp.
  by apply table_prime_prime, H.
Qed.

Lemma primes_range : Forall (fun p => 53 <= p <= 196613) primes.
Proof. unfold primes. repeat constructor; lia. Qed.

Lemma getNextSize_loop_spec num ps n :
  getNextSize_loop num ps = Ok n -> n ∈ ps /\ num < n.
Proof.
  induction ps as [|p ps IH]; cbn; [done|].
  destruct (Z.ltb_spec num p); intros; outcome_inv.
  - split; [left|done].
  - destruct IH; [done|]. split; [by right|done].
Qed.

Lemma getNextSize_prime num n :
  getNextSize num = Ok n -> Z.prime n /\ num < n /\ 53 <= n <= 196613.
Proof.
  unfold getNextSize. intros H. outcome_inv.
  apply getNextSize_loop_spec in H as [Hin Hlt].
  pose proof (proj1 (list.Forall_forall _ _) primes_prime _ Hin).
  pose proof (proj1 (list.Forall_forall _ _) primes_range _ Hin).
  done.
Qed.

(** ** The probe sequence visits every slot *)

(** The keys whose whole probe sequence stays below [2^64]. *)
Definition no_wrap (k sz : Z) : Prop := 0 <= k /\ k + sz * sz <= 2 ^ 64.

Lemma probe_step_range k sz :
  2 <= sz <= 2 ^ 64 -> 1 <= probe_step k sz <= sz - 1.
Proof.
  intros Hsz. unfold probe_step. rewrite (u64_small (sz - 1)) by lia.
  pose proof (Z.mod_pos_bound (hash k) (sz - 1) ltac:(lia)).
  rewrite u64_small; lia.
Qed.

Lemma probe_range k h sz i : 0 < sz -> 0 <= probe k h sz i < sz.
Proof. intros. by apply Z.mod_pos_bound. Qed.

Lemma probe_no_wrap k h sz i :
  no_wrap k sz -> 0 < sz -> 1 <= h <= sz - 1 -> 0 <= i < sz ->
  probe k h sz i = (k + i * h) `mod` sz.
Proof.
  intros [? ?] ? ? ?. unfold probe.
  assert (0 <= i * h < sz * sz) by nia.
  rewrite (u64_small (i * h)), u64_small; lia.
Qed.

Lemma probe_covers k h sz idx :
  Z.prime sz -> no_wrap k sz -> 1 <= h <= sz - 1 -> 0 <= idx < sz ->
  exists i, 0 <= i < sz /\ probe k h sz i = idx.
Proof.
  intros Hp Hk Hh Hidx.
  assert (1 < sz) by apply Hp.
  set (u := Z.invmod h sz). exists (((idx - k) * u) `mod` sz).
  pose proof (Z.mod_pos_bound ((idx - k) * u) sz ltac:(lia)). split; [done|].
  rewrite probe_no_wrap by (done || lia).
  assert (Hu : (u * h) `mod` sz = 1).
  { apply Z.invmod_prime; [done|]. rewrite Z.mod_small; lia. }
  rewrite Zplus_mod, Z.mul_mod_idemp_l by lia.
  rewrite <- Z.mul_assoc, Z.mul_mod, Hu, Z.mul_1_r, Z.mod_mod by lia.
  rewrite <- Z.add_mod by lia.
  replace (k + (idx - k)) with idx by lia. apply Z.mod_small. lia.
Qed.

(** ** The slots of a probe sequence *)

Definition live (e : Entry) : Prop := value e <> Empty /\ value e <> Tombstone.

#[export] Instance live_dec e : Decision (live e).
Proof. unfold live. apply _. Defined.

(** The entry probed in iteration [i]. *)
Definition slot (es : list Entry) (k h i : Z) : option Entry :=
  es !! Z.to_nat (probe k h (Z.of_nat (length es)) i).

(** Index [idx] holds a slot the probe sequence of [k] reaches without meeting
    an [Empty] one. *)
Definition reachable_at (es : list Entry) (k h : Z) (idx : nat) : Prop :=
  exists i, 0 <= i < Z.of_nat (length es) /\
    Z.to_nat (probe k h (Z.of_nat (length es)) i) = idx /\
    forall j, 0 <= j < i -> exists e, slot es k h j = Some e /\ value e <> Empty.

Lemma slot_is_Some es k h i :
  0 < Z.of_nat (length es) -> exists e, slot es k h i = Some e.
Proof.
  intros Hsz. apply lookup_lt_is_Some.
  pose proof (probe_range k h (Z.of_nat (length es)) i Hsz). lia.
Qed.

Lemma lookup_loop_total es k h fuel i :
  0 < Z.of_nat (length es) -> exists r, lookup_loop es k h fuel i = Ok r.
Proof.
  intros Hsz. revert i. induction fuel as [|fuel IH]; intros i; cbn; [by eauto|].
  destruct (slot_is_Some es k h i Hsz) as [e He]. unfold slot in He.
  rewrite He. cbn. case_match; [by eauto|]. case_match; [by eauto|]. apply IH.
Qed.

Lemma lookup_loop_sound es k h fuel i idx :
  lookup_loop es k h fuel i = Ok (Some idx) ->
  exists e, es !! Z.to_nat idx = Some e /\ live e /\ key e = k.
Proof.
  revert i. induction fuel as [|fuel IH]; intros i H; cbn in H; outcome_inv;
    [done|].
  case_match; [by outcome_inv|]. case_match; [|by eauto].
  outcome_inv. unfold live. eexists. split; [done|].
  rewrite andb_true_iff, negb_true_iff, !Z.eqb_neq, !Z.eqb_eq in *. naive_solver.
Qed.

Lemma lookup_loop_complete es k h fuel i j e :
  0 < Z.of_nat (length es) -> i <= j < i + Z.of_nat fuel ->
  slot es k h j = Some e -> live e -> key e = k ->
  (forall j', i <= j' < j -> exists e', slot es k h j' = Some e' /\ value e' <> Empty) ->
  exists idx, lookup_loop es k h fuel i = Ok (Some idx).
Proof.
  intros Hsz. revert i. induction fuel as [|fuel IH]; intros i Hj He [Hne Hnt] Hk Hpath;
    [lia|]. cbn.
  destruct (decide (i = j)) as [->|Hij].
  - unfold slot in He. rewrite He. cbn.
    rewrite (proj2 (Z.eqb_neq _ _) Hne), (proj2 (Z.eqb_neq _ _) Hnt), Hk, Z.eqb_refl.
    cbn. by eauto.
  - destruct (Hpath i) as (e' & He' & Hne'); [lia|]. unfold slot in He'. rewrite He'. cbn.
    rewrite (proj2 (Z.eqb_neq _ _) Hne').
    case_match; [by eauto|]. apply IH; try done; [lia|]. intros. apply Hpath. lia.
Qed.

Lemma insert_loop_first_free es k v h fuel i :
  0 < Z.of_nat (length es) ->
  (exists j e, i <= j < i + Z.of_nat fuel /\ slot es k h j = Some e /\ ~ live e) ->
  exists j e, i <= j < i + Z.of_nat fuel /\ slot es k h j = Some e /\ ~ live e /\
    (forall j', i <= j' < j -> exists e', slot es k h j' = Some e' /\ live e') /\
    insert_loop es k v h fuel i =
      Ok (<[Z.to_nat (probe k h (Z.of_nat (length es)) j) := mkEntry k v]> es).
Proof.
  intros Hsz. revert i. induction fuel as [|fuel IH]; intros i (j & e & Hj & He & Hfree);
    [lia|]. cbn.
  destruct (slot_is_Some es k h i Hsz) as [e0 He0]. pose proof He0 as He0'.
  unfold slot in He0'. rewrite He0'. cbn.
  destruct (decide (live e0)) as [Hl|Hl].
  - pose proof Hl as [Hne Hnt].
    rewrite (proj2 (Z.eqb_neq _ _) Hne), (proj2 (Z.eqb_neq _ _) Hnt). cbn.
    destruct (IH (i + 1)) as (j1 & e1 & Hj1 & He1 & Hf1 & Hpath & Heq).
    { exists j, e. split; [|done].
      destruct (decide (j = i)) as [->|]; [|lia]. congruence. }
    exists j1, e1. split_and!; try done; [lia..|].
    intros j' Hj'. destruct (decide (j' = i)) as [->|]; [by eauto|]. apply Hpath. lia.
  - exists i, e0. split_and!; try done; [lia..| intros; lia |].
    unfold live in Hl.
    destruct (Z.eqb_spec (value e0) Empty); [done|].
    destruct (Z.eqb_spec (value e0) Tombstone); [done|]. naive_solver.
Qed.

(** ** Refinement of a finite map *)

(** The table [m] represents the finite map [σ] from operation ids to
    completers: its live entries are the bindings of [σ], each on the probe path
    of its key with no [Empty] slot before it. *)
Record Rep (m : CompleterMap) (σ : gmap Z Z) : Prop := mkRep {
  rep_prime : Z.prime (capacity m);
  rep_capacity : capacity m <= 196613;
  rep_live k v : σ !! k = Some v <->
    exists i, entries_ m !! i = Some (mkEntry k v) /\ live (mkEntry k v);
  rep_inj i j e e' :
    entries_ m !! i = Some e -> entries_ m !! j = Some e' ->
    live e -> live e' -> key e = key e' -> i = j;
  rep_path i e : entries_ m !! i = Some e -> live e ->
    reachable_at (entries_ m) (key e) (probe_step (key e) (capacity m)) i;
  rep_size : size_ m = Z.of_nat (base.size σ);
  rep_bound : size_ m <= capacity m
}.

Lemma rep_capacity_pos m σ : Rep m σ -> 1 < capacity m.
Proof. intros HR. apply (rep_prime _ _ HR). Qed.

Lemma reachable_at_insert es k h idx i e :
  reachable_at es k h idx -> value e <> Empty ->
  reachable_at (<[i := e]> es) k h idx.
Proof.
  intros (n & Hn & Hidx & Hpath) He. exists n. rewrite length_insert.
  split_and!; [lia..|done|]. intros j Hj. destruct (Hpath j Hj) as (e0 & He0 & Hne).
  unfold slot in *. rewrite length_insert.
  destruct (decide (i = Z.to_nat (probe k h (Z.of_nat (length es)) j))) as [->|Hij].
  - exists e. rewrite list_lookup_insert_eq; [done|]. by eapply lookup_lt_Some.
  - exists e0. by rewrite list_lookup_insert_ne.
Qed.

(** A table that is not full has a slot that is not live. *)
Lemma rep_free_slot m σ :
  Rep m σ -> size_ m < capacity m ->
  exists idx e, entries_ m !! idx = Some e /\ ~ live e.
Proof.
  intros HR Hsz.
  destruct (decide (Forall live (entries_ m))) as [Hall|Hall].
  - exfalso. rewrite list.Forall_lookup in Hall.
    assert (NoDup (key <$> entries_ m)) as Hnd.
    { apply NoDup_alt. intros i j k. rewrite !list_lookup_fmap, !fmap_Some.
      intros (e1 & H1 & ->) (e2 & H2 & Hk).
      apply (rep_inj _ _ HR i j e1 e2); eauto. }
    assert (list_to_set (key <$> entries_ m) ⊆ dom σ) as Hsub.
    { intros k. rewrite elem_of_list_to_set, list_elem_of_fmap, elem_of_dom.
      intros (e & -> & (i & Hi)%list_elem_of_lookup). exists (value e).
      apply (rep_live _ _ HR). exists i. destruct e. by eauto. }
    apply subseteq_size in Hsub.
    rewrite size_list_to_set, length_fmap, size_dom in Hsub by done.
    rewrite (rep_size _ _ HR) in Hsz. unfold capacity in Hsz. lia.
  - apply not_Forall_Exists in Hall; [|apply _].
    apply list.Exists_exists in Hall as (e & (i & Hi)%list_elem_of_lookup & He).
    by eauto.
Qed.

Lemma lookup_rep m σ k :
  Rep m σ ->
  (exists idx e, lookup k m = Ok (Some idx) /\
     entries_ m !! Z.to_nat idx = Some e /\ live e /\ key e = k /\
     σ !! k = Some (value e))
  \/ (lookup k m = Ok None /\ σ !! k = None).
Proof.
  intros HR. pose proof (rep_capacity_pos _ _ HR) as Hpos. unfold capacity in Hpos.
  set (h := probe_step k (capacity m)).
  destruct (lookup_loop_total (entries_ m) k h (length (entries_ m)) 0) as [[idx|] Hr];
    [lia|..].
  - left. pose proof (lookup_loop_sound _ _ _ _ _ _ Hr) as (e & He & Hl & Hk).
    exists idx, e. split_and!; try done. apply (rep_live _ _ HR).
    exists (Z.to_nat idx). subst k. by destruct e.
  - right. split; [done|]. destruct (σ !! k) as [v|] eqn:Hv; [exfalso|done].
    apply (rep_live _ _ HR) in Hv as (i & Hi & Hl).
    destruct (rep_path _ _ HR i _ Hi Hl) as (n & Hn & Hidx & Hpath). cbn in *.
    destruct (lookup_loop_complete (entries_ m) k h (length (entries_ m)) 0 n
                (mkEntry k v)) as [idx Hc]; try done.
    + lia.
    + unfold slot, h. by rewrite Hidx.
    + rewrite Hr in Hc. discriminate Hc.
Qed.

Lemma get_refines m σ k :
  Rep m σ -> get k m = Ok (default 0 (σ !! k)).
Proof.
  intros HR. unfold get.
  destruct (lookup_rep m σ k HR) as [(idx & e & -> & He & Hl & Hk & ->)|[-> ->]]; [|done].
  cbn. by rewrite He.
Qed.

Lemma make_refines n :
  0 <= n < 196613 -> exists m, make n = Ok m /\ Rep m ∅ /\ n < capacity m.
Proof.
  intros Hn. unfold make.
  assert (exists p, getNextSize n = Ok p) as [p Hp].
  { unfold getNextSize, primes. cbn [List.last].
    rewrite (proj2 (Z.leb_le n 196613)) by lia. cbn.
    repeat (case_match; [by eauto|]). rewrite Z.ltb_ge in *. lia. }
  rewrite Hp. cbn. eexists. split; [done|].
  apply getNextSize_prime in Hp as (Hprime & Hlt & Hr).
  assert (forall i e, replicate (Z.to_nat p) defaultEntry !! i = Some e -> ~ live e) as Hnl.
  { intros i e (-> & _)%lookup_replicate. unfold live, defaultEntry. naive_solver. }
  unfold capacity. split; [|cbn; rewrite length_replicate; lia].
  constructor; unfold capacity; cbn; try rewrite length_replicate; rewrite ?Z2Nat.id by lia;
    try done; try lia.
  - intros k v. rewrite lookup_empty. split; [done|]. intros (i & Hi & Hl). naive_solver.
  - naive_solver.
  - naive_solver.
Qed.

Lemma insert_full m k v : capacity m <= size m -> insert k v m = Crash AssertFailed.
Proof. intros H. unfold insert. by rewrite (proj2 (Z.ltb_ge _ _) H). Qed.

Section insert_slot.
  Context (m : CompleterMap) (σ : gmap Z Z) (k v : Z) (idx : nat) (old : Entry) (j : Z).
  Context (HR : Rep m σ) (Hnew : σ !! k = None) (Hv : live (mkEntry k v)).
  Context (Hold : entries_ m !! idx = Some old) (Hfree : ~ live old).
  Context (Hj : 0 <= j < capacity m).
  Context (Hidx : Z.to_nat (probe k (probe_step k (capacity m)) (capacity m) j) = idx).
  Context (Hpath : forall j', 0 <= j' < j -> exists e',
    slot (entries_ m) k (probe_step k (capacity m)) j' = Some e' /\ live e').

Let m' := mkCompleterMap (<[idx := mkEntry k v]> (entries_ m)) (size_ m + 1).

Lemma insert_slot_key i e :
    entries_ m' !! i = Some e -> live e ->
    (i = idx /\ e = mkEntry k v) \/ (i <> idx /\ entries_ m !! i = Some e /\ key e <> k).
  Proof using All.
    intros [(-> & -> & _)|(Hi & He)]%lookup_insert_cases Hl; [by left|right].
    split_and!; [done..|]. intros Hk.
    assert (σ !! k = Some (value e)); [|congruence].
    apply (rep_live _ _ HR). exists i. subst k. by destruct e.
  Qed.

Lemma insert_slot_rep : size_ m < capacity m -> Rep m' (<[k := v]> σ).
  Proof using All.
    intros Hsz. constructor; unfold capacity; cbn; rewrite ?length_insert.
    - apply (rep_prime _ _ HR).
    - apply (rep_capacity _ _ HR).
    - intros k0 v0. destruct (decide (k = k0)) as [<-|Hk].
      + rewrite lookup_insert_eq. split.
        * intros [= <-]. exists idx. split; [|done].
          apply list_lookup_insert_eq. by eapply lookup_lt_Some.
        * intros (i & Hi & Hl).
          destruct (insert_slot_key i _ Hi Hl) as [[_ [= ->]]|(_ & _ & ?)]; [done|].
          naive_solver.
      + rewrite lookup_insert_ne, (rep_live _ _ HR) by done. split.
        * intros (i & Hi & Hl). exists i. split; [|done].
          rewrite list_lookup_insert_ne; [done|]. intros <-. naive_solver.
        * intros (i & Hi & Hl).
          destruct (insert_slot_key i _ Hi Hl) as [[_ [= ??]]|(_ & ? & _)]; naive_solver.
    - intros i i' e e' Hi Hi' Hl Hl' Hk.
      destruct (insert_slot_key i e Hi Hl) as [[-> ->]|(? & ? & ?)],
        (insert_slot_key i' e' Hi' Hl') as [[-> ->]|(? & ? & ?)];
        [done| naive_solver .. |].
      by apply (rep_inj _ _ HR i i' e e').
    - intros i e Hi Hl. apply reachable_at_insert; [|apply Hv].
      destruct (insert_slot_key i e Hi Hl) as [[-> ->]|(? & ? & ?)].
      + exists j. split_and!; [apply Hj..|done|]. intros j' Hj'.
        destruct (Hpath j' Hj') as (e' & ? & [? _]). by exists e'.
      + by apply (rep_path _ _ HR).
    - rewrite map_size_insert_None by done. rewrite (rep_size _ _ HR). lia.
    - unfold capacity in Hsz. lia.
  Qed.
End insert_slot.

Lemma insert_refines_aux m σ k v :
  Rep m σ -> σ !! k = None -> no_wrap k (capacity m) -> v <> Empty -> v <> Tombstone ->
  Z.of_nat (base.size σ) < capacity m ->
  exists m', insert k v m = Ok m' /\ Rep m' (<[k := v]> σ) /\ capacity m' = capacity m.
Proof.
  intros HR Hnew Hk Hv1 Hv2 Hsz. rewrite <- (rep_size _ _ HR) in Hsz.
  pose proof (rep_capacity_pos _ _ HR) as Hpos. pose proof (rep_capacity _ _ HR).
  set (h := probe_step k (capacity m)).
  destruct (rep_free_slot _ _ HR Hsz) as (i0 & e0 & Hi0 & Hf0).
  destruct (probe_covers k h (capacity m) (Z.of_nat i0)) as (j0 & Hj0 & Hp0).
  { apply (rep_prime _ _ HR). }
  { done. }
  { apply probe_step_range. lia. }
  { apply lookup_lt_Some in Hi0. unfold capacity. lia. }
  destruct (insert_loop_first_free (entries_ m) k v h (length (entries_ m)) 0)
    as (j & e & Hj & He & Hf & Hpath & Heq).
  { unfold capacity in Hpos. lia. }
  { exists j0, e0. split_and!; [lia|unfold capacity in Hj0; lia| |done].
    unfold slot. fold (capacity m). by rewrite Hp0, Nat2Z.id. }
  unfold insert. rewrite cassert_bind by (by apply Z.ltb_lt). fold h. rewrite Heq. cbn.
  eexists. split; [done|]. split; [|unfold capacity; cbn; by rewrite length_insert].
  assert (0 <= size_ m) by (rewrite (rep_size _ _ HR); lia).
  rewrite u64_small by lia.
  eapply insert_slot_rep with (j := j); try done; unfold capacity; try lia.
Qed.

Section remove_slot.
  Context (m : CompleterMap) (σ : gmap Z Z) (k : Z) (idx : nat) (e : Entry).
  Context (HR : Rep m σ) (He : entries_ m !! idx = Some e) (Hl : live e) (Hk : key e = k).

Let m' := mkCompleterMap (<[idx := mkEntry k Tombstone]> (entries_ m)) (size_ m - 1).

Lemma remove_slot_live i e' :
    entries_ m' !! i = Some e' -> live e' -> i <> idx /\ entries_ m !! i = Some e'.
  Proof using All.
    intros [(_ & -> & _)|(Hi & ?)]%lookup_insert_cases Hl'; [|done].
    exfalso. by apply Hl'.
  Qed.

Lemma remove_slot_rep : Rep m' (delete k σ).
  Proof using All.
    assert (σ !! k = Some (value e)) as Hlk.
    { apply (rep_live _ _ HR). exists idx. subst k. by destruct e. }
    constructor; unfold capacity; cbn; rewrite ?length_insert.
    - apply (rep_prime _ _ HR).
    - apply (rep_capacity _ _ HR).
    - intros k0 v0. rewrite lookup_delete_Some, (rep_live _ _ HR). split.
      + intros (Hne & i & Hi & Hl'). exists i. split; [|done].
        rewrite list_lookup_insert_ne; [done|]. intros <-. naive_solver.
      + intros (i & Hi & Hl'). destruct (remove_slot_live i _ Hi Hl') as [Hne Hi'].
        split; [|by eauto]. intros ->. apply Hne.
        by apply (rep_inj _ _ HR i idx (mkEntry k0 v0) e).
    - intros i j e1 e2 Hi Hj Hl1 Hl2.
      destruct (remove_slot_live i _ Hi Hl1), (remove_slot_live j _ Hj Hl2).
      by apply (rep_inj _ _ HR).
    - intros i e1 Hi Hl1. destruct (remove_slot_live i _ Hi Hl1) as [_ Hi'].
      apply reachable_at_insert; [by apply (rep_path _ _ HR)|done].
    - pose proof (map_size_delete_Some k σ (mk_is_Some _ _ Hlk)) as Hs.
      assert (base.size σ <> 0)%nat.
      { rewrite map_size_non_empty_iff. intros ->. by rewrite lookup_empty in Hlk. }
      rewrite Hs, (rep_size _ _ HR). lia.
    - pose proof (rep_bound _ _ HR). unfold capacity in *. lia.
  Qed.
End remove_slot.

Lemma remove_refines_aux m σ k :
  Rep m σ ->
  exists m', remove k m = Ok (default 0 (σ !! k), m') /\ Rep m' (delete k σ) /\
    capacity m' = capacity m.
Proof.
  intros HR. unfold remove.
  destruct (lookup_rep m σ k HR) as [(idx & e & -> & He & Hl & Hk & Hs)|[-> Hs]];
    rewrite Hs; cbn.
  - rewrite He. cbn. eexists. split; [done|].
    pose proof (rep_size _ _ HR). pose proof (rep_bound _ _ HR).
    pose proof (rep_capacity _ _ HR).
    assert (base.size σ <> 0)%nat.
    { rewrite map_size_non_empty_iff. intros ->. by rewrite lookup_empty in Hs. }
    rewrite u64_small by lia. split.
    + rewrite Hk. by eapply remove_slot_rep.
    + unfold capacity. cbn. by rewrite length_insert.
  - exists m. rewrite delete_id by done. done.
Qed.

(** ** Operation sequences *)

Inductive op : Type :=
| OpInsert (k v : Z)
| OpGet (k : Z)
| OpRemove (k : Z).

(** One client call; an insertion returns nothing, written 0. *)
Definition apply_op (o : op) (m : CompleterMap) : outcome (Z * CompleterMap) :=
  match o with
  | OpInsert k v => m' ← insert k v m; Ok (0, m')
  | OpGet k => v ← get k m; Ok (v, m)
  | OpRemove k => remove k m
  end.

Fixpoint run_ops (os : list op) (m : CompleterMap) : outcome (list Z * CompleterMap) :=
  match os with
  | [] => Ok ([], m)
  | o :: os' =>
      '(r, m1) ← apply_op o m;
      '(rs, m2) ← run_ops os' m1;
      Ok (r :: rs, m2)
  end.

(** The abstract specification: a finite map, with the null pointer for a key
    that is not bound. *)
Definition spec_op (o : op) (σ : gmap Z Z) : Z * gmap Z Z :=
  match o with
  | OpInsert k v => (0, <[k := v]> σ)
  | OpGet k => (default 0 (σ !! k), σ)
  | OpRemove k => (default 0 (σ !! k), delete k σ)
  end.

Fixpoint spec_ops (os : list op) (σ : gmap Z Z) : list Z * gmap Z Z :=
  match os with
  | [] => ([], σ)
  | o :: os' =>
      let '(r, σ1) := spec_op o σ in
      let '(rs, σ2) := spec_ops os' σ1 in
      (r :: rs, σ2)
  end.

(** What the class comment asks of its client: a fresh key, a real pointer, and
    no more bindings than there are slots. *)
Definition op_ok (cap : Z) (o : op) (σ : gmap Z Z) : Prop :=
  match o with
  | OpInsert k v =>
      σ !! k = None /\ no_wrap k cap /\ v <> Empty /\ v <> Tombstone /\
      Z.of_nat (base.size σ) < cap
  | _ => True
  end.

Fixpoint ops_ok (cap : Z) (os : list op) (σ : gmap Z Z) : Prop :=
  match os with
  | [] => True
  | o :: os' => op_ok cap o σ /\ ops_ok cap os' (spec_op o σ).2
  end.

#[export] Instance no_wrap_dec k sz : Decision (no_wrap k sz).
Proof. unfold no_wrap. apply _. Defined.

#[export] Instance op_ok_dec cap o σ : Decision (op_ok cap o σ).
Proof. destruct o; cbn; apply _. Defined.

#[export] Instance ops_ok_dec cap os σ : Decision (ops_ok cap os σ).
Proof.
  revert σ. induction os as [|o os IH]; intros σ; cbn; [apply _|].
  destruct (decide (op_ok cap o σ)); [|right; naive_solver].
  destruct (IH (spec_op o σ).2); [by left|right; naive_solver].
Defined.

Lemma apply_op_refines m σ o :
  Rep m σ -> op_ok (capacity m) o σ ->
  exists m', apply_op o m = Ok ((spec_op o σ).1, m') /\ Rep m' (spec_op o σ).2 /\
    capacity m' = capacity m.
Proof.
  intros HR Hok. destruct o as [k v|k|k]; cbn in *.
  - destruct Hok as (? & ? & ? & ? & ?).
    destruct (insert_refines_aux m σ k v) as (m' & -> & ? & ?); [done..|]. by exists m'.
  - rewrite (get_refines m σ k HR). by exists m.
  - by apply remove_refines_aux.
Qed.

Lemma run_ops_refines_aux os m σ :
  Rep m σ -> ops_ok (capacity m) os σ ->
  exists m', run_ops os m = Ok ((spec_ops os σ).1, m') /\ Rep m' (spec_ops os σ).2 /\
    capacity m' = capacity m.
Proof.
  revert m σ. induction os as [|o os IH]; intros m σ HR Hok; cbn [run_ops spec_ops].
  { by exists m. }
  destruct Hok as [Ho Hos].
  destruct (apply_op_refines m σ o HR Ho) as (m1 & -> & HR1 & Hc1). cbn.
  destruct (spec_op o σ) as [r σ1]. cbn in *. rewrite <- Hc1 in Hos.
  destruct (IH m1 σ1 HR1 Hos) as (m2 & -> & HR2 & Hc2). cbn.
  destruct (spec_ops os σ1) as [rs σ2]. cbn in *. exists m2. by rewrite Hc2, Hc1.
Qed.

(** ** The contract [IoQueueImpl] relies on *)

#[export] Instance completer_table : CompleterTable CompleterMap := {
  tbl_make := make;
  tbl_insert := insert;
  tbl_remove := remove;
  tbl_size := size;
  tbl_capacity := capacity
}.

Lemma plain_key_no_wrap k sz : plain_key k -> 0 <= sz <= 196613 -> no_wrap k sz.
Proof. unfold plain_key, no_wrap. nia. Qed.

#[export] Program Instance completer_table_spec : CompleterTableSpec CompleterMap := {
  tbl_rep := Rep
}.
Next Obligation. apply make_refines. Qed.
Next Obligation.
  intros m σ k p HR Hk Hpk [Hp1 Hp2] Hsz.
  apply insert_refines_aux; try done.
  apply plain_key_no_wrap; [done|].
  pose proof (rep_capacity_pos _ _ HR). pose proof (rep_capacity _ _ HR). lia.
Qed.
Next Obligation.
  intros m σ k p HR Hsz. apply insert_full. cbn in *. unfold size.
  by rewrite (rep_size _ _ HR).
Qed.
Next Obligation. intros. by apply remove_refines_aux. Qed.
Next Obligation. intros m σ HR. apply (rep_size _ _ HR). Qed.

(** ** Properties *)

(** C9: A table made for fewer than 196613 entries behaves as a finite map under every
    sequence of insertions, lookups and removals that stays within the capacity and
    inserts fresh keys, with real pointers, that are small enough for the probe sequence
    not to wrap around 2^64 (the key plus the square of the capacity is at most that):
    no call asserts, aborts or reads out of range, every result is the map's, and
    [size()] counts the bindings.  ([insert_wrap_aborts]: with a larger key an insertion
    may abort although the table has room.) *)
Theorem run_ops_refines n (Hn : 0 <= n < 196613) :
  exists m0, make n = Ok m0 /\ n < capacity m0 /\
    forall os, ops_ok (capacity m0) os ∅ ->
      exists m', run_ops os m0 = Ok ((spec_ops os ∅).1, m') /\
        size m' = Z.of_nat (base.size (spec_ops os ∅).2) /\
        forall k, get k m' = Ok (default 0 ((spec_ops os ∅).2 !! k)).
Proof.
  destruct (make_refines n Hn) as (m0 & Hm & HR & Hc). exists m0.
  split_and!; [done..|]. intros os Hos.
  destruct (run_ops_refines_aux os m0 ∅ HR Hos) as (m' & Hr & HR' & _).
  exists m'. split_and!; [done|apply (rep_size _ _ HR')|].
  intros k. by apply get_refines.
Qed.

Lemma run_ops_refines_witness :
  exists m0 m', make 10 = Ok m0 /\
    run_ops [OpInsert 7 4096; OpInsert 60 8192; OpRemove 7; OpGet 60; OpGet 7] m0
      = Ok ([0; 0; 4096; 8192; 0], m') /\ size m' = 1.
Proof.
  destruct (run_ops_refines 10) as (m0 & Hm & _ & Hrun); [lia|].
  pose proof Hm as [= <-].
  destruct (Hrun [OpInsert 7 4096; OpInsert 60 8192; OpRemove 7; OpGet 60; OpGet 7])
    as (m' & Hr & Hs & _).
  { apply (bool_decide_unpack _). vm_compute. exact I. }
  eexists _, m'. split_and!; [exact Hm|exact Hr|exact Hs].
Defined.

(** Whenever [size() < capacity()], inserting a fresh key whose probe
    sequence does not wrap at 2^64 finds a slot (the double-hash sequence over a
    prime table visits all of them), and afterwards exactly that key's lookup
    has changed. *)
Theorem insert_finds_slot m σ k v
    (HR : Rep m σ) (Hk : σ !! k = None) (Hw : no_wrap k (capacity m))
    (Hv : v <> Empty) (Ht : v <> Tombstone) (Hs : size m < capacity m) :
  exists m', insert k v m = Ok m' /\ get k m' = Ok v /\
    forall k', k' <> k -> get k' m' = get k' m.
Proof.
  unfold size in Hs. rewrite (rep_size _ _ HR) in Hs.
  destruct (insert_refines_aux m σ k v) as (m' & Hi & HR' & _); [done..|].
  exists m'. split_and!; [done| |].
  - by rewrite (get_refines _ _ _ HR'), lookup_insert_eq.
  - intros k' Hne. by rewrite (get_refines _ _ _ HR'), (get_refines _ _ _ HR),
      lookup_insert_ne.
Qed.

Lemma insert_finds_slot_witness :
  exists m', insert 7 4096 (mkCompleterMap (replicate 53 defaultEntry) 0) = Ok m' /\
    get 7 m' = Ok 4096 /\
    forall k', k' <> 7 ->
      get k' m' = get k' (mkCompleterMap (replicate 53 defaultEntry) 0).
Proof.
  destruct (make_refines 10) as (m & [= <-] & HR & _); [lia|].
  by apply (insert_finds_slot _ ∅ 7 4096 HR).
Defined.

(** The bound on keys in [run_ops_refines] is needed: for the last operation id the program can
    issue, 2^64 - 3, the index computation wraps and the probe sequence of a
    53-slot table misses slot 50, so with every other slot taken [insert] aborts
    although [size() < capacity()]. *)
Theorem insert_wrap_aborts :
  exists m, run_ops (map (fun i => OpInsert i 4096) (seqZ 0 50 ++ seqZ 51 2))
      (mkCompleterMap (replicate 53 defaultEntry) 0) = Ok (replicate 52 0, m) /\
    size m < capacity m /\ insert (2 ^ 64 - 3) 4096 m = Crash Aborted.
Proof.
  eexists. split; [vm_compute; reflexivity|]. split; vm_compute; reflexivity.
Qed.

(** [getNextSize] returns the smallest prime of its table above the request
    for every request below 196613, and asserts for every other one - for 196613
    itself too, which its first assertion accepts. *)
Theorem getNextSize_spec num :
  (num < 196613 -> exists n, getNextSize num = Ok n /\ n ∈ primes /\ Z.prime n /\
     num < n /\ forall p, p ∈ primes -> num < p -> n <= p) /\
  (196613 <= num -> getNextSize num = Crash AssertFailed) /\
  (num <=? List.last primes 0) = (num <=? 196613).
Proof.
  split_and!; [| |done].
  - intros Hn. unfold getNextSize. rewrite cassert_bind by (cbn; lia).
    assert (exists n, getNextSize_loop num primes = Ok n /\
      forall p, p ∈ primes -> num < p -> n <= p) as (n & Hl & Hmin).
    { unfold primes. cbn [getNextSize_loop].
      repeat (case_match; [eexists; split; [done|]; intros p;
        rewrite !elem_of_cons, elem_of_nil, ?Z.ltb_lt, ?Z.ltb_ge in *; lia|]).
      rewrite Z.ltb_ge in *. lia. }
    exists n. assert (getNextSize num = Ok n) as (Hp & Hlt & _)%getNextSize_prime.
    { unfold getNextSize. by rewrite cassert_bind by (cbn; lia). }
    apply getNextSize_loop_spec in Hl as Hin. naive_solver.
  - intros Hn. unfold getNextSize. destruct (Z.leb_spec num (List.last primes 0)); [|done].
    cbn in *. assert (num = 196613) as -> by lia. done.
Qed.

End CompleterMap.
