(* ===== verification/Slots.v ===== *)
(** * Slot containers: [VectorMap] (vectormap.hpp) and [SlotMap] (slotmap.hpp)

    [VectorMap] keeps its elements in raw storage next to an occupancy vector;
    [SlotMap] hands out indices of a [VectorMap] and recycles them in FIFO
    order. *)

From Stdlib Require Import ZArith Lia.
From stdpp Require Import base numbers list gmap option.
From S2P Require Import Prelude.

Local Open Scope Z_scope.

Module VectorMap.
Section VectorMap.
Context {T : Type}.

(** A [DataElem] is raw storage: [None] before an element is constructed in it
    and after its destruction.  [data_] lists the cells of the [new DataElem[n]]
    array (none for the null pointer). *)
Record VectorMap : Type := mkVectorMap {
  data_ : list (option T);
  size_ : Z;
  numOccupied_ : Z;
  occupied_ : list bool
}.

(** The default constructor and [VectorMap(size_t size)], which leaves [size_]
    at its default 0. *)
Definition empty : VectorMap := mkVectorMap [] 0 0 [].

Definition make (sz : Z) : VectorMap :=
  mkVectorMap (replicate (Z.to_nat sz) None) 0 0 (replicate (Z.to_nat sz) false).

Definition size (m : VectorMap) : Z := size_ m.
Definition occupied (m : VectorMap) : Z := numOccupied_ m.

Definition contains (index : Z) (m : VectorMap) : bool :=
  (index <? Z.of_nat (length (occupied_ m))) &&
  match occupied_ m !! Z.to_nat index with Some b => b | None => false end.

(** The loop of [resize]: element [i] is move-constructed from the old cell into
    the new one, which requires an element in the old cell. *)
Fixpoint move_cells (n i : nat) (old new : list (option T))
    : outcome (list (option T)) :=
  match n with
  | O => Ok new
  | S n' =>
      v ← deref (old !! i ≫= id);
      move_cells n' (S i) old (<[i := Some v]> new)
  end.

(** [std::vector::resize(n, false)]. *)
Definition vector_resize (n : nat) (bs : list bool) : list bool :=
  take n bs ++ replicate (n - length bs) false.

Definition resize (sz : Z) (m : VectorMap) : outcome VectorMap :=
  _ ← cassert (size_ m <? sz);
  newData ← move_cells (Z.to_nat (size_ m)) 0 (data_ m)
              (replicate (Z.to_nat sz) None);
  Ok (mkVectorMap newData sz (numOccupied_ m)
        (vector_resize (Z.to_nat sz) (occupied_ m))).

(** A write to cell [i] of an array: undefined outside it. *)
Definition store {A} (i : Z) (a : A) (l : list A) : outcome (list A) :=
  _ ← deref (l !! Z.to_nat i);
  Ok (<[Z.to_nat i := a]> l).

(** [emplace], and [insert], which forwards to it. *)
Definition emplace (index : Z) (v : T) (m : VectorMap) : outcome VectorMap :=
  _ ← cassert (negb (contains index m));
  m ← (if size_ m <=? index
       then resize (Z.max (Z.max (u64 (size_ m * 2)) (u64 (index + 1))) 0) m
       else Ok m);
  data ← store index (Some v) (data_ m);
  occ ← store index true (occupied_ m);
  Ok (mkVectorMap data (size_ m) (u64 (numOccupied_ m + 1)) occ).

Definition insert (index : Z) (v : T) (m : VectorMap) : outcome VectorMap :=
  emplace index v m.

Definition remove (index : Z) (m : VectorMap) : outcome VectorMap :=
  _ ← cassert (contains index m);
  _ ← deref (data_ m !! Z.to_nat index ≫= id);
  data ← store index None (data_ m);
  occ ← store index false (occupied_ m);
  Ok (mkVectorMap data (size_ m) (u64 (numOccupied_ m - 1)) occ).

(** [operator[]]. *)
Definition at_ (index : Z) (m : VectorMap) : outcome T :=
  _ ← cassert (contains index m);
  deref (data_ m !! Z.to_nat index ≫= id).


(** ** Representation: a finite map from indices to elements *)

Definition cell (m : VectorMap) (i : nat) : option T := data_ m !! i ≫= id.

Record Rep (m : VectorMap) (σ : gmap nat T) : Prop := mkRep {
  rep_length : length (data_ m) = length (occupied_ m);
  rep_cells i : σ !! i = cell m i;
  rep_occupied i : occupied_ m !! i = Some true <-> is_Some (σ !! i);
  rep_size : 0 <= size_ m <= Z.of_nat (length (occupied_ m));
  rep_high i : size_ m <= Z.of_nat i -> σ !! i = None;
  rep_num : numOccupied_ m = Z.of_nat (base.size σ)
}.

Lemma rep_num_le m σ : Rep m σ -> Z.of_nat (base.size σ) <= size_ m.
Proof.
  intros HR. pose proof (rep_size _ _ HR).
  assert (dom σ ⊆ set_seq (C := gset nat) 0 (Z.to_nat (size_ m))) as Hsub.
  { intros i Hi%elem_of_dom. apply elem_of_set_seq.
    destruct (decide (size_ m <= Z.of_nat i)) as [Hh|Hh]; [|lia].
    apply (rep_high _ _ HR) in Hh. rewrite Hh in Hi. by destruct Hi. }
  apply subseteq_size in Hsub. rewrite size_dom, size_set_seq in Hsub. lia.
Qed.

Lemma contains_rep m σ i :
  Rep m σ -> contains (Z.of_nat i) m = bool_decide (is_Some (σ !! i)).
Proof.
  intros HR. unfold contains. rewrite Nat2Z.id.
  destruct (occupied_ m !! i) as [b|] eqn:Hb.
  - apply lookup_lt_Some in Hb as Hlt.
    rewrite (proj2 (Z.ltb_lt _ _)) by lia. cbn. destruct b.
    + symmetry. by apply bool_decide_eq_true, (rep_occupied _ _ HR).
    + symmetry. apply bool_decide_eq_false. intros Hs.
      apply (rep_occupied _ _ HR) in Hs. congruence.
  - rewrite andb_false_r. symmetry. apply bool_decide_eq_false. intros Hs.
    apply (rep_occupied _ _ HR) in Hs. congruence.
Qed.

Lemma rep_in_range m σ i :
  Rep m σ -> Z.of_nat i < size_ m ->
  is_Some (data_ m !! i) /\ is_Some (occupied_ m !! i).
Proof.
  intros HR Hi. pose proof (rep_size _ _ HR). pose proof (rep_length _ _ HR).
  split; apply lookup_lt_is_Some; lia.
Qed.

Lemma empty_rep : Rep empty ∅.
Proof.
  constructor; cbn; try done.
  intros i. rewrite lookup_empty. split; [done|by intros [? ?]].
Qed.

Lemma make_rep sz : Rep (make sz) ∅.
Proof.
  constructor; cbn; rewrite ?length_replicate; try done; try lia.
  - intros i. rewrite lookup_empty. unfold cell. cbn.
    destruct (replicate (Z.to_nat sz) None !! i) as [o|] eqn:Ho; [|done].
    by apply lookup_replicate in Ho as [-> _].
  - intros i. rewrite lookup_empty, lookup_replicate.
    split; [by intros [? ?]|by intros [? ?]].
Qed.

(** ** Growth *)

Lemma move_cells_dense n i old new :
  (forall j, (i <= j < i + n)%nat -> is_Some (old !! j ≫= id)) ->
  (i + n <= length new)%nat ->
  exists new', move_cells n i old new = Ok new' /\ length new' = length new /\
    forall j, new' !! j = if decide (i <= j < i + n)%nat then Some (old !! j ≫= id)
                          else new !! j.
Proof.
  revert i new. induction n as [|n IH]; intros i new Hd Hl; cbn.
  { exists new. split_and!; [done..|]. intros j. case_decide; [lia|done]. }
  destruct (Hd i) as [v Hv]; [lia|]. rewrite Hv. cbn.
  destruct (IH (S i) (<[i := Some v]> new)) as (new' & -> & Hlen & Hnew').
  { intros j Hj. apply Hd. lia. }
  { rewrite length_insert. lia. }
  exists new'. split_and!; [done|by rewrite Hlen, length_insert|].
  intros j. rewrite Hnew'. destruct (decide (i = j)) as [<-|Hij].
  - rewrite decide_False, decide_True by lia.
    rewrite list_lookup_insert_eq by lia. by rewrite Hv.
  - rewrite list_lookup_insert_ne by done.
    repeat case_decide; try lia; done.
Qed.

Lemma move_cells_hole n i old new j :
  (i <= j < i + n)%nat -> old !! j ≫= id = None ->
  move_cells n i old new = Crash UndefinedBehaviour.
Proof.
  revert i new. induction n as [|n IH]; intros i new Hj Hh; [lia|]. cbn.
  destruct (old !! i ≫= id) as [v|] eqn:Hv; cbn; [|done].
  apply IH; [|done]. destruct (decide (i = j)) as [->|]; [congruence|lia].
Qed.

Lemma vector_resize_lookup n bs j :
  vector_resize n bs !! j = if decide (j < n)%nat
    then Some (default false (bs !! j)) else None.
Proof.
  unfold vector_resize. case_decide as Hj.
  - destruct (bs !! j) as [b|] eqn:Hb.
    + rewrite lookup_app_l, lookup_take, decide_True; try done.
      apply lookup_lt_Some in Hb. rewrite length_take. lia.
    + apply lookup_ge_None in Hb. rewrite lookup_app_r, length_take by
        (rewrite length_take; lia).
      apply lookup_replicate. split; [done|lia].
  - apply lookup_ge_None. rewrite length_app, length_take, length_replicate. lia.
Qed.

Lemma resize_rep m σ sz :
  Rep m σ -> (forall i, Z.of_nat i < size_ m -> is_Some (σ !! i)) -> size_ m < sz ->
  exists m', resize sz m = Ok m' /\ Rep m' σ /\ size_ m' = sz.
Proof.
  intros HR Hd Hsz. unfold resize.
  rewrite cassert_bind by (by apply Z.ltb_lt). pose proof (rep_size _ _ HR).
  destruct (move_cells_dense (Z.to_nat (size_ m)) 0 (data_ m)
              (replicate (Z.to_nat sz) None)) as (new & -> & Hlen & Hnew).
  { intros j Hj. specialize (Hd j ltac:(lia)). by rewrite (rep_cells _ _ HR) in Hd. }
  { rewrite length_replicate. lia. }
  rewrite length_replicate in Hlen. cbn. eexists. split_and!; [done| |done].
  constructor; cbn.
  - rewrite Hlen. unfold vector_resize.
    rewrite length_app, length_take, length_replicate. lia.
  - intros i. unfold cell. cbn. rewrite Hnew. case_decide.
    + by rewrite (rep_cells _ _ HR).
    + rewrite (rep_high _ _ HR) by lia.
      destruct (replicate (Z.to_nat sz) None !! i) as [o|] eqn:Ho; [|done].
      by apply lookup_replicate in Ho as [-> _].
  - intros i. rewrite vector_resize_lookup, <- (rep_occupied _ _ HR).
    case_decide as Hi; destruct (occupied_ m !! i) as [[]|] eqn:Ho; cbn; try done.
    split; [done|]. intros _. assert (is_Some (σ !! i)) as Hs by
      (apply (rep_occupied _ _ HR); done).
    rewrite (rep_high _ _ HR) in Hs by lia. by destruct Hs.
  - unfold vector_resize. rewrite length_app, length_take, length_replicate. lia.
  - intros i Hi. apply (rep_high _ _ HR). lia.
  - apply (rep_num _ _ HR).
Qed.

(** ** The operations on the representation *)

(** The sizes for which no size computation wraps. *)
Definition small (x : Z) : Prop := 0 <= x < 2 ^ 62.

Lemma store_in_range {A} (l : list A) (i : nat) a :
  is_Some (l !! i) -> store (Z.of_nat i) a l = Ok (<[i := a]> l).
Proof. intros [x Hx]. unfold store. by rewrite Nat2Z.id, Hx. Qed.

(** Writing one cell and its occupancy bit moves the represented map. *)
Lemma write_rep m σ σ' (i : nat) o :
  Rep m σ -> Z.of_nat i < size_ m ->
  σ' !! i = o -> (forall j, i <> j -> σ' !! j = σ !! j) ->
  Rep (mkVectorMap (<[i := o]> (data_ m)) (size_ m) (Z.of_nat (base.size σ'))
         (<[i := bool_decide (is_Some o)]> (occupied_ m))) σ'.
Proof.
  intros HR Hi Ho Hne. destruct (rep_in_range m σ i HR Hi) as [Hd Hocc].
  apply lookup_lt_is_Some in Hd, Hocc.
  constructor; cbn; rewrite ?length_insert; try done.
  - apply (rep_length _ _ HR).
  - intros j. unfold cell. cbn. destruct (decide (i = j)) as [<-|Hij].
    + by rewrite list_lookup_insert_eq.
    + rewrite list_lookup_insert_ne by done. rewrite Hne by done.
      apply (rep_cells _ _ HR).
  - intros j. destruct (decide (i = j)) as [<-|Hij].
    + rewrite list_lookup_insert_eq, Ho by done.
      split; [intros [= ?%bool_decide_eq_true]; done|].
      intros. f_equal. by apply bool_decide_eq_true.
    + rewrite list_lookup_insert_ne, Hne by done. apply (rep_occupied _ _ HR).
  - apply (rep_size _ _ HR).
  - intros j Hj. rewrite Hne by lia. by apply (rep_high _ _ HR).
Qed.

Lemma emplace_in_place m σ (i : nat) v :
  Rep m σ -> small (size_ m) -> σ !! i = None -> Z.of_nat i < size_ m ->
  exists m', (data ← store (Z.of_nat i) (Some v) (data_ m);
              occ ← store (Z.of_nat i) true (occupied_ m);
              Ok (mkVectorMap data (size_ m) (u64 (numOccupied_ m + 1)) occ)) = Ok m'
    /\ Rep m' (<[i := v]> σ) /\ size_ m' = size_ m.
Proof.
  intros HR [_ Hs] Hn Hi. destruct (rep_in_range m σ i HR Hi) as [Hd Ho].
  rewrite (store_in_range _ _ _ Hd), (store_in_range _ _ _ Ho). cbn.
  eexists. split_and!; [done| |done].
  pose proof (rep_num_le _ _ HR). rewrite (rep_num _ _ HR), u64_small by lia.
  replace (Z.of_nat (base.size σ) + 1) with (Z.of_nat (base.size (<[i := v]> σ)))
    by (rewrite map_size_insert_None by done; lia).
  apply (write_rep m σ (<[i := v]> σ) i (Some v) HR Hi).
  - apply lookup_insert_eq.
  - intros j Hj. by apply lookup_insert_ne.
Qed.

Lemma emplace_rep m σ (i : nat) v :
  Rep m σ -> small (size_ m) -> small (Z.of_nat i) -> σ !! i = None ->
  (Z.of_nat i < size_ m \/ forall j, Z.of_nat j < size_ m -> is_Some (σ !! j)) ->
  Z.max (2 * size_ m) (Z.of_nat i + 1) < 2 ^ 62 ->
  exists m', emplace (Z.of_nat i) v m = Ok m' /\ Rep m' (<[i := v]> σ) /\
    size_ m' = if size_ m <=? Z.of_nat i
               then Z.max (size_ m * 2) (Z.of_nat i + 1) else size_ m.
Proof.
  intros HR [Hs0 Hs] [_ Hi] Hn Hgrow Hmax. unfold emplace.
  rewrite cassert_bind.
  2: { rewrite (contains_rep _ _ _ HR), Hn. done. }
  destruct (Z.leb_spec (size_ m) (Z.of_nat i)).
  - destruct Hgrow as [?|Hdense]; [lia|].
    rewrite (u64_small (size_ m * 2)), (u64_small (_ + 1)) by lia.
    destruct (resize_rep m σ (Z.max (Z.max (size_ m * 2) (Z.of_nat i + 1)) 0) HR Hdense)
      as (m1 & -> & HR1 & Hs1); [lia|]. cbn [mbind outcome_bind].
    destruct (emplace_in_place m1 σ i v HR1) as (m' & He & HR' & Hs'); [split; lia|done|lia|].
    exists m'. split_and!; [done..|]. lia.
  - cbn [mbind outcome_bind].
    destruct (emplace_in_place m σ i v HR) as (m' & He & HR' & Hs'); [by split|done|lia|].
    exists m'. by split_and!.
Qed.

Lemma resize_raw m σ sz (j : nat) :
  Rep m σ -> size_ m < sz -> Z.of_nat j < size_ m -> σ !! j = None ->
  resize sz m = Crash UndefinedBehaviour.
Proof.
  intros HR Hsz Hj Hh. unfold resize. rewrite cassert_bind by (by apply Z.ltb_lt).
  rewrite (move_cells_hole _ _ _ _ j); [done|lia|].
  by rewrite <- Hh, (rep_cells _ _ HR).
Qed.

Lemma emplace_hole_aux m σ (i j : nat) v :
  Rep m σ -> small (size_ m) -> small (Z.of_nat i) -> σ !! i = None ->
  size_ m <= Z.of_nat i -> Z.of_nat j < size_ m -> σ !! j = None ->
  emplace (Z.of_nat i) v m = Crash UndefinedBehaviour.
Proof.
  intros HR [Hs0 Hs] [_ Hi] Hn Hsi Hj Hh. unfold emplace.
  rewrite cassert_bind by (by rewrite (contains_rep _ _ _ HR), Hn).
  rewrite (proj2 (Z.leb_le _ _)) by done.
  rewrite (u64_small (size_ m * 2)), (u64_small (_ + 1)) by lia.
  rewrite (resize_raw _ _ _ j HR); [done|lia|done..].
Qed.

Lemma remove_rep m σ (i : nat) v :
  Rep m σ -> small (size_ m) -> σ !! i = Some v ->
  exists m', remove (Z.of_nat i) m = Ok m' /\ Rep m' (delete i σ) /\ size_ m' = size_ m.
Proof.
  intros HR [_ Hs] Hv. unfold remove.
  rewrite cassert_bind by (by rewrite (contains_rep _ _ _ HR), Hv).
  assert (Z.of_nat i < size_ m) as Hi.
  { destruct (decide (size_ m <= Z.of_nat i)) as [Hh|]; [|lia].
    apply (rep_high _ _ HR) in Hh. congruence. }
  pose proof (rep_cells _ _ HR i) as Hc. unfold cell in Hc.
  rewrite Nat2Z.id, <- Hc, Hv.
  destruct (rep_in_range m σ i HR Hi) as [Hd Ho]. cbn [deref mbind outcome_bind].
  rewrite (store_in_range _ _ _ Hd), (store_in_range _ _ _ Ho). cbn [mbind outcome_bind].
  eexists. split_and!; [done| |done].
  pose proof (rep_num_le _ _ HR).
  pose proof (map_size_delete_Some i σ (mk_is_Some _ _ Hv)) as Hds.
  assert (base.size σ <> 0)%nat.
  { rewrite map_size_non_empty_iff. intros ->. by rewrite lookup_empty in Hv. }
  rewrite (rep_num _ _ HR), u64_small by lia.
  replace (Z.of_nat (base.size σ) - 1) with (Z.of_nat (base.size (delete i σ))) by lia.
  apply (write_rep m σ (delete i σ) i None HR Hi).
  - apply lookup_delete_eq.
  - intros j Hj. by apply lookup_delete_ne.
Qed.

Lemma at_rep m σ (i : nat) :
  Rep m σ -> at_ (Z.of_nat i) m =
    match σ !! i with Some v => Ok v | None => Crash AssertFailed end.
Proof.
  intros HR. unfold at_. rewrite (contains_rep _ _ _ HR), Nat2Z.id.
  pose proof (rep_cells _ _ HR i) as Hc. unfold cell in Hc. rewrite <- Hc.
  by destruct (σ !! i).
Qed.

Lemma remove_absent m σ (i : nat) :
  Rep m σ -> σ !! i = None -> remove (Z.of_nat i) m = Crash AssertFailed.
Proof. intros HR Hn. unfold remove. by rewrite (contains_rep _ _ _ HR), Hn. Qed.

Lemma rep_hole m σ :
  Rep m σ -> Z.of_nat (base.size σ) < size_ m ->
  exists j, Z.of_nat j < size_ m /\ σ !! j = None.
Proof.
  intros HR Hs.
  destruct (decide (Forall (fun j => is_Some (σ !! j)) (seq 0 (Z.to_nat (size_ m)))))
    as [Hall|Hall].
  - assert (set_seq (C := gset nat) 0 (Z.to_nat (size_ m)) ⊆ dom σ) as Hsub.
    { intros j Hj%elem_of_set_seq. apply elem_of_dom. rewrite list.Forall_forall in Hall.
      apply Hall, elem_of_seq. lia. }
    apply subseteq_size in Hsub. rewrite size_set_seq, size_dom in Hsub. lia.
  - apply not_Forall_Exists in Hall; [|apply _].
    apply list.Exists_exists in Hall as (j & Hj%elem_of_seq & Hn).
    exists j. split; [lia|]. by apply eq_None_not_Some.
Qed.

End VectorMap.
Arguments VectorMap : clear implicits.

(** ** Properties *)

(** [VectorMap::emplace] on every branch: an occupied index asserts; an index
    below [size()] is constructed in place; an index beyond it grows the storage
    to the larger of twice its size and [index + 1], keeping every element -
    provided all cells were occupied.  With one free cell below [size()], growth
    moves from raw storage. *)
Theorem vectormap_emplace_cases {T} (m : VectorMap T) σ (i : nat) v
    (HR : Rep m σ) (Hs : small (size_ m)) (Hi : small (Z.of_nat i))
    (Hmax : Z.max (2 * size_ m) (Z.of_nat i + 1) < 2 ^ 62) :
  (is_Some (σ !! i) -> emplace (Z.of_nat i) v m = Crash AssertFailed) /\
  (σ !! i = None ->
   (Z.of_nat i < size_ m \/ forall j, Z.of_nat j < size_ m -> is_Some (σ !! j)) ->
   exists m', emplace (Z.of_nat i) v m = Ok m' /\ Rep m' (<[i := v]> σ) /\
     occupied m' = occupied m + 1 /\
     size m' = if size_ m <=? Z.of_nat i
               then Z.max (size_ m * 2) (Z.of_nat i + 1) else size_ m) /\
  (σ !! i = None -> size_ m <= Z.of_nat i ->
   (exists j, Z.of_nat j < size_ m /\ σ !! j = None) ->
   emplace (Z.of_nat i) v m = Crash UndefinedBehaviour).
Proof.
  split_and!.
  - intros Hsome. unfold emplace. rewrite (contains_rep _ _ _ HR).
    by rewrite bool_decide_eq_true_2.
  - intros Hn Hgrow. destruct (emplace_rep m σ i v HR Hs Hi Hn Hgrow Hmax) as (m' & ? & HR' & ?).
    exists m'. split_and!; try done. unfold occupied.
    rewrite (rep_num _ _ HR'), (rep_num _ _ HR), map_size_insert_None by done. lia.
  - intros Hn Hge (j & Hj & Hh). by apply (emplace_hole_aux m σ i j v).
Qed.

Lemma vectormap_emplace_cases_witness :
  emplace 2 7%nat (mkVectorMap [None; Some 5%nat] 2 1 [false; true])
    = Crash UndefinedBehaviour.
Proof.
  assert (Rep (mkVectorMap [None; Some 5%nat] 2 1 [false; true]) {[1%nat := 5%nat]}) as HR.
  { constructor; try done.
    - intros [|[|i]]; [done|done|by rewrite lookup_singleton_ne].
    - intros [|[|i]]; [split; [done|by intros [? ?]]|split; [by eexists|done]|].
      rewrite lookup_singleton_ne by done. split; [done|by intros [? ?]].
    - intros [|[|i]]; [done|cbn; lia|by rewrite lookup_singleton_ne]. }
  apply (vectormap_emplace_cases _ _ 2 7%nat HR); try done. exists 0%nat. done.
Defined.

End VectorMap.

Module SlotMap.
Section SlotMap.
Context {T : Type}.

Record SlotMap : Type := mkSlotMap {
  data_ : VectorMap.VectorMap T;
  nextIndex_ : Z;
  freeList_ : list Z
}.

(** The two constructors. *)
Definition empty : SlotMap := mkSlotMap VectorMap.empty 0 [].
Definition make (sz : Z) : SlotMap := mkSlotMap (VectorMap.make sz) 0 [].

Definition size (m : SlotMap) : Z := VectorMap.occupied (data_ m).
Definition contains (index : Z) (m : SlotMap) : bool :=
  VectorMap.contains index (data_ m).

Definition resize (sz : Z) (m : SlotMap) : outcome SlotMap :=
  _ ← cassert (VectorMap.size (data_ m) <? sz);
  data ← VectorMap.resize sz (data_ m);
  Ok (mkSlotMap data (VectorMap.size (data_ m)) (freeList_ m)).

Definition getNewIndex (m : SlotMap) : Z * SlotMap :=
  match freeList_ m with
  | idx :: rest => (idx, mkSlotMap (data_ m) (nextIndex_ m) rest)
  | [] => (nextIndex_ m,
           mkSlotMap (data_ m) (u64 (nextIndex_ m + 1)) (freeList_ m))
  end.

(** Both overloads of [insert], and [emplace]. *)
Definition insert (v : T) (m : SlotMap) : outcome (Z * SlotMap) :=
  let '(idx, m) := getNewIndex m in
  data ← VectorMap.insert idx v (data_ m);
  Ok (idx, mkSlotMap data (nextIndex_ m) (freeList_ m)).

Definition remove (index : Z) (m : SlotMap) : outcome SlotMap :=
  _ ← cassert (VectorMap.contains index (data_ m));
  data ← VectorMap.remove index (data_ m);
  Ok (mkSlotMap data (nextIndex_ m) (freeList_ m ++ [index])).

Definition at_ (index : Z) (m : SlotMap) : outcome T :=
  _ ← cassert (VectorMap.contains index (data_ m));
  VectorMap.at_ index (data_ m).

(** ** Reachable slot maps *)

(** The slot maps a client can build with the constructors, [insert] and
    [remove], with the map of their elements and the largest number of elements
    they ever held. *)
Inductive reachable : SlotMap -> gmap nat T -> nat -> Prop :=
| reach_empty : reachable empty ∅ 0
| reach_make sz : reachable (make sz) ∅ 0
| reach_insert m σ peak v (idx : nat) m' peak' :
    reachable m σ peak -> insert v m = Ok (Z.of_nat idx, m') ->
    peak' = max peak (base.size (<[idx := v]> σ)) ->
    reachable m' (<[idx := v]> σ) peak'
| reach_remove m σ peak (idx : nat) m' :
    reachable m σ peak -> remove (Z.of_nat idx) m = Ok m' ->
    reachable m' (delete idx σ) peak.

(** Below [nextIndex_], an index is either occupied or in the free list. *)
Record Inv (m : SlotMap) (σ : gmap nat T) (free : list nat) (next : nat) : Prop := mkInv {
  inv_rep : VectorMap.Rep (data_ m) σ;
  inv_next : nextIndex_ m = Z.of_nat next;
  inv_freeList : freeList_ m = Z.of_nat <$> free;
  inv_nodup : NoDup free;
  inv_free_lt i : i ∈ free -> (i < next)%nat;
  inv_occupied i : is_Some (σ !! i) <-> (i < next)%nat /\ i ∉ free;
  inv_storage : Z.of_nat next <= VectorMap.size_ (data_ m) <= 2 * Z.of_nat next
}.

Lemma inv_dense m σ next : Inv m σ [] next -> base.size σ = next.
Proof.
  intros HI. rewrite <- size_dom.
  replace (dom σ) with (set_seq (C := gset nat) 0 next); [apply size_set_seq|].
  apply set_eq. intros i. rewrite elem_of_set_seq, elem_of_dom, (inv_occupied _ _ _ _ HI).
  split; [|lia]. intros Hi. split; [lia|apply not_elem_of_nil].
Qed.

Lemma inv_small m σ free next :
  Inv m σ free next -> Z.of_nat next < 2 ^ 60 -> VectorMap.small (VectorMap.size_ (data_ m)).
Proof.
  intros HI Hn. pose proof (inv_storage _ _ _ _ HI).
  pose proof (VectorMap.rep_size _ _ (inv_rep _ _ _ _ HI)). split; lia.
Qed.

(** With a free index, [insert] reuses the oldest one; the storage never grows. *)
Lemma insert_reuse m σ idx free next v :
  Inv m σ (idx :: free) next -> Z.of_nat next < 2 ^ 60 ->
  exists m', insert v m = Ok (Z.of_nat idx, m') /\ Inv m' (<[idx := v]> σ) free next.
Proof.
  intros HI Hn. pose proof (inv_free_lt _ _ _ _ HI idx (list_elem_of_here _ _)) as Hidx.
  pose proof (inv_small _ _ _ _ HI Hn) as Hsm.
  pose proof (inv_nodup _ _ _ _ HI) as [Hni Hnd]%list.NoDup_cons.
  assert (σ !! idx = None) as Hnone.
  { apply eq_None_not_Some. rewrite (inv_occupied _ _ _ _ HI). intros [_ Hx].
    apply Hx. left. }
  pose proof (inv_storage _ _ _ _ HI) as [Halloc Hst].
  destruct (VectorMap.emplace_rep (data_ m) σ idx v (inv_rep _ _ _ _ HI) Hsm)
    as (d & He & HR & Hs); [split; lia|done|left; lia|destruct Hsm; lia|].
  rewrite (proj2 (Z.leb_gt _ _)) in Hs by lia.
  unfold insert, getNewIndex. rewrite (inv_freeList _ _ _ _ HI).
  cbn [fmap list_fmap data_]. unfold VectorMap.insert. rewrite He. cbn.
  eexists. split; [done|]. constructor; cbn; try done.
  - apply (inv_next _ _ _ _ HI).
  - intros i Hi. apply (inv_free_lt _ _ _ _ HI). by right.
  - intros i. destruct (decide (idx = i)) as [<-|Hne].
    + rewrite lookup_insert_eq. by split.
    + rewrite lookup_insert_ne, (inv_occupied _ _ _ _ HI), not_elem_of_cons by done.
      naive_solver.
  - by rewrite Hs.
Qed.

(** Without one, it takes the next index, growing the storage if needed: every
    cell the growth moves is then occupied. *)
Lemma insert_new m σ next v :
  Inv m σ [] next -> Z.of_nat next < 2 ^ 60 ->
  exists m', insert v m = Ok (Z.of_nat next, m') /\ Inv m' (<[next := v]> σ) [] (S next).
Proof.
  intros HI Hn. pose proof (inv_small _ _ _ _ HI Hn) as Hsm.
  pose proof (inv_storage _ _ _ _ HI) as [Halloc Hst].
  assert (σ !! next = None) as Hnone.
  { apply eq_None_not_Some. rewrite (inv_occupied _ _ _ _ HI). lia. }
  destruct (VectorMap.emplace_rep (data_ m) σ next v (inv_rep _ _ _ _ HI) Hsm)
    as (d & He & HR & Hs); [split; lia|done| |destruct Hsm; lia|].
  { destruct (decide (Z.of_nat next < VectorMap.size_ (data_ m))); [by left|right].
    intros j Hj. apply (inv_occupied _ _ _ _ HI). split; [lia|apply not_elem_of_nil]. }
  unfold insert, getNewIndex.
  rewrite (inv_freeList _ _ _ _ HI), (inv_next _ _ _ _ HI).
  cbn [fmap list_fmap data_]. unfold VectorMap.insert. rewrite He.
  cbn [mbind outcome_bind nextIndex_ freeList_].
  eexists. split; [done|]. constructor; cbn [data_ nextIndex_ freeList_]; try done.
  - rewrite u64_small; lia.
  - constructor.
  - by intros i ?%elem_of_nil.
  - intros i. destruct (decide (next = i)) as [<-|Hne].
    + rewrite lookup_insert_eq. split; [|by eauto]. split; [lia|apply not_elem_of_nil].
    + rewrite lookup_insert_ne, (inv_occupied _ _ _ _ HI) by done.
      split; intros [? ?]; split; try done; lia.
  - destruct (Z.leb_spec (VectorMap.size_ (data_ m)) (Z.of_nat next)); lia.
Qed.

Lemma remove_inv m σ free next idx v :
  Inv m σ free next -> Z.of_nat next < 2 ^ 60 -> σ !! idx = Some v ->
  exists m', remove (Z.of_nat idx) m = Ok m' /\ Inv m' (delete idx σ) (free ++ [idx]) next.
Proof.
  intros HI Hn Hv. pose proof (inv_small _ _ _ _ HI Hn) as Hsm.
  pose proof (proj1 (inv_occupied _ _ _ _ HI idx) (mk_is_Some _ _ Hv)) as [Hlt Hni].
  destruct (VectorMap.remove_rep (data_ m) σ idx v (inv_rep _ _ _ _ HI) Hsm Hv)
    as (d & Hr & HR & Hs).
  unfold remove.
  rewrite cassert_bind by (by rewrite (VectorMap.contains_rep _ _ _ (inv_rep _ _ _ _ HI)), Hv).
  rewrite Hr. cbn [mbind outcome_bind]. eexists. split; [done|].
  constructor; cbn [data_ nextIndex_ freeList_]; try done.
  - apply (inv_next _ _ _ _ HI).
  - by rewrite (inv_freeList _ _ _ _ HI), fmap_app.
  - apply list.NoDup_app. split_and!; [apply (inv_nodup _ _ _ _ HI)| |apply list.NoDup_singleton].
    intros x Hx ->%list_elem_of_singleton. done.
  - intros i [Hi| ->%list_elem_of_singleton]%elem_of_app; [|done].
    by apply (inv_free_lt _ _ _ _ HI).
  - intros i. rewrite not_elem_of_app, list_elem_of_singleton. destruct (decide (idx = i)) as [<-|Hne].
    + rewrite lookup_delete_eq. split; [by intros [? ?]|naive_solver].
    + rewrite lookup_delete_ne, (inv_occupied _ _ _ _ HI) by done. naive_solver.
  - rewrite Hs. apply (inv_storage _ _ _ _ HI).
Qed.

Lemma inv_size_le m σ free next : Inv m σ free next -> (base.size σ <= next)%nat.
Proof.
  intros HI. rewrite <- size_dom, <- (size_set_seq (C := gset nat) 0 next).
  apply subseteq_size. intros i Hi%elem_of_dom.
  apply (inv_occupied _ _ _ _ HI) in Hi. apply elem_of_set_seq. lia.
Qed.

Lemma slots_init_inv d : VectorMap.Rep d ∅ -> VectorMap.size_ d = 0 -> Inv (mkSlotMap d 0 []) ∅ [] 0.
Proof.
  intros HR Hs. constructor; cbn; try done.
  - constructor.
  - by intros i ?%elem_of_nil.
  - intros i. rewrite lookup_empty. split; [by intros [? ?]|lia].
  - lia.
Qed.

Lemma reachable_inv m σ peak :
  reachable m σ peak -> Z.of_nat peak < 2 ^ 60 -> exists free, Inv m σ free peak.
Proof.
  induction 1 as [|sz|m σ peak v idx m' ? Hr IH Hi ->|m σ peak idx m' Hr IH Hrm]; intros Hp.
  - exists []. by apply slots_init_inv; [apply VectorMap.empty_rep|].
  - exists []. by apply slots_init_inv; [apply VectorMap.make_rep|].
  - destruct IH as [[|f free] HI]; [lia|..].
    + destruct (insert_new m σ peak v HI) as (m1 & Hi1 & HI1); [lia|].
      rewrite Hi in Hi1. injection Hi1 as ->%Nat2Z.inj ->. exists [].
      pose proof (inv_dense _ _ _ HI1) as Hd. rewrite Hd, Nat.max_r by lia. done.
    + destruct (insert_reuse m σ f free peak v HI) as (m1 & Hi1 & HI1); [lia|].
      rewrite Hi in Hi1. injection Hi1 as ->%Nat2Z.inj ->. exists free.
      rewrite Nat.max_l; [done|]. by eapply inv_size_le.
  - destruct (IH Hp) as [free HI].
    destruct (σ !! idx) as [v|] eqn:Hv.
    + destruct (remove_inv m σ free peak idx v HI Hp Hv) as (m1 & Hr1 & HI1).
      rewrite Hrm in Hr1. injection Hr1 as ->. by eexists.
    + exfalso. unfold remove in Hrm.
      by rewrite (VectorMap.contains_rep _ _ _ (inv_rep _ _ _ _ HI)), Hv in Hrm.
Qed.

Lemma insert_inv m σ free next v :
  Inv m σ free next -> Z.of_nat next < 2 ^ 60 ->
  exists (idx : nat) m', insert v m = Ok (Z.of_nat idx, m') /\ σ !! idx = None /\
    idx = default next (head free).
Proof.
  intros HI Hn. destruct free as [|f free].
  - destruct (insert_new m σ next v HI Hn) as (m' & Hi & _). exists next, m'.
    split_and!; [done| |done]. apply eq_None_not_Some. rewrite (inv_occupied _ _ _ _ HI). lia.
  - destruct (insert_reuse m σ f free next v HI Hn) as (m' & Hi & _). exists f, m'.
    split_and!; [done| |done]. apply eq_None_not_Some. rewrite (inv_occupied _ _ _ _ HI).
    intros [_ Hx]. apply Hx. left.
Qed.

End SlotMap.
Arguments SlotMap : clear implicits.

Example insert_twice :
  ('(i, m) ← insert 10 empty; '(j, m) ← insert 20 m; m ← remove i m;
   '(k, m) ← insert 30 m; a ← at_ j m; b ← at_ k m; Ok (i, j, k, a, b))
  = Ok (0, 1, 0, 20, 30).
Proof. vm_compute. reflexivity. Qed.

(** After [SlotMap::resize] the indices it skipped are never constructed, so the
    next growth moves from a raw cell. *)
Example resize_moves_raw :
  ('(i, m) ← insert 10 empty; '(j, m) ← insert 20 m; '(k, m) ← insert 30 m;
   resize 5 m) = Crash UndefinedBehaviour.
Proof. vm_compute. reflexivity. Qed.


(** ** Properties *)

(** Slot maps for the witnesses below, and how a client builds them. *)
Definition ex1 : SlotMap nat :=
  mkSlotMap (VectorMap.mkVectorMap [Some 10%nat] 1 1 [true]) 1 [].
Definition ex2 : SlotMap nat :=
  mkSlotMap (VectorMap.mkVectorMap [Some 10%nat; Some 20%nat] 2 2 [true; true]) 2 [].
Definition ex2_removed : SlotMap nat :=
  mkSlotMap (VectorMap.mkVectorMap [None; Some 20%nat] 2 1 [false; true]) 2 [0].
Definition ex3 : SlotMap nat :=
  mkSlotMap (VectorMap.mkVectorMap [Some 10%nat; Some 20%nat; Some 30%nat; None] 4 3
    [true; true; true; false]) 3 [].

Lemma ex1_reachable : reachable ex1 (<[0%nat := 10%nat]> ∅) 1.
Proof.
  apply (reach_insert empty ∅ 0 10%nat 0); [apply reach_empty|..];
    vm_compute; reflexivity.
Qed.

Lemma ex2_reachable : reachable ex2 (<[1%nat := 20%nat]> (<[0%nat := 10%nat]> ∅)) 2.
Proof.
  apply (reach_insert ex1 _ 1 20%nat 1 ex2 _ ex1_reachable); vm_compute; reflexivity.
Qed.

Lemma ex2_removed_reachable :
  reachable ex2_removed (delete 0%nat (<[1%nat := 20%nat]> (<[0%nat := 10%nat]> ∅))) 2.
Proof. apply (reach_remove ex2 _ 2 0 _ ex2_reachable). vm_compute. reflexivity. Qed.

Lemma ex3_reachable :
  reachable ex3 (<[2%nat := 30%nat]> (<[1%nat := 20%nat]> (<[0%nat := 10%nat]> ∅))) 3.
Proof.
  apply (reach_insert ex2 _ 2 30%nat 2 ex3 _ ex2_reachable); vm_compute; reflexivity.
Qed.

(** C27: Every slot map built with the constructors, [insert] and [remove] is
    safe to use: [insert] never moves from or writes to raw storage and returns
    an index no element has; every element is read back through the index it was
    inserted under until that index is removed; a read or removal of any other
    index asserts; and [size()] counts the elements. *)
Theorem slotmap_safe {T} (m : SlotMap T) σ peak
    (Hr : reachable m σ peak) (Hp : Z.of_nat peak < 2 ^ 60) :
  size m = Z.of_nat (base.size σ) /\
  (forall v, exists (idx : nat) m', insert v m = Ok (Z.of_nat idx, m') /\ σ !! idx = None) /\
  forall idx : nat,
    match σ !! idx with
    | Some v => at_ (Z.of_nat idx) m = Ok v /\ exists m', remove (Z.of_nat idx) m = Ok m'
    | None => at_ (Z.of_nat idx) m = Crash AssertFailed /\
              remove (Z.of_nat idx) m = Crash AssertFailed
    end.
Proof.
  destruct (reachable_inv m σ peak Hr Hp) as [free HI].
  pose proof (inv_rep _ _ _ _ HI) as HR. split_and!.
  - apply (VectorMap.rep_num _ _ HR).
  - intros v. destruct (insert_inv m σ free peak v HI Hp) as (idx & m' & ? & ? & _). eauto.
  - intros idx. unfold at_. rewrite (VectorMap.contains_rep _ _ _ HR).
    destruct (σ !! idx) as [v|] eqn:Hv; cbn.
    + rewrite (VectorMap.at_rep _ _ _ HR), Hv. split; [done|].
      destruct (remove_inv m σ free peak idx v HI Hp Hv) as (m' & ? & _). eauto.
    + split; [done|]. unfold remove. by rewrite (VectorMap.contains_rep _ _ _ HR), Hv.
Qed.

Lemma slotmap_safe_witness :
  at_ 1 ex2_removed = Ok 20%nat /\ at_ 0 ex2_removed = Crash AssertFailed /\
  size ex2_removed = 1 /\
  exists (idx : nat) m', insert 30%nat ex2_removed = Ok (Z.of_nat idx, m').
Proof.
  destruct (slotmap_safe _ _ _ ex2_removed_reachable) as (Hs & Hins & Hat);
    [vm_compute; reflexivity|].
  split; [exact (proj1 (Hat 1%nat))|].
  split; [exact (proj1 (Hat 0%nat))|]. split; [exact Hs|].
  destruct (Hins 30%nat) as (idx & m' & Hi & _). exists idx, m'. exact Hi.
Defined.

(** The indices handed out stay dense: [nextIndex_] is the largest number of
    elements that were ever alive together, every element's index is below it,
    and [insert] opens a new index only when all the earlier ones are in use. *)
Theorem slotmap_index_bound {T} (m : SlotMap T) σ peak
    (Hr : reachable m σ peak) (Hp : Z.of_nat peak < 2 ^ 60) :
  nextIndex_ m = Z.of_nat peak /\
  (forall idx, is_Some (σ !! idx) -> (idx < peak)%nat) /\
  (forall v idx m', insert v m = Ok (idx, m') ->
     if decide (base.size σ = peak) then idx = Z.of_nat peak else 0 <= idx < Z.of_nat peak).
Proof.
  destruct (reachable_inv m σ peak Hr Hp) as [free HI]. split_and!.
  - apply (inv_next _ _ _ _ HI).
  - intros idx Hs. by apply (inv_occupied _ _ _ _ HI) in Hs as [? _].
  - intros v idx m' Hi. destruct free as [|f free].
    + rewrite decide_True by (by eapply inv_dense).
      destruct (insert_new m σ peak v HI Hp) as (m1 & Hi1 & _). congruence.
    + pose proof (inv_free_lt _ _ _ _ HI f (list_elem_of_here _ _)).
      destruct (insert_reuse m σ f free peak v HI Hp) as (m1 & Hi1 & HI1).
      rewrite Hi in Hi1. injection Hi1 as -> ->.
      rewrite decide_False; [lia|]. intros Hs.
      assert (σ !! f = None) as Hnone.
      { apply eq_None_not_Some. rewrite (inv_occupied _ _ _ _ HI). intros [_ Hx].
        apply Hx. left. }
      pose proof (inv_size_le _ _ _ _ HI1) as Hle.
      rewrite map_size_insert_None in Hle by done. lia.
Qed.

Lemma slotmap_index_bound_witness :
  nextIndex_ ex1 = 1 /\ forall v idx m', insert v ex1 = Ok (idx, m') -> idx = 1.
Proof.
  destruct (slotmap_index_bound _ _ _ ex1_reachable) as (Hn & _ & Hi);
    [vm_compute; reflexivity|].
  split; [exact Hn|]. intros v idx m' H. exact (Hi v idx m' H).
Defined.

(** [SlotMap::resize] is only defined while the storage is full: when some
    allocated cell holds no element - after a removal, or because growth doubled
    the storage - it moves from raw storage. *)
Theorem slotmap_resize_raw_move {T} (m : SlotMap T) σ peak sz
    (Hr : reachable m σ peak) (Hp : Z.of_nat peak < 2 ^ 60)
    (Hsz : VectorMap.size (data_ m) < sz)
    (Hhole : Z.of_nat (base.size σ) < VectorMap.size (data_ m)) :
  resize sz m = Crash UndefinedBehaviour.
Proof.
  destruct (reachable_inv m σ peak Hr Hp) as [free HI].
  pose proof (inv_rep _ _ _ _ HI) as HR. unfold VectorMap.size in *.
  destruct (VectorMap.rep_hole _ _ HR Hhole) as (j & Hj & Hh).
  unfold resize. rewrite cassert_bind by (by apply Z.ltb_lt).
  by rewrite (VectorMap.resize_raw _ _ _ j HR Hsz Hj Hh).
Qed.

Lemma slotmap_resize_raw_move_witness : resize 5 ex3 = Crash UndefinedBehaviour.
Proof.
  apply (slotmap_resize_raw_move _ _ _ 5 ex3_reachable); vm_compute; reflexivity.
Defined.

End SlotMap.
