(* ===== verification/Mpsc.v ===== *)
(** * The multi-producer single-consumer queue: [MpscQueue] (mpscqueue.hpp)

    The atomics are sequentially consistent, so an execution is an interleaving
    of the threads' accesses to shared memory.  [step] performs one such access
    of one thread: a producer's [exchange] and [store] of the private [produce], or
    the next load, store or exchange of the consumer inside [consume()]. *)

From Stdlib Require Import Lia.
From stdpp Require Import base numbers list gmap option.
From S2P Require Import Prelude.

Module MpscQueue.
Section MpscQueue.
Context {T : Type} (dflt : T).

(** ** Data *)

(** A node's address; the queue's own [stub_] member has address 0.  A null
    [Node*] is [None]. *)
Abbreviation ptr := nat.
Definition stub_ : ptr := 0.

Record Node : Type := mkNode { value : T; next : option ptr }.

(** Where a producer is inside [produce(T&&)]: the node it allocated is not yet
    exchanged into [produceEnd_], or not yet linked from [prev]. *)
Inductive producer_pc : Type :=
| PExchange (node : ptr) (v : T)
| PLink (prev node : ptr).

(** Where the consumer is inside [consume()], with the live local variables. *)
Inductive consumer_pc : Type :=
| CIdle                             (* not inside consume() *)
| CLoadNext (node : ptr)            (* auto next = node->next.load() *)
| CMoveEnd (next : ptr)             (* stub: consumeEnd_.store(next) *)
| CReload (node : ptr)              (* next = node->next *)
| CTake (node next : ptr)           (* consumeEnd_.store(next) *)
| CUnpack (node : ptr)              (* return unpackNode(node) *)
| CCheckEnd (node : ptr)            (* node != produceEnd_.load() *)
| CResetStub (node : ptr)           (* stub_.next.store(nullptr) *)
| CExchange (node : ptr)            (* produce(&stub_): the exchange *)
| CLink (node prev : ptr)           (* produce(&stub_): the store *)
| CFinal (node : ptr).              (* next = node->next.load() *)

Record state : Type := mkState {
  heap : gmap ptr Node;
  consumeEnd_ : ptr;
  produceEnd_ : ptr;
  producers : gmap nat producer_pc;
  consumer : consumer_pc
}.

(** The constructor. *)
Definition init : state :=
  mkState {[stub_ := mkNode dflt None]} stub_ stub_ ∅ CIdle.

(** What an access makes visible: a value enters the queue (the exchange orders
    it), or [consume()] returns. *)
Inductive event : Type :=
| Produced (v : T)
| Consumed (r : option T).

Inductive action : Type :=
| AProduce (tid : nat) (n : ptr) (v : T)   (* produce(v): new Node at address n *)
| AProducer (tid : nat)                    (* the next access of that producer *)
| AConsumer.                               (* the next access of the consumer *)

(** ** One access *)

(** [p->next.store(nx)]; undefined when [p] is not a live node. *)
Definition store_next (p : ptr) (nx : option ptr) (h : gmap ptr Node)
    : outcome (gmap ptr Node) :=
  nd ← deref (h !! p);
  Ok (<[p := mkNode (value nd) nx]> h).

(** [p->next.load()]. *)
Definition load_next (p : ptr) (h : gmap ptr Node) : outcome (option ptr) :=
  nd ← deref (h !! p);
  Ok (next nd).

Definition set_consumer (c : consumer_pc) (s : state) : state :=
  mkState (heap s) (consumeEnd_ s) (produceEnd_ s) (producers s) c.

(** [new Node { std::move(value), nullptr }] in thread [tid]; the allocator may
    return any address that is not in use. *)
Definition start_produce (tid : nat) (n : ptr) (v : T) (s : state) : state :=
  match producers s !! tid, heap s !! n with
  | None, None =>
      mkState (<[n := mkNode v None]> (heap s)) (consumeEnd_ s) (produceEnd_ s)
        (<[tid := PExchange n v]> (producers s)) (consumer s)
  | _, _ => s
  end.

Definition producer_step (tid : nat) (s : state) : outcome (state * list event) :=
  match producers s !! tid with
  | Some (PExchange node v) =>
      Ok (mkState (heap s) (consumeEnd_ s) node
            (<[tid := PLink (produceEnd_ s) node]> (producers s)) (consumer s),
          [Produced v])
  | Some (PLink prev node) =>
      h ← store_next prev (Some node) (heap s);
      Ok (mkState h (consumeEnd_ s) (produceEnd_ s) (delete tid (producers s))
            (consumer s), [])
  | None => Ok (s, [])
  end.

(** [if (next) { ... return unpackNode(node); }] and what follows it. *)
Definition branch_next (node : ptr) (nx : option ptr) : consumer_pc :=
  match nx with
  | Some nx => CTake node nx
  | None => CCheckEnd node
  end.

(** [end_check] says whether [consume()] tests [node != produceEnd_.load()], as
    it does. *)
Definition consumer_step (end_check : bool) (s : state) : outcome (state * list event) :=
  match consumer s with
  | CIdle => Ok (set_consumer (CLoadNext (consumeEnd_ s)) s, [])
  | CLoadNext node =>
      nx ← load_next node (heap s);
      if decide (node = stub_) then
        match nx with
        | None => Ok (set_consumer CIdle s, [Consumed None])
        | Some nx => Ok (set_consumer (CMoveEnd nx) s, [])
        end
      else Ok (set_consumer (branch_next node nx) s, [])
  | CMoveEnd nx =>
      Ok (mkState (heap s) nx (produceEnd_ s) (producers s) (CReload nx), [])
  | CReload node =>
      nx ← load_next node (heap s);
      Ok (set_consumer (branch_next node nx) s, [])
  | CTake node nx =>
      Ok (mkState (heap s) nx (produceEnd_ s) (producers s) (CUnpack node), [])
  | CUnpack node =>
      (* [delete] of the stub, which is no heap object, is undefined *)
      if decide (node = stub_) then Crash UndefinedBehaviour else
      nd ← deref (heap s !! node);
      Ok (mkState (delete node (heap s)) (consumeEnd_ s) (produceEnd_ s)
            (producers s) CIdle, [Consumed (Some (value nd))])
  | CCheckEnd node =>
      if end_check && negb (bool_decide (node = produceEnd_ s))
      then Ok (set_consumer CIdle s, [Consumed None])
      else Ok (set_consumer (CResetStub node) s, [])
  | CResetStub node =>
      h ← store_next stub_ None (heap s);
      Ok (mkState h (consumeEnd_ s) (produceEnd_ s) (producers s) (CExchange node), [])
  | CExchange node =>
      Ok (mkState (heap s) (consumeEnd_ s) stub_ (producers s)
            (CLink node (produceEnd_ s)), [])
  | CLink node prev =>
      h ← store_next prev (Some stub_) (heap s);
      Ok (mkState h (consumeEnd_ s) (produceEnd_ s) (producers s) (CFinal node), [])
  | CFinal node =>
      nx ← load_next node (heap s);
      match nx with
      | Some nx => Ok (set_consumer (CTake node nx) s, [])
      | None => Ok (set_consumer CIdle s, [Consumed None])
      end
  end.

Definition step (end_check : bool) (a : action) (s : state) : outcome (state * list event) :=
  match a with
  | AProduce tid n v => Ok (start_produce tid n v s, [])
  | AProducer tid => producer_step tid s
  | AConsumer => consumer_step end_check s
  end.

(** An interleaving, and the events it makes visible, in order. *)
Fixpoint run (end_check : bool) (acts : list action) (s : state)
    : outcome (state * list event) :=
  match acts with
  | [] => Ok (s, [])
  | a :: acts' =>
      '(s1, e1) ← step end_check a s;
      '(s2, e2) ← run end_check acts' s1;
      Ok (s2, e1 ++ e2)
  end.

Definition produced (evs : list event) : list T :=
  omap (fun e => match e with Produced v => Some v | _ => None end) evs.

Definition consumed (evs : list event) : list T :=
  omap (fun e => match e with Consumed (Some v) => Some v | _ => None end) evs.

(** ** The chain of nodes

    [L] lists the queue's nodes in the order of their exchanges, from the one at
    the consumer to the one in [produceEnd_].  A node is linked to its successor,
    or the thread that exchanged the successor is still about to link it. *)

Definition next_of (s : state) (a : ptr) : option ptr := heap s !! a ≫= next.

Definition pending (s : state) (a b : ptr) : Prop :=
  (exists tid, producers s !! tid = Some (PLink a b)) \/
  (b = stub_ /\ exists node, consumer s = CLink node a).

(** What the node [o] of the heap and the set [P] of links pending from it say
    about its successor. *)
Definition edge_of (o : option Node) (P : ptr -> Prop) (succ : option ptr) : Prop :=
  exists nd, o = Some nd /\
  match succ with
  | Some b => (next nd = Some b /\ (forall b', ~ P b')) \/
              (next nd = None /\ (forall b', P b' <-> b' = b))
  | None => next nd = None /\ (forall b', ~ P b')
  end.

Definition edge (s : state) (a : ptr) (succ : option ptr) : Prop :=
  edge_of (heap s !! a) (pending s a) succ.

Fixpoint chain (e : ptr -> option ptr -> Prop) (L : list ptr) : Prop :=
  match L with
  | [] => True
  | a :: L' => e a (head L') /\ chain e L'
  end.

Fixpoint contents (h : gmap ptr Node) (L : list ptr) : list T :=
  match L with
  | [] => []
  | a :: L' =>
      (if decide (a = stub_) then [] else option_list (value <$> h !! a)) ++ contents h L'
  end.

Definition owned (p : producer_pc) : ptr :=
  match p with PExchange n _ => n | PLink _ n => n end.

(** What the consumer knows about the chain at each of its program points. *)
Definition consumer_ok (s : state) (L : list ptr) : Prop :=
  match consumer s with
  | CIdle => head L = Some (consumeEnd_ s)
  | CLoadNext node => head L = Some node /\ consumeEnd_ s = node
  | CMoveEnd nx => exists L', L = stub_ :: nx :: L' /\ next_of s stub_ = Some nx
  | CReload node => head L = Some node /\ consumeEnd_ s = node /\ stub_ ∉ L
  | CTake node nx => node <> stub_ /\ exists L', L = node :: nx :: L' /\
      next_of s node = Some nx
  | CUnpack node => head L = Some (consumeEnd_ s) /\ (node ∉ L) /\ node <> stub_ /\
      is_Some (heap s !! node) /\
      forall tid n v, producers s !! tid = Some (PExchange n v) -> n <> node
  | CCheckEnd node => head L = Some node /\ consumeEnd_ s = node /\ node <> stub_
  | CResetStub node => head L = Some node /\ consumeEnd_ s = node /\ stub_ ∉ L
  | CExchange node => head L = Some node /\ consumeEnd_ s = node /\ (stub_ ∉ L) /\
      next_of s stub_ = None
  | CLink node _ => head L = Some node /\ consumeEnd_ s = node /\ node <> stub_
  | CFinal node => head L = Some node /\ consumeEnd_ s = node /\ node <> stub_
  end.

Record Inv (s : state) (L : list ptr) : Prop := mkInv {
  inv_nodup : NoDup L;
  inv_last : list.last L = Some (produceEnd_ s);
  inv_chain : chain (edge s) L;
  inv_pending a b : pending s a b -> a ∈ L;
  inv_stub : is_Some (heap s !! stub_);
  inv_exchange tid n v : producers s !! tid = Some (PExchange n v) ->
    heap s !! n = Some (mkNode v None) /\ (n ∉ L) /\ n <> stub_;
  inv_link tid a b : producers s !! tid = Some (PLink a b) -> (b ∈ L) /\ b <> stub_;
  inv_owner t1 t2 p1 p2 : producers s !! t1 = Some p1 -> producers s !! t2 = Some p2 ->
    owned p1 = owned p2 -> t1 = t2;
  inv_dom a : is_Some (heap s !! a) ->
    a = stub_ \/ (a ∈ L) \/ (exists tid v, producers s !! tid = Some (PExchange a v)) \/
    consumer s = CUnpack a;
  inv_consumer : consumer_ok s L
}.

(** The queue's abstract contents: what the consumer has claimed but not yet
    returned, and the values along the chain. *)
Definition claimed (s : state) : list T :=
  match consumer s with
  | CUnpack node => option_list (value <$> heap s !! node)
  | _ => []
  end.

Definition represents (s : state) (Q : list T) : Prop :=
  exists L, Inv s L /\ Q = claimed s ++ contents (heap s) L.

(** *** Lemmas on chains *)

Lemma chain_impl (e1 e2 : ptr -> option ptr -> Prop) L :
  (forall a o, a ∈ L -> e1 a o -> e2 a o) -> chain e1 L -> chain e2 L.
Proof.
  induction L as [|a L IH]; cbn; [done|]. intros He [Ha Hc]. split.
  - apply He; [left|done].
  - apply IH; [|done]. intros. apply He; [by right|done].
Qed.

Lemma chain_push (e1 e2 : ptr -> option ptr -> Prop) L l n :
  NoDup L -> list.last L = Some l ->
  (forall a b, a ∈ L -> a <> l -> e1 a (Some b) -> e2 a (Some b)) ->
  (e1 l None -> e2 l (Some n)) -> e2 n None ->
  chain e1 L -> chain e2 (L ++ [n]).
Proof.
  induction L as [|a L IH]; [done|]. intros Hnd Hl He Hln Hn [Ha Hc].
  apply list.NoDup_cons in Hnd as [Hna Hnd].
  destruct L as [|b L].
  - injection Hl as ->. cbn in *. split_and!; [by apply Hln|done|done].
  - assert (list.last (b :: L) = Some l) as Hl' by done. split.
    + apply He; [left| |done]. intros ->. by apply Hna, list.last_Some_elem_of.
    + apply IH; try done. intros. apply He; [by right|done..].
Qed.

Lemma head_in {A} (L : list A) x : head L = Some x -> x ∈ L.
Proof. destruct L; [done|]. intros [= ->]. left. Qed.

Lemma chain_succ e L a :
  chain e L -> a ∈ L -> exists o, e a o /\ forall b, o = Some b -> b ∈ tail L.
Proof.
  induction L as [|x L IH]; intros Hc Ha; [by apply elem_of_nil in Ha|].
  destruct Hc as [Hx Hc]. apply elem_of_cons in Ha as [->|Ha].
  - exists (head L). split; [done|]. intros b. apply head_in.
  - destruct (IH Hc Ha) as (o & Ho & Hb). exists o. split; [done|].
    intros b Hob. destruct L; [by apply elem_of_nil in Ha|]. right. by apply Hb.
Qed.

Lemma chain_edge e L a : chain e L -> a ∈ L -> exists o, e a o.
Proof. intros Hc Ha. destruct (chain_succ e L a Hc Ha) as (o & ? & _). by exists o. Qed.

Lemma contents_app h L1 L2 : contents h (L1 ++ L2) = contents h L1 ++ contents h L2.
Proof. induction L1 as [|a L IH]; cbn; [done|]. by rewrite IH, app_assoc. Qed.

Lemma contents_ext h1 h2 L :
  (forall a, a ∈ L -> a <> stub_ -> value <$> h1 !! a = value <$> h2 !! a) ->
  contents h1 L = contents h2 L.
Proof.
  induction L as [|a L IH]; cbn; [done|]. intros Hh. rewrite IH.
  - case_decide; [done|]. by rewrite (Hh a) by (done || left).
  - intros. apply Hh; [by right|done].
Qed.

Lemma head_app {A} (L L' : list A) x : head L = Some x -> head (L ++ L') = Some x.
Proof. by destruct L. Qed.

Lemma next_of_Some s a nd : heap s !! a = Some nd -> next_of s a = next nd.
Proof. intros H. unfold next_of. by rewrite H. Qed.

Lemma edge_of_proper o P P' succ :
  (forall b, P' b <-> P b) -> edge_of o P succ -> edge_of o P' succ.
Proof.
  intros HP (nd & Hnd & He). exists nd. split; [done|].
  destruct succ; setoid_rewrite HP; done.
Qed.

Lemma edge_alive s L a : Inv s L -> a ∈ L -> is_Some (heap s !! a).
Proof.
  intros HI Ha. destruct (chain_edge _ _ _ (inv_chain _ _ HI) Ha) as (o & nd & Hnd & _).
  by exists nd.
Qed.

(** A pending link is a missing one, and the only one from its node. *)
Lemma pending_spec s L a b :
  Inv s L -> pending s a b ->
  next_of s a = None /\ (forall c, pending s a c -> c = b) /\ edge s a (Some b).
Proof.
  intros HI Hp. unfold next_of.
  destruct (chain_edge _ _ _ (inv_chain _ _ HI) (inv_pending _ _ HI _ _ Hp))
    as ([c|] & nd & Hnd & He); rewrite Hnd.
  - destruct He as [[_ Hn]|[Hx Hiff]]; [by apply Hn in Hp|].
    pose proof Hp as ->%Hiff. split_and!; [done|by intros ? ?%Hiff|].
    exists nd. split; [done|]. by right.
  - destruct He as [_ Hn]. by apply Hn in Hp.
Qed.

Lemma linked_not_pending s L a b c : Inv s L -> next_of s a = Some b -> ~ pending s a c.
Proof. intros HI Hn Hp. apply (pending_spec _ _ _ _ HI) in Hp as [Hn' _]. congruence. Qed.

(** *** How the chain moves with an access *)

Lemma chain_same s s' L :
  (forall a b, pending s' a b <-> pending s a b) ->
  (forall a, a ∈ L -> heap s' !! a = heap s !! a) ->
  chain (edge s) L -> chain (edge s') L.
Proof.
  intros Hp Hh. apply chain_impl. intros a o Ha. unfold edge. rewrite Hh by done.
  by apply edge_of_proper.
Qed.

(** The exchange of [n] into [produceEnd_]. *)
Lemma chain_exchange s s' L n :
  Inv s L -> n ∉ L -> heap s' = heap s -> (exists nd, heap s !! n = Some nd /\ next nd = None) ->
  (forall a b, pending s' a b <-> pending s a b \/ (a = produceEnd_ s /\ b = n)) ->
  chain (edge s') (L ++ [n]).
Proof.
  intros HI Hn Hh (ndn & Hndn & Hnx) Hp. pose proof (inv_last _ _ HI) as Hl.
  apply (chain_push (edge s) (edge s') L (produceEnd_ s) n (inv_nodup _ _ HI) Hl);
    [| | |apply (inv_chain _ _ HI)]; unfold edge; rewrite Hh.
  - intros a b Ha Hne. apply edge_of_proper. intros c. rewrite Hp. naive_solver.
  - intros (nd & Hnd & Hx & Hno). exists nd. split; [done|]. right. split; [done|].
    intros b. rewrite Hp. naive_solver.
  - exists ndn. split_and!; [done..|]. intros b [Hb|[-> _]]%Hp.
    + apply Hn. by eapply inv_pending.
    + apply Hn. by apply list.last_Some_elem_of.
Qed.

(** The store that links [prev] to [b]. *)
Lemma chain_link s s' L prev b nd :
  Inv s L -> pending s prev b -> heap s !! prev = Some nd ->
  heap s' = <[prev := mkNode (value nd) (Some b)]> (heap s) ->
  (forall a c, pending s' a c <-> pending s a c /\ a <> prev) ->
  chain (edge s') L.
Proof.
  intros HI Hpb Hnd Hh Hp. apply (chain_impl (edge s)); [|apply (inv_chain _ _ HI)].
  intros a o Ha. unfold edge. rewrite Hh.
  destruct (decide (a = prev)) as [->|Hne].
  - rewrite lookup_insert_eq, Hnd. intros (nd' & [= <-] & He).
    eexists. split; [done|]. cbn. destruct o as [c|].
    + left. destruct He as [[_ Hno]|[_ Hiff]]; [by apply Hno in Hpb|].
      apply Hiff in Hpb as ->. split; [done|]. intros b'. rewrite Hp. naive_solver.
    + destruct He as [_ Hno]. by apply Hno in Hpb.
  - rewrite lookup_insert_ne by done. apply edge_of_proper. intros c. rewrite Hp. naive_solver.
Qed.

(** Pops the first node, which is linked to the second. *)
Lemma chain_pop s s' L a b :
  Inv s (a :: b :: L) -> next_of s a = Some b ->
  heap s' = heap s -> (forall x y, pending s' x y <-> pending s x y) ->
  chain (edge s') (b :: L) /\ NoDup (b :: L) /\ list.last (b :: L) = Some (produceEnd_ s) /\
  (forall x y, pending s x y -> x ∈ b :: L) /\ a ∉ b :: L.
Proof.
  intros HI Hn Hh Hp. pose proof (inv_nodup _ _ HI) as [Hna Hnd]%list.NoDup_cons.
  split_and!; try done.
  - apply (chain_same s); [done|by rewrite Hh|]. apply (inv_chain _ _ HI).
  - apply (inv_last _ _ HI).
  - intros x y Hxy. pose proof (inv_pending _ _ HI _ _ Hxy) as [->|?]%elem_of_cons; [|done].
    by apply (linked_not_pending _ _ _ _ y HI) in Hn.
Qed.

(** No link to the first node of the chain is pending. *)
Lemma head_not_target s L a x : Inv s (a :: L) -> ~ pending s x a.
Proof.
  intros HI Hp. pose proof (inv_nodup _ _ HI) as [Hna _]%list.NoDup_cons.
  destruct (chain_succ _ _ _ (inv_chain _ _ HI) (inv_pending _ _ HI _ _ Hp))
    as (o & (nd & _ & He) & Ho). apply Hna.
  destruct o as [b|]; [|by destruct He as [_ Hno]; apply Hno in Hp].
  destruct He as [[_ Hno]|[_ Hiff]]; [by apply Hno in Hp|].
  apply Hiff in Hp as ->. by apply Ho.
Qed.

(** *** The producers' accesses *)

(** What a producer's access leaves of the consumer's knowledge. *)
Lemma consumer_ok_frame s s' L X :
  consumer s' = consumer s -> consumeEnd_ s' = consumeEnd_ s -> stub_ ∉ X ->
  (forall node, consumer s = CUnpack node -> node ∉ X) ->
  (forall a b, next_of s a = Some b -> next_of s' a = Some b) ->
  (stub_ ∉ L -> next_of s stub_ = None -> next_of s' stub_ = None) ->
  (forall a, is_Some (heap s !! a) -> is_Some (heap s' !! a)) ->
  (forall tid n v, producers s' !! tid = Some (PExchange n v) ->
     producers s !! tid = Some (PExchange n v) \/ heap s !! n = None) ->
  consumer_ok s L -> consumer_ok s' (L ++ X).
Proof.
  intros Hc He HX Hu Hn Hn0 Hh Hp. unfold consumer_ok. rewrite Hc, He.
  assert (forall x, x ∉ L -> x ∉ X -> x ∉ L ++ X) as Happ by (intros; rewrite elem_of_app; tauto).
  destruct (consumer s) as [|node|nx|node|node nx|node|node|node|node|node prev|node] eqn:Ec.
  all: try (by intros; rewrite ?(head_app L X _ ltac:(tauto)); tauto).
  - by apply head_app.
  - intros [? ?]. split; [by apply head_app|done].
  - intros (L' & -> & ?). exists (L' ++ X). split; [done|]. by apply Hn.
  - intros (? & ? & ?). split_and!; [by apply head_app|done|by apply Happ].
  - intros (? & L' & -> & ?). split; [done|]. exists (L' ++ X). split; [done|]. by apply Hn.
  - intros (? & ? & ? & Hs & Hex). split_and!; [by apply head_app|by apply Happ, Hu|done|by apply Hh|].
    intros tid n v [Hx|Hx]%Hp ->; [by eapply Hex|]. rewrite Hx in Hs. by destruct Hs.
  - intros (? & ? & ?). split_and!; [by apply head_app|done..].
  - intros (? & ? & ?). split_and!; [by apply head_app|done|by apply Happ].
  - intros (? & ? & ? & ?). split_and!; [by apply head_app|done|by apply Happ|by apply Hn0].
  - intros (? & ? & ?). split_and!; [by apply head_app|done..].
  - intros (? & ? & ?). split_and!; [by apply head_app|done..].
Qed.

Lemma claimed_frame s s' :
  consumer s' = consumer s ->
  (forall a, consumer s = CUnpack a -> value <$> heap s' !! a = value <$> heap s !! a) ->
  claimed s' = claimed s.
Proof.
  unfold claimed. intros -> H. destruct (consumer s) eqn:E; try done. by rewrite H.
Qed.

(** ** Pending links after a step of a producer *)

(** A producer that has not exchanged yet announces nothing. *)
Lemma pending_start s s' tid n v a b :
  producers s !! tid = None -> producers s' = <[tid := PExchange n v]> (producers s) ->
  consumer s' = consumer s -> pending s' a b <-> pending s a b.
Proof.
  intros Ht Hp Hc. unfold pending. rewrite Hp, Hc. f_equiv. split; intros [t Hx].
  - apply lookup_insert_Some in Hx as [[_ [=]]|[_ Hx]]. by exists t.
  - exists t. rewrite lookup_insert_ne; [done|]. intros <-. congruence.
Qed.

Lemma pending_exchange s s' tid n v a b :
  producers s !! tid = Some (PExchange n v) ->
  producers s' = <[tid := PLink (produceEnd_ s) n]> (producers s) -> consumer s' = consumer s ->
  pending s' a b <-> pending s a b \/ (a = produceEnd_ s /\ b = n).
Proof.
  intros Ht Hp Hc. unfold pending. rewrite Hp, Hc. split.
  - intros [[t [[_ [= <- <-]]|[_ Hx]]%lookup_insert_Some]|?]; eauto.
  - intros [[[t Hx]|?]|[-> ->]].
    + left. exists t. rewrite lookup_insert_ne; [done|]. intros <-. congruence.
    + by right.
    + left. exists tid. apply lookup_insert_eq.
Qed.

Lemma pending_link s s' L tid prev n a b :
  Inv s L -> producers s !! tid = Some (PLink prev n) ->
  (forall b', pending s prev b' -> b' = n) -> n <> stub_ ->
  producers s' = delete tid (producers s) -> consumer s' = consumer s ->
  pending s' a b <-> pending s a b /\ a <> prev.
Proof.
  intros HI Ht Huniq Hns Hp Hc. unfold pending. rewrite Hp, Hc.
  setoid_rewrite lookup_delete_Some. split.
  - intros [(t & Htt & Hx)|[-> [node Hcx]]].
    + split; [by left; eauto|]. intros ->. apply Htt.
      apply (inv_owner _ _ HI _ _ _ _ Ht Hx). cbn. symmetry. apply Huniq. left. eauto.
    + split; [by right; eauto|]. intros ->.
      apply Hns. symmetry. apply Huniq. right. eauto.
  - intros [[[t Hx]|?] Hne]; [|by right]. left. exists t. split; [|done].
    intros <-. congruence.
Qed.

(** Every node has one owner, also after a producer got one that nobody else has. *)
Lemma owner_insert s L tid p :
  Inv s L -> (forall t q, t <> tid -> producers s !! t = Some q -> owned q <> owned p) ->
  forall t1 t2 p1 p2, <[tid := p]> (producers s) !! t1 = Some p1 ->
    <[tid := p]> (producers s) !! t2 = Some p2 -> owned p1 = owned p2 -> t1 = t2.
Proof.
  intros HI Hp t1 t2 p1 p2 [[<- <-]|[Hn1 H1]]%lookup_insert_Some
    [[<- <-]|[Hn2 H2]]%lookup_insert_Some Heq; [done| | |].
  - by destruct (Hp t2 p2 (not_eq_sym Hn2) H2).
  - by destruct (Hp t1 p1 (not_eq_sym Hn1) H1).
  - by apply (inv_owner _ _ HI t1 t2 p1 p2).
Qed.

Lemma start_produce_inv tid n v s L :
  Inv s L -> producers s !! tid = None -> heap s !! n = None ->
  let s' := start_produce tid n v s in
  Inv s' L /\ claimed s' = claimed s /\ contents (heap s') L = contents (heap s) L.
Proof.
  intros HI Ht Hn. unfold start_produce. rewrite Ht, Hn. cbn zeta.
  assert (n ∉ L) as HnL.
  { intros Hx. apply (edge_alive _ _ _ HI) in Hx. rewrite Hn in Hx. by destruct Hx. }
  assert (n <> stub_) as Hns.
  { intros ->. pose proof (inv_stub _ _ HI) as Hx. rewrite Hn in Hx. by destruct Hx. }
  assert (forall a, a ∈ L -> <[n := mkNode v None]> (heap s) !! a = heap s !! a) as HhL.
  { intros a Ha. rewrite lookup_insert_ne; [done|]. by intros <-. }
  set (s' := mkState _ _ _ _ _).
  assert (forall a b, pending s' a b <-> pending s a b) as Hp
    by (by intros a b; apply (pending_start s s' tid n v)).
  split_and!.
  - constructor; cbn.
    + apply (inv_nodup _ _ HI).
    + apply (inv_last _ _ HI).
    + apply (chain_same s); [done|done|apply (inv_chain _ _ HI)].
    + intros a b. rewrite Hp. apply (inv_pending _ _ HI).
    + rewrite lookup_insert_ne by done. apply (inv_stub _ _ HI).
    + intros t m w [[<- [= <- <-]]|[_ Hx]]%lookup_insert_Some.
      * rewrite lookup_insert_eq. done.
      * destruct (inv_exchange _ _ HI _ _ _ Hx) as (Hm & ? & ?).
        rewrite lookup_insert_ne; [done|]. intros <-. congruence.
    + intros t a b [[_ [=]]|[_ Hx]]%lookup_insert_Some. by apply (inv_link _ _ HI t a b).
    + apply (owner_insert s L tid _ HI). intros t [m w|a b] _ Hx; cbn; intros ->.
      * apply (inv_exchange _ _ HI) in Hx as [Hm _]. congruence.
      * by apply (inv_link _ _ HI) in Hx as [? _].
    + intros a. destruct (decide (n = a)) as [<-|Hna].
      * intros _. right; right; left. exists tid, v. apply lookup_insert_eq.
      * rewrite lookup_insert_ne by done. intros Ha.
        destruct (inv_dom _ _ HI a Ha) as [?|[?|[(t & w & Hx)|?]]]; eauto.
        right; right; left. exists t, w. rewrite lookup_insert_ne; [done|]. intros <-. congruence.
    + rewrite <- (app_nil_r L). apply (consumer_ok_frame s); cbn; try done.
      * apply not_elem_of_nil.
      * intros. apply not_elem_of_nil.
      * unfold next_of. cbn. intros a b Ha. rewrite lookup_insert_ne; [done|].
        intros <-. by rewrite Hn in Ha.
      * unfold next_of. cbn. intros _ Hx. by rewrite lookup_insert_ne.
      * intros a Ha. destruct (decide (n = a)) as [<-|]; [rewrite lookup_insert_eq; by eexists|].
        by rewrite lookup_insert_ne.
      * intros t m w [[_ [= <- <-]]|[_ Hx]]%lookup_insert_Some; auto.
      * apply (inv_consumer _ _ HI).
  - apply claimed_frame; [done|]. cbn. intros a Ha. rewrite lookup_insert_ne; [done|].
    intros <-. pose proof (inv_consumer _ _ HI) as Hc. unfold consumer_ok in Hc.
    rewrite Ha, Hn in Hc. destruct Hc as (_ & _ & _ & [? [=]] & _).
  - cbn. apply contents_ext. intros a Ha _. by rewrite HhL.
Qed.

Lemma producer_exchange_inv tid n v s L :
  Inv s L -> producers s !! tid = Some (PExchange n v) ->
  let s' := mkState (heap s) (consumeEnd_ s) n
              (<[tid := PLink (produceEnd_ s) n]> (producers s)) (consumer s) in
  Inv s' (L ++ [n]) /\ claimed s' = claimed s /\
  contents (heap s') (L ++ [n]) = contents (heap s) L ++ [v].
Proof.
  intros HI Ht. cbn zeta. set (s' := mkState _ _ _ _ _).
  destruct (inv_exchange _ _ HI _ _ _ Ht) as (Hn & HnL & Hns).
  assert (forall a b, pending s' a b <-> pending s a b \/ (a = produceEnd_ s /\ b = n)) as Hp
    by (by intros a b; apply (pending_exchange s s' tid n v)).
  assert (forall t p, t <> tid -> producers s !! t = Some p -> owned p <> n) as Hown.
  { intros t p Htt Hx Ho. by apply Htt, (inv_owner _ _ HI _ _ _ _ Hx Ht). }
  split_and!.
  - constructor; cbn.
    + apply list.NoDup_app. split_and!; [apply (inv_nodup _ _ HI)| |apply list.NoDup_singleton].
      by intros x Hx ->%list_elem_of_singleton.
    + by rewrite list.last_snoc.
    + by apply (chain_exchange s); eauto.
    + intros a b [Hx|[-> _]]%Hp; apply elem_of_app; left.
      * by apply (inv_pending _ _ HI) in Hx.
      * apply list.last_Some_elem_of, (inv_last _ _ HI).
    + apply (inv_stub _ _ HI).
    + intros t m w [[_ [=]]|[Htt Hx]]%lookup_insert_Some.
      destruct (inv_exchange _ _ HI _ _ _ Hx) as (? & ? & ?). split_and!; try done.
      rewrite elem_of_app, list_elem_of_singleton. intros [?| ->]; [done|].
      by apply (Hown t _ (not_eq_sym Htt)) in Hx.
    + intros t a b [[_ [= <- <-]]|[_ Hx]]%lookup_insert_Some; rewrite elem_of_app.
      * rewrite list_elem_of_singleton. auto.
      * apply (inv_link _ _ HI) in Hx as [? ?]. auto.
    + apply (owner_insert s L tid _ HI). cbn. intros t p Htt Hx. by apply (Hown t p).
    + intros a Ha. rewrite elem_of_app, list_elem_of_singleton.
      destruct (inv_dom _ _ HI a Ha) as [?|[?|[(t & w & Hx)|?]]]; auto.
      destruct (decide (t = tid)) as [->|Htt]; [right; left; right; congruence|].
      right; right; left. exists t, w. by rewrite lookup_insert_ne.
    + apply (consumer_ok_frame s); cbn; try done.
      * by intros ?%list_elem_of_singleton.
      * intros a Ha. pose proof (inv_consumer _ _ HI) as Hc. unfold consumer_ok in Hc.
        rewrite Ha in Hc. destruct Hc as (_ & _ & _ & _ & Hx).
        intros ->%list_elem_of_singleton. by apply Hx in Ht.
      * intros t m w [[_ [=]]|[_ Hx]]%lookup_insert_Some. by left.
      * apply (inv_consumer _ _ HI).
  - done.
  - cbn. rewrite contents_app. cbn. rewrite decide_False by done. by rewrite Hn.
Qed.

Lemma producer_link_inv tid prev n s L :
  Inv s L -> producers s !! tid = Some (PLink prev n) ->
  exists h, store_next prev (Some n) (heap s) = Ok h /\
  let s' := mkState h (consumeEnd_ s) (produceEnd_ s) (delete tid (producers s))
              (consumer s) in
  Inv s' L /\ claimed s' = claimed s /\ contents (heap s') L = contents (heap s) L.
Proof.
  intros HI Ht.
  assert (pending s prev n) as Hpn by (left; eauto).
  destruct (pending_spec _ _ _ _ HI Hpn) as (Hnx & Huniq & nd & Hnd & _).
  unfold store_next. rewrite Hnd. cbn. eexists. split; [done|]. set (s' := mkState _ _ _ _ _).
  destruct (inv_link _ _ HI _ _ _ Ht) as [HnL Hns].
  pose proof (inv_pending _ _ HI _ _ Hpn) as HprevL.
  assert (forall a b, pending s' a b <-> pending s a b /\ a <> prev) as Hp
    by (by intros a b; apply (pending_link s s' L tid prev n)).
  assert (forall a, value <$> <[prev := mkNode (value nd) (Some n)]> (heap s) !! a
    = value <$> heap s !! a) as Hv.
  { intros a. destruct (decide (prev = a)) as [<-|]; [by rewrite lookup_insert_eq, Hnd|].
    by rewrite lookup_insert_ne. }
  assert (forall a, is_Some (heap s !! a) <->
    is_Some (<[prev := mkNode (value nd) (Some n)]> (heap s) !! a)) as Hdom.
  { intros a. destruct (decide (prev = a)) as [<-|]; [rewrite lookup_insert_eq, Hnd|].
    - split; by eexists.
    - by rewrite lookup_insert_ne. }
  split_and!.
  - constructor; cbn.
    + apply (inv_nodup _ _ HI).
    + apply (inv_last _ _ HI).
    + by apply (chain_link s s' L prev n nd).
    + intros a b [Hx _]%Hp. by apply (inv_pending _ _ HI) in Hx.
    + apply Hdom, (inv_stub _ _ HI).
    + intros t m w [_ Hx]%lookup_delete_Some.
      destruct (inv_exchange _ _ HI _ _ _ Hx) as (? & ? & ?).
      rewrite lookup_insert_ne; [done|]. by intros <-.
    + intros t a b [_ Hx]%lookup_delete_Some. by apply (inv_link _ _ HI t a b).
    + intros t1 t2 p1 p2 [_ H1]%lookup_delete_Some [_ H2]%lookup_delete_Some.
      by apply (inv_owner _ _ HI).
    + intros a Ha%Hdom. destruct (inv_dom _ _ HI a Ha) as [?|[?|[(t & w & Hx)|?]]]; auto.
      right; right; left. exists t, w. rewrite lookup_delete_ne; [done|]. intros <-. congruence.
    + rewrite <- (app_nil_r L). apply (consumer_ok_frame s); cbn; try done.
      * apply not_elem_of_nil.
      * intros. apply not_elem_of_nil.
      * unfold next_of in *. cbn. intros a b Ha. rewrite lookup_insert_ne; [done|].
        intros <-. congruence.
      * unfold next_of in *. cbn. intros Hs Hx. rewrite lookup_insert_ne; [done|]. by intros ->.
      * intros a. apply Hdom.
      * intros t m w [_ Hx]%lookup_delete_Some. by left.
      * apply (inv_consumer _ _ HI).
  - apply claimed_frame; [done|]. intros. apply Hv.
  - cbn. apply contents_ext. intros. apply Hv.
Qed.

(** *** The consumer's accesses *)

Definition plain_pc (c : consumer_pc) : Prop :=
  match c with CLink _ _ | CUnpack _ => False | _ => True end.

(** The parts of the invariant an access of the consumer leaves alone when it
    touches neither the heap nor the producers. *)
Lemma inv_rebuild s s' L :
  Inv s L -> heap s' = heap s -> produceEnd_ s' = produceEnd_ s ->
  producers s' = producers s -> plain_pc (consumer s) -> plain_pc (consumer s') ->
  consumer_ok s' L -> Inv s' L /\ claimed s' = claimed s.
Proof.
  intros HI Hh He Hps Hc Hc' Hok.
  assert (forall a b, pending s' a b <-> pending s a b) as Hp.
  { intros a b. unfold pending. rewrite Hps. f_equiv. split; intros [-> [node Hx]].
    - rewrite Hx in Hc'. by destruct Hc'.
    - rewrite Hx in Hc. by destruct Hc. }
  split.
  - constructor; rewrite ?Hh, ?He, ?Hps; try apply HI.
    + apply (chain_same s); [done|by rewrite Hh|apply HI].
    + intros a b. rewrite Hp. apply HI.
    + intros a Ha. destruct (inv_dom _ _ HI a Ha) as [?|[?|[?|Hx]]]; auto.
      rewrite Hx in Hc. by destruct Hc.
    + done.
  - unfold claimed. destruct (consumer s), (consumer s'); try done.
Qed.

(** Advancing [consumeEnd_] past a linked node. *)
Lemma pop_inv s L a b c :
  Inv s (a :: b :: L) -> next_of s a = Some b -> plain_pc (consumer s) ->
  (forall x y, c <> CLink x y) -> a = stub_ \/ c = CUnpack a ->
  let s' := mkState (heap s) b (produceEnd_ s) (producers s) c in
  consumer_ok s' (b :: L) -> Inv s' (b :: L).
Proof.
  intros HI Hn Hc Hc' Ha s' Hok.
  assert (forall x y, pending s' x y <-> pending s x y) as Hp.
  { intros x y. unfold pending, s'. cbn. f_equiv. split; intros [-> [node Hx]].
    - by apply Hc' in Hx.
    - rewrite Hx in Hc. by destruct Hc. }
  destruct (chain_pop s s' L a b HI Hn eq_refl Hp) as (Hch & Hnd & Hl & Hpd & HaL).
  constructor; cbn; try done.
  - intros x y. rewrite Hp. apply Hpd.
  - apply (inv_stub _ _ HI).
  - intros t n v Hx. destruct (inv_exchange _ _ HI _ _ _ Hx) as (? & Hni & ?).
    apply not_elem_of_cons in Hni as [_ ?]. done.
  - intros t x y Hx. destruct (inv_link _ _ HI _ _ _ Hx) as [Hin ?]. split; [|done].
    apply elem_of_cons in Hin as [->|?]; [|done]. exfalso.
    apply (head_not_target _ _ _ x HI). left. by exists t.
  - apply (inv_owner _ _ HI).
  - intros x Hx. destruct (inv_dom _ _ HI x Hx) as [?|[Hin|[?|Hx']]]; auto.
    + apply elem_of_cons in Hin as [->|?]; [|by auto]. destruct Ha as [->| ->]; auto.
    + rewrite Hx' in Hc. by destruct Hc.
Qed.

(** A visible event as a step of an abstract FIFO queue: values enter at the
    back and leave at the front; an empty result is always allowed here (see
    [consume_alone] for when it is not given). *)
Inductive fifo : list T -> list event -> list T -> Prop :=
| fifo_done Q : fifo Q [] Q
| fifo_produced Q v evs Q' : fifo (Q ++ [v]) evs Q' -> fifo Q (Produced v :: evs) Q'
| fifo_consumed Q v evs Q' : fifo Q evs Q' -> fifo (v :: Q) (Consumed (Some v) :: evs) Q'
| fifo_nothing Q evs Q' : fifo Q evs Q' -> fifo Q (Consumed None :: evs) Q'.

(** What each access is shown to do. *)
Definition good_step (s : state) (L : list ptr) (r : outcome (state * list event)) : Prop :=
  exists s' L' evs, r = Ok (s', evs) /\ Inv s' L' /\
    fifo (claimed s ++ contents (heap s) L) evs (claimed s' ++ contents (heap s') L').

Lemma linked_head s L a b :
  Inv s L -> head L = Some a -> next_of s a = Some b -> exists L', L = a :: b :: L'.
Proof.
  intros HI Hh Hn. destruct L as [|x L]; [done|]. injection Hh as ->.
  destruct (inv_chain _ _ HI) as [(nd & Hnd & He) _].
  rewrite (next_of_Some _ _ _ Hnd) in Hn. destruct L as [|c L]; cbn in He.
  - destruct He. congruence.
  - destruct He as [[? _]|[? _]]; [|congruence]. exists L. congruence.
Qed.

Lemma unlinked_last s L a :
  Inv s L -> head L = Some a -> produceEnd_ s = a -> L = [a].
Proof.
  intros HI Hh He. destruct L as [|x L]; [done|]. injection Hh as ->.
  destruct L as [|c L]; [done|]. exfalso.
  pose proof (inv_nodup _ _ HI) as [Hna _]%list.NoDup_cons. apply Hna.
  pose proof (inv_last _ _ HI) as Hl. rewrite He in Hl.
  by apply (list.last_Some_elem_of (c :: L)).
Qed.

Lemma load_next_alive s a :
  is_Some (heap s !! a) -> load_next a (heap s) = Ok (next_of s a).
Proof. intros [nd Hnd]. unfold load_next, next_of. by rewrite Hnd. Qed.

(** A step that only moves the consumer between program points. *)
Lemma good_control s L c evs :
  Inv s L -> plain_pc (consumer s) -> plain_pc c ->
  consumer_ok (set_consumer c s) L -> evs = [] \/ evs = [Consumed None] ->
  good_step s L (Ok (set_consumer c s, evs)).
Proof.
  intros HI Hc Hc' Hok Hevs.
  destruct (inv_rebuild s (set_consumer c s) L HI eq_refl eq_refl eq_refl Hc Hc' Hok)
    as [HI' Hcl].
  exists (set_consumer c s), L, evs. split_and!; [done..|]. rewrite Hcl. cbn.
  destruct Hevs as [->| ->]; repeat constructor.
Qed.

Lemma good_branch s L node :
  Inv s L -> plain_pc (consumer s) -> head L = Some node -> consumeEnd_ s = node ->
  node <> stub_ ->
  good_step s L (Ok (set_consumer (branch_next node (next_of s node)) s, [])).
Proof.
  intros HI Hc Hh He Hns. apply good_control; auto.
  - by destruct (next_of s node).
  - unfold branch_next, consumer_ok. destruct (next_of s node) as [nx|] eqn:Hn; cbn; [|done].
    split; [done|]. destruct (linked_head _ _ _ _ HI Hh Hn) as [L' ->]. by exists L'.
Qed.

Lemma good_load_next s L node :
  Inv s L -> consumer s = CLoadNext node -> good_step s L (consumer_step true s).
Proof.
  intros HI Hc. pose proof (inv_consumer _ _ HI) as Hok. unfold consumer_ok in Hok.
  rewrite Hc in Hok. destruct Hok as [Hh He]. unfold consumer_step. rewrite Hc.
  assert (plain_pc (consumer s)) as Hpl by (by rewrite Hc).
  rewrite (load_next_alive s node) by (eapply edge_alive, head_in; done). cbn.
  case_decide as Hs; [|by apply good_branch].
  destruct (next_of s node) as [nx|] eqn:Hn.
  - apply good_control; auto; [done|].
    destruct (linked_head _ _ _ _ HI Hh Hn) as [L' ->]. exists L'. by rewrite <- Hs.
  - apply good_control; auto; [done|]. unfold consumer_ok. cbn. by rewrite He.
Qed.

Lemma good_move_end s L nx :
  Inv s L -> consumer s = CMoveEnd nx -> good_step s L (consumer_step true s).
Proof.
  intros HI Hc. pose proof (inv_consumer _ _ HI) as Hok. unfold consumer_ok in Hok.
  rewrite Hc in Hok. destruct Hok as (L' & -> & Hn). unfold consumer_step. rewrite Hc.
  do 2 eexists. exists []. split; [done|].
  pose proof (inv_nodup _ _ HI) as [Hna _]%list.NoDup_cons. split.
  - apply (pop_inv s L' stub_ nx); try done; [by rewrite Hc|by left].
  - unfold claimed. rewrite Hc. cbn [consumer heap app contents].
    rewrite decide_True by done. constructor.
Qed.

Lemma good_take s L node nx :
  Inv s L -> consumer s = CTake node nx -> good_step s L (consumer_step true s).
Proof.
  intros HI Hc. pose proof (inv_consumer _ _ HI) as Hok. unfold consumer_ok in Hok.
  rewrite Hc in Hok. destruct Hok as (Hns & L' & -> & Hn). unfold consumer_step. rewrite Hc.
  do 2 eexists. exists []. split; [done|].
  pose proof (inv_nodup _ _ HI) as [Hna _]%list.NoDup_cons. split.
  - apply (pop_inv s L' node nx); try done; [by rewrite Hc|by right|].
    unfold consumer_ok. cbn. split_and!; try done.
    + apply (edge_alive s (node :: nx :: L')); [done|left].
    + intros t n v Hx ->. destruct (inv_exchange _ _ HI _ _ _ Hx) as (_ & Hni & _).
      apply Hni. left.
  - unfold claimed. rewrite Hc. cbn [consumer heap app contents].
    rewrite (decide_False (P := node = stub_)) by done. constructor.
Qed.

Lemma good_unpack s L node :
  Inv s L -> consumer s = CUnpack node -> good_step s L (consumer_step true s).
Proof.
  intros HI Hc. pose proof (inv_consumer _ _ HI) as Hok. unfold consumer_ok in Hok.
  rewrite Hc in Hok. destruct Hok as (Hh & HnL & Hns & [nd Hnd] & Hex).
  unfold consumer_step. rewrite Hc, decide_False, Hnd by done. cbn.
  set (s' := mkState _ _ _ _ _). exists s', L, [Consumed (Some (value nd))].
  assert (forall a, a ∈ L -> delete node (heap s) !! a = heap s !! a) as HhL.
  { intros a Ha. apply lookup_delete_ne. by intros ->. }
  assert (forall a b, pending s' a b <-> pending s a b) as Hp.
  { intros a b. unfold pending, s'. cbn. f_equiv. rewrite Hc.
    split; by intros [_ [? ?]]. }
  split_and!; [done| |].
  - constructor; cbn; try apply HI.
    + by apply (chain_same s); [| |apply HI].
    + intros a b. rewrite Hp. apply HI.
    + rewrite lookup_delete_ne by done. apply HI.
    + intros t n v Hx. destruct (inv_exchange _ _ HI _ _ _ Hx) as (? & ? & ?).
      rewrite lookup_delete_ne; [done|]. intros <-. by apply Hex in Hx.
    + intros a Ha. rewrite lookup_delete_is_Some in Ha. destruct Ha as [Hne Ha].
      destruct (inv_dom _ _ HI a Ha) as [?|[?|[?|Hx]]]; auto. congruence.
    + done.
  - unfold claimed. rewrite Hc. cbn. rewrite Hnd. cbn.
    rewrite (contents_ext (delete node (heap s)) (heap s)); [repeat constructor|].
    intros a Ha _. by rewrite HhL.
Qed.

Lemma good_reset_stub s L node :
  Inv s L -> consumer s = CResetStub node -> good_step s L (consumer_step true s).
Proof.
  intros HI Hc. pose proof (inv_consumer _ _ HI) as Hok. unfold consumer_ok in Hok.
  rewrite Hc in Hok. destruct Hok as (Hh & He & HsL). unfold consumer_step. rewrite Hc.
  destruct (inv_stub _ _ HI) as [nd Hnd]. unfold store_next. rewrite Hnd. cbn.
  set (s' := mkState _ _ _ _ _). exists s', L, [].
  assert (forall a, a <> stub_ -> <[stub_ := mkNode (value nd) None]> (heap s) !! a
    = heap s !! a) as HhL by (intros; by apply lookup_insert_ne).
  assert (forall a b, pending s' a b <-> pending s a b) as Hp.
  { intros a b. unfold pending, s'. cbn. f_equiv. rewrite Hc. split; by intros [_ [? ?]]. }
  split_and!; [done| |].
  - constructor; cbn; try apply HI.
    + apply (chain_same s); [done| |apply HI]. intros a Ha. apply HhL. by intros ->.
    + intros a b. rewrite Hp. apply HI.
    + rewrite lookup_insert_eq. by eexists.
    + intros t n v Hx. destruct (inv_exchange _ _ HI _ _ _ Hx) as (? & ? & ?).
      by rewrite HhL.
    + intros a Ha. destruct (decide (a = stub_)) as [->|Hne]; [by left|].
      rewrite HhL in Ha by done. destruct (inv_dom _ _ HI a Ha) as [?|[?|[?|Hx]]]; auto.
      congruence.
    + unfold consumer_ok, next_of. cbn. by rewrite lookup_insert_eq.
  - unfold claimed. rewrite Hc. cbn. rewrite (contents_ext (<[stub_ := _]> _) (heap s)).
    + constructor.
    + intros a _ Ha. by rewrite HhL.
Qed.

Lemma good_exchange s L node :
  Inv s L -> consumer s = CExchange node -> good_step s L (consumer_step true s).
Proof.
  intros HI Hc. pose proof (inv_consumer _ _ HI) as Hok. unfold consumer_ok in Hok.
  rewrite Hc in Hok. destruct Hok as (Hh & He & HsL & Hn). unfold consumer_step. rewrite Hc.
  set (s' := mkState _ _ _ _ _). exists s', (L ++ [stub_]), [].
  destruct (inv_stub _ _ HI) as [nd Hnd].
  assert (forall a b, pending s' a b <-> pending s a b \/ (a = produceEnd_ s /\ b = stub_)) as Hp.
  { intros a b. unfold pending, s'. cbn. rewrite Hc. split.
    - intros [?|[-> [? [= _ ->]]]]; auto.
    - intros [[?|[_ [? ?]]]|[-> ->]]; eauto; done. }
  split_and!; [done| |].
  - constructor; cbn; try apply HI.
    + apply list.NoDup_app. split_and!; [apply HI| |apply list.NoDup_singleton].
      by intros x Hx ->%list_elem_of_singleton.
    + by rewrite list.last_snoc.
    + apply (chain_exchange s); try done. exists nd. split; [done|].
      by rewrite <- Hn, (next_of_Some _ _ _ Hnd).
    + intros a b [Hx|[-> _]]%Hp; apply elem_of_app; left.
      * by apply (inv_pending _ _ HI) in Hx.
      * apply list.last_Some_elem_of, (inv_last _ _ HI).
    + intros t n v Hx. destruct (inv_exchange _ _ HI _ _ _ Hx) as (? & ? & ?).
      rewrite elem_of_app, list_elem_of_singleton. naive_solver.
    + intros t a b Hx. apply (inv_link _ _ HI) in Hx as [? ?]. rewrite elem_of_app. auto.
    + intros a Ha. rewrite elem_of_app.
      destruct (inv_dom _ _ HI a Ha) as [?|[?|[?|Hx]]]; auto. congruence.
    + unfold consumer_ok. cbn. split_and!; [by apply head_app|done|].
      intros ->. by apply HsL, head_in.
  - unfold claimed. rewrite Hc. cbn. rewrite contents_app. cbn.
    rewrite decide_True, app_nil_r by done. constructor.
Qed.

Lemma good_link s L node prev :
  Inv s L -> consumer s = CLink node prev -> good_step s L (consumer_step true s).
Proof.
  intros HI Hc. pose proof (inv_consumer _ _ HI) as Hok. unfold consumer_ok in Hok.
  rewrite Hc in Hok. destruct Hok as (Hh & He & Hns). unfold consumer_step. rewrite Hc.
  assert (pending s prev stub_) as Hps by (right; eauto).
  destruct (pending_spec _ _ _ _ HI Hps) as (Hnx & Huniq & nd & Hnd & _).
  pose proof (inv_pending _ _ HI _ _ Hps) as HprevL.
  unfold store_next. rewrite Hnd. cbn. set (s' := mkState _ _ _ _ _). exists s', L, [].
  assert (forall a b, pending s' a b <-> pending s a b /\ a <> prev) as Hp.
  { intros a b. unfold pending, s'. cbn. rewrite Hc. split.
    - intros [[t Hx]|[_ [? ?]]]; [|done]. split; [by eauto|]. intros ->.
      destruct (inv_link _ _ HI _ _ _ Hx) as [_ Hb]. apply Hb, Huniq. left. eauto.
    - intros [[?|[_ [? [= _ ->]]]] Hne]; [by left|done]. }
  assert (forall a, a <> prev -> <[prev := mkNode (value nd) (Some stub_)]> (heap s) !! a
    = heap s !! a) as HhL by (intros; by apply lookup_insert_ne).
  split_and!; [done| |].
  - constructor; cbn; try apply HI.
    + by apply (chain_link s s' L prev stub_ nd).
    + intros a b [Hx _]%Hp. by apply (inv_pending _ _ HI) in Hx.
    + destruct (decide (prev = stub_)) as [->|?]; [rewrite lookup_insert_eq; by eexists|].
      rewrite HhL by done. apply HI.
    + intros t n v Hx. destruct (inv_exchange _ _ HI _ _ _ Hx) as (? & ? & ?).
      rewrite HhL; [done|]. by intros ->.
    + intros a Ha. destruct (decide (a = prev)) as [->|Hne]; [by auto|].
      rewrite HhL in Ha by done. destruct (inv_dom _ _ HI a Ha) as [?|[?|[?|Hx]]]; auto.
      congruence.
    + done.
  - unfold claimed. rewrite Hc. cbn. rewrite (contents_ext (<[prev := _]> _) (heap s)).
    + constructor.
    + intros a _ _. destruct (decide (a = prev)) as [->|?]; [|by rewrite HhL].
      by rewrite lookup_insert_eq, Hnd.
Qed.

Lemma good_final s L node :
  Inv s L -> consumer s = CFinal node -> good_step s L (consumer_step true s).
Proof.
  intros HI Hc. pose proof (inv_consumer _ _ HI) as Hok. unfold consumer_ok in Hok.
  rewrite Hc in Hok. destruct Hok as (Hh & He & Hns). unfold consumer_step. rewrite Hc.
  assert (plain_pc (consumer s)) as Hpl by (by rewrite Hc).
  rewrite (load_next_alive s node) by (eapply edge_alive, head_in; done). cbn.
  destruct (next_of s node) as [nx|] eqn:Hn; apply good_control; auto; try done.
  - unfold consumer_ok. cbn. split; [done|].
    destruct (linked_head _ _ _ _ HI Hh Hn) as [L' ->]. by exists L'.
  - unfold consumer_ok. cbn. by rewrite He.
Qed.

Lemma good_consumer_step s L : Inv s L -> good_step s L (consumer_step true s).
Proof.
  intros HI. pose proof (inv_consumer _ _ HI) as Hok. unfold consumer_ok in Hok.
  destruct (consumer s) as [|node|nx|node|node nx|node|node|node|node|node prev|node] eqn:Hc.
  - unfold consumer_step. rewrite Hc. apply good_control; auto; by rewrite ?Hc.
  - by eapply good_load_next.
  - by eapply good_move_end.
  - destruct Hok as (Hh & He & HsL). unfold consumer_step. rewrite Hc.
    rewrite (load_next_alive s node) by (eapply edge_alive, head_in; done).
    apply good_branch; try done; [by rewrite Hc|].
    intros ->. by apply HsL, head_in.
  - by eapply good_take.
  - by eapply good_unpack.
  - destruct Hok as (Hh & He & Hns). unfold consumer_step. rewrite Hc. cbn.
    case_bool_decide as Hpe; cbn; apply good_control; auto; try (by rewrite ?Hc).
    + unfold consumer_ok. cbn. split_and!; [done..|].
      rewrite (unlinked_last s L node) by done. by rewrite list_elem_of_singleton.
    + unfold consumer_ok. cbn. by rewrite He.
  - by eapply good_reset_stub.
  - by eapply good_exchange.
  - by eapply good_link.
  - by eapply good_final.
Qed.

Lemma good_step_any a s L : Inv s L -> good_step s L (step true a s).
Proof.
  intros HI. destruct a as [tid n v|tid|]; cbn [step].
  - destruct (producers s !! tid) eqn:Ht.
    { exists s, L, []. unfold start_produce. rewrite Ht. split_and!; [done..|constructor]. }
    destruct (heap s !! n) eqn:Hn.
    { exists s, L, []. unfold start_produce. rewrite Ht, Hn. split_and!; [done..|constructor]. }
    destruct (start_produce_inv tid n v s L HI Ht Hn) as (HI' & Hcl & Hco).
    do 2 eexists. exists []. split_and!; [done..|]. rewrite Hcl, Hco. constructor.
  - unfold producer_step. destruct (producers s !! tid) as [[n v|prev n]|] eqn:Ht.
    + destruct (producer_exchange_inv tid n v s L HI Ht) as (HI' & Hcl & Hco).
      do 3 eexists. split_and!; [done..|]. rewrite Hcl, Hco, app_assoc. repeat constructor.
    + destruct (producer_link_inv tid prev n s L HI Ht) as (h & -> & HI' & Hcl & Hco). cbn.
      do 2 eexists. exists []. split_and!; [done..|]. rewrite Hcl, Hco. constructor.
    + exists s, L, []. split_and!; [done..|constructor].
  - by apply good_consumer_step.
Qed.

(** *** Executions *)

Lemma init_inv : Inv init [stub_].
Proof.
  assert (forall a b, ~ pending init a b) as Hp.
  { intros a b [[t Hx]|[_ [node Hx]]]; [|done]. cbn in Hx. by rewrite lookup_empty in Hx. }
  constructor; cbn [init heap consumeEnd_ produceEnd_ producers consumer].
  - apply list.NoDup_singleton.
  - done.
  - split; [|done]. exists (mkNode dflt None). split; [apply lookup_singleton_eq|].
    split; [done|]. intros b. apply Hp.
  - intros a b Hx. by apply Hp in Hx.
  - rewrite lookup_singleton_eq. by eexists.
  - intros t n v. by rewrite lookup_empty.
  - intros t a b. by rewrite lookup_empty.
  - intros t1 t2 p1 p2. by rewrite lookup_empty.
  - intros a Ha. destruct (decide (a = stub_)) as [->|Hne]; [by left|].
    rewrite lookup_singleton_ne in Ha by done. by destruct Ha.
  - done.
Qed.

Lemma fifo_app Q evs Q' evs' Q'' : fifo Q evs Q' -> fifo Q' evs' Q'' -> fifo Q (evs ++ evs') Q''.
Proof. induction 1; cbn; try done; constructor; auto. Qed.

Lemma fifo_values Q evs Q' : fifo Q evs Q' -> Q ++ produced evs = consumed evs ++ Q'.
Proof.
  induction 1 as [Q|Q v evs Q' _ IH|Q v evs Q' _ IH|Q evs Q' _ IH].
  - apply app_nil_r.
  - change (Q ++ ([v] ++ produced evs) = consumed evs ++ Q'). by rewrite app_assoc.
  - change (v :: (Q ++ produced evs) = v :: (consumed evs ++ Q')). by rewrite IH.
  - done.
Qed.

Lemma run_good acts s Q :
  represents s Q ->
  exists s' evs Q', run true acts s = Ok (s', evs) /\ represents s' Q' /\ fifo Q evs Q'.
Proof.
  revert s Q. induction acts as [|a acts IH]; intros s Q HR; cbn.
  { exists s, [], Q. split_and!; [done..|constructor]. }
  destruct HR as (L & HI & ->).
  destruct (good_step_any a s L HI) as (s1 & L1 & e1 & -> & HI1 & Hf1). cbn.
  destruct (IH s1 _ (ex_intro _ L1 (conj HI1 eq_refl))) as (s2 & e2 & Q2 & -> & HR2 & Hf2). cbn.
  exists s2, (e1 ++ e2), Q2. split_and!; [done..|]. by eapply fifo_app.
Qed.

Lemma init_represents : represents init [].
Proof. exists [stub_]. split; [apply init_inv|]. cbn. by rewrite decide_True. Qed.

Lemma run_app b acts1 acts2 s :
  run b (acts1 ++ acts2) s =
    ('(s1, e1) ← run b acts1 s; '(s2, e2) ← run b acts2 s1; Ok (s2, e1 ++ e2)).
Proof.
  revert s. induction acts1 as [|a acts1 IH]; intros s; cbn.
  { by destruct (run b acts2 s) as [[? ?]|]. }
  destruct (step b a s) as [[s1 e1]|]; cbn; [|done]. rewrite IH.
  destruct (run b acts1 s1) as [[s2 e2]|]; cbn; [|done].
  destruct (run b acts2 s2) as [[s3 e3]|]; cbn; [|done]. by rewrite app_assoc.
Qed.

(** *** Quiescent states *)

Definition quiescent (s : state) : Prop := producers s = ∅ /\ consumer s = CIdle.

Lemma contents_length h L :
  (forall a, a ∈ L -> is_Some (h !! a)) ->
  length (contents h L) = length (filter (fun a => a <> stub_) L).
Proof.
  induction L as [|a L IH]; intros Hh; [done|]. cbn [contents].
  rewrite length_app, IH by (intros; apply Hh; by right).
  destruct (decide (a = stub_)) as [->|Hne].
  - by rewrite filter_cons_False by auto.
  - rewrite filter_cons_True by done. destruct (Hh a) as [nd ->]; [left|done].
Qed.

Lemma quiescent_heap_size s Q :
  represents s Q -> quiescent s -> size (heap s) = S (length Q).
Proof.
  intros (L & HI & ->) [Hp Hc]. unfold claimed. rewrite Hc. cbn.
  rewrite contents_length by (intros; by eapply edge_alive).
  set (L' := filter (fun a => a <> stub_) L).
  assert (dom (heap s) = {[stub_]} ∪ list_to_set (C := gset ptr) L') as Hdom.
  { apply set_eq. intros a. rewrite elem_of_dom, elem_of_union, elem_of_singleton,
      elem_of_list_to_set. unfold L'. rewrite list_elem_of_filter. split.
    - intros Ha. destruct (inv_dom _ _ HI a Ha) as [?|[?|[(t & v & Hx)|?]]].
      + by left.
      + destruct (decide (a = stub_)); auto.
      + by rewrite Hp, lookup_empty in Hx.
      + congruence.
    - intros [->|[_ Ha]]; [apply HI|by eapply edge_alive]. }
  rewrite <- size_dom, Hdom, size_union.
  - rewrite size_singleton, size_list_to_set; [done|].
    apply list.NoDup_filter, HI.
  - intros a. rewrite elem_of_singleton, elem_of_list_to_set. unfold L'.
    rewrite list_elem_of_filter. naive_solver.
Qed.

(** *** The consumer running alone *)

(** [s] returns the oldest value within [n] accesses of the consumer. *)
Definition returns_in (n : nat) (s : state) (e : event) : Prop :=
  exists s', run true (replicate n AConsumer) s = Ok (s', [e]) /\ quiescent s'.

Lemma returns_in_step n s s' e :
  consumer_step true s = Ok (s', []) -> returns_in n s' e -> returns_in (S n) s e.
Proof.
  intros Hs (s2 & Hr & Hq). exists s2. split; [|done].
  cbn [replicate run step]. rewrite Hs. cbn. by rewrite Hr.
Qed.

Lemma returns_in_last s s' e :
  consumer_step true s = Ok (s', [e]) -> quiescent s' -> returns_in 1 s e.
Proof. intros Hs Hq. exists s'. split; [|done]. cbn. by rewrite Hs. Qed.

Lemma alone_take h e p node nx nd :
  node <> stub_ -> h !! node = Some nd ->
  returns_in 2 (mkState h e p ∅ (CTake node nx)) (Consumed (Some (value nd))).
Proof.
  intros Hne Hnd. eapply returns_in_step; [done|]. eapply returns_in_last.
  - cbn. rewrite decide_False by done. by rewrite Hnd.
  - by split.
Qed.

(** The last element: the stub is put back behind it first. *)
Lemma alone_check_end h node nd nds :
  node <> stub_ -> h !! node = Some nd -> h !! stub_ = Some nds ->
  returns_in 7 (mkState h node node ∅ (CCheckEnd node)) (Consumed (Some (value nd))).
Proof.
  intros Hne Hnd Hst. eapply returns_in_step.
  { cbn. by rewrite bool_decide_true by done. }
  eapply returns_in_step.
  { cbn. unfold store_next. by rewrite Hst. }
  eapply returns_in_step; [done|]. eapply returns_in_step.
  { cbn. unfold store_next. rewrite lookup_insert_ne by done. by rewrite Hnd. }
  eapply returns_in_step.
  { cbn. unfold load_next. by rewrite lookup_insert_eq. }
  change (value nd) with (value (mkNode (value nd) (Some stub_))).
  apply alone_take; [done|]. apply lookup_insert_eq.
Qed.

Lemma alone_branch h p node nd nds L :
  Inv (mkState h node p ∅ (CCheckEnd node)) L ->
  node <> stub_ -> h !! node = Some nd -> h !! stub_ = Some nds ->
  exists n, (n <= 7)%nat /\
    returns_in n (mkState h node p ∅ (branch_next node (next nd))) (Consumed (Some (value nd))).
Proof.
  intros HI Hne Hnd Hst. destruct (inv_consumer _ _ HI) as (Hh & _ & _).
  destruct (next nd) as [nx|] eqn:Hn; cbn.
  - exists 2%nat. split; [lia|]. by apply alone_take.
  - exists 7%nat. split; [lia|].
    destruct L as [|x [|b L]]; [done| |]; injection Hh as ->.
    + pose proof (inv_last _ _ HI) as [= ->]. by apply (alone_check_end _ _ _ nds).
    + exfalso. destruct (inv_chain _ _ HI) as [(nd' & Hnd' & He) _]. cbn in *.
      assert (nd' = nd) as -> by congruence.
      destruct He as [[? _]|[_ Hiff]]; [congruence|].
      destruct (proj2 (Hiff b) eq_refl) as [[t Hx]|[_ [? [=]]]].
      cbn in Hx. by rewrite lookup_empty in Hx.
Qed.

Lemma alone s L :
  Inv s L -> quiescent s ->
  exists n r, (n <= 11)%nat /\ returns_in n s (Consumed r) /\
    (r = None -> contents (heap s) L = []).
Proof.
  destruct s as [h e p ps c]. intros HI [Hps Hc]. cbn in Hps, Hc. subst ps c.
  pose proof (inv_consumer _ _ HI) as Hh. unfold consumer_ok in Hh. cbn in Hh.
  destruct (inv_stub _ _ HI) as [nds Hst]. cbn in Hst.
  destruct (edge_alive _ _ e HI (head_in _ _ Hh)) as [nd Hnd]. cbn in Hnd.
  assert (forall c L', consumer_ok (mkState h e p ∅ c) L' -> plain_pc c ->
    L' = L -> Inv (mkState h e p ∅ c) L) as Hmove.
  { intros c L' Hok Hpl ->. by apply (inv_rebuild _ (mkState h e p ∅ c) L HI). }
  destruct (decide (e = stub_)) as [->|Hne].
  - destruct (next nds) as [nx|] eqn:Hnx.
    + assert (next_of (mkState h stub_ p ∅ CIdle) stub_ = Some nx) as Hn
        by (unfold next_of; cbn; by rewrite Hst).
      destruct (linked_head _ _ _ _ HI Hh Hn) as [L' ->].
      assert (Inv (mkState h nx p ∅ (CCheckEnd nx)) (nx :: L')) as HI'.
      { apply (pop_inv _ L' stub_ nx (CCheckEnd nx) HI); try done; [by left|].
        unfold consumer_ok. cbn. split_and!; [done..|].
        pose proof (inv_nodup _ _ HI) as [Hna _]%list.NoDup_cons. intros ->. apply Hna. left. }
      assert (nx <> stub_) as Hnx' by apply (inv_consumer _ _ HI').
      destruct (edge_alive _ _ nx HI' (list_elem_of_here _ _)) as [ndx Hndx]. cbn in Hndx.
      destruct (alone_branch h p nx ndx nds _ HI' Hnx' Hndx Hst) as (n & Hle & Hr).
      exists (S (S (S (S n)))), (Some (value ndx)). split_and!; [lia| |discriminate].
      eapply returns_in_step; [done|].
      eapply returns_in_step; [cbn; unfold load_next; rewrite Hst; cbn; by rewrite Hnx|].
      eapply returns_in_step; [done|].
      eapply returns_in_step; [|exact Hr]. cbn. unfold load_next. by rewrite Hndx.
    + exists 2%nat, None. split_and!; [lia| |].
      * eapply returns_in_step; [done|]. eapply returns_in_last;
          [cbn; unfold load_next; rewrite Hst; cbn; by rewrite Hnx|by split].
      * intros _. destruct L as [|x [|b L]]; [done| |]; injection Hh as ->; [done|].
        exfalso. destruct (inv_chain _ _ HI) as [(nd' & Hnd' & He) _]. cbn in *.
        assert (nd' = nds) as -> by congruence.
        destruct He as [[? _]|[_ Hiff]]; [congruence|].
        destruct (proj2 (Hiff b) eq_refl) as [[t Hx]|[_ [? [=]]]].
        cbn in Hx. by rewrite lookup_empty in Hx.
  - destruct (alone_branch h p e nd nds L) as (n & Hle & Hr); try done.
    { by apply (Hmove _ L). }
    exists (S (S n)), (Some (value nd)). split_and!; [lia| |discriminate].
    eapply returns_in_step; [done|]. eapply returns_in_step; [|exact Hr].
    cbn. unfold load_next. rewrite Hnd. cbn. by rewrite decide_False.
Qed.

End MpscQueue.
Arguments Node : clear implicits.
Arguments producer_pc : clear implicits.
Arguments state : clear implicits.
Arguments event : clear implicits.
Arguments action : clear implicits.

Example two_producers :
  (snd <$> run true [AProduce 1 10 100; AProduce 2 20 200; AProducer 2; AProducer 1;
      AProducer 1; AConsumer; AConsumer; AProducer 2; AConsumer; AConsumer; AConsumer;
      AConsumer; AConsumer; AConsumer; AConsumer; AConsumer; AConsumer; AConsumer;
      AConsumer; AConsumer; AConsumer; AConsumer; AConsumer; AConsumer; AConsumer]
      (init 0))
  = Ok [Produced 200; Produced 100; Consumed None; Consumed (Some 200);
        Consumed (Some 100); Consumed None].
Proof. vm_compute. reflexivity. Qed.

(** ** Properties *)

(** C14: Under every interleaving of any number of producers with the consumer, no
    access touches a node that was freed or does not exist, the stub is never
    deleted, and the values returned so far followed by those still in the queue
    are exactly the values produced, in the order of the producers' exchanges:
    nothing is lost, duplicated or reordered. *)
Theorem mpsc_fifo {T} (dflt : T) (acts : list (action T)) :
  exists s' evs Q, run true acts (init dflt) = Ok (s', evs) /\
    represents s' Q /\ produced evs = consumed evs ++ Q.
Proof.
  destruct (run_good acts (init dflt) [] (init_represents dflt)) as (s' & evs & Q & Hr & HQ & Hf).
  exists s', evs, Q. split_and!; [done..|]. apply (fifo_values _ _ _ Hf).
Qed.

(** The queue neither leaks nor over-frees: once every producer and the
    consumer are outside the queue's operations, the heap holds the stub and one
    node per value that was produced and not yet consumed. *)
Theorem mpsc_no_leak {T} (dflt : T) (acts : list (action T)) s' evs
    (Hr : run true acts (init dflt) = Ok (s', evs)) (Hq : quiescent s') :
  size (heap s') + length (consumed evs) = S (length (produced evs)).
Proof.
  destruct (run_good acts (init dflt) [] (init_represents dflt)) as (s1 & e1 & Q & Hr1 & HQ & Hf).
  rewrite Hr in Hr1. injection Hr1 as -> ->. apply fifo_values in Hf. cbn in Hf.
  rewrite (quiescent_heap_size _ _ HQ Hq), Hf, length_app. lia.
Qed.

Lemma mpsc_no_leak_witness :
  exists s' evs,
    run true [AProduce 1 10 100; AProducer 1; AProducer 1] (init 0) = Ok (s', evs) /\
    size (heap s') + length (consumed evs) = 2.
Proof.
  do 2 eexists. split; [vm_compute; reflexivity|].
  apply (mpsc_no_leak 0 [AProduce 1 10 100; AProducer 1; AProducer 1]).
  - vm_compute. reflexivity.
  - split; reflexivity.
Defined.

(** From a quiescent state [consume()], run by itself, returns after at most
    eleven accesses, with the oldest value of the queue if there is one and with
    nothing only if the queue is empty; it leaves the rest of the queue in
    place. *)
Theorem consume_alone {T} (s : state T) Q
    (HR : represents s Q) (Hq : quiescent s) :
  exists n s', n <= 11 /\
    run true (replicate n AConsumer) s = Ok (s', [Consumed (head Q)]) /\
    quiescent s' /\ represents s' (tail Q).
Proof.
  pose proof HR as (L & HI & HQ).
  destruct (alone s L HI Hq) as (n & e & Hn & (s' & Hrun & Hq') & He).
  destruct (run_good (replicate n AConsumer) s Q HR) as (s1 & e1 & Q1 & Hr1 & HR1 & Hf).
  rewrite Hrun in Hr1. injection Hr1 as <- <-. exists n, s'.
  inversion Hf as [| |? v ? ? Hf'|? ? ? Hf']; subst; inversion Hf'; subst.
  - by split_and!.
  - destruct Hq as [_ Hc]. unfold claimed in *. rewrite Hc in *. cbn [app] in *.
    rewrite He in * by done. by split_and!.
Qed.

Lemma consume_alone_witness :
  exists n s', n <= 11 /\
    run true (replicate n AConsumer) (init 0) = Ok (s', [Consumed None]) /\
    quiescent s' /\ represents s' [].
Proof. apply (consume_alone (init 0) [] (init_represents 0)). by split. Defined.

(** The test [node != produceEnd_.load()] of [consume()] cannot be left out.
    Without it, a consumer that retries while a producer is between its exchange
    and its store puts the stub behind itself, links it to itself, and later
    deletes it. *)
Theorem end_check_needed :
  run false ([AProduce 1 10 100; AProducer 1; AProducer 1; AProduce 2 20 200; AProducer 2]
      ++ replicate 16 AConsumer ++ [AProducer 2] ++ replicate 14 AConsumer) (init 0)
    = Crash UndefinedBehaviour.
Proof. vm_compute. reflexivity. Qed.

End MpscQueue.
