(* ===== verification/Uring.v ===== *)
(** * The io_uring wrapper: [IoURing] (iouring.hpp, iouring.cpp)

    liburing is a parameter: a type of ring states with the library calls
    [IoURing] makes ([LibUring]), and what their documentation promises
    ([LibUringSpec]).  The wrapper writes submission queue entries through the
    pointers the library hands out, so the entries' memory is part of its
    state. *)

From Stdlib Require Import ZArith Lia.
From stdpp Require Import base numbers list gmap option.
From S2P Require Import Prelude.

Local Open Scope Z_scope.

(** ** Submission and completion queue entries *)

(** The operation codes by their names in [linux/io_uring.h]. *)
Inductive Opcode : Type :=
  | IORING_OP_NOP | IORING_OP_READV | IORING_OP_WRITEV | IORING_OP_FSYNC |
  IORING_OP_POLL_ADD | IORING_OP_POLL_REMOVE | IORING_OP_SYNC_FILE_RANGE |
  IORING_OP_SENDMSG | IORING_OP_RECVMSG | IORING_OP_TIMEOUT | IORING_OP_TIMEOUT_REMOVE
  | IORING_OP_ACCEPT | IORING_OP_ASYNC_CANCEL | IORING_OP_LINK_TIMEOUT |
  IORING_OP_CONNECT | IORING_OP_OPENAT | IORING_OP_CLOSE | IORING_OP_STATX |
  IORING_OP_READ | IORING_OP_WRITE | IORING_OP_SEND | IORING_OP_RECV |
  IORING_OP_OPENAT2 | IORING_OP_EPOLL_CTL | IORING_OP_SHUTDOWN | IORING_OP_RENAMEAT |
  IORING_OP_UNLINKAT.

#[export] Instance opcode_eq_dec : EqDecision Opcode.
Proof. solve_decision. Defined.

(** [io_uring_sqe].  [off] is the union of [off] and [addr2]; [op_flags] the one
    of [rw_flags] and the operations' own flag words. *)
Record Sqe : Type := mkSqe {
  opcode : Opcode; flags : Z; ioprio : Z; fd : Z; off : Z; addr : Z; len : Z;
  op_flags : Z; user_data : Z; buf_index : Z; personality : Z; splice_fd_in : Z;
  pad2_0 : Z; pad2_1 : Z
}.

Definition set_opcode (v : Opcode) (s : Sqe) : Sqe :=
  mkSqe v (flags s) (ioprio s) (fd s) (off s) (addr s) (len s) (op_flags s)
    (user_data s) (buf_index s) (personality s) (splice_fd_in s) (pad2_0 s) (pad2_1 s).
Definition set_flags (v : Z) (s : Sqe) : Sqe :=
  mkSqe (opcode s) v (ioprio s) (fd s) (off s) (addr s) (len s) (op_flags s)
    (user_data s) (buf_index s) (personality s) (splice_fd_in s) (pad2_0 s) (pad2_1 s).
Definition set_ioprio (v : Z) (s : Sqe) : Sqe :=
  mkSqe (opcode s) (flags s) v (fd s) (off s) (addr s) (len s) (op_flags s)
    (user_data s) (buf_index s) (personality s) (splice_fd_in s) (pad2_0 s) (pad2_1 s).
Definition set_fd (v : Z) (s : Sqe) : Sqe :=
  mkSqe (opcode s) (flags s) (ioprio s) v (off s) (addr s) (len s) (op_flags s)
    (user_data s) (buf_index s) (personality s) (splice_fd_in s) (pad2_0 s) (pad2_1 s).
Definition set_off (v : Z) (s : Sqe) : Sqe :=
  mkSqe (opcode s) (flags s) (ioprio s) (fd s) v (addr s) (len s) (op_flags s)
    (user_data s) (buf_index s) (personality s) (splice_fd_in s) (pad2_0 s) (pad2_1 s).
Definition set_addr (v : Z) (s : Sqe) : Sqe :=
  mkSqe (opcode s) (flags s) (ioprio s) (fd s) (off s) v (len s) (op_flags s)
    (user_data s) (buf_index s) (personality s) (splice_fd_in s) (pad2_0 s) (pad2_1 s).
Definition set_len (v : Z) (s : Sqe) : Sqe :=
  mkSqe (opcode s) (flags s) (ioprio s) (fd s) (off s) (addr s) v (op_flags s)
    (user_data s) (buf_index s) (personality s) (splice_fd_in s) (pad2_0 s) (pad2_1 s).
Definition set_op_flags (v : Z) (s : Sqe) : Sqe :=
  mkSqe (opcode s) (flags s) (ioprio s) (fd s) (off s) (addr s) (len s) v
    (user_data s) (buf_index s) (personality s) (splice_fd_in s) (pad2_0 s) (pad2_1 s).
Definition set_user_data (v : Z) (s : Sqe) : Sqe :=
  mkSqe (opcode s) (flags s) (ioprio s) (fd s) (off s) (addr s) (len s) (op_flags s)
    v (buf_index s) (personality s) (splice_fd_in s) (pad2_0 s) (pad2_1 s).
Definition set_buf_index (v : Z) (s : Sqe) : Sqe :=
  mkSqe (opcode s) (flags s) (ioprio s) (fd s) (off s) (addr s) (len s) (op_flags s)
    (user_data s) v (personality s) (splice_fd_in s) (pad2_0 s) (pad2_1 s).
Definition set_personality (v : Z) (s : Sqe) : Sqe :=
  mkSqe (opcode s) (flags s) (ioprio s) (fd s) (off s) (addr s) (len s) (op_flags s)
    (user_data s) (buf_index s) v (splice_fd_in s) (pad2_0 s) (pad2_1 s).
Definition set_splice_fd_in (v : Z) (s : Sqe) : Sqe :=
  mkSqe (opcode s) (flags s) (ioprio s) (fd s) (off s) (addr s) (len s) (op_flags s)
    (user_data s) (buf_index s) (personality s) v (pad2_0 s) (pad2_1 s).
Definition set_pad2_0 (v : Z) (s : Sqe) : Sqe :=
  mkSqe (opcode s) (flags s) (ioprio s) (fd s) (off s) (addr s) (len s) (op_flags s)
    (user_data s) (buf_index s) (personality s) (splice_fd_in s) v (pad2_1 s).
Definition set_pad2_1 (v : Z) (s : Sqe) : Sqe :=
  mkSqe (opcode s) (flags s) (ioprio s) (fd s) (off s) (addr s) (len s) (op_flags s)
    (user_data s) (buf_index s) (personality s) (splice_fd_in s) (pad2_0 s) v.

(** A 16-bit store into the 32-bit [op_flags] union (little endian). *)
Definition set_op_flags16 (v : Z) (s : Sqe) : Sqe :=
  set_op_flags (Z.lor (Z.shiftl (Z.shiftr (op_flags s) 16) 16) (u16 v)) s.

Record Cqe : Type := mkCqe { cqe_user_data : Z; cqe_res : Z }.

Record Params : Type := mkParams { sq_entries : Z; features : Z }.

(** ** liburing *)

Class LibUring (R : Type) := {
  IORING_SETUP_SQPOLL : Z;
  IORING_TIMEOUT_ABS : Z;
  IOSQE_IO_LINK : Z;
  IORING_FEAT_NODROP : Z;
  IORING_FEAT_SUBMIT_STABLE : Z;
  sizeof_open_how : Z;
  (* entries, flags, ring.ring_fd -> result, ring.ring_fd, ring, parameters *)
  io_uring_queue_init_params : Z -> Z -> Z -> Z * Z * R * Params;
  (* the address of a free entry, or null *)
  io_uring_get_sqe : R -> option Z * R;
  io_uring_sq_ready : R -> Z;
  (* the entries' memory as the kernel reads it, the completions to wait for *)
  io_uring_submit_and_wait : (Z -> Sqe) -> Z -> R -> Z * R;
  io_uring_peek_cqe : R -> Z * option Cqe * R;
  io_uring_wait_cqe_nr : Z -> R -> Z * option Cqe * R;
  io_uring_cq_advance : Z -> R -> R
}.

(** What the library's documentation promises, in terms of three queues: the
    addresses of the entries handed out and not submitted, the submitted entries
    the kernel works on, and the completions not yet consumed. *)
Class LibUringSpec (R : Type) `{!LibUring R} := {
  uring_entries : R -> Z;
  uring_sq : R -> list Z;
  uring_inflight : R -> list Sqe;
  uring_cq : R -> list Cqe;
  init_spec n fl fd0 :
    let '(res, rfd, r, ps) := io_uring_queue_init_params n fl fd0 in
    0 <= res -> 0 <= rfd /\ uring_sq r = [] /\ uring_inflight r = [] /\
      uring_cq r = [] /\ uring_entries r = sq_entries ps /\
      n <= sq_entries ps < 2 ^ 32;
  (* an entry is handed out until all are; its address is not one in use *)
  get_sqe_spec r :
    match io_uring_get_sqe r with
    | (Some p, r') =>
        Z.of_nat (length (uring_sq r)) < uring_entries r /\ (p ∉ uring_sq r) /\
        uring_sq r' = uring_sq r ++ [p] /\ uring_inflight r' = uring_inflight r /\
        uring_cq r' = uring_cq r /\ uring_entries r' = uring_entries r
    | (None, r') =>
        uring_entries r <= Z.of_nat (length (uring_sq r)) /\
        uring_sq r' = uring_sq r /\ uring_inflight r' = uring_inflight r /\
        uring_cq r' = uring_cq r /\ uring_entries r' = uring_entries r
    end;
  sq_ready_spec r : io_uring_sq_ready r = Z.of_nat (length (uring_sq r));
  (* some first entries are submitted, in order; each operation that finishes
     appends one completion, which carries its user_data *)
  submit_spec mem n r :
    let r' := (io_uring_submit_and_wait mem n r).2 in
    exists k done cs,
      uring_sq r' = drop k (uring_sq r) /\
      uring_inflight r ++ (mem <$> take k (uring_sq r)) ≡ₚ done ++ uring_inflight r' /\
      ((cqe_user_data <$> cs) = (user_data <$> done)) /\
      uring_cq r' = uring_cq r ++ cs /\ uring_entries r' = uring_entries r;
  (* the oldest completion, which stays in the queue *)
  peek_spec r :
    let '(res, o, r') := io_uring_peek_cqe r in
    uring_sq r' = uring_sq r /\ uring_inflight r' = uring_inflight r /\
    uring_cq r' = uring_cq r /\ uring_entries r' = uring_entries r /\
    match uring_cq r with
    | [] => res < 0 \/ o = None
    | c :: _ => 0 <= res /\ o = Some c
    end;
  advance_spec n r :
    let r' := io_uring_cq_advance n r in
    uring_sq r' = uring_sq r /\ uring_inflight r' = uring_inflight r /\
    uring_cq r' = drop (Z.to_nat n) (uring_cq r) /\ uring_entries r' = uring_entries r
}.

(** A kernel in which waiting for one completion ends with one, when there is
    anything to wait for. *)
Class ReliableRing (R : Type) `{!LibUring R} `{!LibUringSpec R} :=
  submit_waits mem r :
    let '(res, r') := io_uring_submit_and_wait mem 1 r in
    0 <= res /\
    (uring_sq r <> [] \/ uring_inflight r <> [] \/ uring_cq r <> [] -> uring_cq r' <> []).

Module IoURing.
Section IoURing.
Context {R : Type} `{!LibUring R}.

(** [sqes] is the memory of the submission queue entries. *)
Record IoURing : Type := mkIoURing {
  ring_ : R;
  ring_fd : Z;
  params_ : Params;
  sqes : Z -> Sqe
}.

Definition set_ring (r : R) (u : IoURing) : IoURing :=
  mkIoURing r (ring_fd u) (params_ u) (sqes u).

(** A store through an [io_uring_sqe*]. *)
Definition write_sqe (p : Z) (f : Sqe -> Sqe) (u : IoURing) : IoURing :=
  mkIoURing (ring_ u) (ring_fd u) (params_ u)
    (fun q => if decide (q = p) then f (sqes u p) else sqes u q).

Definition init (sqEntries : Z) (sqPoll : bool) (u : IoURing) : bool * IoURing :=
  let fl := if sqPoll then IORING_SETUP_SQPOLL else 0 in
  let '(res, rfd, r, ps) := io_uring_queue_init_params (u32 sqEntries) fl (-1) in
  if res <? 0 then (false, mkIoURing r rfd ps (sqes u))
  else (true, mkIoURing r rfd ps (sqes u)).

Definition isInitialized (u : IoURing) : bool := negb (ring_fd u =? -1).
Definition getParams (u : IoURing) : Params := params_ u.

Definition peekCqe (u : IoURing) : outcome (option Cqe * IoURing) :=
  _ ← cassert (isInitialized u);
  let '(res, cqe, r) := io_uring_peek_cqe (ring_ u) in
  Ok (if res <? 0 then None else cqe, set_ring r u).

Definition waitCqe (num : Z) (u : IoURing) : outcome (option Cqe * IoURing) :=
  _ ← cassert (isInitialized u);
  let '(res, cqe, r) := io_uring_wait_cqe_nr (u32 num) (ring_ u) in
  Ok (if res <? 0 then None else cqe, set_ring r u).

Definition advanceCq (num : Z) (u : IoURing) : outcome IoURing :=
  _ ← cassert (isInitialized u);
  Ok (set_ring (io_uring_cq_advance (u32 num) (ring_ u)) u).

Definition getNumSqeEntries (u : IoURing) : Z := sq_entries (params_ u).

Definition getSqeCapacity (u : IoURing) : Z :=
  u32 (sq_entries (params_ u) - io_uring_sq_ready (ring_ u)).

Definition getSqe (u : IoURing) : outcome (option Z * IoURing) :=
  _ ← cassert (isInitialized u);
  let '(p, r) := io_uring_get_sqe (ring_ u) in
  Ok (p, set_ring r u).

Definition submitSqes (waitCqes : Z) (u : IoURing) : outcome (Z * IoURing) :=
  _ ← cassert (isInitialized u);
  let '(res, r) := io_uring_submit_and_wait (sqes u) (u32 waitCqes) (ring_ u) in
  Ok (res, set_ring r u).

(** ** Preparing entries

    An [io_uring_sqe*] is the entry's address, [None] for null.  The conversions
    to the parameter types of [prepare] are written at its fields. *)

Definition prepare (op : Opcode) (fd off addr len : Z) (u : IoURing)
    : outcome (option Z * IoURing) :=
  '(sqe, u) ← getSqe u;
  match sqe with
  | None => Ok (None, u)
  | Some p =>
      let w := fun f u => write_sqe p f u in
      let u := w (set_opcode op) u in
      let u := w (set_flags 0) u in
      let u := w (set_ioprio 0) u in
      let u := w (set_fd fd) u in
      let u := w (set_off (u64 off)) u in
      let u := w (set_addr (u64 addr)) u in
      let u := w (set_len (u32 len)) u in
      let u := w (set_op_flags 0) u in
      let u := w (set_user_data 0) u in
      let u := w (set_buf_index 0) u in
      let u := w (set_personality 0) u in
      let u := w (set_splice_fd_in 0) u in
      let u := w (set_pad2_1 0) u in
      let u := w (set_pad2_0 0) u in
      Ok (Some p, u)
  end.

(** [auto sqe = prepare(...); if (sqe) { ... } return sqe;] *)
Definition prepare_with (f : Sqe -> Sqe) (m : outcome (option Z * IoURing))
    : outcome (option Z * IoURing) :=
  '(sqe, u) ← m;
  match sqe with
  | None => Ok (None, u)
  | Some p => Ok (Some p, write_sqe p f u)
  end.

Definition prepareNop := prepare IORING_OP_NOP (-1) 0 0 0.

Definition prepareReadv (fd iov iovcnt offset : Z) :=
  prepare IORING_OP_READV fd offset iov iovcnt.

Definition prepareWritev (fd iov iovcnt offset : Z) :=
  prepare IORING_OP_WRITEV fd offset iov iovcnt.

Definition prepareFsync (fd flags : Z) (u : IoURing) :=
  prepare_with (set_op_flags flags) (prepare IORING_OP_FSYNC fd 0 0 0 u).

Definition preparePollAdd (fd events flags : Z) (u : IoURing) :=
  prepare_with (set_op_flags16 events) (prepare IORING_OP_POLL_ADD fd 0 0 flags u).

Definition preparePollRemove (userData : Z) :=
  prepare IORING_OP_POLL_REMOVE (-1) 0 userData 0.

Definition prepareSyncFileRange (fd offset nbytes flags : Z) (u : IoURing) :=
  prepare_with (set_op_flags flags) (prepare IORING_OP_SYNC_FILE_RANGE fd offset 0 nbytes u).

Definition prepareSendmsg (sockfd msg flags : Z) (u : IoURing) :=
  prepare_with (set_op_flags (u32 flags)) (prepare IORING_OP_SENDMSG sockfd 0 msg 1 u).

Definition prepareRecvmsg (sockfd msg flags : Z) (u : IoURing) :=
  prepare_with (set_op_flags (u32 flags)) (prepare IORING_OP_RECVMSG sockfd 0 msg 1 u).

Definition prepareTimeout (ts count flags : Z) (u : IoURing) :=
  prepare_with (set_op_flags flags) (prepare IORING_OP_TIMEOUT (-1) count ts 1 u).

Definition prepareTimeoutRemove (userData flags : Z) (u : IoURing) :=
  prepare_with (set_op_flags flags) (prepare IORING_OP_TIMEOUT_REMOVE (-1) 0 userData 0 u).

Definition prepareAccept (sockfd addr addrlen flags : Z) (u : IoURing) :=
  prepare_with (fun s => set_op_flags flags (set_off addrlen s))
    (prepare IORING_OP_ACCEPT sockfd 0 addr 0 u).

Definition prepareAsyncCancel (userData : Z) :=
  prepare IORING_OP_ASYNC_CANCEL (-1) 0 userData 0.

Definition prepareLinkTimeout (ts flags : Z) (u : IoURing) :=
  prepare_with (set_op_flags flags) (prepare IORING_OP_LINK_TIMEOUT (-1) 0 ts 1 u).

Definition prepareConnect (sockfd addr addrlen : Z) :=
  prepare IORING_OP_CONNECT sockfd addrlen addr 0.

Definition prepareOpenat (dirfd pathname flags mode : Z) (u : IoURing) :=
  prepare_with (set_op_flags (u32 flags)) (prepare IORING_OP_OPENAT dirfd 0 pathname mode u).

Definition prepareClose (fd : Z) := prepare IORING_OP_CLOSE fd 0 0 0.

Definition prepareStatx (dirfd pathname flags mask statxbuf : Z) (u : IoURing) :=
  prepare_with (set_op_flags (u32 flags))
    (prepare IORING_OP_STATX dirfd statxbuf pathname mask u).

Definition prepareRead (fd buf count offset : Z) :=
  prepare IORING_OP_READ fd offset buf count.

Definition prepareWrite (fd buf count offset : Z) :=
  prepare IORING_OP_WRITE fd offset buf count.

Definition prepareSend (sockfd buf len flags : Z) (u : IoURing) :=
  prepare_with (set_op_flags (u32 flags)) (prepare IORING_OP_SEND sockfd 0 buf len u).

Definition prepareRecv (sockfd buf len flags : Z) (u : IoURing) :=
  prepare_with (set_op_flags (u32 flags)) (prepare IORING_OP_RECV sockfd 0 buf len u).

Definition prepareOpenat2 (dirfd pathname how : Z) :=
  prepare IORING_OP_OPENAT2 dirfd how pathname sizeof_open_how.

Definition prepareEpollCtl (epfd op fd event : Z) :=
  prepare IORING_OP_EPOLL_CTL epfd event fd op.

Definition prepareShutdown (fd how : Z) := prepare IORING_OP_SHUTDOWN fd 0 0 how.

Definition prepareRenameat (olddirfd oldpath newdirfd newpath flags : Z) (u : IoURing) :=
  prepare_with (set_op_flags (u32 flags))
    (prepare IORING_OP_RENAMEAT olddirfd newpath oldpath newdirfd u).

Definition prepareUnlinkat (dirfd pathname flags : Z) (u : IoURing) :=
  prepare_with (set_op_flags (u32 flags)) (prepare IORING_OP_UNLINKAT dirfd 0 pathname 0 u).

End IoURing.
Arguments IoURing : clear implicits.

(** ** One request per [prepare] member, with its arguments *)
Inductive Request : Type :=
| Nop
| Readv (fd iov iovcnt offset : Z)
| Writev (fd iov iovcnt offset : Z)
| Fsync (fd flags : Z)
| PollAdd (fd events flags : Z)
| PollRemove (userData : Z)
| SyncFileRange (fd offset nbytes flags : Z)
| Sendmsg (sockfd msg flags : Z)
| Recvmsg (sockfd msg flags : Z)
| Timeout (ts count flags : Z)
| TimeoutRemove (userData flags : Z)
| Accept (sockfd addr addrlen flags : Z)
| AsyncCancel (userData : Z)
| LinkTimeout (ts flags : Z)
| Connect (sockfd addr addrlen : Z)
| Openat (dirfd pathname flags mode : Z)
| Close (fd : Z)
| Statx (dirfd pathname flags mask statxbuf : Z)
| Read (fd buf count offset : Z)
| Write (fd buf count offset : Z)
| Send (sockfd buf len flags : Z)
| Recv (sockfd buf len flags : Z)
| Openat2 (dirfd pathname how : Z)
| EpollCtl (epfd op fd event : Z)
| Shutdown (fd how : Z)
| Renameat (olddirfd oldpath newdirfd newpath flags : Z)
| Unlinkat (dirfd pathname flags : Z).

Section Requests.
Context {R : Type} `{!LibUring R}.

Definition prepare_request (q : Request) (u : IoURing R)
    : outcome (option Z * IoURing R) :=
  match q with
  | Nop => prepareNop u
  | Readv fd iov n o => prepareReadv fd iov n o u
  | Writev fd iov n o => prepareWritev fd iov n o u
  | Fsync fd fl => prepareFsync fd fl u
  | PollAdd fd ev fl => preparePollAdd fd ev fl u
  | PollRemove ud => preparePollRemove ud u
  | SyncFileRange fd o n fl => prepareSyncFileRange fd o n fl u
  | Sendmsg fd msg fl => prepareSendmsg fd msg fl u
  | Recvmsg fd msg fl => prepareRecvmsg fd msg fl u
  | Timeout ts n fl => prepareTimeout ts n fl u
  | TimeoutRemove ud fl => prepareTimeoutRemove ud fl u
  | Accept fd a l fl => prepareAccept fd a l fl u
  | AsyncCancel ud => prepareAsyncCancel ud u
  | LinkTimeout ts fl => prepareLinkTimeout ts fl u
  | Connect fd a l => prepareConnect fd a l u
  | Openat d p fl mode => prepareOpenat d p fl mode u
  | Close fd => prepareClose fd u
  | Statx d p fl mask b => prepareStatx d p fl mask b u
  | Read fd b n o => prepareRead fd b n o u
  | Write fd b n o => prepareWrite fd b n o u
  | Send fd b n fl => prepareSend fd b n fl u
  | Recv fd b n fl => prepareRecv fd b n fl u
  | Openat2 d p h => prepareOpenat2 d p h u
  | EpollCtl e op fd ev => prepareEpollCtl e op fd ev u
  | Shutdown fd how => prepareShutdown fd how u
  | Renameat od op nd np fl => prepareRenameat od op nd np fl u
  | Unlinkat d p fl => prepareUnlinkat d p fl u
  end.

(** The entry the kernel's interface asks for, field by field. *)
Definition entry (op : Opcode) (fd off addr len opf : Z) : Sqe :=
  mkSqe op 0 0 fd (u64 off) (u64 addr) (u32 len) opf 0 0 0 0 0 0.

Definition encode (q : Request) : Sqe :=
  match q with
  | Nop => entry IORING_OP_NOP (-1) 0 0 0 0
  | Readv fd iov n o => entry IORING_OP_READV fd o iov n 0
  | Writev fd iov n o => entry IORING_OP_WRITEV fd o iov n 0
  | Fsync fd fl => entry IORING_OP_FSYNC fd 0 0 0 fl
  | PollAdd fd ev fl => entry IORING_OP_POLL_ADD fd 0 0 fl (u16 ev)
  | PollRemove ud => entry IORING_OP_POLL_REMOVE (-1) 0 ud 0 0
  | SyncFileRange fd o n fl => entry IORING_OP_SYNC_FILE_RANGE fd o 0 n fl
  | Sendmsg fd msg fl => entry IORING_OP_SENDMSG fd 0 msg 1 (u32 fl)
  | Recvmsg fd msg fl => entry IORING_OP_RECVMSG fd 0 msg 1 (u32 fl)
  | Timeout ts n fl => entry IORING_OP_TIMEOUT (-1) n ts 1 fl
  | TimeoutRemove ud fl => entry IORING_OP_TIMEOUT_REMOVE (-1) 0 ud 0 fl
  | Accept fd a l fl => set_off l (entry IORING_OP_ACCEPT fd 0 a 0 fl)
  | AsyncCancel ud => entry IORING_OP_ASYNC_CANCEL (-1) 0 ud 0 0
  | LinkTimeout ts fl => entry IORING_OP_LINK_TIMEOUT (-1) 0 ts 1 fl
  | Connect fd a l => entry IORING_OP_CONNECT fd l a 0 0
  | Openat d p fl mode => entry IORING_OP_OPENAT d 0 p mode (u32 fl)
  | Close fd => entry IORING_OP_CLOSE fd 0 0 0 0
  | Statx d p fl mask b => entry IORING_OP_STATX d b p mask (u32 fl)
  | Read fd b n o => entry IORING_OP_READ fd o b n 0
  | Write fd b n o => entry IORING_OP_WRITE fd o b n 0
  | Send fd b n fl => entry IORING_OP_SEND fd 0 b n (u32 fl)
  | Recv fd b n fl => entry IORING_OP_RECV fd 0 b n (u32 fl)
  | Openat2 d p h => entry IORING_OP_OPENAT2 d h p sizeof_open_how 0
  | EpollCtl e op fd ev => entry IORING_OP_EPOLL_CTL e ev fd op 0
  | Shutdown fd how => entry IORING_OP_SHUTDOWN fd 0 0 how 0
  | Renameat od op nd np fl => entry IORING_OP_RENAMEAT od np op nd (u32 fl)
  | Unlinkat d p fl => entry IORING_OP_UNLINKAT d 0 p 0 (u32 fl)
  end.

Lemma write_sqe_same p f (u : IoURing R) : sqes (write_sqe p f u) p = f (sqes u p).
Proof. cbn. by rewrite decide_True. Qed.

Lemma write_sqe_other p q f (u : IoURing R) :
  q <> p -> sqes (write_sqe p f u) q = sqes u q.
Proof. intros. cbn. by rewrite decide_False. Qed.

(** A run of [prepare]'s body: [u] after an entry at [p] holds [s]. *)
Definition wrote (p : Z) (s : Sqe) (u u' : IoURing R) : Prop :=
  sqes u' p = s /\ (forall q, q <> p -> sqes u' q = sqes u q) /\
  ring_fd u' = ring_fd u /\ params_ u' = params_ u.

Lemma prepare_ok op fd off addr len u p r :
  isInitialized u = true -> io_uring_get_sqe (ring_ u) = (Some p, r) ->
  exists u', prepare op fd off addr len u = Ok (Some p, u') /\ ring_ u' = r /\
    wrote p (entry op fd off addr len 0) u u'.
Proof.
  intros Hi Hg. unfold prepare, getSqe. rewrite cassert_bind by done. rewrite Hg.
  eexists. split; [reflexivity|]. split; [reflexivity|].
  split; [|split; [|by split]].
  - rewrite !write_sqe_same. reflexivity.
  - intros q Hq. rewrite !write_sqe_other by done. reflexivity.
Qed.

Lemma prepare_full op fd off addr len u r :
  isInitialized u = true -> io_uring_get_sqe (ring_ u) = (None, r) ->
  prepare op fd off addr len u = Ok (None, set_ring r u).
Proof. intros Hi Hg. unfold prepare, getSqe. rewrite cassert_bind by done. by rewrite Hg. Qed.

Lemma prepare_with_ok f m u p r s :
  (exists u', m = Ok (Some p, u') /\ ring_ u' = r /\ wrote p s u u') ->
  exists u', prepare_with f m = Ok (Some p, u') /\ ring_ u' = r /\ wrote p (f s) u u'.
Proof.
  intros (u' & -> & <- & Hs & Ho & Hf & Hp). eexists. split; [reflexivity|].
  split; [reflexivity|]. split; [|split; [|by split]].
  - rewrite write_sqe_same. by rewrite Hs.
  - intros q Hq. rewrite write_sqe_other by done. auto.
Qed.

End Requests.

Ltac unfold_prepare :=
  cbv delta [prepareNop prepareReadv prepareWritev prepareFsync preparePollAdd
    preparePollRemove prepareSyncFileRange prepareSendmsg prepareRecvmsg prepareTimeout
    prepareTimeoutRemove prepareAccept prepareAsyncCancel prepareLinkTimeout
    prepareConnect prepareOpenat prepareClose prepareStatx prepareRead prepareWrite
    prepareSend prepareRecv prepareOpenat2 prepareEpollCtl prepareShutdown
    prepareRenameat prepareUnlinkat] beta.

Lemma prepare_encodes_aux {R} `{!LibUring R} q (u : IoURing R) :
  isInitialized u = true ->
  match io_uring_get_sqe (ring_ u) with
  | (Some p, r) =>
      exists u', prepare_request q u = Ok (Some p, u') /\ ring_ u' = r /\
        wrote p (encode q) u u'
  | (None, r) => prepare_request q u = Ok (None, set_ring r u)
  end.
Proof.
  intros Hi. destruct (io_uring_get_sqe (ring_ u)) as [[p|] r] eqn:Hg.
  - pose proof (fun op fd off a l => prepare_ok op fd off a l u p r Hi Hg) as Hp.
    destruct q; cbn [prepare_request encode]; unfold_prepare; first
      [ apply Hp
      | match goal with |- context [prepare_with ?f _] =>
          exact (prepare_with_ok f _ _ _ _ _ (Hp _ _ _ _ _)) end ].
  - destruct q; cbn [prepare_request]; unfold_prepare;
      by rewrite (prepare_full _ _ _ _ _ _ _ Hi Hg).
Qed.

Definition length_of (q : Request) : option Z :=
  match q with
  | Read _ _ n _ | Write _ _ n _ | Send _ _ n _ | Recv _ _ n _ => Some n
  | SyncFileRange _ _ n _ => Some n
  | _ => None
  end.

(** The byte count of a read, write, send, receive or sync request reaches
    the kernel unchanged exactly when it is below [2^32]: the 32-bit [len] of
    [prepare] drops the upper half of a [size_t]. *)
Theorem prepare_length {R} `{!LibUring R} q n (u u' : IoURing R) p :
  length_of q = Some n -> 0 <= n ->
  prepare_request q u = Ok (Some p, u') ->
  len (sqes u' p) = n mod 2 ^ 32 /\ (len (sqes u' p) = n <-> n < 2 ^ 32).
Proof.
  intros Hl Hn Hq.
  assert (Hi : isInitialized u = true).
  { destruct (isInitialized u) eqn:E; [done|]. exfalso.
    destruct q; try discriminate Hl; cbn [prepare_request] in Hq; revert Hq;
      unfold_prepare; unfold prepare, getSqe; by rewrite cassert_bind_false. }
  assert (Hlen : len (encode q) = u32 n).
  { destruct q; try discriminate Hl; injection Hl as <-; reflexivity. }
  pose proof (prepare_encodes_aux q u Hi) as H.
  destruct (io_uring_get_sqe (ring_ u)) as [[p'|] r].
  - destruct H as (u'' & Hq' & _ & Hs & _).
    rewrite Hq' in Hq. injection Hq as <- <-.
    rewrite Hs, Hlen. split; [done|]. rewrite wrap_id_iff by lia. lia.
  - rewrite H in Hq. discriminate Hq.
Qed.

(** The ring a successful [init] sets up. *)
Definition ready {R} `{!LibUring R} `{!LibUringSpec R} (u : IoURing R) : Prop :=
  isInitialized u = true /\ uring_entries (ring_ u) = sq_entries (params_ u) /\
  0 <= sq_entries (params_ u) < 2 ^ 32 /\
  Z.of_nat (length (uring_sq (ring_ u))) <= sq_entries (params_ u).

Lemma init_ready {R} `{!LibUring R} `{!LibUringSpec R} n sqPoll u u' :
  init (R := R) n sqPoll u = (true, u') ->
  ready u' /\ uring_sq (ring_ u') = [] /\ uring_inflight (ring_ u') = [] /\
  uring_cq (ring_ u') = [] /\ u32 n <= getNumSqeEntries u'.
Proof.
  unfold init. set (fl := if sqPoll then _ else _). intros H.
  pose proof (init_spec (u32 n) fl (-1)) as Hs.
  destruct (io_uring_queue_init_params (u32 n) fl (-1)) as [[[res rfd] r] ps].
  destruct (res <? 0) eqn:Hr; [discriminate H|]. injection H as <-.
  apply Z.ltb_ge in Hr. destruct (Hs Hr) as (Hf & Hsq & Hin & Hcq & He & Hn).
  pose proof (wrap_range 32 n ltac:(lia)).
  unfold ready, isInitialized, getNumSqeEntries. cbn. rewrite Hsq. cbn.
  repeat split; try done; lia.
Qed.

Lemma getSqe_ok {R} `{!LibUring R} `{!LibUringSpec R} (u : IoURing R) :
  ready u ->
  exists o u', getSqe u = Ok (o, u') /\ ready u' /\ sqes u' = sqes u /\
    uring_inflight (ring_ u') = uring_inflight (ring_ u) /\
    uring_cq (ring_ u') = uring_cq (ring_ u) /\
    match o with
    | Some p => (p ∉ uring_sq (ring_ u)) /\
        uring_sq (ring_ u') = uring_sq (ring_ u) ++ [p] /\ 0 < getSqeCapacity u /\
        getSqeCapacity u' = getSqeCapacity u - 1
    | None => uring_sq (ring_ u') = uring_sq (ring_ u) /\ getSqeCapacity u = 0 /\
        getSqeCapacity u' = 0
    end.
Proof.
  intros (Hi & He & Hr & Hlen). unfold getSqe. rewrite cassert_bind by done.
  pose proof (get_sqe_spec (ring_ u)) as Hg. revert Hg.
  destruct (io_uring_get_sqe (ring_ u)) as [o r]. intros Hg.
  exists o, (set_ring r u). split; [done|].
  unfold getSqeCapacity. rewrite !sq_ready_spec. cbn [ring_ set_ring params_ sqes].
  destruct o as [p|].
  - destruct Hg as (Hlt & Hp & Hsq & Hin & Hcq & He').
    rewrite !wrap_small by (rewrite ?Hsq, ?length_app; cbn [length]; lia).
    unfold ready. cbn [ring_ set_ring params_ sqes]. rewrite Hsq, length_app. cbn [length].
    repeat split; (done || lia || congruence).
  - destruct Hg as (Hle & Hsq & Hin & Hcq & He').
    rewrite !wrap_small by (rewrite ?Hsq; lia).
    unfold ready. cbn [ring_ set_ring params_ sqes]. rewrite Hsq.
    repeat split; (done || lia || congruence).
Qed.

Fixpoint getSqes {R} `{!LibUring R} (n : nat) (u : IoURing R)
    : outcome (list (option Z) * IoURing R) :=
  match n with
  | O => Ok ([], u)
  | S n => '(o, u) ← getSqe u; '(os, u) ← getSqes n u; Ok (o :: os, u)
  end.

(** [getSqeCapacity] is exact: of the next calls to [getSqe] that many
    succeed, with distinct entries not already waiting for submission, and every
    later one returns null. *)
Theorem getSqeCapacity_exact {R} `{!LibUring R} `{!LibUringSpec R} (u : IoURing R) n :
  ready u ->
  exists ps u', getSqes n u =
      Ok (map Some ps ++ replicate (n - Z.to_nat (getSqeCapacity u)) None, u') /\
    length ps = Nat.min n (Z.to_nat (getSqeCapacity u)) /\
    NoDup ps /\ (forall p, p ∈ ps -> p ∉ uring_sq (ring_ u)) /\
    uring_sq (ring_ u') = uring_sq (ring_ u) ++ ps.
Proof.
  revert u. induction n as [|n IH]; intros u Hu; cbn [getSqes].
  { exists [], u. cbn. rewrite app_nil_r.
    repeat split; [constructor | by intros p Hp%elem_of_nil]. }
  destruct (getSqe_ok u Hu) as (o & u1 & -> & Hu1 & _ & _ & _ & Ho).
  cbn [mbind outcome_bind].
  destruct (IH u1 Hu1) as (ps & u' & -> & Hlen & Hnd & Hfresh & Hsq).
  cbn [mbind outcome_bind]. destruct o as [p|].
  - destruct Ho as (Hp & Hsq1 & Hpos & Hcap). rewrite Hsq1 in Hfresh, Hsq.
    exists (p :: ps), u'. rewrite Hcap in *.
    replace (S n - Z.to_nat (getSqeCapacity u))%nat
      with (n - Z.to_nat (getSqeCapacity u - 1))%nat by lia.
    split; [done|]. split; [cbn [length]; lia|]. split; [|split].
    + apply list.NoDup_cons. split; [|done]. intros Hin.
      apply (Hfresh p Hin). apply elem_of_app. right. by apply list_elem_of_singleton.
    + intros q [->|Hq]%elem_of_cons; [done|]. intros Hq'.
      apply (Hfresh q Hq), elem_of_app. by left.
    + rewrite Hsq. by rewrite <- app_assoc.
  - destruct Ho as (Hsq1 & Hcap & Hcap1).
    rewrite Hcap1, Hcap in *. rewrite Hsq1 in *.
    destruct ps; [|cbn in Hlen; lia].
    exists [], u'. cbn in *. rewrite Nat.sub_0_r in *. by repeat split.
Qed.

End IoURing.

(** ** A concrete library for the witnesses

    A ring whose kernel finishes every operation as soon as it is submitted,
    with the result [sim_answer] gives it. *)
Module SimRing.

Record SimRing : Type := mkSimRing {
  sim_entries : Z;
  sim_sq : list Z;
  sim_cq : list Cqe
}.

(** The result of an operation: its length, or success. *)
Definition sim_answer (s : Sqe) : Cqe :=
  mkCqe (user_data s)
    match opcode s with
    | IORING_OP_TIMEOUT => -62
    | IORING_OP_LINK_TIMEOUT => -125
    | _ => len s
    end.

Definition sim_fresh (l : list Z) : Z := 1 + foldr Z.max 0 l.

#[global] Instance sim_uring : LibUring SimRing := {
  IORING_SETUP_SQPOLL := 2;
  IORING_TIMEOUT_ABS := 1;
  IOSQE_IO_LINK := 4;
  IORING_FEAT_NODROP := 2;
  IORING_FEAT_SUBMIT_STABLE := 4;
  sizeof_open_how := 24;
  io_uring_queue_init_params n _ _ :=
    if (n =? 0) || (32768 <? n) then (-22, -1, mkSimRing 0 [] [], mkParams 0 0)
    else let e := 2 ^ Z.log2_up n in (0, 3, mkSimRing e [] [], mkParams e 255);
  io_uring_get_sqe r :=
    if Z.of_nat (length (sim_sq r)) <? sim_entries r
    then let p := sim_fresh (sim_sq r) in
      (Some p, mkSimRing (sim_entries r) (sim_sq r ++ [p]) (sim_cq r))
    else (None, r);
  io_uring_sq_ready r := Z.of_nat (length (sim_sq r));
  io_uring_submit_and_wait mem _ r :=
    (Z.of_nat (length (sim_sq r)),
     mkSimRing (sim_entries r) [] (sim_cq r ++ ((fun p => sim_answer (mem p)) <$> sim_sq r)));
  io_uring_peek_cqe r :=
    (if decide (sim_cq r = []) then -11 else 0, head (sim_cq r), r);
  io_uring_wait_cqe_nr _ r :=
    (if decide (sim_cq r = []) then -11 else 0, head (sim_cq r), r);
  io_uring_cq_advance n r :=
    mkSimRing (sim_entries r) (sim_sq r) (drop (Z.to_nat n) (sim_cq r))
}.

Lemma sim_fresh_spec l : sim_fresh l ∉ l.
Proof.
  assert (forall p, p ∈ l -> p <= foldr Z.max 0 l) as H.
  { induction l as [|q l IH]; [by intros p Hp%elem_of_nil|].
    intros p [->|Hp]%elem_of_cons; cbn; [lia|]. specialize (IH p Hp). lia. }
  intros Hp%H. unfold sim_fresh in Hp. lia.
Qed.

#[global] Program Instance sim_uring_spec : LibUringSpec SimRing := {
  uring_entries := sim_entries;
  uring_sq := sim_sq;
  uring_inflight _ := [];
  uring_cq := sim_cq
}.
Next Obligation.
  intros n fl fd0. cbn. destruct (_ || _) eqn:E; [cbn; lia|].
  apply orb_false_iff in E as [H0 H1]. apply Z.ltb_ge in H1. apply Z.eqb_neq in H0.
  cbn [sim_sq sim_cq sim_entries sq_entries]. intros _.
  assert (n <= 2 ^ Z.log2_up n).
  { destruct (decide (1 < n)); [by apply Z.log2_up_spec|].
    rewrite Z.log2_up_eqn0 by lia. lia. }
  assert (2 ^ Z.log2_up n <= 2 ^ Z.log2_up 32768)
    by (apply Z.pow_le_mono_r; [lia|]; by apply Z.log2_up_le_mono).
  change (2 ^ Z.log2_up 32768) with 32768 in *. repeat split; try done; lia.
Qed.
Next Obligation.
  intros r. cbn. destruct (_ <? _) eqn:E; cbn.
  - apply Z.ltb_lt in E. repeat split; try done. apply sim_fresh_spec.
  - apply Z.ltb_ge in E. done.
Qed.
Next Obligation. done. Qed.
Next Obligation.
  intros mem n r. cbn.
  exists (length (sim_sq r)), (mem <$> sim_sq r), ((fun p => sim_answer (mem p)) <$> sim_sq r).
  rewrite drop_all, firstn_all, app_nil_r. repeat split; try done.
  rewrite <- !list_fmap_compose. done.
Qed.
Next Obligation.
  intros r. cbn. repeat split; try done.
  destruct (sim_cq r) as [|c cs]; cbn; [by left | done].
Qed.
Next Obligation. done. Qed.

#[global] Instance sim_reliable : ReliableRing SimRing.
Proof.
  intros mem r. cbn. split; [lia|]. intros H Hcq.
  apply app_eq_nil in Hcq as [Hcq Hsq%fmap_nil_inv].
  destruct H as [H|[H|H]]; by apply H.
Qed.

Definition blank : IoURing.IoURing SimRing :=
  IoURing.mkIoURing (mkSimRing 0 [] []) (-1) (mkParams 0 0)
    (fun _ => mkSqe IORING_OP_SEND 9 9 9 9 9 9 9 9 9 9 9 9 9).

(** A fresh ring of [n] entries, its memory full of stale values. *)
Definition sim_init (n : Z) : IoURing.IoURing SimRing :=
  (IoURing.init n false blank).2.

Lemma sim_init_ready n : 1 <= n <= 32768 -> IoURing.ready (sim_init n).
Proof.
  intros Hn. apply (IoURing.init_ready n false blank).
  unfold sim_init, IoURing.init. cbn. rewrite (wrap_small 32 n) by lia.
  rewrite (proj2 (Z.eqb_neq n 0)), (proj2 (Z.ltb_ge 32768 n)) by lia. done.
Qed.

End SimRing.

Lemma prepare_length_witness :
  let q := IoURing.Recv 5 100 (2 ^ 32 + 7) 0 in
  exists u', IoURing.length_of q = Some (2 ^ 32 + 7) /\
    IoURing.prepare_request q (SimRing.sim_init 2) = Ok (Some 1, u') /\
    len (IoURing.sqes u' 1) = (2 ^ 32 + 7) mod 2 ^ 32 /\
    (len (IoURing.sqes u' 1) = 2 ^ 32 + 7 <-> 2 ^ 32 + 7 < 2 ^ 32).
Proof.
  intros q. eexists. split; [reflexivity|]. split; [reflexivity|].
  apply (IoURing.prepare_length q (2 ^ 32 + 7) (SimRing.sim_init 2)); [reflexivity | lia | reflexivity].
Defined.

Lemma getSqeCapacity_exact_witness :
  IoURing.ready (SimRing.sim_init 3) /\
  exists ps u', IoURing.getSqes 6 (SimRing.sim_init 3) =
      Ok (map Some ps ++
        replicate (6 - Z.to_nat (IoURing.getSqeCapacity (SimRing.sim_init 3))) None, u') /\
    length ps = Nat.min 6 (Z.to_nat (IoURing.getSqeCapacity (SimRing.sim_init 3))) /\
    NoDup ps /\
    (forall p, p ∈ ps -> p ∉ uring_sq (IoURing.ring_ (SimRing.sim_init 3))) /\
    uring_sq (IoURing.ring_ u') = uring_sq (IoURing.ring_ (SimRing.sim_init 3)) ++ ps.
Proof.
  assert (IoURing.ready (SimRing.sim_init 3)) as H by (apply SimRing.sim_init_ready; lia).
  split; [exact H|]. exact (IoURing.getSqeCapacity_exact _ 6 H).
Defined.
