(* ===== verification/Requests.v ===== *)
(** * What the kernel reads in the prepared entries (iouring.cpp, io_uring_enter(2))

    [decode] reads an entry the way the manual page of each operation lays it out, and
    refuses one with anything left in the fields the operation does not have.  It knows
    nothing of the [prepare] members; what they leave in an entry decodes to the request
    they were asked for, but for the upper half of a length. *)

From Stdlib Require Import ZArith Lia.
From stdpp Require Import base numbers list option.
From S2P Require Import Prelude Uring.

Local Open Scope Z_scope.

Module Requests.
Import IoURing.

(** A [w]-bit field read as a signed number. *)
Definition signed (w x : Z) : Z := if x <? 2 ^ (w - 1) then x else x - 2 ^ w.

Definition in_signed (w x : Z) : Prop := - 2 ^ (w - 1) <= x < 2 ^ (w - 1).
Definition in_unsigned (w x : Z) : Prop := 0 <= x < 2 ^ w.

Lemma signed_wrap w x : 1 <= w -> in_signed w x -> signed w (wrap w x) = x.
Proof.
  intros Hw [H1 H2]. unfold signed, wrap.
  assert (2 ^ w = 2 * 2 ^ (w - 1)) as Hp by (rewrite <- Z.pow_succ_r by lia; f_equal; lia).
  destruct (Z.leb_spec 0 x).
  - rewrite Z.mod_small by lia. by rewrite (proj2 (Z.ltb_lt _ _)) by lia.
  - rewrite <- (Z.mod_unique x (2 ^ w) (-1) (x + 2 ^ w)) by lia.
    rewrite (proj2 (Z.ltb_ge _ _)) by lia. lia.
Qed.

Lemma s64_u64 x : in_signed 64 x -> signed 64 (u64 x) = x.
Proof. by apply signed_wrap. Qed.
Lemma s32_u32 x : in_signed 32 x -> signed 32 (u32 x) = x.
Proof. by apply signed_wrap. Qed.
Lemma s16_u16 x : in_signed 16 x -> signed 16 (u16 x) = x.
Proof. by apply signed_wrap. Qed.
Lemma u16_twice x : u16 (u16 x) = u16 x.
Proof. apply wrap_idem. Qed.
Lemma u32_same x : in_unsigned 32 x -> u32 x = x.
Proof. apply wrap_small. Qed.
Lemma u64_same x : in_unsigned 64 x -> u64 x = x.
Proof. apply u64_small. Qed.

Section Requests.
Context {R : Type} `{!LibUring R}.

(** The fields no operation here has. *)
Definition plain (s : Sqe) : bool :=
  (flags s =? 0) && (ioprio s =? 0) && (buf_index s =? 0) && (personality s =? 0) &&
  (splice_fd_in s =? 0) && (pad2_0 s =? 0) && (pad2_1 s =? 0).

Definition no_off (s : Sqe) : bool := off s =? 0.
Definition no_addr (s : Sqe) : bool := addr s =? 0.
Definition no_len (s : Sqe) : bool := len s =? 0.
Definition one_len (s : Sqe) : bool := len s =? 1.
Definition no_flags (s : Sqe) : bool := op_flags s =? 0.

Definition accepted (fields : bool) (q : Request) : option Request := if fields then Some q else None.

(** Operation by operation: the fields that must be empty, and what the others are. *)
Definition decode (s : Sqe) : option Request :=
  if negb (plain s) then None
  else match opcode s with
  | IORING_OP_NOP => accepted (no_off s && no_addr s && no_len s && no_flags s) Nop
  | IORING_OP_READV => accepted (no_flags s) (Readv (fd s) (addr s) (len s) (signed 64 (off s)))
  | IORING_OP_WRITEV => accepted (no_flags s) (Writev (fd s) (addr s) (len s) (signed 64 (off s)))
  | IORING_OP_FSYNC => accepted (no_off s && no_addr s && no_len s) (Fsync (fd s) (op_flags s))
  | IORING_OP_POLL_ADD =>
      accepted (no_off s && no_addr s) (PollAdd (fd s) (signed 16 (u16 (op_flags s))) (len s))
  | IORING_OP_POLL_REMOVE => accepted (no_off s && no_len s && no_flags s) (PollRemove (addr s))
  | IORING_OP_SYNC_FILE_RANGE =>
      accepted (no_addr s) (SyncFileRange (fd s) (signed 64 (off s)) (len s) (op_flags s))
  | IORING_OP_SENDMSG => accepted (no_off s && one_len s) (Sendmsg (fd s) (addr s) (signed 32 (op_flags s)))
  | IORING_OP_RECVMSG => accepted (no_off s && one_len s) (Recvmsg (fd s) (addr s) (signed 32 (op_flags s)))
  | IORING_OP_TIMEOUT => accepted (one_len s) (Timeout (addr s) (off s) (op_flags s))
  | IORING_OP_TIMEOUT_REMOVE => accepted (no_off s && no_len s) (TimeoutRemove (addr s) (op_flags s))
  | IORING_OP_ACCEPT => accepted (no_len s) (Accept (fd s) (addr s) (off s) (op_flags s))
  | IORING_OP_ASYNC_CANCEL => accepted (no_off s && no_len s && no_flags s) (AsyncCancel (addr s))
  | IORING_OP_LINK_TIMEOUT => accepted (no_off s && one_len s) (LinkTimeout (addr s) (op_flags s))
  | IORING_OP_CONNECT => accepted (no_len s && no_flags s) (Connect (fd s) (addr s) (off s))
  | IORING_OP_OPENAT => accepted (no_off s) (Openat (fd s) (addr s) (signed 32 (op_flags s)) (len s))
  | IORING_OP_CLOSE => accepted (no_off s && no_addr s && no_len s && no_flags s) (Close (fd s))
  | IORING_OP_STATX =>
      Some (Statx (fd s) (addr s) (signed 32 (op_flags s)) (len s) (off s))
  | IORING_OP_READ => accepted (no_flags s) (Read (fd s) (addr s) (len s) (signed 64 (off s)))
  | IORING_OP_WRITE => accepted (no_flags s) (Write (fd s) (addr s) (len s) (signed 64 (off s)))
  | IORING_OP_SEND => accepted (no_off s) (Send (fd s) (addr s) (len s) (signed 32 (op_flags s)))
  | IORING_OP_RECV => accepted (no_off s) (Recv (fd s) (addr s) (len s) (signed 32 (op_flags s)))
  | IORING_OP_OPENAT2 =>
      accepted ((len s =? u32 sizeof_open_how) && no_flags s) (Openat2 (fd s) (addr s) (off s))
  | IORING_OP_EPOLL_CTL =>
      accepted (no_flags s) (EpollCtl (fd s) (signed 32 (len s)) (signed 64 (addr s)) (off s))
  | IORING_OP_SHUTDOWN => accepted (no_off s && no_addr s && no_flags s) (Shutdown (fd s) (signed 32 (len s)))
  | IORING_OP_RENAMEAT =>
      Some (Renameat (fd s) (addr s) (signed 32 (len s)) (off s) (signed 32 (op_flags s)))
  | IORING_OP_UNLINKAT => accepted (no_off s && no_len s) (Unlinkat (fd s) (addr s) (signed 32 (op_flags s)))
  end.

(** The arguments are values of their types: an [int], a [short], an [off_t], a pointer,
    a [size_t] and so on; counts are not negative. *)
Definition args_ok (q : Request) : Prop :=
  match q with
  | Nop | Close _ | Fsync _ _ => True
  | AsyncCancel ud | PollRemove ud | TimeoutRemove ud _ => in_unsigned 64 ud
  | Readv _ iov n o | Writev _ iov n o => in_unsigned 64 iov /\ in_unsigned 31 n /\ in_signed 64 o
  | PollAdd _ ev fl => in_signed 16 ev /\ in_unsigned 32 fl
  | SyncFileRange _ o n _ => in_signed 64 o /\ in_unsigned 63 n
  | Sendmsg _ msg fl | Recvmsg _ msg fl => in_unsigned 64 msg /\ in_signed 32 fl
  | Timeout ts n _ => in_unsigned 64 ts /\ in_unsigned 64 n
  | Accept _ a l _ => in_unsigned 64 a /\ in_unsigned 64 l
  | LinkTimeout ts _ => in_unsigned 64 ts
  | Connect _ a l => in_unsigned 64 a /\ in_unsigned 32 l
  | Openat _ p fl mode => in_unsigned 64 p /\ in_signed 32 fl /\ in_unsigned 32 mode
  | Statx _ p fl mask b => in_unsigned 64 p /\ in_signed 32 fl /\ in_unsigned 32 mask /\ in_unsigned 64 b
  | Read _ b n o | Write _ b n o => in_unsigned 64 b /\ in_unsigned 64 n /\ in_signed 64 o
  | Send _ b n fl | Recv _ b n fl => in_unsigned 64 b /\ in_unsigned 64 n /\ in_signed 32 fl
  | Openat2 _ p h => in_unsigned 64 p /\ in_unsigned 64 h
  | EpollCtl _ op fd ev => in_signed 32 op /\ in_signed 32 fd /\ in_unsigned 64 ev
  | Shutdown _ how => in_signed 32 how
  | Renameat _ op nd np fl =>
      in_unsigned 64 op /\ in_signed 32 nd /\ in_unsigned 64 np /\ in_signed 32 fl
  | Unlinkat _ p fl => in_unsigned 64 p /\ in_signed 32 fl
  end.

(** The request with its length, if it has one, taken modulo 2^32. *)
Definition shortened (q : Request) : Request :=
  match q with
  | Read fd b n o => Read fd b (n mod 2 ^ 32) o
  | Write fd b n o => Write fd b (n mod 2 ^ 32) o
  | Send fd b n fl => Send fd b (n mod 2 ^ 32) fl
  | Recv fd b n fl => Recv fd b (n mod 2 ^ 32) fl
  | SyncFileRange fd o n fl => SyncFileRange fd o (n mod 2 ^ 32) fl
  | _ => q
  end.

Lemma shortened_iff q :
  args_ok q -> shortened q = q <-> (forall n, length_of q = Some n -> n < 2 ^ 32).
Proof.
  assert (forall n, 0 <= n -> n mod 2 ^ 32 = n <-> n < 2 ^ 32) as Hn.
  { intros n Hn. change (n mod 2 ^ 32) with (wrap 32 n). rewrite wrap_id_iff by lia. lia. }
  intros Ha. destruct q; cbn in *; unfold in_unsigned, in_signed in *; try done;
    (split; [intros [= E] m [= <-]; apply Hn; [lia|done]
            |intros H; f_equal; apply Hn; [lia|by apply H]]).
Qed.

(** What the argument tables of the [prepare] members say. *)
Lemma decode_encode q : args_ok q -> decode (encode q) = Some (shortened q).
Proof.
  intros Ha. unfold decode. replace (plain (encode q)) with true by by destruct q.
  destruct q; cbn [args_ok] in Ha; cbn -[signed u64 u32 u16 wrap]; unfold no_off, no_addr, no_len, one_len, no_flags;
    cbn -[signed u64 u32 u16 wrap];
    repeat match goal with H : _ /\ _ |- _ => destruct H end; unfold accepted;
    repeat first
      [ rewrite s64_u64 by (assumption || (unfold in_signed in *; lia))
      | rewrite s32_u32 by assumption
      | rewrite u16_twice
      | rewrite s16_u16 by assumption
      | rewrite u64_same by (assumption || (unfold in_unsigned in *; lia))
      | rewrite u32_same by (assumption || (unfold in_unsigned in *; lia)) ]; try done.
  by rewrite Z.eqb_refl.
Qed.

End Requests.
End Requests.

