(* ===== verification/Queue.v ===== *)
(** * The I/O queue: [IoQueue] (ioqueue.hpp, ioqueue.cpp) and [IoQueueImpl]
    (ioqueue_impl_iouring.hpp, ioqueue_impl_iouring.cpp)

    The queue is verified against the interfaces of its completer table
    ([CompleterTable]) and of liburing ([LibUring]).  Coroutines that use the
    queue are programs ([prog]) over its member functions; a suspended coroutine
    is the continuation its awaiter holds, and the completers on the heap point
    to the awaiters. *)

From Stdlib Require Import ZArith Lia.
From stdpp Require Import base numbers list gmap option.
From S2P Require Import Prelude Interfaces Uring.

Local Open Scope Z_scope.

Module IoQueue.

Definition OpIdInvalid : Z := U64MAX - 1.
Definition OpIdIgnore : Z := U64MAX.

(** [h_io] tells whether the queue pointer is set; there is one queue. *)
Record OperationHandle : Type := mkHandle { h_io : bool; h_id : Z }.

Definition defaultHandle : OperationHandle := mkHandle false OpIdInvalid.

Definition valid (h : OperationHandle) : bool :=
  h_io h && negb (h_id h =? OpIdInvalid).

Section Queue.
Context {R : Type} `{!LibUring R}.
Context {T : Type} `{!CompleterTable T}.

(** The members of [IoQueue] and of its [IoQueueImpl]. *)
Record IoQueue : Type := mkIoQueue {
  nextOpId_ : Z;
  ring_ : IoURing.IoURing R;
  completers_ : T;
  lastSqe_ : option Z
}.

Definition set_nextOpId (n : Z) (q : IoQueue) : IoQueue :=
  mkIoQueue n (ring_ q) (completers_ q) (lastSqe_ q).
Definition set_ring (u : IoURing.IoURing R) (q : IoQueue) : IoQueue :=
  mkIoQueue (nextOpId_ q) u (completers_ q) (lastSqe_ q).
Definition set_completers (t : T) (q : IoQueue) : IoQueue :=
  mkIoQueue (nextOpId_ q) (ring_ q) t (lastSqe_ q).
Definition set_lastSqe (p : option Z) (q : IoQueue) : IoQueue :=
  mkIoQueue (nextOpId_ q) (ring_ q) (completers_ q) p.

(** ** Construction *)

Definition has (features bit : Z) : bool := negb (Z.land features bit =? 0).

(** [IoQueueImpl::init] *)
Definition init (submissionQueuePolling : bool) (q : IoQueue) : bool * IoQueue :=
  let '(ok, u) := IoURing.init (tbl_capacity (completers_ q)) submissionQueuePolling (ring_ q) in
  let q := set_ring u q in
  if negb ok then (false, q)
  else if negb (has (features (IoURing.getParams u)) IORING_FEAT_NODROP) then (false, q)
  else if negb (has (features (IoURing.getParams u)) IORING_FEAT_SUBMIT_STABLE) then (false, q)
  else (true, q).

(** The constructor; [None] stands for [std::exit(1)].  [u] is the storage of
    [ring_] before [init]. *)
Definition make (size : Z) (u : IoURing.IoURing R) : outcome (option IoQueue) :=
  t ← tbl_make size;
  let '(ok, q) := init false (mkIoQueue 0 u t None) in
  Ok (if ok then Some q else None).

Definition getSize (q : IoQueue) : Z := IoURing.getNumSqeEntries (ring_ q).
Definition getCapacity (q : IoQueue) : Z := IoURing.getSqeCapacity (ring_ q).

(** ** Operation ids and submission entries *)

Definition getNextOpId (q : IoQueue) : Z * IoQueue :=
  let next :=
    if (nextOpId_ q =? OpIdInvalid) || (nextOpId_ q =? OpIdIgnore) then 0
    else nextOpId_ q in
  (next, set_nextOpId (u64 (next + 1)) q).

(** [finalizeSqe(sqe, userData)] *)
Definition finalizeSqe_with (sqe : option Z) (userData : Z) (q : IoQueue)
    : OperationHandle * IoQueue :=
  match sqe with
  | None => (defaultHandle, q)
  | Some p =>
      let q := set_ring (IoURing.write_sqe p (set_user_data userData) (ring_ q)) q in
      let q := set_lastSqe (Some p) q in
      (mkHandle true (user_data (IoURing.sqes (ring_ q) p)), q)
  end.

(** [finalizeSqe(sqe)] *)
Definition finalizeSqe (sqe : option Z) (q : IoQueue) : OperationHandle * IoQueue :=
  let '(opId, q) := getNextOpId q in
  finalizeSqe_with sqe opId q.

(** [finalizeSqe(ring_.prepare...)] *)
Definition finalize_prepared (m : IoURing.IoURing R -> outcome (option Z * IoURing.IoURing R))
    (q : IoQueue) : outcome (OperationHandle * IoQueue) :=
  '(sqe, u) ← m (ring_ q);
  Ok (finalizeSqe sqe (set_ring u q)).

Definition accept (fd addr addrlen : Z) :=
  finalize_prepared (IoURing.prepareAccept fd addr addrlen 0).
Definition connect (sockfd addr addrlen : Z) :=
  finalize_prepared (IoURing.prepareConnect sockfd addr addrlen).
Definition send (sockfd buf len : Z) :=
  finalize_prepared (IoURing.prepareSend sockfd buf len 0).
Definition recv (sockfd buf len : Z) :=
  finalize_prepared (IoURing.prepareRecv sockfd buf len 0).
Definition read (fd buf count : Z) :=
  finalize_prepared (IoURing.prepareRead fd buf count 0).
Definition close (fd : Z) := finalize_prepared (IoURing.prepareClose fd).
Definition shutdown (fd how : Z) := finalize_prepared (IoURing.prepareShutdown fd how).
Definition poll (fd events : Z) := finalize_prepared (IoURing.preparePollAdd fd events 0).
Definition recvmsg (sockfd msg flags : Z) :=
  finalize_prepared (IoURing.prepareRecvmsg sockfd msg flags).
Definition sendmsg (sockfd msg flags : Z) :=
  finalize_prepared (IoURing.prepareSendmsg sockfd msg flags).
Definition timeout (ts flags : Z) :=
  finalize_prepared (IoURing.prepareTimeout ts 0 flags).

(** [linkTimeout]: the timeout follows the operation it limits, so that
    operation must be the last one prepared. *)
Definition linkTimeout (ts flags : Z) (op : OperationHandle) (q : IoQueue)
    : outcome (OperationHandle * IoQueue) :=
  _ ← cassert (valid op);
  p ← match lastSqe_ q with
      | Some p =>
          _ ← cassert (user_data (IoURing.sqes (ring_ q) p) =? h_id op); Ok p
      | None => Crash AssertFailed
      end;
  let u := IoURing.write_sqe p
             (fun s => set_flags (Z.lor (Uring.flags s) IOSQE_IO_LINK) s) (ring_ q) in
  '(sqe, u) ← IoURing.prepareLinkTimeout ts (u32 flags) u;
  let '(h, q) := finalizeSqe_with sqe OpIdIgnore (set_ring u q) in
  Ok (if valid h then op else defaultHandle, q).

Definition setCompleter (operation : OperationHandle) (completer : Z) (q : IoQueue)
    : outcome IoQueue :=
  t ← tbl_insert (h_id operation) completer (completers_ q);
  Ok (set_completers t q).

End Queue.
Arguments IoQueue : clear implicits.

(** ** Coroutines

    The member functions that prepare an operation of its own. *)
Inductive call : Type :=
| Accept (fd addr addrlen : Z)
| Connect (sockfd addr addrlen : Z)
| Send (sockfd buf len : Z)
| Recv (sockfd buf len : Z)
| Read (fd buf count : Z)
| Close (fd : Z)
| Shutdown (fd how : Z)
| Poll (fd events : Z)
| Recvmsg (sockfd msg flags : Z)
| Sendmsg (sockfd msg flags : Z)
| Timeout (ts flags : Z).

(** What a coroutine does next.  [Await] is [co_await] on a handle, [Spawn] a
    call of a coroutine that runs until it first suspends ([BasicCoroutine]),
    [Destroy] the destruction of a coroutine's frame ([~Task]) and [CloseFd] the end
    of an [Fd], which closes its descriptor at once ([~Fd]).  The continuations get
    what the C++ expression returns. *)
Inductive prog : Type :=
| Ret
| Call (c : call) (k : OperationHandle -> prog)
| LinkTimeout (ts flags : Z) (op : OperationHandle) (k : OperationHandle -> prog)
| Cancel (op : OperationHandle) (cancelHandler : bool) (k : OperationHandle -> prog)
| Await (op : OperationHandle) (k : Z -> prog)
| Spawn (p : prog) (k : Z -> prog)
| Destroy (f : Z) (k : prog)
| CloseFd (fd : Z) (k : prog).

(** [OperationAwaiter]: the coroutine to resume is its continuation. *)
Record OperationAwaiter : Type := mkAwaiter {
  operation : OperationHandle;
  caller : Z -> prog;
  result : Z
}.

(** [IoResult] before any operation has completed. *)
Definition defaultResult : Z := - 2 ^ 31.

(** A coroutine frame; a suspended one holds the awaiter it waits at. *)
Inductive frame : Type :=
| Running
| Suspended (a : OperationAwaiter)
| Finished.

(** [operator new] for completers: the n-th allocation, given the objects alive. *)
Class Allocator := {
  new_completer : nat -> gmap Z Z -> Z;
  new_completer_spec n heap :
    heap !! new_completer n heap = None /\ storable (new_completer n heap)
}.

Section World.
Context {R : Type} `{!LibUring R}.
Context {T : Type} `{!CompleterTable T}.
Context {allocator : Allocator}.

(** The queue, the [CoroutineCompleter] objects by their address (each holds the
    frame whose awaiter it points to) and the coroutine frames.  [allocs] counts
    allocations, [nextFrame] names frames, and [closed] has the descriptors that the
    coroutines closed without the queue, the last one first. *)
Record World : Type := mkWorld {
  queue : IoQueue R T;
  completers : gmap Z Z;
  frames : gmap Z frame;
  allocs : nat;
  nextFrame : Z;
  closed : list Z
}.

Definition set_queue (q : IoQueue R T) (w : World) : World :=
  mkWorld q (completers w) (frames w) (allocs w) (nextFrame w) (closed w).
Definition set_heap (h : gmap Z Z) (w : World) : World :=
  mkWorld (queue w) h (frames w) (allocs w) (nextFrame w) (closed w).
Definition set_frame (f : Z) (s : frame) (w : World) : World :=
  mkWorld (queue w) (completers w) (<[f := s]> (frames w)) (allocs w) (nextFrame w) (closed w).

(** [close(fd)] of the C library. *)
Definition close_fd (fd : Z) (w : World) : World :=
  mkWorld (queue w) (completers w) (frames w) (allocs w) (nextFrame w) (fd :: closed w).

(** [delete completer] *)
Definition delete_completer (p : Z) (w : World) : outcome World :=
  if p =? 0 then Ok w
  else _ ← deref (completers w !! p); Ok (set_heap (delete p (completers w)) w).

Definition invoke (c : call) (w : World) : outcome (OperationHandle * World) :=
  '(h, q) ←
    match c with
    | Accept fd addr addrlen => accept fd addr addrlen (queue w)
    | Connect sockfd addr addrlen => connect sockfd addr addrlen (queue w)
    | Send sockfd buf len => send sockfd buf len (queue w)
    | Recv sockfd buf len => recv sockfd buf len (queue w)
    | Read fd buf count => read fd buf count (queue w)
    | Close fd => close fd (queue w)
    | Shutdown fd how => shutdown fd how (queue w)
    | Poll fd events => poll fd events (queue w)
    | Recvmsg sockfd msg flags => recvmsg sockfd msg flags (queue w)
    | Sendmsg sockfd msg flags => sendmsg sockfd msg flags (queue w)
    | Timeout ts flags => timeout ts flags (queue w)
    end;
  Ok (h, set_queue q w).

Definition cancel (op : OperationHandle) (cancelHandler : bool) (w : World)
    : outcome (OperationHandle * World) :=
  _ ← cassert (valid op);
  w ← (if cancelHandler then
         '(ptr, t) ← tbl_remove (h_id op) (completers_ (queue w));
         delete_completer ptr (set_queue (set_completers t (queue w)) w)
       else Ok w);
  '(sqe, u) ← IoURing.prepareAsyncCancel (h_id op) (ring_ (queue w));
  let '(h, q) := finalizeSqe_with sqe OpIdIgnore (set_ring u (queue w)) in
  Ok (h, set_queue q w).

(** [~OperationAwaiter] *)
Definition destroy_awaiter (a : OperationAwaiter) (w : World) : outcome World :=
  if valid (operation a) then '(_, w) ← cancel (operation a) true w; Ok w
  else Ok w.

(** [co_await op] in frame [f]: [operator co_await], then [await_suspend]. *)
Definition await (f : Z) (op : OperationHandle) (k : Z -> prog) (w : World) : outcome World :=
  _ ← cassert (valid op);
  let w := set_frame f (Suspended (mkAwaiter op k defaultResult)) w in
  _ ← cassert (valid op);
  let p := new_completer (allocs w) (completers w) in
  let w := mkWorld (queue w) (<[p := f]> (completers w)) (frames w) (S (allocs w)) (nextFrame w) (closed w) in
  q ← setCompleter op p (queue w);
  Ok (set_queue q w).

(** Destroying frame [f]; the frame must not be running. *)
Definition destroy (f : Z) (w : World) : outcome World :=
  s ← deref (frames w !! f);
  w ← match s with
      | Running => Crash UndefinedBehaviour
      | Suspended a => destroy_awaiter a w
      | Finished => Ok w
      end;
  Ok (mkWorld (queue w) (completers w) (delete f (frames w)) (allocs w) (nextFrame w) (closed w)).

(** Runs frame [f] until it suspends or ends. *)
Fixpoint exec (f : Z) (p : prog) (w : World) : outcome World :=
  match p with
  | Ret => Ok (set_frame f Finished w)
  | Call c k => '(h, w) ← invoke c w; exec f (k h) w
  | LinkTimeout ts fl op k =>
      '(h, q) ← linkTimeout ts fl op (queue w);
      exec f (k h) (set_queue q w)
  | Cancel op b k => '(h, w) ← cancel op b w; exec f (k h) w
  | Await op k => await f op k w
  | Spawn p k =>
      let c := nextFrame w in
      let w := mkWorld (queue w) (completers w) (<[c := Running]> (frames w))
                 (allocs w) (c + 1) (closed w) in
      w ← exec c p w;
      exec f (k c) w
  | Destroy c k => w ← destroy c w; exec f k w
  | CloseFd fd k => exec f k (close_fd fd w)
  end.

(** [CoroutineCompleter::complete] *)
Definition complete (ptr res : Z) (w : World) : outcome World :=
  f ← deref (completers w !! ptr);
  s ← deref (frames w !! f);
  match s with
  | Suspended a =>
      let a := mkAwaiter (operation a) (caller a) res in
      let a := mkAwaiter defaultHandle (caller a) (result a) in
      (* resume: [await_resume], and the awaiter's end of life *)
      let w := set_frame f Running w in
      w ← destroy_awaiter a w;
      exec f (caller a (result a)) w
  | _ => Crash UndefinedBehaviour
  end.

Definition set_uring (u : IoURing.IoURing R) (w : World) : World :=
  set_queue (set_ring u (queue w)) w.

(** The body of [run]'s loop. *)
Definition run_body (w : World) : outcome World :=
  let w := set_queue (set_lastSqe None (queue w)) w in
  '(res, u) ← IoURing.submitSqes 1 (ring_ (queue w));
  let w := set_uring u w in
  if res <? 0 then Ok w
  else
    '(cqe, u) ← IoURing.peekCqe (ring_ (queue w));
    let w := set_uring u w in
    match cqe with
    | None => Ok w
    | Some cqe =>
        w ← (if cqe_user_data cqe =? OpIdIgnore then Ok w
             else
               '(ptr, t) ← tbl_remove (cqe_user_data cqe) (completers_ (queue w));
               let w := set_queue (set_completers t (queue w)) w in
               if ptr =? 0 then Ok w
               else w ← complete ptr (cqe_res cqe) w; delete_completer ptr w);
        u ← IoURing.advanceCq 1 (ring_ (queue w));
        Ok (set_uring u w)
    end.

(** [run] for at most [fuel] iterations; [None] when they did not suffice. *)
Fixpoint run (fuel : nat) (w : World) : outcome (option World) :=
  if 0 <? tbl_size (completers_ (queue w)) then
    match fuel with
    | O => Ok None
    | S n => w ← run_body w; run n w
    end
  else Ok (Some w).

(** ** The members that return a [Task]

    A task that is awaited runs as part of the coroutine that awaits it, which is
    [k] with the result.  [sa], [msg] and [ts] are the addresses of the locals in
    the task's frame. *)

Definition sizeof_sockaddr_in : Z := 16.

Definition connect_to (sockfd sa : Z) (k : Z -> prog) : prog :=
  Call (Connect sockfd sa sizeof_sockaddr_in) (fun h => Await h k).

Definition recvfrom (sockfd msg flags : Z) (k : Z -> prog) : prog :=
  Call (Recvmsg sockfd msg flags) (fun h => Await h k).

Definition sendto (sockfd msg flags : Z) (k : Z -> prog) : prog :=
  Call (Sendmsg sockfd msg flags) (fun h => Await h k).

Definition timeout_for (ts : Z) (k : Z -> prog) : prog :=
  Call (Timeout ts 0) (fun h => Await h k).

Definition timeout_until (ts : Z) (k : Z -> prog) : prog :=
  Call (Timeout ts IORING_TIMEOUT_ABS) (fun h => Await h k).

(** [timeout(ts, flags, op)] *)
Definition limit (ts flags : Z) (op : OperationHandle) (k : Z -> prog) : prog :=
  LinkTimeout ts flags op (fun h => Await h k).

Definition limit_for (ts : Z) (op : OperationHandle) (k : Z -> prog) : prog :=
  limit ts 0 op k.

Definition limit_until (ts : Z) (op : OperationHandle) (k : Z -> prog) : prog :=
  limit ts IORING_TIMEOUT_ABS op k.

(** Starting a coroutine from outside the queue. *)
Definition start (p : prog) (w : World) : outcome World :=
  let c := nextFrame w in
  exec c p (mkWorld (queue w) (completers w) (<[c := Running]> (frames w)) (allocs w) (c + 1) (closed w)).

Definition new_world (q : IoQueue R T) : World := mkWorld q ∅ ∅ 0 0 [].

End World.
Arguments World : clear implicits.
End IoQueue.
