(* ===== verification/QueueRing.v ===== *)
(** * What the I/O queue does to its ring

    The user data of everything the queue has submitted or is about to submit,
    and how the members of [IoQueue] change it. *)

From Stdlib Require Import ZArith Lia.
From stdpp Require Import base numbers list gmap option.
From S2P Require Import Prelude Interfaces Uring Queue.

Local Open Scope Z_scope.

Module QueueRing.
Import IoQueue.

Section Ring.
Context {R : Type} `{!LibUring R} `{!LibUringSpec R}.
Context {T : Type} `{!CompleterTable T}.

(** The user data of the entries not submitted, of the operations under way and
    of the completions not consumed. *)
Definition outstanding (u : IoURing.IoURing R) : list Z :=
  ((fun p => user_data (IoURing.sqes u p)) <$> uring_sq (IoURing.ring_ u)) ++
  (user_data <$> uring_inflight (IoURing.ring_ u)) ++
  (cqe_user_data <$> uring_cq (IoURing.ring_ u)).

(** [u'] is [u] with one more entry, at address [p] and holding [s]. *)
Record pushed (p : Z) (s : Sqe) (u u' : IoURing.IoURing R) : Prop := {
  pushed_ready : IoURing.ready u';
  pushed_fresh : p ∉ uring_sq (IoURing.ring_ u);
  pushed_sq : uring_sq (IoURing.ring_ u') = uring_sq (IoURing.ring_ u) ++ [p];
  pushed_inflight : uring_inflight (IoURing.ring_ u') = uring_inflight (IoURing.ring_ u);
  pushed_cq : uring_cq (IoURing.ring_ u') = uring_cq (IoURing.ring_ u);
  pushed_entry : IoURing.sqes u' p = s;
  pushed_others q : q <> p -> IoURing.sqes u' q = IoURing.sqes u q;
  pushed_room : 0 < IoURing.getSqeCapacity u
}.

(** [u'] is [u] with the same entries, operations and completions. *)
Record unchanged (u u' : IoURing.IoURing R) : Prop := {
  unchanged_ready : IoURing.ready u';
  unchanged_sq : uring_sq (IoURing.ring_ u') = uring_sq (IoURing.ring_ u);
  unchanged_inflight : uring_inflight (IoURing.ring_ u') = uring_inflight (IoURing.ring_ u);
  unchanged_cq : uring_cq (IoURing.ring_ u') = uring_cq (IoURing.ring_ u);
  unchanged_sqes q : user_data (IoURing.sqes u' q) = user_data (IoURing.sqes u q)
}.

Lemma outstanding_pushed p s u u' :
  pushed p s u u' -> outstanding u' ≡ₚ user_data s :: outstanding u.
Proof.
  intros [_ Hp Hsq Hin Hcq Hs Ho _]. unfold outstanding. rewrite Hsq, Hin, Hcq.
  rewrite fmap_app. cbn. rewrite Hs, <- app_assoc. cbn.
  rewrite <- Permutation_middle. f_equiv. f_equiv.
  apply reflexive_eq, list_fmap_ext. intros i q Hq. rewrite Ho; [done|].
  intros ->. apply Hp. by eapply list_elem_of_lookup_2.
Qed.

Lemma outstanding_unchanged u u' : unchanged u u' -> outstanding u' = outstanding u.
Proof.
  intros [_ Hsq Hin Hcq Hs]. unfold outstanding. rewrite Hsq, Hin, Hcq.
  f_equal. apply list_fmap_ext. auto.
Qed.

Lemma unchanged_refl u : IoURing.ready u -> unchanged u u.
Proof. by split. Qed.

Lemma unchanged_pushed p s u0 u u' : unchanged u0 u -> pushed p s u u' ->
  outstanding u' ≡ₚ user_data s :: outstanding u0.
Proof. intros H ->%outstanding_pushed. by rewrite (outstanding_unchanged _ _ H). Qed.

Lemma prepare_pushes q u :
  IoURing.ready u ->
  exists o u', IoURing.prepare_request q u = Ok (o, u') /\
    match o with
    | Some p => pushed p (IoURing.encode (R := R) q) u u'
    | None => unchanged u u' /\ IoURing.sqes u' = IoURing.sqes u /\
        IoURing.getSqeCapacity u = 0
    end.
Proof.
  intros Hu. pose proof (IoURing.getSqe_ok u Hu) as (o & u1 & Hg & Hu1 & Hsqes & Hin & Hcq & Ho).
  destruct Hu as (Hi & He & Hr & Hl).
  pose proof (IoURing.prepare_encodes_aux q u Hi) as H.
  unfold IoURing.getSqe in Hg. rewrite cassert_bind in Hg by done.
  destruct (io_uring_get_sqe (IoURing.ring_ u)) as [o' r]. injection Hg as -> <-.
  cbn [IoURing.ring_ IoURing.set_ring] in *. destruct o as [p|].
  - destruct H as (u' & Hq & Hr' & Hs & Hoth & Hfd & Hps). destruct Ho as (Hp & Hsq & Hroom & _).
    exists (Some p), u'. split; [done|]. split; rewrite ?Hr'; try done.
    destruct Hu1 as (Hi1 & He1 & Hr1 & Hl1).
    unfold IoURing.ready, IoURing.isInitialized in *. rewrite Hfd, Hr', Hps. auto.
  - exists None, (IoURing.set_ring r u). split; [done|]. split; [|split; [done|tauto]].
    by split; try done; destruct Ho.
Qed.

(** ** The queue's members *)

(** [q'] is [q] after submission entries with the user data [ids] were added and
    the next operation id became [next]. *)
Record issued (ids : list Z) (next : Z) (q q' : IoQueue R T) : Prop := {
  issued_ready : IoURing.ready (ring_ q');
  issued_outstanding : outstanding (ring_ q') ≡ₚ ids ++ outstanding (ring_ q);
  issued_cq : uring_cq (IoURing.ring_ (ring_ q')) = uring_cq (IoURing.ring_ (ring_ q));
  issued_completers : completers_ q' = completers_ q;
  issued_next : nextOpId_ q' = next
}.

(** The last prepared entry carries [last] and is not submitted yet. *)
Definition last_is (last : option Z) (q : IoQueue R T) : Prop :=
  match last with
  | Some id => exists p, lastSqe_ q = Some p /\ user_data (IoURing.sqes (ring_ q) p) = id
  | None => True
  end.

Lemma finalize_pushed p s u (q : IoQueue R T) id :
  pushed p s u (ring_ q) ->
  exists q' : IoQueue R T, finalizeSqe_with (Some p) id q = (mkHandle true id, q') /\
    pushed p (set_user_data id s) u (ring_ q') /\ lastSqe_ q' = Some p /\
    completers_ q' = completers_ q /\ nextOpId_ q' = nextOpId_ q.
Proof.
  intros [Hr Hp Hsq Hin Hcq Hs Ho Hroom]. eexists. split.
  { cbn. rewrite decide_True by done. reflexivity. }
  split; [|done]. split; cbn; try done.
  - by rewrite decide_True, Hs.
  - intros q0 Hq0. rewrite decide_False by done. auto.
Qed.

(** Preparing a request and finalizing its entry with [id]. *)
Lemma prepare_finalize r (q : IoQueue R T) id :
  IoURing.ready (ring_ q) ->
  exists o u h q',
    IoURing.prepare_request r (ring_ q) = Ok (o, u) /\
    finalizeSqe_with o id (set_ring u q) = (h, q') /\
    completers_ q' = completers_ q /\ nextOpId_ q' = nextOpId_ q /\
    match o with
    | Some p => h = mkHandle true id /\ lastSqe_ q' = Some p /\
        pushed p (set_user_data id (IoURing.encode (R := R) r)) (ring_ q) (ring_ q')
    | None => h = defaultHandle /\ lastSqe_ q' = lastSqe_ q /\ unchanged (ring_ q) (ring_ q') /\
        IoURing.getSqeCapacity (ring_ q) = 0 /\ IoURing.sqes (ring_ q') = IoURing.sqes (ring_ q)
    end.
Proof.
  intros Hr. destruct (prepare_pushes r (ring_ q) Hr) as (o & u & Hq & Ho).
  exists o, u. rewrite Hq. destruct o as [p|].
  - destruct (finalize_pushed p _ (ring_ q) (set_ring u q) id Ho)
      as (q' & Hf & Hp & Hl & Hc & Hn).
    exists (mkHandle true id), q'. done.
  - exists defaultHandle, (set_ring u q). cbn. tauto.
Qed.

Lemma issued_pushed p s id q q' next :
  pushed p (set_user_data id s) (ring_ q) (ring_ q') ->
  completers_ q' = completers_ q -> nextOpId_ q' = next -> issued [id] next q q'.
Proof.
  intros Hp Hc Hn. split; [apply Hp | | apply Hp | done..].
  apply (outstanding_pushed _ _ _ _ Hp).
Qed.

Lemma issued_unchanged q q' next :
  unchanged (ring_ q) (ring_ q') ->
  completers_ q' = completers_ q -> nextOpId_ q' = next -> issued [] next q q'.
Proof.
  intros Hp Hc Hn. split; [apply Hp | | apply Hp | done..].
  by rewrite (outstanding_unchanged _ _ Hp).
Qed.

Lemma last_is_unchanged last q q' :
  unchanged (ring_ q) (ring_ q') -> lastSqe_ q' = lastSqe_ q ->
  last_is last q -> last_is last q'.
Proof.
  intros Hu Hl. destruct last as [id|]; [|done]. intros (p & Hp & Hid).
  exists p. rewrite Hl. split; [done|]. by rewrite (unchanged_sqes _ _ Hu).
Qed.

(** The request a member prepares. *)
Definition request_of (c : call) : IoURing.Request :=
  match c with
  | Accept fd addr addrlen => IoURing.Accept fd addr addrlen 0
  | Connect sockfd addr addrlen => IoURing.Connect sockfd addr addrlen
  | Send sockfd buf len => IoURing.Send sockfd buf len 0
  | Recv sockfd buf len => IoURing.Recv sockfd buf len 0
  | Read fd buf count => IoURing.Read fd buf count 0
  | Close fd => IoURing.Close fd
  | Shutdown fd how => IoURing.Shutdown fd how
  | Poll fd events => IoURing.PollAdd fd events 0
  | Recvmsg sockfd msg flags => IoURing.Recvmsg sockfd msg flags
  | Sendmsg sockfd msg flags => IoURing.Sendmsg sockfd msg flags
  | Timeout ts flags => IoURing.Timeout ts 0 flags
  end.

Lemma invoke_request c (w : World R T) :
  invoke c w =
    '(h, q) ← finalize_prepared (IoURing.prepare_request (request_of c)) (queue w);
    Ok (h, set_queue q w).
Proof. by destruct c. Qed.

(** The operation ids the library will give out before it wraps. *)
Definition id_ok (id : Z) : Prop := 0 <= id < 2 ^ 63.

Lemma getNextOpId_small (q : IoQueue R T) :
  id_ok (nextOpId_ q) ->
  getNextOpId q = (nextOpId_ q, set_nextOpId (nextOpId_ q + 1) q).
Proof.
  intros Hid. unfold id_ok in Hid. unfold getNextOpId, OpIdInvalid, OpIdIgnore.
  rewrite !(proj2 (Z.eqb_neq _ _)) by lia. cbn [orb].
  by rewrite u64_small by lia.
Qed.

Lemma valid_ok id : id_ok id -> valid (mkHandle true id) = true.
Proof.
  unfold id_ok. intros. cbn. apply negb_true_iff, Z.eqb_neq. unfold OpIdInvalid. lia.
Qed.

Lemma invoke_ok c (w : World R T) :
  IoURing.ready (ring_ (queue w)) -> id_ok (nextOpId_ (queue w)) ->
  exists h q', invoke c w = Ok (h, set_queue q' w) /\
    ((exists p, h = mkHandle true (nextOpId_ (queue w)) /\
        issued [nextOpId_ (queue w)] (nextOpId_ (queue w) + 1) (queue w) q' /\
        last_is (Some (nextOpId_ (queue w))) q' /\ lastSqe_ q' = Some p /\
        pushed p (set_user_data (nextOpId_ (queue w)) (IoURing.encode (R := R) (request_of c)))
          (ring_ (queue w)) (ring_ q')) \/
     (h = defaultHandle /\
        (IoURing.getSqeCapacity (ring_ (queue w)) = 0 /\ unchanged (ring_ (queue w)) (ring_ q') /\
         IoURing.sqes (ring_ q') = IoURing.sqes (ring_ (queue w))) /\
        issued [] (nextOpId_ (queue w) + 1) (queue w) q' /\
        forall last, last_is last (queue w) -> last_is last q')).
Proof.
  intros Hr Hid. rewrite invoke_request. unfold finalize_prepared, finalizeSqe.
  set (id := nextOpId_ (queue w)) in *.
  destruct (prepare_finalize (request_of c) (set_nextOpId (id + 1) (queue w)) id)
    as (o & u & h & q' & Hp & Hf & Hc & Hn & Ho); [done|].
  exists h, q'. cbn [ring_ set_nextOpId] in Hp. rewrite Hp. cbn [mbind outcome_bind].
  rewrite getNextOpId_small by done.
  change (set_nextOpId (nextOpId_ (set_ring u (queue w)) + 1) (set_ring u (queue w)))
    with (set_ring u (set_nextOpId (id + 1) (queue w))).
  change (nextOpId_ (set_ring u (queue w))) with id.
  rewrite Hf. split; [done|]. destruct o as [p|].
  - destruct Ho as (-> & Hl & Hpu). left. exists p. split; [done|]. split; [|split; [|by split]].
    + by eapply issued_pushed.
    + exists p. split; [done|]. by rewrite (pushed_entry _ _ _ _ Hpu).
  - destruct Ho as (-> & Hl & Hun & Hcap & Hsq). right. split; [done|]. split; [done|].
    split; [by apply issued_unchanged|].
    intros last. by apply last_is_unchanged.
Qed.

(** [lastSqe_->flags |= IOSQE_IO_LINK] *)
Definition link_flag (p : Z) (u : IoURing.IoURing R) : IoURing.IoURing R :=
  IoURing.write_sqe p (fun s => set_flags (Z.lor (Uring.flags s) IOSQE_IO_LINK) s) u.

Lemma link_flag_unchanged p u : IoURing.ready u -> unchanged u (link_flag p u).
Proof.
  intros Hu. split; try done. intros q. cbn. by destruct (decide (q = p)) as [->|].
Qed.

Lemma unchanged_trans u1 u2 u3 : unchanged u1 u2 -> unchanged u2 u3 -> unchanged u1 u3.
Proof.
  intros [_ Hs Hi Hc Hq] [? Hs' Hi' Hc' Hq']. split; [done | congruence.. |].
  intros q. by rewrite Hq'.
Qed.

Lemma linkTimeout_steps ts fl op (q : IoQueue R T) p :
  IoURing.ready (ring_ q) -> valid op = true ->
  lastSqe_ q = Some p -> user_data (IoURing.sqes (ring_ q) p) = h_id op ->
  exists o h q', linkTimeout ts fl op q = Ok (h, q') /\
    completers_ q' = completers_ q /\ nextOpId_ q' = nextOpId_ q /\
    match o with
    | Some p' => h = op /\ lastSqe_ q' = Some p' /\
        pushed p' (set_user_data OpIdIgnore
            (IoURing.encode (R := R) (IoURing.LinkTimeout ts (u32 fl))))
          (link_flag p (ring_ q)) (ring_ q')
    | None => h = defaultHandle /\ lastSqe_ q' = Some p /\
        unchanged (link_flag p (ring_ q)) (ring_ q') /\
        IoURing.getSqeCapacity (ring_ q) = 0 /\
        IoURing.sqes (ring_ q') = IoURing.sqes (link_flag p (ring_ q))
    end.
Proof.
  intros Hr Hv Hl Hud. unfold linkTimeout. rewrite cassert_bind by done.
  rewrite Hl, cassert_bind by (by apply Z.eqb_eq). cbn [mbind outcome_bind].
  destruct (prepare_finalize (IoURing.LinkTimeout ts (u32 fl)) (set_ring (link_flag p (ring_ q)) q)
    OpIdIgnore) as (o & u & h & q' & Hp & Hf & Hc & Hn & Ho).
  { by apply link_flag_unchanged. }
  cbn [ring_ set_ring IoURing.prepare_request] in Hp. unfold link_flag in Hp.
  rewrite Hp. cbn [mbind outcome_bind].
  change (set_ring u (set_ring (link_flag p (ring_ q)) q)) with (set_ring u q) in Hf.
  rewrite Hf. exists o, (if valid h then op else defaultHandle), q'.
  split; [done|]. split; [done|]. split; [done|]. destruct o as [p'|].
  - destruct Ho as (-> & ? & ?). done.
  - destruct Ho as (-> & Hl' & ? & ?). cbn in Hl'. rewrite Hl in Hl'. done.
Qed.

Lemma linkTimeout_ok ts fl op (q : IoQueue R T) :
  IoURing.ready (ring_ q) -> valid op = true -> last_is (Some (h_id op)) q ->
  exists h q', linkTimeout ts fl op q = Ok (h, q') /\
    ((h = op /\ issued [OpIdIgnore] (nextOpId_ q) q q') \/
     (h = defaultHandle /\ issued [] (nextOpId_ q) q q' /\ last_is (Some (h_id op)) q')).
Proof.
  intros Hr Hv (p & Hl & Hud).
  destruct (linkTimeout_steps ts fl op q p Hr Hv Hl Hud)
    as (o & h & q' & Heq & Hc & Hn & Ho).
  exists h, q'. split; [done|]. pose proof (link_flag_unchanged p _ Hr) as Hlu.
  destruct o as [p'|].
  - destruct Ho as (-> & Hl' & Hpu). left. split; [done|]. split; [apply Hpu | | | done..].
    + by rewrite (unchanged_pushed _ _ _ _ _ Hlu Hpu).
    + rewrite (pushed_cq _ _ _ _ Hpu). done.
  - destruct Ho as (-> & Hl' & Hun & Hcap & _). right. split; [done|].
    pose proof (unchanged_trans _ _ _ Hlu Hun) as Hun'.
    split; [by apply issued_unchanged|]. exists p. split; [done|].
    by rewrite (unchanged_sqes _ _ Hun').
Qed.

Lemma cancel_false_steps op (w : World R T) :
  IoURing.ready (ring_ (queue w)) -> valid op = true ->
  exists o h q', cancel op false w = Ok (h, set_queue q' w) /\
    completers_ q' = completers_ (queue w) /\ nextOpId_ q' = nextOpId_ (queue w) /\
    match o with
    | Some p => h = mkHandle true OpIdIgnore /\
        pushed p (set_user_data OpIdIgnore (IoURing.encode (R := R) (IoURing.AsyncCancel (h_id op))))
          (ring_ (queue w)) (ring_ q')
    | None => h = defaultHandle /\ unchanged (ring_ (queue w)) (ring_ q') /\
        IoURing.sqes (ring_ q') = IoURing.sqes (ring_ (queue w))
    end.
Proof.
  intros Hr Hv. unfold cancel. rewrite cassert_bind by done. cbn [mbind outcome_bind].
  destruct (prepare_finalize (IoURing.AsyncCancel (h_id op)) (queue w) OpIdIgnore)
    as (o & u & h & q' & Hp & Hf & Hc & Hn & Ho); [done|].
  cbn [IoURing.prepare_request] in Hp. rewrite Hp. cbn [mbind outcome_bind]. rewrite Hf.
  exists o, h, q'. split; [done|]. split; [done|]. split; [done|]. destruct o as [p|]; tauto.
Qed.

Lemma cancel_false_ok op (w : World R T) :
  IoURing.ready (ring_ (queue w)) -> valid op = true ->
  exists h q', cancel op false w = Ok (h, set_queue q' w) /\
    ((h = mkHandle true OpIdIgnore /\ issued [OpIdIgnore] (nextOpId_ (queue w)) (queue w) q') \/
     (h = defaultHandle /\ issued [] (nextOpId_ (queue w)) (queue w) q')).
Proof.
  intros Hr Hv. destruct (cancel_false_steps op w Hr Hv) as (o & h & q' & -> & Hc & Hn & Ho).
  exists h, q'. split; [done|]. destruct o as [p|].
  - destruct Ho as (-> & Hpu). left. split; [done|]. by eapply issued_pushed.
  - destruct Ho as (-> & Hun & _). right. split; [done|]. by apply issued_unchanged.
Qed.

(** Cancelling with the handler: first the completer goes, then as above. *)
Lemma cancel_true_eq op (w : World R T) ptr t w' :
  valid op = true -> tbl_remove (h_id op) (completers_ (queue w)) = Ok (ptr, t) ->
  delete_completer ptr (set_queue (set_completers t (queue w)) w) = Ok w' ->
  cancel op true w = cancel op false w'.
Proof.
  intros Hv Hr Hd. unfold cancel. rewrite !cassert_bind by done. rewrite Hr.
  cbn [mbind outcome_bind]. by rewrite Hd.
Qed.

(** ** The calls of the run loop *)

Lemma submit_ok (u : IoURing.IoURing R) :
  IoURing.ready u ->
  exists res u', IoURing.submitSqes 1 u = Ok (res, u') /\ IoURing.ready u' /\
    outstanding u' ≡ₚ outstanding u /\
    exists cs, uring_cq (IoURing.ring_ u') = uring_cq (IoURing.ring_ u) ++ cs.
Proof.
  intros (Hi & He & Hr & Hl). unfold IoURing.submitSqes. rewrite cassert_bind by done.
  rewrite (wrap_small 32 1) by lia.
  pose proof (submit_spec (IoURing.sqes u) 1 (IoURing.ring_ u)) as H.
  destruct (io_uring_submit_and_wait _ _ _) as [res r']. cbn in H.
  destruct H as (k & done & cs & Hsq & Hin & Hud & Hcq & He').
  exists res, (IoURing.set_ring r' u). split; [done|]. split; [|split; [|by exists cs]].
  - split; [done|]. cbn. rewrite He', Hsq, length_drop. split; [done|]. lia.
  - unfold outstanding. cbn. rewrite Hsq, Hcq, fmap_app, Hud.
    rewrite <- (take_drop k (uring_sq (IoURing.ring_ u))) at 2. rewrite fmap_app.
    apply (fmap_Permutation user_data) in Hin. rewrite !fmap_app in Hin.
    rewrite <- list_fmap_compose in Hin.
    rewrite (Permutation_app_comm (cqe_user_data <$> _)).
    rewrite (app_assoc (user_data <$> uring_inflight r')).
    rewrite (Permutation_app_comm (user_data <$> uring_inflight r')), <- Hin.
    rewrite <- !app_assoc. cbn.
    rewrite (Permutation_app_comm ((fun p => user_data _) <$> take _ _)).
    rewrite <- !app_assoc. f_equiv. f_equiv.
    rewrite Permutation_app_comm. done.
Qed.

Lemma peek_ok (u : IoURing.IoURing R) :
  IoURing.ready u ->
  exists u', IoURing.peekCqe u = Ok (head (uring_cq (IoURing.ring_ u)), u') /\
    unchanged u u'.
Proof.
  intros (Hi & He & Hr & Hl). unfold IoURing.peekCqe. rewrite cassert_bind by done.
  pose proof (peek_spec (IoURing.ring_ u)) as H.
  destruct (io_uring_peek_cqe _) as [[res o] r']. destruct H as (Hsq & Hin & Hcq & He' & Ho).
  exists (IoURing.set_ring r' u). split.
  - f_equal. f_equal. destruct (uring_cq (IoURing.ring_ u)) as [|c cs]; cbn.
    + destruct (Z.ltb_spec res 0); [done|]. destruct Ho; [lia|done].
    + destruct Ho as [Hres ->]. by rewrite (proj2 (Z.ltb_ge _ _) Hres).
  - split; try done. split; [done|]. cbn. by rewrite He', Hsq.
Qed.

Lemma advance_ok (u : IoURing.IoURing R) c cs :
  IoURing.ready u -> uring_cq (IoURing.ring_ u) = c :: cs ->
  exists u', IoURing.advanceCq 1 u = Ok u' /\ IoURing.ready u' /\
    uring_cq (IoURing.ring_ u') = cs /\
    outstanding u ≡ₚ cqe_user_data c :: outstanding u'.
Proof.
  intros (Hi & He & Hr & Hl) Hcq. unfold IoURing.advanceCq. rewrite cassert_bind by done.
  rewrite (wrap_small 32 1) by lia.
  pose proof (advance_spec 1 (IoURing.ring_ u)) as (Hsq & Hin & Hcq' & He').
  rewrite Hcq in Hcq'. cbn in Hcq'.
  eexists. split; [done|]. split; [|split; [done|]].
  - split; [done|]. cbn. by rewrite He', Hsq.
  - unfold outstanding. cbn. rewrite Hsq, Hin, Hcq, Hcq'. cbn.
    by rewrite !app_assoc, <- Permutation_middle.
Qed.

(** ** What the kernel is asked for *)

(** The requests it has not completed, those it has not seen included. *)
Definition requests (u : IoURing.IoURing R) : list Sqe :=
  (IoURing.sqes u <$> uring_sq (IoURing.ring_ u)) ++ uring_inflight (IoURing.ring_ u).

Lemma requests_outstanding u s : s ∈ requests u -> user_data s ∈ outstanding u.
Proof.
  unfold requests, outstanding. rewrite !elem_of_app.
  intros [(p & -> & Hin)%list_elem_of_fmap|Hin]; [left|right; left].
  - by apply (list_elem_of_fmap_2 (fun p => user_data (IoURing.sqes u p))).
  - by apply list_elem_of_fmap_2.
Qed.

(** [u'] asks for the requests [ss] and nothing else that [u] did not, up to the
    flags of the entries. *)
Definition asks (ss : list Sqe) (u u' : IoURing.IoURing R) : Prop :=
  forall x, x ∈ requests u' ->
    x ∈ ss \/ exists y, y ∈ requests u /\ set_flags 0 x = set_flags 0 y.

(** An entry that is added, and those that were there. *)
Lemma requests_new p s u u' : pushed p s u u' -> s ∈ requests u'.
Proof.
  intros Hp. unfold requests. apply elem_of_app. left. apply list_elem_of_fmap. exists p.
  rewrite (pushed_entry _ _ _ _ Hp), (pushed_sq _ _ _ _ Hp). split; [done|]. apply elem_of_app. right. by left.
Qed.

Lemma requests_kept p s u u' x : pushed p s u u' -> x ∈ requests u -> x ∈ requests u'.
Proof.
  intros Hp. unfold requests. rewrite (pushed_inflight _ _ _ _ Hp), (pushed_sq _ _ _ _ Hp), !elem_of_app.
  intros [(p' & -> & Hin)%list_elem_of_fmap|?]; [left|by right]. apply list_elem_of_fmap. exists p'.
  assert (p' <> p) by (intros ->; by apply (pushed_fresh _ _ _ _ Hp)).
  rewrite (pushed_others _ _ _ _ Hp) by done. split; [done|]. apply elem_of_app. by left.
Qed.

Lemma requests_same u u' : unchanged u u' -> IoURing.sqes u' = IoURing.sqes u -> requests u' = requests u.
Proof.
  intros Hun Hs. unfold requests. by rewrite Hs, (unchanged_sq _ _ Hun), (unchanged_inflight _ _ Hun).
Qed.

Lemma asks_trans ss u1 u2 u3 : asks [] u1 u2 -> asks ss u2 u3 -> asks ss u1 u3.
Proof.
  intros H1 H2 x Hx. destruct (H2 x Hx) as [?|(y & Hy & Hxy)]; [by left|right].
  destruct (H1 y Hy) as [?%elem_of_nil|(z & Hz & Hyz)]; [done|]. exists z. by rewrite Hxy.
Qed.

Lemma asks_pushed p s u u' : pushed p s u u' -> asks [s] u u'.
Proof.
  intros [_ Hp Hsq Hin _ Hs Ho _] x. unfold requests.
  rewrite Hsq, Hin, fmap_app, !elem_of_app. cbn. rewrite Hs, list_elem_of_singleton.
  intros [[Hx|Hx]|Hx]; [right|by left|right; exists x; split; [|done]].
  - exists x. split; [|done]. apply elem_of_app. left.
    apply list_elem_of_fmap in Hx as (q & -> & Hq). apply list_elem_of_fmap. exists q.
    split; [|done]. apply Ho. by intros ->.
  - apply elem_of_app. by right.
Qed.

Lemma asks_same u u' :
  unchanged u u' -> IoURing.sqes u' = IoURing.sqes u -> asks [] u u'.
Proof.
  intros Hun Hs x Hx. right. exists x. split; [|done]. by rewrite (requests_same _ _ Hun Hs) in Hx.
Qed.

Lemma asks_link p u : asks [] u (link_flag p u).
Proof.
  intros x Hx. right. unfold requests in *. cbn in Hx.
  apply elem_of_app in Hx as [Hx|Hx]; [|exists x; split; [apply elem_of_app; by right|done]].
  apply list_elem_of_fmap in Hx as (q & -> & Hq). exists (IoURing.sqes u q). split.
  - apply elem_of_app. left. apply list_elem_of_fmap. by exists q.
  - by destruct (decide (q = p)) as [->|].
Qed.

(** Submitting and consuming only take requests away. *)
Lemma asks_submit u res u' : IoURing.submitSqes 1 u = Ok (res, u') -> asks [] u u'.
Proof.
  unfold IoURing.submitSqes. intros (_ & _ & H)%outcome_bind_Ok.
  pose proof (submit_spec (IoURing.sqes u) (u32 1) (IoURing.ring_ u)) as Hs.
  destruct (io_uring_submit_and_wait _ _ _) as [res' r]. injection H as _ <-. cbn in Hs.
  destruct Hs as (k & d & cs & Hsq & Hin & _). intros x Hx. right. exists x. split; [|done].
  unfold requests in *. cbn in Hx. rewrite Hsq in Hx. apply elem_of_app in Hx as [Hx|Hx].
  - apply elem_of_app. left. rewrite <- (take_drop k (uring_sq (IoURing.ring_ u))), fmap_app.
    apply elem_of_app. by right.
  - assert (x ∈ uring_inflight (IoURing.ring_ u) ++
      (IoURing.sqes u <$> take k (uring_sq (IoURing.ring_ u)))) as Hx'.
    { rewrite Hin. apply elem_of_app. by right. }
    apply elem_of_app in Hx' as [?|Hx']; apply elem_of_app; [by right|left].
    rewrite <- (take_drop k (uring_sq (IoURing.ring_ u))), fmap_app. apply elem_of_app. by left.
Qed.

Lemma asks_peek u c u' : IoURing.peekCqe u = Ok (c, u') -> asks [] u u'.
Proof.
  unfold IoURing.peekCqe. intros (_ & _ & H)%outcome_bind_Ok.
  pose proof (peek_spec (IoURing.ring_ u)) as Hs. destruct (io_uring_peek_cqe _) as [[res o] r].
  injection H as _ <-. destruct Hs as (Hsq & Hin & _). intros x Hx. right. exists x.
  split; [|done]. unfold requests in *. cbn in Hx. by rewrite Hsq, Hin in Hx.
Qed.

Lemma asks_advance u u' : IoURing.advanceCq 1 u = Ok u' -> asks [] u u'.
Proof.
  unfold IoURing.advanceCq. intros (_ & _ & [= <-])%outcome_bind_Ok.
  pose proof (advance_spec (u32 1) (IoURing.ring_ u)) as (Hsq & Hin & _). intros x Hx. right.
  exists x. split; [|done]. unfold requests in *. cbn in Hx. by rewrite Hsq, Hin in Hx.
Qed.

End Ring.
End QueueRing.
