(* ===== verification/QueueSafety.v ===== *)
(** * The I/O queue is safe to use

    A discipline for the coroutines that use a queue ([wf]) and the invariant it
    maintains: every operation of the queue keeps it, so no call breaks an
    assertion, no completer is lost or freed twice, and no awaiter is used after
    its frame is gone. *)

From Stdlib Require Import ZArith Lia.
From stdpp Require Import base numbers list gmap option.
From S2P Require Import Prelude Interfaces Uring Queue QueueRing.

Local Open Scope Z_scope.

Module QueueSafety.
Import IoQueue QueueRing.

(** ** The discipline

    A coroutine may prepare [b_sqes] entries and occupy [b_waits] slots of the
    completer table, its spawned coroutines' shares included.  [b_handles] are
    the operations it prepared and nobody awaited; a handle must be awaited
    before the coroutine that holds it next suspends.  [b_children] are the
    coroutines it may destroy. *)
Record Budget : Type := mkBudget {
  b_sqes : nat;
  b_waits : nat;
  b_handles : gset Z;
  b_children : gset Z
}.

Definition use_sqe (b : Budget) : Budget :=
  mkBudget (b_sqes b - 1) (b_waits b) (b_handles b) (b_children b).
Definition add_handle (id : Z) (b : Budget) : Budget :=
  mkBudget (b_sqes b) (b_waits b) ({[id]} ∪ b_handles b) (b_children b).
Definition no_handles (b : Budget) : Budget :=
  mkBudget (b_sqes b) (b_waits b) ∅ (b_children b).
Definition add_child (c : Z) (b : Budget) : Budget :=
  mkBudget (b_sqes b) (b_waits b) (b_handles b) ({[c]} ∪ b_children b).
Definition remove_child (c : Z) (b : Budget) : Budget :=
  mkBudget (b_sqes b) (b_waits b) (b_handles b) (b_children b ∖ {[c]}).

(** [b] covers [b1] and [b2] used side by side. *)
Definition splits (b b1 b2 : Budget) : Prop :=
  (b_sqes b1 + b_sqes b2 <= b_sqes b)%nat /\ (b_waits b1 + b_waits b2 <= b_waits b)%nat /\
  b_handles b1 ∪ b_handles b2 ⊆ b_handles b /\ b_handles b1 ## b_handles b2 /\
  b_children b1 ∪ b_children b2 ⊆ b_children b /\ b_children b1 ## b_children b2.

(** [last] is the operation prepared last, when it is known. *)
Fixpoint wf (p : prog) (b : Budget) (last : option Z) : Prop :=
  match p with
  | Ret => True
  | Call c k =>
      (0 < b_sqes b)%nat /\
      (forall id, id_ok id -> id ∉ b_handles b ->
        wf (k (mkHandle true id)) (add_handle id (use_sqe b)) (Some id)) /\
      wf (k defaultHandle) (use_sqe b) last
  | LinkTimeout ts fl op k =>
      (0 < b_sqes b)%nat /\ valid op = true /\ last = Some (h_id op) /\
      wf (k op) (use_sqe b) None /\ wf (k defaultHandle) (use_sqe b) last
  | Cancel op _ k =>
      (0 < b_sqes b)%nat /\ valid op = true /\
      wf (k (mkHandle true OpIdIgnore)) (use_sqe b) None /\
      wf (k defaultHandle) (use_sqe b) None
  | Await op k =>
      valid op = true /\ h_id op ∈ b_handles b /\ (0 < b_waits b)%nat /\
      forall res, wf (k res) (no_handles b) None
  | Spawn p k =>
      exists b1 b2, splits b b1 b2 /\ wf p b1 last /\
        forall c, c ∉ b_children b -> wf (k c) (add_child c b2) None
  | Destroy c k =>
      (0 < b_sqes b)%nat /\ c ∈ b_children b /\ wf k (remove_child c (use_sqe b)) None
  | CloseFd _ k => wf k b last
  end.

Section Safety.
Context {R : Type} `{!LibUring R} `{!LibUringSpec R}.
Context {T : Type} `{!CompleterTable T} `{!CompleterTableSpec T}.
Context {allocator : Allocator}.

Abbreviation World := (World R T).
Abbreviation budgets := (gmap Z Budget).

Definition uring (w : World) : IoURing.IoURing R := ring_ (queue w).
Definition nextId (w : World) : Z := nextOpId_ (queue w).
Definition table (w : World) : T := completers_ (queue w).

(** ** The invariant *)

(** Ring, ids and counters. *)
Record RingInv (w : World) (B : budgets) (N : nat) : Prop := {
  inv_ready : IoURing.ready (uring w);
  inv_next : 0 <= nextId w /\ nextId w + Z.of_nat (msum b_sqes B) <= 2 ^ 63;
  inv_measure : (msum b_sqes B + length (outstanding (uring w)) <= N)%nat;
  inv_ids id : id ∈ outstanding (uring w) -> id <> OpIdIgnore -> 0 <= id < nextId w;
  inv_nodup : NoDup (filter (fun id => id <> OpIdIgnore) (outstanding (uring w)));
  inv_handles f b id : B !! f = Some b -> id ∈ b_handles b ->
    0 <= id < nextId w /\ id ∈ outstanding (uring w)
}.

(** The completer table [σ] and the completers on the heap; [X] is a completer
    that was taken out of the table and is not freed yet. *)
Record TableInv (X : option Z) (w : World) (B : budgets) (σ : gmap Z Z) : Prop := {
  inv_rep : tbl_rep (table w) σ;
  inv_capacity : Z.of_nat (msum b_waits B) <= tbl_capacity (table w);
  inv_key k p : σ !! k = Some p ->
    p <> 0 /\ k <> OpIdIgnore /\ k ∈ outstanding (uring w) /\
    exists f a, completers w !! p = Some f /\ frames w !! f = Some (Suspended a) /\
      operation a = mkHandle true k;
  inv_heap p f : completers w !! p = Some f ->
    p <> 0 /\ (X = Some p \/ exists k, σ !! k = Some p);
  inv_taken p : X = Some p ->
    is_Some (completers w !! p) /\ forall k, σ !! k <> Some p;
  inv_unawaited f b id : B !! f = Some b -> id ∈ b_handles b -> σ !! id = None
}.

(** Running frames, innermost first, do not own themselves or those below. *)
Fixpoint stack_ok (B : budgets) (L : list Z) : Prop :=
  match L with
  | [] => True
  | f :: L' =>
      (forall b c, B !! f = Some b -> c ∈ b_children b -> c ∉ f :: L') /\ stack_ok B L'
  end.

(** The frames; [L] is the stack of the running ones. *)
Record FrameInv (w : World) (L : list Z) (B : budgets) : Prop := {
  inv_suspended f a : frames w !! f = Some (Suspended a) ->
    exists b, B !! f = Some b /\ (0 < b_waits b)%nat /\ b_handles b = ∅ /\
      (f ∉ b_children b) /\ forall res, wf (caller a res) b None;
  inv_running f : frames w !! f = Some Running <-> f ∈ L;
  inv_budget f b : B !! f = Some b -> f ∈ L \/ exists a, frames w !! f = Some (Suspended a);
  inv_running_budget f : f ∈ L -> is_Some (B !! f);
  inv_stack_nodup : NoDup L;
  inv_disjoint f g bf bg : f <> g -> B !! f = Some bf -> B !! g = Some bg ->
    b_handles bf ## b_handles bg /\ b_children bf ## b_children bg;
  inv_children f b c : B !! f = Some b -> c ∈ b_children b -> is_Some (frames w !! c);
  inv_fresh f : is_Some (frames w !! f) -> f < nextFrame w;
  inv_stack : stack_ok B L
}.

(** Nobody awaits [id] or can start to. *)
Definition dead (id : Z) (w : World) (B : budgets) (σ : gmap Z Z) : Prop :=
  (id < nextId w \/ id = OpIdIgnore) /\ σ !! id = None /\
  (forall f b, B !! f = Some b -> id ∉ b_handles b).

(** [C.1] is the operation whose completion, at the head of the queue, is being
    consumed, and [C.2] are operations whose handlers were cancelled. *)
Definition ConsumeInv (C : option Z * gset Z) (w : World) (B : budgets) (σ : gmap Z Z) : Prop :=
  (forall id, C.1 = Some id \/ id ∈ C.2 -> dead id w B σ) /\
  (forall id, C.1 = Some id -> exists c cs,
    uring_cq (IoURing.ring_ (uring w)) = c :: cs /\ cqe_user_data c = id).

Record Inv (X : option Z) (C : option Z * gset Z) (w : World) (L : list Z) (B : budgets) (σ : gmap Z Z) (N : nat)
  : Prop := {
  inv_ring : RingInv w B N;
  inv_table : TableInv X w B σ;
  inv_frames : FrameInv w L B;
  inv_consume : ConsumeInv C w B σ
}.

(** ** Changing the budget of a running frame *)

Lemma stack_ok_mono (B B' : budgets) L :
  (forall f b' c, f ∈ L -> B' !! f = Some b' -> c ∈ b_children b' ->
    exists b, B !! f = Some b /\ c ∈ b_children b) ->
  stack_ok B L -> stack_ok B' L.
Proof.
  induction L as [|f L IH]; intros H; [done|]. cbn. intros [Hf HL]. split.
  - intros b' c Hb' Hc. destruct (H f b' c) as (b & Hb & Hcb); [by left|done..|eauto].
  - apply IH; [|done]. intros g b' c Hg. apply H. by right.
Qed.

Lemma frames_budget (w w' : World) L (B : budgets) f b b' :
  FrameInv w L B -> f ∈ L -> B !! f = Some b ->
  frames w' = frames w -> nextFrame w' = nextFrame w ->
  b_children b' ⊆ b_children b ->
  (forall g bg, g <> f -> B !! g = Some bg -> b_handles b' ## b_handles bg) ->
  FrameInv w' L (<[f := b']> B).
Proof.
  intros [Hsu Hru Hbu Hrb Hnd Hdi Hch Hfr Hst] Hf Hb Hfs Hnf Hsub Hdis.
  assert (Hrun : frames w !! f = Some Running) by by apply Hru.
  split; rewrite ?Hfs, ?Hnf; try done.
  - intros g a Ha. rewrite lookup_insert_ne by (intros ->; congruence). eauto.
  - intros g bg. destruct (decide (f = g)) as [<-|Hne]; [by left|].
    rewrite lookup_insert_ne by done. eauto.
  - intros g Hg. destruct (decide (f = g)) as [<-|Hne].
    + by rewrite lookup_insert_eq.
    + rewrite lookup_insert_ne by done. eauto.
  - intros g1 g2 b1 b2 Hne H1 H2.
    apply lookup_insert_Some in H1 as [[<- <-]|[Hn1 H1]];
      apply lookup_insert_Some in H2 as [[<- <-]|[Hn2 H2]]; [done| | |eauto].
    + destruct (Hdi f g2 b b2) as [_ ?]; [done..|]. split; [by apply (Hdis g2)|set_solver].
    + destruct (Hdi g1 f b1 b) as [_ ?]; [done..|].
      split; [symmetry; by apply (Hdis g1)|set_solver].
  - intros g bg c H1 Hc. apply lookup_insert_Some in H1 as [[<- <-]|[Hn1 H1]]; [|eauto].
    apply (Hch f b); set_solver.
  - eapply stack_ok_mono; [|exact Hst]. intros g bg c Hg H1 Hc.
    apply lookup_insert_Some in H1 as [[<- <-]|[Hn1 H1]]; [|eauto].
    exists b. split; [done|set_solver].
Qed.

(** ** Preparing an entry *)

(** What an issued entry may be: none, an ignored one or the next operation. *)
Definition issues (ids : list Z) (hs : gset Z) (next : Z) (w : World) : Prop :=
  (ids = [] /\ hs = ∅ /\ nextId w <= next <= nextId w + 1) \/
  (ids = [OpIdIgnore] /\ hs = ∅ /\ next = nextId w) \/
  (ids = [nextId w] /\ hs = {[nextId w]} /\ next = nextId w + 1).

Definition issue_budget (hs : gset Z) (b : Budget) : Budget :=
  mkBudget (b_sqes b - 1) (b_waits b) (hs ∪ b_handles b) (b_children b).

Lemma issue_ids ids hs next w q' id :
  issues ids hs next w -> issued ids next (queue w) q' ->
  id ∈ outstanding (ring_ q') ->
  id ∈ outstanding (uring w) \/ id = OpIdIgnore \/ (id = nextId w /\ next = nextId w + 1).
Proof.
  intros Hi [_ Ho _ _ _]. rewrite Ho, elem_of_app. unfold issues in Hi.
  destruct Hi as [(-> & _ & _)|[(-> & _ & _)|(-> & _ & ->)]];
    rewrite ?list_elem_of_singleton; intros [H|H]; auto.
  by apply elem_of_nil in H.
Qed.

Lemma issue_outstanding ids next w q' id :
  issued ids next (queue w) q' -> id ∈ outstanding (uring w) -> id ∈ outstanding (ring_ q').
Proof. intros [_ Ho _ _ _] H. rewrite Ho. apply elem_of_app. by right. Qed.

Lemma nextId_not_outstanding (w : World) B N :
  RingInv w B N -> (nextId w ∉ outstanding (uring w)) /\ nextId w <> OpIdIgnore.
Proof.
  intros [_ Hn _ Hids _ _]. assert (nextId w <> OpIdIgnore) by (unfold OpIdIgnore; lia).
  split; [|done]. intros Hin. specialize (Hids _ Hin). lia.
Qed.

Lemma issue_ring ids hs next (w : World) (B : budgets) N f b q' :
  RingInv w B N -> B !! f = Some b -> (0 < b_sqes b)%nat ->
  issues ids hs next w -> issued ids next (queue w) q' ->
  RingInv (set_queue q' w) (<[f := issue_budget hs b]> B) N.
Proof.
  intros HR Hb Hpos Hi Hq. pose proof (nextId_not_outstanding _ _ _ HR) as [Hfresh Hnign].
  pose proof (fun id => issue_ids ids hs next w q' id Hi Hq) as Hids'.
  pose proof (fun id => issue_outstanding ids next w q' id Hq) as Hout'.
  destruct HR as [Hr Hn Hm Hids Hnd Hha], Hq as [Hr' Ho' Hcq' Hc' Hn'].
  pose proof (msum_insert b_sqes B f b (issue_budget hs b) Hb) as Hsum. cbn in Hsum.
  assert (nextId w <= next <= nextId w + 1)
    by (unfold issues in Hi; lia).
  split; unfold uring, nextId in *; cbn [queue set_queue] in *; try done.
  - rewrite Hn'. lia.
  - rewrite Ho', length_app. unfold issues in Hi.
    destruct Hi as [(-> & _)|[(-> & _)|(-> & _)]]; cbn [length]; lia.
  - rewrite Hn'. intros id Hin Hne. destruct (Hids' id Hin) as [H1|[H1|H1]]; [|done|lia].
    specialize (Hids id H1 Hne). lia.
  - rewrite Ho', list.filter_app. unfold issues in Hi.
    destruct Hi as [(-> & _)|[(-> & _)|(-> & _)]]; [done| |].
    + rewrite list.filter_cons_False by naive_solver. done.
    + rewrite list.filter_cons_True by done. cbn. apply list.NoDup_cons. split; [|done].
      rewrite list_elem_of_filter. tauto.
  - rewrite Hn'. intros g bg id H1 H2.
    assert (id ∈ hs -> 0 <= id < next /\ id ∈ outstanding (ring_ q')) as Hnew.
    { intros Hin. unfold issues, nextId in Hi.
      destruct Hi as [(_ & -> & _)|[(_ & -> & _)|(-> & -> & ->)]]; [set_solver..|].
      assert (id = nextOpId_ (queue w)) as -> by set_solver.
      split; [lia|]. rewrite Ho'. apply elem_of_app. left. by apply list_elem_of_singleton. }
    assert (forall g' bg', B !! g' = Some bg' -> id ∈ b_handles bg' ->
      0 <= id < next /\ id ∈ outstanding (ring_ q')) as Hold.
    { intros g' bg' H3 H4. destruct (Hha g' bg' id H3 H4). split; [lia|auto]. }
    apply lookup_insert_Some in H1 as [[<- <-]|[_ H1]]; [|eauto].
    cbn in H2. apply elem_of_union in H2 as [H2|H2]; eauto.
Qed.

Lemma issue_fresh_handle ids hs next (w : World) id :
  issues ids hs next w -> id ∈ hs -> id = nextId w.
Proof. unfold issues. intros [(_ & -> & _)|[(_ & -> & _)|(_ & -> & _)]]; set_solver. Qed.

Lemma issue_table X ids hs next (w : World) (B : budgets) σ N f b q' :
  RingInv w B N -> TableInv X w B σ -> B !! f = Some b ->
  issues ids hs next w -> issued ids next (queue w) q' ->
  TableInv X (set_queue q' w) (<[f := issue_budget hs b]> B) σ.
Proof.
  intros HR [Hrep Hcap Hkey Hheap Htak Hun] Hb Hi Hq.
  pose proof (msum_insert b_waits B f b (issue_budget hs b) Hb) as Hsum. cbn in Hsum.
  pose proof (nextId_not_outstanding _ _ _ HR) as [Hfresh _].
  pose proof (fun id => issue_outstanding ids next w q' id Hq) as Hout.
  assert (table (set_queue q' w) = table w) as Ht by apply Hq.
  split; rewrite ?Ht; cbn [completers frames set_queue]; try done.
  - lia.
  - intros k p Hk. destruct (Hkey k p Hk) as (? & ? & ? & ?). split; [done|].
    split; [done|]. split; [by apply Hout|done].
  - intros g bg id H1 H2. apply lookup_insert_Some in H1 as [[<- <-]|[_ H1]]; [|eauto].
    cbn in H2. apply elem_of_union in H2 as [H2|H2]; [|eauto].
    rewrite (issue_fresh_handle _ _ _ _ _ Hi H2).
    destruct (σ !! nextId w) as [p|] eqn:E; [|done].
    destruct (Hkey _ _ E) as (_ & _ & ? & _). done.
Qed.

Lemma issue_inv X C ids hs next (w : World) L (B : budgets) σ N f b q' :
  Inv X C w L B σ N -> f ∈ L -> B !! f = Some b -> (0 < b_sqes b)%nat ->
  issues ids hs next w -> issued ids next (queue w) q' ->
  Inv X C (set_queue q' w) L (<[f := issue_budget hs b]> B) σ N.
Proof.
  intros [HR HT HF HC] Hf Hb Hpos Hi Hq.
  pose proof (nextId_not_outstanding _ _ _ HR) as [Hfresh _].
  split.
  - by eapply issue_ring.
  - by eapply issue_table.
  - eapply frames_budget; try done. cbn. intros g bg Hne Hg. apply disjoint_union_l. split.
    + intros id H1 H2. rewrite (issue_fresh_handle _ _ _ _ _ Hi H1) in H2.
      by destruct (inv_handles _ _ _ HR g bg _ Hg H2).
    + by destruct (inv_disjoint _ _ _ HF f g b bg).
  - destruct HC as [HD Hcq]. split.
    + intros id Hid. destruct (HD id Hid) as (H1 & H2 & H3).
      pose proof (inv_next _ _ _ HR). unfold dead. split; [|split; [done|]].
      { unfold nextId in *. cbn. rewrite (issued_next _ _ _ _ Hq).
        destruct H1; [left|by right]. unfold issues, nextId in Hi. lia. }
      intros g bg [[<- <-]|[_ Hg]]%lookup_insert_Some; [|eauto].
      cbn. intros [H5|H5]%elem_of_union; [|by eapply H3].
      rewrite (issue_fresh_handle _ _ _ _ _ Hi H5) in H1. unfold OpIdIgnore in H1. lia.
    + intros id Hid. unfold uring. cbn. rewrite (issued_cq _ _ _ _ Hq). by apply Hcq.
Qed.

(** ** Taking a completer out of the table *)

Lemma key_inj X (w : World) B σ k1 k2 p :
  TableInv X w B σ -> σ !! k1 = Some p -> σ !! k2 = Some p -> k1 = k2.
Proof.
  intros HT H1 H2.
  destruct (inv_key _ _ _ _ HT _ _ H1) as (_ & _ & _ & f1 & a1 & Hp1 & Hf1 & Ho1).
  destruct (inv_key _ _ _ _ HT _ _ H2) as (_ & _ & _ & f2 & a2 & Hp2 & Hf2 & Ho2).
  congruence.
Qed.

(** [w] with its table replaced by [t] and the completer at [p] freed. *)
Definition removed (t : T) (p : Z) (w : World) : World :=
  set_heap (delete p (completers w)) (set_queue (set_completers t (queue w)) w).

Lemma delete_removed X (w : World) B σ k t :
  TableInv X w B σ ->
  delete_completer (default 0 (σ !! k)) (set_queue (set_completers t (queue w)) w) =
    Ok (removed t (default 0 (σ !! k)) w).
Proof.
  intros HT. unfold delete_completer, removed. destruct (σ !! k) as [p|] eqn:E; cbn.
  - destruct (inv_key _ _ _ _ HT _ _ E) as (Hp & _ & _ & f & a & Hf & _).
    rewrite (proj2 (Z.eqb_neq p 0)) by done. cbn. by rewrite Hf.
  - rewrite delete_id; [by destruct w|].
    destruct (completers w !! 0) as [f|] eqn:H0; [|done].
    by destruct (inv_heap _ _ _ _ HT 0 f H0).
Qed.

Lemma removed_table X (w : World) B σ k t :
  TableInv X w B σ -> tbl_rep t (delete k σ) -> tbl_capacity t = tbl_capacity (table w) ->
  TableInv X (removed t (default 0 (σ !! k)) w) B (delete k σ).
Proof.
  intros HT Hrep Hcap. pose proof (fun k1 k2 p => key_inj X w B σ k1 k2 p HT) as Hinj.
  destruct HT as [Hrep0 Hcap0 Hkey Hheap Htak Hun].
  assert (forall k' p, delete k σ !! k' = Some p -> p <> default 0 (σ !! k)) as Hne.
  { intros k' p [Hk' Hp]%lookup_delete_Some. destruct (Hkey k' p Hp) as (Hp0 & _).
    destruct (σ !! k) as [p'|] eqn:E; cbn; [|done]. intros ->. by apply Hk', (Hinj _ _ p'). }
  split; unfold removed, table, uring; cbn; try done.
  - by rewrite Hcap.
  - intros k' p Hp. pose proof (Hne _ _ Hp) as Hp'. apply lookup_delete_Some in Hp as [Hk' Hp].
    rewrite lookup_delete_ne by done. by apply Hkey.
  - intros p f [Hp Hf]%lookup_delete_Some. destruct (Hheap p f Hf) as (? & [?|(k' & Hk')]);
      (split; [done|]); [by left|]. right. exists k'. apply lookup_delete_Some. split; [|done].
    intros <-. by rewrite Hk' in Hp.
  - intros p ->. destruct (Htak p eq_refl) as [[f Hf] Hno]. split.
    + exists f. apply lookup_delete_Some. split; [|done]. intros Heq.
      destruct (σ !! k) as [p'|] eqn:E; cbn in Heq; [by subst; apply (Hno k)|].
      subst p. by destruct (Hheap 0 f Hf).
    + intros k' [_ Hk']%lookup_delete_Some. by apply (Hno k').
  - intros f b id Hf Hid. apply lookup_delete_None. right. eauto.
Qed.

Lemma removed_inv X C k (w : World) L (B : budgets) σ N t :
  Inv X C w L B σ N -> tbl_rep t (delete k σ) ->
  tbl_capacity t = tbl_capacity (table w) ->
  Inv X C (removed t (default 0 (σ !! k)) w) L B (delete k σ) N.
Proof.
  intros [HR HT HF HC] Hrep Hcap. split.
  - destruct HR. by split.
  - by apply removed_table.
  - destruct HF. by split.
  - destruct HC as [HD Hcq]. split; [|done]. intros id Hid.
    destruct (HD id Hid) as (H1 & H2 & H3). split; [done|]. split; [|done].
    apply lookup_delete_None. by right.
Qed.

(** ** Cancelling *)

Lemma cancel_inv X C op b0 (w : World) L (B : budgets) σ N f b :
  Inv X C w L B σ N -> f ∈ L -> B !! f = Some b -> (0 < b_sqes b)%nat ->
  valid op = true ->
  exists h w', cancel op b0 w = Ok (h, w') /\
    (h = mkHandle true OpIdIgnore \/ h = defaultHandle) /\
    Inv X C w' L (<[f := use_sqe b]> B) (if b0 then delete (h_id op) σ else σ) N /\
    frames w' = frames w /\ nextFrame w' = nextFrame w /\ nextId w' = nextId w /\
    completers w' = (if b0 then delete (default 0 (σ !! h_id op)) (completers w) else completers w).
Proof.
  intros HI Hf Hb Hpos Hv.
  assert (exists w1, cancel op b0 w = cancel op false w1 /\
    Inv X C w1 L B (if b0 then delete (h_id op) σ else σ) N /\
    frames w1 = frames w /\ nextFrame w1 = nextFrame w /\ nextId w1 = nextId w /\
    completers w1 = (if b0 then delete (default 0 (σ !! h_id op)) (completers w) else completers w))
    as (w1 & -> & HI1 & Hfr & Hnf & <- & <-).
  { destruct b0; [|by exists w].
    pose proof (inv_table _ _ _ _ _ _ _ HI) as HT.
    destruct (tbl_remove_spec (table w) σ (h_id op)) as (t & Hrm & Hrep & Hcap); [apply HT|].
    eexists. split; [by eapply cancel_true_eq; [|exact Hrm|by eapply delete_removed]|].
    split; [by apply removed_inv|done]. }
  pose proof (inv_ring _ _ _ _ _ _ _ HI1) as HR1.
  destruct (cancel_false_ok op w1) as (h & q' & -> & Hh); [apply HR1|done|].
  exists h, (set_queue q' w1). split; [done|].
  replace (use_sqe b) with (issue_budget ∅ b)
    by (unfold issue_budget, use_sqe; by rewrite (left_id_L ∅ (∪))).
  destruct Hh as [[-> Hq]|[-> Hq]]; (split; [by auto|]);
    (split; [|split; [done|split; [done|split; [apply Hq|done]]]]);
    eapply issue_inv; try done; unfold issues; [right; left|left].
  - done.
  - split; [done|]. split; [done|]. unfold nextId. lia.
Qed.

(** A cancelled operation that was awaited is dead. *)
Lemma dead_add X C D (w : World) L (B : budgets) σ N id :
  Inv X (C, D) w L B σ N -> dead id w B σ -> Inv X (C, {[id]} ∪ D) w L B σ N.
Proof.
  intros [HR HT HF [HD Hcq]] Hd. split; try done. split; [|done].
  cbn [fst snd]. intros id' [Hid|Hid]; [apply HD; by left|].
  apply elem_of_union in Hid as [->%elem_of_singleton|Hid]; [done|apply HD; by right].
Qed.

(** ** Awaiting *)

Lemma valid_handle op : valid op = true -> op = mkHandle true (h_id op).
Proof. destruct op as [[] id]; done. Qed.

Definition awaiting_frame (w : World) (kp : Z * Z) : Z := default 0 (completers w !! kp.2).

(** Every key of the table is awaited by a suspended frame of its own. *)
Lemma awaiting_frames X (w : World) B σ :
  TableInv X w B σ ->
  NoDup (awaiting_frame w <$> map_to_list σ) /\
  forall f, f ∈ awaiting_frame w <$> map_to_list σ ->
    exists a, frames w !! f = Some (Suspended a).
Proof.
  intros HT. split.
  - apply (NoDup_fmap_2_strong (awaiting_frame w)); [|apply NoDup_map_to_list].
    intros [k1 p1] [k2 p2] H1%elem_of_map_to_list H2%elem_of_map_to_list.
    unfold awaiting_frame. cbn. intros Heq.
    destruct (inv_key _ _ _ _ HT _ _ H1) as (_ & _ & _ & f1 & a1 & Hp1 & Hf1 & Ho1).
    destruct (inv_key _ _ _ _ HT _ _ H2) as (_ & _ & _ & f2 & a2 & Hp2 & Hf2 & Ho2).
    rewrite Hp1, Hp2 in Heq. cbn in Heq. subst f2. assert (k1 = k2) as -> by congruence.
    by rewrite H1 in H2; injection H2 as ->.
  - intros f ((k & p) & -> & Hkp%elem_of_map_to_list)%list_elem_of_fmap.
    destruct (inv_key _ _ _ _ HT _ _ Hkp) as (_ & _ & _ & f & a & Hp & Hf & _).
    exists a. unfold awaiting_frame. cbn. by rewrite Hp.
Qed.

(** So there is a free slot while a running frame may still await. *)
Lemma table_has_room X (w : World) L (B : budgets) σ f b :
  TableInv X w B σ -> FrameInv w L B -> f ∈ L -> B !! f = Some b -> (0 < b_waits b)%nat ->
  Z.of_nat (size σ) < tbl_capacity (table w).
Proof.
  intros HT HF Hf Hb Hw. destruct (awaiting_frames X w B σ HT) as [Hnd Hsus].
  enough (length (f :: (awaiting_frame w <$> map_to_list σ)) <= msum b_waits B)%nat as Hlen.
  { cbn in Hlen. rewrite length_fmap, length_map_to_list in Hlen.
    pose proof (inv_capacity _ _ _ _ HT). lia. }
  apply msum_keys.
  - apply list.NoDup_cons. split; [|done]. intros [a Ha]%Hsus.
    apply (inv_running _ _ _ HF) in Hf. congruence.
  - intros g [->|Hg]%elem_of_cons; [by exists b|]. destruct (Hsus g Hg) as [a Ha].
    destruct (inv_suspended _ _ _ HF g a Ha) as (bg & ? & ? & _). exists bg. split; [done|lia].
Qed.

Lemma frames_suspend (w w' : World) f L (B : budgets) b a :
  FrameInv w (f :: L) B -> B !! f = Some b ->
  frames w' = <[f := Suspended a]> (frames w) -> nextFrame w' = nextFrame w ->
  (0 < b_waits b)%nat -> (forall res, wf (caller a res) (no_handles b) None) ->
  FrameInv w' L (<[f := no_handles b]> B).
Proof.
  intros HF Hb Hfs Hnf Hw Hwf.
  pose proof (frames_budget w w (f :: L) B f b (no_handles b) HF ltac:(by left) Hb
    eq_refl eq_refl ltac:(done) ltac:(set_solver)) as HF'.
  destruct HF as [_ _ _ _ _ _ _ _ Hst0]. destruct Hst0 as [Hst0 _].
  destruct HF' as [Hsu Hru Hbu Hrb Hnd Hdi Hch Hfr [_ Hst]].
  apply list.NoDup_cons in Hnd as [HfL Hnd].
  split; rewrite ?Hfs, ?Hnf; try done.
  - intros g a0 [[<- Ha0]|[Hne Ha0]]%lookup_insert_Some; [|by eapply Hsu].
    injection Ha0 as <-. exists (no_handles b). rewrite lookup_insert_eq.
    repeat split; try done. intros Hin. apply (Hst0 b f Hb Hin). by left.
  - intros g. destruct (decide (g = f)) as [->|Hne].
    + rewrite lookup_insert_eq. split; [done|]. intros H. by destruct HfL.
    + rewrite lookup_insert_ne by done. rewrite Hru, elem_of_cons. naive_solver.
  - intros g bg Hg. destruct (decide (g = f)) as [->|Hne].
    + right. exists a. apply lookup_insert_eq.
    + destruct (Hbu g bg Hg) as [H|[a0 H]].
      * left. apply elem_of_cons in H. naive_solver.
      * right. exists a0. by rewrite lookup_insert_ne.
  - intros g Hg. apply Hrb. by right.
  - intros g bg c Hg Hc. apply lookup_insert_is_Some'. right. eauto.
  - intros g Hg. apply lookup_insert_is_Some' in Hg as [<-|Hg]; [|auto].
    apply Hfr. exists Running. apply Hru. by left.
Qed.

(** The table, with the new awaiter in it. *)
Lemma await_table X (w : World) f L (B : budgets) σ b op t p a :
  TableInv X w B σ -> FrameInv w (f :: L) B -> B !! f = Some b ->
  valid op = true -> h_id op ∈ b_handles b -> h_id op <> OpIdIgnore ->
  h_id op ∈ outstanding (uring w) -> storable p -> completers w !! p = None -> operation a = op ->
  tbl_rep t (<[h_id op := p]> σ) -> tbl_capacity t = tbl_capacity (table w) ->
  TableInv X (mkWorld (set_completers t (queue w)) (<[p := f]> (completers w))
      (<[f := Suspended a]> (frames w)) (S (allocs w)) (nextFrame w) (closed w))
    (<[f := no_handles b]> B) (<[h_id op := p]> σ).
Proof.
  intros [H1 H2 H3 H4 H5 H6] HF Hb Hv Hid Hni Hido Hps Hpn Hop Hrep Hcap.
  pose proof (msum_insert b_waits B f b (no_handles b) Hb) as Hs2. cbn in Hs2.
  split; unfold uring, table in *; cbn; try done; try lia.
  - intros k' p' [[<- <-]|[Hne Hk']]%lookup_insert_Some.
    + split; [apply Hps|]. split; [done|]. split; [done|]. exists f, a.
      rewrite !lookup_insert_eq, Hop. split; [done|]. split; [done|]. by apply valid_handle.
    + destruct (H3 k' p' Hk') as (? & ? & ? & f' & a' & Hf' & Ha' & Ho').
      split; [done|]. split; [done|]. split; [done|]. exists f', a'.
      rewrite lookup_insert_ne by congruence. split; [done|].
      rewrite lookup_insert_ne; [done|]. intros <-.
      assert (frames w !! f = Some Running) by (apply (inv_running _ _ _ HF); by left).
      congruence.
  - intros p' f' [[<- <-]|[Hne Hf']]%lookup_insert_Some.
    + split; [apply Hps|]. right. exists (h_id op). apply lookup_insert_eq.
    + destruct (H4 p' f' Hf') as (? & [?|(k' & Hk')]); (split; [done|]); [by left|].
      right. exists k'. rewrite lookup_insert_ne; [done|]. intros <-.
      rewrite (H6 f b _ Hb Hid) in Hk'. done.
  - intros p' Hp'. destruct (H5 p' Hp') as [Hs Hno]. split.
    + apply lookup_insert_is_Some'. by right.
    + intros k' [[<- <-]|[Hne Hk']]%lookup_insert_Some; [|by eapply Hno].
      rewrite Hpn in Hs. by destruct Hs.
  - intros g bg id [[<- <-]|[Hne Hg]]%lookup_insert_Some Hid'; [set_solver|].
    rewrite lookup_insert_ne; [eauto|]. intros <-.
    destruct (inv_disjoint _ _ _ HF f g b bg Hne Hb Hg) as [Hd _]. set_solver.
Qed.

Lemma await_inv X C op k (w : World) f L (B : budgets) σ N b :
  Inv X C w (f :: L) B σ N -> B !! f = Some b ->
  valid op = true -> h_id op ∈ b_handles b -> (0 < b_waits b)%nat ->
  (forall res, wf (k res) (no_handles b) None) ->
  exists w' p a, await f op k w = Ok w' /\
    frames w' = <[f := Suspended a]> (frames w) /\ nextFrame w' = nextFrame w /\
    Inv X C w' L (<[f := no_handles b]> B) (<[h_id op := p]> σ) N /\
    completers w' = <[p := f]> (completers w) /\ completers w !! p = None /\
    operation a = op /\ caller a = k /\ ring_ (queue w') = ring_ (queue w) /\ nextId w' = nextId w.
Proof.
  intros [HR HT HF HC] Hb Hv Hid Hw Hwf. unfold await.
  rewrite !cassert_bind by done. unfold setCompleter.
  cbn [frames set_frame queue completers allocs nextFrame].
  set (p := new_completer _ _). set (a := mkAwaiter op k defaultResult).
  pose proof (new_completer_spec (allocs w) (completers w)) as [Hpn Hps]. fold p in Hpn, Hps.
  destruct (inv_handles _ _ _ HR f b _ Hb Hid) as [Hidr Hido].
  assert (h_id op <> OpIdIgnore) as Hni.
  { pose proof (inv_next _ _ _ HR). unfold OpIdIgnore. lia. }
  pose proof (table_has_room X w _ B σ f b HT HF ltac:(by left) Hb Hw) as Hroom.
  pose proof (inv_unawaited _ _ _ _ HT f b _ Hb Hid) as Hnone.
  destruct (tbl_insert_spec (table w) σ (h_id op) p) as (t & Hins & Hrep & Hcap);
    [apply HT | done | | done | done |].
  { unfold plain_key. pose proof (inv_next _ _ _ HR). lia. }
  unfold table in Hins. cbn [queue]. rewrite Hins. cbn [mbind outcome_bind].
  eexists _, p, a. split; [done|]. split; [done|]. split; [done|]. split; [|done].
  pose proof (msum_insert b_sqes B f b (no_handles b) Hb) as Hs1.
  pose proof (msum_insert b_waits B f b (no_handles b) Hb) as Hs2. cbn in Hs1, Hs2.
  split.
  - destruct HR as [H1 H2 H3 H4 H5 H6]. split; unfold uring, nextId in *; cbn; try done; try lia.
    intros g bg id [[<- <-]|[_ Hg]]%lookup_insert_Some; [set_solver|eauto].
  - by apply (await_table X w f L B σ b op t p a).
  - eapply frames_suspend; done.
  - destruct HC as [HD Hcq]. split; [|done]. intros id HCid.
    destruct (HD id HCid) as (H1 & H2 & H3). split; [done|]. split.
    + rewrite lookup_insert_ne; [done|]. intros <-. by apply (H3 f b Hb).
    + intros g bg [[<- <-]|[_ Hg]]%lookup_insert_Some; [set_solver|eauto].
Qed.

(** ** Frames come and go *)

Lemma ring_frames (w w' : World) B B' N :
  RingInv w B N -> queue w' = queue w ->
  (msum b_sqes B' <= msum b_sqes B)%nat ->
  (forall f b' id, B' !! f = Some b' -> id ∈ b_handles b' ->
    exists g b, B !! g = Some b /\ id ∈ b_handles b) ->
  RingInv w' B' N.
Proof.
  intros [H1 H2 H3 H4 H5 H6] Hq Hs Hh.
  split; unfold uring, nextId in *; rewrite ?Hq; try done; try lia.
  intros f b id Hb Hid. destruct (Hh f b id Hb Hid) as (g & b' & ? & ?). eauto.
Qed.

(** A change of frames that keeps the awaiters of the table. *)
Lemma table_frames X (w w' : World) B B' σ :
  TableInv X w B σ -> queue w' = queue w -> completers w' = completers w ->
  (msum b_waits B' <= msum b_waits B)%nat ->
  (forall f b' id, B' !! f = Some b' -> id ∈ b_handles b' ->
    exists g b, B !! g = Some b /\ id ∈ b_handles b) ->
  (forall f a k, frames w !! f = Some (Suspended a) -> operation a = mkHandle true k ->
    is_Some (σ !! k) -> frames w' !! f = Some (Suspended a)) ->
  TableInv X w' B' σ.
Proof.
  intros [H1 H2 H3 H4 H5 H6] Hq Hc Hs Hh Hf.
  split; unfold uring, table in *; rewrite ?Hq, ?Hc; try done; try lia.
  - intros k p Hk. destruct (H3 k p Hk) as (? & ? & ? & f & a & ? & Ha & Ho).
    split; [done|]. split; [done|]. split; [done|]. exists f, a. split; [done|].
    split; [|done]. by apply (Hf f a k); [| |rewrite Hk].
  - intros f b id Hb Hid. destruct (Hh f b id Hb Hid) as (g & b' & ? & ?). eauto.
Qed.

Lemma consume_frames C (w w' : World) B B' σ :
  ConsumeInv C w B σ -> queue w' = queue w ->
  (forall f b' id, B' !! f = Some b' -> id ∈ b_handles b' ->
    exists g b, B !! g = Some b /\ id ∈ b_handles b) ->
  ConsumeInv C w' B' σ.
Proof.
  intros [HD Hcq] Hq Hh. unfold ConsumeInv, dead, uring, nextId in *. rewrite Hq.
  split; [|done]. intros id Hid. destruct (HD id Hid) as (H1 & H2 & H3).
  repeat split; try done.
  intros f b Hb Hid'. destruct (Hh f b id Hb Hid') as (g & b' & ? & ?). by eapply H3.
Qed.

Lemma handles_delete g (B : budgets) f b id :
  delete g B !! f = Some b -> id ∈ b_handles b ->
  exists g b, B !! g = Some b /\ id ∈ b_handles b.
Proof. intros [_ H]%lookup_delete_Some Hid. eauto. Qed.

Lemma inv_frames_change X C (w w' : World) L L' B B' σ N :
  Inv X C w L B σ N -> queue w' = queue w -> completers w' = completers w ->
  (msum b_sqes B' <= msum b_sqes B)%nat -> (msum b_waits B' <= msum b_waits B)%nat ->
  (forall f b' id, B' !! f = Some b' -> id ∈ b_handles b' ->
    exists g b, B !! g = Some b /\ id ∈ b_handles b) ->
  (forall f a k, frames w !! f = Some (Suspended a) -> operation a = mkHandle true k ->
    is_Some (σ !! k) -> frames w' !! f = Some (Suspended a)) ->
  FrameInv w' L' B' -> Inv X C w' L' B' σ N.
Proof.
  intros [HR HT HF HC] Hq Hc Hs Hw Hh Hf HF'. split; [| |done|].
  - by eapply ring_frames.
  - by eapply table_frames.
  - by eapply consume_frames.
Qed.

Lemma finish_frames (w w' : World) f L (B : budgets) :
  FrameInv w (f :: L) B -> frames w' = <[f := Finished]> (frames w) ->
  nextFrame w' = nextFrame w -> FrameInv w' L (delete f B).
Proof.
  intros [Hsu Hru Hbu Hrb Hnd Hdi Hch Hfr [_ Hst]] Hfs Hnf.
  apply list.NoDup_cons in Hnd as [HfL Hnd].
  split; rewrite ?Hfs, ?Hnf; try done.
  - intros g a [[<- Ha]|[Hne Ha]]%lookup_insert_Some; [done|].
    rewrite lookup_delete_ne by done. eauto.
  - intros g. destruct (decide (g = f)) as [->|Hne].
    + rewrite lookup_insert_eq. split; [done|]. intros H. by destruct HfL.
    + rewrite lookup_insert_ne by done. rewrite Hru, elem_of_cons. naive_solver.
  - intros g b [Hne Hg]%lookup_delete_Some. destruct (Hbu g b Hg) as [H|[a H]].
    + left. apply elem_of_cons in H. naive_solver.
    + right. exists a. by rewrite lookup_insert_ne.
  - intros g Hg. rewrite lookup_delete_ne by (intros ->; done). apply Hrb. by right.
  - intros g1 g2 b1 b2 Hne [_ H1]%lookup_delete_Some [_ H2]%lookup_delete_Some. eauto.
  - intros g b c [_ Hg]%lookup_delete_Some Hc. apply lookup_insert_is_Some'. right. eauto.
  - intros g Hg. apply lookup_insert_is_Some' in Hg as [<-|Hg]; [|auto].
    apply Hfr. exists Running. apply Hru. by left.
  - eapply stack_ok_mono; [|exact Hst]. intros g b c _ [_ Hg]%lookup_delete_Some Hc. eauto.
Qed.

Lemma finish_inv X C (w : World) f L (B : budgets) σ N :
  Inv X C w (f :: L) B σ N -> Inv X C (set_frame f Finished w) L (delete f B) σ N.
Proof.
  intros HI. pose proof (inv_frames _ _ _ _ _ _ _ HI) as HF.
  eapply inv_frames_change; try done; try apply msum_delete_le.
  - apply handles_delete.
  - intros g a k Ha _ _. cbn. rewrite lookup_insert_ne; [done|]. intros <-.
    assert (frames w !! f = Some Running) by (apply (inv_running _ _ _ HF); by left).
    congruence.
  - by eapply finish_frames.
Qed.

(** Resuming frame [g], whose awaiter is not in the table any more. *)
Lemma resume_frames (w w' : World) g a (B : budgets) :
  FrameInv w [] B -> frames w !! g = Some (Suspended a) ->
  frames w' = <[g := Running]> (frames w) -> nextFrame w' = nextFrame w ->
  FrameInv w' [g] B.
Proof.
  intros [Hsu Hru Hbu Hrb Hnd Hdi Hch Hfr _] Hg Hfs Hnf.
  destruct (Hsu g a Hg) as (b & Hb & _ & _ & Hgb & _).
  split; rewrite ?Hfs, ?Hnf; try done.
  - intros f a' [[<- Ha]|[Hne Ha]]%lookup_insert_Some; [done|]. eauto.
  - intros f. rewrite list_elem_of_singleton. destruct (decide (f = g)) as [->|Hne].
    + by rewrite lookup_insert_eq.
    + rewrite lookup_insert_ne by done. split; [|done]. by intros H%Hru%elem_of_nil.
  - intros f bf Hf. rewrite list_elem_of_singleton.
    destruct (Hbu f bf Hf) as [H%elem_of_nil|[a' H]]; [done|].
    destruct (decide (f = g)) as [->|Hne]; [by left|]. right. exists a'.
    by rewrite lookup_insert_ne.
  - intros f ->%list_elem_of_singleton. by exists b.
  - apply list.NoDup_singleton.
  - intros f bf c Hf Hc. apply lookup_insert_is_Some'. right. eauto.
  - intros f Hf. apply lookup_insert_is_Some' in Hf as [<-|Hf]; [|auto].
    apply Hfr. by exists (Suspended a).
  - split; [|done]. intros b' c Hb' Hc Hcg%list_elem_of_singleton. subst c. congruence.
Qed.

Lemma use_sqe_inv X C (w : World) L (B : budgets) σ N f b :
  Inv X C w L B σ N -> f ∈ L -> B !! f = Some b ->
  Inv X C w L (<[f := use_sqe b]> B) σ N.
Proof.
  intros HI Hf Hb. pose proof (inv_frames _ _ _ _ _ _ _ HI) as HF.
  pose proof (msum_insert b_sqes B f b (use_sqe b) Hb) as Hs1.
  pose proof (msum_insert b_waits B f b (use_sqe b) Hb) as Hs2. cbn in Hs1, Hs2.
  eapply inv_frames_change; try done; try lia.
  - intros g b' id [[<- <-]|[_ Hg]]%lookup_insert_Some Hid; eauto.
  - eapply frames_budget; try done. cbn. intros g bg Hne Hg.
    by destruct (inv_disjoint _ _ _ HF f g b bg).
Qed.

Definition without_frame (c : Z) (w : World) : World :=
  mkWorld (queue w) (completers w) (delete c (frames w)) (allocs w) (nextFrame w) (closed w).

Lemma drop_frames (w : World) f L (B : budgets) b c :
  FrameInv w (f :: L) B -> B !! f = Some b -> c ∈ b_children b ->
  FrameInv (without_frame c w) (f :: L) (<[f := remove_child c b]> (delete c B)).
Proof.
  intros HF Hb Hc.
  assert (c ∉ f :: L) as HcL by (destruct (inv_stack _ _ _ HF) as [Hst _]; eauto).
  assert (Hsub : forall g bg, <[f := remove_child c b]> (delete c B) !! g = Some bg ->
    exists b0, B !! g = Some b0 /\ b_handles bg = b_handles b0 /\
      b_children bg ⊆ b_children b0 /\ c ∉ b_children bg).
  { intros g bg [[<- <-]|[Hne [_ Hg]%lookup_delete_Some]]%lookup_insert_Some.
    - exists b. cbn. split; [done|]. split; [done|]. set_solver.
    - exists bg. split; [done|]. split; [done|]. split; [done|].
      destruct (inv_disjoint _ _ _ HF f g b bg) as [_ Hd]; [done..|]. set_solver. }
  destruct HF as [Hsu Hru Hbu Hrb Hnd Hdi Hch Hfr Hst].
  assert (frames w !! f = Some Running) as Hfrun by (apply Hru; by left).
  split; cbn [without_frame frames nextFrame]; try done.
  - intros g a [Hne Ha]%lookup_delete_Some.
    rewrite lookup_insert_ne by (intros ->; congruence).
    rewrite lookup_delete_ne by done. eauto.
  - intros g. destruct (decide (g = c)) as [->|Hne].
    + by rewrite lookup_delete_eq.
    + by rewrite lookup_delete_ne.
  - intros g bg Hg. assert (g <> c) as Hgc.
    { intros ->. apply lookup_insert_Some in Hg as [[-> _]|[_ Hg]]; [by apply HcL; left|].
      by rewrite lookup_delete_eq in Hg. }
    destruct (Hsub g bg Hg) as (b0 & Hb0 & _). destruct (Hbu g b0 Hb0) as [?|[a Ha]]; [by left|].
    right. exists a. by rewrite lookup_delete_ne.
  - intros g Hg. apply lookup_insert_is_Some'. right.
    rewrite lookup_delete_ne by (intros ->; done). auto.
  - intros g1 g2 b1 b2 Hne H1 H2.
    destruct (Hsub g1 b1 H1) as (b1' & H1' & -> & Hs1 & _),
      (Hsub g2 b2 H2) as (b2' & H2' & -> & Hs2 & _).
    destruct (Hdi g1 g2 b1' b2') as [? Hd]; [done..|]. split; [done|]. set_solver.
  - intros g bg c' Hg Hc'. destruct (Hsub g bg Hg) as (b0 & Hb0 & _ & Hs & Hn).
    rewrite lookup_delete_ne by (intros ->; done). apply (Hch g b0); [done|set_solver].
  - intros g [s [_ Hs]%lookup_delete_Some]. eauto.
  - eapply stack_ok_mono; [|exact Hst]. intros g bg c' _ Hg Hc'.
    destruct (Hsub g bg Hg) as (b0 & Hb0 & _ & Hs & _). exists b0. split; [done|set_solver].
Qed.

Lemma drop_inv X C (w : World) f L (B : budgets) σ N b c :
  Inv X C w (f :: L) B σ N -> B !! f = Some b -> c ∈ b_children b ->
  (forall a k, frames w !! c = Some (Suspended a) -> operation a = mkHandle true k ->
    σ !! k = None) ->
  Inv X C (without_frame c w) (f :: L) (<[f := remove_child c b]> (delete c B)) σ N.
Proof.
  intros HI Hb Hc Hno. pose proof (inv_frames _ _ _ _ _ _ _ HI) as HF.
  assert (c <> f) as Hcf.
  { destruct (inv_stack _ _ _ HF) as [Hst _]. specialize (Hst b c Hb Hc). set_solver. }
  assert (delete c B !! f = Some b) as Hb' by (by rewrite lookup_delete_ne).
  pose proof (msum_insert b_sqes _ f b (remove_child c b) Hb') as Hs1.
  pose proof (msum_insert b_waits _ f b (remove_child c b) Hb') as Hs2. cbn in Hs1, Hs2.
  pose proof (msum_delete_le b_sqes B c). pose proof (msum_delete_le b_waits B c).
  eapply inv_frames_change; try done; try lia.
  - intros g b' id [[<- <-]|[_ [_ Hg]%lookup_delete_Some]]%lookup_insert_Some Hid; eauto.
  - intros g a k Ha Hop Hk. cbn. rewrite lookup_delete_ne; [done|]. intros <-.
    rewrite (Hno a k Ha Hop) in Hk. by destruct Hk.
  - by apply drop_frames.
Qed.

(** Destroying the awaiter of a suspended frame, if it is one. *)
Definition destroy_state (s : frame) (w : World) : outcome World :=
  match s with
  | Running => Crash UndefinedBehaviour
  | Suspended a => destroy_awaiter a w
  | Finished => Ok w
  end.

(** The table after it: the frame's operation has no completer any more. *)
Lemma destroy_state_inv X C (w : World) f L (B : budgets) σ N b c s :
  Inv X C w (f :: L) B σ N -> B !! f = Some b -> (0 < b_sqes b)%nat ->
  frames w !! c = Some s -> s <> Running ->
  exists w1 σ1, destroy_state s w = Ok w1 /\
    Inv X C w1 (f :: L) (<[f := use_sqe b]> B) σ1 N /\ frames w1 = frames w /\
    nextFrame w1 = nextFrame w /\ nextId w1 = nextId w /\
    (forall a k, s = Suspended a -> operation a = mkHandle true k -> σ1 !! k = None) /\
    ((w1 = w /\ σ1 = σ /\ forall a, s = Suspended a -> valid (operation a) = false) \/
     exists a, s = Suspended a /\ destroy_state s w = ('(_, w) ← cancel (operation a) true w; Ok w) /\
       valid (operation a) = true /\
       σ1 = delete (h_id (operation a)) σ /\
       completers w1 = delete (default 0 (σ !! h_id (operation a))) (completers w)).
Proof.
  intros HI Hb Hpos Hs Hnr.
  assert (Inv X C w (f :: L) (<[f := use_sqe b]> B) σ N) as HI0
    by (eapply use_sqe_inv; try done; by left).
  destruct s as [|a|]; [done| |exists w, σ; split_and!; [done..|by intros|left; by split_and!]].
  cbn [destroy_state]. unfold destroy_awaiter. destruct (valid (operation a)) eqn:Hv.
  - destruct (cancel_inv X C (operation a) true w (f :: L) B σ N f b)
      as (h & w1 & Hcan & _ & HI1 & Hfr & Hnf & Hni & Hc); [done|by left|done..|].
    exists w1, (delete (h_id (operation a)) σ). rewrite Hcan. split_and!; try done.
    + intros a0 k [= <-] ->. apply lookup_delete_eq.
    + right. exists a. cbn [destroy_state]. unfold destroy_awaiter. by rewrite Hv, Hcan.
  - exists w, σ. split_and!; try done; [|left; split_and!; [done..|by intros a0 [= <-]]].
    intros a0 k [= <-] Hop. rewrite Hop in Hv.
    destruct (σ !! k) as [p|] eqn:Hk; [|done].
    destruct (inv_key _ _ _ _ (inv_table _ _ _ _ _ _ _ HI) k p Hk) as (_ & Hni & Hin & _).
    pose proof (inv_ids _ _ _ (inv_ring _ _ _ _ _ _ _ HI) k Hin Hni).
    pose proof (inv_next _ _ _ (inv_ring _ _ _ _ _ _ _ HI)).
    rewrite valid_ok in Hv; [done|]. unfold id_ok. lia.
Qed.

Lemma child_not_running X C (w : World) f L (B : budgets) σ N b c :
  Inv X C w (f :: L) B σ N -> B !! f = Some b -> c ∈ b_children b ->
  exists s, frames w !! c = Some s /\ s <> Running /\ (c ∉ f :: L).
Proof.
  intros HI Hb Hc. pose proof (inv_frames _ _ _ _ _ _ _ HI) as HF.
  destruct (inv_stack _ _ _ HF) as [Hst _]. specialize (Hst b c Hb Hc).
  destruct (inv_children _ _ _ HF f b c Hb Hc) as [s Hs]. exists s. split; [done|].
  split; [|done]. intros ->. by apply Hst, (inv_running _ _ _ HF).
Qed.

Lemma destroy_inv X C (w : World) f L (B : budgets) σ N b c s w1 σ1 :
  Inv X C w (f :: L) B σ N -> B !! f = Some b -> c ∈ b_children b ->
  frames w !! c = Some s -> destroy_state s w = Ok w1 ->
  Inv X C w1 (f :: L) (<[f := use_sqe b]> B) σ1 N -> frames w1 = frames w ->
  (forall a k, s = Suspended a -> operation a = mkHandle true k -> σ1 !! k = None) ->
  exists B', destroy c w = Ok (without_frame c w1) /\ Inv X C (without_frame c w1) (f :: L) B' σ1 N /\
    B' !! f = Some (remove_child c (use_sqe b)) /\ (forall g, g ∈ L -> B' !! g = B !! g).
Proof.
  intros HI Hb Hc Hs Hw1 HI1 Hfr Hno.
  destruct (child_not_running X C w f L B σ N b c HI Hb Hc) as (s' & Hs' & Hnr & Hst).
  unfold destroy. rewrite Hs. cbn [deref mbind outcome_bind].
  change (match s with Running => _ | Suspended a => _ | Finished => _ end) with (destroy_state s w).
  rewrite Hw1. cbn [mbind outcome_bind]. eexists. split; [done|]. split; [|split].
  - eapply (drop_inv X C w1 f L _ σ1 N (use_sqe b) c); [done| |done|].
    + apply lookup_insert_eq.
    + intros a k Ha. rewrite Hfr, Hs in Ha. injection Ha as ->. by apply Hno.
  - apply lookup_insert_eq.
  - intros g Hg. assert (g <> f) as Hgf.
    { intros ->. pose proof (inv_stack_nodup _ _ _ (inv_frames _ _ _ _ _ _ _ HI)) as Hnd.
      by apply list.NoDup_cons in Hnd as [? _]. }
    rewrite lookup_insert_ne by done. rewrite lookup_delete_ne by set_solver.
    by rewrite lookup_insert_ne.
Qed.

(** ** Spawning *)

Definition with_new_frame (w : World) : World :=
  mkWorld (queue w) (completers w) (<[nextFrame w := Running]> (frames w)) (allocs w)
    (nextFrame w + 1) (closed w).

Lemma new_frame_unknown (w : World) L (B : budgets) :
  FrameInv w L B ->
  frames w !! nextFrame w = None /\ B !! nextFrame w = None /\ (nextFrame w ∉ L) /\
  forall f b, B !! f = Some b -> nextFrame w ∉ b_children b.
Proof.
  intros HF. assert (frames w !! nextFrame w = None) as Hn.
  { destruct (frames w !! nextFrame w) eqn:E; [|done].
    pose proof (inv_fresh _ _ _ HF (nextFrame w) ltac:(by rewrite E)). lia. }
  assert (nextFrame w ∉ L) as HL by (intros H%(inv_running _ _ _ HF); congruence).
  split; [done|]. split; [|split; [done|]].
  - destruct (B !! nextFrame w) as [b|] eqn:E; [|done].
    destruct (inv_budget _ _ _ HF _ _ E) as [?|[a Ha]]; [done|congruence].
  - intros f b Hb Hc. destruct (inv_children _ _ _ HF f b _ Hb Hc) as [s Hs]. congruence.
Qed.

(** The budgets when [c] gets [b1] of [f]'s [b], and [f] keeps [b2]. *)
Definition push_budgets (B : budgets) f c b1 b2 : budgets :=
  <[c := b1]> (<[f := add_child c b2]> B).

Lemma push_budgets_cases (B : budgets) f c b1 b2 g bg :
  push_budgets B f c b1 b2 !! g = Some bg ->
  (g = c /\ bg = b1) \/ (g = f /\ bg = add_child c b2) \/ (g <> c /\ g <> f /\ B !! g = Some bg).
Proof.
  unfold push_budgets.
  intros [[<- <-]|[Hne [[<- <-]|[Hne' Hg]]%lookup_insert_Some]]%lookup_insert_Some; auto.
Qed.

(** They still have nothing in common. *)
Lemma push_disjoint (B : budgets) f c b b1 b2 :
  B !! f = Some b -> splits b b1 b2 ->
  (forall g bg, B !! g = Some bg -> c ∉ b_children bg) ->
  (forall g1 g2 x1 x2, g1 <> g2 -> B !! g1 = Some x1 -> B !! g2 = Some x2 ->
    b_handles x1 ## b_handles x2 /\ b_children x1 ## b_children x2) ->
  forall g1 g2 x1 x2, g1 <> g2 ->
    push_budgets B f c b1 b2 !! g1 = Some x1 -> push_budgets B f c b1 b2 !! g2 = Some x2 ->
    b_handles x1 ## b_handles x2 /\ b_children x1 ## b_children x2.
Proof.
  intros Hb (_ & _ & Hh & Hhd & Hc & Hcd) Hcn Hdi g1 g2 x1 x2 Hne H1 H2.
  assert (Hdf : forall g bg, g <> f -> B !! g = Some bg ->
    b_handles bg ## b_handles b /\ b_children bg ## b_children b)
    by (intros g bg Hgf Hg; exact (Hdi g f bg b Hgf Hg Hb)).
  assert (Hnc : c ∉ b_children b) by eauto.
  assert (Hcb : b_handles b1 ## b_handles (add_child c b2) /\
    b_children b1 ## b_children (add_child c b2)) by (cbn; split; set_solver).
  assert (Hcg : forall g bg, g <> f -> B !! g = Some bg ->
    b_handles b1 ## b_handles bg /\ b_children b1 ## b_children bg).
  { intros g bg Hgf HB. destruct (Hdf g bg Hgf HB). split; set_solver. }
  assert (Hfg : forall g bg, g <> f -> B !! g = Some bg ->
    b_handles (add_child c b2) ## b_handles bg /\ b_children (add_child c b2) ## b_children bg).
  { intros g bg Hgf HB. destruct (Hdf g bg Hgf HB). pose proof (Hcn g bg HB).
    cbn. split; set_solver. }
  assert (Hsym : forall x y : Budget, b_handles x ## b_handles y /\ b_children x ## b_children y ->
    b_handles y ## b_handles x /\ b_children y ## b_children x) by (intros x y []; done).
  destruct (push_budgets_cases _ _ _ _ _ _ _ H1) as [[-> ->]|[[-> ->]|(Hg1c & Hg1f & HB1)]],
    (push_budgets_cases _ _ _ _ _ _ _ H2) as [[-> ->]|[[-> ->]|(Hg2c & Hg2f & HB2)]];
    [done | done | eauto | auto | done | eauto | apply Hsym; eauto | apply Hsym; eauto |].
  by apply (Hdi g1 g2).
Qed.

(** They still own nothing that runs below. *)
Lemma push_stack (B : budgets) f c L b b1 b2 :
  B !! f = Some b -> splits b b1 b2 -> NoDup (f :: L) -> (c ∉ f :: L) ->
  (forall g bg, B !! g = Some bg -> c ∉ b_children bg) -> stack_ok B (f :: L) ->
  stack_ok (push_budgets B f c b1 b2) (c :: f :: L).
Proof.
  intros Hb (_ & _ & _ & _ & Hc & _) Hnd HLn Hcn [Hst0 Hst].
  assert (c <> f) as Hcf by (intros ->; apply HLn; by left).
  split; [|split].
  - unfold push_budgets. intros bc c' [[_ <-]|[? _]]%lookup_insert_Some Hc'; [|done].
    rewrite elem_of_cons. intros [->|Hin]; [apply (Hcn f b Hb); set_solver|].
    apply (Hst0 b c' Hb); [set_solver|done].
  - intros bf c' Hbf Hc'.
    destruct (push_budgets_cases _ _ _ _ _ _ _ Hbf) as [[? _]|[[_ ->]|(_ & ? & _)]]; [done| |done].
    cbn in Hc'. apply elem_of_union in Hc' as [->%elem_of_singleton|Hc']; [done|].
    apply (Hst0 b c' Hb). set_solver.
  - eapply stack_ok_mono; [|exact Hst]. intros g bg c' HgL Hg Hc'. exists bg.
    destruct (push_budgets_cases _ _ _ _ _ _ _ Hg) as [[-> _]|[[-> _]|(_ & _ & ?)]]; [| |done].
    + exfalso. apply HLn. by right.
    + exfalso. by apply list.NoDup_cons in Hnd as [? _].
Qed.

(** A new frame [c] with budget [b1] on top of [f], which keeps [b2]. *)
Lemma push_frames (w : World) f L (B : budgets) b b1 b2 :
  FrameInv w (f :: L) B -> B !! f = Some b -> splits b b1 b2 ->
  FrameInv (with_new_frame w) (nextFrame w :: f :: L)
    (<[nextFrame w := b1]> (<[f := add_child (nextFrame w) b2]> B)).
Proof.
  intros HF Hb Hsp. pose proof Hsp as (_ & _ & _ & _ & Hc & _).
  destruct (new_frame_unknown w _ B HF) as (Hfn & HBn & HLn & Hcn).
  set (c := nextFrame w) in *.
  assert (c <> f) as Hcf by set_solver.
  change (<[c := b1]> (<[f := add_child c b2]> B)) with (push_budgets B f c b1 b2).
  set (B' := push_budgets B f c b1 b2).
  pose proof (push_budgets_cases B f c b1 b2) as Hother. fold B' in Hother.
  destruct HF as [Hsu Hru Hbu Hrb Hnd Hdi Hch Hfr [Hst0 Hst]].
  assert (frames w !! f = Some Running) as Hfrun by (apply Hru; by left).
  split; cbn [with_new_frame frames nextFrame]; fold c.
  - intros g a [[<- Ha]|[Hne Ha]]%lookup_insert_Some; [done|].
    unfold B', push_budgets. rewrite !lookup_insert_ne by (done || intros ->; congruence). eauto.
  - intros g. rewrite elem_of_cons. destruct (decide (g = c)) as [->|Hne].
    + rewrite lookup_insert_eq. naive_solver.
    + rewrite lookup_insert_ne by done. rewrite Hru. naive_solver.
  - intros g bg Hg. destruct (Hother g bg Hg) as [[-> _]|[[-> _]|(Hgc & Hgf & HB)]].
    + left. by left.
    + left. right. by left.
    + destruct (Hbu g bg HB) as [?|[a Ha]]; [left; by right|]. right. exists a.
      by rewrite lookup_insert_ne.
  - intros g Hg. unfold B', push_budgets. apply lookup_insert_is_Some'. rewrite elem_of_cons in Hg.
    destruct Hg as [->|Hg]; [by left|]. right. apply lookup_insert_is_Some'. right. auto.
  - by apply list.NoDup_cons.
  - intros g1 g2 x1 x2 Hne H1 H2. by apply (push_disjoint B f c b b1 b2 Hb Hsp Hcn Hdi g1 g2).
  - intros g bg c' Hg Hc'. apply lookup_insert_is_Some'.
    destruct (Hother g bg Hg) as [[-> ->]|[[-> ->]|(Hgc & Hgf & HB)]].
    + right. apply (Hch f b); set_solver.
    + cbn in Hc'. apply elem_of_union in Hc' as [->%elem_of_singleton|Hc']; [by left|].
      right. apply (Hch f b); set_solver.
    + right. eauto.
  - intros g [<-|Hg]%lookup_insert_is_Some'; [lia|]. specialize (Hfr g Hg). lia.
  - by apply (push_stack B f c L b b1 b2 Hb Hsp).
Qed.

Lemma spawn_inv X C (w : World) f L (B : budgets) σ N b b1 b2 :
  Inv X C w (f :: L) B σ N -> B !! f = Some b -> splits b b1 b2 ->
  Inv X C (with_new_frame w) (nextFrame w :: f :: L)
    (<[nextFrame w := b1]> (<[f := add_child (nextFrame w) b2]> B)) σ N.
Proof.
  intros HI Hb Hsp. pose proof (inv_frames _ _ _ _ _ _ _ HI) as HF.
  destruct (new_frame_unknown w _ B HF) as (Hfn & HBn & HLn & Hcn).
  set (c := nextFrame w) in *. assert (c <> f) as Hcf by set_solver.
  assert (<[f := add_child c b2]> B !! c = None) as Hn by (by rewrite lookup_insert_ne).
  pose proof (msum_insert_new b_sqes _ c b1 Hn). pose proof (msum_insert_new b_waits _ c b1 Hn).
  pose proof (msum_insert b_sqes B f b (add_child c b2) Hb) as Hs1.
  pose proof (msum_insert b_waits B f b (add_child c b2) Hb) as Hs2. cbn in Hs1, Hs2.
  pose proof Hsp as (? & ? & Hh & _).
  eapply inv_frames_change; try done; try lia.
  - intros g b' id [[<- <-]|[_ [[<- <-]|[_ Hg]]%lookup_insert_Some]]%lookup_insert_Some Hid;
      [exists f, b; split; [done|set_solver]..|eauto].
  - intros g a k Ha _ _. cbn. fold c. rewrite lookup_insert_ne by congruence. done.
  - by eapply push_frames.
Qed.

(** ** Running a coroutine keeps the invariant *)

Lemma next_id_ok (w : World) (B : budgets) N f b :
  RingInv w B N -> B !! f = Some b -> (0 < b_sqes b)%nat -> id_ok (nextId w).
Proof.
  intros HR Hb Hpos. pose proof (inv_next _ _ _ HR) as [H0 H].
  rewrite (msum_delete b_sqes B f b Hb) in H. unfold id_ok. lia.
Qed.

Lemma use_sqe_issue b : issue_budget ∅ b = use_sqe b.
Proof. unfold issue_budget, use_sqe. by rewrite (left_id_L ∅ (∪)). Qed.

(** What a run of frame [f] ends with. *)
Definition settles (X : option Z) (C : option Z * gset Z) (N : nat) (L : list Z) (B : budgets) (m : outcome World) : Prop :=
  exists w' B' σ', m = Ok w' /\ Inv X C w' L B' σ' N /\ forall g, g ∈ L -> B' !! g = B !! g.

Lemma settles_mono X C N L (B B1 : budgets) m :
  (forall g, g ∈ L -> B1 !! g = B !! g) ->
  settles X C N L B1 m -> settles X C N L B m.
Proof.
  intros H (w' & B' & σ' & -> & HI & HB). exists w', B', σ'.
  split; [done|]. split; [done|]. intros g Hg. by rewrite HB, H.
Qed.

Lemma settles_insert X C N f L (B : budgets) b m :
  (f ∉ L) -> settles X C N L (<[f := b]> B) m -> settles X C N L B m.
Proof.
  intros Hf. apply settles_mono. intros g Hg. rewrite lookup_insert_ne; [done|by intros ->].
Qed.

(** A call of a member: the frame goes on with what the call returned. *)
Lemma call_inv X C c k (w : World) f L (B : budgets) σ N b last :
  Inv X C w (f :: L) B σ N -> B !! f = Some b -> wf (Call c k) b last -> last_is last (queue w) ->
  exists h w' b' last', invoke c w = Ok (h, w') /\ Inv X C w' (f :: L) (<[f := b']> B) σ N /\
    wf (k h) b' last' /\ last_is last' (queue w').
Proof.
  intros HI Hb (Hpos & Hok & Hfull) Hlast. pose proof (inv_ring _ _ _ _ _ _ _ HI) as HR.
  assert (f ∈ f :: L) as HfS by by left. pose proof (next_id_ok w B N f b HR Hb Hpos) as Hid.
  destruct (invoke_ok c w (inv_ready _ _ _ HR) Hid) as (h & q' & -> & Hcase).
  destruct Hcase as [(p & -> & Hq & Hl & _)|(-> & _ & Hq & Hl)].
  - eexists _, _, _, _. split; [done|]. split; [|split; [|exact Hl]].
    + eapply (issue_inv X C _ {[nextId w]}); [exact HI|exact HfS|exact Hb|exact Hpos| |exact Hq].
      right. right. done.
    + apply Hok; [done|]. intros Hin.
      destruct (inv_handles _ _ _ HR f b _ Hb Hin). unfold nextId in *. lia.
  - eexists _, _, _, _. split; [done|]. split; [|split; [|exact (Hl _ Hlast)]].
    + eapply (issue_inv X C _ ∅); [exact HI|exact HfS|exact Hb|exact Hpos| |exact Hq].
      left. unfold nextId. split; [done|]. split; [done|]. lia.
    + by rewrite use_sqe_issue.
Qed.

Lemma link_inv X C ts fl op k (w : World) f L (B : budgets) σ N b last :
  Inv X C w (f :: L) B σ N -> B !! f = Some b -> wf (LinkTimeout ts fl op k) b last ->
  last_is last (queue w) ->
  exists h q' b' last', linkTimeout ts fl op (queue w) = Ok (h, q') /\
    Inv X C (set_queue q' w) (f :: L) (<[f := b']> B) σ N /\ wf (k h) b' last' /\ last_is last' q'.
Proof.
  intros HI Hb (Hpos & Hv & -> & Hok & Hfull) Hlast. pose proof (inv_ring _ _ _ _ _ _ _ HI) as HR.
  assert (f ∈ f :: L) as HfS by by left.
  destruct (linkTimeout_ok ts fl op (queue w) (inv_ready _ _ _ HR) Hv Hlast) as (h & q' & -> & Hcase).
  destruct Hcase as [(-> & Hq)|(-> & Hq & Hl)].
  - exists op, q', (issue_budget ∅ b), None. split; [done|]. split; [|by rewrite use_sqe_issue].
    eapply (issue_inv X C _ ∅); [exact HI|exact HfS|exact Hb|exact Hpos| |exact Hq].
    right. left. done.
  - eexists _, q', (issue_budget ∅ b), _. split; [done|]. split; [|split; [|exact Hl]].
    + eapply (issue_inv X C _ ∅); [exact HI|exact HfS|exact Hb|exact Hpos| |exact Hq].
      left. unfold nextId. split; [done|]. split; [done|]. lia.
    + by rewrite use_sqe_issue.
Qed.

(** A descriptor is no part of the queue. *)
Lemma close_fd_inv X C fd (w : World) L (B : budgets) σ N :
  Inv X C w L B σ N -> Inv X C (close_fd fd w) L B σ N.
Proof. intros [[] [] [] []]. split; by split. Qed.

Lemma exec_inv X C N p : forall f w L B σ b last,
  Inv X C w (f :: L) B σ N -> B !! f = Some b -> wf p b last -> last_is last (queue w) ->
  settles X C N L B (exec f p w).
Proof.
  induction p as [|c k IH|ts fl op k IH|op b0 k IH|op k IH|p IHp k IH|c k IH|fd k IH];
    intros f w L B σ b last HI Hb Hwf Hlast; cbn [exec wf] in *;
    pose proof (inv_ring _ _ _ _ _ _ _ HI) as HR;
    pose proof (inv_frames _ _ _ _ _ _ _ HI) as HF;
    assert (f ∉ L) as HfL
      by (pose proof (inv_stack_nodup _ _ _ HF) as Hnd; by apply list.NoDup_cons in Hnd as [? _]);
    assert (f ∈ f :: L) as HfS by by left.
  - exists (set_frame f Finished w), (delete f B), σ. split; [done|].
    split; [by apply finish_inv|]. intros g Hg. apply lookup_delete_ne. by intros ->.
  - destruct (call_inv X C c k w f L B σ N b last HI Hb Hwf Hlast)
      as (h & w' & b' & last' & -> & HI' & Hwf' & Hlast').
    cbn [mbind outcome_bind]. eapply settles_insert; [exact HfL|].
    by eapply IH; [|apply lookup_insert_eq| |].
  - destruct (link_inv X C ts fl op k w f L B σ N b last HI Hb Hwf Hlast)
      as (h & q' & b' & last' & -> & HI' & Hwf' & Hlast').
    cbn [mbind outcome_bind]. eapply settles_insert; [exact HfL|].
    by eapply IH; [|apply lookup_insert_eq| |].
  - destruct Hwf as (Hpos & Hv & Hok & Hfull).
    destruct (cancel_inv X C op b0 w (f :: L) B σ N f b HI HfS Hb Hpos Hv)
      as (h & w' & -> & Hh & HI' & _).
    cbn [mbind outcome_bind]. eapply settles_insert; [exact HfL|].
    eapply IH with (last := None); [exact HI'|apply lookup_insert_eq| |done].
    by destruct Hh as [-> | ->].
  - destruct Hwf as (Hv & Hid & Hw & Hk).
    destruct (await_inv X C op k w f L B σ N b HI Hb Hv Hid Hw Hk)
      as (w' & p & a & -> & _ & _ & HI' & _).
    eexists _, _, _. split; [done|]. split; [exact HI'|].
    intros g Hg. apply lookup_insert_ne. by intros ->.
  - destruct Hwf as (b1 & b2 & Hsp & Hwfp & Hwfk).
    destruct (new_frame_unknown w _ B HF) as (_ & _ & HLn & Hcn).
    destruct (IHp (nextFrame w) (with_new_frame w) (f :: L) _ σ b1 last
      (spawn_inv X C w f L B σ N b b1 b2 HI Hb Hsp) (lookup_insert_eq _ _ _) Hwfp Hlast)
      as (w1 & B1 & σ1 & Hex & HI1 & HB1).
    unfold with_new_frame in Hex. rewrite Hex. cbn [mbind outcome_bind].
    apply (settles_mono X C N L B B1).
    { intros g Hg. rewrite HB1 by (by right).
      rewrite !lookup_insert_ne; [done|by intros ->|intros <-; apply HLn; by right]. }
    eapply IH with (last := None); [exact HI1| |by apply Hwfk, (Hcn f b)|done].
    rewrite HB1 by done. rewrite lookup_insert_ne by (intros <-; apply HLn; by left).
    apply lookup_insert_eq.
  - destruct Hwf as (Hpos & Hc & Hwf).
    destruct (child_not_running X C w f L B σ N b c HI Hb Hc) as (s & Hs & Hnr & _).
    destruct (destroy_state_inv X C w f L B σ N b c s HI Hb Hpos Hs Hnr)
      as (w0 & σ1 & Hw0 & HI0 & Hfr & _ & _ & Hno & _).
    destruct (destroy_inv X C w f L B σ N b c s w0 σ1 HI Hb Hc Hs Hw0 HI0 Hfr Hno)
      as (B1 & -> & HI1 & HB1 & HB1').
    cbn [mbind outcome_bind]. apply (settles_mono X C N L B B1); [exact HB1'|].
    by eapply IH with (last := None).
  - by eapply IH; [apply close_fd_inv| | |].
Qed.

(** ** One iteration of the run loop *)

(** Between iterations nobody holds a handle. *)
Lemma idle_no_handles X C (w : World) (B : budgets) σ N f b id :
  Inv X C w [] B σ N -> B !! f = Some b -> id ∉ b_handles b.
Proof.
  intros [_ _ HF _] Hb. destruct (inv_budget _ _ _ HF f b Hb) as [?%elem_of_nil|[a Ha]]; [done|].
  destruct (inv_suspended _ _ _ HF f a Ha) as (b' & Hb' & _ & Hh & _). set_solver.
Qed.

(** The ring moves on: the same user data stays outstanding. *)
Lemma inv_uring D (w : World) q' (B : budgets) σ N :
  Inv None (None, D) w [] B σ N -> IoURing.ready (ring_ q') ->
  outstanding (ring_ q') ≡ₚ outstanding (uring w) ->
  completers_ q' = completers_ (queue w) -> nextOpId_ q' = nextOpId_ (queue w) ->
  Inv None (None, D) (set_queue q' w) [] B σ N.
Proof.
  intros [[H1 H2 H3 H4 H5 H6] [T1 T2 T3 T4 T5 T6] HF HC] Hr Ho Hc Hn.
  split; [split|split| |]; unfold uring, nextId, table in *; cbn in *;
    rewrite ?Hn, ?Hc, ?Ho; try done.
  - intros id. rewrite Ho. eauto.
  - intros f b id Hb Hid. rewrite Ho. eauto.
  - intros k p Hk. rewrite Ho. eauto.
  - destruct HF. by split.
  - destruct HC as [HD _]. split; [|done]. intros id Hid.
    destruct (HD id Hid) as (? & ? & ?). split; [|done]. unfold nextId in *. cbn. by rewrite Hn.
Qed.

(** Starting to consume the first completion. *)
Lemma consume_start D (w : World) t (B : budgets) σ N c cs :
  Inv None (None, D) w [] B σ N -> uring_cq (IoURing.ring_ (uring w)) = c :: cs ->
  tbl_rep t (delete (cqe_user_data c) σ) -> tbl_capacity t = tbl_capacity (table w) ->
  Inv (σ !! cqe_user_data c) (Some (cqe_user_data c), D)
    (set_queue (set_completers t (queue w)) w) [] B (delete (cqe_user_data c) σ) N.
Proof.
  intros HI Hcq Hrep Hcap. set (ud := cqe_user_data c) in *.
  pose proof (fun f b id => idle_no_handles None (None, D) w B σ N f b id HI) as Hidle.
  destruct HI as [HR HT HF HC].
  pose proof (fun k1 k2 p => key_inj None w B σ k1 k2 p HT) as Hinj.
  destruct HT as [T1 T2 T3 T4 T5 T6]. split.
  - destruct HR. by split.
  - split; unfold uring, table; cbn; try done.
    + by rewrite Hcap.
    + intros k p [_ Hk]%lookup_delete_Some. by apply T3.
    + intros p f Hp. destruct (T4 p f Hp) as (? & [?|(k & Hk)]); [done|]. split; [done|].
      destruct (decide (ud = k)) as [<-|Hne]; [by left|right]. exists k.
      by rewrite lookup_delete_ne.
    + intros p Hp. split.
      * destruct (T3 _ _ Hp) as (_ & _ & _ & f & a & Hf & _). by exists f.
      * intros k [Hne Hk]%lookup_delete_Some. apply Hne. by eapply Hinj.
    + intros f b id Hb Hid. by destruct (Hidle f b id Hb).
  - destruct HF. by split.
  - split; [|intros id [= <-]; by exists c, cs]. cbn [fst snd].
    intros id Hid. split; [|split; [|eauto]].
    + destruct Hid as [[= <-]|Hid]; [|by destruct (proj1 HC id (or_intror Hid))].
      destruct (decide (ud = OpIdIgnore)); [by right|left].
      apply (inv_ids _ _ _ HR); [|done]. unfold outstanding. rewrite Hcq. set_solver.
    + destruct Hid as [[= <-]|Hid]; [apply lookup_delete_eq|].
      destruct (proj1 HC id (or_intror Hid)) as (_ & ? & _). apply lookup_delete_None. by right.
Qed.

(** The consumed completion leaves the queue. *)
Lemma consume_end D (w : World) (B : budgets) σ N id :
  Inv None (Some id, D) w [] B σ N ->
  exists u N', IoURing.advanceCq 1 (uring w) = Ok u /\ (N' < N)%nat /\
    Inv None (None, D) (set_uring u w) [] B σ N'.
Proof.
  intros [[H1 H2 H3 H4 H5 H6] [T1 T2 T3 T4 T5 T6] HF HC].
  destruct HC as [HD Hc]. destruct (Hc id eq_refl) as (c & cs & Hcq & Hud).
  destruct (HD id (or_introl eq_refl)) as (_ & Hnone & Hnoh).
  destruct (advance_ok (uring w) c cs H1 Hcq) as (u & -> & Hr & _ & Ho). subst id.
  assert (Hcount : forall x, x <> cqe_user_data c -> x ∈ outstanding (uring w) ->
    x ∈ outstanding u).
  { intros x Hx. rewrite Ho, elem_of_cons. by intros [?|?]. }
  assert (Hincl : forall x, x ∈ outstanding u -> x ∈ outstanding (uring w))
    by (intros x Hx; rewrite Ho; by right).
  exists u, (N - 1)%nat. split; [done|].
  rewrite Ho in H3. cbn in H3. split; [lia|].
  split; [split|split| |]; unfold uring, nextId, table in *; cbn in *; try done; try lia.
  - intros x Hx. auto.
  - rewrite Ho in H5. destruct (decide (cqe_user_data c = OpIdIgnore)).
    + rewrite list.filter_cons_False in H5 by tauto. done.
    + rewrite list.filter_cons_True in H5 by done. by apply list.NoDup_cons in H5 as [_ ?].
  - intros f b x Hb Hx. destruct (H6 f b x Hb Hx). split; [done|].
    apply Hcount; [|done]. intros ->. by eapply Hnoh.
  - intros k p Hk. destruct (T3 k p Hk) as (? & ? & ? & ?). split; [done|]. split; [done|].
    split; [|done]. apply Hcount; [|done]. intros ->. congruence.
  - destruct HF. by split.
  - split; [|done]. intros x [?|Hx]; [done|]. exact (HD x (or_intror Hx)).
Qed.

(** Resuming the frame whose completer was taken out of the table. *)
Lemma resume_inv D (w : World) (B : budgets) σ N id p f a :
  Inv (Some p) (Some id, D) w [] B σ N -> frames w !! f = Some (Suspended a) ->
  operation a = mkHandle true id ->
  Inv (Some p) (Some id, D) (set_frame f Running w) [f] B σ N /\
  exists b, B !! f = Some b /\ forall res, wf (caller a res) b None.
Proof.
  intros HI Hf Hop. destruct (HI) as [HR HT HF HC].
  destruct (proj1 HC id (or_introl eq_refl)) as (_ & Hnone & _).
  destruct (inv_suspended _ _ _ HF f a Hf) as (b & Hb & Hw & Hh & _ & Hwf).
  split; [|by exists b]. eapply inv_frames_change; [exact HI|done|done|done|done|eauto| |].
  - intros g a' k Ha' Hop' Hk. cbn. rewrite lookup_insert_ne; [done|]. intros <-.
    rewrite Hf in Ha'. injection Ha' as <-. rewrite Hop in Hop'. injection Hop' as <-.
    rewrite Hnone in Hk. by destruct Hk.
  - by eapply resume_frames.
Qed.

(** Freeing the completer that was taken. *)
Lemma free_inv C p (w : World) (B : budgets) σ N :
  Inv (Some p) C w [] B σ N ->
  delete_completer p w = Ok (set_heap (delete p (completers w)) w) /\
  Inv None C (set_heap (delete p (completers w)) w) [] B σ N.
Proof.
  intros [HR HT HF HC]. destruct (inv_taken _ _ _ _ HT p eq_refl) as [[f Hf] Hno].
  destruct (inv_heap _ _ _ _ HT p f Hf) as [Hp0 _]. split.
  { unfold delete_completer. by rewrite (proj2 (Z.eqb_neq p 0)), Hf by done. }
  split; [destruct HR; by split | | destruct HF; by split | done].
  destruct HT as [T1 T2 T3 T4 T5 T6]. split; cbn; try done.
  - intros k p' Hk. destruct (T3 k p' Hk) as (? & ? & ? & g & a' & ? & ?).
    split; [done|]. split; [done|]. split; [done|]. exists g, a'.
    rewrite lookup_delete_ne; [done|]. intros <-. by apply (Hno k).
  - intros p' g [Hne Hg]%lookup_delete_Some. destruct (T4 p' g Hg) as (? & [[= ?]|?]); [done|].
    split; [done|]. by right.
Qed.

(** [complete] on a completer of a suspended frame resumes the frame. *)
Lemma complete_eq p res f a (w : World) :
  completers w !! p = Some f -> frames w !! f = Some (Suspended a) ->
  complete p res w = exec f (caller a res) (set_frame f Running w).
Proof.
  intros Hp Hf. unfold complete. rewrite Hp. cbn [deref mbind outcome_bind].
  by rewrite Hf.
Qed.

(** Completing: the awaiting coroutine runs, then its completer is freed. *)
Lemma complete_inv D (w : World) (B : budgets) σ N id p f a res :
  Inv (Some p) (Some id, D) w [] B σ N ->
  completers w !! p = Some f -> frames w !! f = Some (Suspended a) ->
  operation a = mkHandle true id ->
  exists w1 w' B' σ', complete p res w = Ok w1 /\ delete_completer p w1 = Ok w' /\
    Inv None (Some id, D) w' [] B' σ' N.
Proof.
  intros HI Hp Hf Hop. rewrite (complete_eq p res f a w Hp Hf).
  destruct (resume_inv D w B σ N id p f a HI Hf Hop) as (HI1 & b & Hb & Hwf).
  destruct (exec_inv _ _ N (caller a res) f _ [] B σ b None HI1 Hb (Hwf res) I)
    as (w1 & B1 & σ1 & -> & HI2 & _).
  destruct (free_inv _ p w1 B1 σ1 N HI2) as [Hd HI3].
  by exists w1, (set_heap (delete p (completers w1)) w1), B1, σ1.
Qed.

(** The library says a completion is there. *)
Definition delivers (w : World) : Prop :=
  let '(res, r) := io_uring_submit_and_wait (IoURing.sqes (uring w)) 1
                     (IoURing.ring_ (uring w)) in
  0 <= res /\ uring_cq r <> [].

(** The first half of the loop body: submit, then look for a completion. *)
Lemma submit_step D (w : World) (B : budgets) σ N :
  Inv None (None, D) w [] B σ N ->
  exists res u w1, IoURing.submitSqes 1 (ring_ (set_lastSqe None (queue w))) = Ok (res, u) /\
    w1 = set_uring u (set_queue (set_lastSqe None (queue w)) w) /\
    Inv None (None, D) w1 [] B σ N /\
    (delivers w -> 0 <= res /\ uring_cq (IoURing.ring_ (uring w1)) <> []).
Proof.
  intros HI. pose proof (inv_ready _ _ _ (inv_ring _ _ _ _ _ _ _ HI)) as Hr.
  destruct (submit_ok (uring w) Hr) as (res & u & Hs & Hr' & Ho & _).
  exists res, u, (set_uring u (set_queue (set_lastSqe None (queue w)) w)).
  split; [exact Hs|]. split; [done|]. split.
  - change (set_uring u _) with (set_queue (set_ring u (set_lastSqe None (queue w))) w).
    by apply inv_uring.
  - unfold delivers. intros Hd. unfold IoURing.submitSqes in Hs.
    rewrite cassert_bind in Hs by apply Hr. rewrite (wrap_small 32 1) in Hs by lia.
    destruct (io_uring_submit_and_wait _ _ _) as [res' r]. injection Hs as <- <-. exact Hd.
Qed.

(** What [run] does with a completion before it leaves the queue. *)
Definition handle_cqe (c : Cqe) (w : World) : outcome World :=
  if cqe_user_data c =? OpIdIgnore then Ok w
  else '(ptr, t) ← tbl_remove (cqe_user_data c) (completers_ (queue w));
       let w := set_queue (set_completers t (queue w)) w in
       if ptr =? 0 then Ok w
       else w ← complete ptr (cqe_res c) w; delete_completer ptr w.

(** A completion nobody waits for changes nothing but the table's layout. *)
Lemma handle_nobody D (w : World) (B : budgets) σ N c cs :
  Inv None (None, D) w [] B σ N -> uring_cq (IoURing.ring_ (uring w)) = c :: cs ->
  σ !! cqe_user_data c = None ->
  exists t, handle_cqe c w = Ok (set_queue (set_completers t (queue w)) w) /\
    Inv None (Some (cqe_user_data c), D) (set_queue (set_completers t (queue w)) w) [] B σ N.
Proof.
  intros HI Hcq E. unfold handle_cqe. destruct (Z.eqb_spec (cqe_user_data c) OpIdIgnore) as [Hign|Hnign].
  - exists (table w). assert (set_queue (set_completers (table w) (queue w)) w = w) as ->
      by (unfold table; by destruct w as [[] ? ? ? ?]).
    split; [done|]. split; [apply HI..|]. split; [|intros id [= <-]; by exists c, cs].
    intros id [[= <-]|Hid]; [|exact (proj1 (inv_consume _ _ _ _ _ _ _ HI) id (or_intror Hid))].
    split; [by right|]. split; [done|].
    intros f b. by apply (idle_no_handles _ _ _ _ _ _ _ _ _ HI).
  - destruct (tbl_remove_spec (table w) σ (cqe_user_data c)) as (t & Hrm & Hrep & Hcap);
      [apply HI|].
    pose proof (consume_start D w t B σ N c cs HI Hcq Hrep Hcap) as HI3.
    rewrite E in HI3, Hrm. rewrite delete_id in HI3 by done. exists t.
    unfold table in Hrm. by rewrite Hrm.
Qed.

(** A completion somebody waits for: his completer is taken and completed. *)
Lemma handle_awaited D (w : World) (B : budgets) σ N c cs p :
  Inv None (None, D) w [] B σ N -> uring_cq (IoURing.ring_ (uring w)) = c :: cs ->
  σ !! cqe_user_data c = Some p ->
  exists t f a, completers w !! p = Some f /\ frames w !! f = Some (Suspended a) /\
    operation a = mkHandle true (cqe_user_data c) /\
    handle_cqe c w =
      (w1 ← complete p (cqe_res c) (set_queue (set_completers t (queue w)) w);
       delete_completer p w1) /\
    Inv (Some p) (Some (cqe_user_data c), D) (set_queue (set_completers t (queue w)) w) [] B
      (delete (cqe_user_data c) σ) N.
Proof.
  intros HI Hcq E. pose proof (inv_table _ _ _ _ _ _ _ HI) as HT.
  destruct (inv_key _ _ _ _ HT _ _ E) as (Hp0 & Hni & _ & f & a & Hpf & Hfa & Hop).
  destruct (tbl_remove_spec (table w) σ (cqe_user_data c)) as (t & Hrm & Hrep & Hcap); [apply HT|].
  pose proof (consume_start D w t B σ N c cs HI Hcq Hrep Hcap) as HI3. rewrite E in HI3, Hrm.
  exists t, f, a. split_and!; try done. unfold handle_cqe.
  rewrite (proj2 (Z.eqb_neq _ _) Hni). unfold table in Hrm. rewrite Hrm.
  cbn [mbind outcome_bind default]. cbn zeta. change (Datatypes.id p) with p.
  by rewrite (proj2 (Z.eqb_neq p 0)).
Qed.

Lemma handle_inv D (w : World) (B : budgets) σ N c cs :
  Inv None (None, D) w [] B σ N -> uring_cq (IoURing.ring_ (uring w)) = c :: cs ->
  exists w' B' σ', handle_cqe c w = Ok w' /\ Inv None (Some (cqe_user_data c), D) w' [] B' σ' N.
Proof.
  intros HI Hcq. destruct (σ !! cqe_user_data c) as [p|] eqn:E.
  - destruct (handle_awaited D w B σ N c cs p HI Hcq E) as (t & f & a & Hp & Hf & Hop & -> & HI3).
    destruct (complete_inv D _ B _ N _ p f a (cqe_res c) HI3 Hp Hf Hop)
      as (w4 & w5 & B5 & σ5 & -> & H5 & HI5).
    cbn [mbind outcome_bind]. by exists w5, B5, σ5.
  - destruct (handle_nobody D w B σ N c cs HI Hcq E) as (t & -> & HI'). by eexists _, B, σ.
Qed.

Lemma run_body_inv D (w : World) (B : budgets) σ N :
  Inv None (None, D) w [] B σ N ->
  exists w' B' σ' N', run_body w = Ok w' /\ Inv None (None, D) w' [] B' σ' N' /\
    (N' <= N)%nat /\ (delivers w -> (N' < N)%nat).
Proof.
  intros HI. destruct (submit_step D w B σ N HI) as (res & u1 & w1 & Hs & Hw1 & HI1 & Hdel).
  unfold run_body. cbn [queue set_queue]. rewrite Hs. cbn [mbind outcome_bind].
  rewrite <- Hw1. destruct (Z.ltb_spec res 0) as [Hneg|Hpos].
  { exists w1, B, σ, N. split; [done|]. split; [done|]. split; [done|]. intros Hd.
    destruct (Hdel Hd). lia. }
  destruct (peek_ok (uring w1) (inv_ready _ _ _ (inv_ring _ _ _ _ _ _ _ HI1)))
    as (u2 & Hp & Hun).
  unfold uring at 1 in Hp. rewrite Hp. cbn [mbind outcome_bind].
  assert (Inv None (None, D) (set_uring u2 w1) [] B σ N) as HI2.
  { apply inv_uring; [done|apply Hun| |done..].
    exact (reflexive_eq _ _ (outstanding_unchanged _ _ Hun)). }
  pose proof (unchanged_cq _ _ Hun) as Hcq2.
  destruct (uring_cq (IoURing.ring_ (uring w1))) as [|c cs] eqn:Hcq; cbn [head].
  { exists (set_uring u2 w1), B, σ, N. split; [done|]. split; [done|]. split; [done|].
    intros Hd. by destruct (Hdel Hd). }
  set (w2 := set_uring u2 w1) in *.
  destruct (handle_inv D w2 B σ N c cs HI2 Hcq2) as (w3 & B3 & σ3 & Heq & HI3).
  destruct (consume_end D w3 B3 σ3 N _ HI3) as (u4 & N' & Hadv & HN & HI4).
  exists (set_uring u4 w3), B3, σ3, N'. split; [|split; [done|split; [lia|done]]].
  unfold handle_cqe in Heq. cbn zeta in Heq |- *. rewrite Heq. cbn [mbind outcome_bind].
  unfold uring in Hadv. by rewrite Hadv.
Qed.

End Safety.
End QueueSafety.
