(* ===== verification/QueueRun.v ===== *)
(** * Running the I/O queue

    What [run] does with each completion, that it never breaks an assertion or
    touches a dead object for the coroutines the discipline allows, that it
    returns, and what cancelling a handler is worth. *)

From Stdlib Require Import ZArith Lia.
From stdpp Require Import base numbers list gmap option.
From S2P Require Import Prelude Interfaces Uring Queue QueueRing QueueSafety.

Local Open Scope Z_scope.

Module QueueRun.
Import IoQueue QueueRing QueueSafety.

Section Run.
Context {R : Type} `{!LibUring R} `{!LibUringSpec R}.
Context {T : Type} `{!CompleterTable T} `{!CompleterTableSpec T}.
Context {allocator : Allocator}.

Abbreviation World := (World R T).
Abbreviation budgets := (gmap Z Budget).

(** ** A new queue *)

Lemma make_ok size u q :
  0 <= size < 196613 -> make (R := R) (T := T) size u = Ok (Some q) ->
  IoURing.ready (ring_ q) /\ outstanding (ring_ q) = [] /\ nextOpId_ q = 0 /\
  lastSqe_ q = None /\ tbl_rep (completers_ q) ∅ /\ size < tbl_capacity (completers_ q).
Proof.
  intros Hsize. unfold make. destruct (tbl_make_spec size Hsize) as (t & -> & Hrep & Hcap).
  cbn [mbind outcome_bind]. unfold init. cbn [completers_ ring_].
  destruct (IoURing.init (tbl_capacity t) false u) as [ok u'] eqn:Hinit.
  destruct ok; cbn [negb]; [|done].
  destruct (IoURing.init_ready _ _ _ _ Hinit) as (Hr & Hsq & Hin & Hcq & _).
  destruct (negb (has _ IORING_FEAT_NODROP)); [done|].
  destruct (negb (has _ IORING_FEAT_SUBMIT_STABLE)); [done|].
  intros [= <-]. cbn. unfold outstanding. by rewrite Hsq, Hin, Hcq.
Qed.

Lemma new_world_inv D (q : IoQueue R T) :
  IoURing.ready (ring_ q) -> outstanding (ring_ q) = [] -> nextOpId_ q = 0 ->
  tbl_rep (completers_ q) ∅ -> 0 <= tbl_capacity (completers_ q) -> D = ∅ ->
  Inv None (None, D) (new_world q) [] ∅ ∅ 0.
Proof.
  intros Hr Ho Hn Ht Hc ->. split.
  - split; unfold uring, nextId; cbn; rewrite ?Hn, ?Ho, ?msum_empty; cbn; try done; try lia.
    + by intros id Hid%elem_of_nil.
    + constructor.
  - split; unfold uring, table; cbn; rewrite ?msum_empty; done.
  - split; cbn; try done; try (intros ? Hx; by apply elem_of_nil in Hx).
    + intros f. split; [done|]. by intros Hx%elem_of_nil.
    + constructor.
    + intros f [s Hs]. done.
  - split; [|done]. cbn. intros id [?|Hid]; [done|]. set_solver.
Qed.

Lemma start_frames (w : World) (B : budgets) b :
  FrameInv w [] B -> b_handles b = ∅ -> b_children b = ∅ ->
  FrameInv (with_new_frame w) [nextFrame w] (<[nextFrame w := b]> B).
Proof.
  intros HF Hh Hch. destruct (new_frame_unknown w [] B HF) as (Hfn & HBn & _ & Hcn).
  destruct HF as [Hsu Hru Hbu Hrb Hnd Hdi Hchi Hfr _].
  set (c := nextFrame w) in *.
  split; cbn [with_new_frame frames nextFrame]; fold c.
  - intros f a [[<- Ha]|[Hne Ha]]%lookup_insert_Some; [done|].
    rewrite lookup_insert_ne by done. eauto.
  - intros f. rewrite list_elem_of_singleton. destruct (decide (f = c)) as [->|Hne].
    + by rewrite lookup_insert_eq.
    + rewrite lookup_insert_ne by done. split; [|done]. by intros Hx%Hru%elem_of_nil.
  - intros f bf [[<- <-]|[Hne Hf]]%lookup_insert_Some; [left; by left|].
    destruct (Hbu f bf Hf) as [Hx%elem_of_nil|[a Ha]]; [done|]. right. exists a.
    by rewrite lookup_insert_ne.
  - intros f ->%list_elem_of_singleton. by rewrite lookup_insert_eq.
  - apply list.NoDup_singleton.
  - intros f g bf bg Hne Hf Hg.
    apply lookup_insert_Some in Hf as [[<- <-]|[_ Hf]];
      apply lookup_insert_Some in Hg as [[<- <-]|[_ Hg]]; [done| | |eauto];
      rewrite Hh, Hch; set_solver.
  - intros f bf x [[<- <-]|[_ Hf]]%lookup_insert_Some Hx; [set_solver|].
    apply lookup_insert_is_Some'. right. eauto.
  - intros f [<-|Hf]%lookup_insert_is_Some'; [lia|]. specialize (Hfr f Hf). lia.
  - split; [|done]. intros bf x [[_ <-]|[? _]]%lookup_insert_Some Hx; [set_solver|done].
Qed.

(** There is room for one more coroutine of budget [b]. *)
Definition affords (w : World) (B : budgets) (b : Budget) : Prop :=
  b_handles b = ∅ /\ b_children b = ∅ /\
  nextId w + Z.of_nat (msum b_sqes B + b_sqes b) <= 2 ^ 63 /\
  Z.of_nat (msum b_waits B + b_waits b) <= tbl_capacity (table w).

Lemma start_push C (w : World) (B : budgets) σ N b :
  Inv None C w [] B σ N -> affords w B b ->
  Inv None C (with_new_frame w) [nextFrame w] (<[nextFrame w := b]> B) σ (N + b_sqes b).
Proof.
  intros [[H1 H2 H3 H4 H5 H6] [T1 T2 T3 T4 T5 T6] HF HC] (Hh & Hch & Hid & Hcap).
  destruct (new_frame_unknown w [] B HF) as (Hfn & HBn & _ & Hcn).
  pose proof (msum_insert_new b_sqes B (nextFrame w) b HBn) as Hs1.
  pose proof (msum_insert_new b_waits B (nextFrame w) b HBn) as Hs2.
  assert (Hb : forall f b', <[nextFrame w := b]> B !! f = Some b' ->
    (b_handles b' = ∅ /\ b_children b' = ∅) \/ (f <> nextFrame w /\ B !! f = Some b')).
  { intros f b' [[<- <-]|[Hne Hf]]%lookup_insert_Some; [by left|by right]. }
  split.
  - split; unfold uring, nextId in *; cbn; try done; try lia.
    intros f b' id Hf Hid'. destruct (Hb f b' Hf) as [[He _]|[_ ?]]; [set_solver|eauto].
  - split; unfold uring, table in *; cbn; try done; try lia.
    + intros k p0 Hk. destruct (T3 k p0 Hk) as (? & ? & ? & f & a & ? & Hf & ?).
      split; [done|]. split; [done|]. split; [done|]. exists f, a.
      rewrite lookup_insert_ne; [done|congruence].
    + intros f b' id Hf Hid'. destruct (Hb f b' Hf) as [[He _]|[_ ?]]; [set_solver|eauto].
  - by apply start_frames.
  - destruct HC as [HD Hcq]. split; [|done]. intros id Hid'.
    destruct (HD id Hid') as (? & ? & ?). split; [done|]. split; [done|].
    intros f b' Hf. destruct (Hb f b' Hf) as [[He _]|[_ ?]]; [set_solver|eauto].
Qed.

Lemma start_inv C (w : World) (B : budgets) σ N b p :
  Inv None C w [] B σ N -> affords w B b -> wf p b None ->
  exists w' B' σ', start p w = Ok w' /\ Inv None C w' [] B' σ' (N + b_sqes b).
Proof.
  intros HI Ha Hwf.
  destruct (exec_inv _ _ _ p (nextFrame w) _ [] _ σ b None (start_push C w B σ N b HI Ha)
    (lookup_insert_eq _ _ _) Hwf I) as (w' & B' & σ' & Hex & HI' & _).
  by exists w', B', σ'.
Qed.

(** ** The run loop *)

Lemma run_inv fuel : forall D (w : World) (B : budgets) σ N,
  Inv None (None, D) w [] B σ N ->
  exists o, run fuel w = Ok o /\
    forall w', o = Some w' -> tbl_size (table w') = 0 /\
      exists B' σ' N', Inv None (None, D) w' [] B' σ' N'.
Proof.
  induction fuel as [|fuel IH]; intros D w B σ N HI; cbn [run].
  all: pose proof (tbl_size_spec _ _ (inv_rep _ _ _ _ (inv_table _ _ _ _ _ _ _ HI))) as Hsz;
    fold (table w) in *; destruct (Z.ltb_spec 0 (tbl_size (table w))) as [Hpos|Hle].
  - by exists None.
  - exists (Some w). split; [done|]. intros w' [= <-]. split; [lia|by exists B, σ, N].
  - destruct (run_body_inv D w B σ N HI) as (w1 & B1 & σ1 & N1 & -> & HI1 & _).
    cbn [mbind outcome_bind]. by eapply IH.
  - exists (Some w). split; [done|]. intros w' [= <-]. split; [lia|by exists B, σ, N].
Qed.

(** When the queue waits for something, there is something to wait for. *)
Lemma waiting_delivers `{!ReliableRing R} X C (w : World) L (B : budgets) σ N :
  Inv X C w L B σ N -> 0 < tbl_size (table w) -> delivers w.
Proof.
  intros HI Hpos. pose proof (inv_table _ _ _ _ _ _ _ HI) as HT.
  rewrite (tbl_size_spec _ _ (inv_rep _ _ _ _ HT)) in Hpos.
  destruct (decide (σ = ∅)) as [->|Hne]; [rewrite map_size_empty in Hpos; lia|].
  destruct (map_choose σ Hne) as (k & p & Hk).
  destruct (inv_key _ _ _ _ HT k p Hk) as (_ & _ & Hin & _).
  unfold delivers. pose proof (submit_waits (IoURing.sqes (uring w)) (IoURing.ring_ (uring w))) as Hs.
  destruct (io_uring_submit_and_wait _ _ _) as [res r]. destruct Hs as [Hres Hs].
  split; [done|]. apply Hs. unfold outstanding in Hin.
  rewrite !elem_of_app, !list_elem_of_fmap in Hin.
  destruct Hin as [(x & _ & Hx)|[(x & _ & Hx)|(x & _ & Hx)]];
    [left|right; left|right; right]; intros Heq; rewrite Heq in Hx; by apply elem_of_nil in Hx.
Qed.

Lemma run_total `{!ReliableRing R} fuel : forall D (w : World) (B : budgets) σ N,
  Inv None (None, D) w [] B σ N -> (N <= fuel)%nat ->
  exists w' B' N', run fuel w = Ok (Some w') /\ Inv None (None, D) w' [] B' ∅ N'.
Proof.
  induction fuel as [|fuel IH]; intros D w B σ N HI HN; cbn [run].
  all: pose proof (tbl_size_spec _ _ (inv_rep _ _ _ _ (inv_table _ _ _ _ _ _ _ HI))) as Hsz;
    fold (table w) in *; destruct (Z.ltb_spec 0 (tbl_size (table w))) as [Hpos|Hle].
  1, 3: pose proof (waiting_delivers _ _ _ _ _ _ _ HI Hpos) as Hdel;
    destruct (run_body_inv D w B σ N HI) as (w1 & B1 & σ1 & N1 & Hrb & HI1 & _ & Hlt);
    specialize (Hlt Hdel); first [exfalso; lia|rewrite Hrb; eapply IH; [exact HI1|lia]].
  all: assert (σ = ∅) as -> by (apply map_size_empty_inv; lia); by exists w, B, N.
Qed.

Lemma empty_table_no_completers C (w : World) L (B : budgets) N :
  Inv None C w L B ∅ N -> completers w = ∅.
Proof.
  intros HI. apply map_empty. intros p.
  destruct (completers w !! p) as [f|] eqn:E; [|done].
  by destruct (inv_heap _ _ _ _ (inv_table _ _ _ _ _ _ _ HI) p f E) as (_ & [?|(k & Hk)]).
Qed.

(** A fresh queue on which a disciplined coroutine was started. *)
Lemma make_start size u q n m p :
  0 <= size < 196613 -> make (R := R) (T := T) size u = Ok (Some q) ->
  Z.of_nat n <= 2 ^ 63 -> Z.of_nat m <= size + 1 ->
  wf p (mkBudget n m ∅ ∅) None ->
  exists w B σ, start p (new_world q) = Ok w /\ Inv None (None, ∅) w [] B σ n.
Proof.
  intros Hsize Hmake Hn Hm Hwf.
  destruct (make_ok size u q Hsize Hmake) as (Hr & Ho & Hid & _ & Hrep & Hcap).
  assert (Inv None (None, ∅) (new_world q) [] ∅ ∅ 0) as HI by (apply new_world_inv; done || lia).
  destruct (start_inv _ _ ∅ ∅ 0 (mkBudget n m ∅ ∅) p HI) as (w & B & σ & Hs & HI');
    [|done|].
  { unfold affords, nextId, table. cbn. rewrite !msum_empty, Hid. repeat split; lia. }
  by exists w, B, σ.
Qed.

(** C2: No assertion fails and no dead object is used: a queue of [size] runs any
    coroutine, with all the coroutines it spawns, cancels and destroys, as long as
    at most [size + 1] operations are awaited at a time, handles are awaited
    before the next suspension and [linkTimeout] follows its operation - whatever
    results the kernel reports, and however many submissions fail. *)
Theorem ioqueue_safe size u q n m p :
  0 <= size < 196613 -> make (R := R) (T := T) size u = Ok (Some q) ->
  Z.of_nat n <= 2 ^ 63 -> Z.of_nat m <= size + 1 ->
  wf p (mkBudget n m ∅ ∅) None ->
  exists w, start p (new_world q) = Ok w /\ forall fuel, exists o, run fuel w = Ok o.
Proof.
  intros Hsize Hmake Hn Hm Hwf.
  destruct (make_start size u q n m p Hsize Hmake Hn Hm Hwf) as (w & B & σ & Hs & HI).
  exists w. split; [done|]. intros fuel.
  destruct (run_inv fuel _ w B σ n HI) as (o & Ho & _). by exists o.
Qed.

(** C3: [run] returns, after at most one iteration per entry prepared, when the
    kernel completes what is waited for; then no completer is left in the table
    or on the heap. *)
Theorem ioqueue_terminates `{!ReliableRing R} size u q n m p :
  0 <= size < 196613 -> make (R := R) (T := T) size u = Ok (Some q) ->
  Z.of_nat n <= 2 ^ 63 -> Z.of_nat m <= size + 1 ->
  wf p (mkBudget n m ∅ ∅) None ->
  exists w w', start p (new_world q) = Ok w /\ run n w = Ok (Some w') /\
    tbl_size (table w') = 0 /\ completers w' = ∅.
Proof.
  intros Hsize Hmake Hn Hm Hwf.
  destruct (make_start size u q n m p Hsize Hmake Hn Hm Hwf) as (w & B & σ & Hs & HI).
  destruct (run_total n _ w B σ n HI ltac:(done)) as (w' & B' & N' & Hrun & HI').
  exists w, w'. split; [done|]. split; [done|]. split.
  - by rewrite (tbl_size_spec _ _ (inv_rep _ _ _ _ (inv_table _ _ _ _ _ _ _ HI'))), map_size_empty.
  - by eapply empty_table_no_completers.
Qed.

(** ** What one iteration does *)

(** The loop body once [c] is found at the head of the completion queue. *)
Definition consume (c : Cqe) (w : World) : outcome World :=
  w ← (if cqe_user_data c =? OpIdIgnore then Ok w
       else
         '(ptr, t) ← tbl_remove (cqe_user_data c) (completers_ (queue w));
         let w := set_queue (set_completers t (queue w)) w in
         if ptr =? 0 then Ok w
         else w ← complete ptr (cqe_res c) w; delete_completer ptr w);
  u ← IoURing.advanceCq 1 (ring_ (queue w));
  Ok (set_uring u w).

(** [w1] is [w] after the ring made progress. *)
Definition ring_step (w w1 : World) : Prop :=
  frames w1 = frames w /\ completers w1 = completers w /\ table w1 = table w /\
  nextFrame w1 = nextFrame w /\ nextId w1 = nextId w /\ lastSqe_ (queue w1) = None.

Lemma run_body_split D (w : World) (B : budgets) σ N :
  Inv None (None, D) w [] B σ N ->
  exists w1, Inv None (None, D) w1 [] B σ N /\ ring_step w w1 /\
    ((run_body w = Ok w1 /\ ~ delivers w) \/
     exists c cs, uring_cq (IoURing.ring_ (uring w1)) = c :: cs /\ run_body w = consume c w1).
Proof.
  intros HI. destruct (submit_step D w B σ N HI) as (res & u1 & w1 & Hs & Hw1 & HI1 & Hdel).
  unfold run_body. cbn [queue set_queue]. rewrite Hs. cbn [mbind outcome_bind].
  rewrite <- Hw1. assert (ring_step w w1) as Hst by by subst w1.
  destruct (Z.ltb_spec res 0) as [Hneg|Hpos].
  { exists w1. split; [done|]. split; [done|]. left. split; [done|]. intros Hd.
    destruct (Hdel Hd). lia. }
  destruct (peek_ok (uring w1) (inv_ready _ _ _ (inv_ring _ _ _ _ _ _ _ HI1)))
    as (u2 & Hp & Hun).
  unfold uring at 1 in Hp. rewrite Hp. cbn [mbind outcome_bind].
  exists (set_uring u2 w1). split; [|split; [done|]].
  { apply inv_uring; [done|apply Hun| |done..].
    exact (reflexive_eq _ _ (outstanding_unchanged _ _ Hun)). }
  pose proof (unchanged_cq _ _ Hun) as Hcq2.
  destruct (uring_cq (IoURing.ring_ (uring w1))) as [|c cs] eqn:Hcq; cbn [head].
  - left. split; [done|]. intros Hd. by destruct (Hdel Hd).
  - right. exists c, cs. done.
Qed.

(** Consuming a completion: what is known about the awaiter, if any. *)
Lemma consume_cases D (w : World) (B : budgets) σ N c cs :
  Inv None (None, D) w [] B σ N -> uring_cq (IoURing.ring_ (uring w)) = c :: cs ->
  match σ !! cqe_user_data c with
  | None => exists w2, consume c w = Ok w2 /\ frames w2 = frames w /\
      completers w2 = completers w /\ tbl_rep (table w2) σ /\ nextFrame w2 = nextFrame w /\
      uring_cq (IoURing.ring_ (uring w2)) = cs
  | Some p => exists f a t,
      completers w !! p = Some f /\ frames w !! f = Some (Suspended a) /\
      operation a = mkHandle true (cqe_user_data c) /\
      tbl_rep t (delete (cqe_user_data c) σ) /\
      consume c w =
        (w2 ← exec f (caller a (cqe_res c))
           (set_frame f Running (set_queue (set_completers t (queue w)) w));
         w3 ← delete_completer p w2;
         u ← IoURing.advanceCq 1 (ring_ (queue w3)); Ok (set_uring u w3))
  end.
Proof.
  intros HI Hcq. pose proof (inv_table _ _ _ _ _ _ _ HI) as HT.
  pose proof (inv_ready _ _ _ (inv_ring _ _ _ _ _ _ _ HI)) as Hr.
  destruct (advance_ok (uring w) c cs Hr Hcq) as (u & Hadv & _ & Hcq' & _).
  unfold uring in Hadv. unfold consume.
  destruct (tbl_remove_spec (table w) σ (cqe_user_data c)) as (t & Hrm & Hrep & _); [apply HT|].
  unfold table in Hrm.
  destruct (σ !! cqe_user_data c) as [p|] eqn:E.
  - destruct (inv_key _ _ _ _ HT _ _ E) as (Hp0 & Hni & _ & f & a & Hpf & Hfa & Hop).
    exists f, a, t. split; [done|]. split; [done|]. split; [done|]. split; [done|].
    rewrite (proj2 (Z.eqb_neq _ _) Hni), Hrm. cbn [mbind outcome_bind]. cbn zeta.
    change (default 0 (Some p)) with p. rewrite (proj2 (Z.eqb_neq p 0)) by done.
    unfold complete. cbn [completers frames set_queue].
    rewrite Hpf. cbn [deref mbind outcome_bind]. rewrite Hfa. cbn [deref mbind outcome_bind].
    change (destroy_awaiter _ ?x) with (Ok x). cbn [mbind outcome_bind caller result].
    by destruct (exec f _ _).
  - rewrite delete_id in Hrep by done.
    destruct (Z.eqb_spec (cqe_user_data c) OpIdIgnore) as [Hign|Hnign].
    + exists (set_uring u w). cbn [mbind outcome_bind]. rewrite Hadv.
      repeat split; try done. apply HT.
    + exists (set_uring u (set_queue (set_completers t (queue w)) w)).
      rewrite Hrm. cbn. rewrite Hadv. done.
Qed.

(** What an iteration does, in full.  Without a completion nothing but the ring
    changes.  A completion nobody awaits (its handler was cancelled, or it belongs
    to a cancel or link-timeout request) is dropped.  Otherwise exactly the
    coroutine that awaits this operation is resumed, with the kernel's result, its
    completer is taken out of the table before and freed after, and the completion
    is consumed last. *)
Theorem run_dispatch D (w : World) (B : budgets) σ N :
  Inv None (None, D) w [] B σ N ->
  exists w1, ring_step w w1 /\
    ((run_body w = Ok w1 /\ ~ delivers w) \/
     exists c cs, uring_cq (IoURing.ring_ (uring w1)) = c :: cs /\
      match σ !! cqe_user_data c with
      | None => exists w2, run_body w = Ok w2 /\ frames w2 = frames w /\
          completers w2 = completers w /\ tbl_rep (table w2) σ /\
          uring_cq (IoURing.ring_ (uring w2)) = cs
      | Some p => exists f a t,
          completers w !! p = Some f /\ frames w !! f = Some (Suspended a) /\
          operation a = mkHandle true (cqe_user_data c) /\
          tbl_rep t (delete (cqe_user_data c) σ) /\
          run_body w =
            (w2 ← exec f (caller a (cqe_res c))
               (set_frame f Running (set_queue (set_completers t (queue w1)) w1));
             w3 ← delete_completer p w2;
             u ← IoURing.advanceCq 1 (ring_ (queue w3)); Ok (set_uring u w3))
      end).
Proof.
  intros HI. destruct (run_body_split D w B σ N HI) as (w1 & HI1 & Hst & Hcase).
  exists w1. split; [done|]. destruct Hcase as [?|(c & cs & Hcq & ->)]; [by left|right].
  exists c, cs. split; [done|]. pose proof (consume_cases D w1 B σ N c cs HI1 Hcq) as Hc.
  destruct Hst as (Hf & Hh & _).
  destruct (σ !! cqe_user_data c) as [p|].
  - destruct Hc as (f & a & t & Hp & Hfa & Hop & Hrep & Heq). exists f, a, t.
    by rewrite <- Hh, <- Hf.
  - destruct Hc as (w2 & Heq & Hf2 & Hh2 & Hrep & _ & Hcq2). exists w2.
    by rewrite <- Hf, <- Hh.
Qed.

(** ** Limits of the queue *)

(** The completer table is the limit of the queue, not the submission queue:
    when [capacity()] operations are awaited, the next [co_await] fails an
    assertion, however many entries [getCapacity()] still promises. *)
Theorem await_table_full f op k (w : World) σ :
  valid op = true -> tbl_rep (table w) σ ->
  tbl_capacity (table w) <= Z.of_nat (size σ) ->
  await f op k w = Crash AssertFailed.
Proof.
  intros Hv Hrep Hfull. unfold await. rewrite !cassert_bind by done.
  unfold setCompleter. cbn [queue set_frame frames completers allocs nextFrame].
  unfold table in *. by rewrite (tbl_insert_full _ σ) by done.
Qed.

(** A queue on which only an ignored operation is awaited. *)
Definition waits_for_ignored (p : Z) (w : World) : Prop :=
  IoURing.ready (uring w) /\ tbl_rep (table w) {[OpIdIgnore := p]}.

Lemma ignored_step p (w : World) :
  waits_for_ignored p w -> exists w', run_body w = Ok w' /\ waits_for_ignored p w'.
Proof.
  intros [Hr Hrep]. destruct (submit_ok (uring w) Hr) as (res & u1 & Hs & Hr1 & _).
  unfold run_body. cbn [queue set_queue ring_ set_lastSqe]. unfold uring in Hs.
  rewrite Hs. cbn [mbind outcome_bind]. destruct (res <? 0); [by eexists|].
  destruct (peek_ok u1 Hr1) as (u2 & Hp & Hun). cbn [queue set_uring set_queue ring_ set_ring].
  rewrite Hp. cbn [mbind outcome_bind].
  destruct (uring_cq (IoURing.ring_ u1)) as [|c cs] eqn:Hcq; cbn [head].
  { eexists. split; [done|]. split; [apply Hun|done]. }
  destruct (advance_ok u2 c cs) as (u3 & Hadv & Hr3 & _);
    [apply Hun|by rewrite (unchanged_cq _ _ Hun)|].
  cbn [completers_ set_lastSqe set_ring].
  destruct (Z.eqb_spec (cqe_user_data c) OpIdIgnore) as [Hign|Hnign].
  - cbn. rewrite Hadv. cbn. eexists. split; [done|]. by split.
  - destruct (tbl_remove_spec (table w) _ (cqe_user_data c) Hrep) as (t & Hrm & Hrep' & _).
    unfold table in Hrm. rewrite Hrm. rewrite lookup_singleton_ne by done. cbn.
    rewrite Hadv. cbn. eexists. split; [done|]. split; [done|].
    unfold table. cbn. by rewrite delete_id in Hrep' by by rewrite lookup_singleton_ne.
Qed.

(** Awaiting the handle [cancel] returns is a deadlock: it carries the ignored
    id, whose completions [run] drops, so the coroutine is never resumed and [run]
    never returns. *)
Theorem await_ignored_hangs p (w : World) :
  waits_for_ignored p w -> forall fuel, run fuel w = Ok None.
Proof.
  intros Hw fuel. revert w Hw. induction fuel as [|fuel IH]; intros w Hw; cbn [run].
  all: destruct Hw as [Hr Hrep]; pose proof (tbl_size_spec _ _ Hrep) as Hsz;
    rewrite map_size_singleton in Hsz; unfold table in Hsz; rewrite Hsz; cbn [Z.ltb Z.compare Z.of_nat].
  - done.
  - destruct (ignored_step p w (conj Hr Hrep)) as (w' & -> & Hw').
    cbn [mbind outcome_bind]. by apply IH.
Qed.

End Run.
End QueueRun.
