(* ===== verification/QueueCalls.v ===== *)
(** * The members of the I/O queue that prepare entries

    Operation ids, the entry each member leaves in the submission queue, and the
    link between an operation and its timeout. *)

From Stdlib Require Import ZArith Lia.
From stdpp Require Import base numbers list gmap option.
From S2P Require Import Prelude Interfaces Uring Queue QueueRing.

Local Open Scope Z_scope.

Module QueueCalls.
Import IoQueue QueueRing.

Section Calls.
Context {R : Type} `{!LibUring R} `{!LibUringSpec R}.
Context {T : Type} `{!CompleterTable T}.
Context {allocator : Allocator}.

(** ** Operation ids *)

Fixpoint take_ids (n : nat) (q : IoQueue R T) : list Z * IoQueue R T :=
  match n with
  | O => ([], q)
  | S n =>
      let '(id, q) := getNextOpId q in
      let '(ids, q) := take_ids n q in (id :: ids, q)
  end.

Lemma getNextOpId_mod (q : IoQueue R T) :
  0 <= nextOpId_ q <= OpIdInvalid ->
  let id := (nextOpId_ q) mod (2 ^ 64 - 2) in
  getNextOpId q = (id, set_nextOpId (id + 1) q) /\ 0 <= id < OpIdInvalid.
Proof.
  unfold OpIdInvalid. intros H. cbn zeta. unfold getNextOpId, OpIdInvalid, OpIdIgnore.
  rewrite (proj2 (Z.eqb_neq (nextOpId_ q) U64MAX)), orb_false_r by lia.
  destruct (Z.eqb_spec (nextOpId_ q) (U64MAX - 1)) as [Heq|Hne].
  - replace (nextOpId_ q mod (2 ^ 64 - 2)) with 0
      by (rewrite Heq; symmetry; apply Z.mod_same; lia).
    rewrite u64_small by lia. split; [done|lia].
  - rewrite Z.mod_small by lia. rewrite u64_small by lia. split; [done|lia].
Qed.

Lemma take_ids_aux n : forall q : IoQueue R T,
  0 <= nextOpId_ q <= OpIdInvalid ->
  length (take_ids n q).1 = n /\
  forall i id, (take_ids n q).1 !! i = Some id ->
    id = (nextOpId_ q + Z.of_nat i) mod (2 ^ 64 - 2).
Proof.
  induction n as [|n IH]; intros q Hq; cbn [take_ids]; [by split|].
  destruct (getNextOpId_mod q Hq) as [-> Hid]. set (id0 := nextOpId_ q mod _) in *.
  destruct (IH (set_nextOpId (id0 + 1) q)) as [Hlen Hids]; [cbn; lia|].
  destruct (take_ids n _) as [ids q']. cbn in *. split; [by rewrite Hlen|].
  intros [|i] id; cbn.
  - intros [= <-]. by rewrite Z.add_0_r.
  - intros ->%Hids. subst id0. rewrite <- Z.add_assoc, Z.add_mod_idemp_l by lia.
    f_equal. lia.
Qed.

(** C31: Operation ids count up from 0 and start over after [2^64 - 3]: no id is one
    of the magic values, and any [2^64 - 2] calls in a row give distinct ids. *)
Theorem operation_ids n (q : IoQueue R T) :
  0 <= nextOpId_ q <= OpIdInvalid ->
  let ids := (take_ids n q).1 in
  length ids = n /\
  (forall i id, ids !! i = Some id -> id = (nextOpId_ q + Z.of_nat i) mod (2 ^ 64 - 2)) /\
  (forall id, id ∈ ids -> id <> OpIdInvalid /\ id <> OpIdIgnore) /\
  (Z.of_nat n <= 2 ^ 64 - 2 -> NoDup ids).
Proof.
  intros Hq. cbn zeta. destruct (take_ids_aux n q Hq) as [Hlen Hids].
  split; [done|]. split; [done|]. split.
  - intros id [i Hi]%list_elem_of_lookup. rewrite (Hids i id Hi).
    pose proof (Z.mod_pos_bound (nextOpId_ q + Z.of_nat i) (2 ^ 64 - 2) ltac:(lia)).
    unfold OpIdInvalid, OpIdIgnore. lia.
  - intros Hn. apply NoDup_alt. intros i j id Hi Hj.
    pose proof (lookup_lt_Some _ _ _ Hi). pose proof (lookup_lt_Some _ _ _ Hj).
    pose proof (Hids i id Hi) as E1. rewrite (Hids j id Hj) in E1.
    set (a := nextOpId_ q) in *.
    pose proof (Z.div_mod (a + Z.of_nat i) (2 ^ 64 - 2) ltac:(lia)).
    pose proof (Z.div_mod (a + Z.of_nat j) (2 ^ 64 - 2) ltac:(lia)).
    rewrite E1 in *. nia.
Qed.

(** ** Entries *)

(** A member that prepares an operation either appends one entry to the
    submission queue, which is the request of its arguments under the next
    operation id, and returns the handle with that id; or, exactly when the
    submission queue is full, returns the invalid handle and writes no entry. *)
Theorem call_appends_entry c (w : World R T) :
  IoURing.ready (ring_ (queue w)) -> id_ok (nextOpId_ (queue w)) ->
  exists h w', invoke c w = Ok (h, w') /\
    completers_ (queue w') = completers_ (queue w) /\
    nextOpId_ (queue w') = nextOpId_ (queue w) + 1 /\
    if 0 <? IoURing.getSqeCapacity (ring_ (queue w)) then
      exists p, h = mkHandle true (nextOpId_ (queue w)) /\ valid h = true /\
        pushed p (set_user_data (nextOpId_ (queue w)) (IoURing.encode (R := R) (request_of c)))
          (ring_ (queue w)) (ring_ (queue w'))
    else h = defaultHandle /\ valid h = false /\
      outstanding (ring_ (queue w')) ≡ₚ outstanding (ring_ (queue w)).
Proof.
  intros Hr Hid. destruct (invoke_ok c w Hr Hid) as (h & q' & Heq & Hcase).
  exists h, (set_queue q' w). split; [done|]. cbn [queue set_queue].
  destruct Hcase as [(p & -> & Hq & _ & _ & Hp)|(-> & [Hcap _] & Hq & _)].
  - split; [apply Hq|]. split; [apply Hq|].
    rewrite (proj2 (Z.ltb_lt _ _) (pushed_room _ _ _ _ Hp)). exists p.
    split; [done|]. split; [by apply valid_ok|done].
  - split; [apply Hq|]. split; [apply Hq|]. rewrite Hcap. cbn [Z.ltb Z.compare].
    split; [done|]. split; [done|]. destruct Hq as [_ Ho _ _ _]. done.
Qed.

(** ** Link timeouts *)

Lemma link_flag_entry p (u : IoURing.IoURing R) :
  IoURing.sqes (link_flag p u) p =
    set_flags (Z.lor (Uring.flags (IoURing.sqes u p)) IOSQE_IO_LINK) (IoURing.sqes u p).
Proof. unfold link_flag. by rewrite IoURing.write_sqe_same. Qed.

Lemma encode_flags c : Uring.flags (IoURing.encode (R := R) (request_of c)) = 0.
Proof. by destruct c. Qed.

Lemma set_user_data_flags id s : Uring.flags (set_user_data id s) = Uring.flags s.
Proof. done. Qed.

(** The entry of an operation linked to the one after it. *)
Definition linked (id : Z) (c : call) : Sqe :=
  set_flags IOSQE_IO_LINK (set_user_data id (IoURing.encode (R := R) (request_of c))).

(** C32: A timeout requested right after its operation follows it directly in the
    submission queue, under the ignored id, and only the operation's entry carries
    the link flag.  When the queue has no entry left for the timeout, the operation
    stays submitted with its link flag set and the caller gets an invalid handle,
    so awaiting the result fails the assertion in [co_await]. *)
Theorem link_timeout_follows c ts fl (w : World R T) :
  IoURing.ready (ring_ (queue w)) -> id_ok (nextOpId_ (queue w)) ->
  0 < IoURing.getSqeCapacity (ring_ (queue w)) ->
  let opid := nextOpId_ (queue w) in
  exists w1 h q p,
    invoke c w = Ok (mkHandle true opid, w1) /\
    linkTimeout ts fl (mkHandle true opid) (queue w1) = Ok (h, q) /\
    IoURing.sqes (ring_ q) p = linked opid c /\
    if 0 <? IoURing.getSqeCapacity (ring_ (queue w1)) then
      exists p', h = mkHandle true opid /\ p' <> p /\
        uring_sq (IoURing.ring_ (ring_ q)) =
          uring_sq (IoURing.ring_ (ring_ (queue w))) ++ [p; p'] /\
        IoURing.sqes (ring_ q) p' = set_user_data OpIdIgnore
          (IoURing.encode (R := R) (IoURing.LinkTimeout ts (u32 fl)))
    else
      h = defaultHandle /\
      uring_sq (IoURing.ring_ (ring_ q)) = uring_sq (IoURing.ring_ (ring_ (queue w))) ++ [p] /\
      forall f k, await f h k w1 = Crash AssertFailed.
Proof.
  intros Hr Hid Hcap opid. destruct (invoke_ok c w Hr Hid) as (h & q1 & Heq & Hcase).
  destruct Hcase as [(p & -> & Hq1 & _ & Hl & Hp)|(_ & [Hfull _] & _)]; [fold opid in Heq, Hq1, Hp|lia].
  pose proof (pushed_entry _ _ _ _ Hp) as Hentry. pose proof (pushed_ready _ _ _ _ Hp) as Hr1.
  destruct (linkTimeout_steps ts fl (mkHandle true opid) q1 p Hr1) as (o & h & q & Hlt & _ & _ & Ho);
    [by apply valid_ok|done|by rewrite Hentry|].
  assert (Hflag : IoURing.sqes (link_flag p (ring_ q1)) p = linked opid c).
  { rewrite link_flag_entry, Hentry, set_user_data_flags, encode_flags. done. }
  exists (set_queue q1 w), h, q, p. split; [done|]. split; [done|].
  destruct o as [p'|].
  - destruct Ho as (-> & _ & Hp').
    pose proof (pushed_fresh _ _ _ _ Hp') as Hfresh. cbn in Hfresh.
    rewrite (pushed_sq _ _ _ _ Hp) in Hfresh.
    assert (p' <> p) as Hne by (intros ->; apply Hfresh, elem_of_app; right; by left).
    split; [by rewrite (pushed_others _ _ _ _ Hp') by done|].
    pose proof (pushed_room _ _ _ _ Hp') as Hroom.
    change (0 < IoURing.getSqeCapacity (ring_ q1)) in Hroom.
    cbn [queue set_queue]. rewrite (proj2 (Z.ltb_lt _ _) Hroom).
    exists p'. split; [done|]. split; [done|]. split; [|apply Hp'].
    rewrite (pushed_sq _ _ _ _ Hp'). cbn. rewrite (pushed_sq _ _ _ _ Hp).
    by rewrite <- app_assoc.
  - destruct Ho as (-> & _ & Hun & Hfull & Hsqes).
    split; [by rewrite Hsqes|]. cbn [queue set_queue]. rewrite Hfull. cbn [Z.ltb Z.compare].
    split; [done|]. split; [|done].
    rewrite (unchanged_sq _ _ Hun). apply Hp.
Qed.

(** ** Tasks on a full queue *)

Lemma exec_full c f k (w : World R T) :
  IoURing.ready (ring_ (queue w)) -> id_ok (nextOpId_ (queue w)) ->
  IoURing.getSqeCapacity (ring_ (queue w)) = 0 ->
  exec f (Call c (fun h => Await h k)) w = Crash AssertFailed.
Proof.
  intros Hr Hid Hcap. destruct (invoke_ok c w Hr Hid) as (h & q' & Heq & Hcase).
  cbn [exec]. rewrite Heq. cbn [mbind outcome_bind].
  destruct Hcase as [(p & _ & _ & _ & _ & Hp)|(-> & _)]; [|done].
  pose proof (pushed_room _ _ _ _ Hp). lia.
Qed.

(** A member that returns a handle reports a full submission queue, but one
    that returns a task awaits the invalid handle itself: connecting by address,
    sending and receiving datagrams and sleeping abort the program instead. *)
Theorem tasks_abort_when_full f k (w : World R T) :
  IoURing.ready (ring_ (queue w)) -> id_ok (nextOpId_ (queue w)) ->
  IoURing.getSqeCapacity (ring_ (queue w)) = 0 ->
  (forall fd sa, exec f (connect_to fd sa k) w = Crash AssertFailed) /\
  (forall fd msg fl, exec f (recvfrom fd msg fl k) w = Crash AssertFailed) /\
  (forall fd msg fl, exec f (sendto fd msg fl k) w = Crash AssertFailed) /\
  (forall ts, exec f (timeout_for ts k) w = Crash AssertFailed) /\
  (forall ts, exec f (timeout_until (R := R) ts k) w = Crash AssertFailed).
Proof.
  intros Hr Hid Hcap. split_and!; intros;
    unfold connect_to, recvfrom, sendto, timeout_for, timeout_until; by apply exec_full.
Qed.

End Calls.
End QueueCalls.
