(* ===== verification/QueueExamples.v ===== *)
(** * The I/O queue on concrete programs

    The queue with the library's own completer table and a simple ring and
    allocator: the theorems' hypotheses hold there. *)

From Stdlib Require Import ZArith Lia.
From stdpp Require Import base numbers list gmap option.
From S2P Require Import Prelude Interfaces Completers Uring Queue QueueRing QueueSafety.
From S2P Require Import QueueRun QueueCalls.

Local Open Scope Z_scope.

Import IoQueue QueueRing QueueSafety.

#[local] Existing Instance CompleterMap.completer_table.
#[local] Existing Instance CompleterMap.completer_table_spec.

(** Any address that is free, not null and not the all-ones address. *)
Definition free_address (heap : gmap Z Z) : Z := fresh (dom heap ∪ {[0; U64MAX]}).

Lemma free_address_spec heap :
  heap !! free_address heap = None /\ storable (free_address heap).
Proof.
  pose proof (is_fresh (dom heap ∪ {[0; U64MAX]})) as H. fold (free_address heap) in H.
  split; [apply not_elem_of_dom; set_solver|]. unfold storable. set_solver.
Qed.

#[local] Instance free_address_allocator : Allocator :=
  { new_completer _ heap := free_address heap;
    new_completer_spec _ heap := free_address_spec heap }.

Abbreviation World := (World SimRing.SimRing CompleterMap.CompleterMap).

(** Awaits the operation, when there was an entry for it. *)
Definition await_if (h : OperationHandle) (k : Z -> prog) : prog :=
  if valid h then Await h k else Ret.

(** An echo with a time limit, an accept that is given up, and a cancelled read. *)
Definition echo : prog :=
  Call (Recv 5 100 16) (fun h =>
    if valid h then LinkTimeout 900 0 h (fun h' =>
      await_if h' (fun r => Call (Send 5 100 r) (fun h2 => await_if h2 (fun _ => Ret))))
    else Ret).

Definition accept_once : prog :=
  Call (Accept 3 0 0) (fun h => await_if h (fun _ => Ret)).

Definition cancelled_read : prog :=
  Call (Read 7 200 8) (fun h =>
    if valid h then Cancel h true (fun _ => await_if h (fun _ => Ret)) else Ret).

Definition sample : prog :=
  Spawn echo (fun _ => Spawn accept_once (fun c => Destroy c cancelled_read)).

Definition sample_queue : IoQueue SimRing.SimRing CompleterMap.CompleterMap :=
  match make 3 SimRing.blank with
  | Ok (Some q) => q
  | _ => mkIoQueue 0 SimRing.blank (CompleterMap.mkCompleterMap [] 0) None
  end.

Lemma sample_queue_made : make 3 SimRing.blank = Ok (Some sample_queue).
Proof. reflexivity. Qed.

(** ** The discipline holds *)

Lemma await_if_wf id k b last :
  id_ok id -> id ∈ b_handles b -> (0 < b_waits b)%nat ->
  (forall res, wf (k res) (no_handles b) None) ->
  wf (await_if (mkHandle true id) k) b last.
Proof.
  intros Hid Hin Hw Hk. unfold await_if. rewrite valid_ok by done.
  cbn [wf]. split; [by apply valid_ok|done].
Qed.

Lemma call_await_wf c k b last :
  (0 < b_sqes b)%nat -> (0 < b_waits b)%nat ->
  (forall id res, wf (k res) (no_handles (add_handle id (use_sqe b))) None) ->
  wf (Call c (fun h => await_if h k)) b last.
Proof.
  intros Hs Hw Hk. cbn [wf]. split; [done|]. split; [|done].
  intros id Hid _. apply await_if_wf; [done| |done|done]. cbn. set_solver.
Qed.

Lemma echo_wf : wf echo (mkBudget 3 1 ∅ ∅) None.
Proof.
  unfold echo. cbn [wf]. split; [cbn; lia|]. split; [|done].
  intros id Hid _. rewrite (valid_ok id Hid). cbn [wf]. split; [cbn; lia|].
  split; [by apply valid_ok|]. split; [done|]. split; [|done].
  apply await_if_wf; [done|cbn; set_solver|cbn; lia|].
  intros r. apply call_await_wf; cbn; [lia|lia|done].
Qed.

Ltac splits_tac :=
  unfold splits, add_child; cbn [b_sqes b_waits b_handles b_children];
  split_and!; first [lia | set_solver].

Lemma cancelled_read_wf b last :
  (1 < b_sqes b)%nat -> (0 < b_waits b)%nat -> wf cancelled_read b last.
Proof.
  intros Hs Hw. unfold cancelled_read. cbn [wf]. split; [lia|]. split; [|done].
  intros id Hid _. rewrite (valid_ok id Hid).
  cbn [wf]. split; [cbn; lia|]. split; [by apply valid_ok|].
  split; (apply await_if_wf; [done|cbn; set_solver|done|done]).
Qed.

Lemma sample_wf : wf sample (mkBudget 7 3 ∅ ∅) None.
Proof.
  unfold sample. cbn [wf].
  exists (mkBudget 3 1 ∅ ∅), (mkBudget 4 2 ∅ ∅).
  split; [splits_tac|]. split; [apply echo_wf|].
  intros c1 _. exists (mkBudget 1 1 ∅ ∅), (mkBudget 3 1 ∅ {[c1]}).
  split; [splits_tac|]. split; [apply call_await_wf; done || cbn; lia|].
  intros c2 _. split; [cbn; lia|]. split; [cbn; set_solver|].
  apply cancelled_read_wf; cbn; lia.
Qed.

(** ** Witnesses *)

Lemma ioqueue_safe_witness :
  make 3 SimRing.blank = Ok (Some sample_queue) /\ wf sample (mkBudget 7 3 ∅ ∅) None /\
  exists w, start sample (new_world sample_queue) = Ok w /\ forall fuel, exists o, run fuel w = Ok o.
Proof.
  split; [exact sample_queue_made|]. split; [exact sample_wf|].
  apply (QueueRun.ioqueue_safe 3 SimRing.blank sample_queue 7 3 sample);
    [lia | exact sample_queue_made | lia | lia | exact sample_wf].
Defined.

Lemma ioqueue_terminates_witness :
  make 3 SimRing.blank = Ok (Some sample_queue) /\ wf sample (mkBudget 7 3 ∅ ∅) None /\
  exists w w', start sample (new_world sample_queue) = Ok w /\ run 7 w = Ok (Some w') /\
    tbl_size (table w') = 0 /\ completers w' = ∅.
Proof.
  split; [exact sample_queue_made|]. split; [exact sample_wf|].
  apply (QueueRun.ioqueue_terminates 3 SimRing.blank sample_queue 7 3 sample);
    [lia | exact sample_queue_made | lia | lia | exact sample_wf].
Defined.

Lemma run_dispatch_witness :
  exists w B σ, start sample (new_world sample_queue) = Ok w /\
    Inv None (None, ∅) w [] B σ 7 /\ exists w1, QueueRun.ring_step w w1.
Proof.
  destruct (QueueRun.make_start 3 SimRing.blank sample_queue 7 3 sample ltac:(lia)
    sample_queue_made ltac:(lia) ltac:(lia) sample_wf) as (w & B & σ & Hs & HI).
  exists w, B, σ. split; [exact Hs|]. split; [exact HI|].
  destruct (QueueRun.run_dispatch ∅ w B σ 7 HI) as (w1 & Hst & _). exists w1. exact Hst.
Defined.

Lemma accept_once_wf : wf accept_once (mkBudget 1 1 ∅ ∅) None.
Proof. apply call_await_wf; cbn; done || lia. Qed.

Lemma operation_ids_witness :
  0 <= nextOpId_ sample_queue <= OpIdInvalid /\
  let ids := (QueueCalls.take_ids 3 sample_queue).1 in
  length ids = 3%nat /\
  (forall i id, ids !! i = Some id ->
    id = (nextOpId_ sample_queue + Z.of_nat i) mod (2 ^ 64 - 2)) /\
  (forall id, id ∈ ids -> id <> OpIdInvalid /\ id <> OpIdIgnore) /\
  (Z.of_nat 3 <= 2 ^ 64 - 2 -> NoDup ids).
Proof.
  assert (0 <= nextOpId_ sample_queue <= OpIdInvalid) as H
    by (change (nextOpId_ sample_queue) with 0; unfold OpIdInvalid; lia).
  split; [exact H|]. exact (QueueCalls.operation_ids 3 sample_queue H).
Defined.

Lemma sample_ready :
  IoURing.ready (ring_ sample_queue) /\ id_ok (nextOpId_ sample_queue) /\
  0 < IoURing.getSqeCapacity (ring_ sample_queue).
Proof.
  destruct (QueueRun.make_ok 3 SimRing.blank sample_queue ltac:(lia) sample_queue_made)
    as (Hr & _ & Hid & _). rewrite Hid. split; [exact Hr|]. unfold id_ok. split; [lia|].
  by apply (bool_decide_unpack _); vm_compute.
Qed.

Lemma call_appends_entry_witness :
  IoURing.ready (ring_ sample_queue) /\ id_ok (nextOpId_ sample_queue) /\
  exists h w', invoke (Send 5 100 16) (new_world sample_queue) = Ok (h, w') /\
    completers_ (queue w') = completers_ sample_queue /\
    nextOpId_ (queue w') = nextOpId_ sample_queue + 1.
Proof.
  destruct sample_ready as (Hr & Hid & _). split; [exact Hr|]. split; [exact Hid|].
  destruct (QueueCalls.call_appends_entry (Send 5 100 16) (new_world sample_queue) Hr Hid)
    as (h & w' & H1 & H2 & H3 & _).
  exists h, w'. split; [exact H1|]. split; [exact H2|exact H3].
Defined.

Lemma link_timeout_follows_witness :
  0 < IoURing.getSqeCapacity (ring_ sample_queue) /\
  exists w1 h q,
    invoke (Recv 5 100 16) (new_world sample_queue) = Ok (mkHandle true 0, w1) /\
    linkTimeout 900 0 (mkHandle true 0) (queue w1) = Ok (h, q).
Proof.
  destruct sample_ready as (Hr & Hid & Hcap). split; [exact Hcap|].
  destruct (QueueCalls.link_timeout_follows (Recv 5 100 16) 900 0 (new_world sample_queue) Hr Hid Hcap)
    as (w1 & h & q & p & H1 & H2 & _).
  exists w1, h, q. split; [exact H1|exact H2].
Defined.

(** [n] coroutines that each await a connection. *)
Fixpoint accept_many (n : nat) : prog :=
  match n with
  | O => Ret
  | S n => Spawn accept_once (fun _ => accept_many n)
  end.

Lemma accept_many_wf n own : wf (accept_many n) (mkBudget n n ∅ own) None.
Proof.
  revert own. induction n as [|n IH]; intros own; [done|]. cbn [accept_many wf].
  exists (mkBudget 1 1 ∅ ∅), (mkBudget n n ∅ own).
  split; [splits_tac|]. split; [apply accept_once_wf|]. intros c _. apply IH.
Qed.

Definition full_queue : IoQueue SimRing.SimRing CompleterMap.CompleterMap :=
  match make 52 SimRing.blank with
  | Ok (Some q) => q
  | _ => sample_queue
  end.

Lemma full_queue_made : make 52 SimRing.blank = Ok (Some full_queue).
Proof. reflexivity. Qed.

Lemma await_table_full_witness :
  exists w σ, start (accept_many 53) (new_world full_queue) = Ok w /\
    tbl_rep (table w) σ /\ tbl_capacity (table w) <= Z.of_nat (base.size σ) /\
    await 99 (mkHandle true 53) (fun _ => Ret) w = Crash AssertFailed.
Proof.
  destruct (QueueRun.make_start 52 SimRing.blank full_queue 53 53 (accept_many 53) ltac:(lia)
    full_queue_made ltac:(lia) ltac:(lia) (accept_many_wf 53 ∅)) as (w & B & σ & Hs & HI).
  pose proof (inv_rep _ _ _ _ (inv_table _ _ _ _ _ _ _ HI)) as Hrep.
  assert (match start (accept_many 53) (new_world full_queue) with
    | Ok w => tbl_capacity (table w) =? tbl_size (table w) | Crash _ => false end = true) as Hsz
    by (vm_compute; reflexivity).
  rewrite Hs in Hsz. apply Z.eqb_eq in Hsz. rewrite (tbl_size_spec _ _ Hrep) in Hsz.
  exists w, σ. split; [exact Hs|]. split; [exact Hrep|]. split; [lia|].
  apply (QueueRun.await_table_full _ _ _ _ σ); [reflexivity|exact Hrep|lia].
Defined.

(** Cancels its accept and awaits the cancellation. *)
Definition deadlock : prog :=
  Call (Accept 3 0 0) (fun h =>
    if valid h then Cancel h false (fun hc => await_if hc (fun _ => Ret)) else Ret).

Definition ignored_slot : nat :=
  Z.to_nat (CompleterMap.probe OpIdIgnore (CompleterMap.probe_step OpIdIgnore 53) 53 0).

Lemma deadlock_started :
  match start deadlock (new_world sample_queue) with
  | Ok w =>
      IoURing.isInitialized (uring w) = true /\
      IoURing.params_ (uring w) = IoURing.params_ (ring_ sample_queue) /\
      SimRing.sim_entries (IoURing.ring_ (uring w)) = 64 /\
      length (SimRing.sim_sq (IoURing.ring_ (uring w))) = 2%nat /\
      table w = CompleterMap.mkCompleterMap
        (<[ignored_slot := CompleterMap.mkEntry OpIdIgnore (free_address ∅)]>
          (CompleterMap.entries_ (completers_ sample_queue)))
        (CompleterMap.size_ (completers_ sample_queue) + 1)
  | Crash _ => False
  end.
Proof. vm_compute. repeat split. Qed.

Lemma await_ignored_hangs_witness :
  exists w, start deadlock (new_world sample_queue) = Ok w /\
    QueueRun.waits_for_ignored (free_address ∅) w /\ forall fuel, run fuel w = Ok None.
Proof.
  pose proof deadlock_started as Hst.
  destruct (start deadlock (new_world sample_queue)) as [w|]; [|destruct Hst].
  destruct Hst as (Hi & Hps & He & Hlen & Ht). exists w. split; [reflexivity|].
  assert (QueueRun.waits_for_ignored (free_address ∅) w) as Hw.
  { split.
    - destruct sample_ready as (Hr & _). split; [exact Hi|].
      change (uring_entries (IoURing.ring_ (uring w))) with (SimRing.sim_entries (IoURing.ring_ (uring w))).
      change (uring_sq (IoURing.ring_ (uring w))) with (SimRing.sim_sq (IoURing.ring_ (uring w))).
      rewrite Hps, He, Hlen. apply (bool_decide_unpack _). vm_compute. exact I.
    - rewrite Ht. destruct (QueueRun.make_ok 3 SimRing.blank sample_queue ltac:(lia) sample_queue_made)
        as (_ & _ & _ & _ & Hrep & _).
      apply (CompleterMap.insert_slot_rep (completers_ sample_queue) ∅ OpIdIgnore (free_address ∅)
        ignored_slot CompleterMap.defaultEntry 0).
      + exact Hrep.
      + done.
      + apply (bool_decide_unpack _). vm_compute. exact I.
      + vm_compute. reflexivity.
      + apply (bool_decide_unpack _). vm_compute. exact I.
      + apply (bool_decide_unpack _). vm_compute. exact I.
      + vm_compute. reflexivity.
      + intros j Hj. lia.
      + apply (bool_decide_unpack _). vm_compute. exact I. }
  split; [exact Hw|]. exact (QueueRun.await_ignored_hangs _ w Hw).
Defined.

(** Prepares [n] receives and awaits none of them. *)
Fixpoint recv_many (n : nat) : prog :=
  match n with
  | O => Ret
  | S n => Call (Recv 5 100 16) (fun _ => recv_many n)
  end.

Lemma recv_many_started :
  match start (recv_many 64) (new_world sample_queue) with
  | Ok w =>
      IoURing.isInitialized (uring w) = true /\
      IoURing.params_ (uring w) = IoURing.params_ (ring_ sample_queue) /\
      SimRing.sim_entries (IoURing.ring_ (uring w)) = 64 /\
      length (SimRing.sim_sq (IoURing.ring_ (uring w))) = 64%nat /\
      nextId w = 64 /\ IoURing.getSqeCapacity (uring w) = 0
  | Crash _ => False
  end.
Proof. vm_compute. repeat split. Qed.

Lemma tasks_abort_when_full_witness :
  exists w, start (recv_many 64) (new_world sample_queue) = Ok w /\
    IoURing.ready (ring_ (queue w)) /\ IoURing.getSqeCapacity (ring_ (queue w)) = 0 /\
    exec 99 (timeout_for 500 (fun _ => Ret)) w = Crash AssertFailed.
Proof.
  pose proof recv_many_started as Hst.
  destruct (start (recv_many 64) (new_world sample_queue)) as [w|]; [|destruct Hst].
  destruct Hst as (Hi & Hps & He & Hlen & Hid & Hcap). exists w. split; [reflexivity|].
  assert (IoURing.ready (ring_ (queue w))) as Hr.
  { split; [exact Hi|].
    change (uring_entries (IoURing.ring_ (ring_ (queue w)))) with (SimRing.sim_entries (IoURing.ring_ (uring w))).
    change (uring_sq (IoURing.ring_ (ring_ (queue w)))) with (SimRing.sim_sq (IoURing.ring_ (uring w))).
    change (ring_ (queue w)) with (uring w).
    rewrite Hps, He, Hlen. apply (bool_decide_unpack _). vm_compute. exact I. }
  split; [exact Hr|]. split; [exact Hcap|].
  destruct (QueueCalls.tasks_abort_when_full 99 (fun _ => Ret) w Hr) as (_ & _ & _ & H & _);
    [unfold id_ok; unfold nextId in Hid; lia|exact Hcap|apply H].
Defined.
