(* ===== verification/Tasks.v ===== *)
(** * Coroutines: [Task] (task.hpp) and [BasicCoroutine] (basiccoroutine.hpp)

    A machine of coroutine frames, with the handles and the symmetric transfers of
    the promise types.  It is proved to run nested tasks like calls: the tasks'
    code may be read as inlined in the coroutine that awaits them, which is how
    programs are written in [Queue.v].

    The code of a coroutine is what it does between its suspensions; a task is
    awaited where it is created ([co_await f()]). *)

From Stdlib Require Import ZArith Lia.
From stdpp Require Import base numbers list gmap option.
From S2P Require Import Prelude.

Module Task.

(** A coroutine handle: the address of its frame. *)
Abbreviation handle := nat.

Inductive code : Type :=
| Return (v : Z)                          (* co_return v *)
| Call (body : code) (k : Z -> code)      (* co_await of a task with this body *)
| Op (o : Z) (k : Z -> code).             (* co_await of an I/O operation *)

(** Where a coroutine is suspended. *)
Inductive point : Type :=
| Initial (c : code)                      (* initial_suspend of a task *)
| AtTask (task : handle) (k : Z -> code)  (* the temporary [Task]'s handle is in the frame *)
| AtOp (k : Z -> code)
| AtFinal
| NotSuspended.

(** [is_task] tells [Task::Promise] from [BasicCoroutine::Promise]. *)
Record frame : Type := mkFrame {
  is_task : bool;
  at_ : point;
  continuation : option handle;
  result : Z
}.

(** What the thread is doing. *)
Inductive control : Type :=
| Exec (h : handle) (c : code)   (* running the coroutine [h] *)
| Resume (h : handle)            (* transferring to [h] *)
| Suspended (caller : handle)    (* back in the event loop; an awaiter holds [caller] *)
| Finished.

Record state : Type := mkState {
  heap : gmap handle frame;
  nextHandle : handle;
  ctl : control;
  trace : list Z                 (* the operations awaited so far *)
}.

Definition set_at (p : point) (f : frame) : frame :=
  mkFrame (is_task f) p (continuation f) (result f).
Definition set_continuation (c : option handle) (f : frame) : frame :=
  mkFrame (is_task f) (at_ f) c (result f).
Definition set_result (v : Z) (f : frame) : frame :=
  mkFrame (is_task f) (at_ f) (continuation f) v.
Definition set_heap (m : gmap handle frame) (s : state) : state :=
  mkState m (nextHandle s) (ctl s) (trace s).
Definition set_ctl (c : control) (s : state) : state :=
  mkState (heap s) (nextHandle s) c (trace s).
Definition update (h : handle) (f : frame) (s : state) : state :=
  set_heap (<[h := f]> (heap s)) s.

(** [coroutine_handle::done] *)
Definition done_ (f : frame) : bool := match at_ f with AtFinal => true | _ => false end.

(** A call of a task coroutine: [initial_suspend] suspends it at once. *)
Definition make_task (body : code) (s : state) : handle * state :=
  let h := nextHandle s in
  (h, mkState (<[h := mkFrame true (Initial body) None 0]> (heap s)) (S h) (ctl s) (trace s)).

(** [~Task] of a task that is not suspended in the middle. *)
Definition destroy (h : handle) (s : state) : outcome state :=
  _ ← deref (heap s !! h);
  Ok (set_heap (delete h (heap s)) s).

(** [Awaiter::await_resume], then the end of the expression destroys the task. *)
Definition await_resume (h task : handle) (k : Z -> code) (s : state) : outcome state :=
  t ← deref (heap s !! task);
  f ← deref (heap s !! h);
  let v := result t in
  s ← destroy task (update h (set_at NotSuspended f) s);
  Ok (set_ctl (Exec h (k v)) s).

(** [co_await] of the task just made: [await_ready], [await_suspend]. *)
Definition await_task (h task : handle) (k : Z -> code) (s : state) : outcome state :=
  t ← deref (heap s !! task);
  f ← deref (heap s !! h);
  if done_ t then await_resume h task k s
  else
    let s := update task (set_continuation (Some h) t) s in
    let s := update h (set_at (AtTask task k) f) s in
    Ok (set_ctl (Resume task) s).

(** [return_value] and [final_suspend]. *)
Definition co_return (h : handle) (v : Z) (s : state) : outcome state :=
  f ← deref (heap s !! h);
  if is_task f then
    (* FinalAwaiter: transfer to the continuation *)
    let f := set_at AtFinal (set_result v f) in
    c ← deref (continuation f);
    Ok (set_ctl (Resume c) (update h f s))
  else
    (* suspend_never: the frame is gone, control returns to the resumer *)
    Ok (set_ctl Finished (set_heap (delete h (heap s)) s)).

Definition await_op (h : handle) (o : Z) (k : Z -> code) (s : state) : outcome state :=
  f ← deref (heap s !! h);
  Ok (mkState (<[h := set_at (AtOp k) f]> (heap s)) (nextHandle s) (Suspended h) (trace s ++ [o])).

(** Resuming a handle that a transfer names. *)
Definition resume (h : handle) (s : state) : outcome state :=
  f ← deref (heap s !! h);
  match at_ f with
  | Initial c => Ok (set_ctl (Exec h c) (update h (set_at NotSuspended f) s))
  | AtTask task k => await_resume h task k s
  | AtOp _ | AtFinal | NotSuspended => Crash UndefinedBehaviour
  end.

Definition step (s : state) : outcome state :=
  match ctl s with
  | Exec h (Return v) => co_return h v s
  | Exec h (Call body k) => let '(t, s) := make_task body s in await_task h t k s
  | Exec h (Op o k) => await_op h o k s
  | Resume h => resume h s
  | Suspended _ | Finished => Ok s
  end.

(** The completer: [caller.resume()] of a coroutine that awaits an operation. *)
Definition complete (v : Z) (s : state) : outcome state :=
  match ctl s with
  | Suspended h =>
      f ← deref (heap s !! h);
      match at_ f with
      | AtOp k => Ok (set_ctl (Exec h (k v)) (update h (set_at NotSuspended f) s))
      | _ => Crash UndefinedBehaviour
      end
  | _ => Crash UndefinedBehaviour
  end.

(** A [BasicCoroutine] starts at once. *)
Definition start (c : code) : state :=
  mkState {[0 := mkFrame false NotSuspended None 0]} 1 (Exec 0 c) [].

(** Runs until control is back in the event loop; none: the fuel was not enough. *)
Fixpoint run (fuel : nat) (s : state) : outcome (option state) :=
  match ctl s with
  | Suspended _ | Finished => Ok (Some s)
  | _ =>
      match fuel with
      | O => Ok None
      | S fuel => s ← step s; run fuel s
      end
  end.

(** The whole life of a coroutine, with what the operations return. *)
Fixpoint drive (fuel : nat) (vs : list Z) (s : state) : outcome (option state) :=
  r ← run fuel s;
  match r with
  | None => Ok None
  | Some s =>
      match ctl s, vs with
      | Suspended _, v :: vs => s ← complete v s; drive fuel vs s
      | _, _ => Ok (Some s)
      end
  end.

(** ** The abstract program: tasks inlined *)

Inductive program : Type :=
| PReturn (v : Z)
| POp (o : Z) (k : Z -> program).

Fixpoint then_ (p : program) (k : Z -> program) : program :=
  match p with
  | PReturn v => k v
  | POp o k' => POp o (fun v => then_ (k' v) k)
  end.

Fixpoint inline (c : code) : program :=
  match c with
  | Return v => PReturn v
  | Call body k => then_ (inline body) (fun v => inline (k v))
  | Op o k => POp o (fun v => inline (k v))
  end.

(** The operations a program awaits when they return [vs], and whether it ends. *)
Fixpoint behaviour (p : program) (vs : list Z) : list Z * bool :=
  match p with
  | PReturn _ => ([], true)
  | POp o k =>
      match vs with
      | [] => ([o], false)
      | v :: vs => let '(os, b) := behaviour (k v) vs in (o :: os, b)
      end
  end.

(** ** The frames at any time: a chain of awaiting coroutines *)

Abbreviation stack := (list (handle * (Z -> code))).

(** [h] was started by the coroutine on top of [ks], which awaits it, and so on
    down to the [BasicCoroutine]. *)
Fixpoint chain (m : gmap handle frame) (h : handle) (ks : stack) : Prop :=
  match ks with
  | [] => exists f, m !! h = Some f /\ is_task f = false
  | (p, k) :: ks =>
      (exists f, m !! h = Some f /\ is_task f = true /\ continuation f = Some p) /\
      (exists g, m !! p = Some g /\ at_ g = AtTask h k) /\ p < h /\ chain m p ks
  end.

Record Wf (s : state) (h : handle) (ks : stack) : Prop := {
  wf_chain : chain (heap s) h ks;
  wf_all x f : heap s !! x = Some f -> x = h \/ x ∈ ks.*1;
  wf_next : h < nextHandle s
}.

(** What remains to be done by the coroutines of the stack after [p]. *)
Fixpoint unwind (p : program) (ks : stack) : program :=
  match ks with
  | [] => p
  | (_, k) :: ks => unwind (then_ p (fun v => inline (k v))) ks
  end.

Lemma unwind_op ks : forall o f, unwind (POp o f) ks = POp o (fun v => unwind (f v) ks).
Proof. induction ks as [|[h k] ks IH]; intros o f; [done|]. cbn. apply IH. Qed.

Lemma chain_frame m h ks : chain m h ks -> exists f, m !! h = Some f.
Proof. destruct ks as [|[p k] ks]; [intros (f & Hf & _)|intros ((f & Hf & _) & _)]; by exists f. Qed.

(** Only the point where [h] itself is suspended may change. *)
Lemma task_chain_same m m' h ks f f' :
  chain m h ks -> m !! h = Some f -> m' !! h = Some f' ->
  is_task f' = is_task f -> continuation f' = continuation f ->
  (forall x, x < h -> m' !! x = m !! x) -> chain m' h ks.
Proof.
  revert h f f'. induction ks as [|[p k] ks IH]; intros h f f' Hc Hf Hf' Ht Hk Hlow; cbn in *.
  - destruct Hc as (f0 & H0 & Ht0). exists f'. split; [done|congruence].
  - destruct Hc as ((f0 & H0 & Ht0 & Hk0) & (g & Hg & Hat) & Hlt & Hc).
    assert (m' !! p = Some g) as Hg' by (by rewrite Hlow).
    split; [exists f'; split; [done|split; congruence]|]. split; [by exists g|]. split; [done|].
    apply (IH p g g); try done. intros x Hx. apply Hlow. lia.
Qed.

Lemma chain_lower m h ks x : chain m h ks -> x ∈ ks.*1 -> x < h.
Proof.
  revert h. induction ks as [|[p k] ks IH]; intros h Hc Hin; cbn in *; [by apply elem_of_nil in Hin|].
  destruct Hc as (_ & _ & Hlt & Hc). apply elem_of_cons in Hin as [->|Hin]; [done|].
  specialize (IH p Hc Hin). lia.
Qed.

(** [h] goes on or is suspended; nothing else changes. *)
Lemma wf_update s h ks f f' ct tr :
  Wf s h ks -> heap s !! h = Some f -> is_task f' = is_task f -> continuation f' = continuation f ->
  Wf (mkState (<[h := f']> (heap s)) (nextHandle s) ct tr) h ks.
Proof.
  intros [Hc Ha Hn] Hf Ht Hk. split; cbn.
  - apply (task_chain_same (heap s) _ h ks f f'); try done; [by rewrite lookup_insert_eq|].
    intros x Hx. rewrite lookup_insert_ne by lia. done.
  - intros x g. rewrite lookup_insert_Some. intros [[<- _]|[_ Hx]]; [by left|by eapply Ha].
  - done.
Qed.

(** [h] calls a task. *)
Lemma wf_call s h ks f k ct tr :
  Wf s h ks -> heap s !! h = Some f ->
  Wf (mkState (<[nextHandle s := mkFrame true NotSuspended (Some h) 0]>
    (<[h := set_at (AtTask (nextHandle s) k) f]> (heap s))) (S (nextHandle s)) ct tr)
    (nextHandle s) ((h, k) :: ks).
Proof.
  intros [Hc Ha Hn] Hf. split; cbn.
  - split; [eexists; split; [by rewrite lookup_insert_eq|done]|].
    split; [eexists; rewrite lookup_insert_ne, lookup_insert_eq by lia; by split|].
    split; [done|].
    apply (task_chain_same (heap s) _ h ks f (set_at (AtTask (nextHandle s) k) f)); try done.
    + by rewrite lookup_insert_ne, lookup_insert_eq by lia.
    + intros x Hx. by rewrite !lookup_insert_ne by lia.
  - intros x g. rewrite elem_of_cons, !lookup_insert_Some.
    intros [[<- _]|(_ & [[<- _]|[_ Hx]])]; [by left|by right; left|].
    destruct (Ha x g Hx) as [->|?]; auto.
  - lia.
Qed.

(** The task [h] is gone and [p] goes on. *)
Lemma wf_return s h p k ks f ct tr :
  Wf s h ((p, k) :: ks) -> heap s !! p = Some f ->
  Wf (mkState (delete h (<[p := set_at NotSuspended f]> (heap s))) (nextHandle s) ct tr) p ks.
Proof.
  intros [(_ & _ & Hlt & Hc) Ha Hn] Hf. split; cbn.
  - apply (task_chain_same (heap s) _ p ks f (set_at NotSuspended f)); try done.
    + by rewrite lookup_delete_ne, lookup_insert_eq by lia.
    + intros x Hx. by rewrite lookup_delete_ne, lookup_insert_ne by lia.
  - intros x g. rewrite lookup_delete_Some, lookup_insert_Some.
    intros [Hne [[<- _]|[Hxp Hx]]]; [by left|].
    destruct (Ha x g Hx) as [->|Hin]; [done|]. cbn in Hin.
    apply elem_of_cons in Hin as [->|Hin]; [done|by right].
  - lia.
Qed.

(** ** Running to the next suspension *)

Definition stopped (c : control) : bool :=
  match c with Suspended _ | Finished => true | _ => false end.

(** Control comes back to the event loop where the program [p] does. *)
Definition reaches (s s' : state) (p : program) : Prop :=
  match p with
  | PReturn _ => ctl s' = Finished /\ heap s' = ∅ /\ trace s' = trace s
  | POp o pk =>
      exists h k ks f, ctl s' = Suspended h /\ trace s' = trace s ++ [o] /\ Wf s' h ks /\
        heap s' !! h = Some f /\ at_ f = AtOp k /\
        forall v, pk v = unwind (inline (k v)) ks
  end.

Definition runs (s : state) (p : program) : Prop :=
  exists n s', run n s = Ok (Some s') /\ reaches s s' p.

Lemma run_stopped n s : stopped (ctl s) = true -> run n s = Ok (Some s).
Proof. destruct n; cbn; by destruct (ctl s). Qed.

Lemma run_more n s s' : run n s = Ok (Some s') -> forall m, run (n + m) s = Ok (Some s').
Proof.
  revert s. induction n as [|n IH]; intros s H m; cbn in *.
  - destruct (stopped (ctl s)) eqn:E; [|by destruct (ctl s)].
    rewrite run_stopped by done. by destruct (ctl s).
  - destruct (ctl s); try done; apply outcome_bind_Ok in H as (s1 & -> & H); cbn; by apply IH.
Qed.

Lemma runs_step s s1 p :
  step s = Ok s1 -> stopped (ctl s) = false -> trace s1 = trace s -> runs s1 p -> runs s p.
Proof.
  intros Hstep Hs Ht (n & s' & Hr & Hp). exists (S n), s'. split.
  - cbn. rewrite Hstep. by destruct (ctl s).
  - unfold reaches in *. by rewrite <- Ht.
Qed.

(** The top of the stack runs to the next suspension, whatever it is given. *)
Definition good (ks : stack) : Prop :=
  match ks with
  | [] => True
  | (p, k) :: ks => forall v s, ctl s = Exec p (k v) -> Wf s p ks -> runs s (unwind (inline (k v)) ks)
  end.

Lemma return_runs v s h ks :
  good ks -> ctl s = Exec h (Return v) -> Wf s h ks -> runs s (unwind (PReturn v) ks).
Proof.
  intros Hg Hctl Hwf. destruct ks as [|[p k] ks].
  - destruct (wf_chain _ _ _ Hwf) as (f & Hf & Ht).
    exists 1. eexists. cbn [run]. rewrite Hctl. unfold step. rewrite Hctl. unfold co_return.
    rewrite Hf. cbn [deref mbind outcome_bind]. rewrite Ht. split; [done|].
    split; [done|]. split; [|done]. cbn. apply map_empty. intros x.
    destruct (decide (x = h)) as [->|Hne]; [apply lookup_delete_eq|].
    rewrite lookup_delete_ne by done. destruct (heap s !! x) as [g|] eqn:Hx; [|done].
    destruct (wf_all _ _ _ Hwf x g Hx) as [?|Hin]; [done|by apply elem_of_nil in Hin].
  - destruct (wf_chain _ _ _ Hwf) as ((f & Hf & Ht & Hk) & (g & Hp & Hat) & Hlt & _).
    eapply runs_step.
    { unfold step. rewrite Hctl. unfold co_return. rewrite Hf. cbn. rewrite Ht, Hk. reflexivity. }
    { by rewrite Hctl. } { done. }
    eapply runs_step.
    { unfold step. cbn. unfold resume. cbn. rewrite lookup_insert_ne by lia. rewrite Hp. cbn.
      rewrite Hat. unfold await_resume. cbn. rewrite lookup_insert_eq. cbn.
      rewrite lookup_insert_ne, Hp by lia. cbn. unfold destroy. cbn.
      rewrite lookup_insert_ne, lookup_insert_eq by lia. cbn. reflexivity. }
    { done. } { done. }
    apply (Hg v); [done|].
    pose proof (wf_update s h ((p, k) :: ks) f (set_at AtFinal (set_result v f)) (Resume p) (trace s)
      Hwf Hf eq_refl eq_refl) as Hwf1.
    apply (wf_return _ h p k ks g _ _ Hwf1). cbn. by rewrite lookup_insert_ne by lia.
Qed.

Lemma exec_runs c : forall s h ks,
  good ks -> ctl s = Exec h c -> Wf s h ks -> runs s (unwind (inline c) ks).
Proof.
  induction c as [v|body IHb k IHk|o k IHk]; intros s h ks Hg Hctl Hwf.
  - by apply (return_runs v s h ks).
  - destruct (chain_frame _ _ _ (wf_chain _ _ _ Hwf)) as (f & Hf).
    pose proof (wf_next _ _ _ Hwf) as Hn.
    eapply runs_step.
    { unfold step. rewrite Hctl. cbn. unfold await_task. cbn.
      rewrite lookup_insert_eq. cbn. rewrite lookup_insert_ne, Hf by lia. cbn. reflexivity. }
    { by rewrite Hctl. } { done. }
    eapply runs_step.
    { unfold step. cbn. unfold resume. cbn. rewrite lookup_insert_ne, lookup_insert_eq by lia.
      cbn. reflexivity. }
    { done. } { done. }
    apply (IHb _ (nextHandle s) ((h, k) :: ks)).
    + intros v s1 Hctl1 Hwf1. by apply (IHk v s1 h ks).
    + done.
    + unfold update, set_ctl, set_heap. cbn [heap nextHandle trace ctl].
      rewrite insert_insert_eq, (insert_insert_ne _ h (nextHandle s)), insert_insert_eq by lia.
      by apply (wf_call s h ks f k).
  - destruct (chain_frame _ _ _ (wf_chain _ _ _ Hwf)) as (f & Hf).
    exists 1. eexists. cbn [run]. rewrite Hctl. unfold step. rewrite Hctl. unfold await_op.
    rewrite Hf. cbn [deref mbind outcome_bind]. split; [done|].
    cbn [inline]. rewrite unwind_op. exists h, k, ks, (set_at (AtOp k) f).
    split; [done|]. split; [done|]. split; [by apply (wf_update s h ks f)|].
    split; [by cbn; rewrite lookup_insert_eq|]. by split.
Qed.

Lemma all_good ks : good ks.
Proof.
  induction ks as [|[p k] ks IH]; [done|]. intros v s Hctl Hwf. by apply (exec_runs (k v) s p ks).
Qed.

Lemma complete_suspended v s h k ks f :
  ctl s = Suspended h -> Wf s h ks -> heap s !! h = Some f -> at_ f = AtOp k ->
  exists s', complete v s = Ok s' /\ ctl s' = Exec h (k v) /\ Wf s' h ks /\ trace s' = trace s.
Proof.
  intros Hctl Hwf Hf Hat. unfold complete. rewrite Hctl, Hf. cbn. rewrite Hat.
  eexists. split; [done|]. split; [done|]. split; [by apply (wf_update s h ks f)|done].
Qed.

(** How a life ends: with the coroutine and all its tasks gone, or suspended. *)
Definition ended (b : bool) (s : state) : Prop :=
  if b then ctl s = Finished /\ heap s = ∅ else exists h, ctl s = Suspended h.

Lemma drive_runs vs : forall s p,
  runs s p -> exists N, forall extra, exists s', drive (N + extra) vs s = Ok (Some s') /\
    trace s' = trace s ++ (behaviour p vs).1 /\ ended (behaviour p vs).2 s'.
Proof.
  induction vs as [|v vs IH]; intros s p (n & s' & Hrun & Hp).
  - exists n. intros extra. exists s'. cbn [drive]. rewrite (run_more n s s' Hrun). cbn.
    destruct p as [v|o pk]; cbn in *.
    + destruct Hp as (Hc & Hh & Ht). rewrite Hc, Ht, app_nil_r. done.
    + destruct Hp as (h & k & ks & f & Hc & Ht & _). rewrite Hc. split; [done|].
      split; [done|]. by exists h.
  - destruct p as [x|o pk]; cbn in Hp.
    + destruct Hp as (Hc & Hh & Ht). exists n. intros extra. exists s'. cbn [drive].
      rewrite (run_more n s s' Hrun). cbn. rewrite Hc, Ht, app_nil_r. done.
    + destruct Hp as (h & k & ks & f & Hc & Ht & Hwf & Hf & Hat & Hpk).
      destruct (complete_suspended v s' h k ks f Hc Hwf Hf Hat) as (s1 & H1 & Hc1 & Hwf1 & Ht1).
      destruct (IH s1 (pk v)) as (N & HN).
      { rewrite Hpk. apply (exec_runs _ s1 h); [apply all_good|done|done]. }
      exists (n + N). intros extra. destruct (HN (n + extra)) as (s2 & H2 & Ht2 & He).
      exists s2. cbn [drive]. rewrite <- Nat.add_assoc, (run_more n s s' Hrun). cbn.
      rewrite Hc, H1. cbn. replace (n + (N + extra)) with (N + (n + extra)) by lia.
      rewrite H2. cbn. destruct (behaviour (pk v) vs) as [os b]. cbn in *.
      split; [done|]. split; [|done]. by rewrite Ht2, Ht1, Ht, <- app_assoc.
Qed.

(** C18: Nested tasks run like inlined code: a coroutine that awaits tasks, which await
    tasks themselves, awaits exactly the operations of the program in which every
    task is replaced by its body, whatever they return; the machine never follows
    a dead handle, comes back to the event loop after finitely many transfers each
    time, and when the coroutine ends no frame is left. *)
Theorem tasks_inline c vs :
  exists N, forall extra, exists s, drive (N + extra) vs (start c) = Ok (Some s) /\
    trace s = (behaviour (inline c) vs).1 /\ ended (behaviour (inline c) vs).2 s.
Proof.
  apply (drive_runs vs (start c) (inline c)).
  apply (exec_runs c (start c) 0 []); [done|done|]. split; cbn.
  - eexists. split; [by rewrite lookup_singleton_eq|done].
  - intros x f [<- _]%lookup_singleton_Some. by left.
  - lia.
Qed.

End Task.
