(* ===== verification/Timespecs.v ===== *)
(** * Timeouts: both overloads of [setTimespec] (ioqueue_impl_iouring.cpp)

    The clocks are arguments: what [steady_clock::now] and [clock_gettime] return
    when they are called. *)

From Stdlib Require Import ZArith Lia.
From stdpp Require Import base numbers.
From S2P Require Import Prelude.

Local Open Scope Z_scope.

Module Timespecs.

Record Timespec : Type := mkTimespec { tv_sec : Z; tv_nsec : Z }.

(** What the kernel accepts as a duration or a point in time. *)
Definition valid_timespec (ts : Timespec) : Prop :=
  0 <= tv_sec ts /\ 0 <= tv_nsec ts < 1000000000.

Definition to_ns (ts : Timespec) : Z := tv_sec ts * 1000000000 + tv_nsec ts.

(** [setTimespec(ts, std::chrono::milliseconds)]; [/] and [%] round to zero. *)
Definition setTimespec (ms : Z) : Timespec :=
  mkTimespec (Z.quot ms 1000) (Z.rem ms 1000 * 1000 * 1000).

(** [setTimespec(ts, time_point)], times in nanoseconds. *)
Definition setTimespec_at (tp now : Z) (nowTs : Timespec) : outcome Timespec :=
  _ ← cassert (tp <=? now);
  let delta := tp - now in
  let deltaMs := Z.quot delta 1000000 in
  let sec := tv_sec nowTs + Z.quot deltaMs 1000 in
  let nsec := tv_nsec nowTs + Z.rem deltaMs 1000 * 1000 * 1000 in
  let sec := sec + Z.quot nsec (1000 * 1000 * 1000) in
  Ok (mkTimespec sec (Z.rem nsec (1000 * 1000 * 1000))).

(** A duration of at least zero milliseconds becomes the kernel's
    representation of exactly that duration, without overflow of the 64-bit
    fields; a negative one never does. *)
Theorem setTimespec_exact ms :
  - 2 ^ 63 <= ms < 2 ^ 63 ->
  to_ns (setTimespec ms) = ms * 1000000 /\
  - 2 ^ 63 <= tv_sec (setTimespec ms) < 2 ^ 63 /\
  - 2 ^ 63 <= tv_nsec (setTimespec ms) < 2 ^ 63 /\
  (valid_timespec (setTimespec ms) <-> 0 <= ms).
Proof.
  intros Hms. unfold to_ns, valid_timespec, setTimespec. cbn [tv_sec tv_nsec].
  pose proof (Z.quot_rem ms 1000 ltac:(lia)) as Hqr.
  clear Hqr. Z.to_euclidean_division_equations. lia.
Qed.

Lemma quot_nonpos_ms d : d <= 0 -> Z.quot d 1000000 <= 0.
Proof. intros. Z.to_euclidean_division_equations. lia. Qed.

(** [setTimespec] for a point in time has its assertion the wrong way round:
    it fails for every point in the future.  For a point not in the future the
    result denotes the current time less the whole milliseconds since then, but
    with a negative nanosecond part, which the kernel rejects, whenever those
    milliseconds reach back before the current second. *)
Theorem setTimespec_at_spec tp now nowTs :
  valid_timespec nowTs ->
  (now < tp -> setTimespec_at tp now nowTs = Crash AssertFailed) /\
  (tp <= now ->
    let ms := (now - tp) / 1000000 in
    exists ts, setTimespec_at tp now nowTs = Ok ts /\
      to_ns ts = to_ns nowTs - ms * 1000000 /\
      (tv_nsec ts < 0 <-> tv_nsec nowTs < ms mod 1000 * 1000000)).
Proof.
  intros [Hs Hn]. unfold setTimespec_at. split.
  - intros H. by rewrite (proj2 (Z.leb_gt _ _)) by done.
  - intros H. cbn zeta. rewrite (proj2 (Z.leb_le _ _) H). cbn [cassert mbind outcome_bind].
    eexists. split; [reflexivity|].
    replace (Z.quot (tp - now) 1000000) with (- ((now - tp) / 1000000)).
    2: { replace (tp - now) with (- (now - tp)) by lia.
      rewrite Z.quot_opp_l, Z.quot_div_nonneg by lia. done. }
    set (ms := (now - tp) / 1000000). assert (0 <= ms) by (apply Z.div_pos; lia).
    rewrite Z.quot_opp_l, Z.rem_opp_l, Z.quot_div_nonneg, Z.rem_mod_nonneg by lia.
    unfold to_ns. cbn [tv_sec tv_nsec].
    pose proof (Z.div_mod ms 1000 ltac:(lia)). pose proof (Z.mod_pos_bound ms 1000 ltac:(lia)).
    set (q := ms / 1000) in *. set (r := ms mod 1000) in *. clearbody q r.
    Z.to_euclidean_division_equations. lia.
Qed.

Lemma setTimespec_exact_witness :
  (- 2 ^ 63 <= 1500 < 2 ^ 63) /\
  (to_ns (setTimespec 1500) = 1500 * 1000000 /\
   - 2 ^ 63 <= tv_sec (setTimespec 1500) < 2 ^ 63 /\
   - 2 ^ 63 <= tv_nsec (setTimespec 1500) < 2 ^ 63 /\
   (valid_timespec (setTimespec 1500) <-> 0 <= 1500)).
Proof. split; [lia|]. apply setTimespec_exact. lia. Defined.

(** Five seconds after start, a deadline a millisecond ago. *)
Lemma setTimespec_at_spec_witness :
  valid_timespec (mkTimespec 5 0) /\
  exists ts, setTimespec_at 4999000000 5000000000 (mkTimespec 5 0) = Ok ts /\ tv_nsec ts < 0.
Proof.
  assert (valid_timespec (mkTimespec 5 0)) as Hv by (unfold valid_timespec; cbn; lia).
  split; [exact Hv|].
  destruct (setTimespec_at_spec 4999000000 5000000000 (mkTimespec 5 0) Hv) as [_ H].
  destruct (H ltac:(lia)) as (ts & Hok & _ & Hneg). exists ts. split; [exact Hok|].
  apply Hneg. reflexivity.
Defined.

End Timespecs.
