(* ===== verification/Fds.v ===== *)
(** * File descriptors: [Fd] and [Pipe] (fd.hpp, fd.cpp)

    The kernel is a parameter: a state with [close] and [pipe] ([Posix]), and
    what their manual promises about the set of open descriptors ([PosixSpec]).
    The [Fd] objects of a program are a store from object names to [fd_]. *)

From Stdlib Require Import ZArith Lia.
From stdpp Require Import base numbers gmap option.
From S2P Require Import Prelude.

Local Open Scope Z_scope.

Class Posix (K : Type) := {
  sys_close : Z -> K -> K;
  (* both ends, or -1 *)
  sys_pipe : K -> option (Z * Z) * K
}.

Class PosixSpec (K : Type) `{!Posix K} := {
  open_fds : K -> gset Z;
  open_fds_range k fd : fd ∈ open_fds k -> 0 <= fd;
  close_spec fd k : open_fds (sys_close fd k) = open_fds k ∖ {[fd]};
  pipe_spec k :
    match sys_pipe k with
    | (Some (r, w), k') => (r ∉ open_fds k) /\ (w ∉ open_fds k) /\ r <> w /\
        open_fds k' = {[r; w]} ∪ open_fds k
    | (None, k') => open_fds k' = open_fds k
    end
}.

Module Fd.
Section Fd.
Context {K : Type} `{!Posix K}.

(** ** One object: its [fd_], and the kernel *)

(** [::Fd()] *)
Definition empty : Z := -1.

Definition release (fd_ : Z) : Z * Z := (fd_, -1).

(** [Fd(Fd&& other)]: the new object's descriptor and [other]'s. *)
Definition move (other : Z) : Z * Z := let '(fd, other) := release other in (fd, other).

Definition close (fd_ : Z) (k : K) : Z * K :=
  let k := if negb (fd_ =? -1) then sys_close fd_ k else k in
  (-1, k).

(** [~Fd] *)
Definition destroy (fd_ : Z) (k : K) : K := (close fd_ k).2.

Definition reset (fd : Z) (fd_ : Z) (k : K) : Z * K :=
  let '(_, k) := close fd_ k in (fd, k).

(** ** Programs over several objects *)

Inductive op : Type :=
| Default (o : Z)
| FromInt (o fd : Z)
| MoveConstruct (o other : Z)
| MoveAssign (o other : Z)
| Destroy (o : Z)
| Close (o : Z)
| Reset (o fd : Z)
| Release (o : Z).

Record state : Type := mkState { objects : gmap Z Z; kernel : K }.

(** Each member as it is; using an object that does not exist is undefined, and
    so is constructing one over another. *)
Definition step (a : op) (s : state) : outcome state :=
  let new o fd k :=
    match objects s !! o with
    | None => Ok (mkState (<[o := fd]> (objects s)) k)
    | Some _ => Crash UndefinedBehaviour
    end in
  match a with
  | Default o => new o empty (kernel s)
  | FromInt o fd => new o fd (kernel s)
  | MoveConstruct o other =>
      x ← deref (objects s !! other);
      let '(fd, x) := move x in
      match objects s !! o with
      | None => Ok (mkState (<[o := fd]> (<[other := x]> (objects s))) (kernel s))
      | Some _ => Crash UndefinedBehaviour
      end
  | MoveAssign o other =>
      _ ← deref (objects s !! o);
      x ← deref (objects s !! other);
      (* [fd_ = other.release()] *)
      let '(fd, x) := release x in
      Ok (mkState (<[o := fd]> (<[other := x]> (objects s))) (kernel s))
  | Destroy o =>
      x ← deref (objects s !! o);
      Ok (mkState (delete o (objects s)) (destroy x (kernel s)))
  | Close o =>
      x ← deref (objects s !! o);
      let '(x, k) := close x (kernel s) in
      Ok (mkState (<[o := x]> (objects s)) k)
  | Reset o fd =>
      x ← deref (objects s !! o);
      let '(x, k) := reset fd x (kernel s) in
      Ok (mkState (<[o := x]> (objects s)) k)
  | Release o =>
      x ← deref (objects s !! o);
      let '(_, x) := release x in
      Ok (mkState (<[o := x]> (objects s)) (kernel s))
  end.

Context `{!PosixSpec K}.

(** ** Ownership *)

(** [o] owns [fd]. *)
Definition owns (s : state) (o fd : Z) : Prop := objects s !! o = Some fd /\ fd <> -1.

(** Every object owns an open descriptor of its own, or none. *)
Definition well_owned (s : state) : Prop :=
  (forall o fd, owns s o fd -> fd ∈ open_fds (kernel s)) /\
  (forall o1 o2 fd, owns s o1 fd -> owns s o2 fd -> o1 = o2).

(** [fd] is open and no object will close it. *)
Definition unowned (s : state) (fd : Z) : Prop :=
  fd ∈ open_fds (kernel s) /\ forall o, ~ owns s o fd.

(** The descriptors an object takes over are open and unowned. *)
Definition allowed (a : op) (s : state) : Prop :=
  match a with
  | Default o => objects s !! o = None
  | FromInt o fd => objects s !! o = None /\ (fd = -1 \/ unowned s fd)
  | MoveConstruct o other => objects s !! o = None /\ is_Some (objects s !! other)
  | MoveAssign o other => is_Some (objects s !! o) /\ is_Some (objects s !! other)
  | Destroy o | Close o | Release o => is_Some (objects s !! o)
  | Reset o fd => is_Some (objects s !! o) /\ (fd = -1 \/ unowned s fd)
  end.

(** Who is unowned afterwards: what was, less what an object took over, plus what
    was released - or lost: move assignment drops the descriptor its target had. *)
Definition unowned_after (a : op) (s : state) (fd : Z) : Prop :=
  match a with
  | Default _ | MoveConstruct _ _ | Destroy _ | Close _ => unowned s fd
  | FromInt _ fd' | Reset _ fd' => unowned s fd /\ fd <> fd'
  | Release o => unowned s fd \/ owns s o fd
  | MoveAssign o other => unowned s fd \/ (owns s o fd /\ o <> other)
  end.

Lemma owns_insert m k o x o' fd :
  owns (mkState (<[o := x]> m) k) o' fd <->
  (o = o' /\ fd = x /\ x <> -1) \/ (o <> o' /\ m !! o' = Some fd /\ fd <> -1).
Proof.
  unfold owns. cbn. rewrite lookup_insert_Some. split.
  - intros [[[-> ->]|[? ?]] ?]; auto.
  - intros [(-> & -> & ?)|(? & ? & ?)]; auto.
Qed.

Lemma unowned_not_none s fd : unowned s fd -> fd <> -1.
Proof. intros [Hin _]. apply open_fds_range in Hin. lia. Qed.

(** Giving [o] the descriptor [x], or none. *)
Lemma set_owner s o x :
  well_owned s -> x = -1 \/ unowned s x ->
  let s' := mkState (<[o := x]> (objects s)) (kernel s) in
  well_owned s' /\ forall fd, unowned s' fd <-> (unowned s fd \/ owns s o fd) /\ fd <> x.
Proof.
  intros [Hopen Huniq] Hx s'. unfold s'. split; [split|].
  - intros o' fd [(-> & -> & Hne)|(Hne & Ho & Hfd)]%owns_insert; cbn.
    + destruct Hx as [?|[? _]]; [done|done].
    + by apply (Hopen o').
  - intros o1 o2 fd [(-> & -> & Hne)|(Hne & Ho & Hfd)]%owns_insert
      [(-> & He & Hne2)|(Hne2 & Ho2 & Hfd2)]%owns_insert; [done| | |by apply (Huniq o1 o2 fd)].
    + destruct Hx as [?|[_ Hno]]; [done|]. by destruct (Hno o2).
    + subst fd. destruct Hx as [?|[_ Hno]]; [done|]. by destruct (Hno o1).
  - intros fd. split.
    + intros [Hin Hno]. cbn in Hin.
      assert (fd <> -1) by (apply open_fds_range in Hin; lia).
      assert (fd <> x) as Hfx.
      { intros ->. apply (Hno o). apply owns_insert. by left. }
      split; [|done]. destruct (decide (objects s !! o = Some fd)); [by right|left].
      split; [done|]. intros o' [Ho' ?]. apply (Hno o'), owns_insert. right.
      split; [by intros ->|done].
    + intros [[[Hin Hno]|[Ho Hfd]] Hfx].
      * split; [done|]. intros o' [(-> & -> & Hne)|(Hne & Ho & Hfd)]%owns_insert; [done|].
        by apply (Hno o').
      * split; [by apply (Hopen o)|].
        intros o' [(-> & -> & Hne)|(Hne & Ho' & Hfd')]%owns_insert; [done|].
        by apply Hne, (Huniq o o' fd).
Qed.

Lemma close_kernel x k :
  open_fds (close x k).2 = if decide (x = -1) then open_fds k else open_fds k ∖ {[x]}.
Proof.
  unfold close. destruct (decide (x = -1)) as [->|Hne]; [done|].
  rewrite (proj2 (Z.eqb_neq _ _) Hne). apply close_spec.
Qed.

(** [o] closes its descriptor and forgets it, or goes away. *)
Lemma close_owner s o x m :
  well_owned s -> objects s !! o = Some x ->
  (forall o' fd, m !! o' = Some fd /\ fd <> -1 <-> o' <> o /\ owns s o' fd) ->
  let s' := mkState m (close x (kernel s)).2 in
  well_owned s' /\ forall fd, unowned s' fd <-> unowned s fd.
Proof.
  intros [Hopen Huniq] Hx Hm s'.
  assert (Hk : forall fd, fd ∈ open_fds (kernel s') <-> fd ∈ open_fds (kernel s) /\ fd <> x).
  { intros fd. change (kernel s') with (close x (kernel s)).2. rewrite close_kernel.
    destruct (decide (x = -1)) as [->|]; [|set_solver].
    split; [|by intros [? _]]. intros Hin. split; [done|]. apply open_fds_range in Hin. lia. }
  split; [split|].
  - intros o' fd [Hne Ho]%Hm. apply Hk. split; [by apply (Hopen o')|].
    intros ->. apply Hne, (Huniq o' o x Ho). by destruct Ho.
  - intros o1 o2 fd [_ H1]%Hm [_ H2]%Hm. by apply (Huniq o1 o2 fd).
  - intros fd. split.
    + intros [[Hin Hne]%Hk Hno]. split; [done|]. intros o' Ho'.
      apply (Hno o'), Hm. split; [|done]. intros ->. destruct Ho' as [Ho' _]. congruence.
    + intros [Hin Hno]. split.
      * apply Hk. split; [done|]. intros ->. apply (Hno o). split; [done|].
        apply open_fds_range in Hin. lia.
      * intros o' [_ Ho']%Hm. by apply (Hno o').
Qed.

(** Moving [other]'s descriptor to [o], which drops the one it had. *)
Lemma transfer_owner s o other x :
  well_owned s -> objects s !! other = Some x ->
  let s' := mkState (<[o := x]> (<[other := -1]> (objects s))) (kernel s) in
  well_owned s' /\ forall fd, unowned s' fd <-> unowned s fd \/ (owns s o fd /\ o <> other).
Proof.
  intros Hw Hx. destruct (set_owner s other (-1) Hw (or_introl eq_refl)) as [Hw1 Hun1].
  set (s1 := mkState (<[other := -1]> (objects s)) (kernel s)) in *.
  assert (x = -1 \/ unowned s1 x) as Hx1.
  { destruct (decide (x = -1)); [by left|right]. apply Hun1. split; [right; by split|done]. }
  destruct (set_owner s1 o x Hw1 Hx1) as [Hw2 Hun2]. split; [done|].
  intros fd. etransitivity; [exact (Hun2 fd)|]. rewrite Hun1.
  unfold owns at 2. cbn [objects s1].
  assert (forall fd', owns s other fd' -> fd' = x) as Hox by (intros fd' [? _]; congruence).
  assert (unowned s fd -> fd <> x) as Hux.
  { intros [Hin Hno] ->. apply (Hno other). split; [done|].
    apply open_fds_range in Hin. lia. }
  split.
  - intros [[[[H|H] _]|[Ho Hfd]] Hne]; [by left|by apply Hox in H|].
    apply lookup_insert_Some in Ho as [[_ <-]|[? ?]]; [done|]. right. by repeat split.
  - intros [H|[[Ho Hfd] Hne]].
    + split; [|auto]. left. split; [by left|by eapply unowned_not_none].
    + split; [right; split; [by rewrite lookup_insert_ne|done]|].
      intros ->. apply Hne. by apply (proj2 Hw o other x).
Qed.

(** C28: Descriptors have one owner each: every operation on [Fd] objects keeps
    the descriptors of different objects different and open, so each is closed
    once and only while it is open; and it leaves unowned what it should - except
    move assignment, which leaks the descriptor of the object assigned to. *)
Theorem fd_ownership a s :
  well_owned s -> allowed a s ->
  exists s', step a s = Ok s' /\ well_owned s' /\
    forall fd, unowned s' fd <-> unowned_after a s fd.
Proof.
  intros Hw. destruct a as [o|o fd0|o other|o other|o|o|o fd0|o]; cbn [step allowed unowned_after].
  - intros Hnew. rewrite Hnew. eexists. split; [done|].
    destruct (set_owner s o (-1) Hw (or_introl eq_refl)) as [Hw' Hun]. split; [done|].
    intros fd. rewrite Hun. unfold owns. rewrite Hnew. split; [naive_solver|].
    intros H. split; [by left|by eapply unowned_not_none].
  - intros [Hnew Hfd]. rewrite Hnew. eexists. split; [done|].
    destruct (set_owner s o fd0 Hw Hfd) as [Hw' Hun]. split; [done|].
    intros fd. rewrite Hun. unfold owns. rewrite Hnew. naive_solver.
  - intros [Hnew [x Hx]]. rewrite Hx. cbn. rewrite Hnew. eexists. split; [done|].
    destruct (transfer_owner s o other x Hw Hx) as [Hw' Hun]. split; [done|].
    intros fd. rewrite Hun. unfold owns. rewrite Hnew. naive_solver.
  - intros [[y Hy] [x Hx]]. rewrite Hy. cbn. rewrite Hx. eexists. split; [done|].
    by apply transfer_owner.
  - intros [x Hx]. rewrite Hx. eexists. split; [done|]. apply (close_owner s o); [done|done|].
    intros o' fd. rewrite lookup_delete_Some. unfold owns. naive_solver.
  - intros [x Hx]. rewrite Hx. eexists. split; [done|]. apply (close_owner s o); [done|done|].
    intros o' fd. rewrite lookup_insert_Some. unfold owns. naive_solver.
  - intros [[x Hx] Hfd]. rewrite Hx. eexists. split; [done|].
    set (s1 := mkState (<[o := -1]> (objects s)) (close x (kernel s)).2).
    destruct (close_owner s o x (<[o := -1]> (objects s)) Hw Hx) as [Hw1 Hun1].
    { intros o' fd. rewrite lookup_insert_Some. unfold owns. naive_solver. }
    fold s1 in Hw1, Hun1.
    destruct (set_owner s1 o fd0 Hw1) as [Hw2 Hun2]; [by rewrite Hun1|].
    cbn [s1 objects kernel] in Hw2, Hun2. rewrite insert_insert_eq in Hw2, Hun2.
    split; [exact Hw2|]. intros fd. rewrite Hun2, Hun1. unfold owns. cbn [s1 objects].
    rewrite lookup_insert_eq. naive_solver.
  - intros [x Hx]. rewrite Hx. eexists. split; [done|].
    destruct (set_owner s o (-1) Hw (or_introl eq_refl)) as [Hw' Hun]. split; [done|].
    intros fd. rewrite Hun. split; [naive_solver|]. intros H. split; [done|].
    destruct H as [H|[_ H]]; [by eapply unowned_not_none|done].
Qed.

(** ** Pipes *)

Record Pipe : Type := mkPipe { read : Z; write : Z }.

(** [Pipe::Pipe] *)
Definition make_pipe (k : K) : outcome (Pipe * K) :=
  let '(fds, k) := sys_pipe k in
  _ ← cassert (match fds with Some _ => true | None => false end);
  '(r, w) ← deref fds;
  let '(rd, k) := reset r empty k in
  let '(wr, k) := reset w empty k in
  Ok (mkPipe rd wr, k).

Definition close_pipe (p : Pipe) (k : K) : Pipe * K :=
  let '(r, k) := close (read p) k in
  let '(w, k) := close (write p) k in
  (mkPipe r w, k).

(** A pipe owns two new descriptors, and closing it closes exactly these;
    when there is none to be had the constructor's assertion fails. *)
Theorem pipe_roundtrip k :
  match make_pipe k with
  | Ok (p, k1) => read p <> write p /\ (read p ∉ open_fds k) /\ (write p ∉ open_fds k) /\
      open_fds k1 = {[read p; write p]} ∪ open_fds k /\
      exists k2, close_pipe p k1 = (mkPipe (-1) (-1), k2) /\ open_fds k2 = open_fds k
  | Crash c => c = AssertFailed /\ (sys_pipe k).1 = None
  end.
Proof.
  unfold make_pipe. pose proof (pipe_spec k) as H.
  destruct (sys_pipe k) as [[[r w]|] k1]; cbn; [|done].
  destruct H as (Hr & Hw & Hne & Hopen).
  split; [done|]. split; [done|]. split; [done|]. split; [done|].
  assert (r <> -1 /\ w <> -1) as [Hr1 Hw1].
  { split; intros ->; assert (-1 ∈ open_fds k1) as Hin by (rewrite Hopen; set_solver);
      apply open_fds_range in Hin; lia. }
  unfold close_pipe, close. cbn [read write]. rewrite !(proj2 (Z.eqb_neq _ _)) by done. cbn.
  eexists. split; [done|]. rewrite !close_spec, Hopen. set_solver.
Qed.

End Fd.
End Fd.

(** ** A kernel for the witness: the set of open descriptors *)
Module SimPosix.

Definition above (k : gset Z) : Z := 1 + foldr Z.max 2 (elements k).

#[global] Instance sim_posix : Posix (gset Z) := {
  sys_close fd k := k ∖ {[fd]};
  sys_pipe k := (Some (above k, above k + 1), {[above k; above k + 1]} ∪ k)
}.

Lemma above_spec k x : x ∈ k -> x < above k.
Proof.
  intros Hx%elem_of_elements. unfold above. induction (elements k) as [|y l IH].
  - by apply elem_of_nil in Hx.
  - cbn. apply elem_of_cons in Hx as [->|Hx]; [lia|]. specialize (IH Hx). lia.
Qed.

Lemma above_pos k : 0 <= above k.
Proof. unfold above. induction (elements k); cbn; lia. Qed.

#[global] Program Instance sim_posix_spec : PosixSpec (gset Z) := {
  open_fds k := filter (fun fd => 0 <= fd) k
}.
Next Obligation. intros k fd. cbn. by intros [? _]%elem_of_filter. Qed.
Next Obligation. intros fd k. cbn. set_solver. Qed.
Next Obligation.
  intros k. cbn. pose proof (above_pos k).
  assert (forall x, x ∈ k -> x < above k) as Hk by apply above_spec.
  split; [|split; [|split; [lia|]]].
  - intros [_ Hin%Hk]%elem_of_filter. lia.
  - intros [_ Hin%Hk]%elem_of_filter. lia.
  - apply set_eq. intros x. rewrite elem_of_union, !elem_of_filter, !elem_of_union,
      !elem_of_singleton. split; [|intros [[->| ->]|?]; intuition lia]. intuition.
Qed.

(** Two sockets open, one of them owned. *)
Definition two_open : Fd.state :=
  Fd.mkState (<[1 := 7]> (<[2 := -1]> ∅)) ({[7; 8]} : gset Z).

End SimPosix.

Lemma fd_ownership_witness :
  Fd.well_owned SimPosix.two_open /\ Fd.allowed (Fd.MoveAssign 2 1) SimPosix.two_open /\
  exists s', Fd.step (Fd.MoveAssign 2 1) SimPosix.two_open = Ok s' /\ Fd.well_owned s' /\
    forall fd, Fd.unowned s' fd <-> Fd.unowned_after (Fd.MoveAssign 2 1) SimPosix.two_open fd.
Proof.
  assert (Fd.well_owned SimPosix.two_open) as Hw.
  { assert (forall o fd, Fd.owns SimPosix.two_open o fd -> o = 1 /\ fd = 7) as Ho.
    { intros o fd [H Hne]. unfold SimPosix.two_open in H. cbn in H.
      apply lookup_insert_Some in H as [[<- <-]|[_ H]]; [done|].
      apply lookup_insert_Some in H as [[<- <-]|[_ H]]; [done|]. done. }
    split; [|by intros o1 o2 fd [-> _]%Ho [-> _]%Ho].
    intros o fd [-> ->]%Ho. by apply (bool_decide_unpack _); vm_compute. }
  assert (Fd.allowed (Fd.MoveAssign 2 1) SimPosix.two_open) as Ha by (split; eexists; reflexivity).
  split; [exact Hw|]. split; [exact Ha|].
  exact (Fd.fd_ownership (Fd.MoveAssign 2 1) SimPosix.two_open Hw Ha).
Defined.

Lemma pipe_roundtrip_witness :
  match Fd.make_pipe ({[0; 1; 2]} : gset Z) with
  | Ok (p, k1) => Fd.read p <> Fd.write p
  | Crash c => False
  end.
Proof.
  pose proof (Fd.pipe_roundtrip ({[0; 1; 2]} : gset Z)) as H.
  destruct (Fd.make_pipe ({[0; 1; 2]} : gset Z)) as [[p k1]|c]; [exact (proj1 H)|].
  destruct H as [_ H]. discriminate H.
Defined.
