(* ===== verification/Addresses.v ===== *)
(** * Addresses: [IpAddress] and [IpAddressPort] (socket.hpp, socket.cpp)

    Strings are lists of characters.  [inet_aton], [inet_ntoa], [htons] and
    [ntohs] are parameters ([Inet]) with their documented laws ([InetSpec]);
    [std::to_string] and [std::from_chars] are modelled. *)

From Stdlib Require Import ZArith Lia Ascii String.
From stdpp Require Import base numbers list option.
From S2P Require Import Prelude.

Local Open Scope Z_scope.

Abbreviation str := (list ascii).

(** ** Decimal numbers *)

Definition digit (d : Z) : ascii := ascii_of_N (Z.to_N (48 + d)).
Definition digit_value (c : ascii) : Z := Z.of_N (N_of_ascii c) - 48.
Definition is_digit (c : ascii) : bool := (0 <=? digit_value c) && (digit_value c <=? 9).

(** The decimal digits of [n]; [fuel] digits at most. *)
Fixpoint decimal (fuel : nat) (n : Z) : str :=
  match fuel with
  | O => []
  | S fuel => (if n <? 10 then [] else decimal fuel (n / 10)) ++ [digit (n mod 10)]
  end.

(** [std::to_string] of an integer below [10^20]. *)
Definition to_string (n : Z) : str := decimal 20 n.

Fixpoint span_digits (l : str) : str * str :=
  match l with
  | c :: l' =>
      if is_digit c then let '(ds, rest) := span_digits l' in (c :: ds, rest) else ([], l)
  | [] => ([], [])
  end.

Definition digits_value (ds : str) : Z := fold_left (fun v c => 10 * v + digit_value c) ds 0.

Inductive errc : Type := errc_none | errc_invalid_argument | errc_result_out_of_range.

#[export] Instance errc_eq_dec : EqDecision errc.
Proof. solve_decision. Defined.

(** [std::from_chars] into an unsigned integer of [w] bits: the rest of the input,
    the error, and the value stored if there is none. *)
Definition from_chars (w : Z) (l : str) : str * errc * Z :=
  let '(ds, rest) := span_digits l in
  match ds with
  | [] => (l, errc_invalid_argument, 0)
  | _ =>
      let v := digits_value ds in
      if v <? 2 ^ w then (rest, errc_none, v) else (rest, errc_result_out_of_range, 0)
  end.

Lemma digit_value_digit d : 0 <= d <= 9 -> digit_value (digit d) = d.
Proof.
  intros Hd. unfold digit_value, digit. rewrite N_ascii_embedding by lia. lia.
Qed.

Lemma is_digit_digit d : 0 <= d <= 9 -> is_digit (digit d) = true.
Proof.
  intros Hd. unfold is_digit. rewrite digit_value_digit by done.
  apply andb_true_iff. split; apply Z.leb_le; lia.
Qed.

Lemma span_digits_all ds rest :
  Forall (fun c => is_digit c = true) ds ->
  match rest with [] => True | c :: _ => is_digit c = false end ->
  span_digits (ds ++ rest) = (ds, rest).
Proof.
  intros Hds Hr. induction Hds as [|c ds Hc Hds IH]; cbn.
  - destruct rest as [|c rest]; [done|]. cbn. by rewrite Hr.
  - by rewrite Hc, IH.
Qed.

Lemma span_digits_spec l ds rest :
  span_digits l = (ds, rest) ->
  l = ds ++ rest /\ Forall (fun c => is_digit c = true) ds /\
  (Forall (fun c => is_digit c = true) l -> rest = []).
Proof.
  revert ds. induction l as [|c l IH]; intros ds; cbn.
  - intros [= <- <-]. done.
  - destruct (is_digit c) eqn:Hc.
    + destruct (span_digits l) as [ds' rest'] eqn:E. intros [= <- <-].
      destruct (IH ds' eq_refl) as (-> & Hds & Hall). split; [done|]. split; [by constructor|].
      intros Hx. apply Hall. by inversion Hx.
    + intros [= <- <-]. split; [done|]. split; [constructor|]. intros Hx.
      inversion Hx. congruence.
Qed.

(** [from_chars] takes the whole of [l] exactly when it is digits of a number in range. *)
Lemma from_chars_spec w l rest ec v :
  from_chars w l = (rest, ec, v) ->
  (ec = errc_none /\ rest = [] /\ l <> [] /\ Forall (fun c => is_digit c = true) l /\
    v = digits_value l /\ digits_value l < 2 ^ w) \/
  (~ (ec = errc_none /\ rest = []) /\
    (l = [] \/ ~ (Forall (fun c => is_digit c = true) l /\ digits_value l < 2 ^ w))).
Proof.
  unfold from_chars. destruct (span_digits l) as [ds rest'] eqn:E.
  destruct (span_digits_spec l ds rest' E) as (Hl & Hds & Hall).
  destruct ds as [|c ds].
  - intros [= <- <- <-]. right. split; [by intros [? _]|].
    destruct l as [|c' l']; [by left|right]. intros [Hd _]. apply Hall in Hd.
    cbn in Hl. by rewrite Hd in Hl.
  - destruct (Z.ltb_spec (digits_value (c :: ds)) (2 ^ w)) as [Hlt|Hge]; intros [= <- <- <-].
    + destruct rest' as [|c' r].
      * rewrite app_nil_r in Hl. subst l. by left.
      * right. split; [by intros [_ ?]|]. right. intros [Hd _]. by apply Hall in Hd.
    + right. split; [by intros [? _]|]. right. intros [Hd Hv]. apply Hall in Hd as ->.
      rewrite app_nil_r in Hl. subst l. lia.
Qed.

Lemma digits_value_nonneg ds : Forall (fun c => is_digit c = true) ds -> 0 <= digits_value ds.
Proof.
  unfold digits_value. assert (H : forall v, 0 <= v -> Forall (fun c => is_digit c = true) ds ->
    0 <= fold_left (fun v c => 10 * v + digit_value c) ds v); [|by apply H].
  induction ds as [|c ds IH]; intros v Hv Hds; [done|]. cbn. inversion Hds as [|? ? Hc Hds']; subst.
  apply IH; [|done]. unfold is_digit in Hc. apply andb_true_iff in Hc as [Hc _].
  apply Z.leb_le in Hc. lia.
Qed.

Lemma decimal_digits fuel : forall n, 0 <= n -> Forall (fun c => is_digit c = true) (decimal fuel n).
Proof.
  induction fuel as [|fuel IH]; intros n Hn; cbn; [constructor|].
  apply Forall_app. split.
  - destruct (n <? 10); [constructor|]. apply IH, Z.div_pos; lia.
  - constructor; [|constructor]. apply is_digit_digit.
    pose proof (Z.mod_pos_bound n 10 ltac:(lia)). lia.
Qed.

Lemma decimal_value fuel : forall n,
  0 <= n < 10 ^ Z.of_nat fuel -> digits_value (decimal fuel n) = n.
Proof.
  induction fuel as [|fuel IH]; intros n Hn; [cbn in *; lia|].
  cbn [decimal]. unfold digits_value. rewrite fold_left_app. cbn [fold_left].
  pose proof (Z.div_mod n 10 ltac:(lia)). pose proof (Z.mod_pos_bound n 10 ltac:(lia)).
  rewrite digit_value_digit by lia. destruct (Z.ltb_spec n 10) as [Hlt|Hge].
  - cbn. rewrite Z.mod_small by lia. lia.
  - fold (digits_value (decimal fuel (n / 10))). rewrite IH; [lia|].
    split; [apply Z.div_pos; lia|]. apply Z.div_lt_upper_bound; [lia|].
    rewrite Nat2Z.inj_succ, Z.pow_succ_r in Hn by lia. lia.
Qed.

Lemma decimal_nonempty fuel n : decimal (S fuel) n <> [].
Proof. cbn. by destruct (if n <? 10 then _ else _). Qed.

Lemma from_chars_to_string w n rest :
  0 <= n < 2 ^ w -> n < 10 ^ 20 ->
  match rest with [] => True | c :: _ => is_digit c = false end ->
  from_chars w (to_string n ++ rest) = (rest, errc_none, n).
Proof.
  intros Hn H20 Hr. unfold from_chars, to_string.
  rewrite span_digits_all by (done || apply decimal_digits; lia).
  rewrite decimal_value by lia.
  destruct (decimal 20 n) eqn:E; [by apply decimal_nonempty in E|].
  by rewrite (proj2 (Z.ltb_lt _ _)) by lia.
Qed.

(** [str.c_str()] as a C function reads it: up to the first null character. *)
Fixpoint c_str (s : str) : str :=
  match s with
  | [] => []
  | c :: s => if decide (c = zero) then [] else c :: c_str s
  end.

Lemma c_str_id s : zero ∉ s -> c_str s = s.
Proof.
  induction s as [|c s IH]; cbn; [done|]. intros [Hc Hs]%not_elem_of_cons.
  rewrite decide_False by done. by rewrite IH.
Qed.

(** ** The C library *)

Class Inet := {
  (* the address in network byte order *)
  inet_aton : str -> option Z;
  inet_ntoa : Z -> str;
  htons : Z -> Z;
  ntohs : Z -> Z
}.

Class InetSpec {inet : Inet} := {
  inet_aton_ntoa ip : 0 <= ip < 2 ^ 32 -> inet_aton (inet_ntoa ip) = Some ip;
  inet_aton_range s ip : inet_aton s = Some ip -> 0 <= ip < 2 ^ 32;
  inet_ntoa_colon ip : 0 <= ip < 2 ^ 32 -> ":"%char ∉ inet_ntoa ip;
  inet_ntoa_zero ip : 0 <= ip < 2 ^ 32 -> zero ∉ inet_ntoa ip;
  ntohs_htons p : 0 <= p < 2 ^ 16 -> ntohs (htons p) = p
}.

Module IpAddress.

Record IpAddress : Type := mkIpAddress { ipv4 : Z }.

#[export] Instance ip_eq_dec : EqDecision IpAddress.
Proof. solve_decision. Defined.

(** [IpAddress(oct0, oct1, oct2, oct3)] *)
Definition of_octets (oct0 oct1 oct2 oct3 : Z) : IpAddress :=
  mkIpAddress (u32 (Z.lor (Z.lor (Z.lor oct0 (Z.shiftl oct1 8)) (Z.shiftl oct2 16))
    (Z.shiftl oct3 24))).

Section IpAddress.
Context {inet : Inet}.

Definition parse (s : str) : option IpAddress :=
  match inet_aton (c_str s) with
  | None => None
  | Some addr => Some (mkIpAddress addr)
  end.

Definition toString (a : IpAddress) : str := inet_ntoa (ipv4 a).

End IpAddress.

(** Byte [i] of the address as it lies in memory, least significant first. *)
Definition memory_byte (i : Z) (a : IpAddress) : Z := (ipv4 a / 256 ^ i) mod 256.

Lemma of_octets_sum a b c d :
  0 <= a < 256 -> 0 <= b < 256 -> 0 <= c < 256 -> 0 <= d < 256 ->
  ipv4 (of_octets a b c d) = a + 256 * b + 65536 * c + 16777216 * d.
Proof.
  intros Ha Hb Hc Hd. unfold of_octets. cbn [ipv4].
  assert (Hor : forall x y n, 0 < n -> 0 <= x < 2 ^ n -> 0 <= y ->
    Z.lor x (Z.shiftl y n) = x + 2 ^ n * y).
  { intros x y n Hn Hx Hy. rewrite Z.shiftl_mul_pow2 by lia.
    rewrite <- Z.lxor_lor, <- Z.add_nocarry_lxor; [lia| |].
    all: rewrite <- Z.shiftl_mul_pow2 by lia; apply Z.bits_inj'; intros i Hi;
      rewrite Z.land_spec, Z.bits_0; destruct (Z.lt_ge_cases i n).
    all: try (rewrite Z.shiftl_spec_low by done; apply andb_false_r).
    all: rewrite (Z.bits_above_log2 x i), ?andb_false_l; try done; try lia.
    all: destruct (decide (x = 0)) as [->|]; [cbn; lia|];
      apply Z.log2_lt_pow2; [lia|]; eapply Z.lt_le_trans; [apply Hx|];
      apply Z.pow_le_mono_r; lia. }
  rewrite (Hor a b 8) by lia. rewrite (Hor _ c 16) by lia. rewrite (Hor _ d 24) by lia.
  rewrite wrap_small; lia.
Qed.

Lemma of_octets_bytes a b c d :
  0 <= a < 256 -> 0 <= b < 256 -> 0 <= c < 256 -> 0 <= d < 256 ->
  let ip := of_octets a b c d in
  memory_byte 0 ip = a /\ memory_byte 1 ip = b /\ memory_byte 2 ip = c /\ memory_byte 3 ip = d.
Proof.
  intros Ha Hb Hc Hd. cbn zeta. unfold memory_byte. rewrite of_octets_sum by done.
  change (256 ^ 0) with 1. change (256 ^ 1) with 256. change (256 ^ 2) with 65536.
  change (256 ^ 3) with 16777216. Z.to_euclidean_division_equations. lia.
Qed.

End IpAddress.

Module IpAddressPort.

Import IpAddress(IpAddress, mkIpAddress, ipv4).

Record IpAddressPort : Type := mkIpAddressPort { address : IpAddress; port : Z }.

Record sockaddr_in : Type := mkSockaddr { sin_family : Z; sin_addr : Z; sin_port : Z }.

Definition AF_INET : Z := 2.

(** [IpAddressPort(IpAddress addr)] *)
Definition of_address (addr : IpAddress) : IpAddressPort := mkIpAddressPort addr 0.

Section IpAddressPort.
Context {inet : Inet}.

(** [IpAddressPort(const sockaddr_in& sa)] *)
Definition of_sockaddr (sa : sockaddr_in) : IpAddressPort :=
  mkIpAddressPort (mkIpAddress (sin_addr sa)) (ntohs (sin_port sa)).

Definition getSockAddr (a : IpAddressPort) : sockaddr_in :=
  let sa := mkSockaddr 0 0 0 in
  let sa := mkSockaddr AF_INET (sin_addr sa) (sin_port sa) in
  let sa := mkSockaddr (sin_family sa) (ipv4 (address a)) (sin_port sa) in
  mkSockaddr (sin_family sa) (sin_addr sa) (htons (port a)).

Definition toString (a : IpAddressPort) : str :=
  IpAddress.toString (address a) ++ [":"%char] ++ to_string (port a).

(** [str.find(':')] *)
Fixpoint find_colon (s : str) : option nat :=
  match s with
  | [] => None
  | c :: s => if decide (c = ":"%char) then Some O else S <$> find_colon s
  end.

(** [front()] of an empty view is undefined. *)
Definition parse (s : str) : outcome (option IpAddressPort) :=
  match find_colon s with
  | None => Ok None
  | Some portDelim =>
      let ipStr := take portDelim s in
      match IpAddress.parse ipStr with
      | None => Ok None
      | Some ip =>
          let portSv := drop (S portDelim) s in
          _ ← deref (head portSv);
          let '(rest, ec, port) := from_chars 16 portSv in
          if negb (bool_decide (ec = errc_none)) || negb (bool_decide (rest = []))
          then Ok None
          else Ok (Some (mkIpAddressPort ip port))
      end
  end.

Context {inet_spec : InetSpec}.

(** The values the C++ types can hold. *)
Definition in_range (a : IpAddressPort) : Prop :=
  0 <= ipv4 (address a) < 2 ^ 32 /\ 0 <= port a < 2 ^ 16.

Lemma find_colon_app ip rest :
  ":"%char ∉ ip -> find_colon (ip ++ [":"%char] ++ rest) = Some (length ip).
Proof.
  induction ip as [|c ip IH]; cbn; intros Hno; [done|].
  rewrite decide_False by (intros ->; apply Hno; by left).
  cbn in IH. rewrite IH; [done|]. intros Hin. apply Hno. by right.
Qed.

Lemma find_colon_Some s i :
  find_colon s = Some i ->
  s = take i s ++ [":"%char] ++ drop (S i) s /\ ":"%char ∉ take i s.
Proof.
  revert i. induction s as [|c s IH]; cbn; intros i H; [done|].
  destruct (decide (c = ":"%char)) as [->|Hne].
  - injection H as <-. cbn. rewrite drop_0. split; [done|]. by intros Hx%elem_of_nil.
  - destruct (find_colon s) as [j|] eqn:E; [|done]. injection H as <-.
    destruct (IH j eq_refl) as [Heq Hno]. cbn. split; [f_equal; exact Heq|].
    intros [?|?]%elem_of_cons; [by subst|done].
Qed.

Lemma find_colon_None s : find_colon s = None <-> ":"%char ∉ s.
Proof.
  induction s as [|c s IH]; cbn.
  - split; [|done]. by intros _ Hx%elem_of_nil.
  - rewrite not_elem_of_cons, <- IH. destruct (decide (c = ":"%char)) as [->|Hne].
    + split; [done|]. by intros [? _].
    + destruct (find_colon s); cbn; naive_solver.
Qed.

(** C39: Printing an address and parsing it gives the address back. *)
Theorem parse_toString a : in_range a -> parse (toString a) = Ok (Some a).
Proof.
  intros [Hip Hport]. destruct a as [[ip] p]. cbn in Hip, Hport. unfold parse, toString.
  cbn [address port]. unfold IpAddress.toString. cbn [ipv4].
  rewrite find_colon_app by by apply inet_ntoa_colon.
  rewrite take_app_length. unfold IpAddress.parse.
  rewrite c_str_id, inet_aton_ntoa by (done || by apply inet_ntoa_zero).
  replace (drop (S (length (inet_ntoa ip))) (inet_ntoa ip ++ [":"%char] ++ to_string p))
    with (to_string p).
  2: { rewrite drop_app_ge by lia.
    by replace (S (length (inet_ntoa ip)) - length (inet_ntoa ip))%nat with 1%nat by lia. }
  pose proof (from_chars_to_string 16 p [] Hport ltac:(lia) I) as Hfc. rewrite app_nil_r in Hfc.
  destruct (to_string p) as [|c l] eqn:E; [by apply decimal_nonempty in E|].
  cbn [head deref mbind outcome_bind]. rewrite Hfc.
  rewrite !bool_decide_eq_true_2 by done. done.
Qed.

(** C33: What [IpAddressPort::parse] accepts: an address [inet_aton] accepts, a
    colon - the first one - and a port of decimal digits only, below 65536.  A
    text that ends with its first colon, after a good address, is not rejected but
    read out of bounds. *)
Theorem parse_spec s :
  match parse s with
  | Ok (Some a) => exists ip ds, s = ip ++ [":"%char] ++ ds /\ (":"%char ∉ ip) /\
      inet_aton (c_str ip) = Some (ipv4 (address a)) /\ ds <> [] /\
      Forall (fun c => is_digit c = true) ds /\ port a = digits_value ds /\ in_range a
  | Ok None => (":"%char ∉ s) \/ exists ip p, s = ip ++ [":"%char] ++ p /\ (":"%char ∉ ip) /\
      (inet_aton (c_str ip) = None \/
       (p <> [] /\ ~ (Forall (fun c => is_digit c = true) p /\ digits_value p < 2 ^ 16)))
  | Crash c => c = UndefinedBehaviour /\ exists ip, s = ip ++ [":"%char] /\
      is_Some (inet_aton (c_str ip))
  end.
Proof.
  unfold parse. destruct (find_colon s) as [i|] eqn:Hi; [|left; by apply find_colon_None].
  destruct (find_colon_Some s i Hi) as [Hs Hno].
  set (ip := take i s) in *. set (p := drop (S i) s) in *.
  unfold IpAddress.parse. destruct (inet_aton (c_str ip)) as [x|] eqn:Hip.
  2: { right. exists ip, p. auto. }
  destruct (head p) as [c|] eqn:Hp; cbn [deref mbind outcome_bind].
  2: { destruct p; [|done]. split; [done|]. exists ip. by rewrite Hip. }
  assert (p <> []) as Hne by (intros He; by rewrite He in Hp).
  destruct (from_chars 16 p) as [[rest ec] v] eqn:Hfc.
  destruct (from_chars_spec 16 p rest ec v Hfc)
    as [(-> & -> & _ & Hd & -> & Hv)|[Hno' Hbad]].
  - rewrite !bool_decide_eq_true_2 by done. cbn [negb orb]. exists ip, p.
    split; [done|]. split; [done|]. split; [done|]. split; [done|]. split; [done|].
    split; [done|]. split; cbn; [by apply (inet_aton_range (c_str ip))|].
    split; [by apply digits_value_nonneg|done].
  - assert (negb (bool_decide (ec = errc_none)) || negb (bool_decide (rest = [])) = true) as ->.
    { destruct (decide (ec = errc_none)) as [->|].
      - rewrite (bool_decide_eq_false_2 (rest = [])); [apply orb_true_r|]. intros ->. by apply Hno'.
      - by rewrite (bool_decide_eq_false_2 (ec = errc_none)). }
    right. exists ip, p. split; [done|]. split; [done|]. right. split; [done|].
    by destruct Hbad.
Qed.

(** The socket address made of an IPv4 address, given by its octets, and a port
    has the octets in memory in network order, and gives both back. *)
Theorem sockaddr_roundtrip o0 o1 o2 o3 p :
  0 <= o0 < 256 -> 0 <= o1 < 256 -> 0 <= o2 < 256 -> 0 <= o3 < 256 -> 0 <= p < 2 ^ 16 ->
  let a := mkIpAddressPort (IpAddress.of_octets o0 o1 o2 o3) p in
  let ip := mkIpAddress (sin_addr (getSockAddr a)) in
  of_sockaddr (getSockAddr a) = a /\ sin_family (getSockAddr a) = AF_INET /\
  IpAddress.memory_byte 0 ip = o0 /\ IpAddress.memory_byte 1 ip = o1 /\
  IpAddress.memory_byte 2 ip = o2 /\ IpAddress.memory_byte 3 ip = o3.
Proof.
  intros H0 H1 H2 H3 Hp a ip. split; [|split; [done|]].
  - unfold of_sockaddr, getSockAddr, a. cbn. by rewrite ntohs_htons.
  - by apply IpAddress.of_octets_bytes.
Qed.

End IpAddressPort.
End IpAddressPort.

(** ** A C library for the witnesses: dotted decimal, little-endian host *)
Module SimInet.

Abbreviation dot := "."%char.

(** The parts between the dots. *)
Fixpoint parts (s : str) : list str :=
  match s with
  | [] => [[]]
  | c :: s =>
      if decide (c = dot) then [] :: parts s
      else match parts s with
           | p :: ps => (c :: p) :: ps
           | [] => [[c]]
           end
  end.

Definition octet (s : str) : option Z :=
  match from_chars 8 s with
  | ([], errc_none, v) => Some v
  | _ => None
  end.

Definition aton (s : str) : option Z :=
  match parts s with
  | [a; b; c; d] =>
      a ← octet a; b ← octet b; c ← octet c; d ← octet d;
      Some (a + 256 * b + 65536 * c + 16777216 * d)
  | _ => None
  end.

Definition ntoa (ip : Z) : str :=
  to_string (ip mod 256) ++ [dot] ++ to_string (ip / 256 mod 256) ++ [dot] ++
  to_string (ip / 65536 mod 256) ++ [dot] ++ to_string (ip / 16777216 mod 256).

Definition swap (p : Z) : Z := p mod 256 * 256 + p / 256.

#[global] Instance sim_inet : Inet := {
  inet_aton := aton; inet_ntoa := ntoa; htons := swap; ntohs := swap
}.

Lemma parts_no_dot s : dot ∉ s -> parts s = [s].
Proof.
  induction s as [|c s IH]; cbn; [done|]. intros [Hc Hs]%not_elem_of_cons.
  rewrite decide_False by done. by rewrite IH.
Qed.

Lemma parts_app s rest : dot ∉ s -> parts (s ++ [dot] ++ rest) = s :: parts rest.
Proof.
  induction s as [|c s IH]; cbn; [done|]. intros [Hc Hs]%not_elem_of_cons.
  rewrite decide_False by done. cbn in IH. by rewrite IH.
Qed.

Lemma to_string_chars n c : 0 <= n -> c ∈ to_string n -> is_digit c = true.
Proof.
  intros Hn. by apply (proj1 (list.Forall_forall _ _) (decimal_digits 20 n Hn)).
Qed.

Lemma octet_to_string n : 0 <= n < 256 -> octet (to_string n) = Some n.
Proof.
  intros Hn. unfold octet.
  pose proof (from_chars_to_string 8 n [] ltac:(lia) ltac:(lia) I) as H.
  rewrite app_nil_r in H. by rewrite H.
Qed.

Lemma octet_range s v : octet s = Some v -> 0 <= v < 256.
Proof.
  unfold octet. destruct (from_chars 8 s) as [[rest ec] v'] eqn:E.
  destruct (from_chars_spec _ _ _ _ _ E) as [(-> & -> & _ & Hd & -> & Hv)|[Hno _]].
  - intros [= <-]. split; [by apply digits_value_nonneg|done].
  - destruct rest; [|done]. destruct ec; try done. by destruct Hno.
Qed.

#[global] Program Instance sim_inet_spec : InetSpec.
Next Obligation.
  intros ip Hip. change (aton (ntoa ip) = Some ip). unfold aton, ntoa.
  assert (forall n, dot ∉ to_string (n mod 256)) as Hdot.
  { intros n Hin. apply to_string_chars in Hin; [done|]. apply Z.mod_pos_bound. lia. }
  rewrite !parts_app, parts_no_dot by done.
  rewrite !octet_to_string by (apply Z.mod_pos_bound; lia). cbn. f_equal.
  Z.to_euclidean_division_equations. lia.
Qed.
Next Obligation.
  intros s ip. cbn. unfold aton.
  destruct (parts s) as [|a [|b [|c [|d [|]]]]]; try done. intros H.
  destruct (octet a) as [x|] eqn:Ha; [|done]. destruct (octet b) as [y|] eqn:Hb; [|done].
  destruct (octet c) as [z|] eqn:Hc; [|done]. destruct (octet d) as [t|] eqn:Hd; [|done].
  apply octet_range in Ha, Hb, Hc, Hd. cbn in H. injection H as <-. lia.
Qed.
Next Obligation.
  intros ip Hip. change (":"%char ∉ ntoa ip). unfold ntoa.
  assert (forall n, ":"%char ∉ to_string (n mod 256)) as Hcolon.
  { intros n Hin. apply to_string_chars in Hin; [done|]. apply Z.mod_pos_bound. lia. }
  rewrite !elem_of_app, !list_elem_of_singleton.
  intros [H|[H|[H|[H|[H|[H|H]]]]]]; done || by apply Hcolon in H.
Qed.
Next Obligation.
  intros ip Hip. change (zero ∉ ntoa ip). unfold ntoa.
  assert (forall n, zero ∉ to_string (n mod 256)) as Hzero.
  { intros n Hin. apply to_string_chars in Hin; [done|]. apply Z.mod_pos_bound. lia. }
  rewrite !elem_of_app, !list_elem_of_singleton.
  intros [H|[H|[H|[H|[H|[H|H]]]]]]; done || by apply Hzero in H.
Qed.
Next Obligation. intros p Hp. cbn. unfold swap. Z.to_euclidean_division_equations. lia. Qed.

End SimInet.

Lemma parse_toString_witness :
  let a := IpAddressPort.mkIpAddressPort (IpAddress.of_octets 127 0 0 1) 8080 in
  IpAddressPort.in_range a /\
  IpAddressPort.parse (IpAddressPort.toString a) = Ok (Some a).
Proof.
  intros a. assert (IpAddressPort.in_range a) as Ha.
  { apply (bool_decide_unpack _). vm_compute. exact I. }
  split; [exact Ha|]. exact (IpAddressPort.parse_toString a Ha).
Defined.

Lemma parse_spec_witness :
  exists ip, list_ascii_of_string "127.0.0.1:" = ip ++ [":"%char] /\ is_Some (inet_aton (c_str ip)).
Proof.
  assert (IpAddressPort.parse (list_ascii_of_string "127.0.0.1:") = Crash UndefinedBehaviour) as H
    by reflexivity.
  pose proof (IpAddressPort.parse_spec (list_ascii_of_string "127.0.0.1:")) as Hs.
  rewrite H in Hs. exact (proj2 Hs).
Defined.

Lemma sockaddr_roundtrip_witness :
  let a := IpAddressPort.mkIpAddressPort (IpAddress.of_octets 192 168 2 1) 443 in
  IpAddressPort.of_sockaddr (IpAddressPort.getSockAddr a) = a.
Proof. apply (IpAddressPort.sockaddr_roundtrip 192 168 2 1 443); lia. Defined.
