(* ===== verification/Sockets.v ===== *)
(** * Sockets: [createSocket], [bind] and [createTcpListenSocket] (socket.cpp)

    The system calls are parameters ([SocketCalls]) over the kernel state of
    [Fds.v]; a function that returns an [Fd] returns its descriptor.  Messages to
    the logger are left out. *)

From Stdlib Require Import ZArith Lia.
From stdpp Require Import base numbers gmap option.
From S2P Require Import Prelude Fds Addresses.

Local Open Scope Z_scope.

Import IpAddressPort.

(** -1 stands for failure, as in C. *)
Class SocketCalls (K : Type) := {
  SOCK_STREAM : Z;
  SOCK_DGRAM : Z;
  SOL_SOCKET : Z;
  SO_REUSEADDR : Z;
  sys_socket : Z -> Z -> Z -> K -> Z * K;
  sys_setsockopt : Z -> Z -> Z -> Z -> K -> Z * K;
  sys_bind : Z -> sockaddr_in -> K -> Z * K;
  sys_listen : Z -> Z -> K -> Z * K
}.

(** Only [socket] opens a descriptor, a new one. *)
Class SocketCallsSpec (K : Type) `{!Posix K} `{!PosixSpec K} `{!SocketCalls K} := {
  socket_spec domain type protocol k :
    let '(fd, k') := sys_socket domain type protocol k in
    if decide (fd = -1) then open_fds k' = open_fds k
    else (fd ∉ open_fds k) /\ open_fds k' = {[fd]} ∪ open_fds k;
  setsockopt_spec fd level opt val k :
    open_fds (sys_setsockopt fd level opt val k).2 = open_fds k;
  bind_spec fd sa k : open_fds (sys_bind fd sa k).2 = open_fds k;
  listen_spec fd backlog k : open_fds (sys_listen fd backlog k).2 = open_fds k
}.

Module Sockets.

Inductive SocketType : Type := Tcp | Udp.

Section Sockets.
Context {K : Type} `{!Posix K} `{!SocketCalls K}.
Context {inet : Inet}.

Definition getSocketType (type : SocketType) : Z :=
  match type with
  | Tcp => SOCK_STREAM
  | Udp => SOCK_DGRAM
  end.

(** [createSocket(type)] *)
Definition createSocket (type : SocketType) (k : K) : Z * K :=
  let '(fd, k) := sys_socket AF_INET (getSocketType type) 0 k in
  (fd, k).

Definition bind (fd : Z) (address : IpAddressPort) (k : K) : bool * K :=
  let sa := mkSockaddr AF_INET (IpAddress.ipv4 (IpAddressPort.address address))
              (htons (port address)) in
  let '(res, k) := sys_bind fd sa k in
  (negb (res =? -1), k).

(** [createSocket(type, bindAddress, reuseAddr)]; returning another [Fd] destroys
    the local one. *)
Definition createSocket_bound (type : SocketType) (bindAddress : IpAddressPort)
    (reuseAddr : bool) (k : K) : Z * K :=
  let '(socket, k) := createSocket type k in
  if socket =? -1 then (socket, k)
  else
    let '(ok, k) :=
      if reuseAddr then
        let '(res, k) := sys_setsockopt socket SOL_SOCKET SO_REUSEADDR 1 k in
        (negb (res =? -1), k)
      else (true, k) in
    if negb ok then (Fd.empty, Fd.destroy socket k)
    else
      let '(bound, k) := bind socket bindAddress k in
      if negb bound then (Fd.empty, Fd.destroy socket k)
      else (socket, k).

Definition createUdpSocket (bindAddress : IpAddressPort) (k : K) : Z * K :=
  let '(fd, k) := createSocket Udp k in
  let '(bound, k) := bind fd bindAddress k in
  if negb bound then (Fd.empty, Fd.destroy fd k) else (fd, k).

Definition createTcpListenSocket (listenAddress : IpAddressPort) (backlog : Z) (k : K) : Z * K :=
  let '(socket, k) := createSocket_bound Tcp listenAddress true k in
  if socket =? -1 then (socket, k)
  else
    let '(res, k) := sys_listen socket backlog k in
    if res =? -1 then (Fd.empty, Fd.destroy socket k) else (socket, k).

Context `{!PosixSpec K} `{!SocketCallsSpec K}.

(** A new descriptor, or -1 and nothing left open. *)
Definition opens (fd : Z) (k k' : K) : Prop :=
  if decide (fd = -1) then open_fds k' = open_fds k
  else (fd ∉ open_fds k) /\ open_fds k' = {[fd]} ∪ open_fds k.

Lemma destroy_opened fd k k' k'' :
  opens fd k k' -> fd <> -1 -> open_fds k'' = open_fds k' -> opens Fd.empty k (Fd.destroy fd k'').
Proof.
  unfold opens. intros H Hne Hk. rewrite decide_False in H by done. destruct H as [Hnew Hopen].
  unfold Fd.empty. rewrite decide_True by done. unfold Fd.destroy.
  rewrite Fd.close_kernel, decide_False by done. set_solver.
Qed.

Lemma opens_same fd k k' k'' : opens fd k k' -> open_fds k'' = open_fds k' -> opens fd k k''.
Proof. unfold opens. by intros H ->. Qed.

Lemma createSocket_opens type k : opens (createSocket type k).1 k (createSocket type k).2.
Proof.
  unfold createSocket, opens. pose proof (socket_spec AF_INET (getSocketType type) 0 k) as H.
  by destruct (sys_socket _ _ _ k).
Qed.

(** The calls of a successful [createSocket] with an address, in order. *)
Definition bound_by (type : SocketType) (a : IpAddressPort) (reuse : bool) (fd : Z) (k k' : K) : Prop :=
  exists k1 k2 r, sys_socket AF_INET (getSocketType type) 0 k = (fd, k1) /\
    (if reuse then exists r', sys_setsockopt fd SOL_SOCKET SO_REUSEADDR 1 k1 = (r', k2) /\ r' <> -1
     else k2 = k1) /\
    sys_bind fd (getSockAddr a) k2 = (r, k') /\ r <> -1.

Lemma createSocket_bound_spec type a reuse k :
  let '(fd, k') := createSocket_bound type a reuse k in
  opens fd k k' /\ (fd <> -1 -> bound_by type a reuse fd k k').
Proof.
  unfold createSocket_bound. pose proof (createSocket_opens type k) as Ho.
  destruct (createSocket type k) as [fd k1] eqn:Hs. cbn [fst snd] in Ho.
  destruct (Z.eqb_spec fd (-1)) as [->|Hne]; [by split|].
  unfold createSocket in Hs. destruct (sys_socket _ _ _ k) as [fd' k1'] eqn:Hsock.
  injection Hs as -> ->.
  set (opt := if reuse then _ else _). destruct opt as [ok k2] eqn:Hopt.
  assert (open_fds k2 = open_fds k1) as Hk2.
  { unfold opt in Hopt. destruct reuse; [|by injection Hopt as _ <-].
    pose proof (setsockopt_spec fd SOL_SOCKET SO_REUSEADDR 1 k1) as H.
    destruct (sys_setsockopt _ _ _ _ k1). by injection Hopt as _ <-. }
  destruct ok; cbn [negb]; [|split; [by eapply destroy_opened|done]].
  unfold bind. pose proof (bind_spec fd (getSockAddr a) k2) as Hb.
  change (mkSockaddr AF_INET _ _) with (getSockAddr a).
  destruct (sys_bind fd (getSockAddr a) k2) as [r k3] eqn:Hbind. cbn [snd] in Hb.
  destruct (Z.eqb_spec r (-1)) as [->|Hr]; cbn [negb].
  - split; [|done]. eapply destroy_opened; [exact Ho|done|congruence].
  - split; [eapply opens_same; [exact Ho|congruence]|]. intros _. exists k1, k2, r.
    split; [done|]. split; [|done]. unfold opt in Hopt. destruct reuse; [|by injection Hopt as <-].
    destruct (sys_setsockopt _ _ _ _ k1) as [r' k2'] eqn:Hset. injection Hopt as Hr' ->.
    exists r'. split; [done|]. by apply negb_true_iff, Z.eqb_neq in Hr'.
Qed.

(** A listening socket or nothing: on success [createTcpListenSocket] returns
    one new descriptor, on which address reuse was switched on, then the address
    bound, then [listen] called; when any call fails it returns -1 and leaves no
    descriptor open. *)
Theorem listen_socket_spec a backlog k :
  let '(fd, k') := createTcpListenSocket a backlog k in
  opens fd k k' /\
  (fd <> -1 -> exists k1 r, bound_by Tcp a true fd k k1 /\
    sys_listen fd backlog k1 = (r, k') /\ r <> -1).
Proof.
  unfold createTcpListenSocket. pose proof (createSocket_bound_spec Tcp a true k) as H.
  destruct (createSocket_bound Tcp a true k) as [fd k1]. destruct H as [Ho Hb].
  destruct (Z.eqb_spec fd (-1)) as [->|Hne]; [by split|].
  pose proof (listen_spec fd backlog k1) as Hl.
  destruct (sys_listen fd backlog k1) as [r k2] eqn:Hlis. cbn [snd] in Hl.
  destruct (Z.eqb_spec r (-1)) as [->|Hr].
  - split; [by eapply destroy_opened|done].
  - split; [by eapply opens_same|]. intros _. exists k1, r. auto.
Qed.

End Sockets.
End Sockets.

(** ** Sockets for the witness, on the set of open descriptors *)

(** Port 1 cannot be bound. *)
#[local] Instance sim_sockets : SocketCalls (gset Z) := {
  SOCK_STREAM := 1; SOCK_DGRAM := 2; SOL_SOCKET := 1; SO_REUSEADDR := 2;
  sys_socket _ _ _ k := (SimPosix.above k, {[SimPosix.above k]} ∪ k);
  sys_setsockopt _ _ _ _ k := (0, k);
  sys_bind _ sa k := (if ntohs (sin_port sa) =? 1 then -1 else 0, k);
  sys_listen _ _ k := (0, k)
}.

#[local] Program Instance sim_sockets_spec : SocketCallsSpec (gset Z).
Next Obligation.
  intros domain type protocol k. cbn. pose proof (SimPosix.above_pos k).
  rewrite decide_False by lia. split.
  - intros [_ Hin%SimPosix.above_spec]%elem_of_filter. lia.
  - set_solver.
Qed.
Next Obligation. done. Qed.
Next Obligation. done. Qed.
Next Obligation. done. Qed.

Lemma listen_socket_spec_witness :
  let a := mkIpAddressPort (IpAddress.of_octets 0 0 0 0) 80 in
  let '(fd, k') := Sockets.createTcpListenSocket a 128 ({[0; 1; 2]} : gset Z) in
  fd <> -1 /\ Sockets.opens fd {[0; 1; 2]} k'.
Proof.
  intros a. pose proof (Sockets.listen_socket_spec a 128 ({[0; 1; 2]} : gset Z)) as H.
  destruct (Sockets.createTcpListenSocket a 128 {[0; 1; 2]}) as [fd k'] eqn:E.
  split; [|exact (proj1 H)]. vm_compute in E. injection E as <- _. lia.
Defined.
