(* ===== verification/EventFds.v ===== *)
(** * Results and event descriptors: [Result] (result.hpp), [IoResult]
    (ioqueue.hpp) and [EventFd] (eventfd.hpp, eventfd.cpp)

    An eventfd is the kernel's: its three calls are a parameter ([EventfdCalls])
    with what eventfd(2) promises about the counter ([EventfdSpec]). *)

From Stdlib Require Import ZArith Lia.
From stdpp Require Import base numbers option.
From S2P Require Import Prelude.

Local Open Scope Z_scope.

(** ** [Result<T, E>]: a variant of a value and an error *)

Module Results.

Inductive Result (T E : Type) : Type :=
| Value (t : T)
| Error (e : E).

Arguments Value {T E} t.
Arguments Error {T E} e.

Definition hasValue {T E} (r : Result T E) : bool :=
  match r with Value _ => true | Error _ => false end.

(** [std::get] of the alternative that is not there throws, and nothing catches it. *)
Definition value {T E} (r : Result T E) : outcome T :=
  match r with Value t => Ok t | Error _ => Crash Aborted end.

Definition error {T E} (r : Result T E) : outcome E :=
  match r with Error e => Ok e | Value _ => Crash Aborted end.

End Results.

(** ** [IoResult]: what a system call returned, or minus its [errno] *)

Module IoResults.

Definition INT_MIN : Z := - 2 ^ 31.

Record IoResult : Type := mkIoResult { result_ : Z }.

(** [IoResult()] *)
Definition default : IoResult := mkIoResult INT_MIN.

(** [operator bool] *)
Definition to_bool (r : IoResult) : bool := 0 <=? result_ r.

Definition result (r : IoResult) : outcome Z :=
  _ ← cassert (0 <=? result_ r); Ok (result_ r).

(** The number of the error; negating the smallest [int] overflows. *)
Definition error (r : IoResult) : outcome Z :=
  if result_ r =? INT_MIN then Crash UndefinedBehaviour else Ok (- result_ r).

(** An [IoResult] is either a result or an error: [result()] gives what the
    system call returned exactly when the object tests true and asserts
    otherwise, [error()] then gives the positive [errno]; the result of an
    operation that was never completed tests false and its [error()] overflows. *)
Theorem ioresult_cases r :
  INT_MIN <= result_ r < 2 ^ 31 ->
  (to_bool r = true /\ result r = Ok (result_ r) /\ 0 <= result_ r) \/
  (to_bool r = false /\ result r = Crash AssertFailed /\ r <> default /\
    exists errno, error r = Ok errno /\ result_ r = - errno /\ 0 < errno < 2 ^ 31) \/
  (to_bool r = false /\ result r = Crash AssertFailed /\ r = default /\
    error r = Crash UndefinedBehaviour).
Proof.
  intros Hr. destruct r as [x]. unfold to_bool, result, error, default. cbn [result_] in *.
  destruct (Z.leb_spec 0 x); cbn; [by left|right].
  destruct (Z.eqb_spec x INT_MIN) as [->|Hne]; [by right|left].
  split; [done|]. split; [done|]. split; [by intros [= ->]|].
  exists (- x). unfold INT_MIN in *. split; [done|]. lia.
Qed.

Lemma ioresult_cases_witness :
  INT_MIN <= -11 < 2 ^ 31 /\ exists errno, error (mkIoResult (-11)) = Ok errno /\ 0 < errno.
Proof.
  split; [unfold INT_MIN; lia|].
  destruct (ioresult_cases (mkIoResult (-11))) as [(H & _)|[(_ & _ & _ & e & He & _ & H1 & _)|(_ & _ & H & _)]];
    [unfold INT_MIN; cbn; lia|discriminate H|by exists e|discriminate H].
Defined.

End IoResults.

(** ** The kernel's event counters *)

Class EventfdCalls := {
  counter : Type;
  EFD_SEMAPHORE : Z;
  (* none: -1 *)
  sys_eventfd : Z -> Z -> option counter;
  (* none: not 0 *)
  sys_eventfd_write : Z -> counter -> option counter;
  (* none: the counter is 0 and read blocks *)
  sys_eventfd_read : counter -> option (Z * counter)
}.

Class EventfdSpec {calls : EventfdCalls} := {
  count : counter -> Z;
  semaphore : counter -> bool;
  count_nonneg c : 0 <= count c;
  semaphore_flag : EFD_SEMAPHORE <> 0;
  eventfd_spec init flags c :
    0 <= init -> sys_eventfd init flags = Some c ->
    count c = init /\ (flags = 0 -> semaphore c = false) /\
    (flags = EFD_SEMAPHORE -> semaphore c = true);
  eventfd_write_spec v c :
    0 < v -> count c + v < U64MAX ->
    exists c', sys_eventfd_write v c = Some c' /\ count c' = count c + v /\
      semaphore c' = semaphore c;
  eventfd_read_spec c :
    match sys_eventfd_read c with
    | None => count c = 0
    | Some (v, c') => 0 < count c /\ semaphore c' = semaphore c /\
        if semaphore c then v = 1 /\ count c' = count c - 1
        else v = count c /\ count c' = 0
    end
}.

Module EventFd.

Inductive Flags : Type := None_ | Semaphore.

#[export] Instance flags_eq_dec : EqDecision Flags.
Proof. solve_decision. Defined.

Section EventFd.
Context {calls : EventfdCalls}.


Definition flags_value (f : Flags) : Z :=
  match f with None_ => 0 | Semaphore => EFD_SEMAPHORE end.

(** [EventFd(Flags flags)] *)
Definition make (f : Flags) : outcome counter :=
  let fd := sys_eventfd 0 (flags_value f) in
  _ ← cassert (match fd with Some _ => true | None => false end);
  deref fd.

Definition write (v : Z) (fd : counter) : outcome counter :=
  let res := sys_eventfd_write v fd in
  _ ← cassert (match res with Some _ => true | None => false end);
  deref res.

(** What [EventFd::read] makes of the completed read: [buf] is what the kernel
    stored in the coroutine's frame. *)
Definition read_result (res : IoResults.IoResult) (buf : Z) : outcome (Results.Result Z Z) :=
  if IoResults.to_bool res then Ok (Results.Value buf)
  else e ← IoResults.error res; Ok (Results.Error e).

Context {spec : EventfdSpec}.

Lemma make_spec f c : make f = Ok c -> count c = 0 /\ semaphore c = bool_decide (f = Semaphore).
Proof.
  unfold make. destruct (sys_eventfd 0 (flags_value f)) as [c'|] eqn:E; [|done].
  cbn. intros [= <-]. apply eventfd_spec in E as (Hc & Hn & Hs); [|done]. split; [done|].
  destruct f; cbn in *; auto.
Qed.

Lemma write_spec v c :
  0 < v -> count c + v < U64MAX ->
  exists c', write v c = Ok c' /\ count c' = count c + v /\ semaphore c' = semaphore c.
Proof.
  intros Hv Hc. destruct (eventfd_write_spec v c Hv Hc) as (c' & Hw & Hcount).
  exists c'. unfold write. by rewrite Hw.
Qed.

End EventFd.
End EventFd.

(** ** A kernel for the witnesses: the counter and the mode *)

Module SimEventfd.

#[export] Instance sim_calls : EventfdCalls := {
  counter := N * bool;
  EFD_SEMAPHORE := 1;
  sys_eventfd init flags := Some (Z.to_N init, Z.odd flags);
  sys_eventfd_write v c :=
    if Z.of_N c.1 + v <? U64MAX then Some ((c.1 + Z.to_N v)%N, c.2) else None;
  sys_eventfd_read c :=
    match c with
    | (0%N, _) => None
    | (n, true) => Some (1, (N.pred n, true))
    | (n, false) => Some (Z.of_N n, (0%N, false))
    end
}.

#[export] Program Instance sim_spec : EventfdSpec := {
  count c := Z.of_N c.1;
  semaphore c := c.2
}.
Next Obligation. intros c. cbn. lia. Qed.
Next Obligation. done. Qed.
Next Obligation.
  intros init flags c Hi [= <-]. cbn. split; [lia|]. split; by intros ->.
Qed.
Next Obligation.
  intros v c Hv Hc. eexists. cbn in *. rewrite (proj2 (Z.ltb_lt _ _) Hc).
  split; [done|]. cbn. split; [lia|done].
Qed.
Next Obligation.
  intros [[|n] []]; cbn; try done; repeat split; lia.
Qed.

End SimEventfd.
