(* ===== verification/Futures.v ===== *)
(** * Futures: [Promise], [Future] (future.hpp) and [IoQueue::wait] (ioqueue.hpp)

    One promise, its future and their shared state.  The threads that set the
    promise and the consumer - a thread in [get()] or a coroutine in
    [IoQueue::wait] - take interleaved steps.  A section that holds the mutex and
    does not wait is one step, because every access to the state takes the mutex;
    [get()] is cut where [wait] gives it up. *)

From Stdlib Require Import ZArith Lia.
From stdpp Require Import base numbers list option.
From S2P Require Import Prelude EventFds.

Local Open Scope Z_scope.

Module Futures.

(** [Promise<void>] or a promise of a value. *)
Inductive kind : Type := Void | Valued.

(** Where a call of [set] is; [set] starts with the locked section. *)
Inductive setter_pc : Type :=
| SNotify        (* the value is stored, before [notify_all] *)
| SWrite         (* before [eventFd.write()] *)
| SDone.

(** Where the consumer is. *)
Inductive consumer_pc : Type :=
| CReady                       (* wait: before [future.ready()] *)
| CRead                        (* wait: awaiting the read of the eventfd *)
| CResult (v : Z)              (* wait: the read gave [v] *)
| CLock | CPred | CBlock       (* get: before the lock; in [wait]'s loop, locked *)
| CWaiting | CRelock           (* get: blocked in [wait]; woken *)
| CDone (v : option Z).        (* what [get] returned, none for void *)

#[export] Instance setter_pc_eq_dec : EqDecision setter_pc.
Proof. solve_decision. Defined.
#[export] Instance consumer_pc_eq_dec : EqDecision consumer_pc.
Proof. solve_decision. Defined.

Section Futures.
Context {calls : EventfdCalls}.

(** [value] is [SharedState::value]; for void it is set when [ready] is.
    [locked]: the consumer holds the mutex. *)
Record state : Type := mkState {
  value : option Z;
  eventFd : counter;
  locked : bool;
  setters : list setter_pc;
  consumer : consumer_pc
}.

Inductive action : Type :=
| ASet (v : Z)           (* a thread calls [set] and runs its locked section *)
| ASetter (i : nat)
| AConsumer
| AReadError (e : Z)     (* the read of the eventfd fails *)
| ASpurious.

(** [Promise()] and [getFuture()]; the consumer calls [get()] or [wait()]. *)
Definition init (waits : bool) : outcome state :=
  fd ← EventFd.make EventFd.None_;
  Ok (mkState None fd false [] (if waits then CReady else CLock)).

Definition set_consumer (pc : consumer_pc) (s : state) : state :=
  mkState (value s) (eventFd s) (locked s) (setters s) pc.
Definition set_locked (l : bool) (s : state) : state :=
  mkState (value s) (eventFd s) l (setters s) (consumer s).
Definition set_setters (ts : list setter_pc) (s : state) : state :=
  mkState (value s) (eventFd s) (locked s) ts (consumer s).
Definition set_value (v : option Z) (s : state) : state :=
  mkState v (eventFd s) (locked s) (setters s) (consumer s).
Definition set_eventFd (fd : counter) (s : state) : state :=
  mkState (value s) fd (locked s) (setters s) (consumer s).

(** [Future::ready] *)
Definition ready (s : state) : bool :=
  match value s with Some _ => true | None => false end.

(** The locked section of [Promise::set]. *)
Definition set (v : Z) (s : state) : outcome state :=
  if locked s then Ok s
  else
    _ ← cassert (negb (ready s));
    Ok (set_setters (setters s ++ [SNotify]) (set_value (Some v) s)).

(** [cv.notify_all()] *)
Definition notify_all (s : state) : state :=
  if decide (consumer s = CWaiting) then set_consumer CRelock s else s.

(** The rest of [set]; only the overload with a value writes the eventfd. *)
Definition setter_step (k : kind) (i : nat) (s : state) : outcome state :=
  match setters s !! i with
  | Some SNotify =>
      let s := notify_all s in
      Ok (set_setters (<[i := match k with Void => SDone | Valued => SWrite end]> (setters s)) s)
  | Some SWrite =>
      fd ← EventFd.write 1 (eventFd s);
      Ok (set_setters (<[i := SDone]> (setters s)) (set_eventFd fd s))
  | _ => Ok s
  end.

(** What [get] returns: the value, which it leaves moved-from. *)
Definition get_result (k : kind) (s : state) : outcome (option Z) :=
  match k with
  | Void => Ok None
  | Valued => v ← deref (value s); Ok (Some v)
  end.

(** [Future::get] from [CLock] on, [IoQueue::wait] from [CReady] on. *)
Definition consumer_step (k : kind) (s : state) : outcome state :=
  match consumer s with
  | CReady => if locked s then Ok s
              else Ok (set_consumer (if ready s then CLock else CRead) s)
  | CRead =>
      match sys_eventfd_read (eventFd s) with
      | None => Ok s
      | Some (v, fd) => Ok (set_consumer (CResult v) (set_eventFd fd s))
      end
  | CResult v =>
      r ← EventFd.read_result (IoResults.mkIoResult 8) v;
      if negb (Results.hasValue r) then Crash Aborted
      else
        v ← Results.value r;
        _ ← cassert (v =? 1);
        Ok (set_consumer CLock s)
  | CLock | CRelock => Ok (set_locked true (set_consumer CPred s))
  | CPred =>
      if ready s then
        v ← get_result k s;
        Ok (set_locked false (set_consumer (CDone v) s))
      else Ok (set_consumer CBlock s)
  | CBlock => Ok (set_locked false (set_consumer CWaiting s))
  | CWaiting => Ok s
  | CDone _ => Ok s
  end.

(** [IoQueue::wait] resumed with a failed read. *)
Definition read_error (e : Z) (s : state) : outcome state :=
  match consumer s with
  | CRead =>
      r ← EventFd.read_result (IoResults.mkIoResult (- e)) 0;
      if negb (Results.hasValue r) then Crash Aborted else Ok s
  | _ => Ok s
  end.

Definition step (k : kind) (a : action) (s : state) : outcome state :=
  match a with
  | ASet v => set v s
  | ASetter i => setter_step k i s
  | AConsumer => consumer_step k s
  | AReadError e => read_error e s
  | ASpurious => if decide (consumer s = CWaiting) then Ok (set_consumer CRelock s) else Ok s
  end.

Fixpoint run (k : kind) (acts : list action) (s : state) : outcome state :=
  match acts with
  | [] => Ok s
  | a :: acts => s ← step k a s; run k acts s
  end.

(** ** The invariant *)

Context {spec : EventfdSpec}.

Definition sets (acts : list action) : list Z :=
  omap (fun a => match a with ASet v => Some v | _ => None end) acts.

(** What the consumer is to return once the promise is set to [v]. *)
Definition expected (k : kind) (v : Z) : option Z :=
  match k with Void => None | Valued => Some v end.

Definition holds (pc : consumer_pc) : bool :=
  match pc with CPred | CBlock => true | _ => false end.

(** Has not read the eventfd yet. *)
Definition unread (pc : consumer_pc) : bool :=
  match pc with CReady | CRead => true | _ => false end.

Record Inv (k : kind) (v : Z) (s : state) : Prop := {
  inv_value : value s = (if decide (setters s = []) then None else Some v);
  inv_once : (length (setters s) <= 1)%nat;
  inv_locked : locked s = holds (consumer s);
  inv_block : consumer s = CBlock -> setters s = [];
  inv_waiting : consumer s = CWaiting -> setters s = [] \/ setters s = [SNotify];
  inv_semaphore : semaphore (eventFd s) = false;
  inv_zero : setters s <> [SDone] \/ k = Void -> count (eventFd s) = 0;
  inv_one : setters s = [SDone] -> k = Valued -> unread (consumer s) = true ->
    count (eventFd s) = 1;
  inv_max : count (eventFd s) <= 1;
  inv_result x : consumer s = CResult x -> x = 1;
  inv_done w : consumer s = CDone w -> setters s <> [] /\ w = expected k v;
  inv_void : k = Void -> setters s <> [SWrite]
}.

Lemma future_init_inv k v waits s : init waits = Ok s -> Inv k v s.
Proof.
  unfold init. intros H. apply outcome_bind_Ok in H as (fd & Hfd & [= <-]).
  apply EventFd.make_spec in Hfd as [Hc Hs].
  split; cbn; try done; try lia; by destruct waits.
Qed.

Lemma setters_cases k v s :
  Inv k v s -> setters s = [] \/ exists pc, setters s = [pc].
Proof.
  intros HI. pose proof (inv_once _ _ _ HI) as H. destruct (setters s) as [|pc [|]]; [by left| |cbn in H; lia].
  right. by exists pc.
Qed.

Lemma ready_spec k v s : Inv k v s -> ready s = negb (bool_decide (setters s = [])).
Proof.
  intros HI. unfold ready. rewrite (inv_value _ _ _ HI).
  by destruct (decide (setters s = [])) as [->|]; [|rewrite bool_decide_eq_false_2].
Qed.

(** The locked section of the only [set]. *)
Lemma set_inv k v s :
  Inv k v s -> setters s = [] -> exists s', set v s = Ok s' /\ Inv k v s' /\
    (length (setters s') <= S (length (setters s)))%nat.
Proof.
  intros HI Hs. unfold set. destruct (locked s) eqn:Hl; [exists s; auto with lia|].
  rewrite (ready_spec _ _ _ HI), Hs. eexists. split; [reflexivity|].
  split; [|cbn; lia].
  destruct HI as [H1 H2 H3 H4 H5 H6 H7 H8 H9 H10 H11 H12]. rewrite Hs in *.
  split; cbn in *; rewrite ?Hs; cbn; try done; try auto.
  - intros Hb. by rewrite Hl, Hb in H3.
  - intros w Hw. destruct (H11 w Hw) as [? _]. done.
Qed.

Lemma future_notify_inv k v s :
  Inv k v s -> setters s = [SNotify] ->
  Inv k v (set_setters [match k with Void => SDone | Valued => SWrite end] (notify_all s)).
Proof.
  intros [H1 H2 H3 H4 H5 H6 H7 H8 H9 H10 H11 H12] Hs. rewrite Hs in *.
  assert (count (eventFd s) = 0) as Hz by (apply H7; by left).
  assert (forall pc, pc = consumer s \/ (consumer s = CWaiting /\ pc = CRelock) -> pc <> CWaiting ->
    Inv k v (mkState (value s) (eventFd s) (locked s)
      [match k with Void => SDone | Valued => SWrite end] pc)) as Hpc.
  { intros pc Hpc Hne. split; cbn; try done; try congruence.
    - destruct Hpc as [->|[Hw ->]]; [done|]. by rewrite H3, Hw.
    - destruct Hpc as [->|[_ ->]]; [|done]. by intros ?%H4.
    - by destruct k.
    - destruct Hpc as [->|[_ ->]]; [apply H10|done].
    - destruct Hpc as [->|[_ ->]]; [|done]. intros w Hw. by destruct (H11 w Hw).
    - by destruct k. }
  unfold notify_all. destruct (decide (consumer s = CWaiting)) as [Hw|Hw]; apply Hpc; auto.
Qed.

Lemma write_inv v s :
  Inv Valued v s -> setters s = [SWrite] ->
  exists fd, EventFd.write 1 (eventFd s) = Ok fd /\
    Inv Valued v (set_setters [SDone] (set_eventFd fd s)).
Proof.
  intros [H1 H2 H3 H4 H5 H6 H7 H8 H9 H10 H11 H12] Hs. rewrite Hs in *.
  assert (count (eventFd s) = 0) as Hz by (apply H7; by left).
  destruct (EventFd.write_spec 1 (eventFd s)) as (fd & Hw & Hc & Hsem); [done|by rewrite Hz|].
  exists fd. split; [done|].
  split; cbn; try done; try congruence; try lia.
  - by intros ?%H4.
  - by intros [? | ?]%H5.
  - by intros [].
  - intros w Hd. by destruct (H11 w Hd).
Qed.

Lemma setter_inv k v i s :
  Inv k v s -> exists s', setter_step k i s = Ok s' /\ Inv k v s' /\
    length (setters s') = length (setters s).
Proof.
  intros HI. unfold setter_step.
  destruct (setters s !! i) as [pc|] eqn:Hi; [|by exists s].
  destruct (setters_cases _ _ _ HI) as [Hs|[pc' Hs]]; rewrite Hs in Hi; [done|].
  apply list_lookup_singleton_Some in Hi as [-> <-].
  destruct pc'; [| |by exists s].
  - pose proof (future_notify_inv k v s HI Hs) as Hn.
    eexists. split; [done|]. unfold notify_all in *.
    destruct (decide (consumer s = CWaiting)); cbn; rewrite Hs; by split.
  - destruct k; [by destruct (inv_void _ _ _ HI)|].
    destruct (write_inv v s HI Hs) as (fd & -> & HI'). eexists. split; [done|].
    rewrite Hs. by split.
Qed.

(** The consumer moves on without reading the eventfd. *)
Lemma consumer_move k v s pc :
  Inv k v s ->
  (pc = CBlock -> setters s = []) ->
  (pc = CWaiting -> setters s = [] \/ setters s = [SNotify]) ->
  (unread pc = true -> unread (consumer s) = true) ->
  (forall x, pc = CResult x -> x = 1) ->
  (forall w, pc = CDone w -> setters s <> [] /\ w = expected k v) ->
  Inv k v (set_locked (holds pc) (set_consumer pc s)).
Proof.
  intros [H1 H2 H3 H4 H5 H6 H7 H8 H9 H10 H11 H12] Ha Hb Hc Hd He.
  split; cbn; try done. intros. apply H8; auto.
Qed.

Lemma read_inv k v s :
  Inv k v s -> consumer s = CRead ->
  match sys_eventfd_read (eventFd s) with
  | None => True
  | Some (x, fd) => Inv k v (set_consumer (CResult x) (set_eventFd fd s))
  end.
Proof.
  intros [H1 H2 H3 H4 H5 H6 H7 H8 H9 H10 H11 H12] Hc.
  pose proof (eventfd_read_spec (eventFd s)) as Hr.
  destruct (sys_eventfd_read (eventFd s)) as [[x fd]|]; [|done].
  rewrite H6 in Hr. destruct Hr as (Hpos & Hsem & -> & Hz).
  rewrite Hc in H3. split; cbn; try done; try lia.
  intros x [= <-]. lia.
Qed.

Lemma consumer_inv k v s :
  Inv k v s -> exists s', consumer_step k s = Ok s' /\ Inv k v s' /\ setters s' = setters s.
Proof.
  intros HI. pose proof (inv_locked _ _ _ HI) as Hl. pose proof (ready_spec _ _ _ HI) as Hrdy.
  pose proof (inv_value _ _ _ HI) as Hv.
  pose proof (fun pc => consumer_move k v s pc HI) as Hmove. unfold consumer_step.
  destruct (consumer s) as [| |x| | | | | |w] eqn:Hc; cbn in Hl.
  - rewrite Hl. eexists. split; [done|]. split; [|done].
    specialize (Hmove (if ready s then CLock else CRead)).
    destruct (ready s); cbn in Hmove; rewrite <- Hl in Hmove; by apply Hmove.
  - pose proof (read_inv k v s HI Hc) as Hr.
    destruct (sys_eventfd_read (eventFd s)) as [[x fd]|]; [|by exists s].
    eexists. split; [done|]. by split.
  - rewrite (inv_result _ _ _ HI x Hc). cbn.
    eexists. split; [done|]. split; [|done].
    specialize (Hmove CLock). cbn in Hmove. rewrite <- Hl in Hmove. by apply Hmove.
  - eexists. split; [done|]. split; [|done]. by apply (Hmove CPred).
  - destruct (ready s) eqn:Hr.
    + symmetry in Hrdy. apply negb_true_iff, bool_decide_eq_false in Hrdy.
      rewrite decide_False in Hv by done.
      assert (get_result k s = Ok (expected k v)) as -> by (by destruct k; cbn; rewrite ?Hv).
      eexists. split; [done|]. split; [|done]. apply (Hmove (CDone (expected k v))); try done.
      by intros w [= <-].
    + symmetry in Hrdy. apply negb_false_iff, bool_decide_eq_true in Hrdy.
      eexists. split; [done|]. split; [|done].
      specialize (Hmove CBlock). cbn in Hmove. rewrite <- Hl in Hmove. by apply Hmove.
  - eexists. split; [done|]. split; [|done]. apply (Hmove CWaiting); try done.
    intros _. left. by apply (inv_block _ _ _ HI).
  - by exists s.
  - eexists. split; [done|]. split; [|done]. by apply (Hmove CPred).
  - by exists s.
Qed.

(** Failed reads report an errno. *)
Definition errno_range (a : action) : Prop :=
  match a with AReadError e => 0 < e < 2 ^ 31 | _ => True end.

Definition is_error (a : action) : bool :=
  match a with AReadError _ => true | _ => false end.

Lemma read_error_eq e s :
  0 < e < 2 ^ 31 ->
  read_error e s = (match consumer s with CRead => Crash Aborted | _ => Ok s end).
Proof.
  intros He. unfold read_error. destruct (consumer s); try done.
  unfold EventFd.read_result, IoResults.to_bool, IoResults.error. cbn [IoResults.result_].
  rewrite (proj2 (Z.leb_gt 0 (- e))) by lia. cbn.
  by rewrite (proj2 (Z.eqb_neq _ _)) by (unfold IoResults.INT_MIN; lia).
Qed.

(** The promise is set once, to [v]. *)
Definition run_fine (k : kind) (v : Z) (acts : list action) (res : outcome state) : Prop :=
  match res with
  | Ok s => Inv k v s
  | Crash c => c = Aborted /\ existsb is_error acts = true
  end.

Lemma future_run_inv k v acts : forall s,
  Inv k v s -> Forall errno_range acts -> Forall (eq v) (sets acts) ->
  (length (setters s) + length (sets acts) <= 1)%nat -> run_fine k v acts (run k acts s).
Proof.
  induction acts as [|a acts IH]; intros s HI Herr Hsets Hlen; [done|]. cbn [run].
  apply Forall_cons_1 in Herr as [He Herr].
  assert (Hstep : (exists s', step k a s = Ok s' /\ Inv k v s' /\ Forall (eq v) (sets acts) /\
    (length (setters s') + length (sets acts) <= 1)%nat) \/
    (step k a s = Crash Aborted /\ is_error a = true)).
  { destruct a as [v'|i| |e|]; cbn in Hsets, Hlen, He |- *; [left..| |left].
    - apply Forall_cons_1 in Hsets as [Hv Hsets]. rewrite <- Hv. fold (sets acts) in *.
      destruct (setters s) eqn:Hs; [|cbn in Hlen; lia].
      destruct (set_inv k v s HI Hs) as (s' & Hset & HI' & Hle). rewrite Hs in Hle. cbn in Hle, Hlen.
      exists s'. split; [done|]. split; [done|]. split; [done|]. lia.
    - destruct (setter_inv k v i s HI) as (s' & Hset & HI' & Hle). exists s'. rewrite Hle. by split.
    - destruct (consumer_inv k v s HI) as (s' & Hset & HI' & Hle). exists s'. rewrite Hle. by split.
    - rewrite read_error_eq by done. destruct (consumer s) eqn:Hc; try (left; by exists s). by right.
    - destruct (decide (consumer s = CWaiting)) as [Hc|]; [|by exists s].
      eexists. split; [done|]. split; [|done].
      pose proof (inv_locked _ _ _ HI) as Hl. rewrite Hc in Hl. cbn in Hl.
      replace (set_consumer CRelock s) with (set_locked (holds CRelock) (set_consumer CRelock s))
        by (destruct s; cbn in *; by subst).
      by apply consumer_move. }
  destruct Hstep as [(s' & -> & HI' & H1 & H2)|[-> Ha]].
  - cbn [mbind outcome_bind]. specialize (IH s' HI' Herr H1 H2). unfold run_fine in *.
    destruct (run k acts s'); [done|]. destruct IH as [-> Hx]. split; [done|].
    cbn [existsb]. by rewrite Hx, orb_true_r.
  - split; [done|]. cbn [existsb]. by rewrite Ha.
Qed.

(** ** After [set] has returned *)

(** Steps of the consumer that remain. *)
Definition remaining (pc : consumer_pc) : nat :=
  match pc with
  | CReady => 3 | CRead => 4 | CResult _ => 3 | CLock | CRelock => 2 | CPred => 1 | _ => 0
  end.

Lemma consumer_progress k v s n :
  Inv k v s -> setters s = [SDone] -> k = Valued \/ unread (consumer s) = false ->
  S n = remaining (consumer s) ->
  exists s', consumer_step k s = Ok s' /\ Inv k v s' /\ setters s' = [SDone] /\
    (k = Valued \/ unread (consumer s') = false) /\ n = remaining (consumer s').
Proof.
  intros HI Hs Hk Hn. destruct (consumer_inv k v s HI) as (s' & Hs' & HI' & Hset).
  exists s'. rewrite Hset. split; [done|]. split; [done|]. split; [done|].
  assert (ready s = true) as Hr by (rewrite (ready_spec _ _ _ HI), Hs; done).
  pose proof (inv_locked _ _ _ HI) as Hl. unfold consumer_step in Hs'. rewrite Hr in Hs'.
  destruct (consumer s) as [| |x| | | | | |w] eqn:Hc; cbn in Hn, Hl; try discriminate Hn;
    injection Hn as ->.
  - rewrite Hl in Hs'. injection Hs' as <-. by split; [right|].
  - pose proof (eventfd_read_spec (eventFd s)) as Hread.
    destruct Hk as [->|Hk]; [|done].
    assert (count (eventFd s) = 1) as Hone by (apply (inv_one _ _ _ HI); [done|done|by rewrite Hc]).
    destruct (sys_eventfd_read (eventFd s)) as [[x fd]|]; [|lia].
    injection Hs' as <-. by split; [right|].
  - rewrite (inv_result _ _ _ HI x Hc) in Hs'. cbn in Hs'. injection Hs' as <-. by split; [right|].
  - injection Hs' as <-. by split; [right|].
  - apply outcome_bind_Ok in Hs' as (w & _ & [= <-]). by split; [right|].
  - injection Hs' as <-. by split; [right|].
Qed.

Lemma consumer_finishes k v n : forall s,
  Inv k v s -> setters s = [SDone] -> k = Valued \/ unread (consumer s) = false ->
  n = remaining (consumer s) ->
  exists s', run k (replicate n AConsumer) s = Ok s' /\ consumer s' = CDone (expected k v).
Proof.
  induction n as [|n IH]; intros s HI Hs Hk Hn.
  - exists s. split; [done|].
    destruct (consumer s) eqn:Hc; try discriminate Hn.
    + apply (inv_block _ _ _ HI) in Hc. congruence.
    + apply (inv_waiting _ _ _ HI) in Hc as [?|?]; congruence.
    + by destruct (inv_done _ _ _ HI _ Hc) as [_ ->].
  - cbn [replicate run]. change (step k AConsumer s) with (consumer_step k s).
    destruct (consumer_progress k v s n HI Hs Hk Hn) as (s' & -> & HI' & Hs' & Hk' & Hn').
    cbn [mbind outcome_bind]. by apply IH.
Qed.


(** ** [Future<void>] *)

(** Nobody writes the eventfd. *)
Definition silent (s : state) : Prop :=
  count (eventFd s) = 0 /\ Forall (fun pc => pc <> SWrite) (setters s).

Lemma silent_step a s s' :
  silent s -> step Void a s = Ok s' ->
  silent s' /\ (consumer s = CRead -> consumer s' = CRead).
Proof.
  intros [Hz Hw]. destruct a as [v|i| |e|]; cbn [step]; intros H.
  - unfold set in H. destruct (locked s); [by injection H as <-|].
    apply outcome_bind_Ok in H as (_ & _ & [= <-]). split; [|done]. split; [done|].
    apply Forall_app. by repeat constructor.
  - unfold setter_step in H. destruct (setters s !! i) as [pc|] eqn:Hi; [|by injection H as <-].
    pose proof (Forall_lookup_1 _ _ _ _ Hw Hi) as Hpc. destruct pc; [|done|by injection H as <-].
    injection H as <-. unfold notify_all. split; [split|].
    + by destruct (decide _).
    + cbn. apply Forall_insert; [by destruct (decide _)|done].
    + intros Hc. by destruct (decide _); [congruence|].
  - unfold consumer_step in H. pose proof (eventfd_read_spec (eventFd s)) as Hr.
    destruct (consumer s) eqn:Hc.
    + destruct (locked s); by injection H as <-.
    + destruct (sys_eventfd_read (eventFd s)) as [[x fd]|]; [lia|by injection H as <-].
    + unfold EventFd.read_result in H. cbn in H. destruct (v =? 1); [by injection H as <-|done].
    + by injection H as <-.
    + destruct (ready s); by injection H as <-.
    + by injection H as <-.
    + by injection H as <-.
    + by injection H as <-.
    + by injection H as <-.
  - unfold read_error in H. destruct (consumer s) eqn:Hc; try (by injection H as <-).
    apply outcome_bind_Ok in H as (r & _ & H). destruct (negb _); [done|by injection H as <-].
  - destruct (decide _) as [Hc|]; injection H as <-; [|done]. split; [done|congruence].
Qed.

Lemma silent_run acts : forall s s',
  silent s -> run Void acts s = Ok s' ->
  silent s' /\ (consumer s = CRead -> consumer s' = CRead).
Proof.
  induction acts as [|a acts IH]; intros s s' Hs; cbn [run]; [by intros [= <-]|].
  intros (s1 & H1 & H2)%outcome_bind_Ok. destruct (silent_step a s s1 Hs H1) as [Hs1 Hc1].
  destruct (IH s1 s' Hs1 H2) as [Hs' Hc']. auto.
Qed.

(** [IoQueue::wait] on a [Future<void>] that is not ready yet never returns:
    once the coroutine awaits the eventfd it stays there, whatever the promise and
    the threads that set it do, because this overload of [set] never writes the
    eventfd. *)
Theorem void_wait_hangs acts acts' s0 s s' :
  init true = Ok s0 -> run Void acts s0 = Ok s -> consumer s = CRead ->
  run Void acts' s = Ok s' -> consumer s' = CRead.
Proof.
  intros Hi Hr Hc Hr'. assert (silent s0) as Hs0.
  { unfold init in Hi. apply outcome_bind_Ok in Hi as (fd & Hfd & [= <-]).
    apply EventFd.make_spec in Hfd as [Hz _]. by split. }
  destruct (silent_run acts s0 s Hs0 Hr) as [Hs _].
  by apply (silent_run acts' s s' Hs Hr').
Qed.

End Futures.
End Futures.

(** ** Witnesses *)

Import Futures SimEventfd.

Definition fresh (waits : bool) : state :=
  mkState None (0%N, false) false [] (if waits then CReady else CLock).


(** The promise is set, and the coroutine still waits. *)
Lemma void_wait_hangs_witness :
  exists s s', run Void [AConsumer] (fresh true) = Ok s /\
    run Void [ASet 0; ASetter 0; AConsumer] s = Ok s' /\
    ready s' = true /\ setters s' = [SDone] /\ consumer s' = CRead.
Proof.
  eexists _, _. split; [reflexivity|]. split; [reflexivity|]. split; [reflexivity|].
  split; [reflexivity|].
  exact (void_wait_hangs [AConsumer] [ASet 0; ASetter 0; AConsumer] (fresh true)
    (set_consumer CRead (fresh true)) _ eq_refl eq_refl eq_refl eq_refl).
Defined.
