(* ===== verification/Channels.v ===== *)
(** * Channels: [Channel] (channel.hpp)

    Sending threads and receiving coroutines in interleaved steps.  [push] and
    [pop] hold the mutex for their whole body, so each is one step; between a
    sender's push and its write of the eventfd, and between a receiver's read and
    its [pop], everybody else may run.  A receiver's read is the kernel's step. *)

From Stdlib Require Import ZArith Lia.
From stdpp Require Import base numbers list option.
From S2P Require Import Prelude EventFds.

Local Open Scope Z_scope.

Module Channel.

(** Where a coroutine is in [receive()]. *)
Inductive receiver_pc : Type :=
| RRead                                   (* awaits the eventfd *)
| RResult (res : IoResults.IoResult) (buf : Z)  (* the read has completed *)
| RDone.

Section Channel.
Context {M : Type}.
Context {calls : EventfdCalls}.

(** [writers] counts the senders between [push] and [eventFd_.write()]. *)
Record state : Type := mkState {
  messages_ : list M;
  eventFd_ : counter;
  writers : nat;
  receivers : list receiver_pc
}.

Inductive action : Type :=
| ASend (m : M)                (* [send], the locked section *)
| AWrite                       (* a sender writes the eventfd *)
| AReceive (entry : bool)      (* a coroutine calls [receive()]; the submission queue has an entry *)
| AReadDone (i : nat)          (* the read of receiver [i] completes *)
| AReadError (i : nat) (e : Z) (* ... or fails *)
| AResume (i : nat).           (* receiver [i] is resumed *)

Inductive event : Type := Sent (m : M) | Received (m : M).

(** The constructor. *)
Definition init : outcome state :=
  fd ← EventFd.make EventFd.Semaphore;
  Ok (mkState [] fd 0 []).

Definition send (m : M) (s : state) : outcome (state * list event) :=
  Ok (mkState (messages_ s ++ [m]) (eventFd_ s) (S (writers s)) (receivers s), [Sent m]).

Definition write (s : state) : outcome (state * list event) :=
  match writers s with
  | O => Ok (s, [])
  | S n => fd ← EventFd.write 1 (eventFd_ s);
           Ok (mkState (messages_ s) fd n (receivers s), [])
  end.

Definition set_receiver (i : nat) (pc : receiver_pc) (s : state) : state :=
  mkState (messages_ s) (eventFd_ s) (writers s) (<[i := pc]> (receivers s)).

(** The kernel completes a read when there is something to read. *)
Definition read_done (i : nat) (s : state) : outcome (state * list event) :=
  match receivers s !! i with
  | Some RRead =>
      match sys_eventfd_read (eventFd_ s) with
      | None => Ok (s, [])
      | Some (v, fd) =>
          Ok (mkState (messages_ s) fd (writers s)
                (<[i := RResult (IoResults.mkIoResult 8) v]> (receivers s)), [])
      end
  | _ => Ok (s, [])
  end.

Definition read_error (i : nat) (e : Z) (s : state) : outcome (state * list event) :=
  match receivers s !! i with
  | Some RRead => Ok (set_receiver i (RResult (IoResults.mkIoResult (- e)) 0) s, [])
  | _ => Ok (s, [])
  end.

Definition pop (s : state) : outcome (M * state) :=
  _ ← cassert (match messages_ s with [] => false | _ => true end);
  msg ← deref (head (messages_ s));
  Ok (msg, mkState (tail (messages_ s)) (eventFd_ s) (writers s) (receivers s)).

(** [receive] after its [co_await]. *)
Definition resume (i : nat) (s : state) : outcome (state * list event) :=
  match receivers s !! i with
  | Some (RResult res buf) =>
      r ← EventFd.read_result res buf;
      if negb (Results.hasValue r) then Crash Aborted
      else
        '(msg, s) ← pop s;
        Ok (set_receiver i RDone s, [Received msg])
  | _ => Ok (s, [])
  end.

(** [receive] up to the suspension: [EventFd::read] awaits the handle of [io.read],
    which is not valid when the submission queue is full. *)
Definition receive (entry : bool) (s : state) : outcome (state * list event) :=
  _ ← cassert entry;
  Ok (mkState (messages_ s) (eventFd_ s) (writers s) (receivers s ++ [RRead]), []).

Definition step (a : action) (s : state) : outcome (state * list event) :=
  match a with
  | ASend m => send m s
  | AWrite => write s
  | AReceive entry => receive entry s
  | AReadDone i => read_done i s
  | AReadError i e => read_error i e s
  | AResume i => resume i s
  end.

Fixpoint run (acts : list action) (s : state) : outcome (state * list event) :=
  match acts with
  | [] => Ok (s, [])
  | a :: acts =>
      '(s1, e1) ← step a s;
      '(s2, e2) ← run acts s1;
      Ok (s2, e1 ++ e2)
  end.

(** ** The invariant: the semaphore counts the messages *)

Context {spec : EventfdSpec}.

Definition succeeded (pc : receiver_pc) : bool :=
  match pc with RResult res _ => IoResults.to_bool res | _ => false end.

(** Receivers that have taken a unit off the semaphore and not popped yet. *)
Definition resuming (s : state) : nat := length (filter succeeded (receivers s)).

Record Inv (s : state) : Prop := {
  inv_semaphore : semaphore (eventFd_ s) = true;
  inv_count : Z.of_nat (length (messages_ s)) =
    Z.of_nat (writers s) + count (eventFd_ s) + Z.of_nat (resuming s);
  (* failed reads report an errno *)
  inv_errors i res buf : receivers s !! i = Some (RResult res buf) -> IoResults.INT_MIN < IoResults.result_ res
}.

Definition sent (evs : list event) : list M :=
  omap (fun e => match e with Sent m => Some m | _ => None end) evs.
Definition received (evs : list event) : list M :=
  omap (fun e => match e with Received m => Some m | _ => None end) evs.

Lemma filter_insert_length (l : list receiver_pc) i pc pc' :
  l !! i = Some pc ->
  (length (filter succeeded (<[i := pc']> l)) + (if succeeded pc then 1 else 0) =
   length (filter succeeded l) + (if succeeded pc' then 1 else 0))%nat.
Proof.
  intros Hi. rewrite <- (take_drop_middle l i pc Hi) at 2.
  rewrite insert_take_drop by (by eapply lookup_lt_Some).
  rewrite !list.filter_app, !length_app. rewrite !filter_cons.
  destruct (decide (succeeded pc)) as [H1|H1], (decide (succeeded pc')) as [H2|H2];
    apply Is_true_true in H1 || apply Is_true_false in H1;
    apply Is_true_true in H2 || apply Is_true_false in H2;
    rewrite H1, H2; cbn; lia.
Qed.

Lemma resuming_insert s i pc pc' fd :
  receivers s !! i = Some pc ->
  (resuming (mkState (messages_ s) fd (writers s) (<[i := pc']> (receivers s))) +
    (if succeeded pc then 1 else 0) = resuming s + (if succeeded pc' then 1 else 0))%nat.
Proof. apply filter_insert_length. Qed.

Lemma errors_insert s i pc' :
  (forall j res buf, receivers s !! j = Some (RResult res buf) ->
    IoResults.INT_MIN < IoResults.result_ res) ->
  (forall res buf, pc' = RResult res buf -> IoResults.INT_MIN < IoResults.result_ res) ->
  forall j res buf, <[i := pc']> (receivers s) !! j = Some (RResult res buf) ->
    IoResults.INT_MIN < IoResults.result_ res.
Proof.
  intros H Hpc j res buf [(_ & Heq & _)|(_ & Hj)]%lookup_insert_cases; eauto.
Qed.

Definition errno_range (a : action) : Prop :=
  match a with AReadError _ e => 0 < e < 2 ^ 31 | _ => True end.

Definition is_error (a : action) : bool :=
  match a with AReadError _ _ => true | _ => false end.

(** A [receive()] that finds the submission queue full. *)
Definition is_full (a : action) : bool :=
  match a with AReceive false => true | _ => false end.

(** The result of a read that failed is waiting for its receiver. *)
Definition failed (s : state) : Prop :=
  exists i res buf, receivers s !! i = Some (RResult res buf) /\ IoResults.to_bool res = false.

Definition is_send (a : action) : bool := match a with ASend _ => true | _ => false end.

Definition sends (acts : list action) : nat := length (filter is_send acts).

(** What a stretch of the execution does. *)
Definition fine (s : state) (res : outcome (state * list event)) (error full : bool) (n : nat) : Prop :=
  match res with
  | Ok (s', evs) => full = false /\ Inv s' /\ messages_ s ++ sent evs = received evs ++ messages_ s' /\
      (length (messages_ s') <= length (messages_ s) + n)%nat /\
      (failed s' -> failed s \/ error = true)
  | Crash c => (c = Aborted /\ (failed s \/ error = true)) \/ (c = AssertFailed /\ full = true)
  end.

Lemma fine_same s e n : Inv s -> fine s (Ok (s, [])) e false n.
Proof. intros HI. split; [done|]. split; [done|]. cbn. rewrite app_nil_r. split; [done|]. split; [lia|by left]. Qed.

Lemma fine_receiver s i pc pc' fd e n :
  Inv s -> receivers s !! i = Some pc ->
  semaphore fd = true ->
  count fd + Z.of_nat (if succeeded pc' then 1 else 0) =
    count (eventFd_ s) + Z.of_nat (if succeeded pc then 1 else 0) ->
  (forall res buf, pc' = RResult res buf -> IoResults.INT_MIN < IoResults.result_ res /\
    (IoResults.to_bool res = false -> e = true)) ->
  fine s (Ok (mkState (messages_ s) fd (writers s) (<[i := pc']> (receivers s)), [])) e false n.
Proof.
  intros [H1 H2 H3] Hi Hsem Hc Hpc. split; [done|]. split; [split; cbn|].
  - done.
  - pose proof (resuming_insert s i pc pc' fd Hi). unfold resuming in *. cbn in *. lia.
  - apply errors_insert; [done|]. intros res buf Heq. by destruct (Hpc res buf Heq).
  - cbn. rewrite app_nil_r. split; [done|]. split; [lia|].
    intros (j & res & buf & [(_ & Heq & _)|(_ & Hj)]%lookup_insert_cases & Hb).
    + right. symmetry in Heq. by destruct (Hpc res buf Heq) as [_ ?]; auto.
    + left. by exists j, res, buf.
Qed.

Lemma write_fine s :
  Inv s -> Z.of_nat (length (messages_ s)) < U64MAX -> fine s (write s) false false 0.
Proof.
  intros HI Hlt. unfold write. destruct (writers s) as [|n] eqn:Hw; [by apply fine_same|].
  destruct HI as [H1 H2 H3].
  destruct (EventFd.write_spec 1 (eventFd_ s)) as (fd & -> & Hc & Hsem); [done|lia|].
  cbn. split; [done|]. split; [split; cbn; [congruence| |done]|].
  - unfold resuming in *. cbn. lia.
  - rewrite app_nil_r. split; [done|]. split; [lia|by left].
Qed.

Lemma read_done_fine i s : Inv s -> fine s (read_done i s) false false 0.
Proof.
  intros HI. unfold read_done.
  destruct (receivers s !! i) as [[| |]|] eqn:Hi; try by apply fine_same.
  pose proof (eventfd_read_spec (eventFd_ s)) as Hr.
  destruct (sys_eventfd_read (eventFd_ s)) as [[v fd]|]; [|by apply fine_same].
  destruct Hr as (Hpos & Hsem & Hr). rewrite (inv_semaphore _ HI) in *.
  apply (fine_receiver s i RRead); [done|done|done|cbn; lia|].
  intros res buf [= <- <-]. done.
Qed.

Lemma resume_fine i s : Inv s -> fine s (resume i s) false false 0.
Proof.
  intros HI. unfold resume.
  destruct (receivers s !! i) as [[|res buf|]|] eqn:Hi; try by apply fine_same.
  unfold EventFd.read_result. destruct (IoResults.to_bool res) eqn:Hb; cbn.
  2: { pose proof (inv_errors _ HI i res buf Hi). unfold IoResults.error.
    rewrite (proj2 (Z.eqb_neq _ _)) by lia. cbn. left. split; [done|left]. by exists i, res, buf. }
  pose proof (resuming_insert s i (RResult res buf) RDone (eventFd_ s) Hi) as Hn.
  cbn in Hn. rewrite Hb in Hn. destruct HI as [H1 H2 H3]. unfold pop.
  pose proof (count_nonneg (eventFd_ s)).
  destruct (messages_ s) as [|m ms] eqn:Hm; [cbn in H2; lia|].
  cbn. split; [done|]. split; [split; cbn|].
  - done.
  - unfold resuming in *. cbn in *. lia.
  - by apply errors_insert.
  - cbn. rewrite app_nil_r, Hm. split; [done|]. split; [cbn; lia|].
    intros (j & r & b & [(_ & Heq & _)|(_ & Hj)]%lookup_insert_cases & Hf); [done|].
    left. by exists j, r, b.
Qed.

Lemma step_fine a s :
  Inv s -> Z.of_nat (length (messages_ s)) < U64MAX -> errno_range a ->
  fine s (step a s) (is_error a) (is_full a) (sends [a]).
Proof.
  intros HI Hlt He. destruct a as [m| |entry|i|i e|i]; cbn [step is_error is_full].
  - destruct HI as [H1 H2 H3]. split; [done|]. split; [split; cbn; [done| |done]|].
    + rewrite length_app. unfold resuming in *. cbn. lia.
    + change (sends [ASend m]) with 1%nat. cbn. split; [done|]. rewrite length_app. cbn.
      split; [lia|by left].
  - by apply write_fine.
  - unfold receive. destruct entry; [|by right].
    destruct HI as [H1 H2 H3]. split; [done|]. split; [split; cbn; [done| |]|].
    + unfold resuming in *. cbn [receivers]. rewrite list.filter_app, length_app.
      change (length (filter succeeded [RRead])) with 0%nat. cbn. lia.
    + intros j res buf [Hj|[_ Hj]]%lookup_app_Some; [by eapply H3|].
      by apply list_lookup_singleton_Some in Hj as [_ ?].
    + cbn. rewrite app_nil_r. split; [done|]. split; [lia|].
      intros (j & res & buf & [Hj|[_ Hj]]%lookup_app_Some & Hf); [left; by exists j, res, buf|].
      by apply list_lookup_singleton_Some in Hj as [_ ?].
  - by apply read_done_fine.
  - unfold read_error. destruct (receivers s !! i) as [[| |]|] eqn:Hi; try by apply fine_same.
    apply (fine_receiver s i RRead); [done|done|by apply inv_semaphore| |].
    + cbn in *. unfold IoResults.to_bool. cbn. rewrite (proj2 (Z.leb_gt _ _)) by lia. done.
    + intros res buf [= <- <-]. cbn in *. unfold IoResults.INT_MIN. split; [lia|done].
  - by apply resume_fine.
Qed.

Lemma fine_app s s1 e1 r b1 b2 f1 f2 n1 n2 :
  fine s (Ok (s1, e1)) b1 f1 n1 -> fine s1 r b2 f2 n2 ->
  fine s ('(s2, e2) ← r; Ok (s2, e1 ++ e2)) (b1 || b2) (f1 || f2) (n1 + n2)%nat.
Proof.
  intros (-> & HI1 & Hm1 & Hl1 & Hf1) H2. destruct r as [[s2 e2]|c]; cbn in *.
  - destruct H2 as (-> & HI2 & Hm2 & Hl2 & Hf2). split; [done|]. split; [done|].
    unfold sent, received in *. rewrite !omap_app. split.
    + by rewrite app_assoc, Hm1, <- app_assoc, Hm2, app_assoc.
    + split; [lia|]. intros [H| ->]%Hf2; [|rewrite orb_true_r; by right].
      destruct (Hf1 H) as [?| ->]; [by left|by right].
  - destruct H2 as [[-> [H| ->]]|[-> ->]]; [left|left|by right];
      (split; [done|]); [|rewrite orb_true_r; by right].
    destruct (Hf1 H) as [?| ->]; [by left|by right].
Qed.

Lemma sends_cons a acts : sends (a :: acts) = (sends [a] + sends acts)%nat.
Proof.
  unfold sends. rewrite (filter_cons _ a acts), (filter_cons _ a []).
  by destruct (decide (is_send a)).
Qed.

Lemma run_fine acts : forall s,
  Inv s -> Z.of_nat (length (messages_ s)) + Z.of_nat (sends acts) < U64MAX ->
  Forall errno_range acts -> fine s (run acts s) (existsb is_error acts) (existsb is_full acts) (sends acts).
Proof.
  induction acts as [|a acts IH]; intros s HI Hlt He; [by apply fine_same|].
  apply Forall_cons_1 in He as [Ha He]. rewrite sends_cons in *. cbn [run existsb].
  pose proof (step_fine a s HI ltac:(lia) Ha) as Hstep.
  destruct (step a s) as [[s1 e1]|c].
  - apply (fine_app s s1 e1); [done|]. apply IH; [apply Hstep| |done].
    destruct Hstep as (_ & _ & _ & Hl & _). lia.
  - destruct Hstep as [[-> [H| ->]]|[-> ->]]; cbn; auto.
Qed.

Lemma channel_init_inv s : init = Ok s -> Inv s /\ messages_ s = [] /\ ~ failed s.
Proof.
  unfold init. intros H. apply outcome_bind_Ok in H as (fd & Hfd & [= <-]).
  apply EventFd.make_spec in Hfd as [Hc Hs]. split; [split; cbn|].
  - by rewrite Hs.
  - unfold resuming. cbn. lia.
  - done.
  - split; [done|]. by intros (i & res & buf & Hi & _).
Qed.

(** C15: A channel is a FIFO under every interleaving of senders and receivers:
    messages are received in the order they were sent, each at most once; the
    assertion in [pop] never fails, and neither does the one on writing the
    eventfd as long as fewer than 2^64-1 messages are sent; the messages in the
    queue are those of senders that have not written the eventfd, those its
    counter stands for and those receivers about to be resumed will pop.  The
    program aborts only after a read that failed, and an assertion fails only when
    [receive()] is called with a full submission queue, and always then. *)
Theorem channel_fifo acts s0 :
  init = Ok s0 -> Z.of_nat (sends acts) < U64MAX -> Forall errno_range acts ->
  match run acts s0 with
  | Ok (s, evs) =>
      existsb is_full acts = false /\ sent evs = received evs ++ messages_ s /\
      Z.of_nat (length (messages_ s)) =
        Z.of_nat (writers s) + count (eventFd_ s) + Z.of_nat (resuming s)
  | Crash c => (c = Aborted /\ existsb is_error acts = true) \/
      (c = AssertFailed /\ existsb is_full acts = true)
  end.
Proof.
  intros Hi Hn He. destruct (channel_init_inv s0 Hi) as (HI & Hm & Hnf).
  pose proof (run_fine acts s0 HI) as H. rewrite Hm in H.
  specialize (H ltac:(cbn; lia) He). destruct (run acts s0) as [[s evs]|c].
  - destruct H as (Hfull & HI' & Heq & _). rewrite Hm in Heq. split; [done|]. split; [done|]. by apply inv_count.
  - destruct H as [[-> [?|?]]|[-> ?]]; [done|by left|by right].
Qed.

(** Nothing sent stays behind: whenever no sender is between its two halves and
    no receiver about to be resumed, a receiver awaiting the eventfd gets the
    oldest message in two steps if there is one, and goes on waiting if not. *)
Theorem channel_delivers acts s0 s evs i :
  init = Ok s0 -> Z.of_nat (sends acts) < U64MAX -> Forall errno_range acts ->
  run acts s0 = Ok (s, evs) ->
  writers s = O -> resuming s = O -> receivers s !! i = Some RRead ->
  match messages_ s with
  | m :: ms => exists s', run [AReadDone i; AResume i] s = Ok (s', [Received m]) /\
      messages_ s' = ms /\ receivers s' !! i = Some RDone
  | [] => step (AReadDone i) s = Ok (s, [])
  end.
Proof.
  intros Hi Hn He Hr Hw Hres Hrd. destruct (channel_init_inv s0 Hi) as (HI & Hm & _).
  pose proof (run_fine acts s0 HI) as H. rewrite Hm, Hr in H.
  destruct (H ltac:(cbn; lia) He) as (_ & HI' & _ & _). clear H.
  pose proof (inv_count _ HI') as Hc. rewrite Hw, Hres in Hc.
  pose proof (eventfd_read_spec (eventFd_ s)) as Hread.
  cbn [run step]. unfold read_done. rewrite Hrd.
  destruct (sys_eventfd_read (eventFd_ s)) as [[v fd]|].
  - destruct Hread as (Hpos & _). destruct (messages_ s) as [|m ms] eqn:Hms; [cbn in Hc; lia|].
    cbn [mbind outcome_bind]. unfold resume. cbn [receivers].
    assert ((i < length (receivers s))%nat) as Hlt by (by eapply lookup_lt_Some).
    rewrite list_lookup_insert_eq by done. cbn. eexists. split; [done|]. cbn.
    split; [done|]. by rewrite list_lookup_insert_eq by (by rewrite length_insert).
  - rewrite Hread in Hc. destruct (messages_ s); [done|cbn in Hc; lia].
Qed.

End Channel.
End Channel.

(** ** Witnesses *)

Import Channel SimEventfd.

Definition fresh : state (M := Z) := mkState [] (0%N, true) 0 [].

(** Two receivers, two messages; the receivers are resumed in the opposite order. *)
Definition exchange : list (action (M := Z)) :=
  [AReceive true; ASend 1; AReceive true; ASend 2; AWrite; AReadDone 1; AWrite; AReadDone 0; AResume 0;
   AResume 1; ASend 3; AReceive true; AWrite].

Definition left_over : state (M := Z) := mkState [3] (1%N, true) 0 [RDone; RDone; RRead].

Definition log : list (event (M := Z)) := [Sent 1; Sent 2; Received 1; Received 2; Sent 3].

Lemma channel_fifo_witness :
  run exchange fresh = Ok (left_over, log) /\ sent log = received log ++ messages_ left_over /\
  run [AReceive false] fresh = Crash AssertFailed.
Proof.
  assert (run exchange fresh = Ok (left_over, log)) as E by reflexivity.
  assert (Forall errno_range exchange) as He by (repeat constructor).
  assert (Z.of_nat (sends exchange) < U64MAX) as Hn by reflexivity.
  pose proof (channel_fifo exchange fresh eq_refl Hn He) as H. rewrite E in H.
  split; [exact E|]. split; [exact (proj1 (proj2 H))|reflexivity].
Defined.

Lemma channel_delivers_witness :
  exists evs s', run exchange fresh = Ok (left_over, evs) /\
    run [AReadDone 2; AResume 2] left_over = Ok (s', [Received 3]) /\ messages_ s' = [].
Proof.
  exists log.
  assert (run exchange fresh = Ok (left_over, log)) as E
    by reflexivity.
  assert (Forall errno_range exchange) as He by (repeat constructor).
  assert (Z.of_nat (sends exchange) < U64MAX) as Hn by reflexivity.
  destruct (channel_delivers exchange fresh left_over _ 2 eq_refl Hn He E eq_refl eq_refl eq_refl)
    as (s' & H1 & H2 & _).
  exists s'. split; [exact E|]. split; [exact H1|exact H2].
Defined.
