(* ===== verification/ChannelExample.v ===== *)
(** * The example channel.cpp: two receivers, a sending coroutine and a sending thread

    The coroutines run on the thread of the event loop, the task of the thread pool on
    another one; a step is a step of the channel, or none. *)

From Stdlib Require Import ZArith Lia Ascii String.
From stdpp Require Import base numbers list option.
From S2P Require Import Prelude EventFds Channels.

Local Open Scope Z_scope.

Module ChannelExample.

(** The receivers "1" and "2". *)
Inductive receiver_id : Type := One | Two.

#[export] Instance receiver_id_eq_dec : EqDecision receiver_id.
Proof. solve_decision. Defined.

Inductive message : Type := Hello | Whattup.

Definition message_text (m : message) : string :=
  match m with Hello => "Hello!" | Whattup => "Whattup" end.

(** Where [sender] is: before [push], and in its loop. *)
Inductive sender_pc : Type := SPush | SSend | SWrite | STimeout.

(** Where the task is: not pushed yet, in its loops, or asleep. *)
Inductive task_pc : Type := TNone | TSend (i : nat) | TWrite (i : nat) | TSleep.

Section Example.
Context {calls : EventfdCalls}.

Abbreviation channel_state := (Channel.state (M := message)).

(** [awaits] is the [channel.receive()] a receiver awaits; [printed] what was printed,
    [sent] what was put into the channel. *)
Record state : Type := mkState {
  channel : channel_state;
  awaits : receiver_id -> nat;
  sender : sender_pc;
  task : task_pc;
  printed : list (receiver_id * message);
  sent : list message
}.

(** [main] up to the body of [sender].  The receivers' reads and the sender's timeout
    are all that is ever in flight, so that the submission queue is never full. *)
Definition init : outcome state :=
  channel ← Channel.init;
  '(channel, _) ← Channel.step (Channel.AReceive true) channel;
  '(channel, _) ← Channel.step (Channel.AReceive true) channel;
  Ok (mkState channel (fun r => match r with One => 0%nat | Two => 1%nat end) SPush TNone [] []).

Definition set_channel (c : channel_state) (s : state) : state :=
  mkState c (awaits s) (sender s) (task s) (printed s) (sent s).
Definition set_sender (pc : sender_pc) (s : state) : state :=
  mkState (channel s) (awaits s) pc (task s) (printed s) (sent s).
Definition set_task (pc : task_pc) (s : state) : state :=
  mkState (channel s) (awaits s) (sender s) pc (printed s) (sent s).

(** [channel.send(m)]: its locked section, and its write. *)
Definition send (m : message) (s : state) : outcome state :=
  '(c, _) ← Channel.step (Channel.ASend m) (channel s);
  Ok (mkState c (awaits s) (sender s) (task s) (printed s) (sent s ++ [m])).
Definition write (s : state) : outcome state :=
  '(c, _) ← Channel.step Channel.AWrite (channel s);
  Ok (set_channel c s).

(** [sender] runs. *)
Definition sender_step (s : state) : outcome state :=
  match sender s with
  | SPush => Ok (set_sender SSend (set_task (TSend 0) s))
  | SSend => s ← send Hello s; Ok (set_sender SWrite s)
  | SWrite => s ← write s; Ok (set_sender STimeout s)
  | STimeout => Ok s
  end.

(** The task's thread runs. *)
Definition task_step (s : state) : outcome state :=
  match task s with
  | TSend i => s ← send Whattup s; Ok (set_task (TWrite i) s)
  | TWrite i => s ← write s; Ok (set_task (if (S i <? 3)%nat then TSend (S i) else TSleep) s)
  | TNone | TSleep => Ok s
  end.

(** A receiver is resumed: it prints its message and receives again. *)
Definition receiver_step (r : receiver_id) (s : state) : outcome state :=
  '(c, evs) ← Channel.step (Channel.AResume (awaits s r)) (channel s);
  match evs with
  | [Channel.Received m] =>
      let i := length (Channel.receivers c) in
      '(c, _) ← Channel.step (Channel.AReceive true) c;
      Ok (mkState c (fun r' => if decide (r' = r) then i else awaits s r') (sender s) (task s)
        (printed s ++ [(r, m)]) (sent s))
  | _ => Ok (set_channel c s)
  end.

Inductive action : Type :=
| ASender
| ATimeout                              (* the timeout of [sender] completes *)
| ATask
| AWake                                 (* the task has slept *)
| AReadDone (r : receiver_id)           (* the read a receiver awaits completes *)
| AReadError (r : receiver_id) (e : Z)  (* ... or fails *)
| AResume (r : receiver_id).

(** The event loop runs one coroutine at a time. *)
Definition loop_free (s : state) : bool :=
  match sender s with STimeout => true | _ => false end.

Definition step (a : action) (s : state) : outcome state :=
  match a with
  | ASender => sender_step s
  | ATimeout => Ok (match sender s with STimeout => set_sender SSend s | _ => s end)
  | ATask => task_step s
  | AWake => Ok (match task s with TSleep => set_task (TSend 0) s | _ => s end)
  | AReadDone r =>
      '(c, _) ← Channel.step (Channel.AReadDone (awaits s r)) (channel s); Ok (set_channel c s)
  | AReadError r e =>
      '(c, _) ← Channel.step (Channel.AReadError (awaits s r) e) (channel s); Ok (set_channel c s)
  | AResume r => if loop_free s then receiver_step r s else Ok s
  end.

Fixpoint run (acts : list action) (s : state) : outcome state :=
  match acts with
  | [] => Ok s
  | a :: acts => s ← step a s; run acts s
  end.

(** ** The channel's steps *)

Context {spec : EventfdSpec}.

(** A step of the channel as the program makes them. *)
Definition usual (ca : Channel.action (M := message)) : Prop :=
  Channel.errno_range ca /\ Channel.is_full ca = false.

(** [res] comes about by steps of the channel: [n] sends at most, and a failed read
    only if [e]. *)
Definition follows (s : state) (n : nat) (e : bool) (res : outcome state) : Prop :=
  exists cas, Forall usual cas /\ (Channel.sends cas <= n)%nat /\
    (existsb Channel.is_error cas = true -> e = true) /\
    match res with
    | Ok s' => exists evs, Channel.run cas (channel s) = Ok (channel s', evs) /\
        sent s' = sent s ++ Channel.sent evs /\
        (printed s').*2 = (printed s).*2 ++ Channel.received evs
    | Crash c => Channel.run cas (channel s) = Crash c
    end.

Lemma follows_none s s' n e :
  channel s' = channel s -> sent s' = sent s -> printed s' = printed s -> follows s n e (Ok s').
Proof.
  intros H1 H2 H3. exists []. split_and!; [done|cbn; lia|done|]. exists [].
  rewrite H1, H2, H3. cbn. by rewrite !app_nil_r.
Qed.

Lemma follows_step ca n e s (f : channel_state * list Channel.event -> outcome state) :
  usual ca -> (Channel.sends [ca] <= n)%nat -> (Channel.is_error ca = true -> e = true) ->
  (forall c evs, Channel.step ca (channel s) = Ok (c, evs) -> exists s' cas evs',
     f (c, evs) = Ok s' /\ Forall usual cas /\ Channel.sends cas = 0%nat /\
     existsb Channel.is_error cas = false /\ Channel.run cas c = Ok (channel s', evs') /\
     sent s' = sent s ++ Channel.sent (evs ++ evs') /\
     (printed s').*2 = (printed s).*2 ++ Channel.received (evs ++ evs')) ->
  follows s n e (Channel.step ca (channel s) ≫= f).
Proof.
  intros He Hn Hce Hf. destruct (Channel.step ca (channel s)) as [[c evs]|cr] eqn:Hs; cbn [mbind outcome_bind].
  - destruct (Hf c evs eq_refl) as (s' & cas & evs' & -> & H1 & H2 & H3 & H4 & H5 & H6).
    exists (ca :: cas). split_and!; [by constructor|rewrite Channel.sends_cons; lia| |].
    + cbn [existsb]. rewrite H3, orb_false_r. exact Hce.
    + exists (evs ++ evs'). cbn [Channel.run]. rewrite Hs. cbn [mbind outcome_bind]. rewrite H4. by split_and!.
  - exists [ca]. split_and!; [by constructor|done| |]; cbn [existsb Channel.run].
    + rewrite orb_false_r. exact Hce.
    + by rewrite Hs.
Qed.

(** A step of the channel that is no send and receives nothing. *)
Lemma follows_quiet ca n e s (f : channel_state -> state) :
  usual ca -> (Channel.sends [ca] <= n)%nat -> (Channel.is_error ca = true -> e = true) ->
  (forall c evs, Channel.step ca (channel s) = Ok (c, evs) -> evs = []) ->
  (forall c, channel (f c) = c /\ sent (f c) = sent s /\ printed (f c) = printed s) ->
  follows s n e ('(c, _) ← Channel.step ca (channel s); Ok (f c)).
Proof.
  intros He Hn Hce Hevs Hf. apply follows_step; [done..|]. intros c evs Hs. destruct (Hf c) as (H1 & H2 & H3).
  exists (f c), [], []. rewrite (Hevs c evs Hs), H1, H2, H3. cbn. by rewrite !app_nil_r.
Qed.

Lemma follows_bind s n e m (f : state -> state) :
  follows s n e m ->
  (forall s, channel (f s) = channel s /\ sent (f s) = sent s /\ printed (f s) = printed s) ->
  follows s n e (s ← m; Ok (f s)).
Proof.
  intros (cas & H1 & H2 & H3 & H4) Hf. exists cas. split_and!; [done..|].
  destruct m as [s'|c]; cbn [mbind outcome_bind]; [|done]. destruct (Hf s') as (-> & -> & ->). done.
Qed.

Lemma follows_send m s : follows s 1 false (send m s).
Proof.
  apply follows_step; [done|done|done|]. intros c evs [= <- <-]. eexists _, [], [].
  split_and!; [done..|]. cbn. by rewrite app_nil_r.
Qed.

Lemma write_events (c c' : channel_state) evs : Channel.write c = Ok (c', evs) -> evs = [].
Proof.
  unfold Channel.write. destruct (Channel.writers c); [by intros [= _ <-]|].
  intros (fd & _ & [= _ <-])%outcome_bind_Ok. done.
Qed.

Lemma follows_write s n : follows s n false (write s).
Proof. apply follows_quiet; [done|apply Nat.le_0_l|done|apply write_events|done]. Qed.

Lemma resume_events i (c c' : channel_state) evs :
  Channel.resume i c = Ok (c', evs) -> evs = [] \/ exists m, evs = [Channel.Received m].
Proof.
  unfold Channel.resume. destruct (Channel.receivers c !! i) as [[| |]|]; try (intros [= _ <-]; by left).
  intros (r & _ & H)%outcome_bind_Ok. destruct (negb _); [done|].
  apply outcome_bind_Ok in H as ([m s] & _ & [= _ <-]). right. by exists m.
Qed.

Lemma follows_receiver r s : follows s 0 false (receiver_step r s).
Proof.
  apply follows_step; [done|done|done|]. intros c evs Hs.
  destruct (resume_events _ _ _ _ Hs) as [->|[m ->]].
  - exists (set_channel c s), [], []. cbn. by rewrite !app_nil_r.
  - eexists _, [Channel.AReceive true], []. split_and!; [done|by repeat constructor|done..| |].
    + cbn. by rewrite app_nil_r.
    + cbn. by rewrite fmap_app.
Qed.

(** ** Executions *)

Definition errno_range (a : action) : Prop :=
  match a with AReadError _ e => 0 < e < 2 ^ 31 | _ => True end.

Definition is_error (a : action) : bool :=
  match a with AReadError _ _ => true | _ => false end.

Lemma example_step_follows a s : errno_range a -> follows s 1 (is_error a) (step a s).
Proof.
  intros He. destruct a as [| | | |r|r e|r]; cbn [step is_error].
  - unfold sender_step. destruct (sender s); [by apply follows_none| | |by apply follows_none].
    + apply follows_bind; [apply follows_send|done].
    + apply follows_bind; [apply follows_write|done].
  - destruct (sender s); by apply follows_none.
  - unfold task_step. destruct (task s); [by apply follows_none| | |by apply follows_none].
    + apply follows_bind; [apply follows_send|done].
    + apply follows_bind; [apply follows_write|done].
  - destruct (task s); by apply follows_none.
  - apply follows_quiet; [done|apply Nat.le_0_l|done| |done]. intros c evs. cbn [Channel.step]. unfold Channel.read_done.
    destruct (_ !! _) as [[]|]; try by intros [= _ <-]. destruct (sys_eventfd_read _) as [[]|]; by intros [= _ <-].
  - apply follows_quiet; [done|apply Nat.le_0_l|done| |done]. intros c evs. cbn [Channel.step]. unfold Channel.read_error.
    destruct (_ !! _) as [[]|]; by intros [= _ <-].
  - destruct (loop_free s); [|by apply follows_none].
    destruct (follows_receiver r s) as (cas & H1 & H2 & H). exists cas. split_and!; [done|lia|apply H..].
Qed.

Lemma channel_run_app cas1 cas2 (c : channel_state) :
  Channel.run (cas1 ++ cas2) c =
    '(c1, e1) ← Channel.run cas1 c; '(c2, e2) ← Channel.run cas2 c1; Ok (c2, e1 ++ e2).
Proof.
  revert c. induction cas1 as [|a cas1 IH]; intros c; cbn [app Channel.run].
  - cbn. by destruct (Channel.run cas2 c) as [[]|].
  - destruct (Channel.step a c) as [[c1 e1]|]; cbn; [|done]. rewrite IH.
    destruct (Channel.run cas1 c1) as [[c2 e2]|]; cbn; [|done].
    destruct (Channel.run cas2 c2) as [[c3 e3]|]; cbn; [|done]. by rewrite app_assoc.
Qed.

Lemma follows_app s s1 n1 n2 b1 b2 r :
  follows s n1 b1 (Ok s1) -> follows s1 n2 b2 r -> follows s (n1 + n2) (b1 || b2) r.
Proof.
  intros (cas1 & H1 & H2 & H3 & evs1 & Hr1 & Hs1 & Hp1) (cas2 & H4 & H5 & H6 & Hr).
  exists (cas1 ++ cas2). split_and!.
  - by apply Forall_app.
  - unfold Channel.sends in *. rewrite list.filter_app, length_app. lia.
  - rewrite existsb_app. intros [?%H3|?%H6]%orb_true_iff; subst; [done|apply orb_true_r].
  - destruct r as [s2|c].
    + destruct Hr as (evs2 & Hr2 & Hs2 & Hp2). exists (evs1 ++ evs2).
      rewrite channel_run_app, Hr1. cbn [mbind outcome_bind]. rewrite Hr2. cbn [mbind outcome_bind].
      unfold Channel.sent, Channel.received in *. by rewrite !omap_app, !app_assoc, <- Hs1, <- Hp1.
    + rewrite channel_run_app, Hr1. cbn [mbind outcome_bind]. by rewrite Hr.
Qed.

Lemma example_run_follows acts : forall s,
  Forall errno_range acts -> follows s (length acts) (existsb is_error acts) (run acts s).
Proof.
  induction acts as [|a acts IH]; intros s He; [by apply follows_none|].
  apply Forall_cons_1 in He as [Ha He]. cbn [run existsb length].
  pose proof (example_step_follows a s Ha) as Hstep. destruct (step a s) as [s1|c]; cbn [mbind outcome_bind].
  - apply (follows_app s s1 1 (length acts)); [done|by apply IH].
  - destruct Hstep as (cas & H1 & H2 & H3 & H4). exists cas. split_and!; [done|lia| |done].
    intros Hc. by rewrite (H3 Hc).
Qed.

(** C21: The example channel.cpp: whatever the interleaving of its two receivers, the
    sending coroutine, the task in the thread pool and the kernel, the receivers
    together print what was sent, each message once and in the order it was put into
    the channel, what was not printed yet is in the channel, no assertion fails, and
    the program aborts only when reading the eventfd fails. *)
Theorem channel_example_prints acts s0 :
  init = Ok s0 -> Z.of_nat (length acts) < U64MAX -> Forall errno_range acts ->
  match run acts s0 with
  | Ok s => sent s = (printed s).*2 ++ Channel.messages_ (channel s)
  | Crash c => c = Aborted /\ existsb is_error acts = true
  end.
Proof.
  intros Hi Hn He. unfold init in Hi. apply outcome_bind_Ok in Hi as (c0 & Hc0 & Hi).
  cbn in Hi. injection Hi as <-. destruct (Channel.channel_init_inv c0 Hc0) as (HI & Hm & Hnf).
  set (s0 := mkState _ _ _ _ _ _). destruct (example_run_follows acts s0 He) as (cas & H1 & H2 & H3 & H4).
  assert (Forall Channel.errno_range cas) as He1
    by (eapply Forall_impl; [|exact H1]; by intros ? []).
  assert (existsb Channel.is_full cas = false) as Hf1.
  { clear -H1. induction H1 as [|ca cas [_ Hca] _ IH]; [done|]. cbn. by rewrite Hca. }
  pose proof (Channel.run_fine (Channel.AReceive true :: Channel.AReceive true :: cas) c0 HI) as H.
  rewrite Hm in H. cbn [length] in H.
  assert (Channel.sends (Channel.AReceive true :: Channel.AReceive true :: cas) = Channel.sends cas) as Hsends by done.
  specialize (H ltac:(rewrite Hsends; lia) ltac:(by repeat constructor)).
  change (Channel.run (Channel.AReceive true :: Channel.AReceive true :: cas) c0) with
    ('(c2, e2) ← ('(c2, e2) ← Channel.run cas (channel s0); Ok (c2, [] ++ e2));
     Ok (c2, [] ++ e2) : outcome (channel_state * list Channel.event)) in H.
  destruct (run acts s0) as [s|c].
  - destruct H4 as (evs & Hr & Hs & Hp). rewrite Hr in H. cbn in H. destruct H as (_ & _ & Heq & _).
    rewrite Hm in Heq. cbn in Heq. by rewrite Hs, Hp.
  - rewrite H4 in H. cbn [mbind outcome_bind Channel.fine] in H. destruct H as [[-> [?|?]]|[_ Hf]]; [done| |].
    + split; [done|]. by apply H3.
    + cbn in Hf. congruence.
Qed.

End Example.
End ChannelExample.

Import ChannelExample SimEventfd.

(** The coroutine sends one message and the task three, of which each receiver gets
    one, the second one first. *)
Definition chatting : list action :=
  [ASender; AReadDone Two; ATask; ASender; ATask; ASender; AReadDone Two; ATask; ATask; AReadDone One;
   AResume Two; ATask; AResume One; ATask; ATimeout; ASender].

Definition talk : state :=
  mkState (Channel.mkState [] (0%N, true) 0 [Channel.RRead; Channel.RRead])
    (fun r => match r with One => 0%nat | Two => 1%nat end) SPush TNone [] [].

Definition outline (o : outcome state) : option (list message * list (receiver_id * message)) :=
  match o with
  | Ok s => Some (sent s, printed s)
  | Crash _ => None
  end.

Lemma chatting_outline :
  outline (run chatting talk) =
    Some ([Whattup; Hello; Whattup; Whattup; Hello], [(Two, Whattup); (One, Hello)]).
Proof. vm_compute. reflexivity. Qed.

Lemma channel_example_prints_witness :
  init = Ok talk /\ exists s, run chatting talk = Ok s /\
    sent s = [Whattup; Hello; Whattup; Whattup; Hello] /\ printed s = [(Two, Whattup); (One, Hello)] /\
    sent s = (printed s).*2 ++ Channel.messages_ (channel s).
Proof.
  split; [reflexivity|]. pose proof chatting_outline as Ho.
  assert (Forall errno_range chatting) as He by (repeat constructor).
  pose proof (channel_example_prints chatting talk eq_refl ltac:(reflexivity) He) as H.
  destruct (run chatting talk) as [s|c]; [|discriminate Ho]. injection Ho as Hs Hp.
  exists s. split; [reflexivity|]. split; [exact Hs|]. split; [exact Hp|exact H].
Defined.
