(* ===== verification/Pool.v ===== *)
(** * The thread pool: [ThreadPool] (threadpool.hpp, threadpool.cpp)

    Worker threads, threads that push and the destructor as interleaved steps.
    What happens between a lock and its unlock is one step when nobody else can
    see the middle of it; the evaluation of [wait]'s predicate and the blocking
    that follows are two, because the destructor takes no lock. *)

From Stdlib Require Import ZArith Lia.
From stdpp Require Import base numbers list option.
From S2P Require Import Prelude.

Module ThreadPool.

(** Where a worker is in [workerFunc]. *)
Inductive worker_pc : Type :=
| WLoop            (* before [while (running_.load())] *)
| WLock            (* before taking the lock *)
| WPred            (* holds the lock, before evaluating the predicate *)
| WBlock           (* holds the lock, the predicate was false *)
| WWaiting         (* blocked in [wait] *)
| WRelock          (* woken, before taking the lock again *)
| WDecide          (* holds the lock, [wait] has returned *)
| WPop             (* holds the lock, [running_] was true *)
| WRun (t : Z)     (* has taken task [t] *)
| WExit.

#[export] Instance worker_pc_eq_dec : EqDecision worker_pc.
Proof. solve_decision. Defined.

(** The destructor: not called, [running_] cleared, all notified, joined. *)
Inductive dtor_pc : Type := DNone | DStored | DNotified | DDone.

#[export] Instance dtor_pc_eq_dec : EqDecision dtor_pc.
Proof. solve_decision. Defined.

(** [lock] is the worker that holds [tasksMutex_]; [notifies] counts the pushes
    that have not reached [notify_one]. *)
Record state : Type := mkState {
  running_ : bool;
  tasks_ : list Z;
  lock : option nat;
  workers : list worker_pc;
  notifies : nat;
  dtor : dtor_pc
}.

Inductive action : Type :=
| AWorker (w : nat)
| ASpurious (w : nat)             (* [wait] may return without a notification *)
| APush (t : Z)
| ANotifyOne (w : option nat)     (* the waiter that is woken, if there is one *)
| ADtor.

Inductive event : Type := Pushed (t : Z) | Popped (t : Z) | Ran (t : Z).

(** The constructor: at least one thread. *)
Definition init (numThreads : nat) : state :=
  mkState true [] None (replicate (Nat.max 1 numThreads) WLoop) 0 DNone.

Definition set_worker (w : nat) (pc : worker_pc) (s : state) : state :=
  mkState (running_ s) (tasks_ s) (lock s) (<[w := pc]> (workers s)) (notifies s) (dtor s).
Definition set_lock (l : option nat) (s : state) : state :=
  mkState (running_ s) (tasks_ s) l (workers s) (notifies s) (dtor s).
Definition set_tasks (ts : list Z) (s : state) : state :=
  mkState (running_ s) ts (lock s) (workers s) (notifies s) (dtor s).

(** The predicate of [wait]. *)
Definition predicate (s : state) : bool :=
  negb (bool_decide (tasks_ s = [])) || negb (running_ s).

(** Taking the lock, when it is free. *)
Definition acquire (w : nat) (s : state) : outcome (state * list event) :=
  match lock s with
  | None => Ok (set_lock (Some w) (set_worker w WPred s), [])
  | Some _ => Ok (s, [])
  end.

Definition worker_step (w : nat) (s : state) : outcome (state * list event) :=
  match workers s !! w with
  | None => Ok (s, [])
  | Some pc =>
      match pc with
      | WLoop => Ok (set_worker w (if running_ s then WLock else WExit) s, [])
      | WLock | WRelock => acquire w s
      | WPred => Ok (set_worker w (if predicate s then WDecide else WBlock) s, [])
      | WBlock => Ok (set_lock None (set_worker w WWaiting s), [])
      | WWaiting => Ok (s, [])
      | WDecide =>
          if running_ s then Ok (set_worker w WPop s, [])
          else Ok (set_lock None (set_worker w WLoop s), [])
      | WPop =>
          t ← deref (head (tasks_ s));
          Ok (set_lock None (set_tasks (tail (tasks_ s)) (set_worker w (WRun t) s)), [Popped t])
      | WRun t => Ok (set_worker w WLoop s, [Ran t])
      | WExit => Ok (s, [])
      end
  end.

(** The locked part of [push]. *)
Definition push (t : Z) (s : state) : outcome (state * list event) :=
  match lock s with
  | None =>
      Ok (mkState (running_ s) (tasks_ s ++ [t]) (lock s) (workers s) (S (notifies s)) (dtor s),
          [Pushed t])
  | Some _ => Ok (s, [])
  end.

Definition is_waiting (pc : worker_pc) : bool := bool_decide (pc = WWaiting).
Definition wake (pc : worker_pc) : worker_pc := if is_waiting pc then WRelock else pc.

(** [tasksCv_.notify_one()]: wakes the chosen waiter; none only if nobody waits. *)
Definition notify_one (w : option nat) (s : state) : outcome (state * list event) :=
  match notifies s with
  | O => Ok (s, [])
  | S n =>
      let s' := mkState (running_ s) (tasks_ s) (lock s) (workers s) n (dtor s) in
      match w with
      | Some w => if default false (is_waiting <$> workers s !! w)
                  then Ok (set_worker w WRelock s', []) else Ok (s, [])
      | None => if existsb is_waiting (workers s) then Ok (s, []) else Ok (s', [])
      end
  end.

(** [~ThreadPool] *)
Definition dtor_step (s : state) : outcome (state * list event) :=
  match dtor s with
  | DNone => Ok (mkState false (tasks_ s) (lock s) (workers s) (notifies s) DStored, [])
  | DStored =>
      Ok (mkState (running_ s) (tasks_ s) (lock s) (wake <$> workers s) (notifies s) DNotified, [])
  | DNotified =>
      if forallb (fun pc => bool_decide (pc = WExit)) (workers s)
      then Ok (mkState (running_ s) (tasks_ s) (lock s) (workers s) (notifies s) DDone, [])
      else Ok (s, [])
  | DDone => Ok (s, [])
  end.

Definition step (a : action) (s : state) : outcome (state * list event) :=
  match a with
  | AWorker w => worker_step w s
  | ASpurious w =>
      if default false (is_waiting <$> workers s !! w)
      then Ok (set_worker w WRelock s, []) else Ok (s, [])
  | APush t => push t s
  | ANotifyOne w => notify_one w s
  | ADtor => dtor_step s
  end.

Fixpoint run (acts : list action) (s : state) : outcome (state * list event) :=
  match acts with
  | [] => Ok (s, [])
  | a :: acts =>
      '(s1, e1) ← step a s;
      '(s2, e2) ← run acts s1;
      Ok (s2, e1 ++ e2)
  end.

(** ** The invariant *)

Definition holds (pc : worker_pc) : bool :=
  match pc with WPred | WBlock | WDecide | WPop => true | _ => false end.

(** Will look at the queue, or at [running_], before it blocks. *)
Definition awake (pc : worker_pc) : bool :=
  match pc with WBlock | WWaiting | WExit => false | _ => true end.

Record Inv (s : state) : Prop := {
  inv_lock w pc : workers s !! w = Some pc -> holds pc = true <-> lock s = Some w;
  inv_pop w : workers s !! w = Some WPop -> tasks_ s <> [];
  inv_decide w : workers s !! w = Some WDecide -> running_ s = true -> tasks_ s <> [];
  inv_block w : workers s !! w = Some WBlock -> running_ s = true -> tasks_ s = [];
  inv_exit w : workers s !! w = Some WExit -> running_ s = false;
  inv_dtor : running_ s = bool_decide (dtor s = DNone);
  inv_some : workers s <> [];
  (* a queued task is on its way to a worker *)
  inv_progress : running_ s = true -> tasks_ s <> [] -> notifies s = O ->
    exists w pc, workers s !! w = Some pc /\ awake pc = true
}.

Lemma pool_init_inv n : Inv (init n).
Proof.
  assert (forall w pc, workers (init n) !! w = Some pc -> pc = WLoop) as H.
  { intros w pc [-> _]%lookup_replicate. done. }
  split; cbn [tasks_ init running_ notifies dtor lock]; try done.
  - intros w pc ->%H. done.
  - intros w Hw%H. done.
  - intros w Hw%H. done.
  - intros w Hw%H. done.
  - intros Hw. apply (f_equal length) in Hw. cbn [workers init] in Hw.
    rewrite length_replicate in Hw. cbn in Hw. lia.
Qed.

(** Worker [w] goes from [pc] to [pc'], maybe changing the queue while it holds the lock. *)
Lemma move_inv s w pc pc' ts l :
  Inv s -> workers s !! w = Some pc ->
  l = (if holds pc' then Some w else if holds pc then None else lock s) ->
  (holds pc' = true -> holds pc = true \/ lock s = None) ->
  (ts = tasks_ s \/ holds pc = true) ->
  (pc' = WPop -> ts <> []) ->
  (pc' = WDecide -> running_ s = true -> ts <> []) ->
  (pc' = WBlock -> running_ s = true -> ts = []) ->
  (pc' = WExit -> running_ s = false) ->
  (running_ s = true -> ts <> [] ->
    awake pc' = true \/ (awake pc = false /\ tasks_ s <> [])) ->
  Inv (mkState (running_ s) ts l (<[w := pc']> (workers s)) (notifies s) (dtor s)).
Proof.
  intros [Hlock Hpop Hdec Hblk Hexit Hdtor Hsome Hprog] Hw Hl Hacq Hts H1 H2 H3 H4 H5.
  assert (Hwlt : w < length (workers s)) by (by eapply lookup_lt_Some).
  assert (Hother : forall w2 pc2, w2 <> w -> workers s !! w2 = Some pc2 -> holds pc2 = true ->
    holds pc = false /\ holds pc' = false /\ ts = tasks_ s).
  { intros w2 pc2 Hne Hw2 Hh. apply (Hlock w2 pc2 Hw2) in Hh as Hl2.
    assert (holds pc = false) as Hpc.
    { destruct (holds pc) eqn:E; [|done]. apply (Hlock w pc Hw) in E. congruence. }
    split; [done|]. split.
    - destruct (holds pc'); [|done]. destruct Hacq; [done|congruence..].
    - destruct Hts; congruence. }
  split; cbn [running_ tasks_ lock workers notifies dtor].
  - intros w2 pc2 [(<- & -> & _)|(Hne & Hw2)]%lookup_insert_cases; subst l.
    + destruct (holds pc') eqn:Hh'; [done|]. split; [done|].
      destruct (holds pc) eqn:Hh; [done|]. intros Hls.
      apply (Hlock w pc Hw) in Hls. congruence.
    + rewrite (Hlock w2 pc2 Hw2). split; intros Hls.
      * destruct (Hother w2 pc2) as (-> & -> & _); [done|done|by apply (Hlock w2 pc2 Hw2)|done].
      * destruct (holds pc'); [congruence|]. by destruct (holds pc).
  - intros w2 [(<- & <- & _)|(Hne & Hw2)]%lookup_insert_cases; [by apply H1|].
    destruct (Hother w2 WPop) as (_ & _ & ->); [done..|]. eauto.
  - intros w2 [(<- & <- & _)|(Hne & Hw2)]%lookup_insert_cases; [by apply H2|].
    destruct (Hother w2 WDecide) as (_ & _ & ->); [done..|]. eauto.
  - intros w2 [(<- & <- & _)|(Hne & Hw2)]%lookup_insert_cases; [by apply H3|].
    destruct (Hother w2 WBlock) as (_ & _ & ->); [done..|]. eauto.
  - intros w2 [(<- & <- & _)|(Hne & Hw2)]%lookup_insert_cases; [by apply H4|]. eauto.
  - done.
  - intros Hx. apply (f_equal length) in Hx. rewrite length_insert in Hx. cbn in Hx. lia.
  - intros Hr Hne Hn. destruct (H5 Hr Hne) as [Ha|[Ha Hts0]].
    + exists w, pc'. split; [|done]. by apply list_lookup_insert_eq.
    + destruct (Hprog Hr Hts0 Hn) as (w2 & pc2 & Hw2 & Ha2). exists w2, pc2.
      split; [|done]. rewrite list_lookup_insert_ne; [done|]. intros ->. congruence.
Qed.

Lemma worker_step_inv w s :
  Inv s -> exists s' evs, worker_step w s = Ok (s', evs) /\ Inv s'.
Proof.
  intros HI. unfold worker_step. destruct (workers s !! w) as [pc|] eqn:Hw; [|by eexists _, _].
  assert (Hacq : forall pc, workers s !! w = Some pc -> holds pc = false -> 
    exists s' evs, acquire w s = Ok (s', evs) /\ Inv s').
  { intros pc0 Hw0 Hh. unfold acquire. destruct (lock s) eqn:Hl; [by eexists _, _|].
    eexists _, _. split; [done|]. apply (move_inv s w pc0); try done; auto. }
  destruct pc as [| | | | | | | |t|];
    [ | by eapply Hacq | | | by eexists _, _ | by eapply Hacq | | | | by eexists _, _].
  - eexists _, _. split; [done|].
    apply (move_inv s w WLoop (if running_ s then WLock else WExit) (tasks_ s) (lock s));
      try done; destruct (running_ s) eqn:Hr; auto; congruence.
  - eexists _, _. split; [done|].
    assert (predicate s = true <-> tasks_ s <> [] \/ running_ s = false) as Hp.
    { unfold predicate. rewrite orb_true_iff, !negb_true_iff, bool_decide_eq_false. done. }
    assert (lock s = Some w) as Hl by by apply (inv_lock _ HI w WPred).
    apply (move_inv s w WPred (if predicate s then WDecide else WBlock) (tasks_ s) (lock s));
      try done; destruct (predicate s) eqn:E; auto; try done.
    + intros _ Hr. destruct (proj1 Hp eq_refl); [done|congruence].
    + intros _ Hr. destruct (tasks_ s); [done|].
      assert (false = true) by (apply Hp; by left). done.
    + intros Hr Hne. assert (false = true) by (apply Hp; by left). done.
  - eexists _, _. split; [done|].
    apply (move_inv s w WBlock WWaiting (tasks_ s) None); try done; auto.
  - destruct (running_ s) eqn:Hr; (eexists _, _; split; [done|]).
    + apply (move_inv s w WDecide WPop (tasks_ s) (lock s)); try done; auto.
      * by apply (inv_lock _ HI w WDecide).
      * intros _. by apply (inv_decide _ HI w).
    + apply (move_inv s w WDecide WLoop (tasks_ s) None); try done; auto.
  - pose proof (inv_pop _ HI w Hw) as Hne. destruct (tasks_ s) as [|t ts] eqn:Ht; [done|].
    eexists _, _. split; [done|]. cbn [tail].
    apply (move_inv s w WPop (WRun t) ts None); try done; auto.
  - eexists _, _. split; [done|].
    apply (move_inv s w (WRun t) WLoop (tasks_ s) (lock s)); try done; auto.
Qed.

Lemma is_waiting_spec (ws : list worker_pc) (w : nat) :
  default false (is_waiting <$> ws !! w) = true -> ws !! w = Some WWaiting.
Proof.
  destruct (ws !! w) as [pc|]; cbn; [|done]. unfold is_waiting.
  by intros ->%bool_decide_eq_true.
Qed.

Lemma spurious_inv w s :
  Inv s -> workers s !! w = Some WWaiting -> Inv (set_worker w WRelock s).
Proof.
  intros HI Hw. apply (move_inv s w WWaiting WRelock (tasks_ s) (lock s)); try done; auto.
Qed.

Lemma push_inv t s : Inv s -> exists s' evs, push t s = Ok (s', evs) /\ Inv s'.
Proof.
  intros HI. unfold push. destruct (lock s) as [w|] eqn:Hl; [by eexists _, _|].
  eexists _, _. split; [done|].
  assert (Hnone : forall w pc, workers s !! w = Some pc -> holds pc = false).
  { intros w pc Hw. destruct (holds pc) eqn:E; [|done].
    apply (inv_lock _ HI w pc Hw) in E. congruence. }
  assert (Hne : tasks_ s ++ [t] <> []) by (by intros [_ ?]%app_eq_nil).
  destruct HI as [H1 H2 H3 H4 H5 H6 H7 H8].
  split; cbn [tasks_ running_ lock workers notifies dtor]; try done.
  - intros w pc Hw. rewrite <- Hl. eauto.
  - intros w Hw. by apply Hnone in Hw.
Qed.

Lemma awake_cases s w pc :
  Inv s -> workers s !! w = Some pc -> pc <> WWaiting -> running_ s = true -> tasks_ s <> [] ->
  awake pc = true.
Proof.
  intros HI Hw Hne Hr Ht. destruct pc; try done.
  - by destruct Ht; apply (inv_block _ HI w).
  - apply (inv_exit _ HI) in Hw. congruence.
Qed.

Lemma pool_notify_inv w s : Inv s -> exists s' evs, notify_one w s = Ok (s', evs) /\ Inv s'.
Proof.
  intros HI. unfold notify_one. destruct (notifies s) as [|n] eqn:Hn; [by eexists _, _|].
  assert (Hfew : forall ws, Inv (mkState (running_ s) (tasks_ s) (lock s) ws (notifies s) (dtor s)) ->
    (running_ s = true -> tasks_ s <> [] -> exists w pc, ws !! w = Some pc /\ awake pc = true) ->
    Inv (mkState (running_ s) (tasks_ s) (lock s) ws n (dtor s))).
  { intros ws [H1 H2 H3 H4 H5 H6 H7 _] H8. split; try assumption. intros Hr Ht _. by apply H8. }
  destruct w as [w|].
  - destruct (default _ _) eqn:Hw; [|by eexists _, _]. apply is_waiting_spec in Hw.
    eexists _, _. split; [done|]. 
    apply (Hfew (<[w := WRelock]> (workers s))); [exact (spurious_inv w s HI Hw)|].
    intros _ _. exists w, WRelock. split; [|done].
    apply list_lookup_insert_eq. by eapply lookup_lt_Some.
  - destruct (existsb is_waiting (workers s)) eqn:E; [by eexists _, _|].
    eexists _, _. split; [done|]. apply Hfew; [by destruct s|]. intros Hr Ht.
    destruct (workers s) as [|pc ws] eqn:Hws; [by destruct (inv_some _ HI)|].
    exists 0, pc. split; [done|]. apply (awake_cases s 0); [done|by rewrite Hws| |done|done].
    intros ->. by cbn in E.
Qed.

Lemma wake_holds pc : holds (wake pc) = holds pc.
Proof. by destruct pc. Qed.

Lemma dtor_inv s : Inv s -> exists s' evs, dtor_step s = Ok (s', evs) /\ Inv s'.
Proof.
  intros HI. unfold dtor_step. destruct (dtor s) eqn:Hd; [| | |by eexists _, _].
  - eexists _, _. split; [done|]. destruct HI as [H1 H2 H3 H4 H5 H6 H7 H8]. by split.
  - eexists _, _. split; [done|]. pose proof (inv_dtor _ HI) as Hr. rewrite Hd in Hr. cbn in Hr.
    destruct HI as [H1 H2 H3 H4 H5 H6 H7 H8].
    split; cbn [tasks_ running_ lock workers notifies dtor]; rewrite ?Hr; try done.
    + intros w pc (pc0 & -> & Hw)%list_lookup_fmap_Some. rewrite wake_holds. eauto.
    + intros w ([] & Heq & Hw)%list_lookup_fmap_Some; try discriminate Heq. eauto.
    + by intros Hx%fmap_nil_inv.
  - destruct (forallb _ (workers s)); (eexists _, _; split; [done|]); [|done].
    pose proof (inv_dtor _ HI) as Hr. rewrite Hd in Hr. cbn in Hr.
    destruct HI as [H1 H2 H3 H4 H5 H6 H7 H8].
    by split; cbn [tasks_ running_ lock workers notifies dtor]; rewrite ?Hr.
Qed.

Lemma step_inv a s : Inv s -> exists s' evs, step a s = Ok (s', evs) /\ Inv s'.
Proof.
  intros HI. destruct a as [w|w|t|w|]; cbn [step].
  - by apply worker_step_inv.
  - destruct (default _ _) eqn:Hw; [|by eexists _, _]. apply is_waiting_spec in Hw.
    eexists _, _. split; [done|]. by apply spurious_inv.
  - by apply push_inv.
  - by apply pool_notify_inv.
  - by apply dtor_inv.
Qed.

(** ** Tasks are neither lost nor duplicated *)

Definition pushed (evs : list event) : list Z :=
  omap (fun e => match e with Pushed t => Some t | _ => None end) evs.
Definition popped (evs : list event) : list Z :=
  omap (fun e => match e with Popped t => Some t | _ => None end) evs.
Definition ran (evs : list event) : list Z :=
  omap (fun e => match e with Ran t => Some t | _ => None end) evs.

Definition task_of (pc : worker_pc) : option Z :=
  match pc with WRun t => Some t | _ => None end.

(** The tasks being executed. *)
Definition executing (s : state) : list Z := omap task_of (workers s).

Definition opt_list (o : option Z) : list Z :=
  match o with Some t => [t] | None => [] end.

Lemma executing_insert (ws : list worker_pc) (w : nat) pc pc' :
  ws !! w = Some pc ->
  opt_list (task_of pc) ++ omap task_of (<[w := pc']> ws) ≡ₚ
  opt_list (task_of pc') ++ omap task_of ws.
Proof.
  intros Hw. rewrite <- (take_drop_middle ws w pc Hw) at 2.
  rewrite insert_take_drop by (by eapply lookup_lt_Some). rewrite !omap_app. cbn.
  destruct (task_of pc) as [t|], (task_of pc') as [t'|]; cbn;
    rewrite <- ?Permutation_middle; done || apply Permutation_swap.
Qed.

(** What a stretch of events did to the queue and to the running tasks. *)
Definition log_ok (s s' : state) (evs : list event) : Prop :=
  tasks_ s ++ pushed evs = popped evs ++ tasks_ s' /\
  popped evs ++ executing s ≡ₚ ran evs ++ executing s'.

Lemma log_quiet s s' :
  tasks_ s' = tasks_ s -> executing s ≡ₚ executing s' -> log_ok s s' [].
Proof. intros Ht He. split; [|exact He]. cbn. by rewrite app_nil_r. Qed.

Lemma log_idle s s' w pc pc' :
  workers s !! w = Some pc -> task_of pc = None ->
  workers s' = <[w := pc']> (workers s) -> task_of pc' = None -> tasks_ s' = tasks_ s -> log_ok s s' [].
Proof.
  intros Hw H1 Hs H2 Ht. apply log_quiet; [done|]. unfold executing. rewrite Hs.
  pose proof (executing_insert (workers s) w pc pc' Hw) as Hp. rewrite H1, H2 in Hp. by symmetry.
Qed.

Lemma log_app s s1 s2 e1 e2 : log_ok s s1 e1 -> log_ok s1 s2 e2 -> log_ok s s2 (e1 ++ e2).
Proof.
  unfold log_ok, pushed, popped, ran. intros [Ht1 He1] [Ht2 He2]. rewrite !omap_app. split.
  - rewrite app_assoc, Ht1, <- app_assoc, Ht2. apply app_assoc.
  - rewrite (Permutation_app_comm (omap _ e1)), <- app_assoc, He1.
    rewrite (app_assoc (omap _ e2)), (Permutation_app_comm (omap _ e2)), <- app_assoc, He2.
    by rewrite app_assoc.
Qed.

Lemma acquire_log w pc s s' evs :
  workers s !! w = Some pc -> task_of pc = None -> acquire w s = Ok (s', evs) -> log_ok s s' evs.
Proof.
  intros Hw Hpc H. unfold acquire in H.
  destruct (lock s); injection H as <- <-; [by apply log_quiet|by eapply log_idle].
Qed.

Lemma worker_log w s s' evs : worker_step w s = Ok (s', evs) -> log_ok s s' evs.
Proof.
  intros H. unfold worker_step in H.
  destruct (workers s !! w) as [pc|] eqn:Hw; [|injection H as <- <-; by apply log_quiet].
  destruct pc as [| | | | | | | |t|].
  all: try (by eapply acquire_log).
  - injection H as <- <-. eapply log_idle; [exact Hw|done|reflexivity| |done].
    by destruct (running_ s).
  - injection H as <- <-. eapply log_idle; [exact Hw|done|reflexivity| |done].
    by destruct (predicate s).
  - injection H as <- <-. by eapply log_idle.
  - injection H as <- <-. by apply log_quiet.
  - destruct (running_ s); injection H as <- <-; by eapply log_idle.
  - apply outcome_bind_Ok in H as (t & Ht & [= <- <-]). apply deref_Ok in Ht.
    destruct (tasks_ s) as [|t' ts] eqn:Hts; [done|]. injection Ht as ->.
    split; cbn; [by rewrite Hts, app_nil_r|].
    pose proof (executing_insert (workers s) w WPop (WRun t) Hw) as Hp. cbn in Hp. by symmetry.
  - injection H as <- <-. split; cbn; [by rewrite app_nil_r|].
    pose proof (executing_insert (workers s) w (WRun t) WLoop Hw) as Hp. cbn in Hp. by symmetry.
  - injection H as <- <-. by apply log_quiet.
Qed.

Lemma notify_log w s s' evs : notify_one w s = Ok (s', evs) -> log_ok s s' evs.
Proof.
  intros H. unfold notify_one in H.
  destruct (notifies s) as [|n]; [injection H as <- <-; by apply log_quiet|].
  destruct w as [w|].
  - destruct (default _ _) eqn:Hw; injection H as <- <-; [|by apply log_quiet].
    apply is_waiting_spec in Hw. by eapply log_idle.
  - destruct (existsb _ _); injection H as <- <-; by apply log_quiet.
Qed.

Lemma wake_executing (ws : list worker_pc) : omap task_of (wake <$> ws) = omap task_of ws.
Proof. induction ws as [|pc ws IH]; [done|]. cbn. rewrite IH. by destruct pc. Qed.

Lemma dtor_log s s' evs : dtor_step s = Ok (s', evs) -> log_ok s s' evs.
Proof.
  intros H. unfold dtor_step in H. destruct (dtor s); [| |destruct (forallb _ _)|];
    injection H as <- <-; apply log_quiet; try done.
  unfold executing. cbn [workers]. by rewrite wake_executing.
Qed.

Lemma step_log a s s' evs : step a s = Ok (s', evs) -> log_ok s s' evs.
Proof.
  destruct a as [w|w|t|w|]; cbn [step]; intros H.
  - by eapply worker_log.
  - destruct (default _ _) eqn:Hw; injection H as <- <-; [|by apply log_quiet].
    apply is_waiting_spec in Hw. by eapply log_idle.
  - unfold push in H. destruct (lock s); injection H as <- <-; [by apply log_quiet|].
    by split.
  - by eapply notify_log.
  - by eapply dtor_log.
Qed.

Lemma pool_run_inv acts : forall s,
  Inv s -> exists s' evs, run acts s = Ok (s', evs) /\ Inv s' /\ log_ok s s' evs.
Proof.
  induction acts as [|a acts IH]; intros s HI; cbn [run].
  - exists s, []. split; [done|]. split; [done|]. by apply log_quiet.
  - destruct (step_inv a s HI) as (s1 & e1 & Hs & HI1). rewrite Hs. cbn [mbind outcome_bind].
    apply step_log in Hs. destruct (IH s1 HI1) as (s2 & e2 & -> & HI2 & Hl). cbn [mbind outcome_bind].
    exists s2, (e1 ++ e2). split; [done|]. split; [done|]. by eapply log_app.
Qed.

(** C35: Under every interleaving of workers, pushing threads, notifications, spurious
    wakeups and the destructor, no worker pops from an empty queue; tasks are taken
    in the order they were pushed, each at most once, and every task taken is
    executed or being executed; two workers never hold the lock at once. *)
Theorem pool_fifo n acts :
  exists s evs, run acts (init n) = Ok (s, evs) /\
    pushed evs = popped evs ++ tasks_ s /\
    popped evs ≡ₚ ran evs ++ executing s /\
    (forall w1 w2 pc1 pc2, workers s !! w1 = Some pc1 -> workers s !! w2 = Some pc2 ->
      holds pc1 = true -> holds pc2 = true -> w1 = w2).
Proof.
  destruct (pool_run_inv acts (init n) (pool_init_inv n)) as (s & evs & Hr & HI & Hf & Hp).
  exists s, evs. split; [done|]. split; [exact Hf|]. split.
  - rewrite <- Hp. unfold executing. cbn [workers init].
    replace (omap task_of (replicate (Nat.max 1 n) WLoop)) with (@nil Z); [by rewrite app_nil_r|].
    induction (Nat.max 1 n); [done|]. done.
  - intros w1 w2 pc1 pc2 H1 H2 Hh1 Hh2.
    apply (inv_lock _ HI w1 pc1 H1) in Hh1. apply (inv_lock _ HI w2 pc2 H2) in Hh2. congruence.
Qed.

(** C17: No pushed task is forgotten while the pool lives: as long as the destructor
    has not started, whenever a task is queued, a notification is still to come or
    some worker will look at the queue before it blocks. *)
Theorem pool_no_lost_task n acts s evs :
  run acts (init n) = Ok (s, evs) -> dtor s = DNone -> tasks_ s <> [] ->
  0 < notifies s \/ exists w pc, workers s !! w = Some pc /\ awake pc = true.
Proof.
  intros Hr Hd Ht. destruct (pool_run_inv acts (init n) (pool_init_inv n)) as (s' & evs' & Hr' & HI & _).
  rewrite Hr in Hr'. injection Hr' as <- <-.
  pose proof (inv_dtor _ HI) as Hrun. rewrite Hd in Hrun. cbn in Hrun.
  destruct (notifies s) as [|k] eqn:Hn; [right|left; lia]. by apply (inv_progress _ HI).
Qed.

Lemma pool_no_lost_task_witness :
  exists s, run [APush 7] (init 1) = Ok (s, [Pushed 7]) /\
    (0 < notifies s \/ exists w pc, workers s !! w = Some pc /\ awake pc = true).
Proof.
  eexists. split; [reflexivity|].
  by apply (pool_no_lost_task 1 [APush 7] _ [Pushed 7]); [reflexivity|reflexivity|].
Defined.

(** The destructor clears [running_] while the worker is between its predicate and
    blocking, and notifies before the worker waits. *)
Definition lost_wakeup : list action :=
  [AWorker 0; AWorker 0; AWorker 0; ADtor; ADtor; AWorker 0].

(** Nothing can happen any more, except a spurious wakeup or a new task. *)
Definition stuck (s : state) : Prop :=
  (forall w, step (AWorker w) s = Ok (s, [])) /\ (forall w, step (ANotifyOne w) s = Ok (s, [])) /\
  step ADtor s = Ok (s, []).

(** C36: [~ThreadPool] can wait forever: it clears [running_] and notifies without the
    lock, so a worker that has just found nothing to do misses the notification,
    blocks and never exits, while the destructor waits to join it. *)
Theorem pool_destructor_deadlock :
  exists s evs, run lost_wakeup (init 1) = Ok (s, evs) /\ dtor s = DNotified /\
    workers s = [WWaiting] /\ stuck s.
Proof.
  eexists _, _. split; [reflexivity|]. split; [done|]. split; [done|].
  split; [|split; [|done]].
  - intros [|w]; [done|]. by destruct w.
  - intros [w|]; done.
Qed.

End ThreadPool.
