(* ===== verification/Waits.v ===== *)
(** * Waiting for several awaitables: [WaitAll] and [WaitAny] (wait.hpp)

    [add] starts a coroutine that counts itself, awaits the awaitable and reports
    its completion.  The coroutine is the body of a lambda that captures the object,
    and the closure is a temporary of [add]: it is destroyed when the coroutine first
    suspends and [add] returns, while what follows the [co_await] still reads the
    object through it.  An execution is a sequence of additions (of an awaitable that
    is ready or one that suspends the coroutine), completions of suspended ones, and
    the [co_await] of a coroutine on the object. *)

From Stdlib Require Import ZArith Lia.
From stdpp Require Import base numbers list option.
From S2P Require Import Prelude.

Local Open Scope Z_scope.

Module Waits.

(** A coroutine handle. *)
Abbreviation handle := Z.

Inductive action : Type :=
| AAdd (ready : bool)
| AComplete (i : nat)       (* the [i]th awaitable added *)
| AAwait (c : handle).

(** A coroutine goes on after its [co_await] with the value it gives: without
    having been suspended, or by [resume()]. *)
Inductive event : Type :=
| Continued (c : handle) (idx : option Z)
| Resumed (c : handle) (idx : option Z).

(** The closure of [add]'s lambda: there until [add] returns. *)
Inductive closure : Type := Alive | Dead.

(** The object a closure has captured, for a use of it. *)
Definition captured {A} (this : closure) (a : A) : outcome A :=
  match this with
  | Alive => Ok a
  | Dead => Crash UndefinedBehaviour
  end.

(** ** What the environment does *)

Definition is_await (a : action) : bool := match a with AAwait _ => true | _ => false end.

(** The awaitables added, and whether they were ready. *)
Fixpoint added (acts : list action) : list bool :=
  match acts with
  | [] => []
  | AAdd ready :: acts => ready :: added acts
  | _ :: acts => added acts
  end.

(** One of the awaitables that were not ready completes. *)
Fixpoint late (acts : list action) (done : list bool) : bool :=
  match acts with
  | [] => false
  | AAdd ready :: acts => late acts (done ++ [ready])
  | AComplete i :: acts =>
      match done !! i with
      | Some false => true
      | _ => late acts done
      end
  | AAwait _ :: acts => late acts done
  end.

Lemma late_app acts1 acts2 : forall done,
  late (acts1 ++ acts2) done = late acts1 done || late acts2 (done ++ added acts1).
Proof.
  induction acts1 as [|a acts1 IH]; intros ds; [by rewrite app_nil_r|].
  destruct a as [ready|i|c]; cbn [app late added]; [by rewrite IH, <- app_assoc| |by apply IH].
  by destruct (ds !! i) as [[]|].
Qed.

Definition outstanding (done : list bool) : nat := length (filter (fun b => b = false) done).

Lemma outstanding_app l k : outstanding (l ++ k) = (outstanding l + outstanding k)%nat.
Proof. unfold outstanding. by rewrite list.filter_app, length_app. Qed.

Lemma outstanding_le done : (outstanding done <= length done)%nat.
Proof. apply length_filter. Qed.

Lemma outstanding_none l : outstanding l = O <-> Forall (fun ready => ready = true) l.
Proof.
  unfold outstanding. induction l as [|[] l IH]; [by split| |].
  - rewrite filter_cons_False by done. rewrite Forall_cons_iff. tauto.
  - rewrite filter_cons_True by done. rewrite Forall_cons_iff. cbn. naive_solver.
Qed.

Lemma length_added acts : (length (added acts) <= length acts)%nat.
Proof. induction acts as [|[] acts IH]; cbn; lia. Qed.

(** The first that was ready. *)
Definition first_ready (l : list bool) : option Z :=
  Z.of_nat ∘ fst <$> list_find (fun b => b = true) l.

Definition ready_ones (l : list bool) : nat := length (filter (fun b => b = true) l).

Lemma first_ready_app l k :
  first_ready (l ++ k) =
    match first_ready l with
    | Some i => Some i
    | None => Z.add (Z.of_nat (length l)) <$> first_ready k
    end.
Proof.
  unfold first_ready. induction l as [|[] l IH]; cbn [app list_find length].
  - destruct (list_find _ k) as [[]|]; cbn; f_equal.
  - by rewrite !decide_True.
  - rewrite !decide_False by done. revert IH.
    destruct (list_find _ (l ++ k)) as [[]|], (list_find _ l) as [[]|], (list_find _ k) as [[]|]; cbn;
      intros [=]; f_equal; lia.
Qed.

Section Exec.
(** A waiting object [W]: its three operations. *)
Context {W : Type}.
Variable add : bool -> W -> outcome (W * list event).
Variable completed : Z -> W -> outcome (W * list event).
Variable awaited : handle -> W -> W * list event.

Definition step (a : action) (s : W * list bool) : outcome ((W * list bool) * list event) :=
  let '(w, done) := s in
  match a with
  | AAdd ready => '(w, evs) ← add ready w; Ok ((w, done ++ [ready]), evs)
  | AComplete i =>
      match done !! i with
      | Some false => '(w, evs) ← completed (Z.of_nat i) w; Ok ((w, <[i := true]> done), evs)
      | _ => Ok (s, [])
      end
  | AAwait c => let '(w, evs) := awaited c w in Ok ((w, done), evs)
  end.

Fixpoint run (acts : list action) (s : W * list bool) : outcome ((W * list bool) * list event) :=
  match acts with
  | [] => Ok (s, [])
  | a :: acts =>
      '(s, e1) ← step a s;
      '(s, e2) ← run acts s;
      Ok (s, e1 ++ e2)
  end.

Lemma waits_run_app acts1 acts2 : forall s,
  run (acts1 ++ acts2) s = '(s1, e1) ← run acts1 s; '(s2, e2) ← run acts2 s1; Ok (s2, e1 ++ e2).
Proof.
  induction acts1 as [|a acts1 IH]; intros s; cbn.
  - by destruct (run acts2 s) as [[]|].
  - destruct (step a s) as [[s' e]|]; [|done]. cbn. rewrite IH.
    destruct (run acts1 s') as [[s1 e1]|]; [|done]. cbn.
    destruct (run acts2 s1) as [[s2 e2]|]; [|done]. cbn. by rewrite app_assoc.
Qed.

End Exec.
End Waits.

(** ** [WaitAll] *)

Module WaitAll.
Import Waits.

Record WaitAll : Type := mkWaitAll { pending_ : Z; continuation_ : option handle }.

Definition empty : WaitAll := mkWaitAll 0 None.

Definition startAwaitable (w : WaitAll) : WaitAll :=
  mkWaitAll (u64 (pending_ w + 1)) (continuation_ w).

Definition awaitableCompleted (w : WaitAll) : WaitAll * list event :=
  let w := mkWaitAll (u64 (pending_ w - 1)) (continuation_ w) in
  match continuation_ w with
  | Some c => if pending_ w =? 0 then (w, [Resumed c None]) else (w, [])
  | None => (w, [])
  end.

(** The coroutine of [add] after its [co_await]. *)
Definition add_rest (this : closure) (w : WaitAll) : outcome (WaitAll * list event) :=
  w ← captured this w; Ok (awaitableCompleted w).

(** [add]: the coroutine until it suspends, or all of it. *)
Definition add (ready : bool) (w : WaitAll) : outcome (WaitAll * list event) :=
  w ← captured Alive w;
  let w := startAwaitable w in
  if ready then add_rest Alive w else Ok (w, []).

Definition await_ready (w : WaitAll) : bool := pending_ w =? 0.

Definition await_suspend (c : handle) (w : WaitAll) : WaitAll := mkWaitAll (pending_ w) (Some c).

Definition co_await (c : handle) (w : WaitAll) : WaitAll * list event :=
  if await_ready w then (w, [Continued c None]) else (await_suspend c w, []).

Definition run : list action -> WaitAll * list bool -> outcome ((WaitAll * list bool) * list event) :=
  Waits.run add (fun _ => add_rest Dead) co_await.

(** The counter is right, and a coroutine waits for something only. *)
Record counts (w : WaitAll) (done : list bool) : Prop := {
  counts_pending : pending_ w = Z.of_nat (outstanding done);
  counts_waiting : continuation_ w = None \/ outstanding done <> O
}.

Lemma add_counts w done ready :
  counts w done -> Z.of_nat (S (length done)) < 2 ^ 64 ->
  exists w', add ready w = Ok (w', []) /\ counts w' (done ++ [ready]) /\ continuation_ w' = continuation_ w.
Proof.
  intros [Hp Hw] Hlt. pose proof (outstanding_le done). unfold add, startAwaitable. cbn [captured mbind outcome_bind].
  rewrite (u64_small (pending_ w + 1)) by lia.
  assert (outstanding (done ++ [ready]) = (outstanding done + if ready then 0 else 1)%nat) as Ho
    by (rewrite outstanding_app; by destruct ready).
  destruct ready; cbn [add_rest captured mbind outcome_bind].
  - unfold awaitableCompleted. cbn [pending_ continuation_].
    rewrite Z.add_simpl_r, u64_small by lia. eexists. split; [|split; [split|]].
    + instantiate (1 := w). destruct w as [p [k|]]; cbn in *; [|done].
      destruct (Z.eqb_spec p 0); [destruct Hw; [done|lia]|done].
    + cbn. lia.
    + rewrite Ho. cbn. destruct Hw; [by left|right; lia].
    + done.
  - eexists. split; [done|]. split; [|done]. split; cbn; [lia|right; lia].
Qed.

(** Nothing is resumed but by a late completion. *)
Lemma all_run acts : forall w done,
  counts w done -> Z.of_nat (length done + length acts) < 2 ^ 64 ->
  Forall (fun a => is_await a = false) acts ->
  match run acts (w, done) with
  | Crash e => e = UndefinedBehaviour /\ late acts done = true
  | Ok ((w', done'), evs) => late acts done = false /\ evs = [] /\
      counts w' (done ++ added acts) /\ done' = done ++ added acts
  end.
Proof.
  unfold run. induction acts as [|a acts IH]; intros w ds Hc Hlt Ha; cbn [length] in *.
  { cbn. by rewrite app_nil_r. }
  apply Forall_cons_1 in Ha as [Ha Hacts].
  destruct a as [ready|i|c]; [| |done]; cbn [Waits.run Waits.step added late].
  - destruct (add_counts w ds ready Hc ltac:(lia)) as (w1 & -> & Hc1 & _). cbn [mbind outcome_bind].
    specialize (IH w1 (ds ++ [ready]) Hc1). rewrite length_app in IH. cbn [length] in IH.
    specialize (IH ltac:(lia) Hacts). destruct (Waits.run _ _ _ acts _) as [[[w' ds'] evs]|e]; [|done].
    cbn. by rewrite <- app_assoc in IH.
  - destruct (ds !! i) as [[]|]; cbn [mbind outcome_bind].
    2: done.
    all: specialize (IH w ds Hc ltac:(lia) Hacts);
      by destruct (Waits.run _ _ _ acts _) as [[[w' ds'] evs]|e].
Qed.

(** C37: A coroutine that awaits a [WaitAll] goes on at once if everything added to it
    was ready, and never goes on otherwise: with the completion of any other awaitable,
    before the [co_await] or after it, the behaviour is undefined, as the coroutine of
    [add] then uses a closure that no longer exists. *)
Theorem waitall_needs_ready acts1 c acts2 :
  Forall (fun a => is_await a = false) acts1 -> Forall (fun a => is_await a = false) acts2 ->
  Z.of_nat (length acts1 + length acts2) < 2 ^ 64 ->
  match run (acts1 ++ AAwait c :: acts2) (empty, []) with
  | Crash e => e = UndefinedBehaviour /\ late (acts1 ++ AAwait c :: acts2) [] = true
  | Ok (_, evs) => late (acts1 ++ AAwait c :: acts2) [] = false /\
      evs = if decide (Forall (fun ready => ready = true) (added acts1)) then [Continued c None] else []
  end.
Proof.
  intros H1 H2 Hlt. rewrite late_app. unfold run. rewrite Waits.waits_run_app.
  assert (counts empty []) as H0 by (split; [done|by left]).
  pose proof (all_run acts1 empty [] H0 ltac:(cbn; lia) H1) as Hr. unfold run in Hr.
  destruct (Waits.run _ _ _ acts1 _) as [[[w ds] evs]|e]; [|destruct Hr as [-> ->]; by split].
  destruct Hr as (-> & -> & Hc & ->). cbn [app] in *. cbn [mbind outcome_bind Waits.run Waits.step orb late].
  pose proof (length_added acts1) as Hl. set (ds := added acts1) in *.
  assert (exists w', co_await c w = (w', if decide (Forall (fun ready => ready = true) ds)
    then [Continued c None] else []) /\ counts w' ds) as (w' & -> & Hc').
  { unfold co_await, await_ready. rewrite (counts_pending _ _ Hc).
    destruct (decide (Forall _ ds)) as [Hf|Hf].
    - rewrite (proj2 (outstanding_none ds) Hf). by eexists.
    - assert (outstanding ds <> O) as Hz by by intros ?%outstanding_none.
      rewrite (proj2 (Z.eqb_neq _ 0)) by lia. eexists. split; [done|]. split; [apply Hc|by right]. }
  pose proof (all_run acts2 w' ds Hc' ltac:(lia) H2) as Hr. unfold run in Hr.
  cbn [mbind outcome_bind]. destruct (Waits.run _ _ _ acts2 _) as [[[w2 ds2] evs]|e].
  - destruct Hr as (-> & -> & _). cbn. split; [done|]. by rewrite !app_nil_r.
  - by destruct Hr as [-> ->].
Qed.

(** A ready task and one that is not: the second completes after the [co_await]. *)
Lemma waitall_needs_ready_witness :
  run ([AAdd true; AAdd false] ++ AAwait 9 :: [AComplete 1]) (empty, []) = Crash UndefinedBehaviour /\
  match run ([AAdd true; AAdd true] ++ AAwait 9 :: []) (empty, []) with
  | Crash e => e = UndefinedBehaviour /\ late ([AAdd true; AAdd true] ++ AAwait 9 :: []) [] = true
  | Ok (_, evs) => late ([AAdd true; AAdd true] ++ AAwait 9 :: []) [] = false /\
      evs = if decide (Forall (fun ready => ready = true) (added [AAdd true; AAdd true]))
            then [Continued 9 None] else []
  end.
Proof.
  split; [reflexivity|]. apply waitall_needs_ready; [repeat constructor|repeat constructor|reflexivity].
Defined.

End WaitAll.

(** ** [WaitAny] *)

Module WaitAny.
Import Waits.

Record WaitAny : Type := mkWaitAny {
  started_ : Z;
  completed_ : option Z;
  continuation_ : option handle
}.

Definition empty : WaitAny := mkWaitAny 0 None None.

Definition startAwaitable (w : WaitAny) : Z * WaitAny :=
  let idx := started_ w in
  (idx, mkWaitAny (u64 (started_ w + 1)) (completed_ w) (continuation_ w)).

(** What [await_resume] returns. *)
Definition await_resume (w : WaitAny) : option Z := completed_ w.

Definition awaitableCompleted (idx : Z) (w : WaitAny) : WaitAny * list event :=
  let w := match completed_ w with
           | None => mkWaitAny (started_ w) (Some idx) (continuation_ w)
           | Some _ => w
           end in
  match continuation_ w with
  | Some c => (w, [Resumed c (await_resume w)])
  | None => (w, [])
  end.

(** The coroutine of [add] after its [co_await]; [idx] is in its frame. *)
Definition add_rest (this : closure) (idx : Z) (w : WaitAny) : outcome (WaitAny * list event) :=
  w ← captured this w; Ok (awaitableCompleted idx w).

(** [add]: the coroutine until it suspends, or all of it. *)
Definition add (ready : bool) (w : WaitAny) : outcome (WaitAny * list event) :=
  w ← captured Alive w;
  let '(idx, w) := startAwaitable w in
  if ready then add_rest Alive idx w else Ok (w, []).

Definition await_ready (w : WaitAny) : bool :=
  match completed_ w with Some _ => true | None => false end.

Definition await_suspend (c : handle) (w : WaitAny) : WaitAny :=
  mkWaitAny (started_ w) (completed_ w) (Some c).

Definition co_await (c : handle) (w : WaitAny) : WaitAny * list event :=
  if await_ready w then (w, [Continued c (await_resume w)]) else (await_suspend c w, []).

Definition run : list action -> WaitAny * list bool -> outcome ((WaitAny * list bool) * list event) :=
  Waits.run add (add_rest Dead) co_await.

(** The awaitables are counted, and the first that was ready is known. *)
Record knows (w : WaitAny) (done : list bool) : Prop := {
  knows_started : started_ w = Z.of_nat (length done);
  knows_first : completed_ w = first_ready done
}.

Lemma awaitableCompleted_spec idx w :
  awaitableCompleted idx w =
    (mkWaitAny (started_ w) (Some (default idx (completed_ w))) (continuation_ w),
     match continuation_ w with
     | Some c => [Resumed c (Some (default idx (completed_ w)))]
     | None => []
     end).
Proof. by destruct w as [st [x|] [c|]]. Qed.

(** An awaitable that is ready resumes the waiting coroutine. *)
Lemma add_knows w done ready :
  knows w done -> Z.of_nat (S (length done)) < 2 ^ 64 ->
  exists w', add ready w = Ok (w',
      match continuation_ w with
      | Some c => replicate (ready_ones [ready]) (Resumed c (first_ready (done ++ [ready])))
      | None => []
      end) /\
    knows w' (done ++ [ready]) /\ continuation_ w' = continuation_ w.
Proof.
  intros [Hs Hf] Hlt. unfold add, startAwaitable. cbn [captured mbind outcome_bind].
  rewrite Hs, u64_small by lia. rewrite first_ready_app, <- Hf.
  destruct ready; cbn [add_rest captured mbind outcome_bind].
  - rewrite awaitableCompleted_spec. cbn [completed_ continuation_ started_].
    assert (first_ready [true] = Some 0) as -> by reflexivity. cbn [fmap option_fmap option_map].
    rewrite Z.add_0_r. eexists. split; [apply f_equal, f_equal; by destruct (completed_ w), (continuation_ w)|].
    split; [|done]. split; cbn [started_ completed_]; [rewrite length_app; cbn; lia|].
    rewrite first_ready_app, <- Hf. destruct (completed_ w); [done|].
    change (first_ready [true]) with (Some 0). cbn [fmap option_fmap option_map]. by rewrite Z.add_0_r.
  - eexists. split; [apply f_equal, f_equal; by destruct (continuation_ w)|]. split; [|done]. split.
    + cbn. rewrite length_app. cbn. lia.
    + cbn. rewrite first_ready_app, <- Hf. by destruct (completed_ w).
Qed.

(** As long as the first is known, or nobody waits. *)
Lemma any_run acts : forall w done,
  knows w done -> Z.of_nat (length done + length acts) < 2 ^ 64 ->
  Forall (fun a => is_await a = false) acts ->
  match run acts (w, done) with
  | Crash e => e = UndefinedBehaviour /\ late acts done = true
  | Ok ((w', done'), evs) => late acts done = false /\ done' = done ++ added acts /\
      knows w' done' /\ continuation_ w' = continuation_ w /\
      evs = match continuation_ w with
            | Some c => replicate (ready_ones (added acts)) (Resumed c (first_ready (done ++ added acts)))
            | None => []
            end
  end.
Proof.
  unfold run. induction acts as [|a acts IH]; intros w ds Hc Hlt Ha; cbn [length] in *.
  { cbn. rewrite app_nil_r. by destruct (continuation_ w). }
  apply Forall_cons_1 in Ha as [Ha Hacts].
  destruct a as [ready|i|c]; [| |done]; cbn [Waits.run Waits.step added late].
  - destruct (add_knows w ds ready Hc ltac:(lia)) as (w1 & -> & Hc1 & Hn). cbn [mbind outcome_bind].
    specialize (IH w1 (ds ++ [ready]) Hc1). rewrite length_app in IH. cbn [length] in IH.
    specialize (IH ltac:(lia) Hacts). destruct (Waits.run _ _ _ acts _) as [[[w' ds'] evs]|e]; [|done].
    cbn. rewrite <- app_assoc, Hn in IH. destruct IH as (-> & -> & Hk & -> & ->).
    split; [done|]. split; [done|]. split; [done|]. split; [done|].
    destruct (continuation_ w) as [c|]; [|done]. cbn [app].
    destruct ready; [|done]. cbn. f_equal. f_equal.
    change (true :: added acts) with ([true] ++ added acts). rewrite (app_assoc ds), first_ready_app.
    rewrite !first_ready_app. by destruct (first_ready ds).
  - destruct (ds !! i) as [[]|]; cbn [mbind outcome_bind].
    2: done.
    all: specialize (IH w ds Hc ltac:(lia) Hacts);
      by destruct (Waits.run _ _ _ acts _) as [[[w' ds'] evs]|e].
Qed.



End WaitAny.
