(* ===== verification/Text.v ===== *)
(** * Text: [hexDump] (util.cpp) and the logger [FdLogger] (log.hpp, log.cpp) *)

From Stdlib Require Import ZArith Lia Ascii.
From stdpp Require Import base numbers list option strings.
From S2P Require Import Prelude.

Local Open Scope Z_scope.

Abbreviation str := (list ascii).

(** The characters of a C string literal. *)
Definition chars (s : string) : str := String.list_ascii_of_string s.

Module Util.

Definition hexChars : str := chars "0123456789abcdef".

Definition hexDump_byte (byte : Z) (ret : str) : outcome str :=
  let hi := Z.shiftr (Z.land (u8 byte) 240) 4 in
  let lo := Z.land (u8 byte) 15 in
  c ← deref (hexChars !! Z.to_nat hi);
  let ret := ret ++ [c] in
  c ← deref (hexChars !! Z.to_nat lo);
  Ok (ret ++ [c]).

Fixpoint hexDump_loop (data : list Z) (ret : str) : outcome str :=
  match data with
  | [] => Ok ret
  | byte :: data => ret ← hexDump_byte byte ret; hexDump_loop data ret
  end.

Definition hexDump (data : list Z) : outcome str := hexDump_loop data [].

(** [message] is the text the standard library has for an error number, which is that
    of strerror. *)
Definition errnoToString (message : Z -> str) (err : Z) : str := message err.

(** The value of a hexadecimal digit, and the bytes a dump stands for. *)
Definition hex_value (c : ascii) : option Z :=
  let n := Z.of_N (N_of_ascii c) in
  if (48 <=? n) && (n <=? 57) then Some (n - 48)
  else if (97 <=? n) && (n <=? 102) then Some (n - 87) else None.

Fixpoint hex_parse (s : str) : option (list Z) :=
  match s with
  | [] => Some []
  | c1 :: c2 :: s =>
      hi ← hex_value c1; lo ← hex_value c2; rest ← hex_parse s; Some (16 * hi + lo :: rest)
  | [_] => None
  end.

Lemma hex_digit d : 0 <= d < 16 -> exists c, hexChars !! Z.to_nat d = Some c /\ hex_value c = Some d.
Proof.
  intros Hd.
  assert (d ∈ seqZ 0 16) as Hin by (apply elem_of_seqZ; lia).
  set (ok d := match hexChars !! Z.to_nat d with
    | Some c => bool_decide (hex_value c = Some d) | None => false end).
  assert (forallb ok (seqZ 0 16) = true) as Hall by (vm_compute; reflexivity).
  rewrite forallb_forall in Hall. specialize (Hall d ltac:(by apply list_elem_of_In)).
  unfold ok in Hall. destruct (hexChars !! Z.to_nat d) as [c|]; [|done].
  exists c. split; [done|]. by apply bool_decide_eq_true in Hall.
Qed.

Lemma byte_digits b :
  0 <= b < 256 -> Z.shiftr (Z.land (u8 b) 240) 4 = b / 16 /\ Z.land (u8 b) 15 = b mod 16.
Proof.
  intros Hb. rewrite wrap_small by lia. split.
  - rewrite Z.shiftr_land. change (Z.shiftr 240 4) with (Z.ones 4).
    rewrite Z.land_ones, Z.shiftr_div_pow2 by lia. apply Z.mod_small.
    split; [apply Z.div_pos; lia|apply Z.div_lt_upper_bound; lia].
  - change 15 with (Z.ones 4). by rewrite Z.land_ones.
Qed.

Lemma hexDump_byte_spec b ret :
  0 <= b < 256 -> exists c1 c2, hexDump_byte b ret = Ok (ret ++ [c1; c2]) /\
    hex_value c1 = Some (b / 16) /\ hex_value c2 = Some (b mod 16).
Proof.
  intros Hb. unfold hexDump_byte. destruct (byte_digits b Hb) as [-> ->].
  destruct (hex_digit (b / 16)) as (c1 & -> & H1).
  { split; [apply Z.div_pos; lia|apply Z.div_lt_upper_bound; lia]. }
  destruct (hex_digit (b mod 16)) as (c2 & -> & H2); [by apply Z.mod_pos_bound|].
  exists c1, c2. cbn. by rewrite <- app_assoc.
Qed.

Lemma hexDump_loop_spec data : forall ret,
  Forall (fun b => 0 <= b < 256) data ->
  exists s, hexDump_loop data ret = Ok (ret ++ s) /\ length s = (2 * length data)%nat /\
    hex_parse s = Some data.
Proof.
  induction data as [|b data IH]; intros ret Hd; cbn [hexDump_loop].
  - exists []. by rewrite app_nil_r.
  - apply Forall_cons_1 in Hd as [Hb Hd].
    destruct (hexDump_byte_spec b ret Hb) as (c1 & c2 & -> & H1 & H2). cbn [mbind outcome_bind].
    destruct (IH (ret ++ [c1; c2]) Hd) as (s & -> & Hl & Hp).
    exists (c1 :: c2 :: s). rewrite <- app_assoc. split; [done|]. split; [cbn; lia|].
    cbn. rewrite H1, H2, Hp. cbn. do 2 f_equal. symmetry. by apply Z.div_mod.
Qed.

(** [hexDump] writes two digits for every byte and loses nothing: reading its
    output as hexadecimal gives the bytes back, and no access leaves the table of
    digits. *)
Theorem hexDump_roundtrip data :
  Forall (fun b => 0 <= b < 256) data ->
  exists s, hexDump data = Ok s /\ length s = (2 * length data)%nat /\ hex_parse s = Some data.
Proof. apply (hexDump_loop_spec data []). Qed.

Lemma hexDump_roundtrip_witness :
  hexDump [222; 173; 0; 7] = Ok (chars "dead0007") /\
  exists s, hexDump [222; 173; 0; 7] = Ok s /\ hex_parse s = Some [222; 173; 0; 7].
Proof.
  split; [reflexivity|].
  destruct (hexDump_roundtrip [222; 173; 0; 7]) as (s & H1 & _ & H2); [repeat constructor; lia|].
  by exists s.
Defined.

End Util.

(** ** Logging *)

(** The kernel's [write], the result of which nobody looks at. *)
Class Output (K : Type) := { sys_write : Z -> str -> K -> K }.

(** What is written reaches the file. *)
Class OutputSpec (K : Type) `{!Output K} := {
  written : Z -> K -> str;
  written_same fd s k : written fd (sys_write fd s k) = written fd k ++ s;
  written_other fd fd' s k : fd <> fd' -> written fd' (sys_write fd s k) = written fd' k
}.

Module Log.

Inductive LogSeverity : Type := Debug_ | Info_ | Warning | Error | Fatal.

Definition toString (severity : LogSeverity) : str :=
  chars (match severity with
         | Debug_ => "DEBUG" | Info_ => "INFO" | Warning => "WARNING"
         | Error => "ERROR" | Fatal => "FATAL"
         end).

Definition newline : ascii := ascii_of_N 10.

Section Log.
Context {K : Type} `{!Output K}.

(** [FdLogger::log] of the logger for [fd_]. *)
Definition log (fd_ : Z) (severity : LogSeverity) (message : str) (k : K) : K :=
  let k := sys_write fd_ (chars "[") k in
  let k := sys_write fd_ (toString severity) k in
  let k := sys_write fd_ (chars "] ") k in
  let k := sys_write fd_ message k in
  if bool_decide (0 < length message)%nat && negb (bool_decide (last message = Some newline))
  then sys_write fd_ [newline] k else k.

Context `{!OutputSpec K}.

(** A message is logged as one line after its severity - a newline is added
    when it does not end in one - to the logger's descriptor only; an empty
    message leaves the line open. *)
Theorem log_line fd severity message k :
  written fd (log fd severity message k) =
    written fd k ++ chars "[" ++ toString severity ++ chars "] " ++
      (match last message with
       | None => []
       | Some c => if decide (c = newline) then message else message ++ [newline]
       end) /\
  forall fd', fd' <> fd -> written fd' (log fd severity message k) = written fd' k.
Proof.
  unfold log. split.
  - destruct message as [|c message] using rev_ind.
    + rewrite (bool_decide_eq_false_2 (0 < _)%nat) by (cbn; lia). cbn [andb last].
      rewrite !written_same. by rewrite <- !app_assoc.
    + rewrite last_snoc, (bool_decide_eq_true_2 (0 < _)%nat) by (rewrite length_app; cbn; lia).
      destruct (decide (c = newline)) as [->|Hne].
      * rewrite bool_decide_eq_true_2 by done. cbn [negb andb].
        rewrite !written_same. by rewrite <- !app_assoc.
      * rewrite bool_decide_eq_false_2 by (by intros [= ->]). cbn [negb andb].
        rewrite !written_same. by rewrite <- !app_assoc.
  - intros fd' Hfd. destruct (_ && _); by rewrite !written_other.
Qed.

End Log.

(** ** A kernel for the witness: what was written, by descriptor *)

#[local] Instance sim_output : Output (Z -> str) := {
  sys_write fd s k := fun fd' => if decide (fd' = fd) then k fd' ++ s else k fd'
}.

#[local] Program Instance sim_output_spec : OutputSpec (Z -> str) := { written fd k := k fd }.
Next Obligation. intros fd s k. cbn. by rewrite decide_True. Qed.
Next Obligation. intros fd fd' s k Hne. cbn. by rewrite decide_False. Qed.

Lemma log_line_witness :
  log 2 Warning (chars "full") (fun _ => []) 2 = chars "[WARNING] full" ++ [newline].
Proof.
  destruct (log_line (K := Z -> str) 2 Warning (chars "full") (fun _ => [])) as [H _].
  exact H.
Defined.

End Log.
