(* ===== verification/Logging.v ===== *)
(** * The global logger (log.cpp) and the adapter of the examples (spdlogger.cpp)

    Loggers are objects under names, owned by [unique_ptr]s that may be null; the
    static of [loggerStorage] is made with the first call. *)

From Stdlib Require Import ZArith Lia Ascii.
From stdpp Require Import base numbers list gmap option strings.
From S2P Require Import Prelude Text.

Local Open Scope Z_scope.

Module Logging.
Import Log.

(** The loggers there are: [FdLogger(fd)] and [SpdLogger]. *)
Inductive Logger : Type := FdLogger (fd_ : Z) | SpdLogger.

(** [spdlog::level::level_enum] *)
Inductive level_enum : Type := debug | info | warn | err | critical.

Definition mapSeverity (severity : LogSeverity) : level_enum :=
  match severity with
  | Debug_ => debug
  | Info_ => info
  | Warning => warn
  | Error => err
  | Fatal => critical
  end.

Definition STDERR_FILENO : Z := 2.

Section Logging.
Context {K : Type} `{!Output K}.

(** [storage]: the static, once it is made; [spdlogged]: what was given to spdlog. *)
Record state : Type := mkState {
  loggers : gmap Z Logger;
  storage : option (option Z);
  spdlogged : list (level_enum * str);
  kernel : K
}.

Definition initial (k : K) : state := mkState ∅ None [] k.

(** [std::make_unique] *)
Definition make_unique (l : Logger) (s : state) : Z * state :=
  let p := fresh (dom (loggers s)) in
  (p, mkState (<[p := l]> (loggers s)) (storage s) (spdlogged s) (kernel s)).

(** The end of what a [unique_ptr] owns. *)
Definition destroy (p : option Z) (s : state) : state :=
  match p with
  | None => s
  | Some p => mkState (delete p (loggers s)) (storage s) (spdlogged s) (kernel s)
  end.

Definition set_storage (p : option Z) (s : state) : state :=
  mkState (loggers s) (Some p) (spdlogged s) (kernel s).

Definition loggerStorage (s : state) : option Z * state :=
  match storage s with
  | Some p => (p, s)
  | None => let '(p, s) := make_unique (FdLogger STDERR_FILENO) s in (Some p, set_storage (Some p) s)
  end.

(** [setLogger(std::move(logger))]; move assignment destroys what was there. *)
Definition setLogger (logger : option Z) (s : state) : state :=
  let '(old, s) := loggerStorage s in
  destroy old (set_storage logger s).

(** The reference [getLogger] returns. *)
Definition getLogger (s : state) : outcome (Z * state) :=
  let '(p, s) := loggerStorage s in
  p ← deref p; Ok (p, s).

(** [logger.log(severity, message)]: the virtual call. *)
Definition log_to (p : Z) (severity : LogSeverity) (message : str) (s : state) : outcome state :=
  l ← deref (loggers s !! p);
  match l with
  | FdLogger fd_ => Ok (mkState (loggers s) (storage s) (spdlogged s) (log fd_ severity message (kernel s)))
  | SpdLogger => Ok (mkState (loggers s) (storage s) (spdlogged s ++ [(mapSeverity severity, message)]) (kernel s))
  end.

(** What the program does with the logger: [setLogger] with a new one or null, and
    [getLogger().log(severity, message)]. *)
Inductive action : Type :=
| ASet (l : option Logger)
| ALog (severity : LogSeverity) (message : str).

Definition step (a : action) (s : state) : outcome state :=
  match a with
  | ASet None => Ok (setLogger None s)
  | ASet (Some l) => let '(p, s) := make_unique l s in Ok (setLogger (Some p) s)
  | ALog severity message => '(p, s) ← getLogger s; log_to p severity message s
  end.

Fixpoint run (acts : list action) (s : state) : outcome state :=
  match acts with
  | [] => Ok s
  | a :: acts => s ← step a s; run acts s
  end.

(** ** One logger at a time *)

(** What the actions say, without objects: the logger in use, and where messages go. *)
Fixpoint messages (acts : list action) (l : option Logger) (out : list (level_enum * str) * K)
    : option (option Logger * (list (level_enum * str) * K)) :=
  match acts with
  | [] => Some (l, out)
  | ASet l' :: acts => messages acts l' out
  | ALog severity message :: acts =>
      match l with
      | None => None
      | Some (FdLogger fd) => messages acts l (out.1, log fd severity message out.2)
      | Some SpdLogger => messages acts l (out.1 ++ [(mapSeverity severity, message)], out.2)
      end
  end.

(** The only logger is the one in use. *)
Definition uses (l : option Logger) (s : state) : Prop :=
  match storage s with
  | None => l = Some (FdLogger STDERR_FILENO) /\ loggers s = ∅
  | Some None => l = None /\ loggers s = ∅
  | Some (Some p) => exists l', l = Some l' /\ loggers s = {[p := l']}
  end.

Definition output (s : state) : list (level_enum * str) * K := (spdlogged s, kernel s).

Lemma fresh_not_in (m : gmap Z Logger) : m !! fresh (dom m) = None.
Proof. apply not_elem_of_dom, is_fresh. Qed.

(** [loggerStorage] leaves the logger in use and what was logged. *)
Lemma loggerStorage_uses l s :
  uses l s -> let '(p, s') := loggerStorage s in
  output s' = output s /\ storage s' = Some p /\ uses l s'.
Proof.
  unfold loggerStorage, uses. destruct (storage s) as [p|] eqn:Hs.
  - intros H. rewrite Hs. by split_and!.
  - intros [-> Hl]. cbn. split_and!; [done|done|]. eexists. split; [done|]. by rewrite Hl.
Qed.

(** Another logger takes its place, and the old one is destroyed. *)
Lemma replace_uses p old l x s :
  loggers s !! p = Some x -> old <> Some p -> storage s = Some old ->
  uses l (mkState (delete p (loggers s)) (storage s) (spdlogged s) (kernel s)) ->
  uses (Some x) (destroy old (set_storage (Some p) s)).
Proof.
  intros Hp Ho Hs. unfold uses. cbn [storage loggers]. rewrite Hs.
  assert (forall m, delete p (loggers s) = m -> loggers s = <[p := x]> m) as Hback
    by (intros m <-; by rewrite insert_delete_id).
  destruct old as [q|]; cbn.
  - intros (y & _ & ->%Hback). exists x. split; [done|]. assert (q <> p) by congruence.
    rewrite delete_insert_ne by congruence. by rewrite delete_singleton_eq, insert_empty.
  - intros (_ & ->%Hback). by exists x.
Qed.

Lemma make_unique_uses x l s :
  uses l s -> let '(p, s') := make_unique x s in
  loggers s' !! p = Some x /\ storage s <> Some (Some p) /\ storage s' = storage s /\ output s' = output s /\
  uses l (mkState (delete p (loggers s')) (storage s') (spdlogged s') (kernel s')).
Proof.
  intros H. unfold make_unique. cbn. pose proof (fresh_not_in (loggers s)) as Hf.
  set (p := fresh (dom (loggers s))) in *. rewrite lookup_insert_eq, delete_insert_id by done.
  split_and!; try done. intros Hs. unfold uses in H. rewrite Hs in H. destruct H as (y & _ & H).
  rewrite H, lookup_singleton_eq in Hf. done.
Qed.

Lemma step_uses a l s :
  uses l s ->
  match messages [a] l (output s) with
  | Some (l', out) => exists s', step a s = Ok s' /\ uses l' s' /\ output s' = out
  | None => step a s = Crash UndefinedBehaviour
  end.
Proof.
  intros H. destruct a as [[x|]|severity message]; cbn [messages step].
  - pose proof (make_unique_uses x l s H) as Hm. destruct (make_unique x s) as [p s1].
    destruct Hm as (Hp & Hne & Hst & Ho & Hu). eexists. split; [done|]. unfold setLogger, loggerStorage.
    rewrite Hst in *. destruct (storage s) as [old|] eqn:Hs; cbn.
    + split; [|by destruct old]. apply (replace_uses p old l x); [done|congruence|done|by rewrite Hst].
    + pose proof (fresh_not_in (loggers s1)) as Hf. set (q := fresh (dom (loggers s1))) in *.
      split; [|done]. destruct Hu as [-> Hl]. cbn in Hl. exists x. split; [done|]. cbn.
      rewrite delete_insert_id by done. rewrite <- (insert_delete_id _ _ _ Hp). by rewrite Hl.
  - pose proof (loggerStorage_uses l s H) as Hs. unfold setLogger.
    destruct (loggerStorage s) as [old s1]. destruct Hs as (Ho & Hst & Hu).
    eexists. split; [done|]. unfold uses in *. rewrite Hst in Hu.
    destruct old as [q|]; cbn; (split; [|done]); (split; [done|]).
    + destruct Hu as (y & _ & ->). apply delete_singleton_eq.
    + apply Hu.
  - pose proof (loggerStorage_uses l s H) as Hs. unfold getLogger.
    destruct (loggerStorage s) as [p s1]. destruct Hs as (<- & Hst & Hu).
    unfold uses in Hu. rewrite Hst in Hu. destruct p as [p|]; cbn [deref mbind outcome_bind].
    + destruct Hu as (y & -> & Hl). unfold log_to. rewrite Hl, lookup_singleton_eq. cbn.
      destruct y; cbn; (eexists; split; [done|]); (split; [|done]); unfold uses; cbn; rewrite Hst;
        by eexists.
    + by destruct Hu as [-> _].
Qed.

Lemma run_uses acts : forall l s,
  uses l s ->
  match messages acts l (output s) with
  | Some (l', out) => exists s', run acts s = Ok s' /\ uses l' s' /\ output s' = out
  | None => run acts s = Crash UndefinedBehaviour
  end.
Proof.
  induction acts as [|a acts IH]; intros l s H; [by exists s|]. pose proof (step_uses a l s H) as Hs.
  assert (messages (a :: acts) l (output s) =
    '(l', out) ← messages [a] l (output s); messages acts l' out) as ->.
  { destruct a as [l'|]; [done|]. cbn. by destruct l as [[]|]. }
  destruct (messages [a] l (output s)) as [[l' out]|]; cbn [mbind option_bind run].
  - destruct Hs as (s' & -> & Hu & <-). cbn [mbind outcome_bind]. by apply IH.
  - by rewrite Hs.
Qed.

(** Messages go to the logger that was set last - to standard error when none was -,
    one that was replaced is destroyed, so that there is never a second one, and
    logging a message after null was set follows a null pointer. *)
Theorem logging_spec acts k :
  match messages acts (Some (FdLogger STDERR_FILENO)) ([], k) with
  | Some (l, out) => exists s, run acts (initial k) = Ok s /\ output s = out /\
      (size (loggers s) <= 1)%nat /\
      (storage s <> None -> forall x, l = Some x <-> exists p, loggers s !! p = Some x)
  | None => run acts (initial k) = Crash UndefinedBehaviour
  end.
Proof.
  assert (uses (Some (FdLogger STDERR_FILENO)) (initial k)) as H0 by by split.
  pose proof (run_uses acts _ _ H0) as H. change (output (initial k)) with ([] : list (level_enum * str), k) in H.
  destruct (messages acts _ _) as [[l out]|]; [|done].
  destruct H as (s & Hr & Hu & Ho). exists s. split; [done|]. split; [done|]. unfold uses in Hu.
  destruct (storage s) as [[p|]|].
  - destruct Hu as (y & -> & Hl). rewrite Hl, map_size_singleton. split; [lia|]. intros _ x. split.
    + intros [= ->]. exists p. by rewrite lookup_singleton_eq.
    + by intros (q & [_ ->]%lookup_singleton_Some).
  - destruct Hu as [-> Hl]. rewrite Hl, map_size_empty. split; [lia|]. intros _ x.
    split; [done|]. by intros (q & Hq%lookup_empty_Some).
  - destruct Hu as [_ Hl]. rewrite Hl, map_size_empty. split; [lia|done].
Qed.

End Logging.
End Logging.
