(* ===== verification/Modest.v ===== *)
(** * Coroutines that take one entry at a time

    A coroutine prepares an operation, perhaps limits its time, and awaits it before it
    prepares the next.  The entries that such coroutines have in the submission queue
    are bounded by their number, whether a submission takes all entries, some of them
    or none. *)

From Stdlib Require Import ZArith Lia.
From stdpp Require Import base numbers list gmap option.
From S2P Require Import Prelude Interfaces Uring Queue QueueRing QueueSafety QueueRun QueueCalls.

Local Open Scope Z_scope.

Module Modest.
Import IoQueue QueueRing QueueSafety QueueRun.

(** ** The discipline

    [held] is the operation that was prepared and is not awaited yet, and whether its
    entry is still the last one: the coroutine awaits it, or hands it to one it starts
    ([callback]). *)
Definition shares (held hp hk : option (Z * bool)) : Prop :=
  (hp = held /\ hk = None) \/ (hp = None /\ hk = (fun h => (h.1, false)) <$> held).

(** [n] is how many more operations it and what it starts may have at a time.  Time
    limits are for [linked] programs. *)
Fixpoint modest (linked : bool) (p : prog) (held : option (Z * bool)) (n : nat) : Prop :=
  match p with
  | Ret => held = None
  | Call _ k =>
      held = None /\ (0 < n)%nat /\
      forall id, 0 <= id < OpIdInvalid -> modest linked (k (mkHandle true id)) (Some (id, true)) (n - 1)
  | LinkTimeout _ _ op k =>
      linked = true /\ held = Some (h_id op, true) /\ modest linked (k op) (Some (h_id op, false)) n
  | Await op k => (exists b, held = Some (h_id op, b)) /\ forall r, modest linked (k r) None (S n)
  | Spawn p k =>
      exists n1 n2 hp hk, (n1 + n2 <= n)%nat /\ shares held hp hk /\
        modest linked p hp n1 /\ forall c, modest linked (k c) hk n2
  | CloseFd _ k => modest linked k held n
  | Cancel _ _ _ | Destroy _ _ => False
  end.

Lemma modest_mono linked p : forall held n n',
  modest linked p held n -> (n <= n')%nat -> modest linked p held n'.
Proof.
  induction p as [|c k IH|ts fl op k IH|op b k IH|op k IH|p IHp k IH|c k IH|fd k IH];
    intros held n n'; cbn [modest]; try done.
  - intros (Hh & Hn & Hk) Hle. split; [done|]. split; [lia|]. intros id Hid.
    apply (IH _ _ (n - 1)%nat); [by apply Hk|lia].
  - intros (Hl & Hh & Hk) Hle. split_and!; [done..|]. by apply (IH op _ n).
  - intros (Hh & Hk) Hle. split; [done|]. intros r. apply (IH r _ (S n)); [done|lia].
  - intros (n1 & n2 & hp & hk & Hs & H) Hle. exists n1, n2, hp, hk. split; [lia|done].
  - apply IH.
Qed.

(** [co_await io.f(...)] *)
Lemma modest_await linked c k n :
  (0 < n)%nat -> (forall r, modest linked (k r) None n) ->
  modest linked (Call c (fun h => Await h k)) None n.
Proof.
  intros Hn Hk. split; [done|]. split; [done|]. intros id _. split; [by exists true|].
  by replace (S (n - 1)) with n by lia.
Qed.

Lemma modest_limit c ts fl k n :
  (0 < n)%nat -> (forall r, modest true (k r) None n) ->
  modest true (Call c (fun h => limit ts fl h k)) None n.
Proof.
  intros Hn Hk. split; [done|]. split; [done|]. intros id _. split_and!; [done..|].
  split; [by exists false|]. by replace (S (n - 1)) with n by lia.
Qed.

Lemma modest_start linked p k n1 n2 n :
  (n1 + n2 <= n)%nat -> modest linked p None n1 -> (forall c, modest linked (k c) None n2) ->
  modest linked (Spawn p k) None n.
Proof. intros Hn Hp Hk. exists n1, n2, None, None. split_and!; [done|by left|done..]. Qed.

(** ** Entries of operations and of time limits *)

Definition operations (l : list Z) : list Z := filter (fun id => id <> OpIdIgnore) l.

(** No two of them that are ignored stand together. *)
Fixpoint sparse (l : list Z) : Prop :=
  match l with
  | [] => True
  | id :: l => (id = OpIdIgnore -> head l <> Some OpIdIgnore) /\ sparse l
  end.

Lemma sparse_drop k : forall l, sparse l -> sparse (drop k l).
Proof. induction k as [|k IH]; intros [|id l]; try done. intros [_ H]. by apply IH. Qed.

Lemma sparse_take k : forall l, sparse l -> sparse (take k l).
Proof.
  induction k as [|k IH]; intros [|id l]; try done. intros [Hid H]. split; [|by apply IH].
  intros Heq. specialize (Hid Heq). by destruct k, l.
Qed.

Lemma sparse_snoc l id :
  sparse l -> (id = OpIdIgnore -> exists x, list.last l = Some x /\ x <> OpIdIgnore) -> sparse (l ++ [id]).
Proof.
  induction l as [|y l IH]; intros Hs Hid; [by split|]. destruct Hs as [Hy Hs].
  destruct l as [|z l]; [|split; [exact Hy|by apply IH]]. split; [|by split].
  intros -> [= ->]. by destruct (Hid eq_refl) as (x & [= <-] & ?).
Qed.

Lemma operations_app l l' : operations (l ++ l') = operations l ++ operations l'.
Proof. apply list.filter_app. Qed.

Lemma operations_drop k l : (length (operations (drop k l)) <= length (operations l))%nat.
Proof. rewrite <- (take_drop k l) at 2. rewrite operations_app, length_app. lia. Qed.

(** At most every second entry is ignored. *)
Lemma sparse_length l :
  sparse l -> (length l <= 2 * length (operations l) + 1)%nat /\
    (head l <> Some OpIdIgnore -> (length l <= 2 * length (operations l))%nat).
Proof.
  induction l as [|id l IH]; [cbn; lia|]. intros [Hid Hs]. destruct (IH Hs) as [IH1 IH2].
  unfold operations in *. cbn [length head].
  destruct (decide (id = OpIdIgnore)) as [->|Hne].
  - rewrite list.filter_cons_False by naive_solver. specialize (IH2 (Hid eq_refl)).
    split; [lia|by intros []].
  - rewrite list.filter_cons_True by done. cbn [length]. split; [lia|]. intros _. lia.
Qed.

Lemma sparse_length_last l id :
  sparse l -> list.last l = Some id -> id <> OpIdIgnore -> (length l <= 2 * length (operations l))%nat.
Proof.
  intros Hs Hl Hid. apply last_Some in Hl as [l' ->]. rewrite operations_app, !length_app.
  unfold operations at 2. rewrite list.filter_cons_True by done. cbn [length].
  assert (sparse l') as Hs' by (apply (sparse_take (length l')) in Hs; by rewrite take_app_length in Hs).
  pose proof (sparse_length l' Hs'). cbn. lia.
Qed.

(** Without time limits none is ignored. *)
Definition orderly (linked : bool) (l : list Z) : Prop :=
  if linked then sparse l else Forall (fun id => id <> OpIdIgnore) l.

Lemma orderly_drop linked k l : orderly linked l -> orderly linked (drop k l).
Proof. destruct linked; [apply sparse_drop|apply Forall_drop]. Qed.

Lemma operations_all l : Forall (fun id => id <> OpIdIgnore) l -> operations l = l.
Proof.
  unfold operations. induction 1 as [|id l Hid _ IH]; [done|].
  by rewrite list.filter_cons_True, IH.
Qed.

(** How many entries [M] operations at a time need, with their time limits. *)
Definition needed (linked : bool) (M : nat) : Z :=
  if linked then 2 * Z.of_nat M + 1 else Z.of_nat M.

Section Modest.
Context {R : Type} `{!LibUring R} `{!LibUringSpec R}.
Context {T : Type} `{!CompleterTable T}.

Abbreviation IoQueue := (IoQueue R T).

(** The user data of the entries that are not submitted. *)
Definition entries (u : IoURing.IoURing R) : list Z :=
  (fun p => user_data (IoURing.sqes u p)) <$> uring_sq (IoURing.ring_ u).

Lemma entries_pushed p s u u' : pushed p s u u' -> entries u' = entries u ++ [user_data s].
Proof.
  intros [_ Hp Hsq _ _ Hs Ho _]. unfold entries. rewrite Hsq, fmap_app. cbn. rewrite Hs. f_equal.
  apply list_fmap_ext. intros i q Hq. rewrite Ho; [done|]. intros ->. apply Hp.
  by eapply list_elem_of_lookup_2.
Qed.

Lemma entries_unchanged u u' : unchanged u u' -> entries u' = entries u.
Proof. intros [_ Hsq _ _ Hs]. unfold entries. rewrite Hsq. apply list_fmap_ext. auto. Qed.

(** ** Room in the submission queue

    [E] entries are enough for [M] operations at a time. *)
Section Room.
Context (linked : bool) (E : Z) (M : nat).

(** [n] more operations fit. *)
Record Room (n : nat) (q : IoQueue) : Prop := {
  room_ready : IoURing.ready (ring_ q);
  room_entries : sq_entries (IoURing.params_ (ring_ q)) = E;
  room_enough : needed linked M <= E;
  room_operations : (length (operations (entries (ring_ q))) + n <= M)%nat;
  room_links : orderly linked (entries (ring_ q));
  room_next : 0 <= nextOpId_ q <= OpIdInvalid
}.

Lemma room_mono n m q : Room n q -> (m <= n)%nat -> Room m q.
Proof. intros [] Hle. split; try done. lia. Qed.

(** Only the ring and the next id matter. *)
Lemma room_same n q q' : Room n q -> ring_ q' = ring_ q -> nextOpId_ q' = nextOpId_ q -> Room n q'.
Proof. intros [] Hr Hn. split; by rewrite ?Hr, ?Hn. Qed.

Lemma room_count n m q :
  Room n q -> (length (operations (entries (ring_ q))) + m <= M)%nat -> Room m q.
Proof. intros []. by split. Qed.

Lemma length_entries u : length (entries u) = length (uring_sq (IoURing.ring_ u)).
Proof. apply length_fmap. Qed.

(** There is an entry for the next operation, *)
Lemma room_free n q :
  Room (S n) q -> Z.of_nat (length (uring_sq (IoURing.ring_ (ring_ q)))) < E.
Proof.
  intros [_ _ HE Hc Hl _]. rewrite <- length_entries. unfold needed, orderly in *. destruct linked.
  - pose proof (sparse_length _ Hl). lia.
  - rewrite (operations_all _ Hl) in Hc. lia.
Qed.

(** and for the time limit of the one prepared last. *)
Lemma room_free_link n q id :
  Room n q -> linked = true -> list.last (entries (ring_ q)) = Some id -> id <> OpIdIgnore ->
  Z.of_nat (length (uring_sq (IoURing.ring_ (ring_ q)))) < E.
Proof.
  intros [_ _ HE Hc Hs _] Hl Hlast Hid. rewrite <- length_entries. rewrite Hl in *. cbn in HE.
  pose proof (sparse_length_last _ _ Hs Hlast Hid). lia.
Qed.

Lemma free_capacity n q :
  Room n q -> Z.of_nat (length (uring_sq (IoURing.ring_ (ring_ q)))) < E ->
  0 < IoURing.getSqeCapacity (ring_ q).
Proof.
  intros [(_ & _ & Hb & Hl) He _ _ _ _] Hfree. unfold IoURing.getSqeCapacity.
  rewrite sq_ready_spec, wrap_small by lia. lia.
Qed.

(** One more entry. *)
Lemma room_push n m p s q q' :
  Room n q -> pushed p s (ring_ q) (ring_ q') ->
  IoURing.params_ (ring_ q') = IoURing.params_ (ring_ q) -> nextOpId_ q' = nextOpId_ q ->
  (length (operations [user_data s]) + m <= n)%nat ->
  (user_data s = OpIdIgnore -> linked = true /\
     exists x, list.last (entries (ring_ q)) = Some x /\ x <> OpIdIgnore) ->
  Room m q'.
Proof.
  intros [Hr He HE Hc Hl Hn] Hp Hps Hnx Hlen Hs. split.
  - apply Hp.
  - by rewrite Hps.
  - done.
  - rewrite (entries_pushed _ _ _ _ Hp), operations_app, length_app. lia.
  - rewrite (entries_pushed _ _ _ _ Hp). unfold orderly in *. destruct linked.
    + apply sparse_snoc; [done|]. intros Heq. by apply Hs.
    + apply Forall_app. split; [done|]. apply Forall_singleton. intros Heq. by destruct (Hs Heq).
  - by rewrite Hnx.
Qed.

Lemma prepare_params r (u u' : IoURing.IoURing R) o :
  IoURing.ready u -> IoURing.prepare_request r u = Ok (o, u') ->
  IoURing.params_ u' = IoURing.params_ u.
Proof.
  intros Hu Hp. pose proof (IoURing.prepare_encodes_aux r u (proj1 Hu)) as H.
  destruct (io_uring_get_sqe (IoURing.ring_ u)) as [[p|] r'].
  - destruct H as (u'' & Hq & _ & _ & _ & _ & Hps). congruence.
  - rewrite H in Hp. injection Hp as <- <-. done.
Qed.

(** Preparing and finalizing an entry, when there is one left. *)
Lemma finalize_room n r id (q : IoQueue) :
  Room n q -> Z.of_nat (length (uring_sq (IoURing.ring_ (ring_ q)))) < E ->
  exists p u q', IoURing.prepare_request r (ring_ q) = Ok (Some p, u) /\
    finalizeSqe_with (Some p) id (set_ring u q) = (mkHandle true id, q') /\
    IoURing.params_ (ring_ q') = IoURing.params_ (ring_ q) /\ nextOpId_ q' = nextOpId_ q /\
    pushed p (set_user_data id (IoURing.encode (R := R) r)) (ring_ q) (ring_ q').
Proof.
  intros HR Hfree. pose proof (room_ready _ _ HR) as Hr.
  destruct (prepare_finalize r q id Hr) as (o & u & h & q' & Hp & Hfin & _ & Hnx & Ho).
  destruct o as [p|].
  - destruct Ho as (-> & _ & Hpu). exists p, u, q'. split_and!; try done.
    rewrite <- (prepare_params r _ u (Some p) Hr Hp). cbn in Hfin. by injection Hfin as _ <-.
  - destruct Ho as (_ & _ & _ & Hcap & _). pose proof (free_capacity _ _ HR Hfree). lia.
Qed.

Lemma invoke_room n c (w : World R T) :
  Room (S n) (queue w) ->
  exists id q', invoke c w = Ok (mkHandle true id, set_queue q' w) /\
    0 <= id < OpIdInvalid /\ Room n q' /\ list.last (entries (ring_ q')) = Some id.
Proof.
  intros HR. rewrite invoke_request. destruct w as [q hp fr al nx cl]. cbn [queue] in *.
  destruct (QueueCalls.getNextOpId_mod q (room_next _ _ HR)) as [Hid Hrange].
  set (id := nextOpId_ q mod (2 ^ 64 - 2)) in *.
  assert (Room (S n) (set_nextOpId (id + 1) q)) as HR1 by (destruct HR; split; try done; cbn; lia).
  destruct (finalize_room (S n) (request_of c) id _ HR1 (room_free n _ HR1))
    as (p & u & q' & Hp & Hf & Hps & Hnx & Hpu).
  exists id, q'. split; [|split; [done|split]].
  - unfold finalize_prepared, finalizeSqe. cbn [ring_ set_nextOpId] in Hp. rewrite Hp.
    cbn [mbind outcome_bind].
    assert (getNextOpId (set_ring u q) = (id, set_ring u (set_nextOpId (id + 1) q))) as ->; [|by rewrite Hf].
    unfold getNextOpId in *. cbn in *. injection Hid as Hid1 Hid2.
    rewrite Hid1 in Hid2 |- *. by rewrite Hid2.
  - assert (id <> OpIdIgnore) as Hni by (unfold OpIdIgnore, OpIdInvalid in *; lia).
    eapply room_push; try done. unfold operations. cbn [user_data set_user_data].
    rewrite list.filter_cons_True by done. cbn. lia.
  - by rewrite (entries_pushed _ _ _ _ Hpu), last_snoc.
Qed.

Lemma link_room n ts fl op (q : IoQueue) h q' :
  Room n q -> linked = true -> list.last (entries (ring_ q)) = Some (h_id op) -> h_id op <> OpIdIgnore ->
  linkTimeout ts fl op q = Ok (h, q') -> h = op /\ valid op = true /\ Room n q'.
Proof.
  intros HR Hli Hl Hni H. unfold linkTimeout in H. apply outcome_bind_Ok in H as (tt0 & Hv & H).
  apply cassert_Ok in Hv. destruct (lastSqe_ q) as [p|]; [|done].
  cbn [mbind outcome_bind] in H. apply outcome_bind_Ok in H as (p' & _ & H).
  change (IoURing.write_sqe p' _ (ring_ q)) with (link_flag p' (ring_ q)) in H.
  set (q1 := set_ring (link_flag p' (ring_ q)) q).
  pose proof (entries_unchanged _ _ (link_flag_unchanged p' _ (room_ready _ _ HR))) as He.
  assert (Room n q1) as HR1 by (destruct HR; split; try done; cbn; by rewrite He).
  rewrite <- He in Hl.
  destruct (finalize_room n (IoURing.LinkTimeout ts (u32 fl)) OpIdIgnore q1 HR1
    (room_free_link n q1 _ HR1 Hli Hl Hni)) as (p2 & u & q2 & Hp & Hf & Hps & Hnx & Hpu).
  cbn [ring_ set_ring q1 IoURing.prepare_request] in Hp. rewrite Hp in H. cbn [mbind outcome_bind] in H.
  change (set_ring u q1) with (set_ring u q) in Hf. rewrite Hf in H.
  injection H as <- <-. split; [done|]. split; [done|].
  eapply (room_push n n p2); try done. intros _. split; [done|by exists (h_id op)].
Qed.
End Room.

(** ** Who waits for the operations *)

Section Attending.
Context {allocator : Allocator}.
Context (linked : bool) (E : Z) (M : nat).

Abbreviation World := (World R T).
Abbreviation ids w := (outstanding (ring_ (queue w))).

(** A coroutine is suspended on the operation. *)
Definition awaited_by (id f : Z) (w : World) : Prop :=
  exists a, frames w !! f = Some (Suspended a) /\ h_id (operation a) = id.

(** All operations are awaited, but for those in [H]; the suspended coroutines go on
    with as many operations as [N] says. *)
Record attended (w : World) (H : list Z) (N : gmap Z nat) : Prop := {
  att_ops id : id ∈ ids w -> id <> OpIdIgnore -> id ∈ H \/ exists f, awaited_by id f w;
  att_goes_on f a : frames w !! f = Some (Suspended a) ->
    exists n, N !! f = Some n /\ (1 <= n)%nat /\ forall r, modest linked (caller a r) None n;
  att_only f : is_Some (N !! f) -> exists a, frames w !! f = Some (Suspended a);
  att_fresh f : is_Some (frames w !! f) -> f < nextFrame w
}.

Definition total (N : gmap Z nat) : nat := msum (fun n => n) N.

Lemma attended_weaken w H H' N : attended w H N -> H ⊆ H' -> attended w H' N.
Proof. intros [H1 H2 H3 H4] Hs. split; try done. intros id Hid Hn. destruct (H1 id Hid Hn); auto. Qed.

(** Entries are added, or go. *)
Lemma attended_queue w H H' N (q' : IoQueue) :
  attended w H N -> H ⊆ H' ->
  (forall id, id ∈ outstanding (ring_ q') -> id <> OpIdIgnore -> id ∈ H' \/ id ∈ ids w) ->
  attended (set_queue q' w) H' N.
Proof.
  intros [H1 H2 H3 H4] Hs Hq. split; try done. intros id Hid Hn.
  destruct (Hq id Hid Hn) as [?|Hw]; [by left|]. destruct (H1 id Hw Hn); auto.
Qed.

(** Frames change that are not suspended, before or after. *)
Lemma attended_frame w w' H N f s :
  attended w H N -> queue w' = queue w -> frames w' = <[f := s]> (frames w) ->
  nextFrame w <= nextFrame w' -> f < nextFrame w' ->
  (forall a, frames w !! f <> Some (Suspended a)) -> (forall a, s <> Suspended a) -> attended w' H N.
Proof.
  intros [H1 H2 H3 H4] Hq Hf Hn Hfn Hw Hs. split; rewrite ?Hq, ?Hf.
  - intros id Hid Hni. destruct (H1 id Hid Hni) as [?|(g & a & Hg & Ha)]; [by left|right].
    exists g, a. rewrite Hf. split; [|done]. rewrite lookup_insert_ne; [done|]. intros ->. by eapply Hw.
  - intros g a [[_ ?]|[_ Hg]]%lookup_insert_Some; [by destruct (Hs a)|by eapply H2].
  - intros g Hg. destruct (H3 g Hg) as [a Ha]. exists a. rewrite lookup_insert_ne; [done|].
    intros ->. by eapply Hw.
  - intros g [x [[-> _]|[_ Hg]]%lookup_insert_Some]; [done|]. assert (g < nextFrame w) by by apply H4.
    lia.
Qed.

Lemma attended_await w w' H N f a n :
  attended w (h_id (operation a) :: H) N -> ring_ (queue w') = ring_ (queue w) ->
  frames w !! f = Some Running -> frames w' = <[f := Suspended a]> (frames w) ->
  nextFrame w' = nextFrame w -> (forall r, modest linked (caller a r) None (S n)) ->
  attended w' H (<[f := S n]> N) /\ total (<[f := S n]> N) = (S n + total N)%nat.
Proof.
  intros [H1 H2 H3 H4] Hq Hrun Hf Hn Hp. split.
  2: { apply (msum_insert_new (fun n : nat => n)), eq_None_not_Some. intros [a' Ha']%H3. congruence. }
  split; rewrite ?Hq, ?Hf, ?Hn.
  - intros id Hid Hni. destruct (H1 id Hid Hni) as [[->|?]%elem_of_cons|(g & a' & Hg & Ha)];
      [right; exists f, a|by left|right; exists g, a']; (split; [|done]); rewrite Hf.
    + apply lookup_insert_eq.
    + rewrite lookup_insert_ne; [done|]. intros ->. congruence.
  - intros g a' [[<- [= <-]]|[Hne Hg]]%lookup_insert_Some.
    + exists (S n). rewrite lookup_insert_eq. split_and!; [done|lia|done].
    + rewrite lookup_insert_ne by done. by apply H2.
  - intros g [<-|Hg]%lookup_insert_is_Some'; [exists a; apply lookup_insert_eq|].
    destruct (H3 g Hg) as [a' Ha']. exists a'. rewrite lookup_insert_ne; [done|]. intros ->. congruence.
  - intros g [x [[-> _]|[_ Hg]]%lookup_insert_Some]; apply H4; by eexists.
Qed.

(** ** Running a coroutine *)

Abbreviation Room := (Room linked E M).

(** The operation a coroutine holds, and the last entry if it is that one's. *)
Definition holds (held : option (Z * bool)) (q : IoQueue) : Prop :=
  match held with
  | Some (id, recent) =>
      id <> OpIdIgnore /\ (recent = true -> list.last (entries (ring_ q)) = Some id)
  | None => True
  end.

Lemma shares_holds held hp hk (q : IoQueue) :
  shares held hp hk -> holds held q -> holds hp q /\ forall q', holds hk q'.
Proof.
  intros [[-> ->]|[-> ->]] Hh; [done|]. split; [done|]. intros q'.
  destruct held as [[id b]|]; [by split; [apply Hh|]|done].
Qed.

Abbreviation held_ids held := (fst <$> option_list held).

(** Others that are running keep running. *)
Definition keeps_running (f : Z) (w w' : World) : Prop :=
  forall g, g <> f -> frames w !! g = Some Running -> frames w' !! g = Some Running.

(** Running frame [f] as [p], which holds [held], leaves the entries with somebody who
    awaits them; [n0] more operations still fit, and [x] of the [M] are not its own. *)
Definition attends (p : prog) : Prop :=
  forall f (w : World) n n0 x held H N w1,
    modest linked p held n -> Room (n + n0) (queue w) -> holds held (queue w) ->
    attended w (held_ids held ++ H) N -> (total N + length (option_list held) + n + x <= M)%nat ->
    frames w !! f = Some Running -> exec f p w = Ok w1 ->
    (exists N1, attended w1 H N1 /\ (total N1 + x <= M)%nat) /\ Room n0 (queue w1) /\
    keeps_running f w w1.

Lemma attends_ret : attends Ret.
Proof.
  intros f w n n0 x held H N w1 -> HR _ Ha Hx Hf [= <-]. split_and!.
  - exists N. split; [|cbn in Hx; lia].
    eapply (attended_frame w _ H N f Finished); try done; [by apply (att_fresh _ _ _ Ha)|congruence].
  - eapply room_mono; [exact HR|lia].
  - intros g Hg. cbn. by rewrite lookup_insert_ne.
Qed.

Lemma finalize_ids r (q : IoQueue) id o u h q' :
  IoURing.ready (ring_ q) -> IoURing.prepare_request r (ring_ q) = Ok (o, u) ->
  finalizeSqe_with o id (set_ring u q) = (h, q') ->
  forall x, x ∈ outstanding (ring_ q') -> (x = id /\ h = mkHandle true id) \/ x ∈ outstanding (ring_ q).
Proof.
  intros Hr Hp Hf x. destruct (prepare_finalize r q id Hr) as (o1 & u1 & h1 & q1 & Hp1 & Hf1 & _ & _ & Ho).
  rewrite Hp in Hp1. injection Hp1 as <- <-. rewrite Hf in Hf1. injection Hf1 as <- <-. destruct o.
  - destruct Ho as (-> & _ & Hpu). rewrite (outstanding_pushed _ _ _ _ Hpu), elem_of_cons. naive_solver.
  - destruct Ho as (_ & _ & Hun & _). rewrite (outstanding_unchanged _ _ Hun). by right.
Qed.

Lemma invoke_ids c (w : World) h q' :
  IoURing.ready (ring_ (queue w)) -> invoke c w = Ok (h, set_queue q' w) ->
  forall x, x ∈ outstanding (ring_ q') -> x = h_id h \/ x ∈ ids w.
Proof.
  intros Hr. rewrite invoke_request. unfold finalize_prepared.
  intros ([h1 q1] & ([o u] & Hp & Hf)%outcome_bind_Ok & [= <- <-])%outcome_bind_Ok x Hx.
  unfold finalizeSqe in Hf. injection Hf as Hf. unfold getNextOpId in Hf.
  set (id := if _ || _ then 0 else _) in Hf.
  destruct (finalize_ids (request_of c) (set_nextOpId (u64 (id + 1)) (queue w)) id o u h1 q1 Hr Hp Hf x Hx)
    as [[-> ->]|?]; auto.
Qed.

Lemma link_ids ts fl op (q : IoQueue) h q' :
  IoURing.ready (ring_ q) -> linkTimeout ts fl op q = Ok (h, q') ->
  forall x, x ∈ outstanding (ring_ q') -> x <> OpIdIgnore -> x ∈ outstanding (ring_ q).
Proof.
  intros Hr H x Hx Hn. unfold linkTimeout in H. apply outcome_bind_Ok in H as (_ & _ & H).
  apply outcome_bind_Ok in H as (p & _ & H). change (IoURing.write_sqe p _ (ring_ q)) with (link_flag p (ring_ q)) in H.
  apply outcome_bind_Ok in H as ([o u] & Hp & H).
  destruct (finalizeSqe_with o OpIdIgnore (set_ring u q)) as [h1 q1] eqn:Hf. injection H as _ <-.
  pose proof (link_flag_unchanged p _ Hr) as Hlu.
  destruct (finalize_ids (IoURing.LinkTimeout ts (u32 fl)) (set_ring (link_flag p (ring_ q)) q) OpIdIgnore
    o u h1 q1 (unchanged_ready _ _ Hlu) Hp Hf x Hx) as [[? _]|Hin]; [done|].
  by rewrite <- (outstanding_unchanged _ _ Hlu).
Qed.

Lemma attends_call c k : (forall h, attends (k h)) -> attends (Call c k).
Proof.
  intros IH f w n n0 x held H N w1 (-> & Hn & Hk) HR _ Ha Hx Hf Hex.
  replace (n + n0)%nat with (S (n - 1 + n0)) in HR by lia.
  destruct (invoke_room _ _ _ _ c w HR) as (id & q' & Hi & Hid & HR' & Hl).
  cbn [exec] in Hex. rewrite Hi in Hex. cbn [mbind outcome_bind] in Hex.
  apply (IH _ f (set_queue q' w) (n - 1)%nat n0 x (Some (id, true)) H N w1 (Hk id Hid) HR'); try done.
  - split; [unfold OpIdIgnore, OpIdInvalid in *; lia|done].
  - apply (attended_queue w H); [done|set_solver|]. intros y Hy _.
    destruct (invoke_ids c w _ q' (room_ready _ _ _ _ _ HR) Hi y Hy) as [->|?]; [left; by left|by right].
  - cbn in *. lia.
Qed.

Lemma attends_link ts fl op k : (forall h, attends (k h)) -> attends (LinkTimeout ts fl op k).
Proof.
  intros IH f w n n0 x held H N w1 (Hli & -> & Hk) HR [Hni Hl] Ha Hx Hf Hex.
  cbn [exec] in Hex. apply outcome_bind_Ok in Hex as ([h q'] & Hlt & Hex).
  destruct (link_room _ _ _ _ ts fl op (queue w) h q' HR Hli (Hl eq_refl) Hni Hlt) as (-> & _ & HR').
  apply (IH _ f (set_queue q' w) n n0 x (Some (h_id op, false)) H N w1 Hk HR'); try done.
  apply (attended_queue w (h_id op :: H)); [done|done|]. intros y Hy Hyn. right.
  by apply (link_ids ts fl op (queue w) op q' (room_ready _ _ _ _ _ HR) Hlt).
Qed.

Lemma attends_await op k : attends (Await op k).
Proof.
  intros f w n n0 x held H N w1 [[b ->] Hk] HR _ Ha Hx Hf Hex. cbn [exec] in Hex. unfold await in Hex.
  apply outcome_bind_Ok in Hex as (_ & _ & Hex). apply outcome_bind_Ok in Hex as (_ & _ & Hex).
  apply outcome_bind_Ok in Hex as (q & Hq & [= <-]). unfold setCompleter in Hq.
  apply outcome_bind_Ok in Hq as (t & _ & [= <-]). split_and!.
  - match goal with |- exists N1, attended ?v _ _ /\ _ =>
      destruct (attended_await w v H N f (mkAwaiter op k defaultResult) n Ha) as [Ha' Ht]; try done end.
    exists (<[f := S n]> N). split; [exact Ha'|cbn in Hx; lia].
  - apply (room_mono _ _ _ (n + n0)); [|lia]. by apply (room_same _ _ _ (n + n0) (queue w)).
  - intros g Hg. cbn. by rewrite lookup_insert_ne.
Qed.

Lemma attends_close fd k : attends k -> attends (CloseFd fd k).
Proof.
  intros IH f w n n0 x held H N w1 Hk HR Hh Ha Hx Hf Hex.
  destruct (IH f (close_fd fd w) n n0 x held H N w1 Hk HR Hh) as (Ha1 & HR1 & Hr1); try done.
  by destruct Ha.
Qed.

Lemma attends_spawn p k : attends p -> (forall c, attends (k c)) -> attends (Spawn p k).
Proof.
  intros IHp IH f w n n0 x held H N w1 (n1 & n2 & hp & hk & Hle & Hsh & Hp & Hk) HR Hh Ha Hx Hf Hex.
  cbn [exec] in Hex. set (c := nextFrame w) in *. apply outcome_bind_Ok in Hex as (w2 & Hc & Hex).
  set (w0 := mkWorld (queue w) (completers w) (<[c := Running]> (frames w)) (allocs w) (c + 1) (closed w)) in *.
  assert (Hnew : frames w !! c = None).
  { apply eq_None_not_Some. intros Hs%(att_fresh _ _ _ Ha). unfold c in Hs. lia. }
  assert (f <> c) as Hfc by congruence.
  assert (Ha0 : attended w0 (held_ids held ++ H) N)
    by (apply (attended_frame w w0 _ N c Running); subst c w0; cbn; try done; [lia..|congruence]).
  destruct (shares_holds held hp hk _ Hsh Hh) as [Hhp Hhk].
  assert (held_ids held ++ H = held_ids hp ++ held_ids hk ++ H /\
    length (option_list held) = (length (option_list hp) + length (option_list hk))%nat) as [Hsplit Hlen]
    by (destruct Hsh as [[-> ->]|[-> ->]]; destruct held as [[id b]|]; cbn; split; done || lia).
  rewrite Hsplit in Ha0.
  assert (Room (n1 + (n2 + n0)) (queue w0)) as HR0 by (eapply room_mono; [exact HR|lia]).
  destruct (IHp c w0 n1 (n2 + n0)%nat (length (option_list hk) + n2 + x)%nat hp (held_ids hk ++ H) N w2
    Hp HR0 Hhp Ha0 ltac:(lia) (lookup_insert_eq _ _ _) Hc) as ((N2 & Ha2 & Hx2) & HR2 & Hk2).
  assert (frames w2 !! f = Some Running) as Hf2
    by (apply Hk2; [done|]; cbn; by rewrite lookup_insert_ne).
  destruct (IH c f w2 n2 n0 x hk H N2 w1 (Hk c) HR2 (Hhk _) Ha2 ltac:(lia) Hf2 Hex) as (Ha1 & HR1 & Hk1).
  split_and!; [done|done|]. intros g Hg Hrun. apply Hk1; [done|]. apply Hk2; [congruence|].
  cbn. rewrite lookup_insert_ne; [done|congruence].
Qed.

Lemma exec_attends p : attends p.
Proof.
  induction p as [|c k IH|ts fl op k IH|op b k IH|op k IH|p IHp k IH|c k IH|fd k IH].
  - apply attends_ret.
  - by apply attends_call.
  - by apply attends_link.
  - by intros f w n n0 x held H N w1 [].
  - apply attends_await.
  - by apply attends_spawn.
  - by intros f w n n0 x held H N w1 [].
  - by apply attends_close.
Qed.

(** ** Going on with a completion *)

Lemma attended_heap w H N heap : attended w H N -> attended (set_heap heap w) H N.
Proof. by intros []. Qed.

(** The coroutine that awaited the operation [id] is taken up again. *)
Lemma attended_resume w N f a n :
  attended w [] N -> frames w !! f = Some (Suspended a) -> N !! f = Some n ->
  attended (set_frame f Running w) [h_id (operation a)] (delete f N) /\
  total N = (n + total (delete f N))%nat.
Proof.
  intros [H1 H2 H3 H4] Hf HN. split; [|by apply (msum_delete (fun n : nat => n))]. split; cbn.
  - intros x Hx Hn. destruct (H1 x Hx Hn) as [?%elem_of_nil|(g & a' & Hg & Ha)]; [done|].
    destruct (decide (f = g)) as [<-|Hne]; [left|right].
    + rewrite Hf in Hg. injection Hg as <-. rewrite <- Ha. by left.
    + exists g, a'. split; [|done]. cbn. by rewrite lookup_insert_ne.
  - intros g a' [[_ ?]|[Hne Hg]]%lookup_insert_Some; [done|]. rewrite lookup_delete_ne by done. by apply H2.
  - intros g [m [Hne Hg]%lookup_delete_Some]. rewrite lookup_insert_ne by done. by apply H3.
  - intros g [x [[<- _]|[_ Hg]]%lookup_insert_Some]; apply H4; by eexists.
Qed.

(** The operation that a suspended frame awaits. *)
Definition awaits (w : World) (f : Z) : Z :=
  match frames w !! f with
  | Some (Suspended a) => h_id (operation a)
  | _ => OpIdIgnore
  end.

(** Each entry of an operation belongs to another suspended coroutine than the one
    whose operation has completed. *)
Lemma entries_awaited w N f a n :
  attended w [] N -> frames w !! f = Some (Suspended a) -> N !! f = Some n ->
  NoDup (operations (ids w)) ->
  h_id (operation a) ∈ cqe_user_data <$> uring_cq (IoURing.ring_ (ring_ (queue w))) ->
  h_id (operation a) <> OpIdIgnore ->
  (length (operations (entries (ring_ (queue w)))) + n <= total N)%nat.
Proof.
  intros Ha Hf HN Hnd Hcq Hni. set (id := h_id (operation a)) in *.
  assert (ids w = entries (ring_ (queue w)) ++
    (user_data <$> uring_inflight (IoURing.ring_ (ring_ (queue w)))) ++
    (cqe_user_data <$> uring_cq (IoURing.ring_ (ring_ (queue w))))) as Hids by done.
  set (l := operations (entries (ring_ (queue w)))).
  assert (NoDup l /\ (id ∉ l)) as [Hndl Hid].
  { rewrite Hids, operations_app in Hnd. apply list.NoDup_app in Hnd as (Hl & Hdis & _). split; [done|].
    intros Hin. apply (Hdis id Hin), list_elem_of_filter. split; [done|]. apply elem_of_app. by right. }
  assert (l ⊆ (awaits w <$> elements (dom (delete f N)))) as Hsub.
  { intros x [Hx Hxe]%list_elem_of_filter. assert (x ∈ ids w) as Hxi by (rewrite Hids; apply elem_of_app; by left).
    destruct (att_ops _ _ _ Ha x Hxi Hx) as [?%elem_of_nil|(g & b & Hg & Hb)]; [done|].
    apply list_elem_of_fmap. exists g. split; [unfold awaits; by rewrite Hg|].
    apply elem_of_elements, elem_of_dom, lookup_delete_is_Some. split.
    - intros <-. rewrite Hf in Hg. injection Hg as <-. subst x. apply Hid. by apply list_elem_of_filter.
    - destruct (att_goes_on _ _ _ Ha g b Hg) as (m & -> & _). done. }
  apply (NoDup_submseteq _ _ Hndl), submseteq_length in Hsub. rewrite length_fmap in Hsub.
  assert (length (elements (dom (delete f N))) <= total (delete f N))%nat.
  { apply msum_keys; [apply NoDup_elements|]. intros g Hg%elem_of_elements%elem_of_dom.
    destruct Hg as [m Hg]. exists m. split; [done|]. apply lookup_delete_Some in Hg as [_ Hg].
    destruct (att_only _ _ _ Ha g ltac:(by eexists)) as [b Hb].
    destruct (att_goes_on _ _ _ Ha g b Hb) as (m' & Hm' & ? & _). congruence. }
  unfold total. rewrite (msum_delete (fun n : nat => n) N f n HN). fold (total (delete f N)). lia.
Qed.

End Attending.

End Modest.
End Modest.
