(* ===== verification/Unchecked.v ===== *)
(** * Coroutines that do not look at the handles they get

    Most coroutines write [co_await io.recv(...)] and rely on there being a free
    submission entry.  They run exactly like the same coroutines with a check
    after every call, provided that they take one entry at a time ([modest]) and are
    not too many for the submission queue. *)

From Stdlib Require Import ZArith Lia.
From stdpp Require Import base numbers list gmap option.
From S2P Require Import Prelude Interfaces Uring Queue QueueRing QueueSafety QueueRun QueueCalls Modest.

Local Open Scope Z_scope.

Module Unchecked.
Import IoQueue QueueRing QueueSafety Modest.

(** The same coroutine with a check: it ends when there was no entry for a call. *)
Fixpoint guard (p : prog) : prog :=
  match p with
  | Ret => Ret
  | Call c k => Call c (fun h => if valid h then guard (k h) else Ret)
  | LinkTimeout ts fl op k =>
      LinkTimeout ts fl op (fun h => if valid h then guard (k h) else Ret)
  | Cancel op b k => Cancel op b (fun h => if valid h then guard (k h) else Ret)
  | Await op k => Await op (fun r => guard (k r))
  | Spawn p k => Spawn (guard p) (fun c => guard (k c))
  | Destroy c k => Destroy c (guard k)
  | CloseFd fd k => CloseFd fd (guard k)
  end.

Lemma valid_handle_range id : 0 <= id < OpIdInvalid -> valid (mkHandle true id) = true.
Proof. intros H. cbn. apply negb_true_iff, Z.eqb_neq. lia. Qed.

Section Unchecked.
Context {R : Type} `{!LibUring R} `{!LibUringSpec R}.
Context {T : Type} `{!CompleterTable T}.
Context {allocator : Allocator}.

Abbreviation World := (World R T).
Abbreviation IoQueue := (IoQueue R T).

(** ** The two runs side by side *)

(** A frame of a coroutine and the one of its guarded version. *)
Inductive frame_rel : frame -> frame -> Prop :=
| rel_running : frame_rel Running Running
| rel_finished : frame_rel Finished Finished
| rel_suspended a a' :
    operation a = operation a' -> (forall r, caller a' r = guard (caller a r)) ->
    frame_rel (Suspended a) (Suspended a').

Record rel (w w' : World) : Prop := {
  rel_queue : queue w = queue w';
  rel_completers : completers w = completers w';
  rel_allocs : allocs w = allocs w';
  rel_next : nextFrame w = nextFrame w';
  rel_closed : closed w = closed w';
  rel_frames f : option_Forall2 frame_rel (frames w !! f) (frames w' !! f)
}.

Lemma rel_set_queue q w w' : rel w w' -> rel (set_queue q w) (set_queue q w').
Proof. by intros []. Qed.

Lemma rel_set_heap hp w w' : rel w w' -> rel (set_heap hp w) (set_heap hp w').
Proof. by intros []. Qed.

Lemma rel_close_fd fd w w' : rel w w' -> rel (close_fd fd w) (close_fd fd w').
Proof. intros []. split; try done. cbn. by f_equal. Qed.

Lemma rel_set_frame f s s' w w' :
  rel w w' -> frame_rel s s' -> rel (set_frame f s w) (set_frame f s' w').
Proof.
  intros [H1 H2 H3 H4 H5 H6] Hs. split; try done. intros g. cbn.
  destruct (decide (f = g)) as [<-|Hne]; [rewrite !lookup_insert_eq; by constructor|].
  by rewrite !lookup_insert_ne.
Qed.

Lemma await_sim f op k k' w w' w1' :
  rel w w' -> (forall r, k' r = guard (k r)) -> await f op k' w' = Ok w1' ->
  ring_ (queue w1') = ring_ (queue w') /\ nextOpId_ (queue w1') = nextOpId_ (queue w') /\
  exists w1, await f op k w = Ok w1 /\ rel w1 w1'.
Proof.
  intros Hrel Hk. unfold await.
  destruct (cassert (valid op)) as [[]|]; [|done]. cbn [mbind outcome_bind set_frame queue completers allocs].
  rewrite (rel_queue _ _ Hrel), (rel_completers _ _ Hrel), (rel_allocs _ _ Hrel).
  unfold setCompleter. destruct (tbl_insert _ _ _) as [t|]; [|done]. cbn [mbind outcome_bind].
  intros [= <-]. split; [done|]. split; [done|]. eexists. split; [done|].
  assert (frame_rel (Suspended (mkAwaiter op k defaultResult))
    (Suspended (mkAwaiter op k' defaultResult))) as Hs by by constructor.
  pose proof (rel_set_frame f _ _ w w' Hrel Hs) as [H1 H2 H3 H4 H5 H6]. by split.
Qed.

(** A new frame, running. *)
Lemma rel_new_frame w w' : rel w w' -> rel (with_new_frame w) (with_new_frame w').
Proof.
  intros Hrel. pose proof (rel_set_frame (nextFrame w) Running Running w w' Hrel rel_running)
    as [H1 H2 H3 H4 H5 H6]. unfold with_new_frame. rewrite <- (rel_next _ _ Hrel). by split.
Qed.

(** ** The submission queue is large enough *)

Section Running.
Context (linked : bool) (E : Z) (M : nat).

Abbreviation Room := (Room linked E M).
Abbreviation attended := (attended linked).

Lemma exec_sim p : forall f w w' held n n0 w1',
  modest linked p held n -> holds held (queue w') -> rel w w' -> Room (n + n0) (queue w') ->
  exec f (guard p) w' = Ok w1' ->
  exists w1, exec f p w = Ok w1 /\ rel w1 w1' /\ Room n0 (queue w1').
Proof.
  induction p as [|c k IH|ts fl op k IH|op b k IH|op k IH|p IHp k IHk|c k IH|fd k IH];
    intros f w w' held n n0 w1' Hm Hh Hrel HR Hex; cbn [modest guard exec] in *; [| | |done| | |done|].
  - injection Hex as <-. eexists. split; [done|].
    split; [by apply rel_set_frame; [|constructor]|]. eapply room_mono; [exact HR|lia].
  - destruct Hm as (-> & Hn & Hk). replace (n + n0)%nat with (S (n - 1 + n0)) in HR by lia.
    destruct (invoke_room _ _ _ _ c w' HR) as (id & q' & Hi & Hid & HR' & Hl).
    rewrite Hi in Hex. cbn [mbind outcome_bind] in Hex. rewrite (valid_handle_range id Hid) in Hex.
    rewrite invoke_request, <- (rel_queue _ _ Hrel) in Hi. rewrite invoke_request.
    apply outcome_bind_Ok in Hi as ([h q] & -> & Hi). injection Hi as -> ->.
    cbn [mbind outcome_bind].
    apply (IH _ f _ (set_queue q' w') (Some (id, true)) (n - 1)%nat n0 w1' (Hk id Hid));
      [|by apply rel_set_queue|done..].
    split; [unfold OpIdIgnore, OpIdInvalid in *; lia|done].
  - destruct Hm as (Hli & -> & Hk). destruct Hh as [Hni Hl].
    apply outcome_bind_Ok in Hex as ([h q'] & Hlt & Hex).
    destruct (link_room _ _ _ _ ts fl op (queue w') h q' HR Hli (Hl eq_refl) Hni Hlt) as (-> & Hv & HR').
    rewrite Hv in Hex. rewrite (rel_queue _ _ Hrel), Hlt. cbn [mbind outcome_bind].
    by apply (IH _ f _ (set_queue q' w') (Some (h_id op, false)) n n0 w1' Hk); [|apply rel_set_queue| |].
  - destruct (await_sim f op k _ w w' w1' Hrel (fun r => eq_refl) Hex) as (Hr & Hn & w1 & H1 & Hrel1).
    exists w1. split; [done|]. split; [done|]. eapply room_mono; [by eapply room_same|lia].
  - destruct Hm as (n1 & n2 & hp & hk & Hle & Hsh & Hp & Hk).
    apply outcome_bind_Ok in Hex as (w2' & Hp' & Hex).
    destruct (shares_holds held hp hk _ Hsh Hh) as [Hhp Hhk].
    destruct (IHp _ (with_new_frame w) (with_new_frame w') hp n1 (n2 + n0)%nat w2' Hp Hhp (rel_new_frame w w' Hrel)
      ltac:(eapply room_mono; [exact HR|lia]) Hp') as (w2 & H2 & Hrel2 & HR2).
    unfold with_new_frame in H2. rewrite (rel_next _ _ Hrel) in H2 |- *. rewrite H2.
    cbn [mbind outcome_bind]. by apply (IHk _ f w2 w2' hk n2 n0 w1' (Hk _)).
  - by apply (IH f (close_fd fd w) (close_fd fd w') held n n0 w1' Hm Hh (rel_close_fd fd w w' Hrel)).
Qed.

(** ** The run loop *)

Context {table_spec : CompleterTableSpec T}.

(** [w] and its guarded version [w'], which keeps the invariant; [C] is the operation
    whose completion is being consumed. *)
Record paired (C : option Z) (w w' : World) : Prop := {
  pair_rel : rel w w';
  pair_room : Room 0 (queue w');
  pair_inv : exists B σ N, Inv None (C, ∅) w' [] B σ N;
  pair_attended : exists N, attended w (option_list C) N /\ (total N <= M)%nat
}.

(** A submission takes entries away, from the front. *)
Lemma submit_room (q : IoQueue) res u :
  Room 0 q -> IoURing.submitSqes 1 (ring_ q) = Ok (res, u) -> Room 0 (set_ring u q).
Proof.
  intros [Hr He HE Hc Hl Hn]. unfold IoURing.submitSqes. rewrite cassert_bind by apply Hr.
  pose proof (submit_spec (IoURing.sqes (ring_ q)) (u32 1) (IoURing.ring_ (ring_ q))) as Hs.
  destruct (io_uring_submit_and_wait _ _ _) as [res' r]. cbn in Hs. intros [= <- <-].
  destruct Hs as (k & d & cs & Hsq & _ & _ & _ & Hen). destruct Hr as (Hi & Hue & Hb & Hle).
  assert (entries (IoURing.set_ring r (ring_ q)) = drop k (entries (ring_ q))) as Hent
    by (unfold entries; cbn; by rewrite Hsq, fmap_drop).
  pose proof (operations_drop k (entries (ring_ q))) as Hlen.
  split; cbn [set_ring ring_ nextOpId_]; rewrite ?Hent; try done.
  - split; [done|]. cbn. rewrite Hen, Hsq, length_drop. split; [done|]. lia.
  - lia.
  - by apply orderly_drop.
Qed.

Lemma unchanged_room n (q : IoQueue) u :
  Room n q -> unchanged (ring_ q) u -> IoURing.params_ u = IoURing.params_ (ring_ q) ->
  Room n (set_ring u q).
Proof.
  intros [Hr He HE Hc Hl Hn] Hu Hp. pose proof (entries_unchanged _ _ Hu) as Hent.
  split; cbn [set_ring ring_ nextOpId_]; rewrite ?Hent, ?Hp; try done. apply Hu.
Qed.

Lemma peek_params (u u' : IoURing.IoURing R) o :
  IoURing.peekCqe u = Ok (o, u') -> IoURing.params_ u' = IoURing.params_ u.
Proof.
  unfold IoURing.peekCqe. intros (_ & _ & H)%outcome_bind_Ok.
  destruct (io_uring_peek_cqe _) as [[res c] r]. by injection H as _ <-.
Qed.

Lemma advance_room n (q : IoQueue) u :
  Room n q -> IoURing.advanceCq 1 (ring_ q) = Ok u -> Room n (set_ring u q).
Proof.
  intros [Hr He HE Hc Hl Hn]. unfold IoURing.advanceCq. rewrite cassert_bind by apply Hr. intros [= <-].
  pose proof (advance_spec (u32 1) (IoURing.ring_ (ring_ q))) as (Hsq & _ & _ & Hen).
  destruct Hr as (Hi & Hue & Hb & Hle).
  assert (entries (IoURing.set_ring (io_uring_cq_advance (u32 1) (IoURing.ring_ (ring_ q))) (ring_ q)) =
    entries (ring_ q)) as Hent by (unfold entries; cbn; by rewrite Hsq).
  split; cbn [set_ring ring_ nextOpId_]; rewrite ?Hent; try done. split; [done|]. cbn. by rewrite Hen, Hsq.
Qed.

(** The completer of an operation points to the coroutine that awaits it. *)
Lemma taken_awaiter (w w' : World) id ptr t :
  paired None w w' -> tbl_remove id (completers_ (queue w)) = Ok (ptr, t) -> ptr <> 0 ->
  exists f a a', completers w !! ptr = Some f /\ completers w' !! ptr = Some f /\
    frames w !! f = Some (Suspended a) /\ frames w' !! f = Some (Suspended a') /\
    h_id (operation a) = id /\ id <> OpIdIgnore /\ forall r, caller a' r = guard (caller a r).
Proof.
  intros [Hrel _ (B & σ & N & HI) _] Hrm Hp. pose proof (inv_table _ _ _ _ _ _ _ HI) as HT.
  destruct (tbl_remove_spec (table w') σ id) as (t' & Hrm' & _); [apply HT|].
  unfold table in Hrm'. rewrite <- (rel_queue _ _ Hrel), Hrm in Hrm'. injection Hrm' as Hptr _.
  destruct (σ !! id) as [p|] eqn:Hk; cbn in Hptr; [|done]. subst p.
  destruct (inv_key _ _ _ _ HT _ _ Hk) as (_ & Hni & _ & f & a' & Hpf & Hfa' & Hop).
  pose proof (rel_frames _ _ Hrel f) as Hf. rewrite Hfa' in Hf. inversion Hf as [s s' Hss Hs Hs'|]; subst.
  inversion Hss as [| |a ? Ho Hg]; subst. exists f, a, a'. rewrite (rel_completers _ _ Hrel), Ho, Hop.
  split_and!; try done.
Qed.

(** There is room for the coroutine whose operation has completed. *)
Lemma resume_room (w w' : World) c cs f a n N :
  paired None w w' -> uring_cq (IoURing.ring_ (ring_ (queue w))) = c :: cs ->
  attended w [] N -> (total N <= M)%nat -> frames w !! f = Some (Suspended a) -> N !! f = Some n ->
  h_id (operation a) = cqe_user_data c -> cqe_user_data c <> OpIdIgnore -> Room n (queue w').
Proof.
  intros [Hrel HR (B & σ & N' & HI) _] Hcq Ha HM Hf Hn Hid Hni.
  apply (room_count _ _ _ 0); [done|].
  pose proof (inv_nodup _ _ _ (inv_ring _ _ _ _ _ _ _ HI)) as Hnd. unfold uring in Hnd.
  rewrite <- (rel_queue _ _ Hrel) in Hnd |- *.
  pose proof (entries_awaited _ w N f a n Ha Hf Hn Hnd) as H. rewrite Hid, Hcq in H.
  specialize (H ltac:(cbn; by left) Hni). lia.
Qed.

(** Completing an operation: its coroutine goes on, then the completer is freed. *)
Lemma complete_pair ptr res f a a' n N (w w' w1' : World) :
  rel w w' -> completers w !! ptr = Some f -> completers w' !! ptr = Some f ->
  frames w !! f = Some (Suspended a) -> frames w' !! f = Some (Suspended a') ->
  (forall r, caller a' r = guard (caller a r)) ->
  attended w [] N -> (total N <= M)%nat -> N !! f = Some n -> Room n (queue w') ->
  (w2 ← complete ptr res w'; delete_completer ptr w2) = Ok w1' ->
  exists w1, (w2 ← complete ptr res w; delete_completer ptr w2) = Ok w1 /\ rel w1 w1' /\
    Room 0 (queue w1') /\ exists N1, attended w1 [h_id (operation a)] N1 /\ (total N1 <= M)%nat.
Proof.
  intros Hrel Hp Hp' Hf Hf' Hg Ha HM Hn HR.
  rewrite (complete_eq ptr res f a w Hp Hf), (complete_eq ptr res f a' w' Hp' Hf'), Hg.
  intros (w2' & Hc & Hd)%outcome_bind_Ok.
  destruct (att_goes_on _ _ _ _ Ha f a Hf) as (n' & Hn' & _ & Hm). rewrite Hn in Hn'. injection Hn' as <-.
  destruct (exec_sim (caller a res) f (set_frame f Running w) _ None n 0 w2' (Hm res) I
    (rel_set_frame f Running Running w w' Hrel rel_running) ltac:(by rewrite Nat.add_0_r) Hc)
    as (w2 & Hc2 & Hrel2 & HR2).
  destruct (attended_resume _ w N f a n Ha Hf Hn) as [Ha1 Ht].
  destruct (exec_attends linked E M (caller a res) f (set_frame f Running w) n 0%nat 0%nat None
    [h_id (operation a)] (delete f N) w2 (Hm res)) as ((N1 & Ha2 & Ht2) & _); try done.
  { rewrite Nat.add_0_r. cbn. by rewrite (rel_queue _ _ Hrel). }
  { cbn. lia. }
  { cbn. apply lookup_insert_eq. }
  rewrite Hc2. cbn [mbind outcome_bind]. unfold delete_completer in *.
  rewrite (rel_completers _ _ Hrel2). destruct (ptr =? 0).
  - injection Hd as <-. exists w2. split_and!; try done. exists N1. split; [done|lia].
  - apply outcome_bind_Ok in Hd as (g & Hg' & [= <-]). rewrite Hg'. cbn [mbind outcome_bind].
    eexists. split; [done|]. split; [by apply rel_set_heap|]. split; [done|].
    exists N1. split; [by apply attended_heap|lia].
Qed.

Lemma handle_pair c cs (w w' w1' : World) :
  paired None w w' -> uring_cq (IoURing.ring_ (ring_ (queue w))) = c :: cs -> handle_cqe c w' = Ok w1' ->
  exists w1, handle_cqe c w = Ok w1 /\ paired (Some (cqe_user_data c)) w1 w1'.
Proof.
  intros Hpair Hcq Hex. pose proof Hpair as [Hrel HR (B & σ & N' & HI) (N & Ha & HM)].
  assert (exists B σ N, Inv None (Some (cqe_user_data c), ∅) w1' [] B σ N) as HI1.
  { rewrite (rel_queue _ _ Hrel) in Hcq. destruct (handle_inv ∅ w' B σ N' c cs HI Hcq) as (v & B1 & σ1 & Hv & HI1).
    rewrite Hex in Hv. injection Hv as <-. by exists B1, σ1, N'. }
  assert (Hdone : forall t, set_queue (set_completers t (queue w')) w' = w1' ->
    paired (Some (cqe_user_data c)) (set_queue (set_completers t (queue w)) w) w1').
  { intros t <-. split; [rewrite (rel_queue _ _ Hrel); by apply rel_set_queue|by apply (room_same _ _ _ 0 (queue w'))|done|].
    exists N. split; [|done]. eapply (attended_queue _ _ []); [done|set_solver|]. intros id Hid _. by right. }
  unfold handle_cqe in *. rewrite <- (rel_queue _ _ Hrel) in Hex.
  destruct (cqe_user_data c =? OpIdIgnore).
  { injection Hex as <-. exists w. split; [done|]. split; try done. exists N. split; [|done].
    by eapply attended_weaken; [exact Ha|set_solver]. }
  apply outcome_bind_Ok in Hex as ([ptr t] & Hrm & Hex). rewrite Hrm. cbn [mbind outcome_bind].
  destruct (Z.eqb_spec ptr 0) as [|Hp0].
  { injection Hex as Hex. eexists. split; [done|]. apply Hdone. by rewrite <- (rel_queue _ _ Hrel). }
  destruct (taken_awaiter w w' _ ptr t Hpair Hrm Hp0) as (f & a & a' & Hpf & Hpf' & Hfa & Hfa' & Hid & Hni & Hg).
  destruct (att_goes_on _ _ _ _ Ha f a Hfa) as (n & Hn & _).
  pose proof (resume_room w w' c cs f a n N Hpair Hcq Ha HM Hfa Hn Hid Hni) as HRn.
  destruct (complete_pair ptr (cqe_res c) f a a' n N
    (set_queue (set_completers t (queue w)) w) (set_queue (set_completers t (queue w)) w') w1')
    as (w1 & Hw1 & Hrel1 & HR1 & N1 & Ha1 & HM1); try done.
  - by apply rel_set_queue.
  - eapply (attended_queue _ _ []); [done|done|]. intros id Hx _. by right.
  - apply (room_same _ _ _ n (queue w')); [done|by rewrite (rel_queue _ _ Hrel)..].
  - exists w1. split; [done|]. split; try done. exists N1. by rewrite <- Hid.
Qed.

(** The completion leaves the queue: its operation is over. *)
Lemma advance_pair id (w w' : World) u B σ N :
  paired (Some id) w w' -> Inv None (None, ∅) (set_uring u w') [] B σ N ->
  IoURing.advanceCq 1 (ring_ (queue w)) = Ok u -> paired None (set_uring u w) (set_uring u w').
Proof.
  intros [Hrel HR (B0 & σ0 & N0 & HI) (Nt & [H1 H2 H3 H4] & HM)] HI1 Hadv.
  rewrite (rel_queue _ _ Hrel) in Hadv. pose proof (inv_ring _ _ _ _ _ _ _ HI) as HRi.
  destruct (proj2 (inv_consume _ _ _ _ _ _ _ HI) id eq_refl) as (c & cs & Hcq & Hud).
  destruct (advance_ok (uring w') c cs (inv_ready _ _ _ HRi) Hcq) as (u' & Hadv' & _ & _ & Ho).
  unfold uring in Hadv', Ho. rewrite Hadv in Hadv'. injection Hadv' as <-. rewrite Hud in Ho.
  pose proof (inv_nodup _ _ _ HRi) as Hnd. unfold uring in Hnd. rewrite Ho in Hnd.
  split; [|by apply advance_room|by exists B, σ, N|].
  - unfold set_uring. rewrite (rel_queue _ _ Hrel). by apply rel_set_queue.
  - exists Nt. split; [|done]. split; try done. cbn. intros x Hx Hn.
    assert (x ∈ outstanding (ring_ (queue w))) as Hw by (rewrite (rel_queue _ _ Hrel), Ho; by right).
    destruct (H1 x Hw Hn) as [->%list_elem_of_singleton|?]; [exfalso|by right].
    rewrite list.filter_cons_True in Hnd by done. apply list.NoDup_cons in Hnd as [Hnd _].
    apply Hnd, list_elem_of_filter. done.
Qed.

(** The loop's body, in parts: submit, look for a completion, handle it, let it go. *)
Lemma run_body_parts (w : World) :
  run_body w =
    ('(res, u) ← IoURing.submitSqes 1 (ring_ (queue w));
     let w1 := set_queue (set_ring u (set_lastSqe None (queue w))) w in
     if res <? 0 then Ok w1
     else '(o, u2) ← IoURing.peekCqe u;
       let w2 := set_uring u2 w1 in
       match o with
       | None => Ok w2
       | Some c => w3 ← handle_cqe c w2; u3 ← IoURing.advanceCq 1 (ring_ (queue w3)); Ok (set_uring u3 w3)
       end).
Proof. done. Qed.

Lemma submit_pair (w w' : World) res u :
  paired None w w' -> IoURing.submitSqes 1 (ring_ (queue w)) = Ok (res, u) ->
  paired None (set_queue (set_ring u (set_lastSqe None (queue w))) w)
    (set_queue (set_ring u (set_lastSqe None (queue w))) w').
Proof.
  intros [Hrel HR (B & σ & N & HI) (Nt & Ha & HM)] Hs. rewrite (rel_queue _ _ Hrel) in Hs |- *.
  destruct (submit_ok (ring_ (queue w')) (room_ready _ _ _ _ _ HR)) as (res1 & u1 & Hs1 & Hr1 & Ho & _).
  rewrite Hs in Hs1. injection Hs1 as <- <-. split.
  - by apply rel_set_queue.
  - apply (submit_room (set_lastSqe None (queue w')) res u); [|done].
    by apply (room_same _ _ _ 0 (queue w')).
  - exists B, σ, N. by apply inv_uring.
  - exists Nt. split; [|done]. apply (attended_queue _ w []); [done|done|]. cbn. intros id Hid _. right.
    by rewrite (rel_queue _ _ Hrel), <- Ho.
Qed.

Lemma peek_pair (w w' : World) o u :
  paired None w w' -> IoURing.peekCqe (ring_ (queue w)) = Ok (o, u) ->
  o = head (uring_cq (IoURing.ring_ u)) /\ paired None (set_uring u w) (set_uring u w').
Proof.
  intros [Hrel HR (B & σ & N & HI) (Nt & Ha & HM)] Hp. unfold set_uring. rewrite (rel_queue _ _ Hrel) in Hp |- *.
  destruct (peek_ok (ring_ (queue w')) (room_ready _ _ _ _ _ HR)) as (u1 & Hp1 & Hun).
  pose proof (peek_params _ _ _ Hp) as Hps. rewrite Hp in Hp1. injection Hp1 as -> <-.
  pose proof (outstanding_unchanged _ _ Hun) as Ho.
  split; [by rewrite (unchanged_cq _ _ Hun)|]. split.
  - by apply rel_set_queue.
  - by apply unchanged_room.
  - exists B, σ, N. apply inv_uring; [done|apply Hun| |done..]. cbn. unfold uring. by rewrite Ho.
  - exists Nt. split; [|done]. apply (attended_queue _ w []); [done|done|]. cbn. intros id Hid _. right.
    by rewrite (rel_queue _ _ Hrel), <- Ho.
Qed.

(** Each iteration of [run] does the same to both. *)
Lemma run_body_pair (w w' : World) :
  paired None w w' -> exists w1 w1', run_body w = Ok w1 /\ run_body w' = Ok w1' /\ paired None w1 w1'.
Proof.
  intros Hpair. pose proof Hpair as [Hrel HR (B & σ & N & HI) _].
  destruct (run_body_inv ∅ w' B σ N HI) as (w1' & B1 & σ1 & N1 & Hb & HI1 & _). rewrite Hb.
  enough (exists w1, run_body w = Ok w1 /\ paired None w1 w1') as (w1 & ? & ?) by by exists w1, w1'.
  revert Hb. rewrite !run_body_parts, (rel_queue _ _ Hrel).
  intros ([res u] & Hs & Hb)%outcome_bind_Ok. rewrite Hs. cbn [mbind outcome_bind].
  rewrite <- (rel_queue _ _ Hrel) in Hs, Hb |- *. pose proof (submit_pair w w' res u Hpair Hs) as Hp1.
  cbn zeta in *. destruct (res <? 0); [injection Hb as <-; by eexists|].
  apply outcome_bind_Ok in Hb as ([o u2] & Hp & Hb). rewrite Hp. cbn [mbind outcome_bind].
  destruct (peek_pair _ _ o u2 Hp1 Hp) as (Ho & Hp2).
  destruct o as [c|]; [|injection Hb as <-; by eexists].
  apply outcome_bind_Ok in Hb as (w3' & Hc & (u3 & Ha & [= <-])%outcome_bind_Ok).
  destruct (uring_cq (IoURing.ring_ u2)) as [|c' cs] eqn:Hcq; [done|]. injection Ho as ->.
  destruct (handle_pair c' cs _ _ w3' Hp2 Hcq Hc) as (w3 & -> & Hp3). cbn [mbind outcome_bind].
  rewrite (rel_queue _ _ (pair_rel _ _ _ Hp3)), Ha. cbn [mbind outcome_bind]. eexists. split; [done|].
  eapply advance_pair; [exact Hp3|exact HI1|]. by rewrite (rel_queue _ _ (pair_rel _ _ _ Hp3)).
Qed.

Lemma run_sim fuel : forall w w',
  paired None w w' -> exists o o', run fuel w = Ok o /\ run fuel w' = Ok o' /\ option_Forall2 (paired None) o o'.
Proof.
  induction fuel as [|fuel IH]; intros w w' Hpair; cbn [run];
    rewrite (rel_queue _ _ (pair_rel _ _ _ Hpair));
    (destruct (0 <? _); [|eexists _, _; split_and!; [done|done|by constructor]]).
  - eexists _, _. split_and!; [done|done|constructor].
  - destruct (run_body_pair w w' Hpair) as (w1 & w1' & -> & -> & Hpair1). by apply IH.
Qed.

(** The same queue and the same completers at the end, if there is one. *)
Definition same_outcome (o o' : option World) : Prop :=
  match o, o' with
  | Some w, Some w' => queue w = queue w' /\ completers w = completers w' /\ closed w = closed w'
  | None, None => True
  | _, _ => False
  end.

Lemma new_rel (q : IoQueue) : rel (new_world q) (new_world q).
Proof. split; try done. intros f. cbn. rewrite lookup_empty. constructor. Qed.

Lemma new_attended (q : IoQueue) :
  outstanding (ring_ q) = [] -> attended (with_new_frame (new_world q)) [] ∅.
Proof.
  intros Ho. split; cbn.
  - intros id. rewrite Ho. by intros ?%elem_of_nil.
  - by intros f a [_ ?]%lookup_singleton_Some.
  - intros f [n ?]. done.
  - intros f [s [<- _]%lookup_singleton_Some]. lia.
Qed.

End Running.

Section Starting.
Context {table_spec : CompleterTableSpec T}.
Variables (size : Z) (u : IoURing.IoURing R) (q : IoQueue) (n m : nat) (p : prog).
Variables (linked : bool) (M : nat).
Hypotheses (Hsize : 0 <= size < 196613) (Hmake : make (R := R) (T := T) size u = Ok (Some q)).
Hypotheses (Hn : Z.of_nat n <= 2 ^ 63) (Hm : Z.of_nat m <= size + 1).
Hypothesis Hwf : wf (guard p) (mkBudget n m ∅ ∅) None.
Hypotheses (HM : needed linked M <= getSize q) (Hp : modest linked p None M).

Lemma make_room : Room linked (getSize q) M M q.
Proof.
  clear p n m Hn Hm Hwf Hp. destruct (QueueRun.make_ok size u q Hsize Hmake) as (Hr & Ho & Hid & _).
  unfold outstanding in Ho. apply app_nil in Ho as [Hsq%fmap_nil_inv _].
  split; [done|done|done| | |rewrite Hid; unfold OpIdInvalid; lia]; unfold entries; rewrite Hsq; [cbn; lia|].
  unfold orderly. cbn. by destruct linked.
Qed.

(** It starts, and is paired with its guarded version. *)
Lemma start_pair :
  exists w w', start p (new_world q) = Ok w /\ start (guard p) (new_world q) = Ok w' /\
    paired linked (getSize q) M None w w'.
Proof.
  destruct (QueueRun.make_start size u q n m (guard p) Hsize Hmake Hn Hm Hwf) as (w' & B & σ & Hs & HI).
  pose proof make_room as HR. rewrite <- (Nat.add_0_r M) in HR at 2.
  destruct (exec_sim _ _ _ p 0 _ _ None M 0 w' Hp I (rel_new_frame _ _ (new_rel q)) HR Hs)
    as (w & Hw & Hrel & HR').
  destruct (QueueRun.make_ok size u q Hsize Hmake) as (_ & Ho & _).
  destruct (exec_attends linked _ M p 0 (with_new_frame (new_world q)) M 0%nat 0%nat None [] ∅ w Hp HR I
    (new_attended linked q Ho)) as ((N & Ha & Ht) & _); [unfold total; rewrite msum_empty; cbn; lia|done|done|].
  exists w, w'. split; [done|]. split; [done|]. split; [done|done|by exists B, σ, n|].
  exists N. split; [done|lia].
Qed.

(** C8: A coroutine that awaits its operations without looking at the handles runs
    exactly like the one that checks each of them, on every execution and however many
    of the entries each submission takes: same queue, same completers, no assertion
    failed.  It must take one operation at a time - prepare it, limit its time if it is
    [linked], await it, cancel and destroy nothing - and have at most [M] of them at a
    time, with all it starts, and the submission queue [M] entries, or [2 * M + 1] for a
    [linked] one. *)
Theorem unchecked_like_checked :
  exists w w', start p (new_world q) = Ok w /\ start (guard p) (new_world q) = Ok w' /\
    forall fuel, exists o o', run fuel w = Ok o /\ run fuel w' = Ok o' /\ same_outcome o o'.
Proof.
  destruct start_pair as (w & w' & Hw & Hw' & Hpair). exists w, w'. split; [done|]. split; [done|].
  intros fuel. destruct (run_sim _ _ _ fuel w w' Hpair) as (o & o' & Ho & Ho' & Hrel).
  exists o, o'. split; [done|]. split; [done|]. destruct Hrel as [v v' [[] _ _ _]|]; done.
Qed.

(** A finite coroutine of that kind runs to its end. *)
Lemma unchecked_terminates `{!ReliableRing R} :
  exists w w1, start p (new_world q) = Ok w /\ run n w = Ok (Some w1) /\
    tbl_size (completers_ (queue w1)) = 0 /\ completers w1 = ∅.
Proof.
  destruct start_pair as (w & w' & Hw & Hw' & Hpair).
  destruct (QueueRun.make_start size u q n m (guard p) Hsize Hmake Hn Hm Hwf) as (w2 & B & σ & Hs & HI).
  rewrite Hw' in Hs. injection Hs as <-.
  destruct (QueueRun.run_total n _ w' B σ n HI ltac:(done)) as (w1' & B' & N' & Hrun & HI').
  destruct (run_sim _ _ _ n w w' Hpair) as (o & o' & Ho & Ho' & Hrel). rewrite Hrun in Ho'. injection Ho' as <-.
  inversion Hrel as [w1 ? [Hrel1 _ _ _]|]; subst.
  exists w, w1. split; [done|]. split; [done|]. rewrite (rel_queue _ _ Hrel1), (rel_completers _ _ Hrel1).
  split.
  - pose proof (inv_rep _ _ _ _ (inv_table _ _ _ _ _ _ _ HI')) as Hrep.
    unfold table in Hrep. by rewrite (tbl_size_spec _ _ Hrep), map_size_empty.
  - by eapply QueueRun.empty_table_no_completers.
Qed.

End Starting.
End Unchecked.
End Unchecked.
