(* ===== verification/EventLoop.v ===== *)
(** * What the I/O queue promises: an event loop

    The specification of [IoQueue] forgets the ring, the completer table, the
    completers on the heap and the awaiters: operations have names, a coroutine may
    await one of them, and a completion resumes whoever awaits it.  The queue
    implements it, completion by completion. *)

From Stdlib Require Import ZArith Lia.
From stdpp Require Import base numbers list gmap option.
From S2P Require Import Prelude Interfaces Uring Queue QueueRing QueueSafety QueueRun Modest Unchecked.

Local Open Scope Z_scope.

Module EventLoop.
Import IoQueue QueueRing QueueSafety QueueRun.

(** ** The specification *)

(** The operations prepared so far, by their names; for each that is awaited, the
    coroutine its completion resumes; for each suspended coroutine, the operation it
    awaits and how it goes on with the result; the name of the next coroutine; the
    descriptors that coroutines closed by themselves, and the coroutines whose operation
    was cancelled under them, the last one first.  A cancelled operation resumes nobody,
    but its coroutine stays suspended. *)
Record loop : Type := mkLoop {
  l_ops : gmap Z call;
  l_handlers : gmap Z Z;
  l_suspended : gmap Z (Z * (Z -> prog));
  l_fresh : Z;
  l_closed : list Z;
  l_cancelled : list Z
}.

Definition new_loop : loop := mkLoop ∅ ∅ ∅ 0 [] [].

Definition add_op (id : Z) (c : call) (l : loop) : loop :=
  mkLoop (<[id := c]> (l_ops l)) (l_handlers l) (l_suspended l) (l_fresh l) (l_closed l)
    (l_cancelled l).
Definition suspend (id f : Z) (k : Z -> prog) (l : loop) : loop :=
  mkLoop (l_ops l) (<[id := f]> (l_handlers l)) (<[f := (id, k)]> (l_suspended l)) (l_fresh l)
    (l_closed l) (l_cancelled l).
Definition resume (id f : Z) (l : loop) : loop :=
  mkLoop (l_ops l) (delete id (l_handlers l)) (delete f (l_suspended l)) (l_fresh l) (l_closed l)
    (l_cancelled l).
Definition disable (id : Z) (l : loop) : loop :=
  mkLoop (l_ops l) (delete id (l_handlers l)) (l_suspended l) (l_fresh l) (l_closed l)
    (option_list (l_handlers l !! id) ++ l_cancelled l).
Definition next_frame (l : loop) : loop :=
  mkLoop (l_ops l) (l_handlers l) (l_suspended l) (l_fresh l + 1) (l_closed l) (l_cancelled l).

Definition close_now (fd : Z) (l : loop) : loop :=
  mkLoop (l_ops l) (l_handlers l) (l_suspended l) (l_fresh l) (fd :: l_closed l) (l_cancelled l).

(** A coroutine's frame is destroyed; what it awaits is cancelled. *)
Definition destroy_frame (f : Z) (l : loop) : loop :=
  match l_suspended l !! f with
  | Some (id, _) => resume id f l
  | None => l
  end.

(** What happens to coroutines: one is started, or resumed with the result of the
    operation it awaited. *)
Inductive event : Type :=
| Started (f : Z) (p : prog)
| Resumed (f : Z) (c : call) (r : Z).

(** Coroutine [f] goes on as [p] until it suspends or ends.  A call may fail, for
    want of an entry. *)
Inductive runs : Z -> prog -> loop -> list event -> loop -> Prop :=
| runs_ret f l : runs f Ret l [] l
| runs_call f c k id l tr l' :
    id <> OpIdInvalid -> l_ops l !! id = None ->
    runs f (k (mkHandle true id)) (add_op id c l) tr l' ->
    runs f (Call c k) l tr l'
| runs_full f c k l tr l' : runs f (k defaultHandle) l tr l' -> runs f (Call c k) l tr l'
| runs_link f ts fl op k h l tr l' :
    h = op \/ h = defaultHandle -> runs f (k h) l tr l' -> runs f (LinkTimeout ts fl op k) l tr l'
| runs_cancel f op (b : bool) k h l tr l' :
    h = mkHandle true OpIdIgnore \/ h = defaultHandle ->
    runs f (k h) (if b then disable (h_id op) l else l) tr l' -> runs f (Cancel op b k) l tr l'
| runs_await f op k c l :
    valid op = true -> l_ops l !! h_id op = Some c -> l_handlers l !! h_id op = None ->
    runs f (Await op k) l [] (suspend (h_id op) f k l)
| runs_spawn f p k l tr1 l1 tr2 l2 :
    runs (l_fresh l) p (next_frame l) tr1 l1 -> runs f (k (l_fresh l)) l1 tr2 l2 ->
    runs f (Spawn p k) l (Started (l_fresh l) p :: tr1 ++ tr2) l2
| runs_destroy f c k l tr l' : runs f k (destroy_frame c l) tr l' -> runs f (Destroy c k) l tr l'
| runs_close f fd k l tr l' : runs f k (close_now fd l) tr l' -> runs f (CloseFd fd k) l tr l'.

(** A coroutine is started from outside. *)
Inductive begins (p : prog) (l : loop) : list event -> loop -> Prop :=
| begins_runs tr l' :
    runs (l_fresh l) p (next_frame l) tr l' -> begins p l (Started (l_fresh l) p :: tr) l'.

(** The kernel reports a completion. *)
Inductive completes (c : Cqe) (l : loop) : list event -> loop -> Prop :=
| completes_awaited f k op tr l' :
    l_handlers l !! cqe_user_data c = Some f ->
    l_suspended l !! f = Some (cqe_user_data c, k) -> l_ops l !! cqe_user_data c = Some op ->
    runs f (k (cqe_res c)) (resume (cqe_user_data c) f l) tr l' ->
    completes c l (Resumed f op (cqe_res c) :: tr) l'
| completes_nobody : l_handlers l !! cqe_user_data c = None -> completes c l [] l.

(** Several of them, in order. *)
Inductive loops : loop -> list Cqe -> list event -> loop -> Prop :=
| loops_nil l : loops l [] [] l
| loops_cons l1 c cs tr1 l2 tr2 l3 :
    completes c l1 tr1 l2 -> loops l2 cs tr2 l3 -> loops l1 (c :: cs) (tr1 ++ tr2) l3.

(** ** The queue's side *)

Section Refinement.
Context {R : Type} `{!LibUring R} `{!LibUringSpec R}.
Context {T : Type} `{!CompleterTable T} `{!CompleterTableSpec T}.
Context {allocator : Allocator}.

Abbreviation World := (World R T).
Abbreviation budgets := (gmap Z Budget).

(** The completion that one iteration of [run] consumes. *)
Definition next_cqe (w : World) : option Cqe :=
  match IoURing.submitSqes 1 (ring_ (queue w)) with
  | Ok (res, u) =>
      if res <? 0 then None
      else match IoURing.peekCqe u with Ok (c, _) => c | Crash _ => None end
  | Crash _ => None
  end.

(** [run], stopped after [fuel] iterations: the completions it consumed, and the
    state. *)
Fixpoint consumed (fuel : nat) (w : World) : list Cqe :=
  match fuel with
  | O => []
  | S n =>
      if 0 <? tbl_size (completers_ (queue w)) then
        option_list (next_cqe w) ++
        match run_body w with Ok w' => consumed n w' | Crash _ => [] end
      else []
  end.

Fixpoint iterate (fuel : nat) (w : World) : outcome World :=
  match fuel with
  | O => Ok w
  | S n => if 0 <? tbl_size (completers_ (queue w)) then w' ← run_body w; iterate n w' else Ok w
  end.

(** The entry is the request of [c] under the name [id], up to its flags (a time
    limit sets one). *)
Definition asks_for (c : call) (id : Z) (s : Sqe) : Prop :=
  set_flags 0 s = set_flags 0 (set_user_data id (IoURing.encode (R := R) (request_of c))).

(** The coroutine that the completion of [id] resumes, in the world's terms. *)
Definition handler (w : World) (σ : gmap Z Z) (id : Z) : option Z :=
  p ← σ !! id; completers w !! p.

Definition suspension (s : frame) : option (Z * (Z -> prog)) :=
  match s with Suspended a => Some (h_id (operation a), caller a) | _ => None end.

(** What the names and the requests have to do with each other. *)
Definition ops_ok (ops : gmap Z call) (w : World) : Prop :=
  (forall id, id ∈ outstanding (uring w) -> id <> OpIdIgnore -> is_Some (ops !! id)) /\
  (forall id, is_Some (ops !! id) -> id < nextId w) /\
  (forall s, s ∈ requests (uring w) -> user_data s <> OpIdIgnore ->
    exists c, ops !! user_data s = Some c /\ asks_for c (user_data s) s).

(** [l] describes [w], whose table is [σ]. *)
Record repr (w : World) (σ : gmap Z Z) (l : loop) : Prop := {
  repr_handlers id : l_handlers l !! id = handler w σ id;
  repr_suspended f : l_suspended l !! f = frames w !! f ≫= suspension;
  repr_valid f a : frames w !! f = Some (Suspended a) -> valid (operation a) = true;
  repr_fresh : l_fresh l = nextFrame w;
  repr_ops : ops_ok (l_ops l) w;
  repr_closed : l_closed l = closed w
}.

(** [w] implements [l]: the queue is consistent and [l] describes it. *)
Definition implements (w : World) (l : loop) : Prop :=
  exists B σ N, Inv None (None, ∅) w [] B σ N /\ repr w σ l.

(** ** Operations of the queue, as the specification sees them *)

Lemma asks_for_flags c id s s' : set_flags 0 s = set_flags 0 s' -> asks_for c id s' -> asks_for c id s.
Proof. unfold asks_for. by intros ->. Qed.

Lemma user_data_flags s s' : set_flags 0 s = set_flags 0 s' -> user_data s = user_data s'.
Proof. intros H. by apply (f_equal user_data) in H. Qed.

(** Nothing new but entries nobody waits for. *)
Lemma ops_keep ops (w w' : World) ss :
  ops_ok ops w -> nextId w <= nextId w' -> asks ss (uring w) (uring w') ->
  (forall s, s ∈ ss -> user_data s = OpIdIgnore) ->
  (forall id, id ∈ outstanding (uring w') -> id = OpIdIgnore \/ id ∈ outstanding (uring w)) ->
  ops_ok ops w'.
Proof.
  intros (H1 & H2 & H3) Hn Ha Hss Ho. split; [|split].
  - intros id Hid Hne. destruct (Ho id Hid) as [?|?]; [done|by apply H1].
  - intros id Hid. specialize (H2 id Hid). lia.
  - intros s Hs Hne. destruct (Ha s Hs) as [Hin|(s0 & Hs0 & Heq)]; [by rewrite (Hss s Hin) in Hne|].
    pose proof (user_data_flags _ _ Heq) as Hud. rewrite Hud in Hne |- *.
    destruct (H3 s0 Hs0 Hne) as (c & Hc & Hac). exists c. split; [done|].
    by apply (asks_for_flags _ _ _ _ Heq).
Qed.

(** The next operation is prepared. *)
Lemma ops_add ops (w w' : World) c :
  ops_ok ops w -> nextId w' = nextId w + 1 ->
  asks [set_user_data (nextId w) (IoURing.encode (R := R) (request_of c))] (uring w) (uring w') ->
  (forall id, id ∈ outstanding (uring w') -> id = nextId w \/ id ∈ outstanding (uring w)) ->
  ops !! nextId w = None /\ ops_ok (<[nextId w := c]> ops) w'.
Proof.
  intros (H1 & H2 & H3) Hn Ha Ho.
  assert (ops !! nextId w = None) as Hnone.
  { destruct (ops !! nextId w) eqn:E; [|done].
    specialize (H2 (nextId w) ltac:(by rewrite E)). lia. }
  split; [done|]. split; [|split].
  - intros id Hid Hne. apply lookup_insert_is_Some'.
    destruct (Ho id Hid) as [->|?]; [by left|right; by apply H1].
  - intros id [<-|Hid]%lookup_insert_is_Some'; [lia|]. specialize (H2 id Hid). lia.
  - intros s Hs Hne. destruct (Ha s Hs) as [->%list_elem_of_singleton|(s0 & Hs0 & Heq)].
    + exists c. cbn. by rewrite lookup_insert_eq.
    + pose proof (user_data_flags _ _ Heq) as Hud. rewrite Hud in Hne |- *.
      destruct (H3 s0 Hs0 Hne) as (c' & Hc & Hac). exists c'. split.
      * rewrite lookup_insert_ne; [done|]. intros Hid. congruence.
      * by apply (asks_for_flags _ _ _ _ Heq).
Qed.

Lemma issued_elem ids next (q q' : IoQueue R T) id :
  issued ids next q q' -> id ∈ outstanding (ring_ q') -> id ∈ ids \/ id ∈ outstanding (ring_ q).
Proof. intros [_ Ho _ _ _]. rewrite Ho. by intros ?%elem_of_app. Qed.

Lemma invoke_ops ops c (w w' : World) h :
  IoURing.ready (uring w) -> id_ok (nextId w) -> ops_ok ops w -> invoke c w = Ok (h, w') ->
  (h = mkHandle true (nextId w) /\ ops !! nextId w = None /\ ops_ok (<[nextId w := c]> ops) w') \/
  (h = defaultHandle /\ ops_ok ops w').
Proof.
  intros Hr Hid Hops Hi. destruct (invoke_ok c w Hr Hid) as (h1 & q' & Hi1 & Hcase).
  rewrite Hi in Hi1. injection Hi1 as -> ->.
  destruct Hcase as [(p & -> & Hq & _ & _ & Hp)|(-> & (_ & Hun & Hs) & Hq & _)]; [left|right];
    (split; [done|]); pose proof (fun id => issued_elem _ _ _ _ id Hq) as Ho.
  - apply ops_add; [done|apply Hq|by eapply asks_pushed|].
    intros id Hin. destruct (Ho id Hin) as [->%list_elem_of_singleton|?]; [by left|by right].
  - apply (ops_keep ops w _ []); [done| |by apply asks_same|by intros ? ?%elem_of_nil|].
    + unfold nextId. cbn. rewrite (issued_next _ _ _ _ Hq). lia.
    + intros id Hin. destruct (Ho id Hin) as [?%elem_of_nil|?]; [done|by right].
Qed.

(** Only the ring and the next name matter. *)
Lemma ops_same ops (w w' : World) :
  ops_ok ops w -> ring_ (queue w') = ring_ (queue w) -> nextId w' = nextId w -> ops_ok ops w'.
Proof. unfold ops_ok, uring. by intros H -> ->. Qed.

Lemma link_ops ops ts fl op (w : World) h q' :
  IoURing.ready (uring w) -> valid op = true -> last_is (Some (h_id op)) (queue w) ->
  ops_ok ops w -> linkTimeout ts fl op (queue w) = Ok (h, q') ->
  (h = op \/ h = defaultHandle) /\ ops_ok ops (set_queue q' w).
Proof.
  intros Hr Hv (p & Hl & Hud) Hops Hlt.
  destruct (linkTimeout_steps ts fl op (queue w) p Hr Hv Hl Hud) as (o & h1 & q1 & Heq & _ & Hn & Ho).
  rewrite Hlt in Heq. injection Heq as <- <-.
  pose proof (asks_link p (ring_ (queue w))) as Hlink.
  pose proof (link_flag_unchanged p (ring_ (queue w)) Hr) as Hlu. destruct o as [p'|].
  - destruct Ho as (-> & _ & Hpu). split; [by left|].
    eapply ops_keep; [done| |exact (asks_trans _ _ _ _ Hlink (asks_pushed _ _ _ _ Hpu))| |].
    + unfold nextId. cbn. lia.
    + by intros s ->%list_elem_of_singleton.
    + intros id. unfold uring. cbn. rewrite (unchanged_pushed _ _ _ _ _ Hlu Hpu).
      rewrite elem_of_cons. by intros [?|?]; [left|right].
  - destruct Ho as (-> & _ & Hun & _ & Hs). split; [by right|].
    eapply ops_keep; [done| |exact (asks_trans _ _ _ _ Hlink (asks_same _ _ Hun Hs))| |].
    + unfold nextId. cbn. lia.
    + by intros s ?%elem_of_nil.
    + intros id. unfold uring. cbn.
      rewrite (outstanding_unchanged _ _ Hun), (outstanding_unchanged _ _ Hlu). by right.
Qed.

(** Cancelling with the handler is cancelling without it, later. *)
Lemma cancel_as_false op b (w : World) x :
  cancel op b w = Ok x -> exists w1, cancel op false w1 = Ok x /\
    ring_ (queue w1) = ring_ (queue w) /\ nextId w1 = nextId w.
Proof.
  destruct b; [|by exists w]. unfold cancel. intros (u & Hu & H)%outcome_bind_Ok.
  apply outcome_bind_Ok in H as (w1 & H1 & H). exists w1. rewrite Hu. cbn [mbind outcome_bind].
  split; [done|]. apply outcome_bind_Ok in H1 as ([ptr t] & _ & H1).
  unfold delete_completer in H1. destruct (ptr =? 0); [by injection H1 as <-|].
  by apply outcome_bind_Ok in H1 as (? & _ & [= <-]).
Qed.

Lemma cancel_ops ops op b (w w' : World) h :
  IoURing.ready (uring w) -> valid op = true -> ops_ok ops w -> cancel op b w = Ok (h, w') ->
  ops_ok ops w'.
Proof.
  intros Hr Hv Hops (w1 & Hc & Hring & Hn)%cancel_as_false.
  assert (ops_ok ops w1) as Hops1 by by apply (ops_same ops w).
  destruct (cancel_false_steps op w1) as (o & h1 & q' & Hc1 & _ & Hn1 & Ho); [by rewrite Hring|done|].
  rewrite Hc in Hc1. injection Hc1 as _ ->. destruct o as [p|].
  - destruct Ho as (_ & Hpu). eapply ops_keep; [done| |by eapply asks_pushed| |].
    + unfold nextId. cbn. lia.
    + by intros s ->%list_elem_of_singleton.
    + intros id. unfold uring. cbn. rewrite (outstanding_pushed _ _ _ _ Hpu).
      rewrite elem_of_cons. by intros [?|?]; [left|right].
  - destruct Ho as (_ & Hun & Hs). eapply ops_keep; [done| |by apply asks_same| |].
    + unfold nextId. cbn. lia.
    + by intros s ?%elem_of_nil.
    + intros id. unfold uring. cbn. rewrite (outstanding_unchanged _ _ Hun). by right.
Qed.

(** ** Handlers *)

Lemma handler_same (w w' : World) σ :
  completers w' = completers w -> forall id, handler w' σ id = handler w σ id.
Proof. intros Hc id. unfold handler. by rewrite Hc. Qed.

(** A completer leaves the table, and perhaps the heap. *)
Lemma handler_delete X (w w' : World) B σ k :
  TableInv X w B σ ->
  completers w' = completers w \/ completers w' = delete (default 0 (σ !! k)) (completers w) ->
  forall id, handler w' (delete k σ) id = if decide (id = k) then None else handler w σ id.
Proof.
  intros HT Hc id. unfold handler. destruct (decide (id = k)) as [->|Hne].
  - by rewrite lookup_delete_eq.
  - rewrite lookup_delete_ne by done. destruct (σ !! id) as [p|] eqn:Hp; [|done]. cbn.
    destruct Hc as [->| ->]; [done|]. rewrite lookup_delete_ne; [done|].
    destruct (σ !! k) as [p'|] eqn:Hk; cbn; [intros ->; apply Hne; by eapply key_inj|].
    intros <-. by destruct (inv_key _ _ _ _ HT id 0 Hp).
Qed.

(** A completer enters both. *)
Lemma handler_insert X (w w' : World) B f σ k p :
  TableInv X w B σ -> completers w !! p = None -> completers w' = <[p := f]> (completers w) ->
  forall id, handler w' (<[k := p]> σ) id = if decide (id = k) then Some f else handler w σ id.
Proof.
  intros HT Hp Hc id. unfold handler. rewrite Hc. destruct (decide (id = k)) as [->|Hne].
  - rewrite lookup_insert_eq. cbn. by rewrite lookup_insert_eq.
  - rewrite lookup_insert_ne by done. destruct (σ !! id) as [p'|] eqn:Hp'; [|done]. cbn.
    destruct (inv_key _ _ _ _ HT id p' Hp') as (_ & _ & _ & g & a' & Hg & _).
    rewrite lookup_insert_ne; [done|congruence].
Qed.

(** ** Steps of a coroutine *)

Lemma repr_invoke c (w w' : World) σ l h :
  IoURing.ready (uring w) -> id_ok (nextId w) -> repr w σ l -> invoke c w = Ok (h, w') ->
  (exists id, h = mkHandle true id /\ id <> OpIdInvalid /\ l_ops l !! id = None /\ repr w' σ (add_op id c l)) \/
  (h = defaultHandle /\ repr w' σ l).
Proof.
  intros Hr Hid [H1 H2 H3 H4 H5] Hi. pose proof Hi as Hi'.
  rewrite invoke_request in Hi'. apply outcome_bind_Ok in Hi' as ([h1 q'] & _ & [= -> <-]).
  destruct (invoke_ops _ c w _ h Hr Hid H5 Hi) as [(-> & Hn & Ho)|[-> Ho]].
  - left. exists (nextId w). split; [done|]. split; [unfold id_ok, OpIdInvalid in *; lia|]. by split_and!.
  - right. by split_and!.
Qed.

Lemma repr_link ts fl op (w : World) σ l h q' :
  IoURing.ready (uring w) -> valid op = true -> last_is (Some (h_id op)) (queue w) ->
  repr w σ l -> linkTimeout ts fl op (queue w) = Ok (h, q') ->
  (h = op \/ h = defaultHandle) /\ repr (set_queue q' w) σ l.
Proof.
  intros Hr Hv Hl [H1 H2 H3 H4 H5] Hlt.
  destruct (link_ops _ ts fl op w h q' Hr Hv Hl H5 Hlt) as [Hh Ho]. by split_and!.
Qed.

Lemma cancel_closed op b (w w' : World) h : cancel op b w = Ok (h, w') -> closed w' = closed w.
Proof.
  unfold cancel. intros H. outcome_inv. assert (closed x0 = closed w) as <-; [|done].
  destruct b; outcome_inv; [|done]. unfold delete_completer in *. destruct (_ =? 0); outcome_inv; done.
Qed.

Lemma repr_cancel X op b (w w' : World) B σ l h :
  TableInv X w B σ -> IoURing.ready (uring w) -> valid op = true -> repr w σ l ->
  cancel op b w = Ok (h, w') -> frames w' = frames w -> nextFrame w' = nextFrame w ->
  completers w' = (if b then delete (default 0 (σ !! h_id op)) (completers w) else completers w) ->
  repr w' (if b then delete (h_id op) σ else σ) (if b then disable (h_id op) l else l).
Proof.
  intros HT Hr Hv [H1 H2 H3 H4 H5 H6] Hc Hf Hn Hcs.
  pose proof (cancel_ops _ op b w w' h Hr Hv H5 Hc) as Ho.
  pose proof (cancel_closed _ _ _ _ _ Hc) as Hcl. rewrite <- Hcl in H6.
  destruct b; split; rewrite ?Hf, ?Hn; try done; cbn [disable l_handlers l_closed]; try (by rewrite Hcl); try (intros id).
  - rewrite (handler_delete X w w' B σ (h_id op) HT) by by right.
    destruct (decide (id = h_id op)) as [->|Hne]; [apply lookup_delete_eq|].
    by rewrite lookup_delete_ne.
  - by rewrite (handler_same w w' σ).
Qed.

Lemma await_closed f op k (w w' : World) : await f op k w = Ok w' -> closed w' = closed w.
Proof. unfold await. intros H. by outcome_inv. Qed.

Lemma repr_close fd (w : World) σ l : repr w σ l -> repr (close_fd fd w) σ (close_now fd l).
Proof. intros []. split; try done. cbn. by f_equal. Qed.

Lemma repr_await X (w w' : World) B σ l op f p a k :
  TableInv X w B σ -> repr w σ l -> valid op = true -> operation a = op -> caller a = k ->
  completers w !! p = None -> completers w' = <[p := f]> (completers w) ->
  frames w' = <[f := Suspended a]> (frames w) -> nextFrame w' = nextFrame w ->
  ring_ (queue w') = ring_ (queue w) -> nextId w' = nextId w -> closed w' = closed w ->
  repr w' (<[h_id op := p]> σ) (suspend (h_id op) f k l).
Proof.
  intros HT [H1 H2 H3 H4 H5 H6] Hv Hop Hk Hp Hc Hf Hn Hr Hi Hcl. split; rewrite ?Hf; cbn.
  - intros id. rewrite (handler_insert X w w' B f σ (h_id op) p HT Hp Hc).
    destruct (decide (id = h_id op)) as [->|Hne]; [apply lookup_insert_eq|].
    by rewrite lookup_insert_ne.
  - intros g. destruct (decide (f = g)) as [<-|Hne].
    + rewrite !lookup_insert_eq. cbn. by rewrite Hop, Hk.
    + by rewrite !lookup_insert_ne.
  - intros g a' [[_ [= <-]]|[_ Hg]]%lookup_insert_Some; [by rewrite Hop|by eapply H3].
  - by rewrite Hn.
  - by apply (ops_same _ w).
  - by rewrite Hcl.
Qed.

(** Frames change that neither were nor are suspended. *)
Lemma repr_frames (w w' : World) σ l :
  repr w σ l -> queue w' = queue w -> completers w' = completers w -> closed w' = closed w ->
  (forall f, frames w' !! f = frames w !! f \/
    (frames w' !! f ≫= suspension = None /\ frames w !! f ≫= suspension = None)) ->
  repr w' σ (mkLoop (l_ops l) (l_handlers l) (l_suspended l) (nextFrame w') (l_closed l) (l_cancelled l)).
Proof.
  intros [H1 H2 H3 H4 H5 H6] Hq Hc Hcl Hf. split; cbn; try done.
  - intros id. by rewrite (handler_same w w' σ).
  - intros f. rewrite H2. by destruct (Hf f) as [->|[-> ->]].
  - intros f a Ha. destruct (Hf f) as [Heq|[Hn _]]; [by apply (H3 f); rewrite <- Heq|].
    by rewrite Ha in Hn.
  - apply (ops_same _ w); unfold nextId; by rewrite ?Hq.
  - by rewrite Hcl.
Qed.

Lemma repr_finish (w : World) σ l f :
  repr w σ l -> frames w !! f = Some Running -> repr (set_frame f Finished w) σ l.
Proof.
  intros Hl Hf. pose proof (repr_frames w (set_frame f Finished w) σ l Hl eq_refl eq_refl eq_refl) as H.
  cbn [nextFrame set_frame] in H. rewrite <- (repr_fresh _ _ _ Hl) in H. destruct l. apply H.
  intros g. cbn. destruct (decide (f = g)) as [<-|Hne]; [|left; by rewrite lookup_insert_ne].
  right. rewrite lookup_insert_eq, Hf. done.
Qed.

Lemma repr_spawn (w : World) σ l :
  repr w σ l -> frames w !! nextFrame w = None -> repr (with_new_frame w) σ (next_frame l).
Proof.
  intros Hl Hf. unfold next_frame. rewrite (repr_fresh _ _ _ Hl).
  apply (repr_frames w (with_new_frame w) σ l Hl eq_refl eq_refl eq_refl).
  intros g. cbn. destruct (decide (nextFrame w = g)) as [<-|Hne]; [|left; by rewrite lookup_insert_ne].
  right. rewrite lookup_insert_eq, Hf. done.
Qed.

(** A frame that holds nothing of the table is deleted. *)
Lemma repr_without (w : World) σ l c cs :
  repr w σ l -> repr (without_frame c w) σ
    (mkLoop (l_ops l) (l_handlers l) (delete c (l_suspended l)) (l_fresh l) (l_closed l) cs).
Proof.
  intros [H1 H2 H3 H4 H5]. split; cbn; try done.
  - intros f. destruct (decide (f = c)) as [->|Hne]; [by rewrite !lookup_delete_eq|].
    by rewrite !lookup_delete_ne.
  - intros f a [_ Ha]%lookup_delete_Some. eauto.
Qed.

Lemma repr_destroy X C (w w1 : World) f L B σ σ1 N l c s b :
  Inv X C w (f :: L) B σ N -> B !! f = Some b -> repr w σ l ->
  frames w !! c = Some s -> destroy_state s w = Ok w1 ->
  frames w1 = frames w -> nextFrame w1 = nextFrame w ->
  ((w1 = w /\ σ1 = σ /\ forall a, s = Suspended a -> valid (operation a) = false) \/
   exists a, s = Suspended a /\ destroy_state s w = ('(_, w) ← cancel (operation a) true w; Ok w) /\
     valid (operation a) = true /\ σ1 = delete (h_id (operation a)) σ /\
     completers w1 = delete (default 0 (σ !! h_id (operation a))) (completers w)) ->
  repr (without_frame c w1) σ1 (destroy_frame c l).
Proof.
  intros HI Hb Hl Hs Hd Hf Hn Hcase. pose proof (repr_suspended _ _ _ Hl c) as Hsus.
  rewrite Hs in Hsus. cbn in Hsus. unfold destroy_frame. rewrite Hsus.
  destruct Hcase as [(-> & -> & Hv)|(a & -> & Heq & Hv & -> & Hc)].
  - destruct s as [|a|]; cbn in Hsus |- *.
    2: { pose proof (repr_valid _ _ _ Hl c a Hs) as Hva. by rewrite (Hv a eq_refl) in Hva. }
    all: pose proof (repr_without w σ l c (l_cancelled l) Hl) as H; rewrite delete_id in H by done; by destruct l.
  - rewrite Hd in Heq. symmetry in Heq. apply outcome_bind_Ok in Heq as ([h w2] & Hcan & [= ->]).
    apply (repr_without w1 _ (disable (h_id (operation a)) l) c (l_cancelled l)).
    eapply (repr_cancel X (operation a) true w w1); try done; apply HI.
Qed.

(** ** Running a coroutine *)

(** What a run of frame [f] as [p] ends with, and that it is one of the
    specification's. *)
Definition refines (X : option Z) (C : option Z * gset Z) (N : nat) (L : list Z) (B : budgets)
    (f : Z) (p : prog) (l : loop) (m : outcome World) : Prop :=
  exists w' B' σ' tr l', m = Ok w' /\ Inv X C w' L B' σ' N /\
    (forall g, g ∈ L -> B' !! g = B !! g) /\ runs f p l tr l' /\ repr w' σ' l'.

(** One step of [p], after which it goes on as [p'] in [l']. *)
Lemma refines_step X C N L (B B' : budgets) f p p' l l' m :
  (forall g, g ∈ L -> B' !! g = B !! g) ->
  (forall tr l2, runs f p' l' tr l2 -> runs f p l tr l2) ->
  refines X C N L B' f p' l' m -> refines X C N L B f p l m.
Proof.
  intros HB Hp (w' & B2 & σ' & tr & l2 & -> & HI & HB2 & Hr & Hl). exists w', B2, σ', tr, l2.
  split; [done|]. split; [done|]. split; [|split; [by apply Hp|done]].
  intros g Hg. by rewrite HB2, HB.
Qed.

Lemma insert_others (B : budgets) f (L : list Z) b : (f ∉ L) -> forall g, g ∈ L -> <[f := b]> B !! g = B !! g.
Proof. intros Hf g Hg. rewrite lookup_insert_ne; [done|by intros ->]. Qed.

Lemma await_known ops (w : World) B N f b id :
  RingInv w B N -> ops_ok ops w -> B !! f = Some b -> id ∈ b_handles b -> is_Some (ops !! id).
Proof.
  intros HR (H1 & _) Hb Hid. destruct (inv_handles _ _ _ HR f b id Hb Hid) as [Hr Ho].
  apply H1; [done|]. pose proof (inv_next _ _ _ HR). unfold OpIdIgnore. lia.
Qed.

(** A disciplined run of [p] in frame [f] is one of the specification's. *)
Definition refined (X : option Z) (C : option Z * gset Z) (N : nat) (p : prog) : Prop :=
  forall f (w : World) L (B : budgets) σ b last l,
    Inv X C w (f :: L) B σ N -> B !! f = Some b -> wf p b last -> last_is last (queue w) ->
    repr w σ l -> refines X C N L B f p l (exec f p w).

Section Steps.
Context (X : option Z) (C : option Z * gset Z) (N : nat).

Lemma top_not_below (w : World) f L (B : budgets) σ :
  Inv X C w (f :: L) B σ N -> (f ∉ L).
Proof.
  intros HI. pose proof (inv_stack_nodup _ _ _ (inv_frames _ _ _ _ _ _ _ HI)) as Hnd.
  by apply list.NoDup_cons in Hnd as [? _].
Qed.

Lemma refined_ret : refined X C N Ret.
Proof.
  intros f w L B σ b last l HI Hb _ _ Hl.
  exists (set_frame f Finished w), (delete f B), σ, [], l. split; [done|].
  split; [by apply finish_inv|]. split.
  { intros g Hg. apply lookup_delete_ne. intros ->. by apply (top_not_below w g L B σ). }
  split; [constructor|]. apply repr_finish; [done|].
  apply (inv_running _ _ _ (inv_frames _ _ _ _ _ _ _ HI)). by left.
Qed.

Lemma refined_call c k : (forall h, refined X C N (k h)) -> refined X C N (Call c k).
Proof.
  intros IH f w L B σ b last l HI Hb Hwf Hlast Hl. pose proof (inv_ring _ _ _ _ _ _ _ HI) as HR.
  destruct (call_inv X C c k w f L B σ N b last HI Hb Hwf Hlast)
    as (h & w' & b' & last' & Hi & HI' & Hwf' & Hlast').
  cbn [exec]. rewrite Hi. cbn [mbind outcome_bind]. pose proof (top_not_below w f L B σ HI) as HfL.
  destruct (repr_invoke c w w' σ l h (inv_ready _ _ _ HR) (next_id_ok w B N f b HR Hb (proj1 Hwf)) Hl Hi)
    as [(id & -> & Hv & Hn & Hl')|[-> Hl']];
    (eapply refines_step; [by apply insert_others| |
      eapply IH; [exact HI'|apply lookup_insert_eq|exact Hwf'|exact Hlast'|exact Hl']]); intros tr l2.
  - by apply runs_call.
  - apply runs_full.
Qed.

Lemma refined_link ts fl op k : (forall h, refined X C N (k h)) -> refined X C N (LinkTimeout ts fl op k).
Proof.
  intros IH f w L B σ b last l HI Hb Hwf Hlast Hl.
  destruct (link_inv X C ts fl op k w f L B σ N b last HI Hb Hwf Hlast)
    as (h & q' & b' & last' & Hi & HI' & Hwf' & Hlast'). destruct Hwf as (_ & Hv & -> & _).
  cbn [exec]. rewrite Hi. cbn [mbind outcome_bind].
  destruct (repr_link ts fl op w σ l h q' (inv_ready _ _ _ (inv_ring _ _ _ _ _ _ _ HI)) Hv Hlast Hl Hi)
    as [Hh Hl'].
  eapply refines_step; [by eapply insert_others, top_not_below| |
    eapply IH; [exact HI'|apply lookup_insert_eq|exact Hwf'|exact Hlast'|exact Hl']].
  intros tr l2. by apply runs_link.
Qed.

Lemma refined_cancel op b0 k : (forall h, refined X C N (k h)) -> refined X C N (Cancel op b0 k).
Proof.
  intros IH f w L B σ b last l HI Hb (Hpos & Hv & Hok & Hfull) Hlast Hl.
  destruct (cancel_inv X C op b0 w (f :: L) B σ N f b HI ltac:(by left) Hb Hpos Hv)
    as (h & w' & Hi & Hh & HI' & Hf & Hn & _ & Hc).
  cbn [exec]. rewrite Hi. cbn [mbind outcome_bind].
  pose proof (repr_cancel X op b0 w w' B σ l h (inv_table _ _ _ _ _ _ _ HI)
    (inv_ready _ _ _ (inv_ring _ _ _ _ _ _ _ HI)) Hv Hl Hi Hf Hn Hc) as Hl'.
  eapply refines_step; [by eapply insert_others, top_not_below| |eapply (IH h) with (last := None);
    [exact HI'|apply lookup_insert_eq|by destruct Hh as [-> | ->]|done|exact Hl']].
  intros tr l2. by apply runs_cancel.
Qed.

Lemma refined_await op k : refined X C N (Await op k).
Proof.
  intros f w L B σ b last l HI Hb (Hv & Hid & Hw & Hk) _ Hl.
  pose proof (inv_table _ _ _ _ _ _ _ HI) as HT. cbn [exec].
  destruct (await_inv X C op k w f L B σ N b HI Hb Hv Hid Hw Hk)
    as (w' & p & a & Hex & Hf & Hn & HI' & Hc & Hp & Hop & Hca & Hr & Hni).
  pose proof (await_closed _ _ _ _ _ Hex) as Hcl. rewrite Hex.
  destruct (await_known _ w B N f b (h_id op) (inv_ring _ _ _ _ _ _ _ HI) (repr_ops _ _ _ Hl) Hb Hid)
    as [c Hknown].
  eexists w', _, _, [], _. split; [done|]. split; [exact HI'|].
  split; [by eapply insert_others, top_not_below|].
  split; [|by eapply (repr_await X w w' B σ l op f p a k)].
  eapply runs_await; [exact Hv|exact Hknown|]. rewrite (repr_handlers _ _ _ Hl). unfold handler.
  by rewrite (inv_unawaited _ _ _ _ HT f b _ Hb Hid).
Qed.

Lemma refined_spawn p k : refined X C N p -> (forall c, refined X C N (k c)) -> refined X C N (Spawn p k).
Proof.
  intros IHp IH f w L B σ b last l HI Hb (b1 & b2 & Hsp & Hwfp & Hwfk) Hlast Hl.
  pose proof (top_not_below w f L B σ HI) as HfL.
  destruct (new_frame_unknown w _ B (inv_frames _ _ _ _ _ _ _ HI)) as (Hfn & _ & HLn & Hcn).
  set (c := nextFrame w) in *. cbn [exec]. fold c.
  destruct (IHp c (with_new_frame w) (f :: L) _ σ b1 last (next_frame l)
    (spawn_inv X C w f L B σ N b b1 b2 HI Hb Hsp) (lookup_insert_eq _ _ _) Hwfp Hlast
    (repr_spawn w σ l Hl Hfn)) as (w1 & B' & σ' & tr1 & l1 & Hex & HI1 & HB & Hr & Hl1).
  unfold with_new_frame in Hex. fold c in Hex. rewrite Hex. cbn [mbind outcome_bind].
  assert (B' !! f = Some (add_child c b2)) as HBf.
  { rewrite HB by by left. rewrite lookup_insert_ne by (intros Heq; apply HLn, elem_of_cons; by left).
    apply lookup_insert_eq. }
  assert (wf (k c) (add_child c b2) None) as Hwfc by by apply Hwfk, (Hcn f b).
  destruct (IH c f w1 L B' σ' _ None l1 HI1 HBf Hwfc I Hl1)
    as (w2 & B2 & σ2 & tr2 & l2 & -> & HI2 & HB2 & Hr2 & Hl2).
  exists w2, B2, σ2, (Started c p :: tr1 ++ tr2), l2.
  split; [done|]. split; [done|]. split; [|split; [|done]].
  - intros g Hg. rewrite HB2, HB by (done || by right).
    rewrite !lookup_insert_ne; [done|by intros ->|intros <-; apply HLn; by right].
  - pose proof (repr_fresh _ _ _ Hl) as Hfc. fold c in Hfc. rewrite <- Hfc in Hr, Hr2 |- *.
    by eapply runs_spawn.
Qed.

Lemma refined_destroy c k : refined X C N k -> refined X C N (Destroy c k).
Proof.
  intros IH f w L B σ b last l HI Hb (Hpos & Hc & Hwf) Hlast Hl.
  destruct (child_not_running X C w f L B σ N b c HI Hb Hc) as (s & Hs & Hnr & _).
  destruct (destroy_state_inv X C w f L B σ N b c s HI Hb Hpos Hs Hnr)
    as (w0 & σ1 & Hw0 & HI0 & Hfr & Hnf & _ & Hno & Hcase).
  destruct (destroy_inv X C w f L B σ N b c s w0 σ1 HI Hb Hc Hs Hw0 HI0 Hfr Hno)
    as (B1 & Hd & HI1 & HB1 & HB1').
  cbn [exec]. rewrite Hd. cbn [mbind outcome_bind].
  pose proof (repr_destroy X C w w0 f L B σ σ1 N l c s b HI Hb Hl Hs Hw0 Hfr Hnf Hcase) as Hl'.
  eapply refines_step; [exact HB1'| |by eapply IH with (last := None)].
  intros tr l2. apply runs_destroy.
Qed.

Lemma refined_close fd k : refined X C N k -> refined X C N (CloseFd fd k).
Proof.
  intros IH f w L B σ b last l HI Hb Hwf Hlast Hl. cbn [exec].
  eapply refines_step; [done| |eapply IH; [by apply close_fd_inv|exact Hb|exact Hwf|exact Hlast|]].
  - intros tr l2. apply runs_close.
  - by apply repr_close.
Qed.

Lemma exec_refines p : refined X C N p.
Proof.
  induction p as [|c k IH|ts fl op k IH|op b k IH|op k IH|p IHp k IH|c k IH|fd k IH].
  - apply refined_ret.
  - by apply refined_call.
  - by apply refined_link.
  - by apply refined_cancel.
  - apply refined_await.
  - by apply refined_spawn.
  - by apply refined_destroy.
  - by apply refined_close.
Qed.

End Steps.

(** ** One iteration of the run loop *)

(** The ring moves on. *)
Lemma repr_uring (w : World) σ l q' :
  repr w σ l -> asks [] (uring w) (ring_ q') -> nextOpId_ q' = nextId w ->
  (forall id, id ∈ outstanding (ring_ q') -> id ∈ outstanding (uring w)) ->
  repr (set_queue q' w) σ l.
Proof.
  intros [H1 H2 H3 H4 H5] Ha Hn Ho. split; try done.
  apply (ops_keep _ w _ []); [done| |done|by intros ? ?%elem_of_nil|].
  - unfold nextId. cbn. unfold nextId in Hn. lia.
  - intros id Hid. right. by apply Ho.
Qed.

(** The completer of [id] was taken out of the table. *)
Lemma repr_taken X (w : World) B σ l id t :
  TableInv X w B σ -> repr w σ l ->
  repr (set_queue (set_completers t (queue w)) w) (delete id σ) (disable id l).
Proof.
  intros HT [H1 H2 H3 H4 H5]. split; try done. cbn [disable l_handlers]. intros k.
  rewrite (handler_delete X w _ B σ id HT) by by left.
  destruct (decide (k = id)) as [->|Hne]; [apply lookup_delete_eq|].
  by rewrite lookup_delete_ne.
Qed.

Lemma repr_resumed (w : World) σ l id f :
  repr w σ (disable id l) -> repr (set_frame f Running w) σ (resume id f l).
Proof.
  intros [H1 H2 H3 H4 H5]. split; try done; cbn.
  - intros g. destruct (decide (f = g)) as [<-|Hne].
    + by rewrite lookup_delete_eq, lookup_insert_eq.
    + by rewrite lookup_delete_ne, lookup_insert_ne.
  - intros g a [[_ ?]|[_ Hg]]%lookup_insert_Some; [done|by eapply H3].
Qed.

Lemma repr_freed C p (w : World) (B : budgets) σ N l :
  Inv (Some p) C w [] B σ N -> repr w σ l -> repr (set_heap (delete p (completers w)) w) σ l.
Proof.
  intros HI [H1 H2 H3 H4 H5]. split; try done. intros id. rewrite H1. unfold handler. cbn.
  destruct (σ !! id) as [p'|] eqn:E; [|done]. cbn. rewrite lookup_delete_ne; [done|].
  intros <-. by apply (proj2 (inv_taken _ _ _ _ (inv_table _ _ _ _ _ _ _ HI) p eq_refl) id).
Qed.

Lemma handle_refines D (w : World) (B : budgets) σ N l c cs :
  Inv None (None, D) w [] B σ N -> repr w σ l ->
  uring_cq (IoURing.ring_ (uring w)) = c :: cs ->
  exists w' B' σ' tr l', handle_cqe c w = Ok w' /\
    Inv None (Some (cqe_user_data c), D) w' [] B' σ' N /\ completes c l tr l' /\ repr w' σ' l'.
Proof.
  intros HI Hl Hcq. pose proof (inv_table _ _ _ _ _ _ _ HI) as HT.
  pose proof (repr_handlers _ _ _ Hl (cqe_user_data c)) as Hhl. unfold handler in Hhl.
  destruct (σ !! cqe_user_data c) as [p|] eqn:E.
  - destruct (inv_key _ _ _ _ HT _ _ E) as (_ & Hni & Hout & _).
    destruct (proj1 (repr_ops _ _ _ Hl) _ Hout Hni) as [op Hknown].
    destruct (handle_awaited D w B σ N c cs p HI Hcq E) as (t & f & a & Hp & Hf & Hop & -> & HI3).
    pose proof (repr_taken None w B σ l (cqe_user_data c) t HT Hl) as Hl3.
    set (w3 := set_queue (set_completers t (queue w)) w) in *.
    rewrite (complete_eq p _ f a w3 Hp Hf).
    destruct (resume_inv D w3 B _ N _ p f a HI3 Hf Hop) as (HI4 & b & Hb & Hwf).
    destruct (exec_refines _ _ N (caller a (cqe_res c)) f _ [] B _ b None _ HI4 Hb (Hwf _) I
      (repr_resumed w3 _ l _ f Hl3)) as (w5 & B5 & σ5 & tr & l5 & -> & HI5 & _ & Hr & Hl5).
    cbn [mbind outcome_bind]. destruct (free_inv _ p w5 B5 σ5 N HI5) as [-> HI6].
    eexists _, B5, σ5, (Resumed f op (cqe_res c) :: tr), l5. split; [done|]. split; [done|].
    split; [|by eapply repr_freed]. eapply completes_awaited; [|  |exact Hknown|exact Hr].
    + by rewrite Hhl.
    + rewrite (repr_suspended _ _ _ Hl), Hf. cbn. by rewrite Hop.
  - destruct (handle_nobody D w B σ N c cs HI Hcq E) as (t & -> & HI').
    eexists _, B, σ, [], l. split; [done|]. split; [done|]. split; [by constructor|].
    by destruct Hl.
Qed.

Lemma submit_repr D (w : World) (B : budgets) σ N l :
  Inv None (None, D) w [] B σ N -> repr w σ l ->
  exists res u w1, IoURing.submitSqes 1 (ring_ (queue w)) = Ok (res, u) /\
    w1 = set_uring u (set_queue (set_lastSqe None (queue w)) w) /\
    Inv None (None, D) w1 [] B σ N /\ repr w1 σ l.
Proof.
  intros HI Hl. destruct (submit_step D w B σ N HI) as (res & u & w1 & Hs & -> & HI1 & _).
  exists res, u, (set_uring u (set_queue (set_lastSqe None (queue w)) w)). split_and!; try done.
  destruct (submit_ok (uring w) (inv_ready _ _ _ (inv_ring _ _ _ _ _ _ _ HI)))
    as (res2 & u2 & Hs2 & _ & Ho & _).
  cbn [set_lastSqe ring_] in Hs. unfold uring in Hs2, Ho. rewrite Hs in Hs2. injection Hs2 as <- <-.
  apply (repr_uring w σ l (set_ring u (set_lastSqe None (queue w)))); [done|by eapply asks_submit|done|].
  intros id. unfold uring. cbn. by rewrite Ho.
Qed.

Lemma peek_repr D (w : World) (B : budgets) σ N l :
  Inv None (None, D) w [] B σ N -> repr w σ l ->
  exists u, IoURing.peekCqe (ring_ (queue w)) = Ok (head (uring_cq (IoURing.ring_ (uring w))), u) /\
    uring_cq (IoURing.ring_ u) = uring_cq (IoURing.ring_ (uring w)) /\
    Inv None (None, D) (set_uring u w) [] B σ N /\ repr (set_uring u w) σ l.
Proof.
  intros HI Hl.
  destruct (peek_ok (uring w) (inv_ready _ _ _ (inv_ring _ _ _ _ _ _ _ HI))) as (u & Hp & Hun).
  pose proof (reflexive_eq _ _ (outstanding_unchanged _ _ Hun) : _ ≡ₚ _) as Ho.
  exists u. split; [done|]. split; [apply (unchanged_cq _ _ Hun)|]. split.
  - apply inv_uring; [done|apply Hun|exact Ho|done..].
  - apply repr_uring; [done|by eapply asks_peek|done|]. intros id. cbn. by rewrite Ho.
Qed.

Lemma advance_repr D (w : World) (B : budgets) σ N l id :
  Inv None (Some id, D) w [] B σ N -> repr w σ l ->
  exists u N', IoURing.advanceCq 1 (ring_ (queue w)) = Ok u /\
    Inv None (None, D) (set_uring u w) [] B σ N' /\ repr (set_uring u w) σ l.
Proof.
  intros HI Hl. destruct (consume_end D w B σ N id HI) as (u & N' & Hadv & _ & HI').
  exists u, N'. split; [done|]. split; [done|].
  apply repr_uring; [done|by eapply asks_advance|done|]. intros k Hk. cbn in Hk.
  destruct (proj2 (inv_consume _ _ _ _ _ _ _ HI) id eq_refl) as (c & cs & Hcq & _).
  destruct (advance_ok (uring w) c cs (inv_ready _ _ _ (inv_ring _ _ _ _ _ _ _ HI)) Hcq)
    as (u' & Hadv' & _ & _ & Ho).
  rewrite Hadv in Hadv'. injection Hadv' as <-. rewrite Ho. by right.
Qed.

(** One iteration handles the completion it finds, if there is one. *)
Lemma run_body_refines D (w : World) (B : budgets) σ N l :
  Inv None (None, D) w [] B σ N -> repr w σ l ->
  exists w' B' σ' N' tr l', run_body w = Ok w' /\ Inv None (None, D) w' [] B' σ' N' /\
    loops l (option_list (next_cqe w)) tr l' /\ repr w' σ' l'.
Proof.
  intros HI Hl. destruct (submit_repr D w B σ N l HI Hl) as (res & u1 & w1 & Hs & Hw1 & HI1 & Hl1).
  unfold run_body, next_cqe. cbn [queue set_queue set_lastSqe ring_]. rewrite Hs.
  cbn [mbind outcome_bind]. rewrite <- Hw1. destruct (Z.ltb_spec res 0) as [Hneg|Hpos].
  { exists w1, B, σ, N, [], l. by split_and!; [..|constructor|]. }
  assert (ring_ (queue w1) = u1) as Hu1 by by subst w1.
  destruct (peek_repr D w1 B σ N l HI1 Hl1) as (u2 & Hp & Hcq & HI2 & Hl2).
  rewrite Hu1 in Hp |- *. rewrite Hp. cbn [mbind outcome_bind].
  destruct (uring_cq (IoURing.ring_ (uring w1))) as [|c cs]; cbn [head option_list].
  { exists (set_uring u2 w1), B, σ, N, [], l. by split_and!; [..|constructor|]. }
  destruct (handle_refines D (set_uring u2 w1) B σ N l c cs HI2 Hl2 Hcq)
    as (w3 & B3 & σ3 & tr & l3 & Heq & HI3 & Hc & Hl3).
  destruct (advance_repr D w3 B3 σ3 N l3 _ HI3 Hl3) as (u4 & N' & Hadv & HI4 & Hl4).
  exists (set_uring u4 w3), B3, σ3, N', (tr ++ []), l3.
  unfold handle_cqe in Heq. cbn zeta in Heq |- *. rewrite Heq. cbn [mbind outcome_bind].
  rewrite Hadv. split_and!; [done|done|by eapply loops_cons; [|constructor]|done].
Qed.

Lemma loops_app l1 cs1 tr1 l2 cs2 tr2 l3 :
  loops l1 cs1 tr1 l2 -> loops l2 cs2 tr2 l3 -> loops l1 (cs1 ++ cs2) (tr1 ++ tr2) l3.
Proof.
  induction 1 as [|? ? ? ? ? ? ? Hc _ IH]; [done|]. intros H. cbn. rewrite <- app_assoc.
  eapply loops_cons; [exact Hc|by apply IH].
Qed.

(** ** The whole run *)

Lemma waiting_nothing (w : World) (B : budgets) σ N l D :
  Inv None (None, D) w [] B σ N -> repr w σ l ->
  tbl_size (table w) <= 0 <-> l_handlers l = ∅.
Proof.
  intros HI Hl. pose proof (inv_table _ _ _ _ _ _ _ HI) as HT.
  rewrite (tbl_size_spec _ _ (inv_rep _ _ _ _ HT)). split.
  - intros Hsz. assert (σ = ∅) as -> by (apply map_size_empty_inv; lia).
    apply map_empty. intros id. rewrite (repr_handlers _ _ _ Hl). unfold handler.
    by rewrite lookup_empty.
  - intros He. assert (σ = ∅) as ->; [|by rewrite map_size_empty].
    apply map_empty. intros id. destruct (σ !! id) as [p|] eqn:E; [|done]. exfalso.
    destruct (inv_key _ _ _ _ HT id p E) as (_ & _ & _ & f & a & Hp & _).
    pose proof (repr_handlers _ _ _ Hl id) as Hh. unfold handler in Hh.
    rewrite E in Hh. cbn in Hh. by rewrite He, Hp, lookup_empty in Hh.
Qed.

Lemma iterate_refines fuel : forall (w : World) (B : budgets) σ N l,
  Inv None (None, ∅) w [] B σ N -> repr w σ l ->
  exists w' tr l', iterate fuel w = Ok w' /\ loops l (consumed fuel w) tr l' /\ implements w' l' /\
    run fuel w = Ok (if decide (l_handlers l' = ∅) then Some w' else None).
Proof.
  induction fuel as [|fuel IH]; intros w B σ N l HI Hl; cbn [iterate consumed run];
    pose proof (waiting_nothing w B σ N l ∅ HI Hl) as Hw; unfold table in Hw;
    destruct (Z.ltb_spec 0 (tbl_size (completers_ (queue w)))) as [Hpos|Hle].
  - exists w, [], l. split; [done|]. split; [constructor|]. split; [by exists B, σ, N|].
    rewrite decide_False; [done|]. intros He. apply Hw in He. lia.
  - exists w, [], l. split; [done|]. split; [constructor|]. split; [by exists B, σ, N|].
    rewrite decide_True; [done|]. by apply Hw.
  - destruct (run_body_refines ∅ w B σ N l HI Hl) as (w1 & B1 & σ1 & N1 & tr1 & l1 & -> & HI1 & Hc & Hl1).
    cbn [mbind outcome_bind].
    destruct (IH w1 B1 σ1 N1 l1 HI1 Hl1) as (w2 & tr2 & l2 & -> & Hr & Him & Hrun).
    exists w2, (tr1 ++ tr2), l2. split; [done|]. split; [by eapply loops_app|done].
  - exists w, [], l. split; [done|]. split; [constructor|]. split; [by exists B, σ, N|].
    rewrite decide_True; [done|]. by apply Hw.
Qed.

Lemma new_repr (q : IoQueue R T) :
  outstanding (ring_ q) = [] -> repr (new_world q) ∅ new_loop.
Proof.
  intros Ho. split; try done. split; [|split].
  - intros id. unfold uring. cbn. rewrite Ho. by intros ?%elem_of_nil.
  - intros id. cbn. rewrite lookup_empty. by intros [].
  - intros s Hs. exfalso. unfold outstanding in Ho. unfold requests, uring in Hs. cbn in Hs.
    apply app_nil in Ho as [Hsq%fmap_nil_inv [Hin%fmap_nil_inv _]%app_nil].
    rewrite Hsq, Hin in Hs. by apply elem_of_nil in Hs.
Qed.

Lemma start_refines size u q n m p :
  0 <= size < 196613 -> make (R := R) (T := T) size u = Ok (Some q) ->
  Z.of_nat n <= 2 ^ 63 -> Z.of_nat m <= size + 1 ->
  wf p (mkBudget n m ∅ ∅) None ->
  exists w B σ tr l, start p (new_world q) = Ok w /\ Inv None (None, ∅) w [] B σ n /\
    begins p new_loop tr l /\ repr w σ l.
Proof.
  intros Hsize Hmake Hn Hm Hwf.
  destruct (make_ok size u q Hsize Hmake) as (Hr & Ho & Hid & _ & Hrep & Hcap).
  assert (Inv None (None, ∅) (new_world q) [] ∅ ∅ 0) as HI by (apply new_world_inv; done || lia).
  assert (affords (new_world q) ∅ (mkBudget n m ∅ ∅)) as Haff
    by (unfold affords, nextId, table; cbn; rewrite !msum_empty, Hid; repeat split; lia).
  pose proof (repr_spawn (new_world q) ∅ new_loop (new_repr q Ho) eq_refl) as Hl.
  destruct (exec_refines _ _ _ p 0 _ [] _ ∅ _ None _
    (start_push _ _ _ _ _ _ HI Haff) (lookup_insert_eq _ _ _) Hwf I Hl)
    as (w & B & σ & tr & l & Hex & HI' & _ & Hr' & Hl').
  exists w, B, σ, (Started 0 p :: tr), l. split; [exact Hex|]. split; [exact HI'|].
  split; [|done]. by apply (begins_runs p new_loop).
Qed.

(** C1: The queue implements the event loop: what a disciplined coroutine does on it,
    with all it starts, cancels and destroys, is what the specification does with
    the completions [run] took from the kernel, in that order - each resumes exactly
    the coroutine that awaits it, with the kernel's result, and a cancelled one
    nobody.  The requests in the ring are those of the operations the specification
    knows, and [run] returns exactly when no completion is awaited any more. *)
Theorem queue_implements_loop size u q n m p :
  0 <= size < 196613 -> make (R := R) (T := T) size u = Ok (Some q) ->
  Z.of_nat n <= 2 ^ 63 -> Z.of_nat m <= size + 1 ->
  wf p (mkBudget n m ∅ ∅) None ->
  exists w tr l, start p (new_world q) = Ok w /\ begins p new_loop tr l /\ implements w l /\
    forall fuel, exists w' tr' l',
      iterate fuel w = Ok w' /\ loops l (consumed fuel w) tr' l' /\ implements w' l' /\
      run fuel w = Ok (if decide (l_handlers l' = ∅) then Some w' else None).
Proof.
  intros Hsize Hmake Hn Hm Hwf.
  destruct (start_refines size u q n m p Hsize Hmake Hn Hm Hwf) as (w & B & σ & tr & l & Hs & HI & Hb & Hl).
  exists w, tr, l. split; [done|]. split; [done|]. split; [by exists B, σ, n|].
  intros fuel. by apply (iterate_refines fuel w B σ n l).
Qed.

(** ** Coroutines that do not look at their handles *)

Lemma iterate_sim linked E M fuel : forall (w w' : World),
  Unchecked.paired linked E M None w w' ->
  exists v v', iterate fuel w = Ok v /\ iterate fuel w' = Ok v' /\ Unchecked.paired linked E M None v v' /\
    consumed fuel w = consumed fuel w'.
Proof.
  induction fuel as [|fuel IH]; intros w w' Hpair; cbn [iterate consumed]; [by exists w, w'|].
  unfold next_cqe. rewrite (Unchecked.rel_queue _ _ (Unchecked.pair_rel _ _ _ _ _ _ Hpair)).
  destruct (0 <? _); [|by exists w, w'].
  destruct (Unchecked.run_body_pair _ _ _ w w' Hpair) as (w1 & w1' & Hb & Hb' & Hpair1).
  destruct (IH w1 w1' Hpair1) as (v & v' & Hv & Hv' & Hpairv & Hc). exists v, v'.
  rewrite Hb, Hb'. cbn [mbind outcome_bind]. by rewrite Hc.
Qed.

(** They too behave as the specification says, of the program with the checks. *)
Lemma unchecked_refines size u q n m p linked M :
  0 <= size < 196613 -> make (R := R) (T := T) size u = Ok (Some q) ->
  Z.of_nat n <= 2 ^ 63 -> Z.of_nat m <= size + 1 ->
  wf (Unchecked.guard p) (mkBudget n m ∅ ∅) None ->
  Modest.needed linked M <= getSize q -> Modest.modest linked p None M ->
  exists w tr l, start p (new_world q) = Ok w /\ begins (Unchecked.guard p) new_loop tr l /\
    forall fuel, exists v tr' l', iterate fuel w = Ok v /\ loops l (consumed fuel w) tr' l' /\
      l_closed l' = closed v.
Proof.
  intros Hsize Hmake Hn Hm Hwf HM Hp.
  destruct (start_refines size u q n m _ Hsize Hmake Hn Hm Hwf) as (w' & B & σ & tr & l & Hs & HI & Hbe & Hl).
  destruct (Unchecked.start_pair size u q n m p linked M Hsize Hmake Hn Hm Hwf HM Hp)
    as (w & w2 & Hw & Hw2 & Hpair). rewrite Hs in Hw2. injection Hw2 as <-.
  exists w, tr, l. split; [done|]. split; [done|]. intros fuel.
  destruct (iterate_refines fuel w' B σ n l HI Hl) as (v' & tr' & l' & Hv' & Hloops & (B' & σ' & N' & _ & Hr) & _).
  destruct (iterate_sim _ _ _ fuel w w' Hpair) as (v & v2 & Hv & Hv2 & [Hrel _ _ _] & Hc).
  rewrite Hv' in Hv2. injection Hv2 as <-. exists v, tr', l'. rewrite Hc.
  by rewrite (Unchecked.rel_closed _ _ Hrel), (repr_closed _ _ _ Hr).
Qed.

End Refinement.
End EventLoop.
