(* ===== verification/Histories.v ===== *)
(** * What a coroutine sees of an event loop

    The history of a coroutine is the sequence of operations it awaited, with their
    results.  Whatever else runs on the loop, it is one that the coroutine's program
    alone prescribes. *)

From Stdlib Require Import ZArith Lia.
From stdpp Require Import base numbers list gmap option.
From S2P Require Import Prelude Interfaces Uring Queue QueueRing QueueSafety Unchecked EventLoop.

Local Open Scope Z_scope.

Module Histories.
Import IoQueue QueueSafety Unchecked EventLoop.

Abbreviation history := (list (call * Z)).

Definition resumption (f : Z) (e : event) : option (call * Z) :=
  match e with
  | Resumed g c r => if decide (g = f) then Some (c, r) else None
  | Started _ _ => None
  end.

Definition history_of (f : Z) (tr : list event) : history := omap (resumption f) tr.

(** The histories a program allows, with the operations [M] named by their ids:
    calls return a new handle or none, operations return anything. *)
Inductive path (M : gmap Z call) : prog -> history -> Prop :=
| path_nil p : path M p []
| path_call c k id h :
    M !! id = Some c -> path M (k (mkHandle true id)) h -> path M (Call c k) h
| path_full c k h : path M (k defaultHandle) h -> path M (Call c k) h
| path_link ts fl op k h' h :
    h' = op \/ h' = defaultHandle -> path M (k h') h -> path M (LinkTimeout ts fl op k) h
| path_cancel op b k h' h :
    h' = mkHandle true OpIdIgnore \/ h' = defaultHandle -> path M (k h') h -> path M (Cancel op b k) h
| path_await op k c r h :
    valid op = true -> M !! h_id op = Some c -> path M (k r) h -> path M (Await op k) ((c, r) :: h)
| path_spawn p k c h : path M (k c) h -> path M (Spawn p k) h
| path_destroy c k h : path M k h -> path M (Destroy c k) h
| path_close fd k h : path M k h -> path M (CloseFd fd k) h.

#[local] Hint Constructors path : core.

Lemma path_mono M M' p h : path M p h -> M ⊆ M' -> path M' p h.
Proof. intros H HM. induction H; eauto using lookup_weaken. Qed.

(** ** Programs at work *)

(** Frame [g], started as [q], goes on as [p]. *)
Definition at_point (M : gmap Z call) (q : prog) (tr : list event) (g : Z) (p : prog) : Prop :=
  forall M', M ⊆ M' -> forall h, path M' p h -> path M' q (history_of g tr ++ h).

Lemma at_point_mono M M' q tr g p : at_point M q tr g p -> M ⊆ M' -> at_point M' q tr g p.
Proof. intros H HM M2 HM2. apply H. by transitivity M'. Qed.

Record follows (l : loop) (tr : list event) : Prop := {
  follows_fresh g q : Started g q ∈ tr -> g < l_fresh l;
  follows_once g q q' : Started g q ∈ tr -> Started g q' ∈ tr -> q = q';
  follows_new g : l_fresh l <= g -> history_of g tr = [];
  follows_frames g : is_Some (l_suspended l !! g) -> g < l_fresh l;
  follows_suspended g q id k : Started g q ∈ tr -> l_suspended l !! g = Some (id, k) ->
    at_point (l_ops l) q tr g (Await (mkHandle true id) k);
  follows_valid g id k : l_suspended l !! g = Some (id, k) -> id <> OpIdInvalid;
  follows_path g q : Started g q ∈ tr -> path (l_ops l) q (history_of g tr)
}.

(** A part of a trace in which coroutines only start, from the name [n] on. *)
Definition starts_from (n : Z) (tr : list event) : Prop :=
  Forall (fun e => exists g q, e = Started g q /\ n <= g) tr.

Lemma history_starts n tr g : starts_from n tr -> history_of g tr = [].
Proof. by induction 1 as [|e tr (g' & q & -> & _) _ IH]. Qed.

Lemma history_app g tr1 tr2 : history_of g (tr1 ++ tr2) = history_of g tr1 ++ history_of g tr2.
Proof. apply omap_app. Qed.

Lemma history_app_starts n g tr1 tr2 :
  starts_from n tr2 -> history_of g (tr1 ++ tr2) = history_of g tr1.
Proof. intros H. by rewrite history_app, (history_starts n tr2 g H), app_nil_r. Qed.

Lemma starts_from_mono n m tr : starts_from n tr -> m <= n -> starts_from m tr.
Proof.
  intros H Hle. eapply Forall_impl; [|exact H]. intros e (g & q & -> & ?). exists g, q. split; [done|lia].
Qed.

(** What a change of the loop must respect. *)
Lemma follows_change l l' tr :
  follows l tr -> l_ops l ⊆ l_ops l' -> l_fresh l <= l_fresh l' ->
  (forall g s, l_suspended l' !! g = Some s -> l_suspended l !! g = Some s) -> follows l' tr.
Proof.
  intros [H1 H2 H3 H4 H5 H7 H6] Ho Hf Hs. split.
  - intros g q Hg. specialize (H1 g q Hg). lia.
  - done.
  - intros g Hg. apply H3. lia.
  - intros g [s Hg]. specialize (H4 g). rewrite (Hs g s Hg) in H4. specialize (H4 ltac:(by eexists)). lia.
  - intros g q id k Hg Hk. eapply at_point_mono; [|done]. apply H5; [done|by apply Hs].
  - intros g id k Hk. by eapply H7, Hs.
  - intros g q Hg. apply (path_mono (l_ops l)); [by apply H6|done].
Qed.

Lemma starts_from_elem n tr g q : starts_from n tr -> Started g q ∈ tr -> n <= g.
Proof.
  intros H Hin. by destruct (proj1 (list.Forall_forall _ _) H _ Hin) as (g' & q' & [= <- <-] & ?).
Qed.

(** A coroutine is started: its history is empty. *)
Lemma follows_start l tr p :
  follows l tr ->
  follows (next_frame l) (tr ++ [Started (l_fresh l) p]) /\
  at_point (l_ops l) p (tr ++ [Started (l_fresh l) p]) (l_fresh l) p.
Proof.
  intros [H1 H2 H3 H4 H5 H7 H6].
  assert (forall g, history_of g (tr ++ [Started (l_fresh l) p]) = history_of g tr) as Hh
    by (intros g; rewrite history_app; apply app_nil_r).
  assert (forall g q, Started g q ∈ tr ++ [Started (l_fresh l) p] ->
    (Started g q ∈ tr /\ g < l_fresh l) \/ (g = l_fresh l /\ q = p)) as Hin.
  { intros g q [Hg|[= <- <-]%list_elem_of_singleton]%elem_of_app; [left|by right].
    split; [done|by eapply H1]. }
  split; [split; cbn [next_frame l_fresh l_suspended l_ops]|].
  - intros g q [[_ ?]|[-> _]]%Hin; lia.
  - intros g q q' [[Hg ?]|[-> ->]]%Hin [[Hg' ?]|[? ->]]%Hin; [by eapply H2|lia|lia|done].
  - intros g Hg. rewrite Hh. apply H3. lia.
  - intros g Hg. specialize (H4 g Hg). lia.
  - intros g q id k Hg Hk M' HM h Hp. rewrite Hh. specialize (H4 g ltac:(by eexists)).
    apply Hin in Hg as [[Hg _]|[-> _]]; [by apply (H5 g q id k)|lia].
  - exact H7.
  - intros g q Hg. rewrite Hh. apply Hin in Hg as [[Hg _]|[-> ->]]; [by apply H6|].
    rewrite H3 by lia. constructor.
  - intros M' HM h Hp. by rewrite Hh, H3 by lia.
Qed.

(** A run of frame [f] as [p] keeps everybody on the way of his program. *)
Definition keeps (f : Z) (p : prog) (l : loop) (tr : list event) (l' : loop) : Prop :=
  forall tr0, follows l tr0 -> f < l_fresh l ->
    (forall q, Started f q ∈ tr0 -> at_point (l_ops l) q tr0 f p) ->
    follows l' (tr0 ++ tr) /\ l_ops l ⊆ l_ops l' /\ l_fresh l <= l_fresh l' /\
    starts_from (l_fresh l) tr.

(** A step of [p] that suspends nobody. *)
Lemma keeps_step f p p' l l1 tr l' :
  l_ops l ⊆ l_ops l1 -> l_fresh l1 = l_fresh l ->
  (forall g s, l_suspended l1 !! g = Some s -> l_suspended l !! g = Some s) ->
  (forall M h, l_ops l1 ⊆ M -> path M p' h -> path M p h) ->
  keeps f p' l1 tr l' -> keeps f p l tr l'.
Proof.
  intros Ho Hf Hs Hp H tr0 HF Hlt Hat.
  destruct (H tr0) as (H1 & H2 & H3 & H4).
  - eapply follows_change; [exact HF|done|lia|exact Hs].
  - lia.
  - intros q Hq M HM h Hh. apply (Hat q Hq); [by transitivity (l_ops l1)|by apply Hp].
  - rewrite Hf in H3, H4. split_and!; try done. by transitivity (l_ops l1).
Qed.

Lemma keeps_await f op k c l :
  valid op = true -> l_ops l !! h_id op = Some c ->
  keeps f (Await op k) l [] (suspend (h_id op) f k l).
Proof.
  intros Hv Hc tr0 [H1 H2 H3 H4 H5 H7 H6] Hf Hat. rewrite app_nil_r.
  split_and!; [|done|done|constructor]. split; try done; cbn.
  - intros g [<-|Hg]%lookup_insert_is_Some'; [done|by apply H4].
  - intros g q id k' Hg [[<- [= <- <-]]|[Hne Hk]]%lookup_insert_Some; [|by apply (H5 g q)].
    intros M' HM h Hp. apply (Hat q Hg); [done|]. by rewrite (valid_handle op Hv).
  - intros g id k' [[<- [= <- <-]]|[Hne Hk]]%lookup_insert_Some; [|by eapply H7].
    by apply andb_true_iff in Hv as [_ Hv%negb_true_iff%Z.eqb_neq].
Qed.

Lemma keeps_spawn f p k l tr1 l1 tr2 l2 :
  keeps (l_fresh l) p (next_frame l) tr1 l1 -> keeps f (k (l_fresh l)) l1 tr2 l2 ->
  keeps f (Spawn p k) l (Started (l_fresh l) p :: tr1 ++ tr2) l2.
Proof.
  intros IHp IHk tr0 HF Hf Hat. destruct (follows_start l tr0 p HF) as [HF1 Hat1].
  destruct (IHp (tr0 ++ [Started (l_fresh l) p]) HF1) as (H1 & H2 & H3 & H4); [cbn; lia| |].
  { intros q Hq. assert (q = p) as ->; [|exact Hat1].
    eapply follows_once; [exact HF1|exact Hq|]. apply elem_of_app. right. by left. }
  cbn in H2, H3, H4. rewrite <- app_assoc in H1. cbn [app] in H1.
  assert (starts_from (l_fresh l) (Started (l_fresh l) p :: tr1)) as Hs1.
  { constructor; [by exists (l_fresh l), p|]. eapply starts_from_mono; [exact H4|lia]. }
  destruct (IHk (tr0 ++ Started (l_fresh l) p :: tr1) H1) as (H5 & H6 & H7 & H8); [lia| |].
  { intros q Hq M' HM h Hp. rewrite (history_app_starts (l_fresh l)) by done.
    apply elem_of_app in Hq as [Hq|Hq]; [|pose proof (starts_from_elem _ _ _ _ Hs1 Hq); lia].
    apply (Hat q Hq); [by transitivity (l_ops l1)|]. by eapply path_spawn. }
  rewrite <- app_assoc in H5. cbn [app] in H5. split_and!; [done|by transitivity (l_ops l1)|lia|].
  change (Started (l_fresh l) p :: tr1 ++ tr2) with ((Started (l_fresh l) p :: tr1) ++ tr2).
  apply Forall_app. split; [done|]. eapply starts_from_mono; [exact H8|lia].
Qed.

Lemma destroy_frame_sub c l :
  l_ops (destroy_frame c l) = l_ops l /\ l_fresh (destroy_frame c l) = l_fresh l /\
  forall g s, l_suspended (destroy_frame c l) !! g = Some s -> l_suspended l !! g = Some s.
Proof.
  unfold destroy_frame. destruct (l_suspended l !! c) as [[]|]; [|done]. split; [done|]. split; [done|].
  intros g s. cbn. by intros [_ ?]%lookup_delete_Some.
Qed.

Lemma runs_keeps f p l tr l' : runs f p l tr l' -> keeps f p l tr l'.
Proof.
  induction 1 as [f l|f c k id l tr l' _ Hid _ IH|f c k l tr l' _ IH|f ts fl op k h l tr l' Hh _ IH
    |f op b k h l tr l' Hh _ IH|f op k c l Hv Hc Hn|f p k l tr1 l1 tr2 l2 _ IHp _ IHk|f c k l tr l' _ IH
    |f fd k l tr l' _ IH].
  - intros tr0 HF _ _. rewrite app_nil_r. by split_and!; [| | |constructor].
  - refine (keeps_step _ _ _ _ _ _ _ _ _ _ _ IH); [by apply insert_subseteq|done|done|].
    intros M h HM. apply path_call. eapply lookup_weaken; [|exact HM]. apply lookup_insert_eq.
  - refine (keeps_step _ _ _ _ _ _ _ _ _ _ _ IH); try done. intros M h _. apply path_full.
  - refine (keeps_step _ _ _ _ _ _ _ _ _ _ _ IH); try done. intros M h' _. by apply path_link.
  - refine (keeps_step _ _ _ _ _ _ _ _ _ _ _ IH); try (by destruct b).
    intros M h' _. by apply path_cancel.
  - by eapply keeps_await.
  - by eapply keeps_spawn.
  - destruct (destroy_frame_sub c l) as (Ho & Hf & Hs).
    refine (keeps_step _ _ _ _ _ _ _ _ _ _ _ IH); [by rewrite Ho|done|done|].
    intros M h _. apply path_destroy.
  - refine (keeps_step _ _ _ _ _ _ _ _ _ _ _ IH); try done. intros M h _. apply path_close.
Qed.

(** A completion resumes a coroutine at the point where it waits. *)
Lemma completes_follows c l tr l' : completes c l tr l' -> forall tr0,
  follows l tr0 -> follows l' (tr0 ++ tr) /\ l_ops l ⊆ l_ops l'.
Proof.
  intros [f k op tr1 l1 Hh Hs Hop Hr|]; intros tr0 HF; [|by rewrite app_nil_r].
  set (tr1' := tr0 ++ [Resumed f op (cqe_res c)]).
  assert (Hin : forall g q, Started g q ∈ tr1' -> Started g q ∈ tr0).
  { intros g q. unfold tr1'. rewrite elem_of_app. by intros [?|?%list_elem_of_singleton]. }
  assert (Hhist : forall g, history_of g tr1' =
    history_of g tr0 ++ if decide (f = g) then [(op, cqe_res c)] else []).
  { intros g. unfold tr1'. rewrite history_app. f_equal. cbn. by destruct (decide (f = g)). }
  assert (Hat : forall q, Started f q ∈ tr0 -> at_point (l_ops l) q tr1' f (k (cqe_res c))).
  { intros q Hq M HM h Hp. rewrite Hhist, decide_True, <- app_assoc by done.
    apply (follows_suspended _ _ HF f q _ k Hq Hs M HM). cbn.
    constructor; [|by eapply lookup_weaken|done]. apply negb_true_iff, Z.eqb_neq.
    by apply (follows_valid _ _ HF f _ k). }
  pose proof (follows_frames _ _ HF f ltac:(by rewrite Hs)) as Hlt.
  destruct (runs_keeps _ _ _ _ _ Hr tr1') as (H1 & H2 & _).
  - destruct HF as [H1 H2 H3 H4 H5 H7 H6]. split; cbn; try (by eauto).
    + intros g Hg. rewrite Hhist, H3, decide_False by lia. done.
    + intros g [s [_ Hg]%lookup_delete_Some]. apply H4. by eexists.
    + intros g q id k' Hg [Hne Hk]%lookup_delete_Some M HM h Hp.
      rewrite Hhist, decide_False, app_nil_r by done. by apply (H5 g q id k' (Hin _ _ Hg) Hk M HM).
    + intros g id k' [_ Hk]%lookup_delete_Some. by eapply H7.
    + intros g q Hg. rewrite Hhist. destruct (decide (f = g)) as [<-|]; [|rewrite app_nil_r; eauto].
      specialize (Hat q (Hin _ _ Hg) _ (reflexivity _) [] (path_nil _ _)).
      by rewrite app_nil_r, Hhist, decide_True in Hat.
  - done.
  - intros q Hq. by apply Hat, Hin.
  - unfold tr1' in H1. by rewrite <- app_assoc in H1.
Qed.

Lemma loops_follows l cs tr l' : loops l cs tr l' -> forall tr0,
  follows l tr0 -> follows l' (tr0 ++ tr).
Proof.
  induction 1 as [l|l1 c cs tr1 l2 tr2 l3 Hc _ IH]; intros tr0 HF; [by rewrite app_nil_r|].
  destruct (completes_follows c l1 tr1 l2 Hc tr0 HF) as [HF1 _].
  specialize (IH _ HF1). by rewrite <- app_assoc in IH.
Qed.

Lemma new_follows : follows new_loop [].
Proof. split; try done; intros g *; try by intros ?%elem_of_nil. by intros []. Qed.

Lemma begins_follows p tr l : begins p new_loop tr l -> follows l tr.
Proof.
  intros [tr1 l1 Hr]. destruct (follows_start new_loop [] p new_follows) as [HF Hat]. cbn in *.
  destruct (runs_keeps _ _ _ _ _ Hr _ HF) as (H & _); [cbn; lia| |done].
  intros q Hq. apply list_elem_of_singleton in Hq. injection Hq as ->. exact Hat.
Qed.

(** Coroutines on the loop do not disturb each other. *)
Lemma loop_coroutines_follow p tr l cs tr' l' :
  begins p new_loop tr l -> loops l cs tr' l' ->
  forall g q, Started g q ∈ tr ++ tr' -> path (l_ops l') q (history_of g (tr ++ tr')).
Proof.
  intros Hb Hl g q. apply follows_path. by eapply loops_follows, begins_follows.
Qed.

Section Queue.
Context {R : Type} `{!LibUring R} `{!LibUringSpec R}.
Context {T : Type} `{!CompleterTable T} `{!CompleterTableSpec T}.
Context {allocator : Allocator}.

(** C4: Coroutines on the queue do not disturb each other: whatever disciplined
    coroutines do and whatever the kernel completes in whatever order, each coroutine
    ever started awaits the operations of its own program, one after the other, and
    is resumed with the results of exactly those. *)
Theorem coroutines_follow size u (q : IoQueue R T) n m p :
  0 <= size < 196613 -> make size u = Ok (Some q) ->
  Z.of_nat n <= 2 ^ 63 -> Z.of_nat m <= size + 1 -> wf p (mkBudget n m ∅ ∅) None ->
  exists w tr l, start p (new_world q) = Ok w /\ begins p new_loop tr l /\
    forall fuel, exists w' tr' l',
      iterate fuel w = Ok w' /\ loops l (consumed fuel w) tr' l' /\ implements w' l' /\
      forall g p', Started g p' ∈ tr ++ tr' -> path (l_ops l') p' (history_of g (tr ++ tr')).
Proof.
  intros Hsize Hmake Hn Hm Hwf.
  destruct (start_refines size u q n m p Hsize Hmake Hn Hm Hwf) as (w & B & σ & tr & l & Hs & HI & Hb & Hl).
  exists w, tr, l. split; [done|]. split; [done|]. intros fuel.
  destruct (iterate_refines fuel w B σ n l HI Hl) as (w' & tr' & l' & H1 & H2 & H3 & _).
  exists w', tr', l'. split; [done|]. split; [done|]. split; [done|]. by eapply loop_coroutines_follow.
Qed.

End Queue.

(** ** The programs that are started *)

(** Every program that [p] starts satisfies [P], and so do those they start. *)
Fixpoint starts (P : prog -> Prop) (p : prog) : Prop :=
  match p with
  | Ret => True
  | Call _ k => forall h, starts P (k h)
  | LinkTimeout _ _ _ k => forall h, starts P (k h)
  | Cancel _ _ k => forall h, starts P (k h)
  | Await _ k => forall r, starts P (k r)
  | Spawn p k => P p /\ starts P p /\ forall c, starts P (k c)
  | Destroy _ k | CloseFd _ k => starts P k
  end.

Definition all_start (P : prog -> Prop) (l : loop) : Prop :=
  forall g id k, l_suspended l !! g = Some (id, k) -> forall r, starts P (k r).

Lemma all_start_sub P l l' :
  all_start P l -> (forall g s, l_suspended l' !! g = Some s -> l_suspended l !! g = Some s) ->
  all_start P l'.
Proof. intros H Hs g id k Hg. by eapply H, Hs. Qed.

Lemma runs_starts P f p l tr l' :
  runs f p l tr l' -> starts P p -> all_start P l ->
  all_start P l' /\ forall g q, Started g q ∈ tr -> P q.
Proof.
  induction 1 as [f l|f c k id l tr l' _ Hid _ IH|f c k l tr l' _ IH|f ts fl op k h l tr l' Hh _ IH
    |f op b k h l tr l' Hh _ IH|f op k c l Hv Hc Hn|f p k l tr1 l1 tr2 l2 _ IHp _ IHk|f c k l tr l' _ IH
    |f fd k l tr l' _ IH];
    cbn [starts]; intros Hp Hl; try (by apply IH).
  - split; [done|]. by intros g q ?%elem_of_nil.
  - apply IH; [done|]. by destruct b.
  - split; [|by intros g q ?%elem_of_nil].
    intros g id k'. cbn. intros [[_ [= _ <-]]|[_ Hg]]%lookup_insert_Some; [done|by eapply Hl].
  - destruct Hp as (HP & Hp & Hk). destruct (IHp Hp Hl) as [Hl1 H1].
    destruct (IHk (Hk _) Hl1) as [Hl2 H2]. split; [done|]. intros g q.
    rewrite elem_of_cons, elem_of_app. intros [[= _ ->]|[?|?]]; eauto.
  - apply IH; [done|]. by eapply all_start_sub, destroy_frame_sub.
Qed.

Lemma loops_starts P l cs tr l' :
  loops l cs tr l' -> all_start P l -> all_start P l' /\ forall g q, Started g q ∈ tr -> P q.
Proof.
  induction 1 as [l|l1 c cs tr1 l2 tr2 l3 Hc _ IH]; intros Hl.
  { split; [done|]. by intros g q ?%elem_of_nil. }
  assert (all_start P l2 /\ forall g q, Started g q ∈ tr1 -> P q) as [Hl2 H1].
  { destruct Hc as [f k op tr1 l2 _ Hs _ Hr|_]; [|by split; [|intros g q ?%elem_of_nil]].
    destruct (runs_starts P _ _ _ _ _ Hr) as [H1 H2]; [by eapply Hl| |].
    - eapply all_start_sub; [exact Hl|]. cbn. by intros g s [_ ?]%lookup_delete_Some.
    - split; [done|]. intros g q [?|Hin]%elem_of_cons; [done|by eapply H2]. }
  destruct (IH Hl2) as [Hl3 H2]. split; [done|]. intros g q [?|?]%elem_of_app; eauto.
Qed.

(** All programs of an execution: the first one, and what it starts. *)
Lemma started_programs P p tr l cs tr' l' :
  begins p new_loop tr l -> loops l cs tr' l' -> P p -> starts P p ->
  forall g q, Started g q ∈ tr ++ tr' -> P q.
Proof.
  intros [tr1 l1 Hr] Hl HP Hp.
  destruct (runs_starts P _ _ _ _ _ Hr Hp) as [Hl1 H1]; [done|].
  destruct (loops_starts P _ _ _ _ Hl Hl1) as [_ H2]. intros g q.
  rewrite elem_of_app, elem_of_cons. intros [[[= _ ->]|?]|?]; eauto.
Qed.

(** ** Programs that check their handles *)

(** Without the checks a program allows the same histories and more. *)
Lemma path_ret_inv M h : path M Ret h -> h = [].
Proof. by inversion 1. Qed.

Lemma path_checked M k h op :
  (forall h, path M (guard k) h -> path M k h) ->
  path M (if valid op then guard k else Ret) h -> path M k h.
Proof. intros IH. destruct (valid op); [apply IH|]. intros ->%path_ret_inv. constructor. Qed.

Lemma path_guard M p : forall h, path M (guard p) h -> path M p h.
Proof.
  induction p as [|c k IH|ts fl op k IH|op b k IH|op k IH|p IHp k IH|c k IH|fd k IH]; cbn [guard];
    intros h Hp; [done|inversion Hp; subst; eauto using path_checked..].
Qed.

Lemma starts_guard P p : starts P p -> starts (fun q => exists q', q = guard q' /\ P q') (guard p).
Proof.
  induction p as [|c k IH|ts fl op k IH|op b k IH|op k IH|p IHp k IH|c k IH|fd k IH]; cbn; intros H; auto.
  1-3: intros h; destruct (valid h); [by apply IH|done].
  destruct H as (HP & Hp & Hk). split_and!; [by exists p|by apply IHp|]. intros c. by apply IH.
Qed.

End Histories.
