(* ===== verification/Cancels.v ===== *)
(** * Cancelling with the handler: nobody is resumed

    On the event loop that the queue implements, a coroutine whose operation was
    cancelled with its handler stays where it is, whatever runs afterwards; on the queue
    it is one that is suspended while no completer is its own. *)

From Stdlib Require Import ZArith Lia.
From stdpp Require Import base numbers list gmap option.
From S2P Require Import Prelude Interfaces Uring Queue QueueRing QueueSafety QueueRun EventLoop Histories.

Local Open Scope Z_scope.

Module Cancels.
Import IoQueue QueueSafety QueueRun EventLoop Histories.

(** No completion resumes [g]. *)
Definition deaf (g : Z) (l : loop) : Prop :=
  g < l_fresh l /\ forall id, l_handlers l !! id <> Some g.

(** An operation resumes whoever awaits it, and nobody who was cancelled. *)
Record tidy (l : loop) : Prop := {
  tidy_handlers id f : l_handlers l !! id = Some f ->
    f < l_fresh l /\ exists k, l_suspended l !! f = Some (id, k);
  tidy_cancelled g : g ∈ l_cancelled l -> deaf g l
}.

(** What running some other coroutine means to a deaf one. *)
Record spares (g : Z) (l l' : loop) : Prop := {
  spares_deaf : deaf g l';
  spares_suspended : l_suspended l' !! g = l_suspended l !! g \/ l_suspended l' !! g = None;
  spares_cancelled : g ∈ l_cancelled l' <-> g ∈ l_cancelled l
}.

Lemma spares_refl g l : deaf g l -> spares g l l.
Proof. intros H. split; [done|by left|done]. Qed.

Lemma spares_trans g l1 l2 l3 : spares g l1 l2 -> spares g l2 l3 -> spares g l1 l3.
Proof.
  intros [H1 H2 H3] [H4 H5 H6]. split; [done| |by rewrite H6].
  destruct H5 as [->|?]; [done|by right].
Qed.

Lemma deaf_delete g id l : deaf g l -> forall id', delete id (l_handlers l) !! id' <> Some g.
Proof. by intros [_ Hd] id' [_ ?%Hd]%lookup_delete_Some. Qed.

(** A handler belongs to one operation. *)
Lemma handler_deleted id id' f l :
  tidy l -> l_handlers l !! id = Some f -> delete id (l_handlers l) !! id' <> Some f.
Proof.
  intros HT Hh [Hne Hh']%lookup_delete_Some.
  destruct (tidy_handlers l HT id f Hh) as (_ & k & Hk), (tidy_handlers l HT id' f Hh') as (_ & k' & Hk').
  congruence.
Qed.

(** ** What coroutines do *)

Lemma disable_tidy id l : tidy l -> tidy (disable id l).
Proof.
  intros HT. split; cbn.
  - intros id' f [_ Hh]%lookup_delete_Some. by apply tidy_handlers.
  - intros g [Hg|Hg]%elem_of_app.
    + destruct (l_handlers l !! id) as [f|] eqn:Hh; [|by apply elem_of_nil in Hg].
      apply list_elem_of_singleton in Hg as ->. split; [by apply (tidy_handlers l HT id f Hh)|].
      intros id'. by apply handler_deleted.
    + pose proof (tidy_cancelled l HT g Hg) as Hd. split; [apply Hd|by apply deaf_delete].
Qed.

Lemma disable_spares id g l : deaf g l -> spares g l (disable id l).
Proof.
  intros Hd. split; cbn; [|by left|].
  - split; [apply Hd|by apply deaf_delete].
  - rewrite elem_of_app. split; [|by right]. intros [Hg|Hg]; [|done].
    destruct (l_handlers l !! id) as [f|] eqn:Hh; [|by apply elem_of_nil in Hg].
    apply list_elem_of_singleton in Hg as ->. by apply Hd in Hh.
Qed.

Lemma suspend_tidy id f k l : tidy l -> deaf f l -> (f ∉ l_cancelled l) -> tidy (suspend id f k l).
Proof.
  intros HT [Hlt Hd] Hn. split; cbn.
  - intros id' f' [[<- <-]|[Hne Hh]]%lookup_insert_Some.
    + split; [done|]. exists k. apply lookup_insert_eq.
    + destruct (tidy_handlers l HT id' f' Hh) as (Hf & k' & Hk). split; [done|]. exists k'.
      rewrite lookup_insert_ne; [done|]. intros <-. by apply Hd in Hh.
  - intros g Hg. destruct (tidy_cancelled l HT g Hg) as [Hgl Hgd]. split; [done|].
    intros id'. cbn. intros [[_ <-]|[_ ?%Hgd]]%lookup_insert_Some; done.
Qed.

Lemma suspend_spares id f k g l : g <> f -> deaf g l -> spares g l (suspend id f k l).
Proof.
  intros Hne [Hlt Hd]. split; cbn; [|left; by rewrite lookup_insert_ne|done].
  split; [done|]. intros id'. cbn. by intros [[_ <-]|[_ ?%Hd]]%lookup_insert_Some.
Qed.

(** A coroutine leaves its suspension, to run or for good. *)
Lemma resume_tidy id f k l : tidy l -> l_suspended l !! f = Some (id, k) -> tidy (resume id f l).
Proof.
  intros HT Hf. split; cbn.
  - intros id' f' [Hne Hh]%lookup_delete_Some. destruct (tidy_handlers l HT id' f' Hh) as (Hlt & k' & Hk).
    split; [done|]. exists k'. rewrite lookup_delete_ne; [done|congruence].
  - intros g Hg. pose proof (tidy_cancelled l HT g Hg) as Hd. split; [apply Hd|by apply deaf_delete].
Qed.

Lemma resume_spares id f g l : deaf g l -> spares g l (resume id f l).
Proof.
  intros Hd. split; cbn; [|rewrite lookup_delete; case_decide; auto|done].
  split; [apply Hd|by apply deaf_delete].
Qed.

Lemma destroy_tidy c l : tidy l -> tidy (destroy_frame c l).
Proof.
  intros HT. unfold destroy_frame. destruct (l_suspended l !! c) as [[id k]|] eqn:Hc; [|done].
  by eapply resume_tidy.
Qed.

Lemma destroy_spares c g l : deaf g l -> spares g l (destroy_frame c l).
Proof.
  intros Hd. unfold destroy_frame. destruct (l_suspended l !! c) as [[id k]|]; [|by apply spares_refl].
  by apply resume_spares.
Qed.

(** A change that leaves the coroutines alone. *)
Lemma same_tidy l l' :
  l_handlers l' = l_handlers l -> l_suspended l' = l_suspended l -> l_cancelled l' = l_cancelled l ->
  l_fresh l <= l_fresh l' -> tidy l -> tidy l' /\ forall g, deaf g l -> spares g l l'.
Proof.
  intros H1 H2 H3 H4 [HT1 HT2]. unfold deaf in *. split.
  - split; rewrite ?H1, ?H2, ?H3.
    + intros id f Hh. destruct (HT1 id f Hh) as [? ?]. split; [lia|done].
    + intros g Hg. destruct (HT2 g Hg) as [? ?]. split; [lia|by rewrite H1].
  - intros g [Hg Hd]. split; rewrite ?H2, ?H3; [|by left|done]. split; [lia|by rewrite H1].
Qed.

(** A run of frame [f], which is deaf while it runs. *)
Definition goes_on (f : Z) (l : loop) (tr : list event) (l' : loop) : Prop :=
  tidy l -> deaf f l -> (f ∉ l_cancelled l) ->
  tidy l' /\ (forall g, history_of g tr = []) /\ forall g, g <> f -> deaf g l -> spares g l l'.

Lemma goes_on_step f l l1 tr l' :
  (tidy l -> tidy l1) -> (forall g, tidy l -> deaf g l -> spares g l l1) ->
  goes_on f l1 tr l' -> goes_on f l tr l'.
Proof.
  intros H1 H2 H HT Hd Hn. pose proof (H2 f HT Hd) as [Hd1 _ Hc1]. rewrite <- Hc1 in Hn.
  destruct (H (H1 HT) Hd1 Hn) as (H3 & H4 & H5). split; [done|]. split; [done|].
  intros g Hg Hgd. eapply spares_trans; [by apply H2|]. apply H5; [done|by apply H2].
Qed.

Lemma goes_on_same f l l1 tr l' :
  l_handlers l1 = l_handlers l -> l_suspended l1 = l_suspended l -> l_cancelled l1 = l_cancelled l ->
  l_fresh l <= l_fresh l1 -> goes_on f l1 tr l' -> goes_on f l tr l'.
Proof.
  intros H1 H2 H3 H4. apply goes_on_step; [intros HT|intros g HT]; by apply (same_tidy l l1).
Qed.

Lemma goes_on_spawn f p l tr1 l1 tr2 l2 :
  goes_on (l_fresh l) (next_frame l) tr1 l1 -> goes_on f l1 tr2 l2 ->
  goes_on f l (Started (l_fresh l) p :: tr1 ++ tr2) l2.
Proof.
  intros IHp IHk HT Hd Hn. destruct (same_tidy l (next_frame l)) as [HT1 Hs]; try done; [cbn; lia|].
  destruct (IHp HT1) as (HT2 & Hh1 & Hs1).
  - split; [cbn; lia|]. intros id Hh. cbn in Hh. apply (tidy_handlers l HT) in Hh as [? _]. lia.
  - cbn. intros Hc. apply (tidy_cancelled l HT) in Hc as [? _]. lia.
  - assert (Hsp : forall g, deaf g l -> spares g l l1).
    { intros g Hg. eapply spares_trans; [by apply Hs|]. apply Hs1; [|by apply Hs].
      destruct Hg as [? _]. lia. }
    destruct (IHk HT2) as (HT3 & Hh2 & Hs2); [by apply Hsp| |].
    { by rewrite (spares_cancelled _ _ _ (Hsp f Hd)). }
    split; [done|]. split.
    + intros g. change (history_of g (Started (l_fresh l) p :: tr1 ++ tr2)) with (history_of g (tr1 ++ tr2)).
      by rewrite history_app, Hh1, Hh2.
    + intros g Hne Hg. eapply spares_trans; [by apply Hsp|]. apply Hs2; [done|by apply Hsp].
Qed.

Lemma runs_goes_on f p l tr l' : runs f p l tr l' -> goes_on f l tr l'.
Proof.
  induction 1 as [f l|f c k id l tr l' _ _ _ IH|f c k l tr l' _ IH|f ts fl op k h l tr l' _ _ IH
    |f op b k h l tr l' _ _ IH|f op k c l _ _ _|f p k l tr1 l1 tr2 l2 _ IHp _ IHk|f c k l tr l' _ IH
    |f fd k l tr l' _ IH]; try done.
  - intros HT _ _. split; [done|]. split; [done|]. intros g _ Hg. by apply spares_refl.
  - by refine (goes_on_same _ _ _ _ _ _ _ _ _ IH).
  - destruct b; [|done]. refine (goes_on_step _ _ _ _ _ _ _ IH); [apply disable_tidy|].
    intros g _. apply disable_spares.
  - intros HT Hd Hn. split; [by apply suspend_tidy|]. split; [done|]. intros g Hne Hg. by apply suspend_spares.
  - by eapply goes_on_spawn.
  - refine (goes_on_step _ _ _ _ _ _ _ IH); [apply destroy_tidy|]. intros g _. apply destroy_spares.
  - by refine (goes_on_same _ _ _ _ _ _ _ _ _ IH).
Qed.

(** ** Completions *)

Lemma completes_spares c l tr l' : completes c l tr l' -> tidy l ->
  tidy l' /\ forall g, deaf g l -> spares g l l' /\ history_of g tr = [].
Proof.
  intros [f k op tr1 l1 Hh Hs Hop Hr|] HT; [|split; [done|]; intros g Hg; by split; [apply spares_refl|]].
  assert (deaf f (resume (cqe_user_data c) f l)) as Hf.
  { split; [by apply (tidy_handlers l HT (cqe_user_data c) f)|]. intros id. by apply handler_deleted. }
  destruct (runs_goes_on _ _ _ _ _ Hr) as (HT' & Htr & Hsp); [by eapply resume_tidy|done| |].
  { cbn. intros Hc. apply (tidy_cancelled l HT) in Hc as [_ Hd]. by apply Hd in Hh. }
  split; [done|]. intros g Hg. assert (f <> g) as Hne by (intros ->; by apply Hg in Hh).
  pose proof (resume_spares (cqe_user_data c) f g l Hg) as Hg1. split.
  - eapply spares_trans; [exact Hg1|]. apply Hsp; [done|apply Hg1].
  - cbn. rewrite decide_False by done. apply Htr.
Qed.

Lemma loops_spares l cs tr l' : loops l cs tr l' -> tidy l ->
  tidy l' /\ forall g, deaf g l -> spares g l l' /\ history_of g tr = [].
Proof.
  induction 1 as [l|l1 c cs tr1 l2 tr2 l3 Hc _ IH]; intros HT.
  { split; [done|]. intros g Hg. by split; [apply spares_refl|]. }
  destruct (completes_spares _ _ _ _ Hc HT) as [HT2 H2]. destruct (IH HT2) as [HT3 H3]. split; [done|].
  intros g Hg. destruct (H2 g Hg) as [Hs1 Hh1]. destruct (H3 g (spares_deaf _ _ _ Hs1)) as [Hs2 Hh2].
  split; [by eapply spares_trans|]. by rewrite history_app, Hh1, Hh2.
Qed.

Lemma begins_tidy p tr l : begins p new_loop tr l -> tidy l.
Proof.
  intros [tr1 l1 Hr]. assert (tidy (next_frame new_loop)) as HT.
  { split; cbn; [intros id f Hh; by rewrite lookup_empty in Hh|by intros g ?%elem_of_nil]. }
  destruct (runs_goes_on _ _ _ _ _ Hr HT) as [H _]; [|by intros ?%elem_of_nil|done].
  split; [done|]. intros id. cbn. by rewrite lookup_empty.
Qed.

(** ** On the queue *)

Section Queue.
Context {R : Type} `{!LibUring R} `{!LibUringSpec R}.
Context {T : Type} `{!CompleterTable T} `{!CompleterTableSpec T}.
Context {allocator : Allocator}.

(** No completer resumes the coroutine. *)
Definition unattended (g : Z) (w : World R T) : Prop := forall p, completers w !! p <> Some g.

(** What the loop's handlers are on the queue. *)
Lemma deaf_unattended g (w : World R T) l :
  implements w l -> (deaf g l <-> g < nextFrame w /\ unattended g w).
Proof.
  intros (B & σ & N & HI & Hr). unfold deaf, unattended. rewrite (repr_fresh _ _ _ Hr).
  pose proof (inv_table _ _ _ _ _ _ _ HI) as HT. split; intros [Hlt H]; (split; [done|]).
  - intros p Hp. destruct (inv_heap _ _ _ _ HT p g Hp) as (_ & [?|(id & Hid)]); [done|].
    apply (H id). rewrite (repr_handlers _ _ _ Hr). unfold handler. by rewrite Hid.
  - intros id. rewrite (repr_handlers _ _ _ Hr). unfold handler.
    destruct (σ !! id) as [p|]; [apply H|done].
Qed.

(** C26: [cancel(op, true)] disables the handler: whatever disciplined coroutines do,
    whenever one of them has cancelled the operation another one awaits, no completer
    is left for that one; and a coroutine without a completer is never resumed, however
    long the queue runs on and whatever the kernel reports, but stays suspended on its
    operation, as it is, until it is destroyed. *)
Theorem cancel_disables size u (q : IoQueue R T) n m p :
  0 <= size < 196613 -> make size u = Ok (Some q) ->
  Z.of_nat n <= 2 ^ 63 -> Z.of_nat m <= size + 1 -> wf p (mkBudget n m ∅ ∅) None ->
  exists w tr l, start p (new_world q) = Ok w /\ begins p new_loop tr l /\
    forall fuel, exists w1 tr1 l1,
      iterate fuel w = Ok w1 /\ loops l (consumed fuel w) tr1 l1 /\ implements w1 l1 /\
      (forall g, g ∈ l_cancelled l1 -> g < nextFrame w1 /\ unattended g w1) /\
      forall g, g < nextFrame w1 -> unattended g w1 -> forall more, exists w2 tr2 l2,
        iterate more w1 = Ok w2 /\ loops l1 (consumed more w1) tr2 l2 /\ implements w2 l2 /\
        history_of g tr2 = [] /\ unattended g w2 /\
        (frames w2 !! g ≫= suspension = frames w1 !! g ≫= suspension \/
         frames w2 !! g ≫= suspension = None).
Proof.
  intros Hsize Hmake Hn Hm Hwf.
  destruct (start_refines size u q n m p Hsize Hmake Hn Hm Hwf) as (w & B & σ & tr & l & Hs & HI & Hb & Hl).
  exists w, tr, l. split; [done|]. split; [done|]. intros fuel.
  destruct (iterate_refines fuel w B σ n l HI Hl) as (w1 & tr1 & l1 & H1 & H2 & H3 & _).
  exists w1, tr1, l1. split; [done|]. split; [done|]. split; [done|].
  destruct (loops_spares _ _ _ _ H2 (begins_tidy _ _ _ Hb)) as [HT1 _]. split.
  { intros g Hg. by apply (deaf_unattended g w1 l1 H3), (tidy_cancelled l1 HT1). }
  intros g Hlt Hg more. pose proof (proj2 (deaf_unattended g w1 l1 H3) (conj Hlt Hg)) as Hd.
  destruct H3 as (B1 & σ1 & N1 & HI1 & Hr1).
  destruct (iterate_refines more w1 B1 σ1 N1 l1 HI1 Hr1) as (w2 & tr2 & l2 & H4 & H5 & H6 & _).
  destruct (loops_spares _ _ _ _ H5 HT1) as [_ Hsp]. destruct (Hsp g Hd) as [[Hd2 Hs2 _] Hh].
  exists w2, tr2, l2. split; [done|]. split; [done|]. split; [done|]. split; [done|].
  split; [by apply (deaf_unattended g w2 l2 H6)|]. destruct H6 as (B2 & σ2 & N2 & _ & Hr2).
  by rewrite <- (repr_suspended _ _ _ Hr1), <- (repr_suspended _ _ _ Hr2).
Qed.

End Queue.
End Cancels.
