(* ===== verification/Stories.v ===== *)
(** * What led to a coroutine

    A callback is a coroutine of its own, started by the one before it.  The story of
    a coroutine has the results that led to its start, and then its own: whatever
    else runs on the loop, it is one that the first program alone prescribes. *)

From Stdlib Require Import ZArith Lia.
From stdpp Require Import base numbers list gmap option.
From S2P Require Import Prelude Interfaces Uring Queue QueueSafety Unchecked EventLoop Histories.

Local Open Scope Z_scope.

Module Stories.
Import IoQueue QueueSafety Unchecked EventLoop Histories.

(** ** Stories *)

(** The stories of the coroutines, and that of the one resumed last: it, or one that
    was started since, starts the next. *)
Record tale : Type := mkTale {
  told : gmap Z history;
  current : history
}.

Definition story_in (t : tale) (g : Z) : history := default [] (told t !! g).

Definition tell (t : tale) (e : event) : tale :=
  match e with
  | Started g _ => mkTale (<[g := current t]> (told t)) (current t)
  | Resumed g c r =>
      let h := story_in t g ++ [(c, r)] in
      mkTale (<[g := h]> (told t)) h
  end.

Definition tale_of (tr : list event) : tale := fold_left tell tr (mkTale ∅ []).

Definition story (g : Z) (tr : list event) : history := story_in (tale_of tr) g.

(** The stories a program allows: on the way it goes on as the program started, or as
    the one that started it. *)
Inductive lineage (M : gmap Z call) : prog -> history -> Prop :=
| lineage_nil p : lineage M p []
| lineage_call c k id h :
    M !! id = Some c -> lineage M (k (mkHandle true id)) h -> lineage M (Call c k) h
| lineage_full c k h : lineage M (k defaultHandle) h -> lineage M (Call c k) h
| lineage_link ts fl op k h' h :
    h' = op \/ h' = defaultHandle -> lineage M (k h') h -> lineage M (LinkTimeout ts fl op k) h
| lineage_cancel op b k h' h :
    h' = mkHandle true OpIdIgnore \/ h' = defaultHandle -> lineage M (k h') h ->
    lineage M (Cancel op b k) h
| lineage_await op k c r h :
    valid op = true -> M !! h_id op = Some c -> lineage M (k r) h ->
    lineage M (Await op k) ((c, r) :: h)
| lineage_child p k h : lineage M p h -> lineage M (Spawn p k) h
| lineage_parent p k c h : lineage M (k c) h -> lineage M (Spawn p k) h
| lineage_destroy c k h : lineage M k h -> lineage M (Destroy c k) h
| lineage_close fd k h : lineage M k h -> lineage M (CloseFd fd k) h.

#[local] Hint Constructors lineage : core.

Lemma lineage_mono M M' p h : lineage M p h -> M ⊆ M' -> lineage M' p h.
Proof. intros H HM. induction H; eauto using lookup_weaken. Qed.

Lemma tale_app tr1 tr2 : tale_of (tr1 ++ tr2) = fold_left tell tr2 (tale_of tr1).
Proof. apply fold_left_app. Qed.

Lemma story_started tr g q f :
  story f (tr ++ [Started g q]) = if decide (f = g) then current (tale_of tr) else story f tr.
Proof.
  unfold story. rewrite tale_app. unfold story_in. cbn. destruct (decide (f = g)) as [->|Hne].
  - by rewrite lookup_insert_eq.
  - by rewrite lookup_insert_ne.
Qed.

Lemma story_resumed tr g c r f :
  story f (tr ++ [Resumed g c r]) = story f tr ++ (if decide (f = g) then [(c, r)] else []).
Proof.
  unfold story. rewrite tale_app. unfold story_in. cbn. destruct (decide (f = g)) as [->|Hne].
  - by rewrite lookup_insert_eq.
  - by rewrite lookup_insert_ne, app_nil_r.
Qed.

(** Where coroutines only start, everybody's story stays as it is. *)
Lemma tale_starts n tr : starts_from n tr -> forall t,
  current (fold_left tell tr t) = current t /\
  forall f, f < n -> story_in (fold_left tell tr t) f = story_in t f.
Proof.
  induction 1 as [|e tr (g & q & -> & Hg) _ IH]; intros t; [done|]. cbn [fold_left].
  destruct (IH (tell t (Started g q))) as [Hc Hs]. split; [done|]. intros f Hf.
  rewrite Hs by done. unfold story_in. cbn. by rewrite lookup_insert_ne by lia.
Qed.

Lemma current_starts n tr0 tr :
  starts_from n tr -> current (tale_of (tr0 ++ tr)) = current (tale_of tr0).
Proof. intros H. rewrite tale_app. by apply (tale_starts n). Qed.

Lemma story_starts n tr0 tr f : starts_from n tr -> f < n -> story f (tr0 ++ tr) = story f tr0.
Proof. intros H. unfold story. rewrite tale_app. by apply (tale_starts n). Qed.

(** ** The stories of an execution *)

Section Tales.
Variable root : prog.

(** The coroutine with the story [s] goes on as [p]. *)
Definition leads (M : gmap Z call) (s : history) (p : prog) : Prop :=
  forall M', M ⊆ M' -> forall h, lineage M' p h -> lineage M' root (s ++ h).

Lemma leads_mono M M' s p : leads M s p -> M ⊆ M' -> leads M' s p.
Proof. intros H HM M2 HM2. apply H. by transitivity M'. Qed.

Lemma leads_lineage M s p : leads M s p -> lineage M root s.
Proof. intros H. specialize (H M (reflexivity _) [] (lineage_nil _ _)). by rewrite app_nil_r in H. Qed.

Record tells (l : loop) (tr : list event) : Prop := {
  tells_frames g : is_Some (l_suspended l !! g) -> g < l_fresh l;
  tells_valid g id k : l_suspended l !! g = Some (id, k) -> id <> OpIdInvalid;
  tells_suspended g id k : l_suspended l !! g = Some (id, k) ->
    leads (l_ops l) (story g tr) (Await (mkHandle true id) k);
  tells_lineage g : lineage (l_ops l) root (story g tr);
  tells_new g : l_fresh l <= g -> history_of g tr = [];
  tells_own g : history_of g tr `suffix_of` story g tr
}.

Lemma tells_change l l' tr :
  tells l tr -> l_ops l ⊆ l_ops l' -> l_fresh l <= l_fresh l' ->
  (forall g s, l_suspended l' !! g = Some s -> l_suspended l !! g = Some s) -> tells l' tr.
Proof.
  intros [H1 H2 H3 H4 H5 H6] Ho Hf Hs. split.
  - intros g [s Hg]. specialize (H1 g). rewrite (Hs g s Hg) in H1. specialize (H1 ltac:(by eexists)). lia.
  - intros g id k Hk. by eapply H2, Hs.
  - intros g id k Hk. eapply leads_mono; [by apply H3, Hs|done].
  - intros g. by apply (lineage_mono (l_ops l)).
  - intros g Hg. apply H5. lia.
  - done.
Qed.

(** A coroutine is started: its story is that of the one at work. *)
Lemma tells_start l tr p :
  tells l tr -> lineage (l_ops l) root (current (tale_of tr)) ->
  tells (next_frame l) (tr ++ [Started (l_fresh l) p]).
Proof.
  intros [H1 H2 H3 H4 H5 H6] Hc.
  assert (forall g, history_of g (tr ++ [Started (l_fresh l) p]) = history_of g tr) as Hh
    by (intros g; rewrite history_app; apply app_nil_r).
  split; cbn [next_frame l_suspended l_fresh l_ops].
  - intros g Hg. specialize (H1 g Hg). lia.
  - done.
  - intros g id k Hg. specialize (H1 g ltac:(by eexists)).
    rewrite story_started, decide_False by lia. by apply H3.
  - intros g. rewrite story_started. by case_decide.
  - intros g Hg. rewrite Hh. apply H5. lia.
  - intros g. rewrite Hh, story_started. case_decide as Hg; [|done].
    rewrite H5 by lia. by apply suffix_nil.
Qed.

(** A run of [f] as [p] by the coroutine whose story is told. *)
Definition keeps_telling (f : Z) (p : prog) (l : loop) (tr : list event) (l' : loop) : Prop :=
  forall tr0, tells l tr0 -> f < l_fresh l -> story f tr0 = current (tale_of tr0) ->
    leads (l_ops l) (current (tale_of tr0)) p ->
    tells l' (tr0 ++ tr) /\ l_ops l ⊆ l_ops l' /\ l_fresh l <= l_fresh l' /\
    starts_from (l_fresh l) tr.

Lemma telling_step f p p' l l1 tr l' :
  l_ops l ⊆ l_ops l1 -> l_fresh l1 = l_fresh l ->
  (forall g s, l_suspended l1 !! g = Some s -> l_suspended l !! g = Some s) ->
  (forall M h, l_ops l1 ⊆ M -> lineage M p' h -> lineage M p h) ->
  keeps_telling f p' l1 tr l' -> keeps_telling f p l tr l'.
Proof.
  intros Ho Hf Hs Hp H tr0 HT Hlt Hst Hl.
  destruct (H tr0) as (H1 & H2 & H3 & H4).
  - eapply tells_change; [exact HT|done|lia|exact Hs].
  - lia.
  - done.
  - intros M HM h Hh. apply Hl; [by transitivity (l_ops l1)|by apply Hp].
  - rewrite Hf in H3, H4. split_and!; try done. by transitivity (l_ops l1).
Qed.

Lemma telling_await f op k c l :
  valid op = true -> l_ops l !! h_id op = Some c ->
  keeps_telling f (Await op k) l [] (suspend (h_id op) f k l).
Proof.
  intros Hv Hc tr0 [H1 H2 H3 H4 H5 H6] Hf Hst Hl. rewrite app_nil_r.
  split_and!; [|done|done|constructor]. split; try done; cbn.
  - intros g [<-|Hg]%lookup_insert_is_Some'; [done|by apply H1].
  - intros g id k' [[<- [= <- <-]]|[Hne Hk]]%lookup_insert_Some; [|by eapply H2].
    by apply andb_true_iff in Hv as [_ Hv%negb_true_iff%Z.eqb_neq].
  - intros g id k' [[<- [= <- <-]]|[Hne Hk]]%lookup_insert_Some; [|by apply H3].
    by rewrite Hst, <- (valid_handle op Hv).
Qed.

Lemma telling_spawn f p k l tr1 l1 tr2 l2 :
  keeps_telling (l_fresh l) p (next_frame l) tr1 l1 -> keeps_telling f (k (l_fresh l)) l1 tr2 l2 ->
  keeps_telling f (Spawn p k) l (Started (l_fresh l) p :: tr1 ++ tr2) l2.
Proof.
  intros IHp IHk tr0 HT Hf Hst Hl.
  assert (current (tale_of (tr0 ++ [Started (l_fresh l) p])) = current (tale_of tr0)) as Hc
    by by rewrite tale_app.
  destruct (IHp (tr0 ++ [Started (l_fresh l) p])) as (H1 & H2 & H3 & H4).
  - apply tells_start; [done|by eapply leads_lineage].
  - cbn. lia.
  - by rewrite story_started, decide_True, Hc.
  - rewrite Hc. intros M HM h Hh. apply Hl; [done|]. by apply lineage_child.
  - cbn in H2, H3, H4. rewrite <- app_assoc in H1. cbn [app] in H1.
    assert (starts_from (l_fresh l) (Started (l_fresh l) p :: tr1)) as Hs1.
    { constructor; [by exists (l_fresh l), p|]. eapply starts_from_mono; [exact H4|lia]. }
    pose proof (current_starts _ tr0 _ Hs1) as Hc1.
    destruct (IHk (tr0 ++ Started (l_fresh l) p :: tr1) H1) as (H5 & H6 & H7 & H8).
    + lia.
    + by rewrite Hc1, (story_starts _ _ _ _ Hs1).
    + rewrite Hc1. intros M HM h Hh. apply Hl; [by transitivity (l_ops l1)|]. by eapply lineage_parent.
    + rewrite <- app_assoc in H5. cbn [app] in H5. split_and!; [done|by transitivity (l_ops l1)|lia|].
      change (Started (l_fresh l) p :: tr1 ++ tr2) with ((Started (l_fresh l) p :: tr1) ++ tr2).
      apply Forall_app. split; [done|]. eapply starts_from_mono; [exact H8|lia].
Qed.

Lemma runs_telling f p l tr l' : runs f p l tr l' -> keeps_telling f p l tr l'.
Proof.
  induction 1 as [f l|f c k id l tr l' _ Hid _ IH|f c k l tr l' _ IH|f ts fl op k h l tr l' Hh _ IH
    |f op b k h l tr l' Hh _ IH|f op k c l Hv Hc Hn|f p k l tr1 l1 tr2 l2 _ IHp _ IHk|f c k l tr l' _ IH
    |f fd k l tr l' _ IH].
  - intros tr0 HT _ _ _. rewrite app_nil_r. by split_and!; [| | |constructor].
  - refine (telling_step _ _ _ _ _ _ _ _ _ _ _ IH); [by apply insert_subseteq|done|done|].
    intros M h HM. apply lineage_call. eapply lookup_weaken; [|exact HM]. apply lookup_insert_eq.
  - refine (telling_step _ _ _ _ _ _ _ _ _ _ _ IH); try done. intros M h _. apply lineage_full.
  - refine (telling_step _ _ _ _ _ _ _ _ _ _ _ IH); try done. intros M h' _. by apply lineage_link.
  - refine (telling_step _ _ _ _ _ _ _ _ _ _ _ IH); try (by destruct b).
    intros M h' _. by apply lineage_cancel.
  - by eapply telling_await.
  - by eapply telling_spawn.
  - destruct (destroy_frame_sub c l) as (Ho & Hf & Hs).
    refine (telling_step _ _ _ _ _ _ _ _ _ _ _ IH); [by rewrite Ho|done|done|].
    intros M h _. apply lineage_destroy.
  - refine (telling_step _ _ _ _ _ _ _ _ _ _ _ IH); try done. intros M h _. apply lineage_close.
Qed.

(** A coroutine is resumed. *)
Lemma tells_resumed l tr f id k op r :
  tells l tr -> l_suspended l !! f = Some (id, k) -> l_ops l !! id = Some op ->
  tells (resume id f l) (tr ++ [Resumed f op r]) /\
  leads (l_ops l) (story f tr ++ [(op, r)]) (k r).
Proof.
  intros [H1 H2 H3 H4 H5 H6] Hs Hop.
  assert (leads (l_ops l) (story f tr ++ [(op, r)]) (k r)) as Hl.
  { intros M HM h Hh. rewrite <- app_assoc. apply (H3 f id k Hs M HM). cbn.
    constructor; [|by eapply lookup_weaken|done]. apply negb_true_iff, Z.eqb_neq. by eapply H2. }
  split; [|done].
  assert (Hhist : forall g, history_of g (tr ++ [Resumed f op r]) =
    history_of g tr ++ if decide (g = f) then [(op, r)] else []).
  { intros g. rewrite history_app. f_equal. cbn. by repeat case_decide. }
  split; cbn.
  - intros g [s [_ Hg]%lookup_delete_Some]. apply H1. by eexists.
  - intros g id' k' [_ Hk]%lookup_delete_Some. by eapply H2.
  - intros g id' k' [Hne Hk]%lookup_delete_Some.
    rewrite story_resumed, decide_False, app_nil_r by done. by apply H3.
  - intros g. rewrite story_resumed. case_decide as Hg; [subst|rewrite app_nil_r; done].
    by eapply leads_lineage.
  - intros g Hg. specialize (H1 f ltac:(by rewrite Hs)). rewrite Hhist, H5, decide_False by lia. done.
  - intros g. rewrite Hhist, story_resumed. by apply suffix_app.
Qed.

Lemma completes_tells c l tr l' : completes c l tr l' -> forall tr0,
  tells l tr0 -> tells l' (tr0 ++ tr) /\ l_ops l ⊆ l_ops l'.
Proof.
  intros [f k op tr1 l1 Hh Hs Hop Hr|]; intros tr0 HT; [|by rewrite app_nil_r].
  destruct (tells_resumed l tr0 f _ k op (cqe_res c) HT Hs Hop) as [HT1 Hl].
  assert (current (tale_of (tr0 ++ [Resumed f op (cqe_res c)])) = story f tr0 ++ [(op, cqe_res c)]) as Hc
    by by rewrite tale_app.
  destruct (runs_telling _ _ _ _ _ Hr _ HT1) as (H1 & H2 & _).
  - apply (tells_frames _ _ HT f). by eexists.
  - by rewrite story_resumed, decide_True, Hc.
  - by rewrite Hc.
  - split; [|done]. by rewrite <- app_assoc in H1.
Qed.

Lemma loops_tells l cs tr l' : loops l cs tr l' -> forall tr0,
  tells l tr0 -> tells l' (tr0 ++ tr).
Proof.
  induction 1 as [l|l1 c cs tr1 l2 tr2 l3 Hc _ IH]; intros tr0 HT; [by rewrite app_nil_r|].
  destruct (completes_tells c l1 tr1 l2 Hc tr0 HT) as [HT1 _].
  specialize (IH _ HT1). by rewrite <- app_assoc in IH.
Qed.

Lemma new_tells : tells new_loop [].
Proof. split; try done. intros g []. done. Qed.

Lemma begins_tells tr l : begins root new_loop tr l -> tells l tr.
Proof.
  intros [tr1 l1 Hr].
  assert (tells (next_frame new_loop) ([] ++ [Started (l_fresh new_loop) root])) as HT
    by (apply tells_start; [apply new_tells|constructor]).
  destruct (runs_telling _ _ _ _ _ Hr _ HT) as [H _]; [by cbn|by rewrite story_started| |done].
  by intros M _ h Hh.
Qed.

End Tales.

(** Every coroutine's story is one of the first program, and ends with what the
    coroutine itself awaited. *)
Lemma loop_stories p tr l cs tr' l' g :
  begins p new_loop tr l -> loops l cs tr' l' ->
  lineage (l_ops l') p (story g (tr ++ tr')) /\
  history_of g (tr ++ tr') `suffix_of` story g (tr ++ tr').
Proof.
  intros Hb Hl. pose proof (loops_tells _ _ _ _ _ Hl _ (begins_tells _ _ _ Hb)) as HT.
  split; [apply HT|]. by eapply tells_own.
Qed.

(** ** Programs that check their handles *)

Lemma lineage_ret_inv M h : lineage M Ret h -> h = [].
Proof. by inversion 1. Qed.

Lemma lineage_checked M k h op :
  (forall h, lineage M (guard k) h -> lineage M k h) ->
  lineage M (if valid op then guard k else Ret) h -> lineage M k h.
Proof. intros IH. destruct (valid op); [apply IH|]. intros ->%lineage_ret_inv. constructor. Qed.

Lemma lineage_guard M p : forall h, lineage M (guard p) h -> lineage M p h.
Proof.
  induction p as [|c k IH|ts fl op k IH|op b k IH|op k IH|p IHp k IH|c k IH|fd k IH]; cbn [guard];
    intros h Hp; [done|inversion Hp; subst; eauto using lineage_checked..].
Qed.

End Stories.
