(* ===== verification/Servers.v ===== *)
(** * The example servers (examples/echo-tcp-coro.cpp, http-coro.cpp,
    echo-udp-coro.cpp) as coroutines on the queue

    Their loops are unrolled: a number of rounds is a parameter and the coroutine
    ends after it, so a statement for all numbers of rounds is one about every
    finite part of an execution.  Addresses of buffers are parameters. *)

From Stdlib Require Import ZArith Lia.
From stdpp Require Import base numbers list gmap option.
From S2P Require Import Prelude Interfaces Uring Queue QueueRing QueueSafety QueueRun Modest Unchecked.

Local Open Scope Z_scope.

Module Servers.
Import IoQueue QueueRing QueueSafety Modest Unchecked.

Definition ECANCELED : Z := 125.

Section Servers.
Context {R : Type} `{!LibUring R}.

(** ** [sendAll] of the TCP examples

    The continuation gets the error, 0 for none, and whether the connection was
    closed. *)
Fixpoint sendAll (rounds : nat) (socket buf size offset : Z) (k : Z -> bool -> prog) : prog :=
  match rounds with
  | O => Ret
  | S rounds =>
      if offset <? size then
        Call (Send socket (buf + offset) (size - offset)) (fun h => Await h (fun sentBytes =>
          if sentBytes <? 0 then k (- sentBytes) false
          else if sentBytes =? 0 then k 0 true
          else sendAll rounds socket buf size (u64 (offset + sentBytes)) k))
      else k 0 false
  end.

(** [co_await io.close(socket.release())] *)
Definition close_socket (socket : Z) : prog :=
  Call (Close socket) (fun h => Await h (fun _ => Ret)).

(** ** echo-tcp-coro.cpp *)

(** [echo]: [bye] and [bye_len] are the farewell, [ts] the timeout's timespec. *)
Fixpoint echo (rounds sends : nat) (socket buf bye bye_len ts : Z) : prog :=
  match rounds with
  | O => Ret
  | S rounds =>
      Call (Recv socket buf 1024) (fun h => limit_for ts h (fun receivedBytes =>
        if (receivedBytes <? 0) && (- receivedBytes =? ECANCELED) then
          sendAll sends socket bye bye_len 0 (fun _ _ => close_socket socket)
        else if receivedBytes <? 0 then close_socket socket
        else if receivedBytes =? 0 then close_socket socket
        else
          sendAll sends socket buf receivedBytes 0 (fun sendEc eof =>
            if negb (sendEc =? 0) || eof then close_socket socket
            else echo rounds sends socket buf bye bye_len ts)))
  end.

(** [serve] of both TCP examples; [session] is the coroutine of a connection. *)
Fixpoint serve (session : Z -> prog) (rounds : nat) (listenSocket : Z) : prog :=
  match rounds with
  | O => Ret
  | S rounds =>
      Call (Accept listenSocket 0 0) (fun h => Await h (fun fd =>
        if fd <? 0 then serve session rounds listenSocket
        else Spawn (session fd) (fun _ => serve session rounds listenSocket)))
  end.

(** ** http-coro.cpp

    Its [sendAll] is the same text as the other example's, but for the type of the
    buffer. *)
Definition http_sendAll := sendAll.

(** [startSession]: [response] and [len] are [getResponse()]. *)
Fixpoint startSession (rounds sends : nat) (buf response len socket : Z) : prog :=
  match rounds with
  | O => Ret
  | S rounds =>
      Call (Recv socket buf 1024) (fun h => Await h (fun receivedBytes =>
        if receivedBytes <? 0 then close_socket socket
        else if receivedBytes =? 0 then close_socket socket
        else
          http_sendAll sends socket response len 0 (fun sendEc eof =>
            if negb (sendEc =? 0) || eof then close_socket socket
            else startSession rounds sends buf response len socket)))
  end.

(** Their [serve]s. *)
Definition serve_echo (conns rounds sends : nat) (listenSocket buf bye bye_len ts : Z) : prog :=
  serve (fun fd => echo rounds sends fd buf bye bye_len ts) conns listenSocket.

Definition serve_http (conns rounds sends : nat) (listenSocket buf response len : Z) : prog :=
  serve (startSession rounds sends buf response len) conns listenSocket.

(** ** echo-udp-coro.cpp: [serve]; [msg] is the header in the task's frame. *)
Fixpoint serve_udp (rounds : nat) (socket msg : Z) : prog :=
  match rounds with
  | O => Ret
  | S rounds =>
      recvfrom socket msg 0 (fun receivedBytes =>
        if receivedBytes <? 0 then serve_udp rounds socket msg
        else sendto socket msg 0 (fun _ => serve_udp rounds socket msg))
  end.

End Servers.

(** ** What the servers ask of the queue

    [p] keeps the discipline when it may prepare [n] entries and wait [m] times at
    once, whatever else its coroutine has. *)
Definition affordable (n m : nat) (p : prog) : Prop :=
  forall b last, (n <= b_sqes b)%nat -> (m <= b_waits b)%nat -> wf (guard p) b last.

Lemma affordable_ret : affordable 0 0 Ret.
Proof. by intros b last. Qed.

Lemma affordable_mono n m n' m' p :
  affordable n m p -> (n <= n')%nat -> (m <= m')%nat -> affordable n' m' p.
Proof. intros H Hn Hm b last Hn' Hm'. apply H; lia. Qed.

Lemma affordable_await c k n m :
  (forall r, affordable n (S m) (k r)) ->
  affordable (S n) (S m) (Call c (fun h => Await h k)).
Proof.
  intros Hk b last Hn Hm. cbn [guard wf]. split; [lia|]. split; [|done].
  intros id Hid _. rewrite (valid_ok id Hid). cbn [wf]. split; [by apply valid_ok|].
  split; [cbn; set_solver|]. split; [cbn; lia|].
  intros r. apply Hk; cbn; lia.
Qed.

Lemma affordable_limit c ts k n m :
  (forall r, affordable n (S m) (k r)) ->
  affordable (S (S n)) (S m) (Call c (fun h => limit_for ts h k)).
Proof.
  intros Hk b last Hn Hm. cbn [guard wf limit_for limit]. split; [lia|]. split; [|done].
  intros id Hid _. rewrite (valid_ok id Hid). cbn [wf]. split; [cbn; lia|].
  split; [by apply valid_ok|]. split; [done|]. split; [|done]. rewrite (valid_ok id Hid).
  cbn [wf]. split; [by apply valid_ok|]. split; [cbn; set_solver|]. split; [cbn; lia|].
  intros r. apply Hk; cbn; lia.
Qed.

Lemma affordable_spawn p k n1 m1 n2 m2 :
  affordable n1 m1 p -> (forall c, affordable n2 m2 (k c)) ->
  affordable (n1 + n2) (m1 + m2) (Spawn p k).
Proof.
  intros Hp Hk b last Hn Hm. cbn [guard wf].
  exists (mkBudget n1 m1 ∅ ∅), (mkBudget n2 m2 (b_handles b) (b_children b)).
  split; [unfold splits; cbn; split_and!; first [lia|set_solver]|].
  split; [by apply Hp|]. intros c _. by apply Hk.
Qed.

Lemma affordable_sendAll sends socket buf size offset k n m :
  (forall e eof, affordable n (S m) (k e eof)) ->
  affordable (sends + n) (S m) (sendAll sends socket buf size offset k).
Proof.
  intros Hk. revert offset. induction sends as [|sends IH]; intros offset; cbn [sendAll Nat.add].
  - eapply affordable_mono; [apply affordable_ret|lia..].
  - destruct (offset <? size); [|eapply affordable_mono; [apply Hk|lia..]].
    apply affordable_await. intros r.
    destruct (r <? 0); [eapply affordable_mono; [apply Hk|lia..]|].
    destruct (r =? 0); [eapply affordable_mono; [apply Hk|lia..]|]. apply IH.
Qed.

Lemma affordable_close socket m : affordable 1 (S m) (close_socket socket).
Proof.
  apply affordable_await. intros r. eapply affordable_mono; [apply affordable_ret|lia..].
Qed.

(** What [rounds] rounds of a session cost when [recvs] entries are prepared to
    receive and each answer takes at most [sends] sends. *)
Definition session_cost (recvs rounds sends : nat) : nat := rounds * (recvs + sends + 1).

Lemma affordable_echo rounds sends socket buf bye bye_len ts :
  affordable (session_cost 2 rounds sends) 1 (echo rounds sends socket buf bye bye_len ts).
Proof.
  induction rounds as [|rounds IH]; [eapply affordable_mono; [apply affordable_ret|lia..]|].
  cbn [echo]. eapply affordable_mono.
  - apply (affordable_limit _ _ _ (sends + S (session_cost 2 rounds sends)) 0). intros r.
    assert (forall s, affordable (sends + S (session_cost 2 rounds sends)) 1 (close_socket s)) as Hc
      by (intros s; eapply affordable_mono; [apply (affordable_close _ 0)|lia..]).
    destruct ((r <? 0) && _).
    { apply affordable_sendAll. intros e eof. eapply affordable_mono; [apply (affordable_close _ 0)|lia..]. }
    destruct (r <? 0); [done|]. destruct (r =? 0); [done|].
    apply affordable_sendAll. intros e eof.
    destruct (negb _ || _); (eapply affordable_mono; [first [apply (affordable_close _ 0)|apply IH]|lia..]).
  - unfold session_cost. lia.
  - lia.
Qed.

Lemma affordable_startSession rounds sends buf response len socket :
  affordable (session_cost 1 rounds sends) 1 (startSession rounds sends buf response len socket).
Proof.
  induction rounds as [|rounds IH]; [eapply affordable_mono; [apply affordable_ret|lia..]|].
  cbn [startSession]. eapply affordable_mono.
  - apply (affordable_await _ _ (sends + S (session_cost 1 rounds sends)) 0). intros r.
    assert (forall s, affordable (sends + S (session_cost 1 rounds sends)) 1 (close_socket s)) as Hc
      by (intros s; eapply affordable_mono; [apply (affordable_close _ 0)|lia..]).
    destruct (r <? 0); [done|]. destruct (r =? 0); [done|].
    apply affordable_sendAll. intros e eof.
    destruct (negb _ || _); (eapply affordable_mono; [first [apply (affordable_close _ 0)|apply IH]|lia..]).
  - unfold session_cost. lia.
  - lia.
Qed.

Lemma affordable_serve session n rounds socket :
  (forall fd, affordable n 1 (session fd)) ->
  affordable (rounds * S n) rounds (serve session rounds socket).
Proof.
  intros Hs. induction rounds as [|rounds IH]; [apply affordable_ret|]. cbn [serve].
  apply (affordable_await _ _ (n + rounds * S n) rounds). intros fd.
  destruct (fd <? 0); [eapply affordable_mono; [apply IH|lia..]|].
  apply (affordable_spawn _ _ n 1); [apply Hs|done].
Qed.

Lemma affordable_serve_udp rounds socket msg :
  affordable (2 * rounds) 1 (serve_udp rounds socket msg).
Proof.
  induction rounds as [|rounds IH]; [eapply affordable_mono; [apply affordable_ret|lia..]|].
  cbn [serve_udp]. eapply affordable_mono.
  - apply (affordable_await _ _ (S (2 * rounds)) 0). intros r.
    destruct (r <? 0); [eapply affordable_mono; [apply IH|lia..]|].
    apply (affordable_await _ _ (2 * rounds) 0). intros _. apply IH.
  - lia.
  - lia.
Qed.

(** ** One operation at a time *)

Lemma modest_sendAll linked sends socket buf size offset k n :
  (0 < n)%nat -> (forall e eof, modest linked (k e eof) None n) ->
  modest linked (sendAll sends socket buf size offset k) None n.
Proof.
  intros Hn Hk. revert offset. induction sends as [|sends IH]; intros offset; cbn [sendAll]; [done|].
  destruct (offset <? size); [|done]. apply modest_await; [done|]. intros r.
  destruct (r <? 0); [done|]. by destruct (r =? 0).
Qed.

Lemma modest_close_socket linked socket n : (0 < n)%nat -> modest linked (close_socket socket) None n.
Proof. intros Hn. by apply modest_await. Qed.

#[local] Hint Resolve modest_close_socket : core.

Lemma modest_echo rounds sends socket buf bye bye_len ts :
  modest true (echo rounds sends socket buf bye bye_len ts) None 1.
Proof.
  induction rounds as [|rounds IH]; [done|]. cbn [echo]. apply modest_limit; [lia|]. intros r.
  destruct ((r <? 0) && _); [apply modest_sendAll; auto|].
  destruct (r <? 0); [auto|]. destruct (r =? 0); [auto|].
  apply modest_sendAll; [lia|]. intros e eof. destruct (negb _ || _); auto.
Qed.

Lemma modest_startSession rounds sends buf response len socket :
  modest false (startSession rounds sends buf response len socket) None 1.
Proof.
  induction rounds as [|rounds IH]; [done|]. cbn [startSession].
  apply modest_await; [lia|]. intros r. destruct (r <? 0); [auto|]. destruct (r =? 0); [auto|].
  apply modest_sendAll; [lia|]. intros e eof. destruct (negb _ || _); auto.
Qed.

(** A server has one operation, and one for each session. *)
Lemma modest_serve linked session rounds socket :
  (forall fd, modest linked (session fd) None 1) -> modest linked (serve session rounds socket) None rounds.
Proof.
  intros Hs. induction rounds as [|rounds IH]; [done|]. cbn [serve].
  apply modest_await; [lia|]. intros fd. destruct (fd <? 0); [by apply (modest_mono _ _ _ rounds); [|lia]|].
  apply (modest_start _ _ _ 1 rounds); [lia|done|done].
Qed.

Lemma modest_serve_udp rounds socket msg : modest false (serve_udp rounds socket msg) None 1.
Proof.
  induction rounds as [|rounds IH]; [done|]. cbn [serve_udp].
  apply modest_await; [lia|]. intros r. destruct (r <? 0); [done|]. by apply modest_await; [lia|].
Qed.

(** ** The servers on a queue *)

Section Running.
Context {R : Type} `{!LibUring R} `{!LibUringSpec R}.
Context {T : Type} `{!CompleterTable T} `{!CompleterTableSpec T}.
Context {allocator : Allocator}.

(** No assertion fails and no dead object is used, however long it runs. *)
Definition runs_safely (q : IoQueue R T) (p : prog) : Prop :=
  exists w, start p (new_world q) = Ok w /\ forall fuel, exists o, run fuel w = Ok o.

(** It is over after at most [n] iterations, with nothing left to complete. *)
Definition ends_within (q : IoQueue R T) (n : nat) (p : prog) : Prop :=
  exists w w1, start p (new_world q) = Ok w /\ run n w = Ok (Some w1) /\
    tbl_size (completers_ (queue w1)) = 0 /\ completers w1 = ∅.

(** What a queue needs to run a coroutine of that cost, which has at most [m] operations
    at a time. *)
Record Fits (size : Z) (u : IoURing.IoURing R) (q : IoQueue R T) (linked : bool) (n m : nat) (p : prog)
  : Prop := {
  fits_size : 0 <= size < 196613;
  fits_make : make size u = Ok (Some q);
  fits_ids : Z.of_nat n <= 2 ^ 63;
  fits_waits : Z.of_nat m <= size + 1;
  fits_affordable : affordable n m p;
  fits_entries : needed linked m <= getSize q;
  fits_modest : modest linked p None m
}.

Lemma fits_wf size u q linked n m p : Fits size u q linked n m p -> wf (guard p) (mkBudget n m ∅ ∅) None.
Proof. intros []. auto. Qed.

Lemma fits_runs size u q linked n m p : Fits size u q linked n m p -> runs_safely q p.
Proof.
  intros HF. pose proof (fits_wf _ _ _ _ _ _ _ HF) as Hwf. destruct HF as [H1 H2 H3 H4 H5 H6 H7].
  destruct (start_pair size u q n m p linked m H1 H2 H3 H4 Hwf H6 H7) as (w & w' & Hw & _ & Hpair).
  exists w. split; [done|]. intros fuel.
  destruct (run_sim _ _ _ fuel w w' Hpair) as (o & o' & Ho & _). by exists o.
Qed.

Lemma fits_ends `{!ReliableRing R} size u q linked n m p : Fits size u q linked n m p -> ends_within q n p.
Proof.
  intros HF. pose proof (fits_wf _ _ _ _ _ _ _ HF) as Hwf. destruct HF as [H1 H2 H3 H4 H5 H6 H7].
  exact (unchecked_terminates size u q n m p linked m H1 H2 H3 H4 Hwf H6 H7).
Qed.

(** [rounds] connections of at most that cost. *)
Lemma fits_serve size u q linked session n rounds socket :
  0 <= size < 196613 -> make size u = Ok (Some q) -> needed linked rounds <= getSize q ->
  Z.of_nat rounds <= size + 1 -> Z.of_nat (rounds * S n) <= 2 ^ 63 ->
  (forall fd, affordable n 1 (session fd)) -> (forall fd, modest linked (session fd) None 1) ->
  Fits size u q linked (rounds * S n) rounds (serve session rounds socket).
Proof.
  intros H1 H2 H3 H4 H5 H6 H7. split; try done; [by apply affordable_serve|by apply modest_serve].
Qed.

Lemma fits_serve_udp size u q rounds socket msg :
  0 <= size < 196613 -> make size u = Ok (Some q) -> 1 <= getSize q ->
  Z.of_nat (2 * rounds) <= 2 ^ 63 ->
  Fits size u q false (2 * rounds) 1 (serve_udp rounds socket msg).
Proof.
  intros H1 H2 H3 H4. split; try done; [lia|apply affordable_serve_udp|apply modest_serve_udp].
Qed.

Section Served.
Variables (size : Z) (u : IoURing.IoURing R) (q : IoQueue R T) (conns rounds sends : nat).
Hypotheses (Hsize : 0 <= size < 196613) (Hmake : make size u = Ok (Some q)).
Hypothesis Hconns : Z.of_nat conns <= size + 1.

Lemma fits_serve_echo socket buf bye bye_len ts :
  2 * Z.of_nat conns + 1 <= getSize q -> Z.of_nat (conns * S (session_cost 2 rounds sends)) <= 2 ^ 63 ->
  Fits size u q true (conns * S (session_cost 2 rounds sends)) conns
    (serve_echo conns rounds sends socket buf bye bye_len ts).
Proof.
  intros Hentries Hids. apply fits_serve; try done; intros fd; [apply affordable_echo|apply modest_echo].
Qed.

Lemma fits_serve_http socket buf response len :
  Z.of_nat conns <= getSize q -> Z.of_nat (conns * S (session_cost 1 rounds sends)) <= 2 ^ 63 ->
  Fits size u q false (conns * S (session_cost 1 rounds sends)) conns
    (serve_http conns rounds sends socket buf response len).
Proof.
  intros Hentries Hids. apply fits_serve; try done; intros fd;
    [apply affordable_startSession|apply modest_startSession].
Qed.

(** The example servers run without breaking an assertion and without using a dead
    object, although they look at no handle, whatever the kernel reports and however
    many entries a submission takes: a queue of [size] serves [size + 1] connections,
    as far as the submission queue has an entry for each, two for those with a time
    limit, and every finite number of datagrams. *)
Theorem servers_safe socket buf bye bye_len ts msg :
  2 * Z.of_nat conns + 1 <= getSize q -> Z.of_nat (conns * S (session_cost 2 rounds sends)) <= 2 ^ 63 ->
  runs_safely q (serve_echo conns rounds sends socket buf bye bye_len ts) /\
  runs_safely q (serve_http conns rounds sends socket buf bye bye_len) /\
  (Z.of_nat (2 * rounds) <= 2 ^ 63 -> runs_safely q (serve_udp rounds socket msg)).
Proof.
  intros Hentries Hids. split; [by eapply fits_runs, fits_serve_echo|split].
  - eapply fits_runs, fits_serve_http; [lia|unfold session_cost in *; nia].
  - intros Hr. eapply fits_runs, fits_serve_udp; done || lia.
Qed.

(** With a kernel that completes what is waited for, the same servers come to
    the end of their rounds: [run] returns after at most one iteration per entry they
    can prepare, and no completer is left in the table or on the heap. *)
Theorem servers_end `{!ReliableRing R} socket buf bye bye_len ts msg :
  2 * Z.of_nat conns + 1 <= getSize q -> Z.of_nat (conns * S (session_cost 2 rounds sends)) <= 2 ^ 63 ->
  ends_within q (conns * S (session_cost 2 rounds sends))
    (serve_echo conns rounds sends socket buf bye bye_len ts) /\
  ends_within q (conns * S (session_cost 1 rounds sends))
    (serve_http conns rounds sends socket buf bye bye_len) /\
  (Z.of_nat (2 * rounds) <= 2 ^ 63 -> ends_within q (2 * rounds) (serve_udp rounds socket msg)).
Proof.
  intros Hentries Hids. split; [by eapply fits_ends, fits_serve_echo|split].
  - eapply fits_ends, fits_serve_http; [lia|unfold session_cost in *; nia].
  - intros Hr. eapply fits_ends, fits_serve_udp; done || lia.
Qed.

End Served.
End Running.

(** ** What [sendAll] sends *)

(** The calls of a coroutine that starts and cancels nothing, when the operations
    it awaits return [rs], and what is left of it. *)
Fixpoint calls (p : prog) (rs : list Z) (id : Z) : list call * prog :=
  match p with
  | Call c k => let '(cs, p) := calls (k (mkHandle true id)) rs (id + 1) in (c :: cs, p)
  | Await _ k => match rs with [] => ([], p) | r :: rs => calls (k r) rs id end
  | _ => ([], p)
  end.

(** The ranges a sequence of partial sends covers, from [offset] on. *)
Fixpoint sends_of (socket buf size offset : Z) (rs : list Z) : list call :=
  match rs with
  | [] => []
  | r :: rs => Send socket (buf + offset) (size - offset) :: sends_of socket buf size (offset + r) rs
  end.

Definition sum (rs : list Z) : Z := foldr Z.add 0 rs.

Lemma sum_nonneg rs : Forall (fun r => 0 < r) rs -> 0 <= sum rs.
Proof. unfold sum. induction 1; cbn [foldr]; lia. Qed.

(** While everything is sent, piece by piece. *)
Lemma sendAll_progress socket buf size k rs : forall rounds offset rest id,
  0 <= offset -> size < 2 ^ 64 -> Forall (fun r => 0 < r) rs -> offset + sum rs <= size ->
  calls (sendAll (length rs + rounds) socket buf size offset k) (rs ++ rest) id =
  (let '(cs, p) := calls (sendAll rounds socket buf size (offset + sum rs) k) rest
                     (id + Z.of_nat (length rs)) in
   (sends_of socket buf size offset rs ++ cs, p)).
Proof.
  induction rs as [|r rs IH]; intros rounds offset rest id Ho Hs Hpos Hsum.
  - cbn. rewrite !Z.add_0_r. by destruct (calls _ rest id).
  - apply Forall_cons_1 in Hpos as [Hr Hpos]. pose proof (sum_nonneg rs Hpos).
    change (sum (r :: rs)) with (r + sum rs) in *. cbn [length Nat.add sendAll].
    rewrite (proj2 (Z.ltb_lt offset size)) by lia. cbn [app calls].
    rewrite (proj2 (Z.ltb_ge r 0)), (proj2 (Z.eqb_neq r 0)), u64_small by lia.
    rewrite IH by (done || lia). rewrite Nat2Z.inj_succ.
    replace (id + 1 + Z.of_nat (length rs)) with (id + Z.succ (Z.of_nat (length rs))) by lia.
    rewrite Z.add_assoc. by destruct (calls _ rest _).
Qed.

Lemma length_sum rs : Forall (fun r => 0 < r) rs -> Z.of_nat (length rs) <= sum rs.
Proof. unfold sum. induction 1; cbn [foldr length]; lia. Qed.

Lemma sends_of_app socket buf size rs1 rs2 offset :
  sends_of socket buf size offset (rs1 ++ rs2) =
  sends_of socket buf size offset rs1 ++ sends_of socket buf size (offset + sum rs1) rs2.
Proof.
  revert offset. induction rs1 as [|r rs IH]; intros offset; cbn.
  - by rewrite Z.add_0_r.
  - by rewrite IH, Z.add_assoc.
Qed.

(** [sendAll] sends the whole buffer: as long as the kernel takes some of what it
    is given, it sends the rest from where the kernel stopped, and when all is
    taken it goes on without error; an error or a closed connection ends it at
    once and is reported.  No more rounds than bytes are needed. *)
Theorem sendall_sends rounds socket buf size k rs r rest id :
  0 <= size < 2 ^ 64 -> (Z.to_nat size < rounds)%nat -> Forall (fun r => 0 < r) rs -> r <= 0 ->
  (sum rs = size ->
    calls (sendAll rounds socket buf size 0 k) (rs ++ rest) id =
    (let '(cs, p) := calls (k 0 false) rest (id + Z.of_nat (length rs)) in
     (sends_of socket buf size 0 rs ++ cs, p))) /\
  (sum rs < size ->
    calls (sendAll rounds socket buf size 0 k) (rs ++ r :: rest) id =
    (let '(cs, p) := calls (if r <? 0 then k (- r) false else k 0 true) rest
                       (id + Z.of_nat (length rs) + 1) in
     (sends_of socket buf size 0 (rs ++ [r]) ++ cs, p))).
Proof.
  intros Hsize Hrounds Hpos Hr. pose proof (length_sum rs Hpos).
  split; intros Hsum;
    replace rounds with (length rs + S (rounds - length rs - 1))%nat by lia; rewrite sendAll_progress by (done || lia);
    rewrite Z.add_0_l; cbn [sendAll].
  - by rewrite (proj2 (Z.ltb_ge (sum rs) size)) by lia.
  - rewrite (proj2 (Z.ltb_lt (sum rs) size)) by lia. cbn [calls].
    rewrite sends_of_app, Z.add_0_l. cbn [sends_of].
    assert ((if r <? 0 then k (- r) false else if r =? 0 then k 0 true else
        sendAll (rounds - length rs - 1) socket buf size (u64 (sum rs + r)) k) =
      if r <? 0 then k (- r) false else k 0 true) as ->.
    { destruct (Z.ltb_spec r 0); [done|]. by rewrite (proj2 (Z.eqb_eq r 0)) by lia. }
    destruct (calls _ rest _) as [cs p]. by rewrite <- app_assoc.
Qed.

End Servers.
