(* ===== verification/Relays.v ===== *)
(** * What the example servers send

    A connection as two streams of bytes: a completed receive moves what arrived
    into the coroutine's buffer, a completed send takes from memory what the kernel
    says it took.  The history of a session then determines the bytes it sent.  Each
    session has a memory of its own, as its buffer is a local of its coroutine. *)

From Stdlib Require Import ZArith Lia.
From stdpp Require Import base numbers list gmap option.
From S2P Require Import Prelude Interfaces Uring Queue QueueSafety Unchecked EventLoop Histories Servers.

Local Open Scope Z_scope.

Module Relays.
Import IoQueue Unchecked EventLoop Histories Servers.

(** ** Memory *)

Abbreviation byte := Byte.byte.
Abbreviation mem := (Z -> byte).

Definition store (a : Z) (bs : list byte) (m : mem) : mem :=
  fun x => if a <=? x then default (m x) (bs !! Z.to_nat (x - a)) else m x.

Definition fetch (a n : Z) (m : mem) : list byte := m <$> seqZ a n.

Lemma fetch_app a n1 n2 m :
  0 <= n1 -> 0 <= n2 -> fetch a (n1 + n2) m = fetch a n1 m ++ fetch (a + n1) n2 m.
Proof. intros. unfold fetch. by rewrite seqZ_app, fmap_app by done. Qed.

Lemma length_fetch a n m : 0 <= n -> Z.of_nat (length (fetch a n m)) = n.
Proof. intros. unfold fetch. rewrite length_fmap, length_seqZ. lia. Qed.

Lemma fetch_store a bs m : fetch a (Z.of_nat (length bs)) (store a bs m) = bs.
Proof.
  unfold fetch. apply list_eq. intros i. rewrite list_lookup_fmap.
  destruct (decide (i < length bs)%nat) as [Hi|Hi].
  - rewrite lookup_seqZ_lt by lia. cbn. unfold store. rewrite (proj2 (Z.leb_le _ _)) by lia.
    replace (Z.to_nat (a + Z.of_nat i - a)) with i by lia.
    by destruct (lookup_lt_is_Some_2 bs i Hi) as [b ->].
  - rewrite lookup_seqZ_ge by lia. by rewrite lookup_ge_None_2 by lia.
Qed.

Lemma fetch_store_other a n b bs m :
  a + n <= b \/ b + Z.of_nat (length bs) <= a -> fetch a n (store b bs m) = fetch a n m.
Proof.
  intros H. unfold fetch. apply list_fmap_ext. intros i x Hx.
  apply lookup_seqZ in Hx as [-> Hi]. unfold store.
  destruct (Z.leb_spec b (a + Z.of_nat i)); [|done]. by rewrite lookup_ge_None_2 by lia.
Qed.

(** ** A connection *)

Record conn : Type := mkConn {
  memory : mem;
  unread : list byte;
  received : list byte;
  sent : list byte
}.

Definition push (bs : list byte) (s : conn) : conn :=
  mkConn (memory s) (unread s) (received s) (sent s ++ bs).

(** An operation of the session on socket [fd] completes; [None] when the kernel
    cannot have reported that. *)
Definition transfer (fd : Z) (e : call * Z) (s : conn) : option conn :=
  match e with
  | (Recv f a n, r) =>
      if negb (f =? fd) || (r <=? 0) then Some s
      else if (r <=? n) && (r <=? Z.of_nat (length (unread s))) then
        Some (mkConn (store a (take (Z.to_nat r) (unread s)) (memory s)) (drop (Z.to_nat r) (unread s))
          (received s ++ take (Z.to_nat r) (unread s)) (sent s))
      else None
  | (Send f a n, r) =>
      if negb (f =? fd) || (r <=? 0) then Some s
      else if r <=? n then Some (push (fetch a r (memory s)) s) else None
  | _ => Some s
  end.

Fixpoint transfers (fd : Z) (h : history) (s : conn) : option conn :=
  match h with
  | [] => Some s
  | e :: h => transfer fd e s ≫= transfers fd h
  end.

Lemma transfers_app fd h1 h2 s : transfers fd (h1 ++ h2) s = transfers fd h1 s ≫= transfers fd h2.
Proof.
  revert s. induction h1 as [|e h1 IH]; intros s; [done|]. cbn.
  destruct (transfer fd e s); [apply IH|done].
Qed.

(** What is received has been in the stream. *)
Lemma received_stream fd h s s' :
  transfers fd h s = Some s' -> received s' ++ unread s' = received s ++ unread s.
Proof.
  revert s. induction h as [|[c r] h IH]; intros s H; [by injection H as ->|].
  cbn [transfers] in H. destruct (transfer fd (c, r) s) as [s1|] eqn:E; [|done].
  rewrite (IH s1 H). clear IH H. destruct c; cbn in E; try by injection E as <-.
  - destruct (_ || _); [by injection E as <-|]. destruct (_ <=? _); [|done]. by injection E as <-.
  - destruct (_ || _); [by injection E as <-|]. destruct (_ && _); [|done]. injection E as <-.
    cbn. by rewrite <- app_assoc, take_drop.
Qed.

(** ** Histories of the pieces of a session *)

Lemma path_await_inv M c k h :
  path M (Call c (fun h => Await h k)) h ->
  h = [] \/ exists r h', h = (c, r) :: h' /\ path M (k r) h'.
Proof.
  intros H. inversion H as [|? ? id ? Hc H1|? ? ? H1| | | | | |]; subst; [by left| |].
  - inversion H1 as [| | | | |? ? c' r h' _ Hc' H2| | |]; subst; [by left|right].
    cbn in Hc'. rewrite Hc in Hc'. injection Hc' as <-. by exists r, h'.
  - inversion H1 as [| | | | |? ? c' r h' Hv _ _| | |]; subst; [by left|done].
Qed.

Lemma path_limit_inv M c ts k h :
  path M (Call c (fun h => limit_for ts h k)) h ->
  h = [] \/ exists r h', h = (c, r) :: h' /\ path M (k r) h'.
Proof.
  intros H. inversion H as [|? ? id ? Hc H1|? ? ? H1| | | | | |]; subst; [by left| |];
    inversion H1 as [| | |? ? ? ? h' ? Hh H2| | | | |]; subst; try (by left); destruct Hh as [-> | ->];
    inversion H2 as [| | | | |? ? c' r h'' Hv Hc' H3| | |]; subst; try (by left); try done.
  right. cbn in Hc'. rewrite Hc in Hc'. injection Hc' as <-. by exists r, h''.
Qed.

Definition is_send (e : call * Z) : Prop := exists f a n r, e = (Send f a n, r).

(** [sendAll] sends the buffer from [offset] on, in order and without gaps; it goes
    on without error only when all of it is sent. *)
Lemma sendAll_transfers M fd buf size k : forall rounds offset h s s',
  path M (sendAll rounds fd buf size offset k) h -> transfers fd h s = Some s' ->
  0 <= offset <= size -> size < 2 ^ 64 ->
  exists n h1 h2, h = h1 ++ h2 /\ Forall is_send h1 /\ 0 <= n <= size - offset /\
    transfers fd h2 (push (fetch (buf + offset) n (memory s)) s) = Some s' /\
    (h2 = [] \/ exists e eof, path M (k e eof) h2 /\ (e = 0 -> eof = false -> n = size - offset)).
Proof.
  assert (Hnone : forall h s s' offset, transfers fd h s = Some s' ->
    transfers fd h (push (fetch (buf + offset) 0 (memory s)) s) = Some s').
  { intros h s s' offset. unfold push. cbn. rewrite app_nil_r. by destruct s. }
  induction rounds as [|rounds IH]; intros offset h s s' Hp Ht Ho Hs; cbn [sendAll] in Hp.
  { apply path_ret_inv in Hp as ->. exists 0, [], []. split_and!; try done; [lia|by apply Hnone|by left]. }
  destruct (Z.ltb_spec offset size) as [Hlt|Hge].
  2: { exists 0, [], h. split_and!; try done; [lia|by apply Hnone|right]. exists 0, false.
    split; [done|]. lia. }
  apply path_await_inv in Hp as [->|(r & h' & -> & Hp)].
  { exists 0, [], []. split_and!; try done; [lia|by apply Hnone|by left]. }
  assert (is_send (Send fd (buf + offset) (size - offset), r)) as Hsend by by eexists _, _, _, _.
  cbn [transfers transfer] in Ht. rewrite Z.eqb_refl in Ht. cbn [negb orb] in Ht.
  destruct (Z.leb_spec r 0) as [Hr|Hr].
  - exists 0, [(Send fd (buf + offset) (size - offset), r)], h'.
    split_and!; [done|by constructor|lia|lia|by apply Hnone|right].
    destruct (Z.ltb_spec r 0); [exists (- r), false|exists 0, true]; (split; [|lia || done]).
    + done.
    + by rewrite (proj2 (Z.eqb_eq r 0)) in Hp by lia.
  - destruct (Z.leb_spec r (size - offset)) as [Hrs|]; [|done].
    rewrite (proj2 (Z.ltb_ge r 0)), (proj2 (Z.eqb_neq r 0)), u64_small in Hp by lia.
    destruct (IH _ _ _ _ Hp Ht) as (n & h1 & h2 & -> & Hh1 & Hn & Ht2 & Hend); [lia..|].
    exists (r + n), ((Send fd (buf + offset) (size - offset), r) :: h1), h2.
    split_and!; [done|by constructor|lia|lia| |].
    + rewrite fetch_app by lia. unfold push in *. cbn in Ht2.
      by rewrite app_assoc, <- Z.add_assoc.
    + destruct Hend as [?|(e & eof & Hk & Hall)]; [by left|right]. exists e, eof. split; [done|].
      intros He Hf. specialize (Hall He Hf). lia.
Qed.

(** Receiving [r] bytes. *)
Lemma recv_transfers fd a n r h s s' :
  0 < r -> transfers fd ((Recv fd a n, r) :: h) s = Some s' ->
  r <= n /\ exists bs s1, Z.of_nat (length bs) = r /\ memory s1 = store a bs (memory s) /\
    received s1 = received s ++ bs /\ sent s1 = sent s /\ transfers fd h s1 = Some s'.
Proof.
  intros Hr Ht. cbn [transfers transfer] in Ht. rewrite Z.eqb_refl in Ht. cbn [negb orb] in Ht.
  rewrite (proj2 (Z.leb_gt r 0)) in Ht by lia.
  destruct (Z.leb_spec r n); [|done].
  destruct (Z.leb_spec r (Z.of_nat (length (unread s)))); [|done]. cbn [andb] in Ht. split; [done|].
  eexists (take (Z.to_nat r) (unread s)), _. split; [rewrite length_take; lia|].
  by split_and!; [| | |exact Ht].
Qed.

Lemma close_transfers M fd h s s' :
  path M (close_socket fd) h -> transfers fd h s = Some s' ->
  s' = s /\ (h = [] \/ exists r, h = [(Close fd, r)]).
Proof.
  intros [->|(r & h' & -> & ->%path_ret_inv)]%path_await_inv [= <-]; [by split; [|left]|].
  split; [done|right]. by exists r.
Qed.

(** ** The echo server *)

(** The last operation of [h] is a receive that found nothing: the session has
    answered all it got. *)
Definition idle (h : history) : Prop := exists f a n r, list.last h = Some (Recv f a n, r) /\ r <= 0.

Lemma idle_send h1 : Forall is_send h1 -> ~ idle h1.
Proof.
  intros H (f & a & n & r & Hl & _). apply last_Some in Hl as [l ->].
  apply Forall_app in H as [_ H]. by apply Forall_inv in H as (? & ? & ? & ? & ?).
Qed.

(** What was received has been sent back, but for the last piece of it, and nothing
    else but a farewell, or some of it, after everything. *)
Definition echoed (farewell : list byte) (h : history) (s : conn) : Prop :=
  exists echo rest bye, received s = echo ++ rest /\ sent s = echo ++ bye /\
    Z.of_nat (length rest) <= 1024 /\ bye `prefix_of` farewell /\ (bye = [] \/ rest = []) /\
    (idle h -> rest = []).

Lemma idle_cons e h : h <> [] -> idle (e :: h) -> idle h.
Proof. destruct h; [done|]. by intros _ (f & a & n & r & Hl & Hr); exists f, a, n, r. Qed.

Lemma idle_app h1 h2 : h2 <> [] -> idle (h1 ++ h2) -> idle h2.
Proof.
  intros Hne (f & a & n & r & Hl & Hr). exists f, a, n, r. split; [|done].
  rewrite last_app in Hl. by destruct (list.last h2) eqn:E; [|apply last_None in E].
Qed.

(** Something was received, and what was sent then was the last. *)
Lemma busy f a n r h1 h2 :
  0 < r -> Forall is_send h1 -> h2 = [] \/ ~ idle h2 -> ~ idle ((Recv f a n, r) :: h1 ++ h2).
Proof.
  intros Hr Hh1 Hh2 Hi. destruct (decide (h2 = [])) as [->|Hne].
  - rewrite app_nil_r in Hi. destruct h1 as [|e' h1].
    + destruct Hi as (? & ? & ? & ? & [= _ _ _ <-] & ?). lia.
    + by apply (idle_send _ Hh1), (idle_cons (Recv f a n, r)).
  - destruct Hh2 as [?|Hh2]; [done|]. by apply Hh2, (idle_app ((Recv f a n, r) :: h1)).
Qed.

(** An error or a timeout after everything was answered. *)
Lemma echoed_all farewell h s bye :
  received s = sent s -> bye `prefix_of` farewell -> echoed farewell h (push bye s).
Proof.
  intros Hr Hp. exists (sent s), [], bye. cbn. rewrite Hr, app_nil_r.
  split_and!; try done. by right.
Qed.

Lemma echoed_still farewell h s : received s = sent s -> echoed farewell h s.
Proof.
  intros Hr. pose proof (echoed_all farewell h s [] Hr (prefix_nil _)) as H.
  unfold push in H. rewrite app_nil_r in H. by destruct s.
Qed.

Lemma echoed_more farewell h1 h2 s : h2 <> [] -> echoed farewell h2 s -> echoed farewell (h1 ++ h2) s.
Proof.
  intros Hne (ec & rest & bye & H1 & H2 & H3 & H4 & H5 & H6). exists ec, rest, bye.
  split_and!; try done. intros Hi. by apply H6, (idle_app h1).
Qed.

Section Echo.
Context (M : gmap Z call) (fd buf bye bye_len ts : Z) (farewell : list byte).
Hypotheses (Hlen : 0 <= bye_len < 2 ^ 64)
  (Hapart : bye + bye_len <= buf \/ buf + 1024 <= bye).

Definition says (s : conn) : Prop := fetch bye bye_len (memory s) = farewell.

(** Saying goodbye. *)
Lemma goodbye_transfers sends h h0 s s' :
  path M (sendAll sends fd bye bye_len 0 (fun _ _ => close_socket fd)) h ->
  transfers fd h s = Some s' -> says s -> received s = sent s ->
  echoed farewell h0 s'.
Proof.
  intros Hp Ht Hs Hr.
  destruct (sendAll_transfers M fd bye bye_len _ sends 0 h s s' Hp Ht) as (n & h1 & h2 & _ & _ & Hn & Ht2 & Hend);
    [lia..|].
  assert (fetch (bye + 0) n (memory s) `prefix_of` farewell) as Hpre.
  { unfold says in Hs. rewrite <- Hs, Z.add_0_r. replace bye_len with (n + (bye_len - n)) by lia.
    rewrite fetch_app by lia. by apply prefix_app_r. }
  destruct Hend as [->|(e & eof & Hk & _)].
  - injection Ht2 as <-. by apply echoed_all.
  - destruct (close_transfers M fd h2 _ s' Hk Ht2) as [-> _]. by apply echoed_all.
Qed.

(** The pieces of a round: [n] of the bytes at [buf] were sent back. *)
Lemma answer_echoed h s n bs :
  received s = sent s ++ bs -> Z.of_nat (length bs) <= 1024 -> ~ idle h -> (n <= length bs)%nat ->
  echoed farewell h (push (take n bs) s).
Proof.
  intros Hr Hb Hh Hn. exists (sent s ++ take n bs), (drop n bs), [].
  cbn. rewrite Hr, app_nil_r, <- app_assoc, take_drop, length_drop. split_and!; try done; [lia| |by left].
  apply prefix_nil.
Qed.

(** A round: [bs] was received, [n] bytes of it sent back. *)
Lemma round_echoed r bs s s1 h1 h2 n :
  received s = sent s -> received s1 = received s ++ bs -> sent s1 = sent s ->
  memory s1 = store buf bs (memory s) -> Z.of_nat (length bs) = r -> 0 < r <= 1024 ->
  0 <= n <= r -> Forall is_send h1 -> h2 = [] \/ ~ idle h2 ->
  echoed farewell ((Recv fd buf 1024, r) :: h1 ++ h2) (push (fetch buf n (memory s1)) s1).
Proof.
  intros Hr Hr1 Hs1 Hm Hb Hr0 Hn Hh1 Hh2.
  assert (fetch buf n (memory s1) = take (Z.to_nat n) bs) as ->.
  { rewrite <- (fetch_store buf bs (memory s)), <- Hm, Hb.
    replace r with (n + (r - n)) by lia. rewrite fetch_app by lia.
    pose proof (length_fetch buf n (memory s1) ltac:(lia)) as Hl.
    rewrite take_app_le by lia. rewrite take_ge by lia. done. }
  apply answer_echoed; [by rewrite Hr1, Hs1, Hr|lia| |lia]. apply busy; [lia|done..].
Qed.

Lemma echo_transfers sends : forall rounds h s s',
  path M (echo rounds sends fd buf bye bye_len ts) h -> transfers fd h s = Some s' ->
  says s -> received s = sent s -> echoed farewell h s'.
Proof.
  induction rounds as [|rounds IH]; intros h s s' Hp Ht Hs Hr; cbn [echo] in Hp.
  { apply path_ret_inv in Hp as ->. injection Ht as <-. by apply echoed_still. }
  apply path_limit_inv in Hp as [->|(r & h' & -> & Hp)].
  { injection Ht as <-. by apply echoed_still. }
  destruct (Z.ltb_spec 0 r) as [Hr0|Hr0].
  - destruct (recv_transfers fd buf 1024 r h' s s' Hr0 Ht) as (Hr1 & bs & s1 & Hb & Hm & Hre & Hse & Ht1).
    rewrite (proj2 (Z.ltb_ge r 0)), (proj2 (Z.eqb_neq r 0)) in Hp by lia. cbn [andb] in Hp.
    destruct (sendAll_transfers M fd buf r _ sends 0 h' s1 s' Hp Ht1)
      as (n & h1 & h2 & -> & Hh1 & Hn & Ht2 & Hend); [lia..|].
    rewrite Z.add_0_r in Ht2.
    pose proof (fun H => round_echoed r bs s s1 h1 h2 n Hr Hre Hse Hm Hb ltac:(lia) ltac:(lia) Hh1 H) as Hround.
    destruct Hend as [->|(e & eof & Hk & Hall)]; [injection Ht2 as <-; by apply Hround; left|].
    destruct (negb (e =? 0) || eof) eqn:Hcase.
    { destruct (close_transfers M fd h2 _ s' Hk Ht2) as [-> Hh2]. apply Hround.
      destruct Hh2 as [->|[r' ->]]; [by left|right]. by intros (f & a & n' & r2 & [=] & _). }
    apply orb_false_iff in Hcase as [He%negb_false_iff%Z.eqb_eq ->].
    assert (n = r) as -> by (rewrite Hall by done; lia).
    assert (fetch buf r (memory s1) = bs) as Hbs by (rewrite Hm, <- Hb; apply fetch_store).
    rewrite Hbs in Ht2. destruct (decide (h2 = [])) as [->|Hne].
    { injection Ht2 as <-. apply echoed_still. cbn. by rewrite Hre, Hse, Hr. }
    apply (echoed_more farewell (_ :: h1) h2 s' Hne), (IH h2 (push bs s1)); [done|done| |].
    + unfold says in *. cbn. rewrite Hm, fetch_store_other by lia. done.
    + cbn. by rewrite Hre, Hse, Hr.
  - cbn [transfers transfer] in Ht. rewrite Z.eqb_refl, (proj2 (Z.leb_le r 0)) in Ht by done. cbn in Ht.
    destruct ((r <? 0) && _); [by eapply goodbye_transfers|].
    assert (path M (close_socket fd) h') as Hc.
    { destruct (Z.ltb_spec r 0); [done|]. by rewrite (proj2 (Z.eqb_eq r 0)) in Hp by lia. }
    destruct (close_transfers M fd h' s s' Hc Ht) as [-> _]. by apply echoed_still.
Qed.

End Echo.

(** ** The HTTP server *)

(** How often something was received. *)
Fixpoint pieces (h : history) : nat :=
  match h with
  | [] => 0
  | (Recv _ _ _, r) :: h => if 0 <? r then S (pieces h) else pieces h
  | _ :: h => pieces h
  end.

Definition copies (n : nat) (bs : list byte) : list byte := mjoin (replicate n bs).

(** [before] was sent already; then one response for each piece received, the last
    one perhaps not in full. *)
Definition answered (response before : list byte) (h : history) (s : conn) : Prop :=
  exists n part, sent s = before ++ copies n response ++ part /\ part `prefix_of` response /\
    (pieces h = n /\ part = [] \/ pieces h = S n) /\ (idle h -> pieces h = n).

Lemma pieces_sends h1 h2 : Forall is_send h1 -> pieces (h1 ++ h2) = pieces h2.
Proof. induction 1 as [|e h1 (f & a & n & r & ->) _ IH]; [done|]. exact IH. Qed.

Section Http.
Context (M : gmap Z call) (fd buf response len : Z) (text : list byte).
Hypotheses (Hlen : 0 <= len < 2 ^ 64)
  (Hapart : response + len <= buf \/ buf + 1024 <= response).

Lemma http_nothing before h s :
  pieces h = 0%nat -> sent s = before -> answered text before h s.
Proof.
  intros Hp Hs. exists 0%nat, []. rewrite Hs, !app_nil_r, Hp. split_and!; try done; [apply prefix_nil|by left].
Qed.

(** One answer, and no more. *)
Lemma http_last r s s1 h1 h2 n :
  0 < r -> sent s1 = sent s -> fetch response len (memory s1) = text -> 0 <= n <= len ->
  Forall is_send h1 -> h2 = [] \/ (~ idle h2 /\ pieces h2 = 0%nat) ->
  answered text (sent s) ((Recv fd buf 1024, r) :: h1 ++ h2) (push (fetch response n (memory s1)) s1).
Proof.
  intros Hr Hs Ht Hn Hh1 Hh2. exists 0%nat, (fetch response n (memory s1)).
  assert (pieces ((Recv fd buf 1024, r) :: h1 ++ h2) = 1%nat) as ->.
  { cbn. rewrite (proj2 (Z.ltb_lt 0 r)), pieces_sends by done. by destruct Hh2 as [->|[_ ->]]. }
  cbn. rewrite Hs. split_and!; [done| |by right|].
  - rewrite <- Ht. replace len with (n + (len - n)) by lia. rewrite fetch_app by lia.
    by apply prefix_app_r.
  - intros Hi. exfalso. revert Hi. apply busy; [done..|]. destruct Hh2 as [->|[? _]]; [by left|by right].
Qed.

(** One answer, and more to come. *)
Lemma http_next r s s' h1 h2 :
  0 < r -> Forall is_send h1 -> answered text (sent s ++ text) h2 s' ->
  answered text (sent s) ((Recv fd buf 1024, r) :: h1 ++ h2) s'.
Proof.
  intros Hr Hh1 (n & part & H1 & H2 & H3 & H4). exists (S n), part.
  assert (pieces ((Recv fd buf 1024, r) :: h1 ++ h2) = S (pieces h2)) as ->
    by (cbn; by rewrite (proj2 (Z.ltb_lt 0 r)), pieces_sends by done).
  split_and!; [|done|destruct H3 as [[-> ->]| ->]; [by left|by right]|].
  - rewrite H1. unfold copies. cbn. by rewrite <- !app_assoc.
  - intros Hi. f_equal. destruct (decide (h2 = [])) as [->|Hne]; [cbn in *; lia|].
    by apply H4, (idle_app ((Recv fd buf 1024, r) :: h1)).
Qed.

Lemma http_transfers sends : forall rounds h s s',
  path M (startSession rounds sends buf response len fd) h -> transfers fd h s = Some s' ->
  fetch response len (memory s) = text -> answered text (sent s) h s'.
Proof.
  induction rounds as [|rounds IH]; intros h s s' Hp Ht Hs; cbn [startSession] in Hp.
  { apply path_ret_inv in Hp as ->. injection Ht as <-. by apply http_nothing. }
  apply path_await_inv in Hp as [->|(r & h' & -> & Hp)].
  { injection Ht as <-. by apply http_nothing. }
  destruct (Z.ltb_spec 0 r) as [Hr0|Hr0].
  - destruct (recv_transfers fd buf 1024 r h' s s' Hr0 Ht) as (Hr1 & bs & s1 & Hb & Hm & Hre & Hse & Ht1).
    rewrite (proj2 (Z.ltb_ge r 0)), (proj2 (Z.eqb_neq r 0)) in Hp by lia.
    destruct (sendAll_transfers M fd response len _ sends 0 h' s1 s' Hp Ht1)
      as (n & h1 & h2 & -> & Hh1 & Hn & Ht2 & Hend); [lia..|].
    assert (fetch response len (memory s1) = text) as Hs1 by (rewrite Hm, fetch_store_other by lia; done).
    rewrite Z.add_0_r in Ht2.
    pose proof (fun H => http_last r s s1 h1 h2 n Hr0 Hse Hs1 ltac:(lia) Hh1 H) as Hlast.
    destruct Hend as [->|(e & eof & Hk & Hall)]; [injection Ht2 as <-; by apply Hlast; left|].
    destruct (negb (e =? 0) || eof) eqn:Hcase.
    { destruct (close_transfers M fd h2 _ s' Hk Ht2) as [-> Hh2]. apply Hlast.
      destruct Hh2 as [->|[r' ->]]; [by left|right]. split; [|done].
      by intros (f & a & n' & r2 & [=] & _). }
    apply orb_false_iff in Hcase as [He%negb_false_iff%Z.eqb_eq ->].
    assert (n = len) as -> by (rewrite Hall by done; lia). rewrite Hs1 in Ht2.
    apply http_next; [done..|]. rewrite <- Hse. by apply (IH h2 (push text s1)).
  - cbn [transfers transfer] in Ht. rewrite Z.eqb_refl, (proj2 (Z.leb_le r 0)) in Ht by done. cbn in Ht.
    assert (path M (close_socket fd) h') as Hc.
    { destruct (Z.ltb_spec r 0); [done|]. by rewrite (proj2 (Z.eqb_eq r 0)) in Hp by lia. }
    destruct (close_transfers M fd h' s s' Hc Ht) as [-> Hh']. apply http_nothing; [|done]. cbn.
    rewrite (proj2 (Z.ltb_ge 0 r)) by done. by destruct Hh' as [->|[r' ->]].
Qed.

End Http.

(** ** Sockets are closed last *)

(** A session receives and sends on its socket only, and closes it at the end, once. *)
Definition on_socket (fd : Z) (e : call * Z) : Prop :=
  exists a n r, e = (Recv fd a n, r) \/ e = (Send fd a n, r).

Definition closing (fd : Z) (h : history) : Prop :=
  exists h1 h2, h = h1 ++ h2 /\ Forall (on_socket fd) h1 /\ (h2 = [] \/ exists r, h2 = [(Close fd, r)]).

Lemma closing_nil fd : closing fd [].
Proof. exists [], []. by split_and!; [| |left]. Qed.

Lemma closing_app fd h1 h2 : Forall (on_socket fd) h1 -> closing fd h2 -> closing fd (h1 ++ h2).
Proof.
  intros H (h3 & h4 & -> & H3 & H4). exists (h1 ++ h3), h4. rewrite app_assoc. split; [done|].
  split; [by apply Forall_app|done].
Qed.

Lemma closing_close M fd h : path M (close_socket fd) h -> closing fd h.
Proof.
  intros [->|(r & h' & -> & ->%path_ret_inv)]%path_await_inv; [apply closing_nil|].
  exists [], [(Close fd, r)]. split_and!; [done|done|right]. by exists r.
Qed.

Lemma closing_recv fd a n r h : closing fd h -> closing fd ((Recv fd a n, r) :: h).
Proof. apply (closing_app fd [_]), Forall_singleton. exists a, n, r. by left. Qed.

Lemma closing_sendAll M fd buf size k :
  (forall e eof h, path M (k e eof) h -> closing fd h) -> forall rounds offset h,
  path M (sendAll rounds fd buf size offset k) h -> closing fd h.
Proof.
  intros Hk. induction rounds as [|rounds IH]; intros offset h Hp; cbn [sendAll] in Hp.
  { apply path_ret_inv in Hp as ->. apply closing_nil. }
  destruct (offset <? size); [|by eapply Hk].
  apply path_await_inv in Hp as [->|(r & h' & -> & Hp)]; [apply closing_nil|].
  apply (closing_app fd [_]); [apply Forall_singleton; eexists _, _, _; by right|].
  destruct (r <? 0); [by eapply Hk|]. destruct (r =? 0); [by eapply Hk|]. by eapply IH.
Qed.

Lemma closing_echo M sends fd buf bye bye_len ts : forall rounds h,
  path M (echo rounds sends fd buf bye bye_len ts) h -> closing fd h.
Proof.
  induction rounds as [|rounds IH]; intros h Hp; cbn [echo] in Hp.
  { apply path_ret_inv in Hp as ->. apply closing_nil. }
  apply path_limit_inv in Hp as [->|(r & h' & -> & Hp)]; [apply closing_nil|].
  apply closing_recv. destruct (_ && _).
  { by eapply closing_sendAll; [intros e eof; apply closing_close|]. }
  destruct (r <? 0); [by eapply closing_close|]. destruct (r =? 0); [by eapply closing_close|].
  eapply closing_sendAll; [|exact Hp]. intros e eof h'' Hp'. cbn in Hp'.
  destruct (_ || _); [by eapply closing_close|by apply IH].
Qed.

Lemma closing_session M sends buf response len fd : forall rounds h,
  path M (startSession rounds sends buf response len fd) h -> closing fd h.
Proof.
  induction rounds as [|rounds IH]; intros h Hp; cbn [startSession] in Hp.
  { apply path_ret_inv in Hp as ->. apply closing_nil. }
  apply path_await_inv in Hp as [->|(r & h' & -> & Hp)]; [apply closing_nil|].
  apply closing_recv. destruct (r <? 0); [by eapply closing_close|].
  destruct (r =? 0); [by eapply closing_close|].
  eapply closing_sendAll; [|exact Hp]. intros e eof h'' Hp'. cbn in Hp'.
  destruct (_ || _); [by eapply closing_close|by apply IH].
Qed.

(** ** The servers on a queue *)

Lemma starts_sendAll P rounds fd buf size offset k :
  (forall e eof, starts P (k e eof)) -> starts P (sendAll rounds fd buf size offset k).
Proof.
  intros Hk. revert offset. induction rounds as [|rounds IH]; intros offset; [done|]. cbn [sendAll].
  destruct (offset <? size); [|done]. cbn. intros _ r.
  destruct (r <? 0); [done|]. by destruct (r =? 0).
Qed.

Lemma starts_echo P rounds sends fd buf bye bye_len ts :
  starts P (echo rounds sends fd buf bye bye_len ts).
Proof.
  induction rounds as [|rounds IH]; [done|]. cbn. intros _ _ r.
  destruct ((r <? 0) && _); [by apply starts_sendAll|].
  destruct (r <? 0); [done|]. destruct (r =? 0); [done|]. apply starts_sendAll. intros e eof.
  by destruct (negb (e =? 0) || eof).
Qed.

Lemma starts_session P rounds sends buf response len fd :
  starts P (startSession rounds sends buf response len fd).
Proof.
  induction rounds as [|rounds IH]; [done|]. cbn. intros _ r.
  destruct (r <? 0); [done|]. destruct (r =? 0); [done|]. apply starts_sendAll. intros e eof.
  by destruct (negb (e =? 0) || eof).
Qed.

Lemma starts_serve P session rounds fd :
  (forall fd, P (session fd) /\ starts P (session fd)) -> starts P (serve session rounds fd).
Proof.
  intros Hs. induction rounds as [|rounds IH]; [done|]. cbn. intros _ r.
  destruct (r <? 0); [done|]. cbn. split; [apply Hs|]. split; [apply Hs|done].
Qed.

Section Running.
Context {R : Type} `{!LibUring R} `{!LibUringSpec R}.
Context {T : Type} `{!CompleterTable T} `{!CompleterTableSpec T}.
Context {allocator : Allocator}.

(** [server] runs on [q], and every coroutine it started for a connection, up to any
    iteration of [run], has a history that is [good] for the connection's socket. *)
Definition sessions_do (q : IoQueue R T) (server : prog) (session : Z -> prog)
    (good : Z -> history -> Prop) : Prop :=
  exists w tr l, start server (new_world q) = Ok w /\ begins (guard server) new_loop tr l /\
    forall fuel, exists v tr' l', iterate fuel w = Ok v /\ loops l (consumed fuel w) tr' l' /\
      forall g p, Started g p ∈ tr ++ tr' -> p = guard server \/
        exists fd, p = guard (session fd) /\ good fd (history_of g (tr ++ tr')).

Lemma fits_sessions size u q linked session conns n fd good :
  Fits size u q linked n conns (serve session conns fd) ->
  (forall P fd, starts P (session fd)) ->
  (forall M fd h, path M (session fd) h -> good fd h) ->
  sessions_do q (serve session conns fd) session good.
Proof.
  intros HF Hst Hgood. set (server := serve session conns fd) in *.
  pose proof (fits_wf _ _ _ _ _ _ _ HF) as Hwf. destruct HF as [H1 H2 H3 H4 _ H6 H7].
  destruct (unchecked_refines size u q n conns server linked conns H1 H2 H3 H4 Hwf H6 H7)
    as (w & tr & l & Hw & Hb & Hrun).
  exists w, tr, l. split; [done|]. split; [done|]. intros fuel.
  destruct (Hrun fuel) as (v & tr' & l' & Hv & Hl & _). exists v, tr', l'. split; [done|]. split; [done|].
  intros g p Hin.
  pose proof (follows_path _ _ (loops_follows _ _ _ _ Hl _ (begins_follows _ _ _ Hb)) g p Hin) as Hpath.
  assert (P : exists q', p = guard q' /\ (q' = server \/ exists fd, q' = session fd)).
  { set (P0 := fun q' => q' = server \/ exists fd, q' = session fd).
    apply (started_programs (fun q => exists q', q = guard q' /\ P0 q') _ _ _ _ _ _ Hb Hl)
      with (g := g); [exists server; by split; [|left]| |done].
    apply starts_guard, starts_serve. intros fd'. split; [right; by exists fd'|apply Hst]. }
  destruct P as (q' & -> & [->|[fd' ->]]); [by left|right]. exists fd'. split; [done|].
  by eapply Hgood, path_guard.
Qed.

Section Served.
Variables (size : Z) (u : IoURing.IoURing R) (q : IoQueue R T).
Hypotheses (Hsize : 0 <= size < 196613) (Hmake : make size u = Ok (Some q)).

(** The echo server of echo-tcp-coro.cpp echoes: on the queue, for as many connections
    as it has room for and whatever the kernel reports, each session has sent back
    exactly the bytes it received, in order, but for the rest of the last piece
    (1024 bytes at most, and none when it is idle), and nothing else but the
    farewell after all of it; its socket is closed last, once. *)
Theorem echo_server_echoes conns rounds sends listenSocket buf bye bye_len ts
    (Hconns : Z.of_nat conns <= size + 1) (Hentries : 2 * Z.of_nat conns + 1 <= getSize q)
    (Hids : Z.of_nat (conns * S (session_cost 2 rounds sends)) <= 2 ^ 63)
    (Hlen : 0 <= bye_len < 2 ^ 64)
    (Hapart : bye + bye_len <= buf \/ buf + 1024 <= bye) :
  sessions_do q (serve_echo conns rounds sends listenSocket buf bye bye_len ts)
    (fun fd => echo rounds sends fd buf bye bye_len ts)
    (fun fd h => closing fd h /\
       forall s s', received s = sent s -> transfers fd h s = Some s' ->
         echoed (fetch bye bye_len (memory s)) h s').
Proof.
  apply (fits_sessions size u q true _ conns (conns * S (session_cost 2 rounds sends)) listenSocket).
  - by apply fits_serve_echo.
  - intros P fd. apply starts_echo.
  - intros M fd h Hp. split; [by eapply closing_echo|]. intros s s' Hr Ht. by eapply echo_transfers.
Qed.

(** The server of http-coro.cpp answers: each session has sent the response once
    for each piece it received, one after the other, the last one perhaps not in
    full, and in full when it is idle; its socket is closed last, once. *)
Theorem http_server_answers conns rounds sends listenSocket buf response len
    (Hconns : Z.of_nat conns <= size + 1) (Hentries : Z.of_nat conns <= getSize q)
    (Hids : Z.of_nat (conns * S (session_cost 1 rounds sends)) <= 2 ^ 63)
    (Hlen : 0 <= len < 2 ^ 64)
    (Hapart : response + len <= buf \/ buf + 1024 <= response) :
  sessions_do q (serve_http conns rounds sends listenSocket buf response len)
    (startSession rounds sends buf response len)
    (fun fd h => closing fd h /\
       forall s s', transfers fd h s = Some s' ->
         answered (fetch response len (memory s)) (sent s) h s').
Proof.
  apply (fits_sessions size u q false _ conns (conns * S (session_cost 1 rounds sends)) listenSocket).
  - by apply fits_serve_http.
  - intros P fd. apply starts_session.
  - intros M fd h Hp. split; [by eapply closing_session|]. intros s s' Ht. by eapply http_transfers.
Qed.

End Served.
End Running.

End Relays.
