(* ===== verification/Callbacks.v ===== *)
(** * Completion callbacks and the example servers that use them
    (ioqueue.hpp, task.hpp, examples/echo-tcp.cpp, examples/echo-udp.cpp)

    [callback] makes a coroutine that awaits and then calls a function.  Functions
    are written with what their caller does next.  The loops are unrolled as in
    [Servers.v]. *)

From Stdlib Require Import ZArith Lia.
From stdpp Require Import base numbers list gmap option.
From S2P Require Import Prelude Interfaces Uring Queue QueueRing QueueSafety QueueRun Modest Unchecked Servers.

Local Open Scope Z_scope.

Module Callbacks.
Import IoQueue QueueRing QueueSafety Modest Unchecked Servers.

(** [op.callback(func)], then [k]: the coroutine holds copies of both. *)
Definition callback (op : OperationHandle) (func : Z -> prog) (k : prog) : prog :=
  Spawn (Await op func) (fun _ => k).

(** [task().callback(func)], then [k]: the coroutine awaits the caller's temporary,
    which the caller destroys at the end of the expression. *)
Definition task_callback (task : (Z -> prog) -> prog) (func : Z -> prog) (k : prog) : prog :=
  Spawn (task func) (fun c => Destroy c k).

(** [fireAndForget(task())], then [k]: the coroutine owns the task it awaits. *)
Definition fireAndForget (task : (Z -> prog) -> prog) (k : prog) : prog :=
  Spawn (task (fun _ => Ret)) (fun _ => k).

(** [assert(b)]: to await no operation fails in the same way. *)
Definition assert_that (b : bool) (k : prog) : prog :=
  if b then k else Await defaultHandle (fun _ => Ret).

(** ** echo-tcp.cpp *)

(** [Session::close], after which the callback returns: it owns the session, whose
    [Fd] still has the descriptor and closes it as well ([~Fd]). *)
Definition session_close (fd : Z) : prog :=
  Call (Close fd) (fun h => callback h (fun _ => Ret) (CloseFd fd Ret)).

(** [Session::sendResponse]: [size] and [sendOffset] are [recvBuffer_.size()] and
    [sendOffset_], [again] is [receive] of the same session. *)
Fixpoint sendResponse (sends : nat) (fd buf size sendOffset : Z) (again : prog) : prog :=
  match sends with
  | O => Ret
  | S sends =>
      assert_that (sendOffset <? size)
        (Call (Send fd (buf + sendOffset) (size - sendOffset)) (fun h =>
          callback h (fun sentBytes =>
            if sentBytes <? 0 then session_close fd
            else if sentBytes =? 0 then session_close fd
            else assert_that (0 <? sentBytes)
              (if u64 (sendOffset + sentBytes) <? size then
                 sendResponse sends fd buf size (u64 (sendOffset + sentBytes)) again
               else again)) Ret))
  end.

(** [Session::respond] *)
Definition respond (sends : nat) (fd buf size : Z) (again : prog) : prog :=
  sendResponse sends fd buf size 0 again.

(** [Session::receive], then [k]. *)
Fixpoint receive (rounds sends : nat) (fd buf : Z) (k : prog) : prog :=
  match rounds with
  | O => k
  | S rounds =>
      Call (Recv fd buf 2048) (fun h =>
        callback h (fun readBytes =>
          if readBytes <? 0 then session_close fd
          else if readBytes =? 0 then session_close fd
          else respond sends fd buf readBytes (receive rounds sends fd buf Ret)) k)
  end.

(** [Server::handleAccept], then [k]. *)
Definition handleAccept (rounds sends : nat) (buf fd : Z) (k : prog) : prog :=
  if fd <? 0 then k else receive rounds sends fd buf k.

(** [Server::accept] and its loop while no accept could be added. *)
Fixpoint accept (conns rounds sends : nat) (listenSocket buf : Z) : prog :=
  match conns with
  | O => Ret
  | S conns =>
      Call (Accept listenSocket 0 0) (fun h =>
        let added := valid h in
        callback h (fun result =>
          handleAccept rounds sends buf result (accept conns rounds sends listenSocket buf))
          (if added then Ret else accept conns rounds sends listenSocket buf))
  end.

(** ** echo-udp.cpp: [receive] and [respond]; [msg] is the header in the task's frame. *)
Fixpoint udp_receive (rounds : nat) (socket msg : Z) : prog :=
  match rounds with
  | O => Ret
  | S rounds =>
      task_callback (recvfrom socket msg 0) (fun receivedBytes =>
        if receivedBytes <? 0 then udp_receive rounds socket msg
        else
          (* respond *)
          task_callback (sendto socket msg 0) (fun _ => udp_receive rounds socket msg) Ret) Ret
  end.

(** ** The discipline *)

Lemma affordable_callback c func k n1 m1 n2 m2 :
  (forall r, affordable n1 (S m1) (func r)) -> (forall h, valid h = true -> affordable n2 m2 (k h)) ->
  affordable (S (n1 + n2)) (S m1 + m2) (Call c (fun h => callback h func (k h))).
Proof.
  intros Hf Hk b last Hn Hm. cbn [guard wf callback]. split; [lia|]. split; [|done].
  intros id Hid Hnew. pose proof (valid_ok id Hid) as Hv. rewrite Hv. cbn [wf].
  exists (mkBudget n1 (S m1) {[id]} ∅), (mkBudget n2 m2 (b_handles b) (b_children b)).
  split; [unfold splits; cbn; split_and!; first [lia|set_solver]|].
  split; [|by intros; apply Hk].
  split; [done|]. split; [cbn; set_solver|]. split; [cbn; lia|]. intros r. by apply Hf.
Qed.

Lemma affordable_session_close fd : affordable 1 1 (session_close fd).
Proof.
  apply (affordable_callback _ _ (fun _ => CloseFd fd Ret) 0 0 0 0); intros; [|by intros b last].
  eapply affordable_mono; [apply affordable_ret|lia..].
Qed.

Lemma affordable_sendResponse sends fd buf size offset again n :
  affordable (S n) 1 again -> offset < size ->
  affordable (sends + S n) 1 (sendResponse sends fd buf size offset again).
Proof.
  intros Ha. revert offset. induction sends as [|sends IH]; intros offset Ho; cbn [sendResponse Nat.add].
  { eapply affordable_mono; [apply affordable_ret|lia..]. }
  unfold assert_that at 1. rewrite (proj2 (Z.ltb_lt offset size) Ho).
  eapply affordable_mono; [apply (affordable_callback _ _ (fun _ => Ret) (sends + S n) 0 0 0)|lia..].
  - intros r. assert (affordable (sends + S n) 1 (session_close fd)) as Hc
      by (eapply affordable_mono; [apply affordable_session_close|lia..]).
    destruct (Z.ltb_spec r 0); [done|]. destruct (Z.eqb_spec r 0); [done|].
    unfold assert_that. rewrite (proj2 (Z.ltb_lt 0 r)) by lia.
    destruct (Z.ltb_spec (u64 (offset + r)) size); [by apply IH|].
    eapply affordable_mono; [exact Ha|lia..].
  - intros. apply affordable_ret.
Qed.

Lemma affordable_receive rounds sends fd buf k n m :
  affordable n m k ->
  affordable (rounds * (sends + 2) + n) (1 + m) (receive rounds sends fd buf k).
Proof.
  revert k n m. induction rounds as [|rounds IH]; intros k n m Hk; cbn [receive].
  { eapply affordable_mono; [exact Hk|lia..]. }
  set (c := (rounds * (sends + 2))%nat).
  eapply affordable_mono;
    [apply (affordable_callback _ _ (fun _ => k) (sends + S c) 0 n m); [|by intros]|lia..].
  intros r. assert (affordable (sends + S c) 1 (session_close fd)) as Hc
    by (eapply affordable_mono; [apply affordable_session_close|lia..]).
  destruct (Z.ltb_spec r 0); [done|]. destruct (Z.eqb_spec r 0); [done|].
  apply affordable_sendResponse; [|lia].
  eapply affordable_mono; [apply (IH Ret 0%nat 0%nat), affordable_ret|lia..].
Qed.

(** What an echo server of [conns] connections costs. *)
Definition server_cost (conns rounds sends : nat) : nat := conns * S (rounds * (sends + 2)).

Lemma affordable_accept conns rounds sends listenSocket buf :
  affordable (server_cost conns rounds sends) conns (accept conns rounds sends listenSocket buf).
Proof.
  unfold server_cost. induction conns as [|conns IH]; [apply affordable_ret|]. cbn [accept].
  set (c := (rounds * (sends + 2))%nat) in *.
  eapply affordable_mono;
    [apply (affordable_callback _ _
       (fun h => if valid h then Ret else accept conns rounds sends listenSocket buf)
       (c + conns * S c) conns 0 0)|lia..].
  - intros fd. unfold handleAccept. destruct (fd <? 0).
    + eapply affordable_mono; [exact IH|lia..].
    + by apply affordable_receive.
  - intros h ->. apply affordable_ret.
Qed.

(** ** One operation at a time *)

Lemma modest_callback linked c func k n1 n2 n :
  (n1 + n2 < n)%nat -> (forall r, modest linked (func r) None (S n1)) ->
  (forall h, valid h = true -> modest linked (k h) None n2) ->
  modest linked (Call c (fun h => callback h func (k h))) None n.
Proof.
  intros Hn Hf Hk. split; [done|]. split; [lia|]. intros id Hid.
  exists n1, n2, (Some (id, true)), None. split; [lia|]. split; [by left|].
  split; [split; [by exists true|done]|]. intros _. by apply Hk, valid_handle_range.
Qed.

Lemma modest_session_close linked fd : modest linked (session_close fd) None 1.
Proof. by apply (modest_callback _ _ _ (fun _ => CloseFd fd Ret) 0 0); [lia| |]. Qed.

Lemma modest_sendResponse linked sends fd buf size again : modest linked again None 1 -> forall offset,
  offset < size -> modest linked (sendResponse sends fd buf size offset again) None 1.
Proof.
  intros Ha. induction sends as [|sends IH]; intros offset Ho; [done|].
  cbn [sendResponse]. unfold assert_that at 1. rewrite (proj2 (Z.ltb_lt offset size) Ho).
  apply (modest_callback _ _ _ (fun _ => Ret) 0 0); [lia| |done]. intros r.
  pose proof (modest_session_close linked fd) as Hc.
  destruct (Z.ltb_spec r 0); [done|]. destruct (Z.eqb_spec r 0); [done|].
  unfold assert_that. rewrite (proj2 (Z.ltb_lt 0 r)) by lia.
  destruct (Z.ltb_spec (u64 (offset + r)) size); [by apply IH|done].
Qed.

Lemma modest_receive linked rounds sends fd buf : forall k n,
  modest linked k None n -> modest linked (receive rounds sends fd buf k) None (S n).
Proof.
  induction rounds as [|rounds IH]; intros k n Hk; cbn [receive].
  { by apply (modest_mono _ _ _ n); [|lia]. }
  apply (modest_callback _ _ _ (fun _ => k) 0 n); [lia| |done]. intros r.
  pose proof (modest_session_close linked fd) as Hc.
  destruct (Z.ltb_spec r 0); [done|]. destruct (Z.eqb_spec r 0); [done|].
  apply modest_sendResponse; [|lia]. by apply IH.
Qed.

Lemma modest_accept linked conns rounds sends listenSocket buf :
  modest linked (accept conns rounds sends listenSocket buf) None conns.
Proof.
  induction conns as [|conns IH]; [done|]. cbn [accept].
  apply (modest_callback _ _ _ (fun h => if valid h then Ret else accept conns rounds sends listenSocket buf)
    conns 0); [lia| |by intros h ->].
  intros fd. unfold handleAccept. destruct (fd <? 0); [by apply (modest_mono _ _ _ conns); [|lia]|].
  by apply modest_receive.
Qed.

(** Firing and forgetting a task of one operation is a callback that does nothing. *)
Lemma affordable_fireAndForget c k n m :
  affordable n m k ->
  affordable (1 + n) (1 + m) (fireAndForget (fun r => Call c (fun h => Await h r)) k).
Proof.
  intros Hk. apply affordable_spawn; [|by intros].
  apply affordable_await. intros _. eapply affordable_mono; [apply affordable_ret|lia..].
Qed.

(** ** The servers on a queue *)

Section Running.
Context {R : Type} `{!LibUring R} `{!LibUringSpec R}.
Context {T : Type} `{!CompleterTable T} `{!CompleterTableSpec T}.
Context {allocator : Allocator}.

Lemma fits_accept size u (q : IoQueue R T) conns rounds sends listenSocket buf :
  0 <= size < 196613 -> make size u = Ok (Some q) -> Z.of_nat conns <= getSize q ->
  Z.of_nat conns <= size + 1 -> Z.of_nat (server_cost conns rounds sends) <= 2 ^ 63 ->
  Fits size u q false (server_cost conns rounds sends) conns (accept conns rounds sends listenSocket buf).
Proof. intros H1 H2 H3 H4 H5. split; try done; [apply affordable_accept|apply modest_accept]. Qed.

(** The callback server of echo-tcp.cpp runs without breaking an assertion, its
    own included, and without using a dead object, on a queue of [size] with an entry
    for each connection, up to [size + 1] of them in all, whatever the kernel reports;
    with a kernel that completes what is waited for it ends. *)
Theorem callback_server_safe size u (q : IoQueue R T) conns rounds sends listenSocket buf :
  0 <= size < 196613 -> make size u = Ok (Some q) -> Z.of_nat conns <= getSize q ->
  Z.of_nat conns <= size + 1 -> Z.of_nat (server_cost conns rounds sends) <= 2 ^ 63 ->
  runs_safely q (accept conns rounds sends listenSocket buf) /\
  (ReliableRing R ->
    ends_within q (server_cost conns rounds sends) (accept conns rounds sends listenSocket buf)).
Proof.
  intros H1 H2 H3 H4 H5.
  pose proof (fits_accept size u q conns rounds sends listenSocket buf H1 H2 H3 H4 H5) as HF.
  split; [by eapply fits_runs|]. intros Hr. by eapply fits_ends.
Qed.

(** What [cancel] does to the queue and the completers. *)
Definition cancel_core (op : OperationHandle) (b : bool) (q : IoQueue R T) (heap : gmap Z Z)
    : outcome (OperationHandle * IoQueue R T * gmap Z Z) :=
  _ ← cassert (valid op);
  '(q, heap) ← (if b then
         '(ptr, t) ← tbl_remove (h_id op) (completers_ q);
         if ptr =? 0 then Ok (set_completers t q, heap)
         else _ ← deref (heap !! ptr); Ok (set_completers t q, delete ptr heap)
       else Ok (q, heap));
  '(sqe, u) ← IoURing.prepareAsyncCancel (h_id op) (ring_ q);
  let '(h, q) := finalizeSqe_with sqe OpIdIgnore (set_ring u q) in
  Ok (h, q, heap).

Lemma cancel_eq op b (w : World R T) :
  cancel op b w = '(h, q, heap) ← cancel_core op b (queue w) (completers w);
    Ok (h, set_heap heap (set_queue q w)).
Proof.
  destruct w as [q hp fr al nx cl]. unfold cancel, cancel_core. cbn [queue completers].
  destruct (cassert (valid op)) as [[]|]; [|done]. cbn [mbind outcome_bind].
  destruct b; cbn [mbind outcome_bind].
  - destruct (tbl_remove (h_id op) (completers_ q)) as [[ptr t]|]; [|done].
    cbn [mbind outcome_bind]. unfold delete_completer. destruct (ptr =? 0).
    + cbn [mbind outcome_bind queue set_queue].
      destruct (IoURing.prepareAsyncCancel _ _) as [[sqe u]|]; [|done]. cbn [mbind outcome_bind].
      by destruct (finalizeSqe_with _ _ _).
    + cbn [completers set_queue]. destruct (deref (hp !! ptr)); [|done].
      cbn [mbind outcome_bind queue set_queue set_heap].
      destruct (IoURing.prepareAsyncCancel _ _) as [[sqe u]|]; [|done]. cbn [mbind outcome_bind].
      by destruct (finalizeSqe_with _ _ _).
  - destruct (IoURing.prepareAsyncCancel _ _) as [[sqe u]|]; [|done]. cbn [mbind outcome_bind].
    by destruct (finalizeSqe_with _ _ _).
Qed.

(** An operation, on a queue that has an entry left. *)
Lemma invoke_free c (w : World R T) :
  IoURing.ready (ring_ (queue w)) -> id_ok (nextOpId_ (queue w)) ->
  0 < IoURing.getSqeCapacity (ring_ (queue w)) ->
  exists q', invoke c w = Ok (mkHandle true (nextOpId_ (queue w)), set_queue q' w) /\
    IoURing.ready (ring_ q') /\ completers_ q' = completers_ (queue w) /\
    set_user_data (nextOpId_ (queue w)) (IoURing.encode (R := R) (request_of c)) ∈ requests (ring_ q').
Proof.
  intros Hr Hid Hcap. destruct (invoke_ok c w Hr Hid) as (h & q' & Hi & [H|H]).
  - destruct H as (p & -> & Hq & _ & _ & Hpu). exists q'. destruct Hq. split_and!; try done.
    by eapply requests_new.
  - lia.
Qed.

Lemma delete_completer_ok p f (w : World R T) :
  completers w !! p = Some f -> p <> 0 ->
  delete_completer p w = Ok (set_heap (delete p (completers w)) w).
Proof. intros Hp H0. unfold delete_completer. by rewrite (proj2 (Z.eqb_neq p 0)), Hp. Qed.

(** Cancelling an operation that has just been awaited, as far as the queue and the
    completers go. *)
Lemma cancel_awaited id p f t (q : IoQueue R T) :
  IoURing.ready (ring_ q) -> id_ok id -> storable p ->
  tbl_rep t ∅ -> 0 < tbl_capacity t ->
  exists t2 h q', tbl_insert id p t = Ok t2 /\
    cancel_core (mkHandle true id) true (set_completers t2 q) (<[p := f]> ∅) = Ok (h, q', ∅) /\
    tbl_rep (completers_ q') ∅ /\ requests (ring_ q) ⊆ requests (ring_ q').
Proof.
  intros Hr Hid [Hp0 Hp] Hrep Hcap.
  destruct (tbl_insert_spec t ∅ id p Hrep) as (t2 & Hins & Hrep2 & _); [done..|].
  destruct (tbl_remove_spec t2 _ id Hrep2) as (t3 & Hrem & Hrep3 & _).
  rewrite lookup_insert_eq in Hrem. rewrite delete_insert_id in Hrep3 by done.
  set (w2 := mkWorld (set_completers t2 q) {[p := f]} ∅ 0 0 []).
  set (w3 := mkWorld (set_completers t3 q) (delete p {[p := f]}) ∅ 0 0 []).
  destruct (cancel_false_steps (mkHandle true id) w3 Hr (valid_ok id Hid))
    as (o & h & q' & Hcan & Hcs & _ & Ho).
  assert (cancel (mkHandle true id) true w2 = Ok (h, set_queue q' w3)) as Hc.
  { rewrite (cancel_true_eq (mkHandle true id) w2 p t3 w3 (valid_ok id Hid) Hrem); [done|].
    apply (delete_completer_ok p f (set_queue (set_completers t3 (queue w2)) w2)); [|done].
    apply lookup_singleton_eq. }
  exists t2, h, q'. split; [done|]. split.
  - rewrite cancel_eq in Hc. apply outcome_bind_Ok in Hc as ([[h1 q1] hp1] & Hc & [= <- <- Hhp]).
    change (queue w2) with (set_completers t2 q) in Hc. change (completers w2) with (<[p := f]> ∅ : gmap Z Z) in Hc.
    rewrite Hc. do 2 f_equal. rewrite Hhp. apply delete_singleton_eq.
  - split; [by rewrite Hcs|]. intros x Hx. destruct o as [p'|].
    + eapply requests_kept; [apply Ho|done].
    + destruct Ho as (_ & Hun & Hs). by rewrite (requests_same _ _ Hun Hs).
Qed.

(** A callback on a temporary task: the task is destroyed, which cancels its
    operation, so that the coroutine of the callback is never resumed. *)
Lemma task_callback_dropped c (w : World R T) :
  IoURing.ready (ring_ (queue w)) -> id_ok (nextOpId_ (queue w)) ->
  0 < IoURing.getSqeCapacity (ring_ (queue w)) ->
  tbl_rep (completers_ (queue w)) ∅ -> 0 < tbl_capacity (completers_ (queue w)) ->
  completers w = ∅ -> frames w = {[0 := Running]} -> nextFrame w = 1 ->
  exists w', tbl_rep (completers_ (queue w')) ∅ /\ completers w' = ∅ /\
    frames w' = {[0 := Finished]} /\
    set_user_data (nextOpId_ (queue w)) (IoURing.encode (R := R) (request_of c)) ∈ requests (ring_ (queue w')) /\
    forall func, exec 0 (task_callback (fun k => Call c (fun h => Await h k)) func Ret) w = Ok w'.
Proof.
  intros Hr Hid Hcap Hrep Htc Hheap Hfr Hnf. set (id := nextOpId_ (queue w)).
  destruct (new_completer_spec (allocs w) ∅) as [_ Hp]. set (p := new_completer (allocs w) ∅) in *.
  destruct (invoke_free c w Hr Hid Hcap) as (q1 & Hi & Hr1 & Hc1 & Hreq). fold id in Hi, Hreq.
  rewrite invoke_request in Hi.
  apply outcome_bind_Ok in Hi as ([h1 q1'] & Hi & [= -> ->]).
  destruct (cancel_awaited id p 1 (completers_ (queue w)) q1) as (t2 & h & q' & Hins & Hcan & Hrep' & Hkept); [done..|].
  exists (mkWorld q' ∅ {[0 := Finished]} (S (allocs w)) 2 (closed w)). split_and!; [done..|by apply Hkept|].
  intros func. unfold task_callback. cbn [exec]. rewrite invoke_request. cbn [queue].
  rewrite Hi. cbn [mbind outcome_bind exec]. unfold await. rewrite (valid_ok id Hid).
  cbn [cassert mbind outcome_bind allocs completers set_frame set_queue queue].
  rewrite Hheap, Hfr, Hnf. fold p. unfold setCompleter. cbn [h_id]. rewrite Hc1, Hins.
  cbn [mbind outcome_bind frames nextFrame]. unfold destroy. cbn [frames].
  cbn [set_queue set_frame frames]. rewrite lookup_insert_eq. cbn [deref mbind outcome_bind].
  unfold destroy_awaiter. cbn [operation]. rewrite (valid_ok id Hid), cancel_eq.
  cbn [set_queue queue completers]. rewrite Hcan. cbn [mbind outcome_bind]. unfold set_heap, set_frame.
  cbn [set_queue queue completers frames allocs nextFrame closed]. done.
Qed.

(** A new queue has entries. *)
Lemma new_capacity size u (q : IoQueue R T) :
  0 <= size < 196613 -> make size u = Ok (Some q) -> 1 <= getSize q ->
  0 < IoURing.getSqeCapacity (ring_ q).
Proof.
  intros Hsize Hmake H. pose proof (make_room size u q false 0 Hsize Hmake ltac:(cbn; lia)) as HR.
  eapply (free_capacity _ _ _ 0); [exact HR|].
  destruct (QueueRun.make_ok size u q Hsize Hmake) as (_ & Ho & _). unfold outstanding in Ho.
  apply app_nil in Ho as [Hsq%fmap_nil_inv _]. rewrite Hsq. cbn. unfold getSize, IoURing.getNumSqeEntries in *. lia.
Qed.

(** The server of echo-udp.cpp serves nobody: the callback's coroutine awaits a
    task that is destroyed at the end of the expression, so the receive is
    cancelled at once, whatever [receivedBytes] should have led to, and [run]
    finds nothing to wait for and returns. *)
Theorem udp_server_idle size u (q : IoQueue R T) socket msg :
  0 <= size < 196613 -> make size u = Ok (Some q) -> 1 <= getSize q ->
  exists w, completers w = ∅ /\ forall rounds,
    start (udp_receive (S rounds) socket msg) (new_world q) = Ok w /\
    forall fuel, run fuel w = Ok (Some w).
Proof.
  intros Hsize Hmake Hentries.
  destruct (QueueRun.make_ok size u q Hsize Hmake) as (Hr & Ho & Hn & _ & Hrep & Hcap).
  set (w0 := mkWorld q ∅ {[0 := Running]} 0 1 []).
  destruct (task_callback_dropped (Recvmsg socket msg 0) w0 Hr) as (w & Hrep' & Hheap & _ & _ & Hex); try done.
  { cbn. rewrite Hn. unfold id_ok. lia. }
  { by apply (new_capacity size u). }
  { cbn. lia. }
  exists w. split; [done|]. intros rounds. split.
  - unfold start. cbn [nextFrame new_world queue completers frames allocs closed udp_receive]. apply Hex.
  - intros fuel. pose proof (tbl_size_spec _ _ Hrep') as Hsz. rewrite map_size_empty in Hsz.
    by destruct fuel; cbn [run]; rewrite Hsz.
Qed.

End Running.
End Callbacks.
