(* ===== verification/CallbackRelays.v ===== *)
(** * What the callback server echo-tcp.cpp sends

    A session is a chain of callbacks, each started by the one before.  Its history
    is the end of the story of the last of them ([Stories]); the connection and its
    bytes are those of [Relays]. *)

From Stdlib Require Import ZArith Lia.
From stdpp Require Import base numbers list gmap option.
From S2P Require Import Prelude Interfaces Uring Queue QueueSafety Unchecked EventLoop Histories.
From S2P Require Import Stories Servers Callbacks Relays.

Local Open Scope Z_scope.

Module CallbackRelays.
Import IoQueue Unchecked EventLoop Histories Stories Servers Callbacks Relays.

(** ** Stories of callbacks *)

(** The callback was called, or the caller went on. *)
Lemma lineage_callback_inv M c func k h :
  lineage M (Call c (fun h => callback h func (k h))) h ->
  h = [] \/ (exists r h', h = (c, r) :: h' /\ lineage M (func r) h') \/ exists h0, lineage M (k h0) h.
Proof.
  assert (forall op, (M !! h_id op = Some c \/ valid op = false) ->
    lineage M (callback op func (k op)) h -> h = [] \/
    (exists r h', h = (c, r) :: h' /\ lineage M (func r) h') \/ exists h0, lineage M (k h0) h) as H.
  { intros op Hop Hc. inversion Hc as [| | | | | |? ? ? Ha|? ? ? ? Hk| |]; subst;
      [by left| |right; right; by exists op].
    inversion Ha as [| | | | |? ? c' r h' Hv Hc' Hf| | | |]; subst; [by left|right; left].
    destruct Hop as [Hop|Hop]; [|by rewrite Hop in Hv].
    rewrite Hop in Hc'. injection Hc' as <-. by exists r, h'. }
  intros Hl. inversion Hl as [|? ? id ? Hid Hc|? ? ? Hc| | | | | | |]; subst; [by left| |].
  - apply (H (mkHandle true id)); [by left|done].
  - apply (H defaultHandle); [by right|done].
Qed.

Lemma lineage_callback_ret M c func h :
  lineage M (Call c (fun h => callback h func Ret)) h ->
  h = [] \/ exists r h', h = (c, r) :: h' /\ lineage M (func r) h'.
Proof.
  intros [->|[?|[_ ->%lineage_ret_inv]]]%(lineage_callback_inv M c func (fun _ => Ret)); auto.
Qed.

Lemma lineage_assert M b p h : lineage M (assert_that b p) h -> h = [] \/ (b = true /\ lineage M p h).
Proof. destruct b; cbn; [by right|]. inversion 1; subst; [by left|done]. Qed.

Lemma lineage_close M fd h : lineage M (session_close fd) h -> h = [] \/ exists r, h = [(Close fd, r)].
Proof.
  intros [->|[(r & h' & -> & ->%lineage_ret_inv)|[_ Hk]]]%(lineage_callback_inv M _ _ (fun _ => CloseFd fd Ret));
    [by left|right; by exists r|left].
  inversion Hk as [| | | | | | | | |? ? ? Hr]; subst; [done|by apply lineage_ret_inv in Hr].
Qed.

(** ** A session *)

(** The last receive found nothing: the peer has closed, or there was an error. *)
Definition drained (h : history) : Prop := exists f a n r, (Recv f a n, r) ∈ h /\ r <= 0.

Definition passes (e : call * Z) : Prop :=
  is_send e \/ (exists f, e.1 = Close f) \/ exists f a n r, e = (Recv f a n, r) /\ 0 < r.

Lemma drained_app h1 h2 : Forall passes h1 -> drained (h1 ++ h2) -> drained h2.
Proof.
  intros H (f & a & n & r & [Hin|Hin]%elem_of_app & Hr); [|by exists f, a, n, r].
  destruct (proj1 (list.Forall_forall _ _) H _ Hin) as [(? & ? & ? & ? & ?)|[[? ?]|(? & ? & ? & ? & [= <- <- <- <-] & ?)]];
    [done|done|lia].
Qed.

Lemma drained_passes h : Forall passes h -> ~ drained h.
Proof.
  intros H Hd. rewrite <- (app_nil_r h) in Hd. apply drained_app in Hd as (? & ? & ? & ? & Hin & _); [|done].
  by apply elem_of_nil in Hin.
Qed.

Lemma sends_pass h : Forall is_send h -> Forall passes h.
Proof. apply Forall_impl. intros e He. by left. Qed.

(** What was received has been sent back and nothing else, but for the rest of the
    last piece; all of it when the last receive found nothing. *)
Definition echoed_back (h : history) (s : conn) : Prop :=
  exists rest, received s = sent s ++ rest /\ Z.of_nat (length rest) <= 2048 /\
    (drained h -> rest = []).

Lemma echoed_back_all h s : received s = sent s -> echoed_back h s.
Proof. intros Hr. exists []. by rewrite app_nil_r. Qed.

Lemma echoed_back_more h1 h2 s : Forall passes h1 -> echoed_back h2 s -> echoed_back (h1 ++ h2) s.
Proof.
  intros H (rest & H1 & H2 & H3). exists rest. split; [done|]. split; [done|].
  intros Hd. by eapply H3, drained_app.
Qed.

Section Session.
Context (M : gmap Z call) (fd buf : Z).

(** [sendResponse] sends from [sendOffset] on, in order and without gaps; it goes on
    receiving only when all is sent. *)
Lemma sendResponse_transfers size again sends : forall offset h s s',
  lineage M (sendResponse sends fd buf size offset again) h -> transfers fd h s = Some s' ->
  0 <= offset <= size -> size < 2 ^ 64 ->
  exists n h1 h2, h = h1 ++ h2 /\ Forall is_send h1 /\ 0 <= n <= size - offset /\
    transfers fd h2 (push (fetch (buf + offset) n (memory s)) s) = Some s' /\
    ((h2 = [] \/ exists r, h2 = [(Close fd, r)]) \/ (n = size - offset /\ lineage M again h2)).
Proof.
  assert (Hnone : forall s offset, push (fetch (buf + offset) 0 (memory s)) s = s).
  { intros s offset. unfold push. cbn. rewrite app_nil_r. by destruct s. }
  induction sends as [|sends IH]; intros offset h s s' Hp Ht Ho Hs; cbn [sendResponse] in Hp.
  { apply lineage_ret_inv in Hp as ->. exists 0, [], []. rewrite Hnone.
    split_and!; try done; [lia|by left; left]. }
  apply lineage_assert in Hp as [->|[Hlt%Z.ltb_lt [->|(r & h' & -> & Hp)]%lineage_callback_ret]].
  1-2: exists 0, [], []; rewrite Hnone; split_and!; try done; [lia|by left; left].
  assert (is_send (Send fd (buf + offset) (size - offset), r)) as Hsend by by eexists _, _, _, _.
  cbn [transfers transfer] in Ht. rewrite Z.eqb_refl in Ht. cbn [negb orb] in Ht.
  destruct (Z.leb_spec r 0) as [Hr|Hr].
  - assert (lineage M (session_close fd) h') as Hc%lineage_close.
    { destruct (Z.ltb_spec r 0); [done|]. by rewrite (proj2 (Z.eqb_eq r 0)) in Hp by lia. }
    exists 0, [(Send fd (buf + offset) (size - offset), r)], h'. rewrite Hnone.
    split_and!; [done|by constructor|lia|lia|done|by left].
  - destruct (Z.leb_spec r (size - offset)) as [Hrs|]; [|done].
    rewrite (proj2 (Z.ltb_ge r 0)), (proj2 (Z.eqb_neq r 0)), u64_small in Hp by lia.
    apply lineage_assert in Hp as [->|[_ Hp]].
    { exists r, [(Send fd (buf + offset) (size - offset), r)], [].
      split_and!; [done|by constructor|lia|lia|done|by left; left]. }
    destruct (Z.ltb_spec (offset + r) size) as [Hmore|Hall].
    + destruct (IH _ _ _ _ Hp Ht) as (n & h1 & h2 & -> & Hh1 & Hn & Ht2 & Hend); [lia..|].
      exists (r + n), ((Send fd (buf + offset) (size - offset), r) :: h1), h2.
      split_and!; [done|by constructor|lia|lia| |].
      * rewrite fetch_app by lia. unfold push in *. cbn in Ht2. by rewrite app_assoc, <- Z.add_assoc.
      * destruct Hend as [?|[-> ?]]; [by left|right]. split; [lia|done].
    + exists r, [(Send fd (buf + offset) (size - offset), r)], h'.
      split_and!; [done|by constructor|lia|lia|done|right]. split; [lia|done].
Qed.

(** A round: [bs] was received, [n] bytes of it sent back. *)
Lemma round_echoed_back r bs s s1 h n :
  received s = sent s -> received s1 = received s ++ bs -> sent s1 = sent s ->
  memory s1 = store buf bs (memory s) -> Z.of_nat (length bs) = r -> r <= 2048 -> 0 <= n <= r ->
  Forall passes h -> echoed_back h (push (fetch buf n (memory s1)) s1).
Proof.
  intros Hr Hr1 Hs1 Hm Hb Hle Hn Hh. exists (drop (Z.to_nat n) bs).
  assert (fetch buf n (memory s1) = take (Z.to_nat n) bs) as ->.
  { rewrite <- (fetch_store buf bs (memory s)), <- Hm, Hb.
    replace r with (n + (r - n)) by lia. rewrite fetch_app by lia.
    pose proof (length_fetch buf n (memory s1) ltac:(lia)) as Hl.
    rewrite take_app_le by lia. by rewrite take_ge by lia. }
  cbn. rewrite Hr1, Hs1, Hr, <- app_assoc, take_drop, length_drop. split; [done|]. split; [lia|].
  intros Hd. by destruct (drained_passes h Hh).
Qed.

Lemma receive_transfers sends : forall rounds h s s',
  lineage M (receive rounds sends fd buf Ret) h -> transfers fd h s = Some s' ->
  received s = sent s -> echoed_back h s'.
Proof.
  induction rounds as [|rounds IH]; intros h s s' Hp Ht Hr; cbn [receive] in Hp.
  { apply lineage_ret_inv in Hp as ->. injection Ht as <-. by apply echoed_back_all. }
  apply lineage_callback_ret in Hp as [->|(r & h' & -> & Hp)].
  { injection Ht as <-. by apply echoed_back_all. }
  destruct (Z.ltb_spec 0 r) as [Hr0|Hr0].
  - destruct (recv_transfers fd buf 2048 r h' s s' Hr0 Ht) as (Hr1 & bs & s1 & Hb & Hm & Hre & Hse & Ht1).
    rewrite (proj2 (Z.ltb_ge r 0)), (proj2 (Z.eqb_neq r 0)) in Hp by lia.
    destruct (sendResponse_transfers r _ sends 0 h' s1 s' Hp Ht1)
      as (n & h1 & h2 & -> & Hh1 & Hn & Ht2 & Hend); [lia..|]. rewrite Z.add_0_r in Ht2.
    assert (passes (Recv fd buf 2048, r)) as Hrecv by (right; right; by eexists _, _, _, _).
    pose proof (sends_pass h1 Hh1) as Hh1'.
    destruct Hend as [Hend|[-> Hl]].
    + assert (Forall passes h2 /\ s' = push (fetch buf n (memory s1)) s1) as [Hh2 ->].
      { destruct Hend as [->|[r' ->]]; injection Ht2 as <-; split; try done.
        apply Forall_singleton. right. left. by exists fd. }
      eapply round_echoed_back; try done; [lia|]. constructor; [done|]. by apply Forall_app.
    + apply (echoed_back_more (_ :: h1)); [by constructor|].
      apply (IH h2 _ s' Hl Ht2). cbn. rewrite Hre, Hse, Hr, Z.sub_0_r. f_equal.
      by rewrite Hm, <- Hb, fetch_store.
  - cbn [transfers transfer] in Ht. rewrite Z.eqb_refl, (proj2 (Z.leb_le r 0)) in Ht by done. cbn in Ht.
    assert (lineage M (session_close fd) h') as Hc%lineage_close.
    { destruct (Z.ltb_spec r 0); [done|]. by rewrite (proj2 (Z.eqb_eq r 0)) in Hp by lia. }
    destruct Hc as [->|[r' ->]]; injection Ht as <-; by apply echoed_back_all.
Qed.

(** The socket is closed last, once. *)
Lemma closing_last h : h = [] \/ (exists r, h = [(Close fd, r)]) -> closing fd h.
Proof. intros H. exists [], h. by split_and!. Qed.

Lemma closing_sendResponse size again sends : (forall h, lineage M again h -> closing fd h) ->
  forall offset h, lineage M (sendResponse sends fd buf size offset again) h -> closing fd h.
Proof.
  intros Ha. induction sends as [|sends IH]; intros offset h Hp; cbn [sendResponse] in Hp.
  { apply lineage_ret_inv in Hp as ->. apply closing_nil. }
  apply lineage_assert in Hp as [->|[_ [->|(r & h' & -> & Hp)]%lineage_callback_ret]]; [apply closing_nil..|].
  apply (closing_app fd [_]); [apply Forall_singleton; eexists _, _, _; by right|].
  destruct (r <? 0); [by eapply closing_last, lineage_close|].
  destruct (r =? 0); [by eapply closing_last, lineage_close|].
  apply lineage_assert in Hp as [->|[_ Hp]]; [apply closing_nil|].
  destruct (u64 (offset + r) <? size); [by eapply IH|by apply Ha].
Qed.

Lemma closing_receive sends : forall rounds h,
  lineage M (receive rounds sends fd buf Ret) h -> closing fd h.
Proof.
  induction rounds as [|rounds IH]; intros h Hp; cbn [receive] in Hp.
  { apply lineage_ret_inv in Hp as ->. apply closing_nil. }
  apply lineage_callback_ret in Hp as [->|(r & h' & -> & Hp)]; [apply closing_nil|].
  apply closing_recv. destruct (r <? 0); [by eapply closing_last, lineage_close|].
  destruct (r =? 0); [by eapply closing_last, lineage_close|]. by eapply closing_sendResponse.
Qed.

End Session.

(** ** The server *)

(** A story of the server: connections are accepted, and then, perhaps, the last of
    them has a session. *)
Definition accepts_then (listenSocket : Z) (good : Z -> history -> Prop) (h : history) : Prop :=
  exists accepts session, h = accepts ++ session /\
    Forall (fun e => e.1 = Accept listenSocket 0 0) accepts /\
    (session = [] \/ exists fd, list.last accepts = Some (Accept listenSocket 0 0, fd) /\
       0 <= fd /\ good fd session).

Lemma accepts_none listenSocket good : accepts_then listenSocket good [].
Proof. exists [], []. by split_and!; [| |left]. Qed.

Lemma accepts_more listenSocket good fd h :
  accepts_then listenSocket good h -> accepts_then listenSocket good ((Accept listenSocket 0 0, fd) :: h).
Proof.
  intros (accepts & session & -> & Ha & Hs). exists ((Accept listenSocket 0 0, fd) :: accepts), session.
  split; [done|]. split; [by constructor|]. destruct Hs as [?|(fd' & Hl & ?)]; [by left|right].
  exists fd'. split; [|done]. by destruct accepts.
Qed.

Lemma receive_or_next M rounds sends fd buf k h :
  lineage M (receive rounds sends fd buf k) h ->
  lineage M (receive rounds sends fd buf Ret) h \/ lineage M k h.
Proof.
  destruct rounds as [|rounds]; cbn [receive]; [by right|].
  intros H. inversion H as [|? ? id ? Hid Hc|? ? ? Hc| | | | | | |]; subst; [by left; constructor| |];
    inversion Hc; subst; try (by left; constructor); try (by right).
  - left. eapply lineage_call; [done|]. by apply lineage_child.
  - left. apply lineage_full. by apply lineage_child.
Qed.

Lemma accept_stories M rounds sends listenSocket buf : forall conns h,
  lineage M (accept conns rounds sends listenSocket buf) h ->
  accepts_then listenSocket (fun fd h => lineage M (receive rounds sends fd buf Ret) h) h.
Proof.
  induction conns as [|conns IH]; intros h Hp; cbn [accept] in Hp.
  { apply lineage_ret_inv in Hp as ->. apply accepts_none. }
  apply (lineage_callback_inv M _ _
    (fun h => if valid h then Ret else accept conns rounds sends listenSocket buf)) in Hp
    as [->|[(fd & h' & -> & Hp)|[h0 Hp]]].
  - apply accepts_none.
  - unfold handleAccept in Hp. destruct (Z.ltb_spec fd 0); [by apply accepts_more, IH|].
    apply receive_or_next in Hp as [Hp|Hp]; [|by apply accepts_more, IH].
    exists [(Accept listenSocket 0 0, fd)], h'. split; [done|]. split; [by apply Forall_singleton|].
    right. by exists fd.
  - destruct (valid h0); [|by apply IH]. apply lineage_ret_inv in Hp as ->. apply accepts_none.
Qed.

Lemma accepts_then_mono listenSocket (good good' : Z -> history -> Prop) h :
  (forall fd h, good fd h -> good' fd h) ->
  accepts_then listenSocket good h -> accepts_then listenSocket good' h.
Proof.
  intros H (accepts & session & ? & ? & Hs). exists accepts, session. split; [done|]. split; [done|].
  destruct Hs as [?|(fd & ? & ? & ?)]; [by left|right]. exists fd. auto.
Qed.

(** A session of the server: what it received it sent back. *)
Definition session_echoes (fd : Z) (h : history) : Prop :=
  closing fd h /\
  forall s s', received s = sent s -> transfers fd h s = Some s' -> echoed_back h s'.

Lemma accept_echoes M conns rounds sends listenSocket buf h :
  lineage M (accept conns rounds sends listenSocket buf) h ->
  accepts_then listenSocket session_echoes h.
Proof.
  intros Hp. eapply accepts_then_mono; [|by eapply accept_stories]. cbn. intros fd h' Hl.
  split; [by eapply closing_receive|]. intros s s' Hr Ht. by eapply receive_transfers.
Qed.

(** ** The descriptors of the sessions *)

#[export] Instance call_eq_dec : EqDecision call.
Proof. solve_decision. Defined.

(** How many closes of [fd] were prepared, and how often a session that was destroyed
    has closed it. *)
Definition closes_queued (fd : Z) (l : loop) : nat := size (filter (fun x => x.2 = Close fd) (l_ops l)).
Definition closes_done (fd : Z) (closed : list Z) : nat := length (filter (fun x => x = fd) closed).

Definition debt (c : call) : option Z :=
  match c with
  | Close fd => Some fd
  | _ => None
  end.

(** Whoever prepares a close also closes the descriptor by hand, before it prepares
    anything else, suspends or ends. *)
Fixpoint pays (p : prog) (owed : option Z) : Prop :=
  match p with
  | Ret => owed = None
  | Call c k => owed = None /\ forall h, pays (k h) (if valid h then debt c else None)
  | LinkTimeout _ _ _ k | Cancel _ _ k => owed = None /\ forall h, pays (k h) None
  | Await _ k => owed = None /\ forall r, pays (k r) None
  | Spawn p k => pays p None /\ forall c, pays (k c) owed
  | Destroy _ k => owed = None /\ pays k None
  | CloseFd fd k => (owed = Some fd \/ owed = None) /\ pays k None
  end.

Definition owes (fd : Z) (owed : option Z) : nat := if decide (owed = Some fd) then 1 else 0.

Lemma owes_none fd : owes fd None = 0%nat.
Proof. unfold owes. by rewrite decide_False. Qed.

(** For each close that was prepared the descriptor was closed by hand, but for what
    is owed. *)
Definition settled (l : loop) (D : Z -> nat) : Prop :=
  (forall fd, (closes_queued fd l <= closes_done fd (l_closed l) + D fd)%nat) /\
  forall f id k r, l_suspended l !! f = Some (id, k) -> pays (k r) None.

Lemma settled_same l l' D :
  settled l D -> l_ops l' = l_ops l -> l_closed l' = l_closed l ->
  (forall g s, l_suspended l' !! g = Some s -> l_suspended l !! g = Some s) -> settled l' D.
Proof.
  unfold settled, closes_queued. intros [H1 H2] -> -> Hs. split; [done|].
  intros f id k r Hf. by eapply H2, Hs.
Qed.

Lemma settled_ext l D D' : settled l D -> (forall fd, D fd = D' fd) -> settled l D'.
Proof. intros [H1 H2] HD. split; [|done]. intros fd. by rewrite <- HD. Qed.

Lemma settled_call l D id c :
  settled l D -> l_ops l !! id = None ->
  settled (add_op id c l) (fun fd => D fd + owes fd (debt c))%nat.
Proof.
  intros [H1 H2] Hid. split; [|done]. intros fd. unfold closes_queued, owes. cbn [add_op l_ops l_closed].
  assert (debt c = Some fd <-> c = Close fd) as Hd by (destruct c; cbn; naive_solver).
  specialize (H1 fd). unfold closes_queued in H1. destruct (decide (debt c = Some fd)) as [Hc|Hc].
  - rewrite map_filter_insert_True by (by apply Hd).
    rewrite map_size_insert_None; [lia|]. by apply map_lookup_filter_None_2; left.
  - rewrite map_filter_insert_False, delete_id by (done || by intros ?%Hd). lia.
Qed.

Lemma settled_close l D fd owed :
  settled l (fun x => D x + owes x owed)%nat -> owed = Some fd \/ owed = None -> settled (close_now fd l) D.
Proof.
  intros [H1 H2] Ho. split; [|done]. intros x. specialize (H1 x). unfold closes_queued, closes_done, owes in *.
  cbn [close_now l_ops l_closed]. destruct (decide (fd = x)) as [->|Hne].
  - rewrite list.filter_cons_True by done. cbn [length]. destruct (decide _); lia.
  - rewrite list.filter_cons_False by done. rewrite decide_False in H1 by (destruct Ho; congruence). lia.
Qed.

Lemma runs_settled f p l tr l' : runs f p l tr l' -> forall D owed,
  pays p owed -> settled l (fun fd => D fd + owes fd owed)%nat -> settled l' D.
Proof.
  assert (Hnone : forall l D, settled l (fun fd => D fd + owes fd None)%nat <-> settled l D)
    by (intros l0 D; split; intros H; eapply settled_ext; try exact H; intros fd; cbn beta; rewrite owes_none; lia).
  induction 1 as [f l|f c k id l tr l' Hv Hid _ IH|f c k l tr l' _ IH|f ts fl op k h l tr l' Hh _ IH
    |f op b k h l tr l' Hh _ IH|f op k c l Hv Hc Hn|f p k l tr1 l1 tr2 l2 _ IHp _ IHk|f c k l tr l' _ IH
    |f fd k l tr l' _ IH]; intros D owed Hp Hl; cbn [pays] in Hp.
  - subst owed. by apply Hnone.
  - destruct Hp as [-> Hp]. apply (proj1 (Hnone _ _)) in Hl. specialize (Hp (mkHandle true id)).
    assert (valid (mkHandle true id) = true) as Hvh by (by apply negb_true_iff, Z.eqb_neq).
    rewrite Hvh in Hp. eapply IH; [exact Hp|]. by apply settled_call.
  - destruct Hp as [-> Hp]. by eapply IH; [apply Hp|].
  - destruct Hp as [-> Hp]. by eapply IH; [apply Hp|].
  - destruct Hp as [-> Hp]. eapply IH; [apply Hp|]. by destruct b; [eapply settled_same|].
  - destruct Hp as [-> Hp]. apply (proj1 (Hnone _ _)) in Hl. destruct Hl as [H1 H2]. split; [done|].
    intros g id k' r. cbn. intros [[_ [= _ <-]]|[_ Hg]]%lookup_insert_Some; [done|by eapply H2].
  - destruct Hp as [Hp Hk]. eapply IHk; [apply Hk|]. eapply IHp; [exact Hp|]. apply Hnone.
    by eapply settled_same.
  - destruct Hp as [-> Hp]. eapply IH; [exact Hp|]. unfold destroy_frame.
    destruct (l_suspended l !! c) as [[id k0]|]; [|done]. eapply settled_same; [exact Hl|done|done|].
    cbn. by intros g s [_ ?]%lookup_delete_Some.
  - destruct Hp as [Ho Hp]. eapply IH; [exact Hp|]. apply Hnone. by eapply settled_close.
Qed.

Lemma pays_guard p : forall owed, pays p owed -> pays (guard p) owed.
Proof.
  induction p as [|c k IH|ts fl op k IH|op b k IH|op k IH|p IHp k IH|c k IH|fd k IH]; cbn; intros owed Hp; auto.
  - destruct Hp as [-> Hp]. split; [done|]. intros h. specialize (Hp h). destruct (valid h); [by apply IH|done].
  - destruct Hp as [-> Hp]. split; [done|]. intros h. destruct (valid h); [by apply IH|done].
  - destruct Hp as [-> Hp]. split; [done|]. intros h. destruct (valid h); [by apply IH|done].
  - destruct Hp as [-> Hp]. auto.
  - destruct Hp as [Hp Hk]. auto.
  - destruct Hp as [-> Hp]. auto.
  - destruct Hp as [Ho Hp]. auto.
Qed.

Lemma loops_settled l cs tr l' : loops l cs tr l' -> settled l (fun _ => 0%nat) -> settled l' (fun _ => 0%nat).
Proof.
  induction 1 as [|l1 c cs tr1 l2 tr2 l3 Hc _ IH]; [done|]. intros Hl. apply IH. clear IH.
  destruct Hc as [f k op tr1 l2 Hh Hs Hop Hr|]; [|done].
  apply (runs_settled _ _ _ _ _ Hr _ None (proj2 Hl f _ k _ Hs)).
  apply (settled_ext _ (fun _ => 0%nat)); [|intros fd; cbn beta; by rewrite owes_none].
  eapply settled_same; [exact Hl|done|done|]. cbn. by intros g s [_ ?]%lookup_delete_Some.
Qed.

(** At every point between two iterations of [run], when nothing is prepared any more. *)
Lemma loop_settled p tr l cs tr' l' :
  begins p new_loop tr l -> loops l cs tr' l' -> pays p None ->
  forall fd, (closes_queued fd l' <= closes_done fd (l_closed l'))%nat.
Proof.
  intros [tr1 l1 Hr] Hl Hp. assert (settled l' (fun _ => 0%nat)) as [H _].
  { eapply loops_settled; [exact Hl|]. eapply (runs_settled _ _ _ _ _ Hr _ None Hp).
    split; [|done]. intros fd. cbn beta. by rewrite owes_none. }
  intros fd. specialize (H fd). lia.
Qed.

Lemma pays_callback c func k :
  (forall r, pays (func r) None) -> (forall h, pays (k h) (if valid h then debt c else None)) ->
  pays (Call c (fun h => callback h func (k h))) None.
Proof. intros Hf Hk. split; [done|]. intros h. by split. Qed.

Lemma pays_session_close fd : pays (session_close fd) None.
Proof.
  apply (pays_callback _ (fun _ => Ret) (fun _ => CloseFd fd Ret)); [done|]. intros h. split; [|done].
  destruct (valid h); auto.
Qed.

Lemma pays_assert b p : pays p None -> pays (assert_that b p) None.
Proof. by destruct b. Qed.

Lemma pays_sendResponse sends fd buf size again : pays again None -> forall offset,
  pays (sendResponse sends fd buf size offset again) None.
Proof.
  intros Ha. induction sends as [|sends IH]; intros offset; [done|]. cbn [sendResponse].
  apply pays_assert, (pays_callback _ _ (fun _ => Ret)); [|by intros h; destruct (valid h)]. intros r.
  pose proof (pays_session_close fd). destruct (r <? 0); [done|]. destruct (r =? 0); [done|].
  apply pays_assert. by destruct (_ <? _).
Qed.

Lemma pays_receive rounds sends fd buf : forall k, pays k None -> pays (receive rounds sends fd buf k) None.
Proof.
  induction rounds as [|rounds IH]; intros k Hk; [done|]. cbn [receive].
  apply (pays_callback _ _ (fun _ => k)); [|by intros h; destruct (valid h)]. intros r.
  pose proof (pays_session_close fd). destruct (r <? 0); [done|]. destruct (r =? 0); [done|].
  by apply pays_sendResponse, IH.
Qed.

Lemma pays_accept conns rounds sends listenSocket buf : pays (accept conns rounds sends listenSocket buf) None.
Proof.
  induction conns as [|conns IH]; [done|]. cbn [accept].
  apply (pays_callback _ _ (fun h => if valid h then Ret else accept conns rounds sends listenSocket buf)).
  - intros fd. unfold handleAccept. destruct (fd <? 0); [done|]. by apply pays_receive.
  - intros h. by destruct (valid h).
Qed.

(** ** On the queue *)

Section Running.
Context {R : Type} `{!LibUring R} `{!LibUringSpec R}.
Context {T : Type} `{!CompleterTable T} `{!CompleterTableSpec T}.
Context {allocator : Allocator}.

(** [server] runs on [q], and the story of every coroutine, up to any iteration of
    [run], is [good], and ends with the coroutine's own history; between iterations
    every descriptor whose close was prepared has been closed by hand as often. *)
Definition stories_do (q : IoQueue R T) (server : prog) (good : history -> Prop) : Prop :=
  exists w tr l, start server (new_world q) = Ok w /\ begins (guard server) new_loop tr l /\
    forall fuel, exists v tr' l', iterate fuel w = Ok v /\ loops l (consumed fuel w) tr' l' /\
      (forall g, good (story g (tr ++ tr')) /\
        history_of g (tr ++ tr') `suffix_of` story g (tr ++ tr')) /\
      forall fd, (closes_queued fd l' <= closes_done fd (closed v))%nat.

Lemma fits_stories size u q linked n m server good :
  Fits size u q linked n m server -> pays server None -> (forall M h, lineage M server h -> good h) ->
  stories_do q server good.
Proof.
  intros HF Hpays Hgood. pose proof (fits_wf _ _ _ _ _ _ _ HF) as Hwf. destruct HF as [H1 H2 H3 H4 _ H6 H7].
  destruct (unchecked_refines size u q n m server linked m H1 H2 H3 H4 Hwf H6 H7)
    as (w & tr & l & Hw & Hb & Hrun).
  exists w, tr, l. split; [done|]. split; [done|]. intros fuel.
  destruct (Hrun fuel) as (v & tr' & l' & Hv & Hl & Hc). exists v, tr', l'. split; [done|]. split; [done|].
  split.
  - intros g. destruct (loop_stories _ _ _ _ _ _ g Hb Hl) as [Hs Ho].
    split; [|done]. by eapply Hgood, lineage_guard.
  - rewrite <- Hc. by eapply loop_settled, pays_guard.
Qed.

End Running.
End CallbackRelays.
