(* ===== verification/Descriptors.v ===== *)
(** * Whose descriptors the example servers use

    The kernel reuses the number of a descriptor as soon as it is closed.  [accounts]
    follows a trace and keeps the descriptor of each connection under the name of the
    coroutine it was given to; a coroutine that used or closed another number than
    its own would be found.  An operation counts when its completion is taken from
    the queue: completions are taken in the order in which the kernel carries
    operations out, so a number is free by then when [accept] returns it. *)

From Stdlib Require Import ZArith Lia.
From stdpp Require Import base numbers list gmap option.
From S2P Require Import Prelude Interfaces Uring Queue QueueSafety Unchecked EventLoop Histories.
From S2P Require Import Servers Relays.

Local Open Scope Z_scope.

Module Descriptors.
Import IoQueue Unchecked EventLoop Histories Servers Relays.

(** ** Accounts *)

(** Who has which descriptor, and the one that was accepted and not given to a
    coroutine yet. *)
Record sockets : Type := mkSockets {
  has : gmap Z Z;
  accepted : option Z
}.

Definition no_sockets : sockets := mkSockets ∅ None.

Inductive verdict : Type :=
| Fine (t : sockets)
| Reused (fd : Z)               (* [accept] returned a number that is in use *)
| Trespass (g : Z) (c : call).  (* [g] used a descriptor that is not its own *)

Definition descriptor (c : call) : option Z :=
  match c with
  | Recv fd _ _ | Send fd _ _ | Close fd => Some fd
  | _ => None
  end.

Definition account (e : event) (t : sockets) : verdict :=
  match e with
  | Started g _ =>
      match accepted t with
      | Some fd => Fine (mkSockets (<[g := fd]> (has t)) None)
      | None => Fine t
      end
  | Resumed g (Accept _ _ _) fd =>
      if fd <? 0 then Fine t
      else if decide (fd ∈@{gset Z} map_img (has t)) then Reused fd
      else Fine (mkSockets (has t) (Some fd))
  | Resumed g c _ =>
      match descriptor c with
      | Some fd =>
          if decide (has t !! g = Some fd) then
            Fine (match c with Close _ => mkSockets (delete g (has t)) (accepted t) | _ => t end)
          else Trespass g c
      | None => Fine t
      end
  end.

Fixpoint accounts (tr : list event) (t : sockets) : verdict :=
  match tr with
  | [] => Fine t
  | e :: tr =>
      match account e t with
      | Fine t => accounts tr t
      | v => v
      end
  end.

Lemma accounts_app tr1 tr2 t :
  accounts (tr1 ++ tr2) t =
  match accounts tr1 t with Fine t => accounts tr2 t | v => v end.
Proof.
  revert t. induction tr1 as [|e tr1 IH]; intros t; [done|]. cbn.
  by destruct (account e t); [apply IH|..].
Qed.

(** No two coroutines have the same descriptor. *)
Definition exclusive (t : sockets) : Prop :=
  forall g1 g2 fd, has t !! g1 = Some fd -> has t !! g2 = Some fd -> g1 = g2.

(** ** Coroutines that start and destroy nothing *)

Fixpoint solo (p : prog) : Prop :=
  match p with
  | Ret => True
  | Call _ k | LinkTimeout _ _ _ k | Cancel _ _ k => forall h, solo (k h)
  | Await _ k => forall r, solo (k r)
  | Spawn _ _ | Destroy _ _ | CloseFd _ _ => False
  end.

Lemma solo_guard p : solo p -> solo (guard p).
Proof.
  induction p as [|c k IH|ts fl op k IH|op b k IH|op k IH|p IHp k IH|c k IH|fd k IH]; cbn; try done; auto.
  all: intros H h; destruct (valid h); [by apply IH|done].
Qed.

Lemma runs_solo f p l tr l' :
  runs f p l tr l' -> solo p ->
  tr = [] /\ l_ops l ⊆ l_ops l' /\ l_fresh l' = l_fresh l /\
  (forall g, g <> f -> l_suspended l' !! g = l_suspended l !! g) /\
  (forall id k, l_suspended l' !! f = Some (id, k) ->
     l_suspended l !! f = Some (id, k) \/ forall r, solo (k r)).
Proof.
  induction 1 as [f l|f c k id l tr l' _ Hid _ IH|f c k l tr l' _ IH|f ts fl op k h l tr l' Hh _ IH
    |f op b k h l tr l' Hh _ IH|f op k c l Hv Hc Hn|f p k l tr1 l1 tr2 l2 _ IHp _ IHk|f c k l tr l' _ IH
    |f fd k l tr l' _ IH];
    cbn [solo]; intros Hp; try done; try by apply IH.
  - split_and!; try done. intros id k Hk. by left.
  - destruct (IH (Hp _)) as (-> & Ho & Hf & Hs). split_and!; try done; [|by apply Hs..].
    etransitivity; [|exact Ho]. by apply insert_subseteq.
  - destruct (IH (Hp _)) as (-> & Ho & Hf & Hs). by destruct b.
  - split_and!; try done; cbn; [intros g Hg; by rewrite lookup_insert_ne|].
    intros id k'. rewrite lookup_insert_eq. intros [= _ <-]. by right.
Qed.

(** A path that has come to its [Close] has nothing after it. *)
Lemma closing_after fd h c r r' :
  closing fd (h ++ [(c, r)]) -> ((Close fd, r') ∉ h) /\ descriptor c = Some fd.
Proof.
  intros (h1 & h2 & Heq & H1 & H2).
  assert (forall h', Forall (on_socket fd) h' -> ((Close fd, r') ∉ h')) as Hno.
  { intros h' Hf Hin. destruct (proj1 (list.Forall_forall _ _) Hf _ Hin) as (? & ? & ? & [|]); done. }
  destruct H2 as [->|[r2 ->]].
  - rewrite app_nil_r in Heq. subst h1. apply Forall_app in H1 as [H1 Hl]. split; [by apply Hno|].
    apply Forall_inv in Hl as (a & n & r1 & [[= -> _]|[= -> _]]); done.
  - apply app_inj_tail in Heq as [-> [= -> _]]. split; [by apply Hno|done].
Qed.

Section Keeping.
Variables (session : Z -> prog) (listenSocket : Z).
Hypotheses (Hsolo : forall fd, solo (session fd))
  (Hclosing : forall M fd h, path M (session fd) h -> closing fd h).

(** [serve] with its checks, from the call of accept and from its result on. *)
Definition serving (n : nat) : prog := guard (serve session n listenSocket).
Definition accepting (n : nat) (fd : Z) : prog :=
  guard (if fd <? 0 then serve session n listenSocket
         else Spawn (session fd) (fun _ => serve session n listenSocket)).

(** The server waits for a connection. *)
Definition awaits_accept (l : loop) (id : Z) (k : Z -> prog) : Prop :=
  l_ops l !! id = Some (Accept listenSocket 0 0) /\ exists n, forall fd, k fd = accepting n fd.

(** The server runs until it waits for a connection, or ends. *)
Lemma serving_runs n f l tr l' :
  runs f (serving n) l tr l' ->
  tr = [] /\ l_ops l ⊆ l_ops l' /\ l_fresh l' = l_fresh l /\
  (forall g, g <> f -> l_suspended l' !! g = l_suspended l !! g) /\
  (forall id k, l_suspended l' !! f = Some (id, k) ->
    l_suspended l !! f = Some (id, k) \/ awaits_accept l' id k).
Proof.
  destruct n as [|n]; unfold serving; cbn [serve guard]; intros Hr.
  { inversion Hr; subst. split_and!; try done. intros id k Hs. by left. }
  assert (Hret : forall l1, runs f Ret l1 tr l' -> tr = [] /\ l' = l1) by (inversion 1; done).
  inversion Hr as [|? ? ? id ? ? ? _ Hid Hk|? ? ? ? ? ? Hk| | | | | |]; subst; cbn [valid h_io h_id] in Hk.
  - destruct (negb (id =? OpIdInvalid)) eqn:Hv; cbn in Hk; rewrite ?Hv in Hk.
    + inversion Hk as [| | | | |? ? ? c ? Hv' Hc Hn| | |]; subst. split; [done|].
      split; [by apply insert_subseteq|]. split; [done|]. split.
      * intros g Hg. cbn. by rewrite lookup_insert_ne.
      * intros id' k'. cbn. rewrite lookup_insert_eq. intros [= <- <-]. right. split.
        -- cbn. apply lookup_insert_eq.
        -- exists n. intros fd. unfold accepting. done.
    + apply Hret in Hk as [-> ->]. split_and!; try done; [by apply insert_subseteq|].
      intros id' k Hs. by left.
  - apply Hret in Hk as [-> ->]. split_and!; try done. intros id' k Hs. by left.
Qed.

(** It has a connection: a session is started, and it waits again. *)
Lemma accepting_runs n fd f l tr l' :
  runs f (accepting n fd) l tr l' -> f < l_fresh l ->
  tr = (if fd <? 0 then [] else [Started (l_fresh l) (guard (session fd))]) /\
  l_ops l ⊆ l_ops l' /\ l_fresh l' = l_fresh l + (if fd <? 0 then 0 else 1) /\
  (forall g, g < l_fresh l -> g <> f -> l_suspended l' !! g = l_suspended l !! g) /\
  (forall g id k, l_suspended l' !! g = Some (id, k) -> l_fresh l <= g ->
     l_suspended l !! g = Some (id, k) \/
     (fd <? 0) = false /\ g = l_fresh l /\ forall r, solo (k r)) /\
  (forall id k, l_suspended l' !! f = Some (id, k) ->
    l_suspended l !! f = Some (id, k) \/ awaits_accept l' id k).
Proof.
  unfold accepting. destruct (fd <? 0); intros Hr Hf.
  { destruct (serving_runs n f l tr l' Hr) as (-> & Ho & Hfr & Hs & Hw). split_and!; try done; [lia|auto|].
    intros g id k Hg Hle. left. by rewrite <- Hs by lia. }
  cbn [guard] in Hr. inversion Hr as [| | | | | |? ? ? ? tr1 l1 tr2 ? Hp Hk| |]; subst.
  destruct (runs_solo _ _ _ _ _ Hp (solo_guard _ (Hsolo fd))) as (-> & Ho1 & Hf1 & Hs1 & Hk1).
  destruct (serving_runs n f l1 tr2 l' Hk) as (-> & Ho2 & Hf2 & Hs2 & Hw). cbn in Ho1, Hf1, Hs1.
  split_and!; [done|by transitivity (l_ops l1)|lia| | |].
  - intros g Hg Hne. rewrite Hs2, Hs1 by lia. done.
  - intros g id k Hg Hle. rewrite Hs2 in Hg by lia. destruct (decide (g = l_fresh l)) as [->|Hne].
    + destruct (Hk1 id k Hg) as [?|?]; [by left|by right].
    + left. by rewrite <- Hs1 by lia.
  - intros id k Hk'. destruct (Hw id k Hk') as [H|H]; [|by right]. left.
    by rewrite Hs1 in H by lia.
Qed.

(** ** The invariant *)

(** What the accounts say of the coroutines that were started: the sessions have
    their descriptors until they have closed them. *)
Definition accounted (tr : list event) (l : loop) : Prop :=
  match accounts tr no_sockets with
  | Fine t => accepted t = None /\ exclusive t /\
      (forall g q, Started g q ∈ tr -> g = 0 \/ exists fd, q = guard (session fd) /\
         (has t !! g = Some fd \/ exists r, (Close fd, r) ∈ history_of g tr)) /\
      forall g fd, has t !! g = Some fd -> g < l_fresh l /\ g <> 0
  | Reused _ => True
  | Trespass _ _ => False
  end.

Record kept (l : loop) (tr : list event) : Prop := {
  kept_follows : follows l tr;
  kept_started f : is_Some (l_suspended l !! f) -> exists q, Started f q ∈ tr;
  kept_root id k : l_suspended l !! 0 = Some (id, k) -> awaits_accept l id k;
  kept_solo g id k r : l_suspended l !! g = Some (id, k) -> g <> 0 -> solo (k r);
  kept_sessions g q : Started g q ∈ tr -> g = 0 \/ exists fd, q = guard (session fd);
  kept_fresh : 0 < l_fresh l;
  kept_accounts : accounted tr l
}.

Lemma history_resumed g f c r tr :
  history_of g (tr ++ [Resumed f c r]) = history_of g tr ++ (if decide (f = g) then [(c, r)] else []).
Proof. rewrite history_app. f_equal. cbn. by destruct (decide (f = g)). Qed.

Lemma started_resumed tr f c r g q : Started g q ∈ tr ++ [Resumed f c r] -> Started g q ∈ tr.
Proof. by intros [?|[=]%list_elem_of_singleton]%elem_of_app. Qed.

(** A session's operation is on its own descriptor. *)
Lemma session_accounted l l' tr f op r :
  accounted tr l -> l_fresh l <= l_fresh l' -> f <> 0 -> (exists q, Started f q ∈ tr) ->
  (forall fd, Started f (guard (session fd)) ∈ tr -> closing fd (history_of f tr ++ [(op, r)])) ->
  accounted (tr ++ [Resumed f op r]) l'.
Proof.
  unfold accounted. rewrite accounts_app. intros Hacc Hle Hf [q Hq] Hcl.
  destruct (accounts tr no_sockets) as [t| |]; [|done|done].
  destruct Hacc as (Ha & He & Hs & Hb).
  destruct (Hs f q Hq) as [?|(fd & -> & Hfd)]; [done|].
  destruct (closing_after fd (history_of f tr) op r 0 (Hcl fd Hq)) as [_ Hd].
  destruct Hfd as [Hfd|[r' Hin]].
  2: { by destruct (closing_after fd (history_of f tr) op r r' (Hcl fd Hq)). }
  assert (Hkeep : forall t', accepted t' = None -> exclusive t' ->
    (forall g fd', has t' !! g = Some fd' -> has t !! g = Some fd') ->
    (forall g fd', has t !! g = Some fd' -> has t' !! g = Some fd' \/ (g = f /\ op = Close fd)) ->
    accepted t' = None /\ exclusive t' /\
    (forall g q, Started g q ∈ tr ++ [Resumed f op r] -> g = 0 \/ exists fd, q = guard (session fd) /\
       (has t' !! g = Some fd \/ exists r0, (Close fd, r0) ∈ history_of g (tr ++ [Resumed f op r]))) /\
    forall g fd, has t' !! g = Some fd -> g < l_fresh l' /\ g <> 0).
  { intros t' Ha' He' Hsub Hsup. split_and!; try done.
    - intros g q Hg%started_resumed. destruct (Hs g q Hg) as [?|(fd' & -> & H)]; [by left|right].
      exists fd'. split; [done|]. rewrite history_resumed. destruct H as [H|[r0 H]].
      + destruct (Hsup g fd' H) as [?|[-> ->]]; [by left|right]. rewrite Hfd in H. injection H as <-.
        exists r. rewrite decide_True by done. apply elem_of_app. right. by left.
      + right. exists r0. apply elem_of_app. by left.
    - intros g fd' Hg%Hsub%Hb. lia. }
  destruct op; cbn in Hd; try done; injection Hd as ->; cbn [accounts account descriptor];
    rewrite decide_True by done.
  1-2: by apply Hkeep; auto.
  apply Hkeep; unfold exclusive; cbn; [done| | |].
  - intros g1 g2 fd' [_ H1]%lookup_delete_Some [_ H2]%lookup_delete_Some. by eapply He.
  - by intros g fd' [_ ?]%lookup_delete_Some.
  - intros g fd' Hg. destruct (decide (g = f)) as [->|Hne]; [by right|left].
    by rewrite lookup_delete_ne.
Qed.

(** A connection is accepted, and given to the coroutine that is started next. *)
Lemma accept_accounted l l' tr a b c fd :
  accounted tr l -> 0 < l_fresh l -> (forall g q, Started g q ∈ tr -> g < l_fresh l) ->
  l_fresh l' = l_fresh l + (if fd <? 0 then 0 else 1) ->
  accounted (tr ++ Resumed 0 (Accept a b c) fd ::
    (if fd <? 0 then [] else [Started (l_fresh l) (guard (session fd))])) l'.
Proof.
  unfold accounted. rewrite accounts_app. intros Hacc H0 Hold Hf.
  destruct (accounts tr no_sockets) as [t| |]; [|done|done]. destruct Hacc as (Ha & He & Hs & Hb).
  cbn [accounts account]. destruct (fd <? 0); cbn [accounts account accepted has].
  - split_and!; [done|done| |intros g fd' Hg%Hb; lia].
    intros g q Hg%started_resumed. destruct (Hs g q Hg) as [?|(fd' & -> & H)]; [by left|right].
    exists fd'. split; [done|]. rewrite history_resumed. destruct H as [?|[r0 H]]; [by left|right].
    exists r0. apply elem_of_app. by left.
  - destruct (decide _) as [|Hnew]; [done|]. unfold exclusive. cbn [accounts account accepted has].
    split_and!; [done| | |].
    + intros g1 g2 fd' [[<- <-]|[Hn1 H1]]%lookup_insert_Some [[<- Heq]|[Hn2 H2]]%lookup_insert_Some;
        [done| | |by eapply He].
      * exfalso. apply Hnew, elem_of_map_img. by exists g2.
      * subst. exfalso. apply Hnew, elem_of_map_img. by exists g1.
    + intros g q. rewrite elem_of_app, !elem_of_cons. intros [Hg|[?|[[= -> ->]|?%elem_of_nil]]]; [|done| |done].
      * pose proof (Hold g q Hg). destruct (Hs g q Hg) as [?|(fd' & -> & H')]; [by left|right].
        exists fd'. split; [done|]. destruct H' as [?|[r0 H']]; [left; by rewrite lookup_insert_ne by lia|right].
        exists r0. rewrite history_app. apply elem_of_app. by left.
      * right. exists fd. split; [done|left]. apply lookup_insert_eq.
    + intros g fd' [[<- _]|[_ Hg%Hb]]%lookup_insert_Some; lia.
Qed.

Lemma started_before l tr l1 tr1 f s :
  kept l tr -> l_suspended l !! f = Some s -> l1 = tr ++ tr1 -> exists q, Started f q ∈ l1.
Proof.
  intros HK Hf ->. destruct (kept_started _ _ HK f) as [q Hq]; [by rewrite Hf|]. exists q.
  apply elem_of_app. by left.
Qed.

(** The server is resumed with what [accept] returned. *)
Lemma accept_kept id k r l l' tr tr1 :
  kept l tr -> l_suspended l !! 0 = Some (id, k) ->
  runs 0 (k r) (resume id 0 l) tr1 l' ->
  follows l' (tr ++ Resumed 0 (Accept listenSocket 0 0) r :: tr1) ->
  kept l' (tr ++ Resumed 0 (Accept listenSocket 0 0) r :: tr1).
Proof.
  intros HK Hs0 Hr HF. pose proof HK as [HF0 Hst Hroot Hsolo' Hses H0 Hacc].
  destruct (Hroot _ _ Hs0) as (_ & n & Hk). rewrite Hk in Hr.
  destruct (accepting_runs n r 0 _ _ _ Hr H0) as (-> & Ho & Hfr & Hs & Hn & Hw).
  cbn [resume l_fresh l_suspended] in *.
  assert (Hold : forall g s, l_suspended l' !! g = Some s -> g <> 0 ->
    l_suspended l !! g = Some s \/ (r <? 0) = false /\ g = l_fresh l /\ forall x, solo (s.2 x)).
  { intros g [id' k'] Hg Hg0. destruct (decide (g < l_fresh l)) as [Hlt|Hge].
    - left. by rewrite Hs, lookup_delete_ne in Hg by done.
    - destruct (Hn g id' k' Hg ltac:(lia)) as [[_ ?]%lookup_delete_Some|?]; auto. }
  split; [done| | | | | |].
  - intros g [s Hg]. destruct (decide (g = 0)) as [->|Hg0]; [by eapply started_before|].
    destruct (Hold g s Hg Hg0) as [?|(-> & -> & _)]; [by eapply started_before|].
    eexists. apply elem_of_app. right. right. by left.
  - intros id' k' Hg. by destruct (Hw id' k' Hg) as [[Hne _]%lookup_delete_Some|?].
  - intros g id' k' x Hg Hg0. destruct (Hold g _ Hg Hg0) as [?|(_ & _ & ?)]; [by eapply Hsolo'|done].
  - intros g q. rewrite elem_of_app, elem_of_cons. intros [Hg|[?|Hg]]; [by eapply Hses|done|right].
    exists r. destruct (r <? 0); [by apply elem_of_nil in Hg|].
    by apply list_elem_of_singleton in Hg as [= _ ->].
  - destruct (r <? 0); lia.
  - apply accept_accounted; try done. apply (follows_fresh _ _ HF0).
Qed.

(** A session is resumed with the result of its operation. *)
Lemma session_kept f id k op r l l' tr tr1 :
  kept l tr -> f <> 0 -> l_suspended l !! f = Some (id, k) ->
  runs f (k r) (resume id f l) tr1 l' -> follows l' (tr ++ Resumed f op r :: tr1) ->
  kept l' (tr ++ Resumed f op r :: tr1).
Proof.
  intros HK Hf Hsf Hr HF. pose proof HK as [HF0 Hst Hroot Hsolo' Hses H0 Hacc].
  destruct (runs_solo _ _ _ _ _ Hr (Hsolo' f _ k _ Hsf Hf)) as (-> & Ho & Hfr & Hs & Hk).
  cbn [resume l_fresh l_suspended l_ops] in *.
  assert (Hold : forall g s, l_suspended l' !! g = Some s -> g <> f -> l_suspended l !! g = Some s).
  { intros g s Hg Hne. by rewrite Hs, lookup_delete_ne in Hg by done. }
  split; [done| | | | | |].
  - intros g [s Hg]. destruct (decide (g = f)) as [->|Hne]; [by eapply started_before|].
    eapply started_before; [done|by apply (Hold g s)|done].
  - intros id' k' Hg. destruct (Hroot id' k' (Hold 0 _ Hg ltac:(done))) as [Ha Hn].
    split; [|done]. by eapply lookup_weaken.
  - intros g id' k' x Hg Hg0. destruct (decide (g = f)) as [->|Hne]; [|by eapply Hsolo'; [apply Hold|]].
    by destruct (Hk id' k' Hg) as [[? _]%lookup_delete_Some|?].
  - intros g q Hg%started_resumed. by eapply Hses.
  - lia.
  - eapply session_accounted; [done|lia|done|apply Hst; by rewrite Hsf|].
    intros fd Hin. apply (Hclosing (l_ops l')), path_guard.
    replace (history_of f tr ++ [(op, r)]) with (history_of f (tr ++ [Resumed f op r]))
      by (rewrite history_resumed, decide_True by done; done).
    apply (follows_path _ _ HF). apply elem_of_app. by left.
Qed.

Lemma completes_kept c l tr l' tr0 : completes c l tr l' -> kept l tr0 -> kept l' (tr0 ++ tr).
Proof.
  intros Hc HK. destruct (completes_follows c l tr l' Hc tr0 (kept_follows _ _ HK)) as [HF _].
  destruct Hc as [f k op tr1 l1 Hh Hsf Hop Hr|]; [|by rewrite app_nil_r].
  destruct (decide (f = 0)) as [->|Hf]; [|by eapply session_kept].
  destruct (kept_root _ _ HK _ _ Hsf) as [Ha _]. rewrite Hop in Ha. injection Ha as ->.
  by eapply accept_kept.
Qed.

Lemma loops_kept l cs tr l' : loops l cs tr l' -> forall tr0, kept l tr0 -> kept l' (tr0 ++ tr).
Proof.
  induction 1 as [l|l1 c cs tr1 l2 tr2 l3 Hc _ IH]; intros tr0 HK; [by rewrite app_nil_r|].
  pose proof (IH _ (completes_kept _ _ _ _ _ Hc HK)) as H. by rewrite <- app_assoc in H.
Qed.

Lemma begins_kept n tr l : begins (serving n) new_loop tr l -> kept l tr.
Proof.
  intros Hb. pose proof (begins_follows _ _ _ Hb) as HF. destruct Hb as [tr l Hr].
  destruct (serving_runs n _ _ _ _ Hr) as (-> & Ho & Hfr & Hs & Hw). cbn in Hfr, Hs, Hw.
  split; [done| | | | | |].
  - intros g [s Hg]. destruct (decide (g = 0)) as [->|Hne]; [|by rewrite Hs in Hg].
    exists (serving n). by left.
  - intros id k Hk. by destruct (Hw id k Hk).
  - intros g id k r Hg Hne. by rewrite Hs in Hg.
  - intros g q [= -> _]%list_elem_of_singleton. by left.
  - lia.
  - unfold accounted. cbn. split_and!; try done. intros g q [= -> _]%list_elem_of_singleton. by left.
Qed.

End Keeping.
(** ** The servers on a queue *)

Lemma solo_sendAll rounds fd buf size offset k :
  (forall e eof, solo (k e eof)) -> solo (sendAll rounds fd buf size offset k).
Proof.
  intros Hk. revert offset. induction rounds as [|rounds IH]; intros offset; [done|]. cbn [sendAll].
  destruct (offset <? size); [|done]. cbn. intros _ r.
  destruct (r <? 0); [done|]. by destruct (r =? 0).
Qed.

Lemma solo_echo rounds sends fd buf bye bye_len ts : solo (echo rounds sends fd buf bye bye_len ts).
Proof.
  induction rounds as [|rounds IH]; [done|]. cbn. intros _ _ r.
  destruct ((r <? 0) && _); [by apply solo_sendAll|].
  destruct (r <? 0); [done|]. destruct (r =? 0); [done|]. apply solo_sendAll. intros e eof.
  by destruct (negb (e =? 0) || eof).
Qed.

Lemma solo_session rounds sends buf response len fd :
  solo (startSession rounds sends buf response len fd).
Proof.
  induction rounds as [|rounds IH]; [done|]. cbn. intros _ r.
  destruct (r <? 0); [done|]. destruct (r =? 0); [done|]. apply solo_sendAll. intros e eof.
  by destruct (negb (e =? 0) || eof).
Qed.

Section Running.
Context {R : Type} `{!LibUring R} `{!LibUringSpec R}.
Context {T : Type} `{!CompleterTable T} `{!CompleterTableSpec T}.
Context {allocator : Allocator}.

(** [server] runs on [q], and up to any iteration of [run] every coroutine has used
    its own descriptor only, unless [accept] returned one that was in use. *)
Definition keeps_sockets (q : IoQueue R T) (server : prog) : Prop :=
  exists w tr l, start server (new_world q) = Ok w /\ begins (guard server) new_loop tr l /\
    forall fuel, exists v tr' l', iterate fuel w = Ok v /\ loops l (consumed fuel w) tr' l' /\
      match accounts (tr ++ tr') no_sockets with
      | Fine t => exclusive t
      | Reused _ => True
      | Trespass _ _ => False
      end.

Lemma fits_keeps size u q linked session conns n fd :
  Fits size u q linked n conns (serve session conns fd) -> (forall fd, solo (session fd)) ->
  (forall M fd h, path M (session fd) h -> closing fd h) ->
  keeps_sockets q (serve session conns fd).
Proof.
  intros HF Hsolo Hclosing. pose proof (fits_wf _ _ _ _ _ _ _ HF) as Hwf. destruct HF as [H1 H2 H3 H4 _ H6 H7].
  destruct (unchecked_refines size u q n conns _ linked conns H1 H2 H3 H4 Hwf H6 H7)
    as (w & tr & l & Hw & Hb & Hrun).
  exists w, tr, l. split; [done|]. split; [done|]. intros fuel.
  destruct (Hrun fuel) as (v & tr' & l' & Hv & Hl & _). exists v, tr', l'. split; [done|]. split; [done|].
  pose proof (loops_kept session fd Hsolo Hclosing _ _ _ _ Hl _ (begins_kept session fd conns _ _ Hb)) as HK.
  pose proof (kept_accounts _ _ _ _ HK) as Hacc. unfold accounted in Hacc.
  destruct (accounts _ _); [|done|done]. apply Hacc.
Qed.

(** C12: The servers of echo-tcp-coro.cpp and http-coro.cpp stay off each other's
    connections, although numbers of descriptors are used again: whatever the kernel
    reports, as long as [accept] returns no number that is in use, every coroutine
    receives from, sends to and closes the connection it was started for and no other,
    not even while it closes it, and no two have the same.  The servers call accept
    [conns] times in all, for at most [size + 1] connections, and the submission queue
    has an entry for each, or two and one more where operations have a time limit. *)
Theorem sessions_keep_sockets size u q conns rounds sends listenSocket buf bye bye_len ts response len
    (Hsize : 0 <= size < 196613) (Hmake : make size u = Ok (Some q))
    (Hconns : Z.of_nat conns <= size + 1)
    (Hids : Z.of_nat (conns * S (session_cost 2 rounds sends)) <= 2 ^ 63) :
  (2 * Z.of_nat conns + 1 <= getSize q ->
    keeps_sockets q (serve_echo conns rounds sends listenSocket buf bye bye_len ts)) /\
  (Z.of_nat conns <= getSize q ->
    keeps_sockets q (serve_http conns rounds sends listenSocket buf response len)).
Proof.
  assert (Z.of_nat (conns * S (session_cost 1 rounds sends)) <= 2 ^ 63) by (unfold session_cost in *; nia).
  split; intros Hentries.
  - eapply fits_keeps; [by apply (fits_serve_echo size u)| |].
    + intros fd. apply solo_echo.
    + intros M fd h. apply closing_echo.
  - eapply fits_keeps; [by apply (fits_serve_http size u)| |].
    + intros fd. apply solo_session.
    + intros M fd h. apply closing_session.
Qed.

End Running.
End Descriptors.
