(* ===== verification/SessionSockets.v ===== *)
(** * The descriptors of the callback server echo-tcp.cpp

    [Session::close] queues a close of the descriptor, but the session keeps it: when
    the callback returns, the session is destroyed and its [Fd] closes the descriptor
    as well ([CloseFd]), before the queued close is so much as submitted.  By the time the kernel
    carries that out the number may belong to the next connection. *)

From Stdlib Require Import ZArith Lia.
From stdpp Require Import base numbers list gmap option.
From S2P Require Import Prelude Interfaces Completers Uring Queue QueueSafety Unchecked EventLoop Histories.
From S2P Require Import Stories Servers Callbacks Relays CallbackRelays QueueExamples.

Local Open Scope Z_scope.

(** ** A ring whose completions are written down beforehand

    Every submission takes all entries and brings the next completions of the script,
    as far as they belong to operations the kernel works on.  [log] has the entries in
    the order of their submission. *)
Module ScriptRing.

Record ScriptRing : Type := mkScriptRing {
  entries : Z;
  sq : list Z;
  inflight : list Sqe;
  cq : list Cqe;
  script : list (list Cqe);
  log : list Sqe
}.

(** Removes the operation under the name [id]. *)
Fixpoint take_operation (id : Z) (l : list Sqe) : option (Sqe * list Sqe) :=
  match l with
  | [] => None
  | s :: l =>
      if user_data s =? id then Some (s, l)
      else '(s', l') ← take_operation id l; Some (s', s :: l')
  end.

(** The completions that take place, and what is left in the kernel. *)
Fixpoint happen (cs : list Cqe) (l : list Sqe) : list Cqe * list Sqe :=
  match cs with
  | [] => ([], l)
  | c :: cs =>
      match take_operation (cqe_user_data c) l with
      | Some (_, l) => let '(cs, l) := happen cs l in (c :: cs, l)
      | None => happen cs l
      end
  end.

Lemma take_operation_spec id l s l' :
  take_operation id l = Some (s, l') -> l ≡ₚ s :: l' /\ user_data s = id.
Proof.
  revert l'. induction l as [|s0 l IH]; intros l'; [done|]. cbn.
  destruct (Z.eqb_spec (user_data s0) id) as [Hid|]; [by intros [= <- <-]|].
  destruct (take_operation id l) as [[s1 l1]|]; [|done]. cbn. intros [= -> <-].
  destruct (IH l1 eq_refl) as [-> ?]. split; [|done]. apply Permutation_swap.
Qed.

Lemma happen_spec cs : forall l, exists done,
  l ≡ₚ done ++ (happen cs l).2 /\ cqe_user_data <$> (happen cs l).1 = user_data <$> done.
Proof.
  induction cs as [|c cs IH]; intros l; [by exists []|]. cbn [happen].
  destruct (take_operation _ l) as [[s l1]|] eqn:Ht; [|apply IH].
  apply take_operation_spec in Ht as [Hp Hid]. destruct (IH l1) as (done & Hd & Hc).
  destruct (happen cs l1) as [cs' l2]. exists (s :: done). cbn in *. split; [by rewrite Hp, Hd|]. by rewrite Hc, Hid.
Qed.

Section Script.
Variable steps : list (list Cqe).

#[local] Instance script_uring : LibUring ScriptRing := {
  IORING_SETUP_SQPOLL := 2;
  IORING_TIMEOUT_ABS := 1;
  IOSQE_IO_LINK := 4;
  IORING_FEAT_NODROP := 2;
  IORING_FEAT_SUBMIT_STABLE := 4;
  sizeof_open_how := 24;
  io_uring_queue_init_params n _ _ :=
    if (n =? 0) || (32768 <? n) then (-22, -1, mkScriptRing 0 [] [] [] [] [], mkParams 0 0)
    else let e := 2 ^ Z.log2_up n in (0, 3, mkScriptRing e [] [] [] steps [], mkParams e 255);
  io_uring_get_sqe r :=
    if Z.of_nat (length (sq r)) <? entries r
    then let p := SimRing.sim_fresh (sq r) in
      (Some p, mkScriptRing (entries r) (sq r ++ [p]) (inflight r) (cq r) (script r) (log r))
    else (None, r);
  io_uring_sq_ready r := Z.of_nat (length (sq r));
  io_uring_submit_and_wait mem _ r :=
    let '(cs, l) := happen (default [] (head (script r))) (inflight r ++ (mem <$> sq r)) in
    (Z.of_nat (length (sq r)),
     mkScriptRing (entries r) [] l (cq r ++ cs) (tail (script r)) (log r ++ (mem <$> sq r)));
  io_uring_peek_cqe r := (if decide (cq r = []) then -11 else 0, head (cq r), r);
  io_uring_wait_cqe_nr _ r := (if decide (cq r = []) then -11 else 0, head (cq r), r);
  io_uring_cq_advance n r :=
    mkScriptRing (entries r) (sq r) (inflight r) (drop (Z.to_nat n) (cq r)) (script r) (log r)
}.

#[local] Program Instance script_uring_spec : LibUringSpec ScriptRing := {
  uring_entries := entries;
  uring_sq := sq;
  uring_inflight := inflight;
  uring_cq := cq
}.
Next Obligation.
  intros n fl fd0. cbn. destruct (_ || _) eqn:E; [cbn; lia|].
  apply orb_false_iff in E as [H0 H1]. apply Z.ltb_ge in H1. apply Z.eqb_neq in H0.
  cbn [sq cq entries inflight sq_entries]. intros _.
  assert (n <= 2 ^ Z.log2_up n).
  { destruct (decide (1 < n)); [by apply Z.log2_up_spec|]. rewrite Z.log2_up_eqn0 by lia. lia. }
  assert (2 ^ Z.log2_up n <= 2 ^ Z.log2_up 32768)
    by (apply Z.pow_le_mono_r; [lia|]; by apply Z.log2_up_le_mono).
  change (2 ^ Z.log2_up 32768) with 32768 in *. repeat split; try done; lia.
Qed.
Next Obligation.
  intros r. cbn. destruct (_ <? _) eqn:E; cbn.
  - apply Z.ltb_lt in E. repeat split; try done. apply SimRing.sim_fresh_spec.
  - apply Z.ltb_ge in E. done.
Qed.
Next Obligation. done. Qed.
Next Obligation.
  intros mem n r. cbn.
  destruct (happen_spec (default [] (head (script r))) (inflight r ++ (mem <$> sq r))) as (done & Hd & Hc).
  destruct (happen _ _) as [cs l]. exists (length (sq r)), done, cs. cbn.
  rewrite drop_all, firstn_all. by split_and!.
Qed.
Next Obligation.
  intros r. cbn. repeat split; try done. destruct (cq r) as [|c cs]; cbn; [by left|done].
Qed.
Next Obligation. done. Qed.

End Script.
End ScriptRing.

Module SessionSockets.
Import IoQueue EventLoop Histories Stories Servers Callbacks Relays CallbackRelays.

(** ** What the session does to its descriptor *)

(** The callbacks of [recv] and [send] call [close] and return without handing [self]
    on. *)
Definition receive_ends (readBytes : Z) : bool := (readBytes <? 0) || (readBytes =? 0).
Definition sendResponse_ends (sentBytes : Z) : bool := (sentBytes <? 0) || (sentBytes =? 0).

(** Then the session is destroyed, and its [fd_] with it. *)
Definition destroys (e : call * Z) : option Z :=
  match e with
  | (Recv fd _ _, readBytes) => if receive_ends readBytes then Some fd else None
  | (Send fd _ _, sentBytes) => if sendResponse_ends sentBytes then Some fd else None
  | _ => None
  end.

Inductive verdict : Type :=
| Open (fds : gset Z)    (* the descriptors of the sessions that live *)
| Reused (fd : Z)        (* [accept] returned one of them *)
| Stolen (fd : Z).       (* a queued close has closed one of them *)

(** An operation completes, and its callback runs. *)
Definition watch (e : call * Z) (fds : gset Z) : verdict :=
  match e with
  | (Accept _ _ _, fd) =>
      if fd <? 0 then Open fds
      else if decide (fd ∈ fds) then Reused fd else Open ({[fd]} ∪ fds)
  | (Close fd, r) =>
      if (r =? 0) && bool_decide (fd ∈ fds) then Stolen fd else Open fds
  | e => match destroys e with Some fd => Open (fds ∖ {[fd]}) | None => Open fds end
  end.

Fixpoint watches (h : history) (fds : gset Z) : verdict :=
  match h with
  | [] => Open fds
  | e :: h => match watch e fds with Open fds => watches h fds | v => v end
  end.

(** Every queued close comes from a callback that ended its session, which has closed
    the descriptor by itself when it returned; [ended] is what the last callback has
    closed. *)
Fixpoint closed_already (ended : option Z) (h : history) : Prop :=
  match h with
  | [] => True
  | e :: h =>
      match e.1 with Close fd => ended = Some fd | _ => True end /\ closed_already (destroys e) h
  end.

Lemma closed_already_any ended h : closed_already None h -> closed_already ended h.
Proof. destruct h as [|[[] r] h]; cbn; try done. by intros [? _]. Qed.

Lemma closed_already_close M fd h :
  lineage M (session_close fd) h -> closed_already (Some fd) h.
Proof. by intros [->|[r ->]]%lineage_close. Qed.

(** The callbacks of [recv] and [send] close, when there is nothing to go on with. *)
Lemma closed_already_end M fd c r p h :
  (exists a n, c = Recv fd a n \/ c = Send fd a n) ->
  lineage M (if r <? 0 then session_close fd else if r =? 0 then session_close fd else p) h ->
  (0 < r -> lineage M p h -> closed_already None h) -> closed_already None ((c, r) :: h).
Proof.
  intros Hc Hl Hp.
  assert (closed_already (destroys (c, r)) h) as H.
  { assert (destroys (c, r) = if (r <? 0) || (r =? 0) then Some fd else None) as ->
      by (by destruct Hc as (a & n & [-> | ->])).
    destruct (Z.ltb_spec r 0); [by eapply closed_already_close|].
    destruct (Z.eqb_spec r 0); [by eapply closed_already_close|]. apply Hp; [lia|done]. }
  cbn [closed_already fst]. by destruct Hc as (a & n & [-> | ->]).
Qed.

Lemma closed_already_sendResponse M fd buf size again sends :
  (forall h, lineage M again h -> closed_already None h) -> forall offset h,
  lineage M (sendResponse sends fd buf size offset again) h -> closed_already None h.
Proof.
  intros Ha. induction sends as [|sends IH]; intros offset h Hp; cbn [sendResponse] in Hp.
  { by apply lineage_ret_inv in Hp as ->. }
  apply lineage_assert in Hp as [->|[_ [->|(r & h' & -> & Hp)]%lineage_callback_ret]]; [done..|].
  eapply closed_already_end; [by eexists _, _; right|exact Hp|].
  intros _ [->|[_ Hk]]%lineage_assert; [done|].
  destruct (u64 (offset + r) <? size); [by eapply IH|by apply Ha].
Qed.

Lemma closed_already_receive M fd buf sends : forall rounds k h,
  (forall h, lineage M k h -> closed_already None h) ->
  lineage M (receive rounds sends fd buf k) h -> closed_already None h.
Proof.
  assert (Hret : forall h, lineage M Ret h -> closed_already None h) by by intros h ->%lineage_ret_inv.
  assert (H : forall rounds h, lineage M (receive rounds sends fd buf Ret) h -> closed_already None h).
  { induction rounds as [|rounds IH]; intros h Hp; cbn [receive] in Hp; [by apply Hret|].
    apply lineage_callback_ret in Hp as [->|(r & h' & -> & Hp)]; [done|].
    eapply closed_already_end; [by eexists _, _; left|exact Hp|].
    intros _ Hr. by eapply closed_already_sendResponse. }
  intros rounds k h Hk [Hp|Hp]%receive_or_next; [by eapply H|by apply Hk].
Qed.

Lemma closed_already_accept M rounds sends listenSocket buf : forall conns h,
  lineage M (accept conns rounds sends listenSocket buf) h -> closed_already None h.
Proof.
  induction conns as [|conns IH]; intros h Hp; cbn [accept] in Hp.
  { by apply lineage_ret_inv in Hp as ->. }
  apply (lineage_callback_inv M _ _
    (fun h => if valid h then Ret else accept conns rounds sends listenSocket buf)) in Hp
    as [->|[(fd & h' & -> & Hp)|[h0 Hp]]]; [done| |].
  - split; [done|]. cbn [destroys]. unfold handleAccept in Hp. destruct (fd <? 0); [by apply IH|].
    by eapply closed_already_receive.
  - destruct (valid h0); [|by apply IH]. by apply lineage_ret_inv in Hp as ->.
Qed.

(** ** An execution *)

Section Execution.

#[local] Existing Instance CompleterMap.completer_table.
#[local] Existing Instance CompleterMap.completer_table_spec.
#[local] Existing Instance free_address_allocator.

(** The kernel: a connection comes and its peer closes it; while the session is ended,
    the next connection comes and gets the number that has just been closed. *)
Definition second_connection : list (list Cqe) :=
  [[mkCqe 0 7]; [mkCqe 1 0]; [mkCqe 2 7; mkCqe 3 0]].

#[local] Instance kernel : LibUring ScriptRing.ScriptRing := ScriptRing.script_uring second_connection.

Definition blank : IoURing.IoURing ScriptRing.ScriptRing :=
  IoURing.mkIoURing (ScriptRing.mkScriptRing 0 [] [] [] [] []) (-1) (mkParams 0 0)
    (fun _ => mkSqe IORING_OP_NOP 0 0 0 0 0 0 0 0 0 0 0 0 0).

(** The operation that an entry asks for, as far as the server uses it. *)
Definition asked (s : Sqe) : option call :=
  match opcode s with
  | IORING_OP_ACCEPT => Some (Accept (fd s) (addr s) (off s))
  | IORING_OP_RECV => Some (Recv (fd s) (addr s) (len s))
  | IORING_OP_SEND => Some (Send (fd s) (addr s) (len s))
  | IORING_OP_CLOSE => Some (Close (fd s))
  | _ => None
  end.

(** What the queue got back in [fuel] iterations, in order. *)
Definition results (fuel : nat)
    (w : World ScriptRing.ScriptRing CompleterMap.CompleterMap) : history :=
  match iterate fuel w with
  | Ok w' =>
      omap (fun c =>
        s ← list_find (fun s => user_data s = cqe_user_data c)
          (ScriptRing.log (IoURing.ring_ (ring_ (queue w'))));
        c' ← asked s.2; Some (c', cqe_res c)) (consumed fuel w)
  | Crash _ => []
  end.

Definition server : prog := accept 4 9 3 3 4096.

Definition stolen : history := [(Accept 3 0 0, 7); (Recv 7 4096 2048, 0); (Accept 3 0 0, 7); (Close 7, 0)].

(** What the kernel was asked for. *)
Definition submitted (w : World ScriptRing.ScriptRing CompleterMap.CompleterMap) : list call :=
  omap asked (ScriptRing.log (IoURing.ring_ (ring_ (queue w)))).

Lemma server_results :
  match make 64 blank with
  | Ok (Some q) =>
      match start server (new_world q) with
      | Ok w => results 4 w = stolen /\
          (w' ← iterate 2 w; Ok (closed w', submitted w')) = Ok ([7], [Accept 3 0 0; Recv 7 4096 2048; Accept 3 0 0])
      | Crash _ => False
      end
  | _ => False
  end.
Proof. vm_compute. by split. Qed.

(** After two iterations the first session has closed its descriptor, and its queued
    close is not submitted.  When that completes the second session is open, and then
    its socket is gone. *)
Definition steals : Prop :=
  exists q w, make 64 blank = Ok (Some q) /\ start server (new_world q) = Ok w /\
    (w' ← iterate 2 w; Ok (closed w', submitted w')) = Ok ([7], [Accept 3 0 0; Recv 7 4096 2048; Accept 3 0 0]) /\
    results 4 w = stolen /\ watches (take 3 stolen) ∅ = Open {[7]} /\ watches stolen ∅ = Stolen 7.

Lemma server_steals : steals.
Proof.
  pose proof server_results as H.
  destruct (make 64 blank) as [[q|]|] eqn:Hq; [|done..]. exists q.
  destruct (start server (new_world q)) as [w|] eqn:Hw; [|done]. exists w.
  split; [done|]. split; [done|]. destruct H as [H1 H2]. split; [exact H2|]. split; [exact H1|].
  split; vm_compute; reflexivity.
Qed.

End Execution.

(** C13: The queued close of a session of echo-tcp.cpp never closes the session's own
    socket: on the queue, whatever the kernel reports, each one was queued by a
    callback that has ended its session, and by the time it can be submitted the
    session's [Fd] has closed the descriptor; for up to [size + 1] calls of accept in
    all, for each of which the submission queue has an entry.  It can close another's:
    with a kernel that never hands out a number in use, a connection that has just been
    accepted loses its socket to the close that was queued for the one before. *)
Theorem queued_close_stale {R} `{!LibUring R} `{!LibUringSpec R} {T} `{!CompleterTable T}
    `{!CompleterTableSpec T} {allocator : Allocator} size u (q : IoQueue R T)
    conns rounds sends listenSocket buf :
  0 <= size < 196613 -> make size u = Ok (Some q) -> Z.of_nat conns <= getSize q ->
  Z.of_nat conns <= size + 1 -> Z.of_nat (server_cost conns rounds sends) <= 2 ^ 63 ->
  stories_do q (accept conns rounds sends listenSocket buf) (closed_already None) /\ steals.
Proof.
  intros H1 H2 H3 H4 H5. split; [|exact server_steals].
  eapply fits_stories; [by apply (fits_accept size u)|apply pays_accept|].
  intros M h. apply closed_already_accept.
Qed.

End SessionSockets.
