(* ===== verification/Finishing.v ===== *)
(** * When [run] returns, everything is done

    [run] returns when no completer is left.  For coroutines that disable no handler
    that is when every coroutine has come to its end: none is left suspended, with
    its locals and its frame. *)

From Stdlib Require Import ZArith Lia.
From stdpp Require Import base numbers list gmap option.
From S2P Require Import Prelude Interfaces Uring Queue QueueRing QueueSafety QueueRun Unchecked EventLoop.
From S2P Require Import Servers Callbacks.

Local Open Scope Z_scope.

Module Finishing.
Import IoQueue QueueRing QueueSafety Unchecked EventLoop Servers Callbacks.

(** No operation is cancelled with its handler. *)
Fixpoint uncancelling (p : prog) : Prop :=
  match p with
  | Ret => True
  | Call _ k | LinkTimeout _ _ _ k => forall h, uncancelling (k h)
  | Cancel _ b k => b = false /\ forall h, uncancelling (k h)
  | Await _ k => forall r, uncancelling (k r)
  | Spawn p k => uncancelling p /\ forall c, uncancelling (k c)
  | Destroy _ k | CloseFd _ k => uncancelling k
  end.

Lemma uncancelling_guard p : uncancelling p -> uncancelling (guard p).
Proof.
  induction p as [|c k IH|ts fl op k IH|op b k IH|op k IH|p IHp k IH|c k IH|fd k IH]; cbn; auto.
  - intros H h. destruct (valid h); [by apply IH|done].
  - intros H h. destruct (valid h); [by apply IH|done].
  - intros [Hb H]. split; [done|]. intros h. destruct (valid h); [by apply IH|done].
  - intros [Hp Hk]. split; [by apply IHp|]. intros c. by apply IH.
Qed.

(** Every suspended coroutine will be resumed by the operation it awaits, and goes on
    without disabling a handler. *)
Record awaited (l : loop) : Prop := {
  awaited_handler f id k : l_suspended l !! f = Some (id, k) -> l_handlers l !! id = Some f;
  awaited_goes_on f id k r : l_suspended l !! f = Some (id, k) -> uncancelling (k r)
}.

Lemma awaited_resume id f l :
  awaited l -> (exists k, l_suspended l !! f = Some (id, k)) -> awaited (resume id f l).
Proof.
  intros [H1 H2] [k0 Hf]. split; cbn.
  - intros g id' k [Hne Hg]%lookup_delete_Some. pose proof (H1 _ _ _ Hg) as Hh.
    rewrite lookup_delete_ne; [done|]. intros <-. apply Hne. rewrite (H1 _ _ _ Hf) in Hh. congruence.
  - intros g id' k r [_ Hg]%lookup_delete_Some. by eapply H2.
Qed.

Lemma runs_awaited f p l tr l' : runs f p l tr l' -> uncancelling p -> awaited l -> awaited l'.
Proof.
  induction 1 as [f l|f c k id l tr l' _ Hid _ IH|f c k l tr l' _ IH|f ts fl op k h l tr l' Hh _ IH
    |f op b k h l tr l' Hh _ IH|f op k c l Hv Hc Hn|f p k l tr1 l1 tr2 l2 _ IHp _ IHk|f c k l tr l' _ IH
    |f fd k l tr l' _ IH];
    cbn [uncancelling]; intros Hp Hl; try done.
  - apply IH; [done|]. by destruct Hl.
  - by apply IH.
  - by apply IH.
  - destruct Hp as [-> Hk]. by apply IH.
  - destruct Hl as [H1 H2]. split; cbn.
    + intros g id k' [[<- [= <- <-]]|[Hne Hg]]%lookup_insert_Some; [apply lookup_insert_eq|].
      pose proof (H1 _ _ _ Hg) as Hh. rewrite lookup_insert_ne; [done|]. intros <-. by rewrite Hn in Hh.
    + intros g id k' r [[<- [= _ <-]]|[_ Hg]]%lookup_insert_Some; [done|by eapply H2].
  - destruct Hp as [Hp Hk]. apply IHk; [done|]. apply IHp; [done|]. by destruct Hl.
  - apply IH; [done|]. unfold destroy_frame. destruct (l_suspended l !! c) as [[id k0]|] eqn:Hc; [|done].
    apply awaited_resume; [done|by exists k0].
  - apply IH; [done|]. by destruct Hl.
Qed.

Lemma completes_awaited c l tr l' : completes c l tr l' -> awaited l -> awaited l'.
Proof.
  intros [f k op tr1 l1 Hh Hs Hop Hr|]; [|done]. intros Hl. eapply runs_awaited; [exact Hr| |].
  - by eapply awaited_goes_on.
  - apply awaited_resume; [done|by exists k].
Qed.

Lemma loops_awaited l cs tr l' : loops l cs tr l' -> awaited l -> awaited l'.
Proof. induction 1 as [|l1 c cs tr1 l2 tr2 l3 Hc _ IH]; [done|]. intros H. by eapply IH, completes_awaited. Qed.

Lemma begins_awaited p tr l : begins p new_loop tr l -> uncancelling p -> awaited l.
Proof. intros [tr1 l1 Hr] Hp. by eapply runs_awaited. Qed.

(** The example servers cancel nothing. *)
Lemma uncancelling_sendAll rounds fd buf size offset k :
  (forall e eof, uncancelling (k e eof)) -> uncancelling (sendAll rounds fd buf size offset k).
Proof.
  intros Hk. revert offset. induction rounds as [|rounds IH]; intros offset; [done|]. cbn [sendAll].
  destruct (offset <? size); [|done]. cbn. intros _ r. destruct (r <? 0); [done|]. by destruct (r =? 0).
Qed.

Lemma uncancelling_echo rounds sends fd buf bye bye_len ts :
  uncancelling (echo rounds sends fd buf bye bye_len ts).
Proof.
  induction rounds as [|rounds IH]; [done|]. cbn. intros _ _ r.
  destruct ((r <? 0) && _); [by apply uncancelling_sendAll|].
  destruct (r <? 0); [done|]. destruct (r =? 0); [done|]. apply uncancelling_sendAll. intros e eof.
  by destruct (negb (e =? 0) || eof).
Qed.

Lemma uncancelling_session rounds sends buf response len fd :
  uncancelling (startSession rounds sends buf response len fd).
Proof.
  induction rounds as [|rounds IH]; [done|]. cbn. intros _ r.
  destruct (r <? 0); [done|]. destruct (r =? 0); [done|]. apply uncancelling_sendAll. intros e eof.
  by destruct (negb (e =? 0) || eof).
Qed.

Lemma uncancelling_serve session rounds fd :
  (forall fd, uncancelling (session fd)) -> uncancelling (serve session rounds fd).
Proof.
  intros Hs. induction rounds as [|rounds IH]; [done|]. cbn. intros _ r. by destruct (r <? 0).
Qed.

Lemma uncancelling_sendResponse sends fd buf size again : uncancelling again -> forall offset,
  uncancelling (sendResponse sends fd buf size offset again).
Proof.
  intros Ha. induction sends as [|sends IH]; intros offset; [done|]. cbn [sendResponse].
  unfold assert_that. destruct (offset <? size); [|done]. cbn. intros _. split; [|done]. intros r.
  destruct (r <? 0); [done|]. destruct (r =? 0); [done|]. destruct (0 <? r); [|done].
  by destruct (u64 (offset + r) <? size).
Qed.

Lemma uncancelling_receive rounds sends fd buf : forall k,
  uncancelling k -> uncancelling (receive rounds sends fd buf k).
Proof.
  induction rounds as [|rounds IH]; intros k Hk; [done|]. cbn. intros _. split; [|done]. intros r.
  destruct (r <? 0); [done|]. destruct (r =? 0); [done|]. by apply uncancelling_sendResponse, IH.
Qed.

Lemma uncancelling_accept conns rounds sends listenSocket buf :
  uncancelling (accept conns rounds sends listenSocket buf).
Proof.
  induction conns as [|conns IH]; [done|]. cbn. intros h. split.
  - intros fd. unfold handleAccept. destruct (fd <? 0); [done|]. by apply uncancelling_receive.
  - intros _. by destruct (valid h).
Qed.

Section Queue.
Context {R : Type} `{!LibUring R} `{!LibUringSpec R}.
Context {T : Type} `{!CompleterTable T} `{!CompleterTableSpec T}.
Context {allocator : Allocator}.

Definition all_finished (w : World R T) : Prop := forall f s, frames w !! f = Some s -> s = Finished.

(** A consistent queue with nobody to resume has finished coroutines only. *)
Lemma implements_finished (w : World R T) l :
  implements w l -> awaited l -> l_handlers l = ∅ -> all_finished w.
Proof.
  intros (B & σ & N & HI & Hl) [Ha _] He f s Hf. destruct s as [|a|]; [exfalso|exfalso|done].
  - apply (inv_running _ _ _ (inv_frames _ _ _ _ _ _ _ HI)) in Hf. by apply elem_of_nil in Hf.
  - pose proof (repr_suspended _ _ _ Hl f) as Hs. rewrite Hf in Hs. cbn in Hs.
    apply Ha in Hs. by rewrite He, lookup_empty in Hs.
Qed.

Lemma rel_finished (w w' : World R T) : rel w w' -> all_finished w' -> all_finished w.
Proof.
  intros Hrel H f s Hf. pose proof (rel_frames _ _ Hrel f) as Hfr. rewrite Hf in Hfr.
  inversion Hfr as [s1 s2 Hss Heq1 Heq2|]; subst. symmetry in Heq2. apply H in Heq2 as ->.
  by inversion Hss.
Qed.

(** [run] does not return before. *)
Lemma return_finished size u q n m p :
  0 <= size < 196613 -> make (R := R) (T := T) size u = Ok (Some q) ->
  Z.of_nat n <= 2 ^ 63 -> Z.of_nat m <= size + 1 ->
  wf p (mkBudget n m ∅ ∅) None -> uncancelling p ->
  exists w, start p (new_world q) = Ok w /\
    (forall fuel v, run fuel w = Ok (Some v) -> all_finished v) /\
    (ReliableRing R -> exists v, run n w = Ok (Some v) /\ all_finished v).
Proof.
  intros Hsize Hmake Hn Hm Hwf Hp.
  destruct (start_refines size u q n m _ Hsize Hmake Hn Hm Hwf) as (w & B & σ & tr & l & Hw & HI & Hb & Hl).
  exists w. split; [done|].
  assert (forall fuel v, run fuel w = Ok (Some v) -> all_finished v) as Hfin.
  { intros fuel v Hv. destruct (iterate_refines fuel w B σ n l HI Hl) as (w2 & tr' & l' & _ & Hloops & Him & Hrun).
    rewrite Hv in Hrun. destruct (decide (l_handlers l' = ∅)) as [He|]; [|done]. injection Hrun as ->.
    eapply implements_finished; [done| |done]. eapply loops_awaited; [done|]. by eapply begins_awaited. }
  split; [exact Hfin|]. intros Hrel.
  destruct (QueueRun.run_total n _ w B σ n HI ltac:(done)) as (v & B' & N' & Hv & _).
  exists v. split; [done|]. by eapply Hfin.
Qed.

(** C10: [run] returns only when every coroutine has come to its end, for disciplined
    coroutines that cancel no operation with its handler: whatever the kernel reports,
    none is left suspended then.  With a kernel that completes what is waited for it does
    return, so every coroutine that was started, by the program or by another one,
    ends. *)
Theorem coroutines_finish size u q n m p :
  0 <= size < 196613 -> make (R := R) (T := T) size u = Ok (Some q) ->
  Z.of_nat n <= 2 ^ 63 -> Z.of_nat m <= size + 1 ->
  wf p (mkBudget n m ∅ ∅) None -> uncancelling p ->
  exists w, start p (new_world q) = Ok w /\
    (forall fuel v, run fuel w = Ok (Some v) -> all_finished v) /\
    (ReliableRing R -> exists v, run n w = Ok (Some v) /\ all_finished v).
Proof. apply return_finished. Qed.

(** A server that fits its queue: its coroutines end. *)
Definition finishes (q : IoQueue R T) (n : nat) (p : prog) : Prop :=
  exists w v, start p (new_world q) = Ok w /\ run n w = Ok (Some v) /\ all_finished v.

Lemma fits_finish `{!ReliableRing R} size u q linked n m p :
  Fits size u q linked n m p -> uncancelling p -> finishes q n p.
Proof.
  intros HF Hp. pose proof (fits_wf _ _ _ _ _ _ _ HF) as Hwf. destruct HF as [H1 H2 H3 H4 _ H6 H7].
  destruct (return_finished size u q n m _ H1 H2 H3 H4 Hwf (uncancelling_guard _ Hp))
    as (w' & Hw' & _ & Hend). destruct (Hend ltac:(done)) as (v' & Hv' & Hfin).
  destruct (start_pair size u q n m p linked m H1 H2 H3 H4 Hwf H6 H7) as (w & w2 & Hw & Hw2 & Hpair).
  rewrite Hw' in Hw2. injection Hw2 as <-.
  destruct (run_sim _ _ _ n w w' Hpair) as (o & o' & Ho & Ho' & Hrel). rewrite Hv' in Ho'. injection Ho' as <-.
  inversion Hrel as [v ? [Hr _ _ _]|]; subst. exists w, v. split; [done|]. split; [done|]. by eapply rel_finished.
Qed.

(** The sessions of the servers all end, and the servers themselves. *)
Theorem servers_finish `{!ReliableRing R} size u q conns rounds sends listenSocket buf bye bye_len ts
    response len :
  0 <= size < 196613 -> make (R := R) (T := T) size u = Ok (Some q) ->
  2 * Z.of_nat conns + 1 <= getSize q ->
  Z.of_nat conns <= size + 1 -> Z.of_nat (conns * S (session_cost 2 rounds sends)) <= 2 ^ 63 ->
  finishes q (conns * S (session_cost 2 rounds sends))
    (serve_echo conns rounds sends listenSocket buf bye bye_len ts) /\
  finishes q (conns * S (session_cost 1 rounds sends))
    (serve_http conns rounds sends listenSocket buf response len) /\
  finishes q (server_cost conns rounds sends) (accept conns rounds sends listenSocket buf).
Proof.
  intros H1 H2 H3 H4 H5. split_and!; eapply fits_finish.
  - by apply (fits_serve_echo size u).
  - apply uncancelling_serve. intros fd. apply uncancelling_echo.
  - apply (fits_serve_http size u); try done; [lia|]. unfold session_cost in *. nia.
  - apply uncancelling_serve. intros fd. apply uncancelling_session.
  - apply (fits_accept size u); try done; [lia|]. unfold server_cost, session_cost in *. nia.
  - apply uncancelling_accept.
Qed.

End Queue.
End Finishing.
