(* ===== verification/Buffers.v ===== *)
(** * Whom the kernel works for

    An operation names buffers that its coroutine owns: locals, or what its callback
    holds.  They are there as long as the coroutine's frame.  When every operation is
    awaited before its coroutine next suspends or ends, and no coroutine is destroyed
    while it waits, the kernel only ever works for coroutines that are suspended on just
    that operation.  Destroying one cancels its operation, but does not take the request
    back. *)

From Stdlib Require Import ZArith Lia.
From stdpp Require Import base numbers list gmap option.
From S2P Require Import Prelude Interfaces Uring Queue QueueRing QueueSafety QueueRun Modest Unchecked.
From S2P Require Import EventLoop Servers Callbacks.

Local Open Scope Z_scope.

Module Buffers.
Import IoQueue QueueRing QueueSafety Modest Unchecked EventLoop Servers Callbacks.

Section Queue.
Context {R : Type} `{!LibUring R} `{!LibUringSpec R}.
Context {T : Type} `{!CompleterTable T} `{!CompleterTableSpec T}.
Context {allocator : Allocator}.

Abbreviation World := (World R T).

(** Whatever the ring has under its name - an entry that is not submitted, an operation
    of the kernel, a completion that is not consumed - a coroutine is suspended on it. *)
Definition serves_suspended (w : World) : Prop :=
  forall id, id ∈ outstanding (ring_ (queue w)) -> id <> OpIdIgnore -> exists f, awaited_by id f w.

Lemma attended_serves linked w N : attended linked w [] N -> serves_suspended w.
Proof. intros [H1 _ _ _] id Hid Hn. by destruct (H1 id Hid Hn) as [?%elem_of_nil|?]. Qed.

Lemma iterations_serve size u q n m p linked M :
  0 <= size < 196613 -> make (R := R) (T := T) size u = Ok (Some q) ->
  Z.of_nat n <= 2 ^ 63 -> Z.of_nat m <= size + 1 ->
  wf (guard p) (mkBudget n m ∅ ∅) None -> needed linked M <= getSize q -> modest linked p None M ->
  exists w, start p (new_world q) = Ok w /\
    forall fuel, exists v, iterate fuel w = Ok v /\ serves_suspended v.
Proof.
  intros Hsize Hmake Hn Hm Hwf HM Hp.
  destruct (start_pair size u q n m p linked M Hsize Hmake Hn Hm Hwf HM Hp) as (w & w' & Hw & _ & Hpair).
  exists w. split; [done|]. intros fuel.
  destruct (iterate_sim _ _ _ fuel w w' Hpair) as (v & v' & Hv & _ & [_ _ _ (N & Ha & _)] & _).
  exists v. split; [done|]. by eapply attended_serves.
Qed.

(** C11: The kernel works for suspended coroutines only: after any number of iterations of
    [run], whatever the kernel reported and however many entries it took, each entry,
    operation and completion of the ring is that of an operation on which a coroutine is
    suspended, whose frame has the buffers.  The coroutines take one operation at a
    time - each is awaited before its coroutine next suspends or ends, and none is
    cancelled or destroyed - and have at most [M] of them at a time, for which the
    submission queue has entries: [M], or [2 * M + 1] when there are time limits. *)
Theorem kernel_serves_suspended size u q n m p linked M :
  0 <= size < 196613 -> make (R := R) (T := T) size u = Ok (Some q) ->
  Z.of_nat n <= 2 ^ 63 -> Z.of_nat m <= size + 1 ->
  wf (guard p) (mkBudget n m ∅ ∅) None -> needed linked M <= getSize q -> modest linked p None M ->
  exists w, start p (new_world q) = Ok w /\
    forall fuel, exists v, iterate fuel w = Ok v /\ serves_suspended v.
Proof. apply iterations_serve. Qed.

(** ** The example servers: their buffers are there as long as the kernel may use them. *)
Definition serves (q : IoQueue R T) (p : prog) : Prop :=
  exists w, start p (new_world q) = Ok w /\
    forall fuel, exists v, iterate fuel w = Ok v /\ serves_suspended v.

Lemma fits_serve_suspended size u q linked n m p : Fits size u q linked n m p -> serves q p.
Proof.
  intros HF. pose proof (fits_wf _ _ _ _ _ _ _ HF) as Hwf. destruct HF as [H1 H2 H3 H4 _ H6 H7].
  by apply (iterations_serve size u q n m p linked m).
Qed.

Theorem servers_serve_suspended size u q conns rounds sends listenSocket buf bye bye_len ts response len :
  0 <= size < 196613 -> make (R := R) (T := T) size u = Ok (Some q) ->
  2 * Z.of_nat conns + 1 <= getSize q ->
  Z.of_nat conns <= size + 1 -> Z.of_nat (conns * S (session_cost 2 rounds sends)) <= 2 ^ 63 ->
  serves q (serve_echo conns rounds sends listenSocket buf bye bye_len ts) /\
  serves q (serve_http conns rounds sends listenSocket buf response len) /\
  serves q (accept conns rounds sends listenSocket buf).
Proof.
  intros H1 H2 H3 H4 H5. split_and!; eapply fits_serve_suspended.
  - by apply (fits_serve_echo size u).
  - apply (fits_serve_http size u); try done; [lia|]. unfold session_cost in *. nia.
  - apply (fits_accept size u); try done; [lia|]. unfold server_cost, session_cost in *. nia.
Qed.

(** What is not so when a coroutine is destroyed while it awaits: its completer goes at
    once, and another entry asks the kernel to cancel, but the request is still in the
    ring when the frame it was made for is gone, buffers included. *)
Theorem destroyed_request_stays size u q c :
  0 <= size < 196613 -> make (R := R) (T := T) size u = Ok (Some q) -> 1 <= getSize q ->
  exists w, (forall func,
      start (Spawn (Call c (fun h => Await h func)) (fun f => Destroy f Ret)) (new_world q) = Ok w) /\
    frames w = {[0 := Finished]} /\ completers w = ∅ /\
    set_user_data 0 (IoURing.encode (R := R) (request_of c)) ∈ requests (ring_ (queue w)) /\
    ~ serves_suspended w.
Proof.
  intros Hsize Hmake Hentries.
  destruct (QueueRun.make_ok size u q Hsize Hmake) as (Hr & _ & Hn & _ & Hrep & Hcap).
  set (w0 := mkWorld q ∅ {[0 := Running]} 0 1 []).
  destruct (task_callback_dropped c w0 Hr) as (w & _ & Hheap & Hf & Hreq & Hex); try done.
  { cbn. rewrite Hn. unfold id_ok. lia. }
  { by apply (new_capacity size u). }
  { cbn. lia. }
  change (nextOpId_ (queue w0)) with (nextOpId_ q) in Hreq. rewrite Hn in Hreq.
  exists w. split_and!; [intros func; apply Hex|done..|]. intros Hs.
  destruct (Hs 0) as (f & a & Hfa & _); [|done|].
  - by apply (requests_outstanding _ _ Hreq).
  - rewrite Hf in Hfa. by apply lookup_singleton_Some in Hfa as [_ ?].
Qed.

End Queue.
End Buffers.
