(* ===== verification/Proxy.v ===== *)
(** * A connection of the example proxy (examples/proxy-coro.cpp)

    [handleClient] runs two [echo] tasks that share its two [Fd] objects; each of
    them shuts down, releases and closes both sockets when it is done.  A
    connection is a machine of three coroutines that the event loop resumes with
    results, in any order; [log] holds the operations they prepared.  The [WaitAll]
    on the two tasks never hears of their end: the coroutine of its [add] is resumed
    when the closure it reads the [WaitAll] through is gone (Waits.v). *)

From Stdlib Require Import ZArith Lia.
From stdpp Require Import base numbers list.
From S2P Require Import Prelude Interfaces Uring Queue Waits.

Local Open Scope Z_scope.

Module Proxy.
Import IoQueue.

Inductive side : Type := Client | Upstream.

#[global] Instance side_eq_dec : EqDecision side.
Proof. solve_decision. Defined.

Definition other (s : side) : side := match s with Client => Upstream | Upstream => Client end.

(** The [echo] that receives from [Client] sends to [Upstream], and the other way
    round: an [echo] is named by the side it receives from. *)

(** What an [echo] awaits. *)
Inductive pc : Type :=
| NotStarted
| Receiving
| Sending (size offset : Z)
| ShuttingRecv
| ClosingRecv
| ShuttingSend
| ClosingSend
| Returned.

#[global] Instance pc_eq_dec : EqDecision pc.
Proof. solve_decision. Defined.

(** What [handleClient] awaits. *)
Inductive handler_pc : Type :=
| Connecting
| ClosingClient
| ClosingUpstream
| Relaying        (* [co_await WaitAll { echo, echo }] *)
| Ended.

(** [client] and [upstream] are the [fd_] of the sockets, [destroyed] the
    descriptors their destructors closed. *)
Record state : Type := mkState {
  client : Z;
  upstream : Z;
  handler : handler_pc;
  from_client : pc;
  from_upstream : pc;
  log : list call;
  destroyed : list Z
}.

Definition fd (i : side) (s : state) : Z :=
  match i with Client => client s | Upstream => upstream s end.
Definition echo_pc (i : side) (s : state) : pc :=
  match i with Client => from_client s | Upstream => from_upstream s end.

Definition set_fd (i : side) (v : Z) (s : state) : state :=
  match i with
  | Client => mkState v (upstream s) (handler s) (from_client s) (from_upstream s) (log s) (destroyed s)
  | Upstream => mkState (client s) v (handler s) (from_client s) (from_upstream s) (log s) (destroyed s)
  end.
Definition set_pc (i : side) (p : pc) (s : state) : state :=
  match i with
  | Client => mkState (client s) (upstream s) (handler s) p (from_upstream s) (log s) (destroyed s)
  | Upstream => mkState (client s) (upstream s) (handler s) (from_client s) p (log s) (destroyed s)
  end.
Definition set_handler (h : handler_pc) (s : state) : state :=
  mkState (client s) (upstream s) h (from_client s) (from_upstream s) (log s) (destroyed s).
Definition emit (c : call) (s : state) : state :=
  mkState (client s) (upstream s) (handler s) (from_client s) (from_upstream s) (log s ++ [c])
    (destroyed s).

(** [fd.release()] *)
Definition release (i : side) (s : state) : Z * state := (fd i s, set_fd i (-1) s).

(** [~Fd] *)
Definition destroy_fd (i : side) (s : state) : state :=
  if negb (fd i s =? -1) then
    mkState (client s) (upstream s) (handler s) (from_client s) (from_upstream s) (log s)
      (destroyed s ++ [fd i s])
  else s.

(** [io.close(socket.release())] *)
Definition close_released (i : side) (s : state) : state :=
  let '(f, s) := release i s in emit (Close f) s.

Section Proxy.
(** The locals of the coroutines: buffers and addresses, by the side. *)
Variables (buf : side -> Z) (sa : Z).

Definition bufsize : Z := 8192.
Definition SHUT_RDWR : Z := 2.

(** ** [echo] *)

(** One round: [io.recv]. *)
Definition echo_recv (i : side) (s : state) : state :=
  set_pc i Receiving (emit (Recv (fd i s) (buf i) bufsize) s).

(** After the loop: [io.shutdown(recvSocket, SHUT_RDWR)]. *)
Definition echo_break (i : side) (s : state) : state :=
  set_pc i ShuttingRecv (emit (Shutdown (fd i s) SHUT_RDWR) s).

(** The loop of [sendAll]; once it is done the next round begins. *)
Definition echo_send (i : side) (size offset : Z) (s : state) : state :=
  if offset <? size then
    set_pc i (Sending size offset)
      (emit (Send (fd (other i) s) (buf i + offset) (size - offset)) s)
  else echo_recv i s.

(** The end of an [echo] resumes the coroutine that [WaitAll::add] started for it, which
    reports it to the [WaitAll] its closure has captured; that resumes the handler when
    both are over, and the handler's sockets are destroyed. *)
Definition echo_return (this : Waits.closure) (i : side) (s : state) : outcome state :=
  let s := set_pc i Returned s in
  s ← Waits.captured this s;
  match echo_pc (other i) s with
  | Returned => Ok (destroy_fd Client (destroy_fd Upstream (set_handler Ended s)))
  | _ => Ok s
  end.

(** The event loop resumes the [echo] of [i] with [r].  No more is received than
    there is room for: [first] has that precondition.  An [echo] awaits an operation
    before it returns, so that [add] has returned, and its closure is gone, by then. *)
Definition resume_echo (i : side) (r : Z) (s : state) : outcome state :=
  match echo_pc i s with
  | Receiving =>
      if r <? 0 then Ok (echo_break i s)
      else if r =? 0 then Ok (echo_break i s)
      else if r <=? bufsize then Ok (echo_send i r 0 s) else Crash UndefinedBehaviour
  | Sending size offset =>
      if r <? 0 then Ok (echo_break i s)
      else Ok (echo_send i size (u64 (offset + r)) s)
  | ShuttingRecv => Ok (set_pc i ClosingRecv (close_released i s))
  | ClosingRecv => Ok (set_pc i ShuttingSend (emit (Shutdown (fd (other i) s) SHUT_RDWR) s))
  | ShuttingSend => Ok (set_pc i ClosingSend (close_released (other i) s))
  | ClosingSend => echo_return Waits.Dead i s
  | NotStarted | Returned => Crash UndefinedBehaviour
  end.

(** ** [handleClient] *)

(** A new connection [c]; [u] is the descriptor of the socket it creates. *)
Definition start (c u : Z) : state :=
  emit (Connect u sa sizeof_sockaddr_in) (mkState c u Connecting NotStarted NotStarted [] []).

Definition resume_handler (r : Z) (s : state) : outcome state :=
  match handler s with
  | Connecting =>
      if r <? 0 then Ok (set_handler ClosingClient (close_released Client s))
      else Ok (echo_recv Upstream (echo_recv Client (set_handler Relaying s)))
  | ClosingClient => Ok (set_handler ClosingUpstream (close_released Upstream s))
  | ClosingUpstream => Ok (destroy_fd Client (destroy_fd Upstream (set_handler Ended s)))
  | Relaying | Ended => Crash UndefinedBehaviour
  end.

(** ** Executions *)

Inductive actor : Type := Handler | Echo (i : side).

Definition resume (a : actor) (r : Z) (s : state) : outcome state :=
  match a with Handler => resume_handler r s | Echo i => resume_echo i r s end.

(** The coroutine awaits an operation, which may return [r]. *)
Definition may_resume (a : actor) (r : Z) (s : state) : Prop :=
  match a with
  | Handler => handler s <> Relaying /\ handler s <> Ended
  | Echo i => echo_pc i s <> NotStarted /\ echo_pc i s <> Returned /\
      (echo_pc i s = Receiving -> r <= bufsize)
  end.

Inductive reaches : state -> state -> Prop :=
| reaches_refl s : reaches s s
| reaches_step s1 s2 s3 a r :
    reaches s1 s2 -> may_resume a r s2 -> resume a r s2 = Ok s3 -> reaches s1 s3.

(** ** What the operations are about *)

Definition call_fd (c : call) : Z :=
  match c with
  | Accept f _ _ | Connect f _ _ | Send f _ _ | Recv f _ _ | Read f _ _ | Close f
  | Shutdown f _ | Poll f _ | Recvmsg f _ _ | Sendmsg f _ _ => f
  | Timeout _ _ => -1
  end.

(** [f] is closed once, and not used afterwards. *)
Definition closed_once (f : Z) (l : list call) : Prop :=
  exists l1 l2, l = l1 ++ Close f :: l2 /\ (Close f ∉ l1) /\ (forall c, (c ∈ l2) -> call_fd c <> f).

(** A socket that holds [v], created with [f]. *)
Definition cell_ok (f v : Z) (l : list call) : Prop :=
  (v = f /\ (Close f ∉ l)) \/ (v = -1 /\ closed_once f l).

Lemma cell_other f v l c :
  cell_ok f v l -> call_fd c <> f \/ (v = f /\ c <> Close f) -> f <> -1 -> cell_ok f v (l ++ [c]).
Proof.
  intros [[-> Hn]|(-> & l1 & l2 & -> & Hl1 & Hl2)] Hc Hf.
  - left. split; [done|]. rewrite elem_of_app, list_elem_of_singleton.
    intros [?|<-]; [done|]. by destruct Hc as [Hc|[_ Hc]].
  - right. split; [done|]. exists l1, (l2 ++ [c]). rewrite <- app_assoc. split; [done|].
    split; [done|]. intros c' [?| ->%list_elem_of_singleton]%elem_of_app; [by apply Hl2|].
    destruct Hc as [?|[? _]]; [done|]. by subst f.
Qed.

Lemma cell_close f v l : cell_ok f v l -> f <> -1 -> cell_ok f (-1) (l ++ [Close v]).
Proof.
  intros [[-> Hn]|[-> Hc]] Hf.
  - right. split; [done|]. exists l, []. split; [done|]. split; [done|]. by intros c ?%elem_of_nil.
  - apply cell_other; [by right| |done]. by left.
Qed.

(** ** The invariant *)

Section Invariant.
Variables (c u : Z).
Hypotheses (Hc : 0 <= c) (Hu : 0 <= u) (Hcu : c <> u).

Definition created (i : side) : Z := match i with Client => c | Upstream => u end.

Lemma created_fd i : created i <> -1 /\ created i <> created (other i).
Proof. destruct i; cbn; lia. Qed.

Definition cells (s : state) : Prop := forall i, cell_ok (created i) (fd i s) (log s).

(** An operation on one of the sockets. *)
Lemma cells_use j x s :
  cells s -> call_fd x = fd j s -> (forall f, x <> Close f) -> cells (emit x s).
Proof.
  intros Hs Hx Hn i. pose proof (Hs i) as Hi. pose proof (Hs j) as Hj.
  assert (fd i (emit x s) = fd i s) as -> by by destruct i.
  pose proof (created_fd i) as [Hi1 Hi2]. apply cell_other; [done| |done].
  destruct Hi as [[Hv _]|[Hv _]]; [by right|]. left. rewrite Hx.
  destruct (decide (j = i)) as [->|Hne]; [congruence|].
  assert (j = other i) as -> by by destruct i, j.
  destruct Hj as [[-> _]|[-> _]]; congruence.
Qed.

Lemma cells_close j s : cells s -> cells (close_released j s).
Proof.
  intros Hs i. pose proof (Hs i) as Hi. pose proof (Hs j) as Hj.
  pose proof (created_fd i) as [Hi1 Hi2].
  destruct (decide (j = i)) as [->|Hne].
  - assert (fd i (close_released i s) = -1 /\
      log (close_released i s) = log s ++ [Close (fd i s)]) as [-> ->] by by destruct i.
    by apply cell_close.
  - assert (j = other i) as -> by by destruct i, j.
    assert (fd i (close_released (other i) s) = fd i s /\
      log (close_released (other i) s) = log s ++ [Close (fd (other i) s)]) as [-> ->] by by destruct i.
    apply cell_other; [done| |done]. left. cbn.
    destruct Hj as [[-> _]|[-> _]]; congruence.
Qed.

(** What an [echo] has released, by what it awaits. *)
Definition echo_ok (i : side) (s : state) : Prop :=
  match echo_pc i s with
  | NotStarted => True
  | Receiving | Sending _ _ | ShuttingRecv => handler s = Relaying
  | ClosingRecv | ShuttingSend => handler s = Relaying /\ fd i s = -1
  | ClosingSend => handler s = Relaying /\ fd i s = -1 /\ fd (other i) s = -1
  | Returned => False
  end.

Definition handler_ok (s : state) : Prop :=
  match handler s with
  | Connecting | Relaying => True
  | ClosingClient => client s = -1
  | ClosingUpstream | Ended => client s = -1 /\ upstream s = -1
  end.

Record Inv (s : state) : Prop := {
  inv_cells : cells s;
  inv_echo i : echo_ok i s;
  inv_handler : handler_ok s;
  inv_destroyed : destroyed s = []
}.

Lemma set_pc_eq i p s :
  echo_pc i (set_pc i p s) = p /\ echo_pc (other i) (set_pc i p s) = echo_pc (other i) s /\
  handler (set_pc i p s) = handler s /\ (forall j, fd j (set_pc i p s) = fd j s) /\
  log (set_pc i p s) = log s.
Proof. destruct i; (split_and!; [done..| |done]); by intros []. Qed.

(** A release by one is nothing to the other. *)
Lemma echo_ok_same i s s' :
  echo_ok i s -> echo_pc i s' = echo_pc i s -> handler s' = handler s ->
  (forall j, fd j s = -1 -> fd j s' = -1) -> echo_ok i s'.
Proof.
  unfold echo_ok. intros H -> -> Hf. destruct (echo_pc i s); try done; intuition auto.
Qed.

(** Another operation, and nothing released. *)
Lemma use_Inv j x s :
  Inv s -> call_fd x = fd j s -> (forall f, x <> Close f) -> Inv (emit x s).
Proof.
  intros [H1 H2 H3 H4] Hx Hn. split; [by eapply cells_use|exact H2|exact H3|exact H4].
Qed.

Lemma released_fd i j s : fd j s = -1 \/ j = i -> fd j (close_released i s) = -1.
Proof. destruct i, j; cbn; intros [?|?]; done. Qed.

Lemma close_Inv i s : Inv s -> Inv (close_released i s).
Proof.
  intros [H1 H2 H3 H4]. split; [by apply cells_close| | |by destruct i].
  - intros j. apply (echo_ok_same j s); [done|by destruct i, j..|].
    intros k Hk. apply released_fd. by left.
  - unfold handler_ok in *. destruct i; cbn in *; destruct (handler s); cbn in *; intuition auto.
Qed.

(** An [echo] awaits something else. *)
Lemma set_pc_Inv i p s :
  Inv s -> echo_ok i (set_pc i p s) -> Inv (set_pc i p s).
Proof.
  intros [H1 H2 H3 H4] Hp. destruct (set_pc_eq i p s) as (E1 & E2 & E3 & E4 & E5). split.
  - intros j. rewrite E4, E5. apply H1.
  - intros j. destruct (decide (j = i)) as [->|Hne]; [done|].
    assert (j = other i) as -> by by destruct i, j.
    assert (other (other i) = i) as Hoo by by destruct i.
    clear Hp. specialize (H2 (other i)). unfold echo_ok in *. by rewrite E2, E3, !E4, Hoo in *.
  - unfold handler_ok in *. rewrite E3. by destruct (handler s), i.
  - by destruct i.
Qed.

Lemma set_handler_Inv h s :
  Inv s -> handler_ok (set_handler h s) -> (forall i, echo_ok i (set_handler h s)) ->
  Inv (set_handler h s).
Proof. intros [H1 H2 H3 H4] Hh He. split; [|done..]. intros i. specialize (H1 i). by destruct i. Qed.

(** An [echo] that relays prepares an operation and awaits it. *)
Lemma relay_Inv i j x p s :
  Inv s -> handler s = Relaying -> call_fd x = fd j s -> (forall f, x <> Close f) ->
  echo_ok i (set_pc i p s) -> Inv (set_pc i p (emit x s)).
Proof. intros HI Hh Hx Hn Hp. apply set_pc_Inv; [by eapply use_Inv|]. by destruct i. Qed.

Lemma recv_Inv i s : Inv s -> handler s = Relaying -> Inv (echo_recv i s).
Proof. intros HI Hh. apply (relay_Inv i i); try done. by destruct i. Qed.

Lemma break_Inv i s : Inv s -> handler s = Relaying -> Inv (echo_break i s).
Proof. intros HI Hh. apply (relay_Inv i i); try done. by destruct i. Qed.

Lemma send_Inv i size offset s : Inv s -> handler s = Relaying -> Inv (echo_send i size offset s).
Proof.
  intros HI Hh. unfold echo_send. destruct (offset <? size); [|by apply recv_Inv].
  apply (relay_Inv i (other i)); try done. by destruct i.
Qed.

Lemma destroy_nothing i s : fd i s = -1 -> destroy_fd i s = s.
Proof. intros H. unfold destroy_fd. by rewrite H. Qed.

(** The completion of an [echo]'s last close is undefined; the others are fine. *)
Lemma resume_echo_Inv i r s :
  Inv s -> may_resume (Echo i) r s ->
  match resume_echo i r s with
  | Ok s' => echo_pc i s <> ClosingSend /\ Inv s'
  | Crash e => e = UndefinedBehaviour /\ echo_pc i s = ClosingSend
  end.
Proof.
  intros HI (Hns & Hnr & Hsize). pose proof (inv_echo s HI i) as He.
  unfold echo_ok in He. unfold resume_echo.
  destruct (echo_pc i s) as [| |size offset| | | | |] eqn:Hp; try done.
  - destruct (r <? 0); [split; [done|by apply break_Inv]|].
    destruct (r =? 0); [split; [done|by apply break_Inv]|].
    rewrite (proj2 (Z.leb_le r bufsize)) by by apply Hsize.
    split; [done|by apply send_Inv].
  - destruct (r <? 0); (split; [done|]); [by apply break_Inv|by apply send_Inv].
  - split; [done|]. apply set_pc_Inv; [by apply close_Inv|]. destruct i; cbn; auto.
  - destruct He as [Hh Hf]. split; [done|].
    apply (relay_Inv i (other i)); [done..|]. destruct i; cbn in *; auto.
  - destruct He as [Hh Hf]. split; [done|]. apply set_pc_Inv; [by apply close_Inv|].
    destruct i; cbn in *; auto.
Qed.

Lemma not_relaying s : Inv s -> handler s <> Relaying -> handler s <> Ended ->
  forall i, echo_pc i s = NotStarted.
Proof.
  intros HI H1 H2 i. pose proof (inv_echo s HI i) as He. unfold echo_ok in He.
  destruct (echo_pc i s); intuition congruence.
Qed.

Lemma resume_handler_Inv r s :
  Inv s -> may_resume Handler r s -> exists s', resume_handler r s = Ok s' /\ Inv s'.
Proof.
  intros HI [Hh1 Hh2]. pose proof (not_relaying s HI Hh1 Hh2) as Hpc.
  pose proof (inv_handler s HI) as Hh. unfold handler_ok in Hh. unfold resume_handler.
  destruct (handler s) eqn:E; try done.
  - destruct (r <? 0); (eexists; split; [done|]).
    + apply set_handler_Inv; [by apply close_Inv|done|].
      intros i. specialize (Hpc i). unfold echo_ok. by destruct i; cbn in *; rewrite Hpc.
    + apply recv_Inv; [apply recv_Inv|]; [|done..].
      apply set_handler_Inv; [done..|]. intros i. specialize (Hpc i). unfold echo_ok.
      by destruct i; cbn in *; rewrite Hpc.
  - eexists. split; [done|]. apply set_handler_Inv; [by apply close_Inv|by split|].
    intros i. specialize (Hpc i). unfold echo_ok. by destruct i; cbn in *; rewrite Hpc.
  - destruct Hh as [Hcl Hup]. rewrite (destroy_nothing Upstream), (destroy_nothing Client) by done.
    eexists. split; [done|].
    apply set_handler_Inv; [done|by split|].
    intros i. specialize (Hpc i). unfold echo_ok. by destruct i; cbn in *; rewrite Hpc.
Qed.

(** The resumption is that of an [echo] that is over. *)
Definition reports (a : actor) (s : state) : Prop :=
  match a with
  | Handler => False
  | Echo i => echo_pc i s = ClosingSend
  end.

Lemma resume_Inv a r s :
  Inv s -> may_resume a r s ->
  match resume a r s with
  | Ok s' => ~ reports a s /\ Inv s'
  | Crash e => e = UndefinedBehaviour /\ reports a s
  end.
Proof.
  intros HI Hm. destruct a; [|by apply resume_echo_Inv].
  destruct (resume_handler_Inv r s HI Hm) as (s' & H & HI'). cbn [resume]. rewrite H. by split; [intros []|].
Qed.

Lemma start_Inv : Inv (start c u).
Proof.
  split; [|by intros []|done..]. intros i. unfold start.
  apply (cell_other _ _ []); [|destruct i; cbn; [left; congruence|by right]|by apply created_fd].
  left. split; [by destruct i|]. by intros ?%elem_of_nil.
Qed.

Lemma reaches_Inv s : reaches (start c u) s -> Inv s.
Proof.
  intros H. remember (start c u) as s0 eqn:E. induction H as [|s1 s2 s3 a r H IH Hm Hr]; subst.
  - apply start_Inv.
  - pose proof (resume_Inv a r s2 (IH eq_refl) Hm) as HI. rewrite Hr in HI. apply HI.
Qed.

End Invariant.


(** A [send] that returns 0 is repeated: its [sendAll], unlike the other examples',
    does not take that for the end of the connection. *)
Theorem proxy_send_zero_spins i size offset s :
  echo_pc i s = Sending size offset -> 0 <= offset < size -> size < 2 ^ 64 ->
  resume_echo i 0 s =
    Ok (set_pc i (Sending size offset) (emit (Send (fd (other i) s) (buf i + offset) (size - offset)) s)).
Proof.
  intros Hp Ho Hs. unfold resume_echo. rewrite Hp. cbn [Z.ltb Z.compare].
  rewrite Z.add_0_r, u64_small by lia. unfold echo_send. by rewrite (proj2 (Z.ltb_lt offset size)) by lia.
Qed.

End Proxy.
End Proxy.
