(* ===== verification/ProxyRelays.v ===== *)
(** * What the example proxy relays

    The sockets of a proxied connection ([Proxy]) as streams of bytes, by their
    descriptors: a completed receive moves what arrived into memory, a completed send
    takes from memory what the kernel says it took. *)

From Stdlib Require Import ZArith Lia.
From stdpp Require Import base numbers list functions.
From S2P Require Import Prelude Interfaces Uring Queue Relays Proxy.

Local Open Scope Z_scope.

Module ProxyRelays.
Import IoQueue Proxy.

Abbreviation byte := Byte.byte.

(** For each descriptor, what arrived on it and was not received yet, what was
    received, and what was sent. *)
Record wire : Type := mkWire {
  memory : Z -> byte;
  unread : Z -> list byte;
  received : Z -> list byte;
  sent : Z -> list byte
}.

(** An operation returns [r]; [None] when the kernel cannot have reported that. *)
Definition transfer (c : call) (r : Z) (w : wire) : option wire :=
  match c with
  | Recv f a n =>
      if r <=? 0 then Some w
      else if (0 <=? f) && (r <=? n) && (r <=? Z.of_nat (length (unread w f))) then
        let bs := take (Z.to_nat r) (unread w f) in
        Some (mkWire (Relays.store a bs (memory w))
          (<[f := drop (Z.to_nat r) (unread w f)]> (unread w))
          (<[f := received w f ++ bs]> (received w)) (sent w))
      else None
  | Send f a n =>
      if r <=? 0 then Some w
      else if (0 <=? f) && (r <=? n) then
        Some (mkWire (memory w) (unread w) (received w)
          (<[f := sent w f ++ Relays.fetch a r (memory w)]> (sent w)))
      else None
  | _ => Some w
  end.

(** The operations a step asked for. *)
Definition issued (s s' : state) : list call := drop (length (log s)) (log s').

(** The first operation of each [echo], when the handler has started them. *)
Definition first_of (i : side) (s s' : state) : option call :=
  match echo_pc i s' with
  | NotStarted => None
  | _ => issued s s' !! match i with Client => 0%nat | Upstream => 1%nat end
  end.

Section Relays.
Variables (buf : side -> Z) (sa : Z).

(** The sockets along an execution of the connection, with the operation each [echo]
    awaits. *)
Inductive relays (s0 : state) (w0 : wire) : state -> wire -> (side -> option call) -> Prop :=
| relays_refl : relays s0 w0 s0 w0 (fun _ => None)
| relays_handler s w o s' r :
    relays s0 w0 s w o -> may_resume Handler r s -> resume buf Handler r s = Ok s' ->
    relays s0 w0 s' w (fun i => match o i with Some c => Some c | None => first_of i s s' end)
| relays_echo s w o s' i r c w' o' :
    relays s0 w0 s w o -> may_resume (Echo i) r s -> o i = Some c -> transfer c r w = Some w' ->
    resume buf (Echo i) r s = Ok s' ->
    o' i = list.last (issued s s') -> o' (other i) = o (other i) -> relays s0 w0 s' w' o'.

Lemma relays_reaches s0 w0 s w o : relays s0 w0 s w o -> reaches buf s0 s.
Proof. induction 1; [constructor|eapply reaches_step; done..]. Qed.

(** What [echo] awaits after a step, on its own. *)
Definition next_pc (p : pc) (r : Z) : pc :=
  match p with
  | Receiving => if r <=? 0 then ShuttingRecv else Sending r 0
  | Sending size offset =>
      if r <? 0 then ShuttingRecv
      else if u64 (offset + r) <? size then Sending size (u64 (offset + r)) else Receiving
  | ShuttingRecv => ClosingRecv
  | ClosingRecv => ShuttingSend
  | ShuttingSend => ClosingSend
  | _ => Returned
  end.

Section Connection.
Variables (c u : Z).
Hypotheses (Hc : 0 <= c) (Hu : 0 <= u) (Hcu : c <> u).
Hypothesis Hapart : buf Client + bufsize <= buf Upstream \/ buf Upstream + bufsize <= buf Client.

Abbreviation created := (created c u).

Lemma created_pos i : 0 <= created i.
Proof. by destruct i. Qed.

Lemma created_ne i : created i <> created (other i).
Proof. destruct i; cbn; congruence. Qed.

(** The operation the [echo] of [i] awaits: it is on the socket created for it, unless
    the other [echo] had closed that. *)
Definition awaits (i : side) (p : pc) (o : option call) : Prop :=
  match p with
  | NotStarted => o = None
  | Receiving => exists f, o = Some (Recv f (buf i) bufsize) /\ (f = created i \/ f < 0)
  | Sending size offset =>
      exists f, o = Some (Send f (buf i + offset) (size - offset)) /\ (f = created (other i) \/ f < 0)
  | _ => match o with Some (Recv _ _ _ | Send _ _ _) => False | _ => True end
  end.

(** The other socket has sent what [i] received but for at most one piece of 8192
    bytes; the rest is in the buffer while it is being sent, and none when [echo]
    receives. *)
Definition direction_ok (input : list byte) (i : side) (p : pc) (w : wire) : Prop :=
  received w (created i) ++ unread w (created i) = input /\
  exists rest, received w (created i) = sent w (created (other i)) ++ rest /\
    Z.of_nat (length rest) <= bufsize /\
    match p with
    | NotStarted | Receiving => rest = []
    | Sending size offset =>
        rest = Relays.fetch (buf i + offset) (size - offset) (memory w) /\
        0 <= offset < size /\ size <= bufsize
    | _ => True
    end.

(** ** A completion *)

Lemma transfer_recv f i r w w' :
  transfer (Recv f (buf i) bufsize) r w = Some w' -> f = created i \/ f < 0 -> 0 < r ->
  let bs := take (Z.to_nat r) (unread w (created i)) in
  r <= bufsize /\ Z.of_nat (length bs) = r /\ memory w' = Relays.store (buf i) bs (memory w) /\
  unread w' = <[created i := drop (Z.to_nat r) (unread w (created i))]> (unread w) /\
  received w' = <[created i := received w (created i) ++ bs]> (received w) /\ sent w' = sent w.
Proof.
  intros H Hf Hr. cbn in H. rewrite (proj2 (Z.leb_gt r 0)) in H by done.
  destruct (Z.leb_spec 0 f); [|done]. destruct Hf as [->|?]; [|lia].
  destruct (Z.leb_spec r bufsize), (Z.leb_spec r (Z.of_nat (length (unread w (created i)))));
    cbn in H; try done.
  injection H as <-. cbn. rewrite length_take. split_and!; try done; lia.
Qed.

Lemma transfer_send f i a n r w w' :
  transfer (Send f a n) r w = Some w' -> f = created (other i) \/ f < 0 -> 0 < r ->
  r <= n /\ memory w' = memory w /\ unread w' = unread w /\ received w' = received w /\
  sent w' = <[created (other i) := sent w (created (other i)) ++ Relays.fetch a r (memory w)]> (sent w).
Proof.
  intros H Hf Hr. cbn in H. rewrite (proj2 (Z.leb_gt r 0)) in H by done.
  destruct (Z.leb_spec 0 f); [|done]. destruct Hf as [->|?]; [|lia].
  destruct (Z.leb_spec r n); cbn in H; [|done]. by injection H as <-.
Qed.

Lemma transfer_nothing x r w w' : transfer x r w = Some w' -> r <= 0 -> w' = w.
Proof.
  intros H Hr. destruct x; cbn in H; rewrite ?(proj2 (Z.leb_le r 0) Hr) in H; by injection H.
Qed.

Lemma transfer_quiet i p x r w w' :
  transfer x r w = Some w' -> awaits i p (Some x) ->
  (match p with Receiving | Sending _ _ => False | _ => True end) -> w' = w.
Proof.
  intros H Ha Hp. destruct p; try done; cbn in Ha; try done;
    (destruct x; try done; cbn in H; by injection H).
Qed.

(** The direction whose [echo] is resumed. *)
Lemma direction_next input i p x r w w' :
  direction_ok input i p w -> awaits i p (Some x) -> transfer x r w = Some w' ->
  direction_ok input i (next_pc p r) w'.
Proof.
  intros (Hin & rest & Hre & Hb & Hp) Ha Ht. pose proof (created_ne i) as Hne.
  destruct p as [| |size offset| | | | |]; [done| | |
    (rewrite (transfer_quiet _ _ _ _ _ _ Ht Ha I); split; [done|]; by exists rest)..].
  - destruct Ha as (f & [= ->] & Hf). subst rest. cbn [next_pc]. destruct (Z.leb_spec r 0) as [Hr|Hr].
    { rewrite (transfer_nothing _ _ _ _ Ht Hr). split; [done|]. by exists []. }
    destruct (transfer_recv f i r w w' Ht Hf Hr) as (Hrb & Hl & Hm & Hun & Hrc & Hs).
    set (bs := take _ _) in *. rewrite app_nil_r in Hre.
    split; [rewrite Hun, Hrc, !fn_lookup_insert, <- app_assoc; unfold bs; by rewrite take_drop|].
    exists bs. rewrite Hrc, Hs, fn_lookup_insert, Hre, Hm.
    assert (Relays.fetch (buf i + 0) (r - 0) (Relays.store (buf i) bs (memory w)) = bs) as ->.
    { rewrite Z.add_0_r, Z.sub_0_r, <- Hl. apply Relays.fetch_store. }
    split_and!; done || lia.
  - destruct Ha as (f & [= ->] & Hf), Hp as (-> & Ho & Hs). cbn [next_pc].
    destruct (Z.leb_spec r 0) as [Hr|Hr].
    { rewrite (transfer_nothing _ _ _ _ Ht Hr). split; [done|].
      exists (Relays.fetch (buf i + offset) (size - offset) (memory w)). unfold bufsize in *.
      destruct (Z.ltb_spec r 0); [by split_and!|]. assert (r = 0) as -> by lia.
      rewrite Z.add_0_r, u64_small, (proj2 (Z.ltb_lt offset size)) by lia.
      split_and!; try done; unfold bufsize; lia. }
    destruct (transfer_send f i _ _ r w w' Ht Hf Hr) as (Hrn & Hm & Hun & Hrc & Hse).
    unfold bufsize in *. rewrite (proj2 (Z.ltb_ge r 0)), u64_small by lia.
    split; [by rewrite Hun, Hrc|].
    exists (Relays.fetch (buf i + (offset + r)) (size - (offset + r)) (memory w)).
    pose proof (Relays.fetch_app (buf i + offset) r (size - (offset + r)) (memory w)
      ltac:(lia) ltac:(lia)) as Hsplit.
    replace (r + (size - (offset + r))) with (size - offset) in Hsplit by lia.
    replace (buf i + offset + r) with (buf i + (offset + r)) in Hsplit by lia.
    rewrite Hrc, Hse, fn_lookup_insert, <- app_assoc, <- Hsplit, Hm.
    rewrite Relays.length_fetch by lia. unfold bufsize.
    split_and!; [done|lia|]. destruct (Z.ltb_spec (offset + r) size); [split_and!; done || lia|].
    by replace (size - (offset + r)) with 0 by lia.
Qed.

(** The other one: its buffer and its sockets' streams are others. *)
Lemma direction_other input i p q x r w w' :
  direction_ok input (other i) q w -> awaits i p (Some x) -> transfer x r w = Some w' ->
  direction_ok input (other i) q w'.
Proof.
  intros Hd Ha Ht. pose proof (created_ne i) as Hne. destruct (Z.leb_spec r 0) as [Hr|Hr].
  { by rewrite (transfer_nothing _ _ _ _ Ht Hr). }
  assert (other (other i) = i) as Hoo by by destruct i.
  destruct p as [| |size offset| | | | |]; [done| | |by rewrite (transfer_quiet _ _ _ _ _ _ Ht Ha I)..].
  - destruct Ha as (f & [= ->] & Hf).
    destruct (transfer_recv f i r w w' Ht Hf Hr) as (Hrb & Hl & Hm & Hun & Hrc & Hs).
    set (bs := take _ _) in *. destruct Hd as (Hin & rest & Hre & Hb & Hq).
    split; [by rewrite Hun, Hrc, !fn_lookup_insert_ne by done|].
    exists rest. rewrite Hrc, Hs, !fn_lookup_insert_ne by done. split; [done|]. split; [done|].
    destruct q as [| |size offset| | | | |]; try done. destruct Hq as (-> & Ho & Hsz).
    split_and!; try done; try lia. rewrite Hm, Relays.fetch_store_other; [done|].
    destruct i; cbn [other] in *; lia.
  - destruct Ha as (f & [= ->] & Hf).
    destruct (transfer_send f i _ _ r w w' Ht Hf Hr) as (Hrn & Hm & Hun & Hrc & Hse).
    unfold direction_ok in *. by rewrite Hm, Hun, Hrc, Hse, Hoo, fn_lookup_insert_ne in * by congruence.
Qed.

(** ** The machine's steps *)

Lemma issued_emit s x : issued s (emit x s) = [x].
Proof. apply drop_app_length. Qed.

(** The socket an [echo] works on. *)
Lemma cell_fd s i : cells c u s -> fd i s = created i \/ fd i s < 0.
Proof. intros H. destruct (H i) as [[-> _]|[-> _]]; [by left|right; lia]. Qed.

Lemma echo_send_awaits i s size offset :
  cells c u s -> let s' := echo_send buf i size offset s in
  echo_pc i s' = (if offset <? size then Sending size offset else Receiving) /\
  echo_pc (other i) s' = echo_pc (other i) s /\
  awaits i (echo_pc i s') (list.last (issued s s')).
Proof.
  intros Hs. cbn. unfold echo_send, echo_recv. destruct (offset <? size).
  - pose proof (cell_fd s (other i) Hs). unfold issued.
    destruct i; cbn; rewrite drop_app_length; by eauto.
  - pose proof (cell_fd s i Hs). unfold issued. destruct i; cbn; rewrite drop_app_length; by eauto.
Qed.

Lemma echo_break_awaits i s :
  let s' := echo_break i s in
  echo_pc i s' = ShuttingRecv /\ echo_pc (other i) s' = echo_pc (other i) s /\
  awaits i ShuttingRecv (list.last (issued s s')).
Proof. unfold issued. destruct i; cbn; by rewrite drop_app_length. Qed.

Lemma resume_echo_awaits i r s s' :
  cells c u s -> resume_echo buf i r s = Ok s' ->
  echo_pc i s' = next_pc (echo_pc i s) r /\ echo_pc (other i) s' = echo_pc (other i) s /\
  awaits i (echo_pc i s') (list.last (issued s s')).
Proof.
  unfold resume_echo. intros Hs H.
  destruct (echo_pc i s) as [| |size offset| | | | |] eqn:Hp; cbn [next_pc]; try done.
  - destruct (Z.ltb_spec r 0).
    { injection H as <-. rewrite (proj2 (Z.leb_le r 0)) by lia.
      by destruct (echo_break_awaits i s) as (-> & -> & ?). }
    destruct (Z.eqb_spec r 0).
    { injection H as <-. rewrite (proj2 (Z.leb_le r 0)) by lia.
      by destruct (echo_break_awaits i s) as (-> & -> & ?). }
    rewrite (proj2 (Z.leb_gt r 0)) by lia. destruct (r <=? bufsize); [|done]. injection H as <-.
    destruct (echo_send_awaits i s r 0 Hs) as (-> & -> & Ha).
    rewrite (proj2 (Z.ltb_lt 0 r)) in * by lia. by split_and!.
  - destruct (r <? 0); injection H as <-.
    { by destruct (echo_break_awaits i s) as (-> & -> & ?). }
    destruct (echo_send_awaits i s size (u64 (offset + r)) Hs) as (-> & -> & Ha). by split_and!.
  - injection H as <-. unfold issued. destruct i; cbn; by rewrite drop_app_length.
  - injection H as <-. unfold issued. destruct i; cbn; by rewrite drop_app_length.
  - injection H as <-. unfold issued. destruct i; cbn; by rewrite drop_app_length.
Qed.

Lemma resume_handler_awaits r s s' i :
  cells c u s -> resume_handler buf r s = Ok s' -> echo_pc i s = NotStarted \/ handler s <> Connecting ->
  echo_pc i s' = echo_pc i s \/
  (echo_pc i s = NotStarted /\ echo_pc i s' = Receiving /\ awaits i Receiving (first_of i s s')).
Proof.
  intros Hs H Hn. unfold resume_handler in H. pose proof (cell_fd s i Hs) as Hf.
  destruct (handler s); try done.
  - destruct (r <? 0); injection H as <-; [left; by destruct i|].
    destruct Hn as [Hn|]; [|done]. right. unfold first_of, issued.
    destruct i; cbn; rewrite <- app_assoc, drop_app_length; cbn; by eauto.
  - injection H as <-. left. by destruct i.
  - injection H as <-. left. unfold destroy_fd.
    destruct i; cbn; repeat (match goal with |- context [if ?b then _ else _] => destruct b end; cbn); done.
Qed.

(** ** Executions *)

Variable w0 : wire.
Hypothesis Hnew : forall i, received w0 (created i) = [] /\ sent w0 (created i) = [].

Lemma relays_ok s w o :
  relays (start sa c u) w0 s w o -> forall i,
  direction_ok (unread w0 (created i)) i (echo_pc i s) w /\ awaits i (echo_pc i s) (o i).
Proof.
  intros H. induction H as [|s w o s' r H IH Hm Hr|s w o s' i r x w' o' H IH Hm Ho Ht Hr Hi Hoi].
  - intros i. destruct (Hnew i) as [H1 _], (Hnew (other i)) as [_ H2].
    replace (echo_pc i (start sa c u)) with NotStarted by by destruct i.
    split; [|done]. split; [by rewrite H1|]. exists []. by rewrite H1, H2.
  - intros i. pose proof (reaches_Inv buf sa c u Hc Hu Hcu s (relays_reaches _ _ _ _ _ H)) as HI.
    assert (Hn : echo_pc i s = NotStarted) by (destruct Hm; by eapply not_relaying).
    destruct (IH i) as [Hd Ha]. rewrite Hn in Hd, Ha. cbn in Ha. rewrite Ha.
    destruct (resume_handler_awaits r s s' i (inv_cells _ _ _ HI) Hr (or_introl Hn)) as [Hpc|(_ & Hpc & Hf)].
    + rewrite Hpc, Hn. split; [done|]. unfold first_of. by rewrite Hpc, Hn.
    + by rewrite Hpc.
  - pose proof (reaches_Inv buf sa c u Hc Hu Hcu s (relays_reaches _ _ _ _ _ H)) as HI.
    destruct (resume_echo_awaits i r s s' (inv_cells _ _ _ HI) Hr) as (Hpi & Hpo & Ha).
    destruct (IH i) as [Hdi Hai]. rewrite Ho in Hai.
    intros j. destruct (decide (j = i)) as [->|Hne].
    + rewrite Hi. split; [|done]. rewrite Hpi. by eapply direction_next.
    + assert (j = other i) as -> by by destruct i, j. rewrite Hpo, Hoi.
      destruct (IH (other i)) as [Hdo Hao]. split; [by eapply direction_other|done].
Qed.

End Connection.

(** C7: The proxy relays: whatever the order in which a connection's coroutines run
    and whatever the kernel reports, each socket has sent exactly the bytes received
    on the other one, in order and without gaps, but for at most 8192 of them, and
    all of them whenever the relay is waiting for more. *)
Theorem proxy_relays c u w0 s w o :
  0 <= c -> 0 <= u -> c <> u ->
  buf Client + bufsize <= buf Upstream \/ buf Upstream + bufsize <= buf Client ->
  (forall i, received w0 (created c u i) = [] /\ sent w0 (created c u i) = []) ->
  relays (start sa c u) w0 s w o ->
  forall i, let source := created c u i in let target := created c u (other i) in
    received w source ++ unread w source = unread w0 source /\
    (exists rest, received w source = sent w target ++ rest /\ Z.of_nat (length rest) <= 8192) /\
    (echo_pc i s = Receiving -> sent w target = received w source).
Proof.
  intros Hc Hu Hcu Hapart Hnew Hr i.
  destruct (relays_ok c u Hc Hu Hcu Hapart w0 Hnew s w o Hr i) as [(Hin & rest & Hre & Hb & Hp) _].
  split; [done|]. split; [by exists rest|]. intros Hpc. rewrite Hpc in Hp. subst rest.
  by rewrite Hre, app_nil_r.
Qed.

End Relays.
End ProxyRelays.
