(* ===== verification/Functions.v ===== *)
(** * [Function] (function.hpp)

    A program's [Function] objects are a store from names to their [callable_],
    which owns a [Callable] on the heap.  What they promise is that each object
    holds a functor of its own or none. *)

From Stdlib Require Import ZArith Lia.
From stdpp Require Import base numbers gmap option.
From S2P Require Import Prelude.

Local Open Scope Z_scope.

Module Function.
Section Function.
(** A functor's value, and calling it: [func] is mutable, so a call can change it. *)
Context {F Args Ret : Type} (call_functor : F -> Args -> Ret * F).

Inductive op : Type :=
| Default (o : Z)                    (* Function(), Function(nullptr) *)
| FromFunc (o : Z) (f : F)           (* Function(Func&&) *)
| MoveConstruct (o other : Z)        (* Function(Function&&) *)
| AssignFunc (o : Z) (f : F)         (* operator=(Func&&) *)
| MoveAssign (o other : Z)           (* operator=(Function&&) *)
| AssignNull (o : Z)                 (* operator=(nullptr) *)
| Test (o : Z)                       (* operator bool *)
| Invoke (o : Z) (args : Args)       (* operator() *)
| Destroy (o : Z).

Inductive answer : Type := Nothing | IsSet (b : bool) | Returned (r : Ret).

(** ** The specification: a functor or none under each name *)

Abbreviation values := (gmap Z (option F)).

Definition fresh_name {A} (o : Z) (m : gmap Z A) : outcome unit :=
  match m !! o with None => Ok tt | Some _ => Crash UndefinedBehaviour end.

Definition spec_step (a : op) (m : values) : outcome (answer * values) :=
  match a with
  | Default o => _ ← fresh_name o m; Ok (Nothing, <[o := None]> m)
  | FromFunc o f => _ ← fresh_name o m; Ok (Nothing, <[o := Some f]> m)
  | MoveConstruct o other =>
      v ← deref (m !! other); _ ← fresh_name o m;
      Ok (Nothing, <[o := v]> (<[other := None]> m))
  | AssignFunc o f => _ ← deref (m !! o); Ok (Nothing, <[o := Some f]> m)
  | MoveAssign o other =>
      _ ← deref (m !! o); v ← deref (m !! other);
      Ok (Nothing, <[o := v]> (<[other := None]> m))
  | AssignNull o => _ ← deref (m !! o); Ok (Nothing, <[o := None]> m)
  | Test o => v ← deref (m !! o); Ok (IsSet (bool_decide (is_Some v)), m)
  | Invoke o args =>
      v ← deref (m !! o); f ← deref v;
      let '(r, f) := call_functor f args in Ok (Returned r, <[o := Some f]> m)
  | Destroy o => _ ← deref (m !! o); Ok (Nothing, delete o m)
  end.

(** ** The implementation *)

(** [new Callable<Func>]: any address that is not in use. *)
Variable new_callable : gmap Z F -> Z.

Record state : Type := mkState { objects : gmap Z (option Z); heap : gmap Z F }.

Definition set_callable (o : Z) (p : option Z) (s : state) : state :=
  mkState (<[o := p]> (objects s)) (heap s).

(** The deleter of [unique_ptr], for a pointer that may be null. *)
Definition delete_callable (p : option Z) (s : state) : outcome state :=
  match p with
  | None => Ok s
  | Some p => _ ← deref (heap s !! p); Ok (mkState (objects s) (delete p (heap s)))
  end.

(** [callable_.reset(p)] *)
Definition reset (o : Z) (p : option Z) (s : state) : outcome state :=
  old ← deref (objects s !! o);
  delete_callable old (set_callable o p s).

(** [callable_.release()] of a [unique_ptr] that is moved from. *)
Definition release (o : Z) (s : state) : outcome (option Z * state) :=
  p ← deref (objects s !! o);
  Ok (p, set_callable o None s).

Definition allocate (f : F) (s : state) : Z * state :=
  let p := new_callable (heap s) in (p, mkState (objects s) (<[p := f]> (heap s))).

Definition step (a : op) (s : state) : outcome (answer * state) :=
  match a with
  | Default o => _ ← fresh_name o (objects s); Ok (Nothing, set_callable o None s)
  | FromFunc o f =>
      _ ← fresh_name o (objects s);
      let s := set_callable o None s in
      let '(p, s) := allocate f s in
      s ← reset o (Some p) s; Ok (Nothing, s)
  | MoveConstruct o other =>
      '(p, s) ← release other s;
      _ ← fresh_name o (objects s);
      Ok (Nothing, set_callable o p s)
  | AssignFunc o f =>
      _ ← deref (objects s !! o);
      let '(p, s) := allocate f s in
      s ← reset o (Some p) s; Ok (Nothing, s)
  | MoveAssign o other =>
      _ ← deref (objects s !! o);
      '(p, s) ← release other s;
      s ← reset o p s; Ok (Nothing, s)
  | AssignNull o => s ← reset o None s; Ok (Nothing, s)
  | Test o => p ← deref (objects s !! o); Ok (IsSet (bool_decide (is_Some p)), s)
  | Invoke o args =>
      c ← deref (objects s !! o);
      p ← deref c;
      f ← deref (heap s !! p);
      let '(r, f) := call_functor f args in
      Ok (Returned r, mkState (objects s) (<[p := f]> (heap s)))
  | Destroy o =>
      p ← deref (objects s !! o);
      s ← delete_callable p s;
      Ok (Nothing, mkState (delete o (objects s)) (heap s))
  end.

Fixpoint run (l : list op) (s : state) : outcome (list answer * state) :=
  match l with
  | [] => Ok ([], s)
  | a :: l => '(x, s) ← step a s; '(xs, s) ← run l s; Ok (x :: xs, s)
  end.

Fixpoint spec_run (l : list op) (m : values) : outcome (list answer * values) :=
  match l with
  | [] => Ok ([], m)
  | a :: l => '(x, m) ← spec_step a m; '(xs, m) ← spec_run l m; Ok (x :: xs, m)
  end.

(** ** The refinement *)

(** What an object's pointer stands for. *)
Definition value_of (h : gmap Z F) (p : option Z) : option F := p ≫= (h !!.).

(** Every callable is owned by exactly one object, but for [x], which a member
    function holds while it runs. *)
Record owned (x : option Z) (s : state) : Prop := {
  owned_alive o p : objects s !! o = Some (Some p) -> is_Some (heap s !! p);
  owned_once o1 o2 p :
    objects s !! o1 = Some (Some p) -> objects s !! o2 = Some (Some p) -> o1 = o2;
  owned_held p : x = Some p ->
    is_Some (heap s !! p) /\ forall o, objects s !! o <> Some (Some p);
  owned_all p : is_Some (heap s !! p) -> x = Some p \/ exists o, objects s !! o = Some (Some p)
}.

Definition abs (s : state) : values := value_of (heap s) <$> objects s.

Lemma abs_lookup s o : abs s !! o = value_of (heap s) <$> objects s !! o.
Proof. apply lookup_fmap. Qed.

Lemma abs_set o p s : abs (set_callable o p s) = <[o := value_of (heap s) p]> (abs s).
Proof. apply fmap_insert. Qed.

(** A heap that is the same at the pointers in use. *)
Lemma abs_heap s h :
  (forall o p, objects s !! o = Some (Some p) -> h !! p = heap s !! p) ->
  abs (mkState (objects s) h) = abs s.
Proof.
  intros H. apply map_eq. intros o. rewrite !abs_lookup. cbn.
  destruct (objects s !! o) as [[p|]|] eqn:E; [|done..]. cbn. by rewrite (H o p E).
Qed.

(** The object gets what is held, and what it had is held. *)
Lemma place x o s :
  owned x s -> owned (mjoin (objects s !! o)) (set_callable o x s).
Proof.
  intros [H1 H2 H3 H4]. split; cbn.
  - intros o' p [[-> ->]|[_ Ho]]%lookup_insert_Some; [by apply H3|by eapply H1].
  - intros o1 o2 p [[<- ->]|[Hn1 Ho1]]%lookup_insert_Some [[<- Hp]|[Hn2 Ho2]]%lookup_insert_Some;
      [done| | |by eapply H2].
    + by destruct (proj2 (H3 p eq_refl) o2).
    + by destruct (proj2 (H3 p Hp) o1).
  - intros p Hp. destruct (objects s !! o) as [y|] eqn:E; [|done]. cbn in Hp. subst y.
    split; [by eapply H1|]. intros o' [[<- ->]|[Hn Ho]]%lookup_insert_Some.
    + by destruct (proj2 (H3 p eq_refl) o).
    + by destruct Hn; apply (H2 o o' p).
  - intros p [Hx|[o' Ho']]%H4; [right; exists o; rewrite lookup_insert_eq; congruence|].
    destruct (decide (o = o')) as [->|Hn]; [left; by rewrite Ho'|].
    right. exists o'. by rewrite lookup_insert_ne.
Qed.

(** What is held is deleted. *)
Lemma discard x s :
  owned x s ->
  exists s', delete_callable x s = Ok s' /\ owned None s' /\ abs s' = abs s /\ objects s' = objects s.
Proof.
  intros [H1 H2 H3 H4]. destruct x as [p|]; [|by exists s].
  destruct (H3 p eq_refl) as [[f Hf] Hno]. cbn. rewrite Hf. cbn.
  eexists. split; [done|]. split; [|split; [|done]].
  - split; cbn; [| |done|].
    + intros o p' Ho. rewrite lookup_delete_ne; [by eapply H1|]. intros <-. by apply (Hno o).
    + done.
    + intros p' Hp'. destruct (decide (p = p')) as [<-|Hn].
      { rewrite lookup_delete_eq in Hp'. by destruct Hp'. }
      rewrite lookup_delete_ne in Hp' by done. destruct (H4 p' Hp') as [?|?]; [congruence|by right].
  - apply abs_heap. intros o p' Ho. rewrite lookup_delete_ne; [done|]. intros <-. by apply (Hno o).
Qed.

Lemma reset_ok x o s :
  owned x s -> is_Some (objects s !! o) ->
  exists s', reset o x s = Ok s' /\ owned None s' /\
    abs s' = <[o := value_of (heap s) x]> (abs s).
Proof.
  intros Hs [old Ho]. unfold reset. rewrite Ho. cbn [deref mbind outcome_bind].
  pose proof (place x o s Hs) as Hp. rewrite Ho in Hp.
  destruct (discard _ _ Hp) as (s' & Hd & Hs' & Ha & _). exists s'.
  split; [done|]. split; [done|]. by rewrite Ha, abs_set.
Qed.

Lemma release_ok o p s :
  owned None s -> objects s !! o = Some p ->
  release o s = Ok (p, set_callable o None s) /\ owned p (set_callable o None s) /\
  abs (set_callable o None s) = <[o := None]> (abs s).
Proof.
  intros Hs Ho. unfold release. rewrite Ho. split; [done|]. split; [|apply abs_set].
  pose proof (place None o s Hs) as Hp. by rewrite Ho in Hp.
Qed.

Section Refinement.
Hypothesis new_callable_fresh : forall h, h !! new_callable h = None.

Lemma allocate_ok f s :
  owned None s ->
  let s' := (allocate f s).2 in
  owned (Some (allocate f s).1) s' /\ abs s' = abs s /\ objects s' = objects s /\
  value_of (heap s') (Some (allocate f s).1) = Some f.
Proof.
  intros [H1 H2 H3 H4]. cbn. set (p := new_callable (heap s)).
  pose proof (new_callable_fresh (heap s)) as Hp. fold p in Hp.
  assert (forall o p', objects s !! o = Some (Some p') -> p <> p') as Hne.
  { intros o p' Ho <-. destruct (H1 o p Ho) as [f' Hf']. congruence. }
  split; [|split; [|split; [done|by rewrite lookup_insert_eq]]].
  - split; cbn.
    + intros o p' Ho. rewrite lookup_insert_ne by by eapply Hne. by eapply H1.
    + done.
    + intros p' [= <-]. rewrite lookup_insert_eq. split; [done|]. intros o Ho. by apply (Hne o p Ho).
    + intros p' Hp'. destruct (decide (p = p')) as [->|Hn]; [by left|].
      rewrite lookup_insert_ne in Hp' by done. destruct (H4 p' Hp') as [?|?]; [done|by right].
  - change (abs (mkState (objects s) (<[p := f]> (heap s))) = abs s). apply abs_heap. intros o p' Ho. rewrite lookup_insert_ne; [done|by eapply Hne].
Qed.

(** A call changes only the functor called. *)
Lemma call_in_place o p f s :
  owned None s -> objects s !! o = Some (Some p) -> is_Some (heap s !! p) ->
  let s' := mkState (objects s) (<[p := f]> (heap s)) in
  owned None s' /\ abs s' = <[o := Some f]> (abs s).
Proof.
  intros [H1 H2 H3 H4] Ho Hp s'. split.
  - split; cbn; [|done|done|].
    + intros o' p' Ho'. rewrite lookup_insert_is_Some'. right. by eapply H1.
    + intros p' [<-|Hp']%lookup_insert_is_Some'; by apply H4.
  - apply map_eq. intros o'. rewrite abs_lookup. change (objects s') with (objects s).
    destruct (decide (o = o')) as [<-|Hn].
    + rewrite lookup_insert_eq, Ho. cbn. by rewrite lookup_insert_eq.
    + rewrite lookup_insert_ne, abs_lookup by done.
      destruct (objects s !! o') as [[p'|]|] eqn:E; [|done..]. cbn. f_equal.
      rewrite lookup_insert_ne; [done|]. intros <-. by apply Hn, (H2 o o' p).
Qed.

Lemma destroy_ok o p s :
  owned None s -> objects s !! o = Some p ->
  exists s', delete_callable p s = Ok s' /\ objects s' = objects s /\
    owned None (mkState (delete o (objects s)) (heap s')) /\
    abs (mkState (delete o (objects s)) (heap s')) = delete o (abs s).
Proof.
  intros Hs Ho. set (s0 := mkState (delete o (objects s)) (heap s)).
  assert (owned p s0) as Hs0.
  { destruct Hs as [H1 H2 H3 H4]. split; cbn.
    - intros o' p' [_ Ho']%lookup_delete_Some. by eapply H1.
    - intros o1 o2 p' [_ Ho1]%lookup_delete_Some [_ Ho2]%lookup_delete_Some. by eapply H2.
    - intros p' ->. split; [by eapply H1|]. intros o' [Hn Ho']%lookup_delete_Some.
      by apply Hn, (H2 o o' p').
    - intros p' [?|[o' Ho']]%H4; [done|]. destruct (decide (o = o')) as [<-|Hn]; [left; congruence|].
      right. exists o'. by rewrite lookup_delete_ne. }
  destruct (discard _ _ Hs0) as (s1 & Hd & Hs1 & Ha & Hob).
  assert (exists s', delete_callable p s = Ok s' /\ objects s' = objects s /\ heap s' = heap s1)
    as (s' & Hs' & Hob' & Hh).
  { destruct p as [p|]; cbn in Hd |- *; [|injection Hd as <-; by exists s].
    destruct (heap s !! p); [|done]. cbn in Hd |- *. injection Hd as <-. eexists. by split. }
  exists s'. split; [done|]. split; [done|]. rewrite Hh.
  assert (mkState (delete o (objects s)) (heap s1) = s1) as -> by (destruct s1; cbn in *; by rewrite Hob).
  split; [done|]. rewrite Ha. unfold abs, s0. cbn. apply fmap_delete.
Qed.

(** The outcomes of a member function and of its specification. *)
Definition agrees (r : outcome (answer * state)) (r' : outcome (answer * values)) : Prop :=
  match r, r' with
  | Ok (x, s), Ok (y, m) => x = y /\ owned None s /\ abs s = m
  | Crash e, Crash e' => e = e'
  | _, _ => False
  end.

Lemma fresh_name_abs o s : fresh_name o (abs s) = fresh_name o (objects s).
Proof. unfold fresh_name. rewrite abs_lookup. by destruct (objects s !! o). Qed.

Lemma from_func_ok o f s :
  owned None s -> is_Some (objects s !! o) ->
  exists s', (let '(p, s) := allocate f s in s ← reset o (Some p) s; Ok (Nothing, s)) = Ok (Nothing, s') /\
    owned None s' /\ abs s' = <[o := Some f]> (abs s).
Proof.
  intros Hs Ho. destruct (allocate f s) as [p s1] eqn:E.
  destruct (allocate_ok f s Hs) as (H1 & H2 & H3 & H4). rewrite E in H1, H2, H3, H4. cbn [fst snd] in *.
  destruct (reset_ok _ o s1 H1) as (s' & Hr & Hs' & Ha); [by rewrite H3|].
  exists s'. rewrite Hr. split; [done|]. split; [done|]. by rewrite Ha, H4, H2.
Qed.

(** Each member function does what is specified; an object that does not exist, a
    null pointer called and a name constructed twice are errors of both. *)
Lemma step_agrees a s : owned None s -> agrees (step a s) (spec_step a (abs s)).
Proof.
  intros Hs. destruct a as [o|o f|o o'|o f|o o'|o|o|o args|o]; cbn [step spec_step];
    rewrite ?fresh_name_abs, ?abs_lookup; unfold fresh_name.
  - destruct (objects s !! o) eqn:Ho; [done|]. cbn. split; [done|]. split; [|apply abs_set].
    pose proof (place None o s Hs) as Hp. by rewrite Ho in Hp.
  - destruct (objects s !! o) eqn:Ho; [done|]. cbn [mbind outcome_bind].
    pose proof (place None o s Hs) as Hp. rewrite Ho in Hp.
    destruct (from_func_ok o f _ Hp) as (s' & -> & Hs' & Ha); [cbn; by rewrite lookup_insert_eq|].
    split; [done|]. split; [done|]. by rewrite Ha, abs_set, insert_insert_eq.
  - destruct (objects s !! o') as [p|] eqn:Ho'; [|by unfold release; rewrite Ho'].
    destruct (release_ok o' p s Hs Ho') as (-> & Hs1 & Ha1). cbn [mbind outcome_bind fmap option_fmap option_map deref].
    cbn [set_callable objects]. destruct (decide (o = o')) as [->|Hn].
    { by rewrite lookup_insert_eq, Ho'. }
    rewrite lookup_insert_ne by done. destruct (objects s !! o) eqn:Ho; [done|].
    cbn [mbind outcome_bind agrees]. split; [done|]. pose proof (place p o _ Hs1) as Hp.
    cbn [set_callable objects] in Hp. rewrite lookup_insert_ne, Ho in Hp by done.
    split; [exact Hp|]. rewrite abs_set. cbn [set_callable] in Ha1. by rewrite Ha1.
  - destruct (objects s !! o) eqn:Ho; [|done]. cbn [mbind outcome_bind fmap option_fmap option_map deref].
    destruct (from_func_ok o f s Hs) as (s' & -> & Hs' & Ha); [by rewrite Ho|]. done.
  - destruct (objects s !! o) eqn:Ho; [|done]. cbn [mbind outcome_bind fmap option_fmap option_map deref].
    destruct (objects s !! o') as [p|] eqn:Ho'; [|by unfold release; rewrite Ho'].
    destruct (release_ok o' p s Hs Ho') as (-> & Hs1 & Ha1). cbn [mbind outcome_bind fmap option_fmap option_map deref].
    destruct (reset_ok p o _ Hs1) as (s' & -> & Hs' & Ha).
    { cbn. apply lookup_insert_is_Some'. right. by rewrite Ho. }
    split; [done|]. split; [done|]. by rewrite Ha, Ha1.
  - destruct (objects s !! o) eqn:Ho; [|by unfold reset; rewrite Ho].
    destruct (reset_ok None o s Hs) as (s' & -> & Hs' & Ha); [by rewrite Ho|]. done.
  - destruct (objects s !! o) as [[p|]|] eqn:Ho; cbn; [|done..].
    destruct (owned_alive None s Hs o p Ho) as [f ->]. done.
  - destruct (objects s !! o) as [[p|]|] eqn:Ho; cbn [mbind outcome_bind fmap option_fmap option_map deref value_of];
      [|done..].
    destruct (owned_alive None s Hs o p Ho) as [f Hf]. cbn. rewrite Hf. cbn.
    destruct (call_functor f args) as [r f']. cbn. split; [done|].
    apply call_in_place; [done..|by rewrite Hf].
  - destruct (objects s !! o) as [p|] eqn:Ho; [|done].
    destruct (destroy_ok o p s Hs Ho) as (s' & Hd & Hob & Hs' & Ha).
    cbn [mbind outcome_bind deref fmap option_fmap option_map]. rewrite Hd. cbn [mbind outcome_bind].
    rewrite Hob. split; [done|]. split; [exact Hs'|exact Ha].
Qed.

(** C24: A program's [Function]s behave like as many optional values: construction,
    assignment, moves and resets, self-moves included, set and clear them, a call
    runs the functor of that object only and keeps its new state, calling an empty
    one is undefined; and no functor is leaked or destroyed twice. *)
Theorem function_refines l s :
  owned None s ->
  match run l s, spec_run l (abs s) with
  | Ok (xs, s'), Ok (ys, m) => xs = ys /\ abs s' = m /\ owned None s'
  | Crash e, Crash e' => e = e'
  | _, _ => False
  end.
Proof.
  revert s. induction l as [|a l IH]; intros s Hs; [done|]. cbn [run spec_run].
  pose proof (step_agrees a s Hs) as Ha.
  destruct (step a s) as [[x s1]|], (spec_step a (abs s)) as [[y m]|]; cbn in *; try done.
  destruct Ha as (-> & Hs1 & <-). specialize (IH s1 Hs1).
  destruct (run l s1) as [[xs s2]|], (spec_run l (abs s1)) as [[ys m2]|]; cbn in *; try done.
  by destruct IH as (-> & ? & ?).
Qed.

End Refinement.
End Function.
End Function.

(** ** A concrete program: functors that add up what they are called with *)

Definition accumulate (a x : Z) : Z * Z := (a + x, a + x).
Definition fresh_callable (h : gmap Z Z) : Z := fresh (dom h : gset Z).

Lemma fresh_callable_fresh h : h !! fresh_callable h = None.
Proof.
  pose proof (is_fresh (dom h : gset Z)) as H. by apply not_elem_of_dom.
Qed.

Definition nothing : Function.state (F := Z) := Function.mkState ∅ ∅.

Lemma nothing_owned : Function.owned None nothing.
Proof.
  split; cbn.
  - by intros o p.
  - by intros o1 o2 p.
  - done.
  - intros p. rewrite lookup_empty. by intros [].
Qed.

Definition program : list (Function.op (F := Z) (Args := Z)) :=
  [Function.FromFunc 1 10; Function.Invoke 1 5; Function.Default 2; Function.MoveAssign 2 1;
   Function.Invoke 2 1; Function.Test 1; Function.MoveAssign 2 2; Function.AssignFunc 1 7;
   Function.Destroy 2; Function.Invoke 1 1; Function.AssignNull 1].

Lemma function_refines_witness :
  Function.owned None nothing /\
  (exists s', Function.run accumulate fresh_callable program nothing =
    Ok ([Function.Nothing; Function.Returned 15; Function.Nothing; Function.Nothing;
         Function.Returned 16; Function.IsSet false; Function.Nothing; Function.Nothing;
         Function.Nothing; Function.Returned 8; Function.Nothing], s')) /\
  match Function.run accumulate fresh_callable program nothing,
        Function.spec_run accumulate program (Function.abs nothing) with
  | Ok (xs, s'), Ok (ys, m) => xs = ys /\ Function.abs s' = m /\ Function.owned None s'
  | Crash e, Crash e' => e = e'
  | _, _ => False
  end.
Proof.
  split; [exact nothing_owned|]. split; [eexists; vm_compute; reflexivity|].
  exact (Function.function_refines accumulate fresh_callable fresh_callable_fresh program nothing
    nothing_owned).
Defined.
