(* ===== verification/ServerExamples.v ===== *)
(** * The example servers on a concrete ring

    Instances of the theorems about coroutines that do not look at their handles:
    the simulated ring, the completer map of the library, and a queue of three. *)

From Stdlib Require Import ZArith Lia.
From stdpp Require Import base numbers list gmap option.
From S2P Require Import Prelude Interfaces Completers Uring Queue QueueRing QueueSafety QueueRun Modest Unchecked QueueExamples Servers Callbacks Proxy.

Local Open Scope Z_scope.

Import IoQueue QueueSafety Modest Unchecked Servers Callbacks.

#[local] Existing Instance CompleterMap.completer_table.
#[local] Existing Instance CompleterMap.completer_table_spec.
#[local] Existing Instance free_address_allocator.

(** Two connections of two rounds. *)
Definition small_server : prog := serve (fun fd => echo 2 1 fd 4096 8192 23 900) 2 3.

Lemma sample_queue_entries : 2 * Z.of_nat 4 + 1 <= getSize sample_queue.
Proof. apply (bool_decide_unpack _). vm_compute. exact I. Qed.

Lemma small_server_wf : wf (guard small_server) (mkBudget 18 2 ∅ ∅) None.
Proof.
  apply (affordable_serve (fun fd => echo 2 1 fd 4096 8192 23 900) 8 2 3); [|cbn; lia..].
  intros fd. apply (affordable_echo 2 1).
Qed.

Lemma small_server_modest : modest true small_server None 2.
Proof. apply modest_serve. intros fd. apply modest_echo. Qed.

Lemma small_server_entries : needed true 2 <= getSize sample_queue.
Proof. pose proof sample_queue_entries. cbn. lia. Qed.

Lemma unchecked_like_checked_witness :
  make 3 SimRing.blank = Ok (Some sample_queue) /\
  wf (guard small_server) (mkBudget 18 2 ∅ ∅) None /\ modest true small_server None 2 /\
  exists w w', start small_server (new_world sample_queue) = Ok w /\
    start (guard small_server) (new_world sample_queue) = Ok w' /\
    forall fuel, exists o o', run fuel w = Ok o /\ run fuel w' = Ok o' /\ same_outcome o o'.
Proof.
  split; [exact sample_queue_made|]. split; [exact small_server_wf|].
  split; [exact small_server_modest|].
  apply (Unchecked.unchecked_like_checked 3 SimRing.blank sample_queue 18 2 small_server true 2);
    [lia | exact sample_queue_made | lia | lia | exact small_server_wf
    | exact small_server_entries | exact small_server_modest].
Defined.

Lemma three_ok : 0 <= 3 < 196613.
Proof. lia. Qed.

Lemma four_conns : Z.of_nat 4 <= 3 + 1.
Proof. lia. Qed.

Lemma ids_left : Z.of_nat (4 * S (session_cost 2 9 3)) <= 2 ^ 63.
Proof. cbn. lia. Qed.

Lemma servers_safe_witness :
  make 3 SimRing.blank = Ok (Some sample_queue) /\ 2 * Z.of_nat 4 + 1 <= getSize sample_queue /\
  runs_safely sample_queue (serve_echo 4 9 3 3 4096 8192 23 900).
Proof.
  split; [exact sample_queue_made|]. split; [exact sample_queue_entries|].
  exact (proj1 (servers_safe 3 SimRing.blank sample_queue 4 9 3 three_ok sample_queue_made four_conns
    3 4096 8192 23 900 1000 sample_queue_entries ids_left)).
Defined.

Lemma servers_end_witness :
  make 3 SimRing.blank = Ok (Some sample_queue) /\ 2 * Z.of_nat 4 + 1 <= getSize sample_queue /\
  ends_within sample_queue 220 (serve_echo 4 9 3 3 4096 8192 23 900).
Proof.
  split; [exact sample_queue_made|]. split; [exact sample_queue_entries|].
  exact (proj1 (servers_end 3 SimRing.blank sample_queue 4 9 3 three_ok sample_queue_made four_conns
    3 4096 8192 23 900 1000 sample_queue_entries ids_left)).
Defined.

Lemma sendall_sends_witness :
  calls (sendAll 11 5 100 10 0 (fun _ _ => Ret)) ([4; 5; 1] ++ []) 0 =
    ([Send 5 100 10; Send 5 104 6; Send 5 109 1], Ret) /\
  calls (sendAll 11 5 100 10 0 (fun _ _ => Ret)) ([4; 3] ++ [-32]) 0 =
    ([Send 5 100 10; Send 5 104 6; Send 5 107 3], Ret).
Proof.
  split.
  - apply (sendall_sends 11 5 100 10 (fun _ _ => Ret) [4; 5; 1] 0 [] 0);
      [lia | lia | repeat constructor | lia | reflexivity].
  - apply (sendall_sends 11 5 100 10 (fun _ _ => Ret) [4; 3] (-32) [] 0);
      [lia | lia | repeat constructor | lia | cbn; lia].
Defined.

Lemma echo_server_fits : Z.of_nat (server_cost 4 9 3) <= 2 ^ 63.
Proof. cbn. lia. Qed.

Lemma four_entries : Z.of_nat 4 <= getSize sample_queue.
Proof. pose proof sample_queue_entries. lia. Qed.

Lemma callback_server_safe_witness :
  make 3 SimRing.blank = Ok (Some sample_queue) /\ Z.of_nat 4 <= getSize sample_queue /\
  runs_safely sample_queue (Callbacks.accept 4 9 3 3 4096) /\
  (ReliableRing SimRing.SimRing ->
    ends_within sample_queue (server_cost 4 9 3) (Callbacks.accept 4 9 3 3 4096)).
Proof.
  split; [exact sample_queue_made|]. split; [exact four_entries|].
  exact (callback_server_safe 3 SimRing.blank sample_queue 4 9 3 3 4096 three_ok sample_queue_made
    four_entries four_conns echo_server_fits).
Defined.

Lemma udp_server_idle_witness :
  make 3 SimRing.blank = Ok (Some sample_queue) /\ 1 <= getSize sample_queue /\
  exists w, completers w = ∅ /\ forall rounds,
    start (udp_receive (S rounds) 3 1000) (new_world sample_queue) = Ok w /\
    forall fuel, run fuel w = Ok (Some w).
Proof.
  assert (1 <= getSize sample_queue) as H by (pose proof sample_queue_entries; lia).
  split; [exact sample_queue_made|]. split; [exact H|].
  exact (udp_server_idle 3 SimRing.blank sample_queue 3 1000 three_ok sample_queue_made H).
Defined.

(** A connection that relays a message in two pieces and is closed by the client. *)
Definition schedule : list (Proxy.actor * Z) :=
  [(Proxy.Handler, 0); (Proxy.Echo Proxy.Client, 100); (Proxy.Echo Proxy.Client, 60);
   (Proxy.Echo Proxy.Client, 40); (Proxy.Echo Proxy.Client, 0); (Proxy.Echo Proxy.Client, 0);
   (Proxy.Echo Proxy.Upstream, -104); (Proxy.Echo Proxy.Client, 0); (Proxy.Echo Proxy.Upstream, 0);
   (Proxy.Echo Proxy.Client, 0); (Proxy.Echo Proxy.Upstream, 0); (Proxy.Echo Proxy.Upstream, 0)].

Definition buffer (i : Proxy.side) : Z :=
  match i with Proxy.Client => 4096 | Proxy.Upstream => 16384 end.

Definition play (s : Proxy.state) (e : Proxy.actor * Z) : Proxy.state :=
  match Proxy.resume buffer e.1 e.2 s with Ok s => s | Crash _ => s end.

Definition relayed : Proxy.state := foldl play (Proxy.start 9000 5 6) schedule.

Lemma play_reaches s0 s a r :
  Proxy.reaches buffer s0 s -> Proxy.may_resume a r s ->
  Proxy.resume buffer a r s = Ok (play s (a, r)) -> Proxy.reaches buffer s0 (play s (a, r)).
Proof. intros H Hm Hr. eapply Proxy.reaches_step; done. Qed.

Lemma relayed_reached : Proxy.reaches buffer (Proxy.start 9000 5 6) relayed.
Proof.
  unfold relayed, schedule. cbn [foldl].
  repeat (apply play_reaches;
    [|vm_compute; repeat split; first [discriminate | by intros _] | vm_compute; reflexivity]).
  apply Proxy.reaches_refl.
Qed.

