(* ===== verification/LoopExamples.v ===== *)
(** * The event loop on concrete programs

    Instances of the theorems about the specification of the queue and about what
    sessions send. *)

From Stdlib Require Import ZArith Lia.
From stdpp Require Import base numbers list gmap option.
From S2P Require Import Prelude Interfaces Completers Uring Queue QueueRing QueueSafety QueueRun.
From S2P Require Import Cancels Modest Unchecked QueueExamples EventLoop Histories Stories Servers Callbacks Proxy ServerExamples.
From S2P Require Import Relays CallbackRelays ProxyRelays Descriptors SessionSockets Finishing Buffers.

Local Open Scope Z_scope.

Import IoQueue QueueSafety Modest Unchecked EventLoop Histories Servers Callbacks Relays CallbackRelays.

#[local] Existing Instance CompleterMap.completer_table.
#[local] Existing Instance CompleterMap.completer_table_spec.
#[local] Existing Instance free_address_allocator.

Lemma queue_implements_loop_witness :
  make 3 SimRing.blank = Ok (Some sample_queue) /\ wf sample (mkBudget 7 3 ∅ ∅) None /\
  exists w tr l, start sample (new_world sample_queue) = Ok w /\ begins sample new_loop tr l /\
    implements w l /\
    forall fuel, exists w' tr' l',
      iterate fuel w = Ok w' /\ loops l (consumed fuel w) tr' l' /\ implements w' l' /\
      run fuel w = Ok (if decide (l_handlers l' = ∅) then Some w' else None).
Proof.
  split; [exact sample_queue_made|]. split; [exact sample_wf|].
  apply (EventLoop.queue_implements_loop 3 SimRing.blank sample_queue 7 3 sample);
    [lia | exact sample_queue_made | lia | lia | exact sample_wf].
Defined.

(** A coroutine cancels the operation that one it has started awaits, and goes on to
    await another one. *)
Definition cancelling : prog :=
  Call (Accept 3 0 0) (fun h =>
    if valid h then
      Spawn (Await h (fun _ => Ret)) (fun _ =>
        Cancel h true (fun _ => Call (Recv 5 1000 64) (fun h' => await_if h' (fun _ => Ret))))
    else Ret).

Lemma cancelling_wf : wf cancelling (mkBudget 3 2 ∅ ∅) None.
Proof.
  unfold cancelling. cbn [wf]. split; [cbn; lia|]. split; [|done]. intros id Hid _.
  rewrite (QueueRing.valid_ok id Hid). cbn [wf]. exists (mkBudget 0 1 {[id]} ∅), (mkBudget 2 1 ∅ ∅).
  split; [splits_tac|]. split.
  - split; [by apply QueueRing.valid_ok|]. cbn. split; [set_solver|]. split; [lia|done].
  - intros c _. split; [cbn; lia|]. split; [by apply QueueRing.valid_ok|].
    split; (apply (call_await_wf (Recv 5 1000 64)); [cbn; lia|cbn; lia|done]).
Qed.

(** The coroutine that awaited the cancelled operation, and who has a completer. *)
Lemma cancelling_started :
  match start cancelling (new_world sample_queue) with
  | Ok w => nextFrame w = 2 /\ (map_to_list (completers w)).*2 = [0] /\
      fst <$> (frames w !! 1 ≫= suspension) = Some 0
  | Crash _ => False
  end.
Proof. vm_compute. repeat split. Qed.

Lemma cancel_disables_witness :
  exists w, start cancelling (new_world sample_queue) = Ok w /\
    fst <$> (frames w !! 1 ≫= suspension) = Some 0 /\ Cancels.unattended 1 w /\
    forall more, exists w2, iterate more w = Ok w2 /\ Cancels.unattended 1 w2.
Proof.
  destruct (Cancels.cancel_disables 3 SimRing.blank sample_queue 3 2 cancelling ltac:(lia)
    sample_queue_made ltac:(lia) ltac:(lia) cancelling_wf) as (w & tr & l & Hs & _ & Hrun).
  pose proof cancelling_started as H. rewrite Hs in H. destruct H as (Hn & Hc & Hf).
  assert (Cancels.unattended 1 w) as Hu.
  { intros p Hp. apply elem_of_map_to_list in Hp. apply (list_elem_of_fmap_2 snd) in Hp.
    rewrite Hc in Hp. by apply list_elem_of_singleton in Hp. }
  exists w. split; [exact Hs|]. split; [exact Hf|]. split; [exact Hu|]. intros more.
  destruct (Hrun 0%nat) as (w1 & tr1 & l1 & Hi & _ & _ & _ & Hd). injection Hi as <-.
  destruct (Hd 1 ltac:(rewrite Hn; lia) Hu more) as (w2 & tr2 & l2 & Hi2 & _ & _ & _ & Hu2 & _).
  exists w2. split; [exact Hi2|exact Hu2].
Defined.

(** A coroutine that reads twice, started by one that does nothing else. *)
Definition reader : prog :=
  Call (Read 7 200 8) (fun h => Await h (fun _ => Call (Read 7 208 8) (fun h => Await h (fun _ => Ret)))).

Definition second_read : Z -> prog :=
  fun _ => Call (Read 7 208 8) (fun h => Await h (fun _ => Ret)).

(** Awaiting the first read, and the second. *)
Definition first_loop : loop :=
  suspend 0 1 second_read (add_op 0 (Read 7 200 8) (next_frame (next_frame new_loop))).
Definition second_loop : loop :=
  suspend 1 1 (fun _ => Ret) (add_op 1 (Read 7 208 8) (resume 0 1 first_loop)).

Lemma reader_begins :
  begins (Spawn reader (fun _ => Ret)) new_loop
    [Started 0 (Spawn reader (fun _ => Ret)); Started 1 reader] first_loop.
Proof.
  constructor. apply (runs_spawn 0 reader _ (next_frame new_loop) [] first_loop []); [|constructor].
  apply (runs_call _ _ _ 0); [done|done|].
  by apply (runs_await 1 (mkHandle true 0) second_read (Read 7 200 8)).
Qed.

Lemma reader_loops : loops first_loop [mkCqe 0 5] [Resumed 1 (Read 7 200 8) 5] second_loop.
Proof.
  apply (loops_cons _ _ _ [Resumed 1 (Read 7 200 8) 5] second_loop []); [|constructor].
  apply (completes_awaited (mkCqe 0 5) _ 1 second_read (Read 7 200 8) []); [done..|].
  apply (runs_call _ _ _ 1); [done|done|].
  by apply (runs_await 1 (mkHandle true 1) (fun _ => Ret) (Read 7 208 8)).
Qed.

Lemma reader_path : path (l_ops second_loop) reader [(Read 7 200 8, 5)].
Proof.
  apply (loop_coroutines_follow (Spawn reader (fun _ => Ret)) _ _ _ _ second_loop reader_begins reader_loops
    1 reader).
  apply elem_of_app. left. right. by left.
Qed.

Lemma coroutines_follow_witness :
  make 3 SimRing.blank = Ok (Some sample_queue) /\ wf sample (mkBudget 7 3 ∅ ∅) None /\
  exists w tr l, start sample (new_world sample_queue) = Ok w /\ begins sample new_loop tr l /\
    forall fuel, exists w' tr' l',
      iterate fuel w = Ok w' /\ loops l (consumed fuel w) tr' l' /\ implements w' l' /\
      forall g p', Started g p' ∈ tr ++ tr' -> path (l_ops l') p' (history_of g (tr ++ tr')).
Proof.
  split; [exact sample_queue_made|]. split; [exact sample_wf|].
  apply (Histories.coroutines_follow 3 SimRing.blank sample_queue 7 3 sample);
    [lia | exact sample_queue_made | lia | lia | exact sample_wf].
Defined.

(** A session that receives five bytes and sends them back in two pieces. *)
Definition session_history : history :=
  [(Recv 7 4096 1024, 5); (Send 7 4096 5, 3); (Send 7 4099 2, 2); (Recv 7 4096 1024, 0); (Close 7, 0)].

Definition hello : list byte := [Byte.x68; Byte.x65; Byte.x6c; Byte.x6c; Byte.x6f].

Definition five_bytes : conn := mkConn (fun _ => Byte.x00) hello [] [].

Lemma session_transfers : sent <$> transfers 7 session_history five_bytes = Some hello.
Proof. vm_compute. reflexivity. Qed.

Definition session_ops : gmap Z call :=
  list_to_map (zip [0; 1; 2; 3; 4] (fst <$> session_history)).

Lemma session_path : path session_ops (echo 3 5 7 4096 8192 23 900) session_history.
Proof.
  apply (path_call _ _ _ 0); [reflexivity|]. eapply path_link; [by left|].
  eapply path_await; [reflexivity..|].
  apply (path_call _ _ _ 1); [reflexivity|]. eapply path_await; [reflexivity..|].
  apply (path_call _ _ _ 2); [reflexivity|]. eapply path_await; [reflexivity..|].
  apply (path_call _ _ _ 3); [reflexivity|]. eapply path_link; [by left|].
  eapply path_await; [reflexivity..|].
  apply (path_call _ _ _ 4); [reflexivity|]. eapply path_await; [reflexivity..|]. constructor.
Qed.

Lemma echo_server_echoes_witness :
  path session_ops (echo 3 5 7 4096 8192 23 900) session_history /\
  sent <$> transfers 7 session_history five_bytes = Some hello /\
  sessions_do sample_queue (serve_echo 4 9 3 3 4096 8192 23 900)
    (fun fd => echo 9 3 fd 4096 8192 23 900)
    (fun fd h => closing fd h /\
       forall s s', received s = sent s -> transfers fd h s = Some s' ->
         echoed (fetch 8192 23 (memory s)) h s').
Proof.
  split; [exact session_path|]. split; [exact session_transfers|].
  apply (echo_server_echoes 3 SimRing.blank sample_queue three_ok sample_queue_made 4 9 3 3 4096 8192 23 900
    four_conns sample_queue_entries ids_left); lia.
Defined.

Lemma http_ids_left : Z.of_nat (4 * S (session_cost 1 9 3)) <= 2 ^ 63.
Proof. cbn. lia. Qed.

Lemma http_server_answers_witness :
  make 3 SimRing.blank = Ok (Some sample_queue) /\ Z.of_nat 4 <= getSize sample_queue /\
  sessions_do sample_queue (serve_http 4 9 3 3 4096 8192 100)
    (startSession 9 3 4096 8192 100)
    (fun fd h => closing fd h /\
       forall s s', transfers fd h s = Some s' ->
         answered (fetch 8192 100 (memory s)) (sent s) h s').
Proof.
  split; [exact sample_queue_made|]. split; [exact four_entries|].
  apply (http_server_answers 3 SimRing.blank sample_queue three_ok sample_queue_made 4 9 3 3 4096 8192 100
    four_conns four_entries http_ids_left); lia.
Defined.

(** A proxied connection: the client sends five bytes, of which three were passed on. *)
Definition buffers (i : Proxy.side) : Z :=
  match i with Proxy.Client => 16384 | Proxy.Upstream => 32768 end.

Definition arrived : ProxyRelays.wire :=
  ProxyRelays.mkWire (fun _ => Byte.x00) (fun f => if f =? 5 then hello else []) (fun _ => []) (fun _ => []).

(** The connection, its sockets, and what its coroutines await. *)
Record relay : Type := mkRelay {
  machine : Proxy.state;
  wires : ProxyRelays.wire;
  awaited : Proxy.side -> option call
}.

Definition relayed_to (x : relay) : Prop :=
  ProxyRelays.relays buffers (Proxy.start 9000 5 6) arrived (machine x) (wires x) (awaited x).

Definition connecting : relay := mkRelay (Proxy.start 9000 5 6) arrived (fun _ => None).

Definition connect_done (x : relay) : relay :=
  match Proxy.resume buffers Proxy.Handler 0 (machine x) with
  | Ok s => mkRelay s (wires x)
      (fun i => match awaited x i with Some c => Some c | None => ProxyRelays.first_of i (machine x) s end)
  | Crash _ => x
  end.

(** What the client's [echo] awaits returns [r]. *)
Definition client_done (r : Z) (x : relay) : relay :=
  match Proxy.resume buffers (Proxy.Echo Proxy.Client) r (machine x),
    awaited x Proxy.Client ≫= fun c => ProxyRelays.transfer c r (wires x) with
  | Ok s, Some w => mkRelay s w
      (fun i => match i with
                | Proxy.Client => list.last (ProxyRelays.issued (machine x) s)
                | Proxy.Upstream => awaited x Proxy.Upstream
                end)
  | _, _ => x
  end.

Definition halfway : relay := client_done 3 (client_done 5 (connect_done connecting)).

Lemma client_relays x r c s w :
  relayed_to x -> Proxy.may_resume (Proxy.Echo Proxy.Client) r (machine x) ->
  awaited x Proxy.Client = Some c -> ProxyRelays.transfer c r (wires x) = Some w ->
  Proxy.resume buffers (Proxy.Echo Proxy.Client) r (machine x) = Ok s ->
  relayed_to (client_done r x).
Proof.
  intros Hx Hm Ha Ht Hr. unfold client_done. rewrite Hr, Ha. cbn. rewrite Ht.
  by apply (ProxyRelays.relays_echo _ _ _ (machine x) (wires x) (awaited x) s Proxy.Client r c w).
Qed.

Lemma halfway_relayed : relayed_to halfway.
Proof.
  assert (relayed_to (connect_done connecting)) as H.
  { apply (ProxyRelays.relays_handler _ _ _ (Proxy.start 9000 5 6) arrived (fun _ => None) _ 0);
      [apply ProxyRelays.relays_refl|split; discriminate|reflexivity]. }
  unfold halfway.
  do 2 (eapply client_relays; [|by vm_compute|reflexivity..]). exact H.
Qed.

Lemma proxy_relays_witness :
  ProxyRelays.sent (wires halfway) 6 = take 3 hello /\
  exists rest, ProxyRelays.received (wires halfway) 5 =
    ProxyRelays.sent (wires halfway) 6 ++ rest /\ Z.of_nat (length rest) <= 8192.
Proof.
  split; [vm_compute; reflexivity|].
  apply (ProxyRelays.proxy_relays buffers 9000 5 6 arrived (machine halfway) (wires halfway)
    (awaited halfway) ltac:(lia) ltac:(lia) ltac:(lia) ltac:(left; unfold Proxy.bufsize; cbn; lia)
    ltac:(by intros []) halfway_relayed Proxy.Client).
Defined.

(** A connection ends and the next one gets its number. *)
Definition reuse : list event :=
  [Started 0 Ret; Resumed 0 (Accept 3 0 0) 7; Started 1 Ret; Resumed 1 (Recv 7 4096 1024) 0;
   Resumed 1 (Close 7) 0; Resumed 0 (Accept 3 0 0) 7; Started 2 Ret; Resumed 2 (Recv 7 4096 1024) 5].

Lemma sessions_keep_sockets_witness :
  make 3 SimRing.blank = Ok (Some sample_queue) /\ 2 * Z.of_nat 4 + 1 <= getSize sample_queue /\
  Descriptors.accounts reuse Descriptors.no_sockets =
    Descriptors.Fine (Descriptors.mkSockets {[2 := 7]} None) /\
  Descriptors.accounts (reuse ++ [Resumed 1 (Close 7) 0]) Descriptors.no_sockets =
    Descriptors.Trespass 1 (Close 7) /\
  Descriptors.keeps_sockets sample_queue (serve_echo 4 9 3 3 4096 8192 23 900) /\
  Descriptors.keeps_sockets sample_queue (serve_http 4 9 3 3 4096 8192 100).
Proof.
  split; [exact sample_queue_made|]. split; [exact sample_queue_entries|].
  split; [vm_compute; reflexivity|]. split; [vm_compute; reflexivity|].
  pose proof (Descriptors.sessions_keep_sockets 3 SimRing.blank sample_queue 4 9 3 3 4096 8192 23 900 8192 100
    three_ok sample_queue_made four_conns ids_left) as [H1 H2].
  split; [exact (H1 sample_queue_entries)|exact (H2 four_entries)].
Defined.

Lemma callback_ids : Z.of_nat (server_cost 4 9 3) <= 2 ^ 63.
Proof. cbn. lia. Qed.

Lemma queued_close_stale_witness :
  make 3 SimRing.blank = Ok (Some sample_queue) /\ Z.of_nat 4 <= getSize sample_queue /\
  stories_do sample_queue (accept 4 9 3 3 4096) (SessionSockets.closed_already None) /\
  SessionSockets.steals.
Proof.
  split; [exact sample_queue_made|]. split; [exact four_entries|].
  exact (SessionSockets.queued_close_stale 3 SimRing.blank sample_queue 4 9 3 3 4096
    three_ok sample_queue_made four_entries four_conns callback_ids).
Defined.

Lemma coroutines_finish_witness :
  make 3 SimRing.blank = Ok (Some sample_queue) /\ Finishing.uncancelling (guard small_server) /\
  exists w, start (guard small_server) (new_world sample_queue) = Ok w /\
    (forall fuel v, run fuel w = Ok (Some v) -> Finishing.all_finished v) /\
    (ReliableRing SimRing.SimRing -> exists v, run 18 w = Ok (Some v) /\ Finishing.all_finished v).
Proof.
  assert (Finishing.uncancelling (guard small_server)) as Hu
    by (apply Finishing.uncancelling_guard, Finishing.uncancelling_serve; intros fd;
        apply Finishing.uncancelling_echo).
  split; [exact sample_queue_made|]. split; [exact Hu|].
  apply (Finishing.coroutines_finish 3 SimRing.blank sample_queue 18 2 (guard small_server));
    [exact three_ok|exact sample_queue_made|lia|lia|exact small_server_wf|exact Hu].
Defined.

Lemma kernel_serves_suspended_witness :
  make 3 SimRing.blank = Ok (Some sample_queue) /\ modest true small_server None 2 /\
  exists w, start small_server (new_world sample_queue) = Ok w /\
    forall fuel, exists v, EventLoop.iterate fuel w = Ok v /\ Buffers.serves_suspended v.
Proof.
  split; [exact sample_queue_made|]. split; [exact small_server_modest|].
  apply (Buffers.kernel_serves_suspended 3 SimRing.blank sample_queue 18 2 small_server true 2);
    [exact three_ok|exact sample_queue_made|lia|lia|exact small_server_wf|exact small_server_entries
    |exact small_server_modest].
Defined.
