(* ===== verification/Programs.v ===== *)
(** * The example servers as programs (the main functions under examples/)

    [main] makes a socket and a queue, starts a coroutine and runs the queue: the
    addresses, sockets, completer table, queue and coroutines of the other files put
    together. *)

From Stdlib Require Import ZArith Lia Ascii String.
From stdpp Require Import base numbers list gmap option.
From S2P Require Import Prelude Interfaces Completers Uring Queue Modest Unchecked Fds Addresses Sockets.
From S2P Require Import EventLoop Histories Stories Servers Callbacks Relays CallbackRelays.

Local Open Scope Z_scope.

Module Programs.
Import IoQueue Modest Unchecked EventLoop Histories Stories Servers Callbacks Relays CallbackRelays.
Import IpAddress IpAddressPort Sockets.

#[local] Existing Instance CompleterMap.completer_table.
#[local] Existing Instance CompleterMap.completer_table_spec.

Definition text (s : string) : str := list_ascii_of_string s.

(** [std::optional::value]: nothing catches what it throws. *)
Definition value {A} (o : option A) : outcome A :=
  match o with
  | Some a => Ok a
  | None => Crash Aborted
  end.

Section Programs.
Context {R : Type} `{!LibUring R} `{!LibUringSpec R} {allocator : Allocator}.
Context {K : Type} `{!Posix K} `{!PosixSpec K} `{!SocketCalls K} `{!SocketCallsSpec K}.
Context {inet : Inet} {inet_spec : InetSpec}.
Variable SOMAXCONN : Z.

Abbreviation World := (World R CompleterMap.CompleterMap).
Abbreviation IoQueue := (IoQueue R CompleterMap.CompleterMap).

(** A program that ended before its event loop, or is at [io.run()], with the
    descriptor of its socket. *)
Inductive program : Type :=
| Exited (code : Z) (k : K)
| Looping (socket : Z) (w : World) (k : K).

(** [IoQueue io(size); serve(io, socket);] [exit] runs no destructor of a local. *)
Definition serve_on (server : Z -> prog) (size socket : Z) (u : IoURing.IoURing R) (k : K)
    : outcome program :=
  io ← make (T := CompleterMap.CompleterMap) size u;
  match io with
  | None => Ok (Exited 1 k)
  | Some io => w ← start (server socket) (new_world io); Ok (Looping socket w k)
  end.

(** [main] of the TCP examples. *)
Definition tcp_main (server : Z -> prog) (size : Z) (u : IoURing.IoURing R) (k : K)
    : outcome program :=
  address ← parse (text "0.0.0.0:4242");
  address ← value address;
  let '(socket, k) := createTcpListenSocket address SOMAXCONN k in
  if socket =? -1 then Ok (Exited 1 k) else serve_on server size socket u k.

(** [main] of the UDP examples.  The call has no parameter for a port: 4242 is
    [reuseAddr]. *)
Definition udp_main (server : Z -> prog) (size : Z) (u : IoURing.IoURing R) (k : K)
    : outcome program :=
  address ← value (IpAddress.parse (text "0.0.0.0"));
  let '(socket, k) := createSocket_bound Udp (of_address address) (negb (4242 =? 0)) k in
  if socket =? -1 then Ok (Exited 1 k) else serve_on server size socket u k.

(** [io.run()] for at most [fuel] iterations, and the end of [main]: the locals are
    destroyed. *)
Definition returned (fuel : nat) (p : program) : outcome (option (Z * K)) :=
  match p with
  | Exited code k => Ok (Some (code, k))
  | Looping socket w k =>
      o ← run fuel w;
      match o with
      | None => Ok None
      | Some _ => Ok (Some (0, Fd.destroy socket k))
      end
  end.

(** [IoQueue::IoQueue(size_t size = 1024)] *)
Definition default_size : Z := 1024.

Definition echo_coro_main (conns rounds sends : nat) (buf bye bye_len ts : Z) :=
  tcp_main (fun socket => serve_echo conns rounds sends socket buf bye bye_len ts) default_size.

(** [getResponse]; [response] is the static string. *)
Definition body : str := text "This is a short string that serves as a response".
Definition crlf : str := ["013"; "010"]%char.
Definition getResponse (response : str) : str :=
  match response with
  | [] =>
      text "HTTP/1.1 200 OK" ++ crlf ++
      text "Server: aiopp coro" ++ crlf ++
      text "Content-Type: text/plain" ++ crlf ++
      text "Content-Length: " ++ to_string (Z.of_nat (length body)) ++ crlf ++
      crlf ++
      body
  | _ => response
  end.

Definition http_main (conns rounds sends : nat) (buf response : Z) :=
  tcp_main (fun socket => serve_http conns rounds sends socket buf response
    (Z.of_nat (length (getResponse [])))) 1024.

Definition echo_callback_main (conns rounds sends : nat) (buf : Z) :=
  tcp_main (fun socket => accept conns rounds sends socket buf) default_size.

Definition echo_udp_coro_main (rounds : nat) (msg : Z) :=
  udp_main (fun socket => serve_udp rounds socket msg) default_size.

Definition echo_udp_main (rounds : nat) (msg : Z) :=
  udp_main (fun socket => udp_receive rounds socket msg) default_size.

(** ** What the programs do *)

Definition any_address : IpAddressPort := mkIpAddressPort (mkIpAddress 0) 4242.

(** A new socket that listens on every interface, port 4242. *)
Definition listening (fd : Z) (k k' : K) : Prop :=
  (fd ∉ open_fds k) /\ open_fds k' = {[fd]} ∪ open_fds k /\
  exists k1 r, bound_by Tcp any_address true fd k k1 /\ sys_listen fd SOMAXCONN k1 = (r, k') /\ r <> -1.

(** A new socket bound to every interface and a port of the kernel's choice. *)
Definition bound_anywhere (fd : Z) (k k' : K) : Prop :=
  (fd ∉ open_fds k) /\ open_fds k' = {[fd]} ∪ open_fds k /\
  bound_by Udp (mkIpAddressPort (mkIpAddress 0) 0) true fd k k'.

(** The program exits with 1, nothing of its own left open but when it was the queue
    that could not be made; or it runs [server] on a socket that is [ready], safely,
    and when it returns it has closed the socket. *)
Definition program_ok (ready : Z -> K -> K -> Prop) (server : Z -> prog) (u : IoURing.IoURing R)
    (k : K) (p : program) : Prop :=
  match p with
  | Exited code k' =>
      code = 1 /\ (open_fds k' = open_fds k \/ make (T := CompleterMap.CompleterMap) default_size u = Ok None)
  | Looping fd w k' => ready fd k k' /\ exists q, make default_size u = Ok (Some q) /\
      start (server fd) (new_world q) = Ok w /\
      forall fuel, exists o, returned fuel p = Ok o /\
        forall code k'', o = Some (code, k'') -> code = 0 /\ open_fds k'' = open_fds k
  end.

Hypothesis inet_aton_any : inet_aton (text "0.0.0.0") = Some 0.

Lemma parse_any : parse (text "0.0.0.0:4242") = Ok (Some any_address).
Proof.
  unfold parse. assert (find_colon (text "0.0.0.0:4242") = Some 7%nat) as -> by reflexivity.
  unfold IpAddress.parse. change (c_str _) with (text "0.0.0.0"). by rewrite inet_aton_any.
Qed.

(** The completers of a queue of the default size: the prime the table is made with,
    and the half of it that is added.  The ring is asked for an entry for each. *)
Definition default_entries : Z := 1543.

(** The default size gives a queue of at least that many entries. *)
Lemma make_default u :
  exists io, make (T := CompleterMap.CompleterMap) default_size u = Ok io /\
    forall q, io = Some q -> default_entries <= getSize q.
Proof.
  unfold make. assert (exists t, CompleterMap.make default_size = Ok t /\
    default_entries <= CompleterMap.capacity t < 2 ^ 32) as (t & Ht & Hcap).
  { eexists. split; [vm_compute; reflexivity|]. vm_compute. by split. }
  cbn [tbl_make CompleterMap.completer_table]. rewrite Ht. cbn [mbind outcome_bind].
  destruct (init false (mkIoQueue 0 u t None)) as [ok q] eqn:Hi. eexists. split; [done|].
  intros q' Hq. destruct ok; [|done]. injection Hq as <-. revert Hi. unfold init.
  cbn [completers_ ring_ tbl_capacity CompleterMap.completer_table].
  destruct (IoURing.init (CompleterMap.capacity t) false u) as [ok u'] eqn:Hu.
  destruct ok; cbn [negb]; [|done].
  destruct (IoURing.init_ready _ _ _ _ Hu) as (_ & _ & _ & _ & Hn).
  destruct (negb (has _ IORING_FEAT_NODROP)); [done|].
  destruct (negb (has _ IORING_FEAT_SUBMIT_STABLE)); [done|].
  intros [= <-]. unfold default_entries in *. rewrite wrap_small in Hn by lia. etransitivity; [apply Hcap|exact Hn].
Qed.

(** From the socket on, all programs do the same. *)
Lemma serve_on_ok (ready : Z -> K -> K -> Prop) server fd u k k' :
  ready fd k k' -> (fd ∉ open_fds k) -> open_fds k' = {[fd]} ∪ open_fds k -> fd <> -1 ->
  (forall q, make default_size u = Ok (Some q) -> default_entries <= getSize q ->
     runs_safely q (server fd)) ->
  exists p, serve_on server default_size fd u k' = Ok p /\ program_ok ready server u k p.
Proof.
  intros Hready Hnew Hopen Hfd Hsafe. unfold serve_on.
  destruct (make_default u) as (io & Hm & Hsize). rewrite Hm. cbn [mbind outcome_bind].
  destruct io as [q|]; [|exists (Exited 1 k'); by split; [|split; [|right]]].
  destruct (Hsafe q Hm (Hsize q eq_refl)) as (w & Hw & Hrun). rewrite Hw. cbn [mbind outcome_bind].
  eexists. split; [done|]. split; [done|]. exists q. split; [done|]. split; [done|].
  intros fuel. cbn [returned]. destruct (Hrun fuel) as [[w'|] ->]; cbn [mbind outcome_bind].
  - eexists. split; [done|]. intros code k'' [= <- <-]. split; [done|]. unfold Fd.destroy.
    rewrite Fd.close_kernel, decide_False, Hopen by done. set_solver.
  - eexists. split; [done|]. done.
Qed.

Lemma tcp_main_ok server u k :
  (forall q fd, make default_size u = Ok (Some q) -> default_entries <= getSize q ->
     runs_safely q (server fd)) ->
  exists p, tcp_main server default_size u k = Ok p /\ program_ok listening server u k p.
Proof.
  intros Hsafe. unfold tcp_main. rewrite parse_any. cbn [mbind outcome_bind value].
  pose proof (listen_socket_spec any_address SOMAXCONN k) as Hl.
  destruct (createTcpListenSocket any_address SOMAXCONN k) as [fd k'].
  destruct Hl as [Ho Hb]. unfold opens in Ho. destruct (Z.eqb_spec fd (-1)) as [->|Hne].
  { exists (Exited 1 k'). split; [done|]. by split; [|left]. }
  rewrite decide_False in Ho by done. destruct Ho as [Hnew Hopen].
  apply serve_on_ok; try done; [|by intros q; apply Hsafe].
  split; [done|]. split; [done|by apply Hb].
Qed.

Lemma udp_main_ok server u k :
  (forall q fd, make default_size u = Ok (Some q) -> default_entries <= getSize q ->
     runs_safely q (server fd)) ->
  exists p, udp_main server default_size u k = Ok p /\ program_ok bound_anywhere server u k p.
Proof.
  intros Hsafe. unfold udp_main, IpAddress.parse. change (c_str _) with (text "0.0.0.0").
  rewrite inet_aton_any. cbn [mbind outcome_bind value].
  pose proof (createSocket_bound_spec Udp (of_address (mkIpAddress 0)) true k) as Hl.
  change (negb (4242 =? 0)) with true.
  destruct (createSocket_bound Udp (of_address (mkIpAddress 0)) true k) as [fd k'].
  destruct Hl as [Ho Hb]. unfold opens in Ho. destruct (Z.eqb_spec fd (-1)) as [->|Hne].
  { exists (Exited 1 k'). split; [done|]. by split; [|left]. }
  rewrite decide_False in Ho by done. destruct Ho as [Hnew Hopen].
  apply serve_on_ok; try done; [|by intros q; apply Hsafe].
  split; [done|]. split; [done|by apply Hb].
Qed.

(** What the sessions of a running program do. *)
Definition sessions_of (p : program) (u : IoURing.IoURing R) (server session : Z -> prog)
    (good : Z -> history -> Prop) : Prop :=
  match p with
  | Exited _ _ => True
  | Looping fd _ _ => exists q, make default_size u = Ok (Some q) /\ sessions_do q (server fd) session good
  end.

Lemma tcp_sessions_ok server session n conns linked u k good :
  (forall q, make default_size u = Ok (Some q) -> default_entries <= getSize q -> forall fd,
     Fits default_size u q linked n conns (server fd) /\ sessions_do q (server fd) session good) ->
  exists p, tcp_main server default_size u k = Ok p /\ program_ok listening server u k p /\
    sessions_of p u server session good.
Proof.
  intros H. destruct (tcp_main_ok server u k) as (p & Hp & Hok).
  { intros q fd Hq Hs. eapply fits_runs. by apply (H q Hq). }
  exists p. split; [done|]. split; [done|]. destruct p as [|fd w k']; [done|].
  destruct Hok as (_ & q & Hq & _). exists q. split; [done|]. apply (H q Hq).
  destruct (make_default u) as (io & Hm & Hs). rewrite Hq in Hm. injection Hm as <-. by apply Hs.
Qed.

Lemma default_size_ok : 0 <= default_size < 196613.
Proof. unfold default_size. lia. Qed.

(** C5: echo-tcp-coro, from [main] on: it exits with 1 and leaves nothing open (but when
    the queue cannot be made), or it listens on 0.0.0.0:4242, runs without breaking an
    assertion whatever the kernel reports and however few entries a submission takes,
    sends every connection back what it received and nothing else but the farewell,
    then closes its socket and does not use it again, and has closed the listening one
    when it returns.  This is for a run of at most 771 calls of accept in all: each may
    leave a coroutine behind, whose receive takes two of the 1543 entries of the queue
    made by default. *)
Theorem echo_program conns rounds sends buf bye bye_len ts u k :
  2 * Z.of_nat conns + 1 <= default_entries -> Z.of_nat (conns * S (session_cost 2 rounds sends)) <= 2 ^ 63 ->
  0 <= bye_len < 2 ^ 64 -> bye + bye_len <= buf \/ buf + 1024 <= bye ->
  let server := fun fd => serve_echo conns rounds sends fd buf bye bye_len ts in
  exists p, echo_coro_main conns rounds sends buf bye bye_len ts u k = Ok p /\
    program_ok listening server u k p /\
    sessions_of p u server (fun fd => echo rounds sends fd buf bye bye_len ts)
      (fun fd h => closing fd h /\
         forall s s', received s = sent s -> transfers fd h s = Some s' ->
           echoed (fetch bye bye_len (memory s)) h s').
Proof.
  intros Hc Hi Hb Ha server. unfold default_entries in Hc.
  assert (Z.of_nat conns <= default_size + 1) as Hd by (unfold default_size; lia).
  apply (tcp_sessions_ok server _ (conns * S (session_cost 2 rounds sends)) conns true).
  intros q Hq Hs fd. unfold default_entries in Hs. pose proof default_size_ok. split.
  - apply fits_serve_echo; try done. lia.
  - apply (echo_server_echoes default_size u); try done. lia.
Qed.

(** The bytes of the response in memory. *)
Definition response_bytes : list Byte.byte := byte_of_ascii <$> getResponse [].

(** C6: http-coro, from [main] on: as echo-tcp-coro, but what a connection is sent is
    the response of [getResponse], once for each piece it sent; for a run of at most
    1025 calls of accept in all. *)
Theorem http_program conns rounds sends buf response u k :
  Z.of_nat conns <= 1025 -> Z.of_nat (conns * S (session_cost 1 rounds sends)) <= 2 ^ 63 ->
  response + Z.of_nat (length (getResponse [])) <= buf \/ buf + 1024 <= response ->
  let len := Z.of_nat (length (getResponse [])) in
  let server := fun fd => serve_http conns rounds sends fd buf response len in
  exists p, http_main conns rounds sends buf response u k = Ok p /\
    program_ok listening server u k p /\
    sessions_of p u server (startSession rounds sends buf response len)
      (fun fd h => closing fd h /\
         forall s s', fetch response len (memory s) = response_bytes ->
           transfers fd h s = Some s' -> answered response_bytes (sent s) h s').
Proof.
  intros Hc Hi Ha len server.
  assert (0 <= len < 2 ^ 64) as Hlen by (vm_compute; by split).
  apply (tcp_sessions_ok server _ (conns * S (session_cost 1 rounds sends)) conns false).
  intros q Hq Hs fd. unfold default_entries in Hs.
  assert (Z.of_nat conns <= getSize q) as He by lia. split; [by apply fits_serve_http|].
  destruct (http_server_answers default_size u q default_size_ok Hq conns rounds sends fd buf
    response len Hc He Hi Hlen Ha) as (w & tr & l & Hw & Hb & Hrun).
  exists w, tr, l. split; [done|]. split; [done|]. intros fuel.
  destruct (Hrun fuel) as (v & tr' & l' & Hv & Hl & Hg). exists v, tr', l'.
  split; [done|]. split; [done|]. intros g p Hin.
  destruct (Hg g p Hin) as [->|(fd' & -> & Hclose & Hgood)]; [by left|right]. exists fd'.
  split; [done|]. split; [done|]. intros s s' Hm Ht. rewrite <- Hm. by apply Hgood.
Qed.

(** The program exits with 1, or returns 0 within [n] iterations, its socket closed. *)
Definition ends_in (n : nat) (k : K) (p : program) : Prop :=
  exists code k', returned n p = Ok (Some (code, k')) /\
    (code = 0 /\ open_fds k' = open_fds k \/ code = 1).

Lemma program_ends ready server u k n p :
  program_ok ready server u k p ->
  (forall q fd, make default_size u = Ok (Some q) -> default_entries <= getSize q ->
     ends_within q n (server fd)) ->
  ends_in n k p.
Proof.
  intros Hok Hends. destruct p as [code k'|fd w k'].
  - destruct Hok as [-> _]. exists 1, k'. split; [done|by right].
  - destruct Hok as (_ & q & Hq & Hw & Hret). destruct (Hret n) as (o & Ho & Hc0).
    destruct (make_default u) as (io & Hm & Hs). rewrite Hq in Hm. injection Hm as <-.
    destruct (Hends q fd Hq (Hs q eq_refl)) as (w0 & w1 & Hw0 & Hrun & _).
    rewrite Hw in Hw0. injection Hw0 as <-. revert Ho. unfold ends_in. cbn [returned]. rewrite Hrun.
    cbn [mbind outcome_bind]. intros [= <-]. eexists _, _. split; [done|]. left. exact (Hc0 _ _ eq_refl).
Qed.

(** What led to the coroutines of a running program. *)
Definition stories_of (p : program) (u : IoURing.IoURing R) (server : Z -> prog)
    (good : Z -> history -> Prop) : Prop :=
  match p with
  | Exited _ _ => True
  | Looping fd _ _ => exists q, make default_size u = Ok (Some q) /\ stories_do q (server fd) (good fd)
  end.

(** C25: The callback server echo-tcp, from [main] on: it exits with 1, or it listens and
    runs without breaking an assertion, its own included; whatever led to one of its
    callbacks is a sequence of accepts and then what the last connection did, which was
    sent back exactly what it sent, in order, but for the rest of the last piece (none
    when the last receive found nothing), and queued at most one close of its socket,
    its last operation.  At any moment the destructor of the session's [Fd] has closed
    a socket as many times, at least, as a close of it is queued, so that each of the
    queued ones is a second close.  With a kernel that completes what is waited for it
    returns 0 in the end, its listening socket closed.  This is for a run of at most
    1025 calls of accept in all. *)
Theorem callback_program conns rounds sends buf u k :
  Z.of_nat conns <= 1025 -> Z.of_nat (server_cost conns rounds sends) <= 2 ^ 63 ->
  let server := fun fd => accept conns rounds sends fd buf in
  exists p, echo_callback_main conns rounds sends buf u k = Ok p /\
    program_ok listening server u k p /\
    stories_of p u server (fun fd => accepts_then fd session_echoes) /\
    (ReliableRing R -> ends_in (server_cost conns rounds sends) k p).
Proof.
  intros Hc Hi server.
  assert (HF : forall q fd, make default_size u = Ok (Some q) -> default_entries <= getSize q ->
    Fits default_size u q false (server_cost conns rounds sends) conns (server fd)).
  { intros q fd Hq Hs. unfold default_entries, default_size in *. by apply fits_accept; try lia. }
  destruct (tcp_main_ok server u k) as (p & Hp & Hok).
  { intros q fd Hq Hs. by eapply fits_runs, HF. }
  exists p. split; [done|]. split; [done|]. split.
  - destruct p as [|fd w k']; [done|]. destruct Hok as (_ & q & Hq & _). exists q. split; [done|].
    destruct (make_default u) as (io & Hm & Hs). rewrite Hq in Hm. injection Hm as <-.
    eapply fits_stories; [by apply HF, Hs|apply pays_accept|]. intros M h. apply accept_echoes.
  - intros Hr. apply (program_ends listening server u); [done|]. intros q fd Hq Hs. by eapply fits_ends, HF.
Qed.

Lemma tcp_main_ends `{!ReliableRing R} server linked n m u k :
  (forall q fd, make default_size u = Ok (Some q) -> default_entries <= getSize q ->
     Fits default_size u q linked n m (server fd)) ->
  exists p, tcp_main server default_size u k = Ok p /\ ends_in n k p.
Proof.
  intros HF. destruct (tcp_main_ok server u k) as (p & Hp & Hok).
  { intros q fd Hq Hs. by eapply fits_runs, HF. }
  exists p. split; [done|]. apply (program_ends listening server u); [done|].
  intros q fd Hq Hs. by eapply fits_ends, HF.
Qed.

Lemma udp_main_ends `{!ReliableRing R} server linked n m u k :
  (forall q fd, make default_size u = Ok (Some q) -> default_entries <= getSize q ->
     Fits default_size u q linked n m (server fd)) ->
  exists p, udp_main server default_size u k = Ok p /\ ends_in n k p.
Proof.
  intros HF. destruct (udp_main_ok server u k) as (p & Hp & Hok).
  { intros q fd Hq Hs. by eapply fits_runs, HF. }
  exists p. split; [done|]. apply (program_ends bound_anywhere server u); [done|].
  intros q fd Hq Hs. by eapply fits_ends, HF.
Qed.

(** The coroutine servers come to the end of their rounds: with a kernel that
    completes what is waited for, [main] of echo-tcp-coro, http-coro and echo-udp-coro
    exits with 1, or returns 0 after at most one iteration of [run] for each entry they
    can prepare, with its socket closed. *)
Theorem programs_end `{!ReliableRing R} conns rounds sends buf bye bye_len ts response msg u k :
  2 * Z.of_nat conns + 1 <= default_entries -> Z.of_nat (conns * S (session_cost 2 rounds sends)) <= 2 ^ 63 ->
  Z.of_nat (2 * rounds) <= 2 ^ 63 ->
  (exists p, echo_coro_main conns rounds sends buf bye bye_len ts u k = Ok p /\
     ends_in (conns * S (session_cost 2 rounds sends)) k p) /\
  (exists p, http_main conns rounds sends buf response u k = Ok p /\
     ends_in (conns * S (session_cost 1 rounds sends)) k p) /\
  (exists p, echo_udp_coro_main rounds msg u k = Ok p /\ ends_in (2 * rounds) k p).
Proof.
  intros Hc Hi Hr. unfold default_entries in *. pose proof default_size_ok.
  assert (Z.of_nat conns <= default_size + 1) as Hd by (unfold default_size; lia). split; [|split].
  - apply (tcp_main_ends _ true _ conns). intros q fd Hq Hs. unfold default_entries in Hs.
    apply fits_serve_echo; try done. lia.
  - apply (tcp_main_ends _ false _ conns). intros q fd Hq Hs. unfold default_entries in Hs.
    apply fits_serve_http; try done; [lia|]. unfold session_cost in *. nia.
  - apply (udp_main_ends _ false _ 1). intros q fd Hq Hs. unfold default_entries in Hs.
    apply fits_serve_udp; try done; lia.
Qed.

(** C34: The UDP examples, from [main] on, do not serve port 4242: it is given for the
    flag that allows an address to be reused, and the socket is bound to port 0, which
    means a port of the kernel's choice.  The one on callbacks serves nobody there
    either: it returns 0 at once. *)
Theorem udp_programs rounds msg u k :
  Z.of_nat (2 * rounds) <= 2 ^ 63 ->
  (exists p, echo_udp_coro_main rounds msg u k = Ok p /\
    program_ok bound_anywhere (fun fd => serve_udp rounds fd msg) u k p) /\
  (exists p, echo_udp_main (S rounds) msg u k = Ok p /\
    program_ok bound_anywhere (fun fd => udp_receive (S rounds) fd msg) u k p /\
    exists code k', forall fuel, returned fuel p = Ok (Some (code, k'))).
Proof.
  intros Hr. split.
  { apply udp_main_ok. intros q fd Hq Hs.
    eapply fits_runs, fits_serve_udp; [apply default_size_ok|done| |done].
    unfold default_entries in Hs. lia. }
  assert (Hidle : forall q fd, make default_size u = Ok (Some q) -> default_entries <= getSize q ->
    exists w, start (udp_receive (S rounds) fd msg) (new_world q) = Ok w /\
      forall fuel, run fuel w = Ok (Some w)).
  { intros q fd Hq Hs. destruct (udp_server_idle default_size u q fd msg) as (w & _ & Hw);
      [apply default_size_ok|done|unfold default_entries in Hs; lia|]. exists w. apply Hw. }
  destruct (udp_main_ok (fun fd => udp_receive (S rounds) fd msg) u k) as (p & Hp & Hok).
  { intros q fd Hq Hs. destruct (Hidle q fd Hq Hs) as (w & Hw & Hrun). exists w. split; [done|].
    intros fuel. by eexists. }
  exists p. split; [done|]. split; [done|]. destruct p as [code k'|fd w k'].
  - exists code, k'. by intros fuel.
  - destruct Hok as (_ & q & Hq & Hw & _).
    destruct (make_default u) as (io & Hm & Hs). rewrite Hq in Hm. injection Hm as <-.
    destruct (Hidle q fd Hq (Hs q eq_refl)) as (w0 & Hw0 & Hrun). rewrite Hw in Hw0.
    injection Hw0 as <-. exists 0, (Fd.destroy fd k'). intros fuel. cbn [returned].
    by rewrite Hrun.
Qed.

End Programs.
End Programs.
