(* ===== verification/ProgramExamples.v ===== *)
(** * The programs on a concrete system

    Instances of the theorems about the examples' main functions: the simulated ring
    and sockets, a C library of dotted decimals, no descriptor open but the standard
    ones. *)

From Stdlib Require Import ZArith Lia String.
From stdpp Require Import base numbers list gmap option.
From S2P Require Import Prelude Interfaces Completers Uring Queue QueueExamples Fds Addresses Sockets.
From S2P Require Import Histories Stories Servers Callbacks ServerExamples Relays LoopExamples Programs.

Local Open Scope Z_scope.

Import IoQueue Stories Servers Relays Programs.

#[local] Existing Instance free_address_allocator.
#[local] Existing Instance sim_sockets.
#[local] Existing Instance sim_sockets_spec.

Definition standard_fds : gset Z := {[0; 1; 2]}.

Abbreviation listens := (listening (K := gset Z) 128).

Lemma any_read : Addresses.inet_aton (text "0.0.0.0"%string) = Some 0.
Proof. reflexivity. Qed.

(** The program gets as far as its event loop. *)
Definition looping (p : outcome (program (R := SimRing.SimRing) (K := gset Z))) : bool :=
  match p with
  | Ok (Looping _ _ _) => true
  | _ => false
  end.

Lemma echo_program_witness :
  looping (echo_coro_main 128 4 9 3 4096 8192 23 900 SimRing.blank standard_fds) = true /\
  exists p, echo_coro_main 128 4 9 3 4096 8192 23 900 SimRing.blank standard_fds = Ok p /\
    program_ok listens (fun fd => serve_echo 4 9 3 fd 4096 8192 23 900) SimRing.blank standard_fds p.
Proof.
  split; [vm_compute; reflexivity|].
  destruct (Programs.echo_program 128 any_read 4 9 3 4096 8192 23 900 SimRing.blank standard_fds
    ltac:(unfold default_entries; lia) ids_left ltac:(lia) ltac:(lia)) as (p & Hp & Hok & _).
  exists p. split; [exact Hp|exact Hok].
Defined.

Lemma http_program_witness :
  looping (http_main 128 4 9 3 4096 8192 SimRing.blank standard_fds) = true /\
  exists p, http_main 128 4 9 3 4096 8192 SimRing.blank standard_fds = Ok p /\
    program_ok listens
      (fun fd => serve_http 4 9 3 fd 4096 8192 (Z.of_nat (length (getResponse [])))) SimRing.blank
      standard_fds p.
Proof.
  split; [vm_compute; reflexivity|].
  destruct (Programs.http_program 128 any_read 4 9 3 4096 8192 SimRing.blank standard_fds
    ltac:(lia) LoopExamples.http_ids_left ltac:(right; lia)) as (p & Hp & Hok & _).
  exists p. split; [exact Hp|exact Hok].
Defined.

Lemma callback_ids_left : Z.of_nat (Callbacks.server_cost 4 9 3) <= 2 ^ 63.
Proof. cbn. lia. Qed.

Abbreviation ends := (ends_in (R := SimRing.SimRing) (K := gset Z)).

(** What led to the last callback of a connection that sent five bytes: three and two
    of them were sent back, then the peer closed. *)
Definition callback_story : Histories.history :=
  [(Accept 3 0 0, -24); (Accept 3 0 0, 7); (Recv 7 4096 2048, 5); (Send 7 4096 5, 3); (Send 7 4099 2, 2);
   (Recv 7 4096 2048, 0); (Close 7, 0)].

Definition callback_ops : gmap Z call := list_to_map (zip [0; 1; 2; 3; 4; 5; 6] (fst <$> callback_story)).

Lemma callback_lineage : lineage callback_ops (Callbacks.accept 4 9 3 3 4096) callback_story.
Proof.
  apply (lineage_call _ _ _ 0); [reflexivity|]. apply lineage_child. eapply lineage_await; [reflexivity..|].
  apply (lineage_call _ _ _ 1); [reflexivity|]. apply lineage_child. eapply lineage_await; [reflexivity..|].
  apply (lineage_call _ _ _ 2); [reflexivity|]. apply lineage_child. eapply lineage_await; [reflexivity..|].
  apply (lineage_call _ _ _ 3); [reflexivity|]. apply lineage_child. eapply lineage_await; [reflexivity..|].
  apply (lineage_call _ _ _ 4); [reflexivity|]. apply lineage_child. eapply lineage_await; [reflexivity..|].
  apply (lineage_call _ _ _ 5); [reflexivity|]. apply lineage_child. eapply lineage_await; [reflexivity..|].
  apply (lineage_call _ _ _ 6); [reflexivity|]. apply lineage_child. eapply lineage_await; [reflexivity..|].
  constructor.
Qed.

Lemma callback_transfers :
  sent <$> transfers 7 (drop 2 callback_story) LoopExamples.five_bytes = Some LoopExamples.hello.
Proof. vm_compute. reflexivity. Qed.

Lemma callback_program_witness :
  looping (echo_callback_main 128 4 9 3 4096 SimRing.blank standard_fds) = true /\
  lineage callback_ops (Callbacks.accept 4 9 3 3 4096) callback_story /\
  exists p, echo_callback_main 128 4 9 3 4096 SimRing.blank standard_fds = Ok p /\
    ends (Callbacks.server_cost 4 9 3) standard_fds p.
Proof.
  split; [vm_compute; reflexivity|]. split; [exact callback_lineage|].
  destruct (Programs.callback_program 128 any_read 4 9 3 4096 SimRing.blank standard_fds
    ltac:(lia) callback_ids_left) as (p & Hp & _ & _ & He).
  exists p. split; [exact Hp|exact (He _)].
Defined.

Lemma programs_end_witness :
  looping (echo_coro_main 128 4 9 3 4096 8192 23 900 SimRing.blank standard_fds) = true /\
  exists p, echo_coro_main 128 4 9 3 4096 8192 23 900 SimRing.blank standard_fds = Ok p /\
    ends (4 * S (session_cost 2 9 3)) standard_fds p.
Proof.
  split; [vm_compute; reflexivity|].
  destruct (Programs.programs_end 128 any_read 4 9 3 4096 8192 23 900 8192 1000 SimRing.blank standard_fds
    ltac:(unfold default_entries; lia) ids_left ltac:(lia)) as ((p & Hp & He) & _).
  exists p. split; [exact Hp|exact He].
Defined.

Lemma udp_programs_witness :
  looping (echo_udp_main 4 1000 SimRing.blank standard_fds) = true /\
  exists p, echo_udp_coro_main 4 1000 SimRing.blank standard_fds = Ok p /\
    program_ok bound_anywhere (fun fd => serve_udp 4 fd 1000) SimRing.blank standard_fds p.
Proof.
  split; [vm_compute; reflexivity|].
  destruct (Programs.udp_programs any_read 4 1000 SimRing.blank standard_fds ltac:(lia))
    as ((p & Hp & Hok) & _).
  exists p. split; [exact Hp|exact Hok].
Defined.
