(* ===== verification/ProxyProgram.v ===== *)
(** * The proxy as a program (main and serve of examples/proxy-coro.cpp)

    [main] starts a coroutine for each pair of addresses of its configuration and
    gives it a reference to an address that is a local of the loop's body.  Locals
    are objects under names, so that it shows when they are gone. *)

From Stdlib Require Import ZArith Lia Ascii String.
From stdpp Require Import base numbers list gmap option.
From S2P Require Import Prelude Interfaces Uring Queue Fds Addresses Sockets Proxy.

Local Open Scope Z_scope.

Module ProxyProgram.
Import IoQueue IpAddressPort Sockets.

(** [Configuration::Upstream] *)
Record Upstream : Type := mkUpstream { listenAddr : str; upstreamAddr : str }.

Definition config : list Upstream :=
  [mkUpstream (list_ascii_of_string "127.0.0.1:4242") (list_ascii_of_string "127.0.0.1:4243")].

(** A [serve] that awaits an accept: its socket, and the address it refers to. *)
Record server : Type := mkServer { listenSocket : Z; address_ref : Z }.

Section Program.
Context {K : Type} `{!Posix K} `{!SocketCalls K} {inet : Inet}.
(** Where the locals of [serve] and [handleClient] lie. *)
Variables (SOMAXCONN sa sockLen upstream_sa : Z).

(** [locals] are the [upstreamAddr]s that exist, [log] what the coroutines asked for,
    [clients] the connections with the addresses they connect to. *)
Record state : Type := mkState {
  kernel : K;
  locals : gmap Z IpAddressPort;
  nextLocal : Z;
  servers : list server;
  log : list call;
  clients : list (sockaddr_in * Proxy.state)
}.

Definition initial (k : K) : state := mkState k ∅ 0 [] [] [].

Definition set_kernel (k : K) (s : state) : state :=
  mkState k (locals s) (nextLocal s) (servers s) (log s) (clients s).

(** A local [upstreamAddr] is made, and the end of its scope. *)
Definition declare (a : IpAddressPort) (s : state) : Z * state :=
  (nextLocal s, mkState (kernel s) (<[nextLocal s := a]> (locals s)) (nextLocal s + 1)
    (servers s) (log s) (clients s)).
Definition end_of_scope (x : Z) (s : state) : state :=
  mkState (kernel s) (delete x (locals s)) (nextLocal s) (servers s) (log s) (clients s).

(** [co_await io.accept(listenSocket, &sa, &sockLen)] *)
Definition await_accept (fd : Z) (s : state) : state :=
  mkState (kernel s) (locals s) (nextLocal s) (servers s) (log s ++ [Accept fd sa sockLen]) (clients s).

(** [serve(io, std::move(socket), *upstreamAddr)], up to its first suspension. *)
Definition serve (fd addr : Z) (s : state) : state :=
  await_accept fd (mkState (kernel s) (locals s) (nextLocal s) (servers s ++ [mkServer fd addr])
    (log s) (clients s)).

(** [handleClient] up to its first suspension: it reads the address. *)
Definition handleClient (clientSocket addr : Z) (s : state) : outcome state :=
  let '(upstreamSocket, k) := createSocket Tcp (kernel s) in
  let s := set_kernel k s in
  a ← deref (locals s !! addr);
  Ok (mkState (kernel s) (locals s) (nextLocal s) (servers s) (log s)
    (clients s ++ [(getSockAddr a, Proxy.start upstream_sa clientSocket upstreamSocket)])).

(** The accept of the [i]-th [serve] returns [r]. *)
Definition resume_serve (i : nat) (r : Z) (s : state) : outcome state :=
  sv ← deref (servers s !! i);
  if r <? 0 then Ok (await_accept (listenSocket sv) s)
  else s ← handleClient r (address_ref sv) s; Ok (await_accept (listenSocket sv) s).

(** The body of [main]'s loop; [None] is [return 1]. *)
Definition start_upstream (upstream : Upstream) (s : state) : outcome (option state) :=
  listenAddr ← parse (listenAddr upstream);
  match listenAddr with
  | None => Ok None
  | Some listenAddr =>
      upstreamAddr ← parse (upstreamAddr upstream);
      match upstreamAddr with
      | None => Ok None
      | Some upstreamAddr =>
          let '(x, s) := declare upstreamAddr s in
          let '(socket, k) := createTcpListenSocket listenAddr SOMAXCONN (kernel s) in
          let s := set_kernel k s in
          if socket =? -1 then Ok None else Ok (Some (end_of_scope x (serve socket x s)))
      end
  end.

(** [main] up to [io.run()]. *)
Fixpoint start_upstreams (upstreams : list Upstream) (s : state) : outcome (option state) :=
  match upstreams with
  | [] => Ok (Some s)
  | upstream :: upstreams =>
      o ← start_upstream upstream s;
      match o with
      | None => Ok None
      | Some s => start_upstreams upstreams s
      end
  end.

Definition main (upstreams : list Upstream) (k : K) : outcome (option state) :=
  start_upstreams upstreams (initial k).

(** ** What becomes of the addresses *)

(** Every [serve] refers to a local that is gone. *)
Definition dangling (s : state) : Prop :=
  locals s = ∅ /\ forall i sv, servers s !! i = Some sv -> address_ref sv < nextLocal s.

Lemma start_upstream_dangling upstream s s' :
  start_upstream upstream s = Ok (Some s') -> dangling s ->
  dangling s' /\ exists sv, servers s' = servers s ++ [sv] /\ log s' = log s ++ [Accept (listenSocket sv) sa sockLen].
Proof.
  unfold start_upstream. intros H [Hl Hs].
  apply outcome_bind_Ok in H as ([a|] & _ & H); [|done].
  apply outcome_bind_Ok in H as ([b|] & _ & H); [|done]. unfold declare in H. cbn [kernel] in H.
  destruct (createTcpListenSocket a SOMAXCONN (kernel s)) as [fd k].
  destruct (fd =? -1); [done|]. injection H as <-. split; [|by eexists].
  split; cbn; [by rewrite Hl, delete_insert_id|].
  intros i sv Hi. apply lookup_app_Some in Hi as [Hi|[_ Hi]]; [specialize (Hs i sv Hi); lia|].
  apply list_lookup_singleton_Some in Hi as [_ <-]. cbn. lia.
Qed.

Lemma start_upstreams_dangling upstreams s s' :
  start_upstreams upstreams s = Ok (Some s') -> dangling s ->
  dangling s' /\ length (servers s') = (length (servers s) + length upstreams)%nat.
Proof.
  revert s. induction upstreams as [|u us IH]; intros s H Hd; cbn in H.
  - injection H as <-. split; [done|]. cbn. lia.
  - apply outcome_bind_Ok in H as ([s1|] & Hu & H); [|done].
    destruct (start_upstream_dangling u s s1 Hu Hd) as (Hd1 & sv & Hsv & _).
    destruct (IH s1 H Hd1) as [Hd' Hl]. split; [done|]. rewrite Hl, Hsv, length_app. cbn. lia.
Qed.

(** C40: The proxy serves nobody: once [main] has started a coroutine for each pair of
    addresses and runs the queue, each of them waits for connections, waits again
    when accepting one fails, and with the first connection it accepts reads an
    address that no longer exists. *)
Theorem proxy_address_dangles upstreams k s :
  main upstreams k = Ok (Some s) ->
  length (servers s) = length upstreams /\
  forall i, (i < length upstreams)%nat -> exists sv, servers s !! i = Some sv /\ forall r,
    resume_serve i r s =
      if r <? 0 then Ok (await_accept (listenSocket sv) s) else Crash UndefinedBehaviour.
Proof.
  intros H. assert (dangling (initial k)) as H0 by by split.
  destruct (start_upstreams_dangling _ _ _ H H0) as [[Hl _] Hlen]. cbn in Hlen. split; [done|].
  intros i Hi. rewrite <- Hlen in Hi. apply lookup_lt_is_Some_2 in Hi as [sv Hsv].
  exists sv. split; [done|]. intros r. unfold resume_serve. rewrite Hsv. cbn [deref mbind outcome_bind].
  destruct (r <? 0); [done|]. unfold handleClient. destruct (createSocket Tcp (kernel s)) as [fd k'].
  cbn [set_kernel locals]. by rewrite Hl, lookup_empty.
Qed.

End Program.
End ProxyProgram.

#[local] Existing Instance sim_sockets.

Lemma proxy_address_dangles_witness :
  exists s, ProxyProgram.main 128 9000 9016 ProxyProgram.config ({[0; 1; 2]} : gset Z) = Ok (Some s) /\
    ProxyProgram.resume_serve 9000 9016 9032 0 5 s = Crash UndefinedBehaviour.
Proof.
  assert (exists s, ProxyProgram.main 128 9000 9016 ProxyProgram.config ({[0; 1; 2]} : gset Z) =
    Ok (Some s)) as [s Hs] by (eexists; vm_compute; reflexivity).
  exists s. split; [exact Hs|].
  destruct (proj2 (ProxyProgram.proxy_address_dangles 128 9000 9016 9032 ProxyProgram.config
    ({[0; 1; 2]} : gset Z) s Hs) 0%nat ltac:(cbn; lia)) as (sv & _ & Hr).
  exact (Hr 5).
Defined.
