(* ===== verification/Submits.v ===== *)
(** * Functions run in the thread pool: [ThreadPool::submit] and [wrapAsTask]
    (threadpool.hpp)

    The pool of [Pool.v] with one promise of [Futures.v] for every function that
    was submitted; a task of the pool is the closure [submit] makes.  The steps of
    a worker that executes one are the steps of [set] on its promise. *)

From Stdlib Require Import ZArith Lia.
From stdpp Require Import base numbers list gmap option.
From S2P Require Import Prelude EventFds Futures Pool.

Local Open Scope Z_scope.

Module Submits.

Section Submits.
Context {calls : EventfdCalls} {spec : EventfdSpec}.
(** What the functions return: [Future<void>] or a value for each submission. *)
Variables (k : Futures.kind) (value : Z -> Z).

(** [called]: the functions that were called, in order. *)
Record state : Type := mkState {
  pool : ThreadPool.state;
  futures : gmap Z Futures.state;
  called : list Z
}.

Definition set_pool (p : ThreadPool.state) (s : state) : state := mkState p (futures s) (called s).
Definition set_future (t : Z) (f : Futures.state) (s : state) : state :=
  mkState (pool s) (<[t := f]> (futures s)) (called s).

Definition init (numThreads : nat) : state := mkState (ThreadPool.init numThreads) ∅ [].

(** [submit] under the name [t], and what is done with the future: [get()], or
    [io.wait] as in [wrapAsTask].  The promise's [EventFd] asserts that there was a
    descriptor left for it ([fd]).  The caller tries again while the lock is taken. *)
Definition submit (t : Z) (waits fd : bool) (s : state) : outcome state :=
  match futures s !! t, ThreadPool.lock (pool s) with
  | None, None =>
      _ ← cassert fd;
      f ← Futures.init waits;
      '(p, _) ← ThreadPool.push t (pool s);
      Ok (set_pool p (set_future t f s))
  | _, _ => Ok s
  end.

(** The closure of [t]: for void [promise.set()], else [promise.set(func())]. *)
Definition execute (t : Z) (f : Futures.state) (s : state) : outcome state :=
  match Futures.setters f with
  | [] =>
      match k with
      | Futures.Valued =>
          if decide (t ∈ called s) then f ← Futures.set (value t) f; Ok (set_future t f s)
          else Ok (mkState (pool s) (futures s) (called s ++ [t]))
      | Futures.Void => f ← Futures.set (value t) f; Ok (set_future t f s)
      end
  | _ => f ← Futures.setter_step k 0 f; Ok (set_future t f s)
  end.

Definition returned (f : Futures.state) : bool :=
  match Futures.setters f with [Futures.SDone] => true | _ => false end.

Definition pool_step (a : ThreadPool.action) (s : state) : outcome state :=
  '(p, _) ← ThreadPool.step a (pool s); Ok (set_pool p s).

(** A step of a worker: of the task it executes, or of its loop. *)
Definition worker_step (w : nat) (s : state) : outcome state :=
  match ThreadPool.workers (pool s) !! w with
  | Some (ThreadPool.WRun t) =>
      f ← deref (futures s !! t);
      if returned f then pool_step (ThreadPool.AWorker w) s else execute t f s
  | _ => pool_step (ThreadPool.AWorker w) s
  end.

Inductive action : Type :=
| ASubmit (t : Z) (waits fd : bool)
| AWorker (w : nat)
| AConsumer (t : Z) (entry : bool)  (* the submission queue has an entry *)
| AReadError (t : Z) (e : Z)        (* the read of the eventfd fails *)
| ASpuriousConsumer (t : Z)
| ASpuriousWorker (w : nat)
| ANotifyOne (w : option nat)
| ADtor.

Definition future_step (a : Futures.action) (t : Z) (s : state) : outcome state :=
  match futures s !! t with
  | Some f => f ← Futures.step k a f; Ok (set_future t f s)
  | None => Ok s
  end.

(** [io.wait] is about to read the eventfd. *)
Definition about_to_read (f : Futures.state) : bool :=
  match Futures.consumer f with
  | Futures.CReady => negb (Futures.locked f) && negb (Futures.ready f)
  | _ => false
  end.

(** A step of the consumer.  The [co_await] on [io.read] asserts that its handle is
    valid: that the submission queue had an entry for it. *)
Definition consumer_step (t : Z) (entry : bool) (s : state) : outcome state :=
  _ ← cassert (entry || negb (default false (about_to_read <$> futures s !! t)));
  future_step Futures.AConsumer t s.

Definition step (a : action) (s : state) : outcome state :=
  match a with
  | ASubmit t waits fd => submit t waits fd s
  | AWorker w => worker_step w s
  | AConsumer t entry => consumer_step t entry s
  | AReadError t e => future_step (Futures.AReadError e) t s
  | ASpuriousConsumer t => future_step Futures.ASpurious t s
  | ASpuriousWorker w => pool_step (ThreadPool.ASpurious w) s
  | ANotifyOne w => pool_step (ThreadPool.ANotifyOne w) s
  | ADtor => pool_step ThreadPool.ADtor s
  end.

Fixpoint run (acts : list action) (s : state) : outcome state :=
  match acts with
  | [] => Ok s
  | a :: acts => s ← step a s; run acts s
  end.

(** ** The invariant *)

(** The tasks queued or being executed. *)
Definition busy (p : ThreadPool.state) : list Z := ThreadPool.tasks_ p ++ ThreadPool.executing p.

Record Inv (s : state) : Prop := {
  inv_pool : ThreadPool.Inv (pool s);
  inv_future t f : futures s !! t = Some f -> Futures.Inv k (value t) f;
  inv_busy : NoDup (busy (pool s));
  inv_known t : t ∈ busy (pool s) -> is_Some (futures s !! t);
  inv_queued t f : t ∈ ThreadPool.tasks_ (pool s) -> futures s !! t = Some f ->
    Futures.setters f = [] /\ (t ∉ called s);
  inv_over t f : futures s !! t = Some f -> (t ∉ busy (pool s)) ->
    Futures.setters f = [Futures.SDone];
  inv_called t f : futures s !! t = Some f -> Futures.setters f <> [] -> k = Futures.Valued ->
    t ∈ called s;
  inv_calls : NoDup (called s);
  inv_calls_known t : t ∈ called s -> is_Some (futures s !! t);
  inv_void : k = Futures.Void -> called s = []
}.

Lemma idle_executing n :
  omap ThreadPool.task_of (replicate n ThreadPool.WLoop) = [].
Proof. by induction n. Qed.

Lemma submits_init_inv n : Inv (init n).
Proof.
  assert (busy (ThreadPool.init n) = []) as Hb.
  { unfold busy, ThreadPool.executing. cbn [ThreadPool.tasks_ ThreadPool.workers ThreadPool.init].
    by rewrite idle_executing. }
  assert (ThreadPool.tasks_ (ThreadPool.init n) = []) as Ht by done.
  split; cbn [pool futures called init]; rewrite ?Hb, ?Ht; try done;
    try apply ThreadPool.pool_init_inv; try apply NoDup_nil_2.
  all: by intros t ?%elem_of_nil.
Qed.

(** ** Steps of the pool *)

(** What the queue and the running tasks become, together. *)
Lemma busy_log p p' evs :
  ThreadPool.log_ok p p' evs ->
  busy p ++ ThreadPool.pushed evs ≡ₚ ThreadPool.ran evs ++ busy p'.
Proof.
  intros [Ht He]. unfold busy.
  rewrite <- app_assoc, (Permutation_app_comm (ThreadPool.executing p)), app_assoc, Ht.
  rewrite (Permutation_app_comm _ (ThreadPool.tasks_ p')), <- app_assoc, He.
  rewrite !app_assoc. f_equiv. apply Permutation_app_comm.
Qed.

(** Only the worker that executes a task finishes it, and only [push] adds one. *)
Definition finishes (a : ThreadPool.action) (p : ThreadPool.state) : list Z :=
  match a with
  | ThreadPool.AWorker w =>
      match ThreadPool.workers p !! w with Some (ThreadPool.WRun t) => [t] | _ => [] end
  | _ => []
  end.

Lemma step_finishes a p p' evs :
  ThreadPool.step a p = Ok (p', evs) -> (forall t, a <> ThreadPool.APush t) ->
  ThreadPool.pushed evs = [] /\ ThreadPool.ran evs = finishes a p.
Proof.
  intros H Ha. destruct a as [w|w|t|w|]; cbn [ThreadPool.step finishes] in *.
  - unfold ThreadPool.worker_step, ThreadPool.acquire in H.
    destruct (ThreadPool.workers p !! w) as [pc|]; [|by injection H as <- <-].
    destruct pc; repeat case_match; try done; try (by injection H as <- <-);
      apply outcome_bind_Ok in H as (t & _ & [= <- <-]); done.
  - case_match; by injection H as <- <-.
  - by destruct (Ha t).
  - unfold ThreadPool.notify_one in H. repeat case_match; by injection H as <- <-.
  - unfold ThreadPool.dtor_step in H. repeat case_match; by injection H as <- <-.
Qed.

(** A queue that has only lost tasks. *)
Lemma queue_shrinks a p p' evs t :
  ThreadPool.step a p = Ok (p', evs) -> (forall t, a <> ThreadPool.APush t) ->
  t ∈ ThreadPool.tasks_ p' -> t ∈ ThreadPool.tasks_ p.
Proof.
  intros H Ha Ht. destruct (step_finishes a p p' evs H Ha) as [Hp _].
  apply ThreadPool.step_log in H as [Hq _]. rewrite Hp, app_nil_r in Hq. rewrite Hq.
  apply elem_of_app. by right.
Qed.

Lemma pool_step_inv a s :
  Inv s -> (forall t, a <> ThreadPool.APush t) ->
  (forall t f, t ∈ finishes a (pool s) -> futures s !! t = Some f ->
    Futures.setters f = [Futures.SDone]) ->
  exists s', pool_step a s = Ok s' /\ Inv s'.
Proof.
  intros [H1 H2 H3 H4 H5 H6 H7 H8 H9 H10] Ha Hf.
  destruct (ThreadPool.step_inv a (pool s) H1) as (p & evs & Hs & Hp).
  destruct (step_finishes a (pool s) p evs Hs Ha) as [Hpu Hran].
  pose proof (busy_log _ _ _ (ThreadPool.step_log _ _ _ _ Hs)) as Hb.
  rewrite Hpu, Hran, app_nil_r in Hb.
  unfold pool_step. rewrite Hs. cbn [mbind outcome_bind]. eexists. split; [done|].
  split; cbn [pool futures called set_pool]; try done.
  - rewrite Hb in H3. by apply list.NoDup_app in H3 as (_ & _ & ?).
  - intros t Ht. apply H4. rewrite Hb. apply elem_of_app. by right.
  - intros t f Ht. apply H5. by eapply queue_shrinks.
  - intros t f Ht Hn. destruct (decide (t ∈ finishes a (pool s))) as [Hin|Hnin]; [by apply (Hf t f)|].
    apply (H6 t f Ht). rewrite Hb, elem_of_app. tauto.
Qed.

(** ** Steps of a future *)

(** A future that moves on, its setter either not at all or forwards. *)
Lemma set_future_inv t f f' s :
  Inv s -> futures s !! t = Some f -> Futures.Inv k (value t) f' ->
  (Futures.setters f' = Futures.setters f \/
   (t ∈ ThreadPool.executing (pool s) /\ (k = Futures.Valued -> t ∈ called s))) ->
  Inv (set_future t f' s).
Proof.
  intros [H1 H2 H3 H4 H5 H6 H7 H8 H9 H10] Hf HI Hs.
  split; cbn [pool futures called set_future]; try done.
  - intros t' f0 [[<- <-]|[_ Hf0]]%lookup_insert_Some; [done|by apply H2].
  - intros t' Ht'. apply lookup_insert_is_Some'. right. by apply H4.
  - intros t' f0 Ht' [[<- <-]|[_ Hf0]]%lookup_insert_Some; [|by apply H5].
    destruct Hs as [->|[He _]]; [by apply H5|].
    apply list.NoDup_app in H3 as (_ & Hdisj & _). by destruct (Hdisj t).
  - intros t' f0 [[<- <-]|[_ Hf0]]%lookup_insert_Some; [|by apply H6]. intros Hn.
    destruct Hs as [->|[He _]]; [by apply (H6 t f)|]. destruct Hn. apply elem_of_app. by right.
  - intros t' f0 [[<- <-]|[_ Hf0]]%lookup_insert_Some Hne Hk; [|by eapply H7].
    destruct Hs as [Hs|[_ Hc]]; [|by apply Hc]. apply (H7 t f); [done|by rewrite <- Hs|done].
  - intros t' Ht'. apply lookup_insert_is_Some'. right. by apply H9.
Qed.

Lemma spurious_future_inv f v :
  Futures.Inv k v f -> exists f', Futures.step k Futures.ASpurious f = Ok f' /\
    Futures.Inv k v f' /\ Futures.setters f' = Futures.setters f.
Proof.
  intros HI. cbn [Futures.step].
  destruct (decide (Futures.consumer f = Futures.CWaiting)) as [Hc|]; [|by exists f].
  eexists. split; [done|]. split; [|done].
  pose proof (Futures.inv_locked _ _ _ HI) as Hl. rewrite Hc in Hl. cbn in Hl.
  replace (Futures.set_consumer Futures.CRelock f) with
    (Futures.set_locked (Futures.holds Futures.CRelock) (Futures.set_consumer Futures.CRelock f))
    by (destruct f; cbn in *; by subst).
  by apply Futures.consumer_move.
Qed.

Lemma future_step_inv a t s :
  Inv s -> a = Futures.AConsumer \/ a = Futures.ASpurious ->
  exists s', future_step a t s = Ok s' /\ Inv s'.
Proof.
  intros HI Ha. unfold future_step. destruct (futures s !! t) as [f|] eqn:Hf; [|by exists s].
  assert (exists f', Futures.step k a f = Ok f' /\ Futures.Inv k (value t) f' /\
    Futures.setters f' = Futures.setters f) as (f' & -> & HI' & Hs).
  { pose proof (inv_future s HI t f Hf) as HIf.
    destruct Ha as [->| ->]; [by apply Futures.consumer_inv|by apply spurious_future_inv]. }
  cbn [mbind outcome_bind]. eexists. split; [done|]. eapply set_future_inv; [done..|by left].
Qed.

(** ** Steps of a task *)

Lemma executing_lookup p w t :
  ThreadPool.workers p !! w = Some (ThreadPool.WRun t) -> t ∈ ThreadPool.executing p.
Proof.
  intros Hw. apply list_elem_of_omap. exists (ThreadPool.WRun t). split; [|done].
  by eapply list_elem_of_lookup_2.
Qed.

Lemma set_step_inv t f s :
  Inv s -> futures s !! t = Some f -> Futures.setters f = [] -> t ∈ ThreadPool.executing (pool s) ->
  (k = Futures.Valued -> t ∈ called s) ->
  exists s', (f ← Futures.set (value t) f; Ok (set_future t f s)) = Ok s' /\ Inv s'.
Proof.
  intros HI Hf Hs He Hc.
  destruct (Futures.set_inv k (value t) f (inv_future s HI t f Hf) Hs) as (f' & -> & HI' & _).
  cbn [mbind outcome_bind]. eexists. split; [done|]. eapply set_future_inv; [done..|by right].
Qed.

Lemma call_function_inv t f s :
  Inv s -> futures s !! t = Some f -> t ∈ ThreadPool.executing (pool s) -> (t ∉ called s) ->
  k = Futures.Valued -> Inv (mkState (pool s) (futures s) (called s ++ [t])).
Proof.
  intros [H1 H2 H3 H4 H5 H6 H7 H8 H9 H10] Hf He Hc Hk.
  split; cbn [pool futures called]; try done.
  - intros t' f' Ht' Hf'. destruct (H5 t' f' Ht' Hf') as [Hs Hn]. split; [done|].
    rewrite elem_of_app, list_elem_of_singleton. intros [?| ->]; [done|].
    apply list.NoDup_app in H3 as (_ & Hdisj & _). by destruct (Hdisj t).
  - intros t' f' Hf' Hs Hv. apply elem_of_app. left. by apply (H7 t' f').
  - apply list.NoDup_app. split; [done|]. split; [|apply list.NoDup_singleton].
    by intros x Hx ->%list_elem_of_singleton.
  - intros t' [?| ->%list_elem_of_singleton]%elem_of_app; [by apply H9|by rewrite Hf].
  - by rewrite Hk.
Qed.

Lemma execute_inv t f s :
  Inv s -> futures s !! t = Some f -> t ∈ ThreadPool.executing (pool s) ->
  exists s', execute t f s = Ok s' /\ Inv s'.
Proof.
  intros HI Hf He. unfold execute.
  destruct (Futures.setters f) as [|pc l] eqn:Hs.
  - pose proof (set_step_inv t f s HI Hf Hs He) as Hset.
    assert (k = Futures.Void \/ k = Futures.Valued) as [Hk|Hk] by (case k; auto); rewrite Hk.
    + apply Hset. by rewrite Hk.
    + destruct (decide (t ∈ called s)) as [Hc|Hc]; [by apply Hset|].
      eexists. split; [done|]. by eapply call_function_inv.
  - destruct (Futures.setter_inv k (value t) 0 f (inv_future s HI t f Hf)) as (f' & -> & HI' & Hlen).
    cbn [mbind outcome_bind]. eexists. split; [done|]. eapply set_future_inv; [done..|]. right.
    split; [done|]. intros Hk. apply (inv_called s HI t f Hf); [by rewrite Hs|done].
Qed.

Lemma returned_spec f : returned f = true -> Futures.setters f = [Futures.SDone].
Proof. unfold returned. by destruct (Futures.setters f) as [|[] []]. Qed.

Lemma submits_worker_inv w s : Inv s -> exists s', worker_step w s = Ok s' /\ Inv s'.
Proof.
  intros HI. unfold worker_step.
  assert ((forall t, ThreadPool.workers (pool s) !! w <> Some (ThreadPool.WRun t)) ->
    exists s', pool_step (ThreadPool.AWorker w) s = Ok s' /\ Inv s') as Hloop.
  { intros Hw. apply pool_step_inv; [done..|]. intros t f. cbn [finishes].
    destruct (ThreadPool.workers (pool s) !! w) as [[]|]; try by intros ?%elem_of_nil.
    by destruct (Hw t0). }
  destruct (ThreadPool.workers (pool s) !! w) as [pc|] eqn:Hw; [|by apply Hloop].
  destruct pc as [| | | | | | | |t|]; try (by apply Hloop). clear Hloop.
  pose proof (executing_lookup _ _ _ Hw) as He.
  destruct (inv_known s HI t) as [f Hf]; [apply elem_of_app; by right|]. rewrite Hf.
  cbn [deref mbind outcome_bind].
  destruct (returned f) eqn:Hr; [|by apply execute_inv]. apply returned_spec in Hr.
  apply pool_step_inv; [done..|]. intros t' f'. cbn [finishes]. rewrite Hw.
  intros ->%list_elem_of_singleton. congruence.
Qed.

(** ** Submission *)

Lemma submit_inv t waits s :
  Inv s -> (exists f, Futures.init waits = Ok f) -> exists s', submit t waits true s = Ok s' /\ Inv s'.
Proof.
  intros HI [f Hi]. unfold submit.
  destruct (futures s !! t) as [f0|] eqn:Hf; [by exists s|].
  destruct (ThreadPool.lock (pool s)) eqn:Hl; [by exists s|].
  cbn [cassert mbind outcome_bind]. rewrite Hi. cbn [mbind outcome_bind].
  pose proof (Futures.future_init_inv k (value t) waits f Hi) as HIf.
  assert (Futures.setters f = []) as Hsf.
  { unfold Futures.init in Hi. by apply outcome_bind_Ok in Hi as (fd & _ & [= <-]). }
  destruct (ThreadPool.step_inv (ThreadPool.APush t) (pool s) (inv_pool s HI)) as (p & evs & Hs & Hp).
  cbn [ThreadPool.step] in Hs. rewrite Hs. cbn [mbind outcome_bind]. eexists. split; [done|].
  unfold ThreadPool.push in Hs. rewrite Hl in Hs. injection Hs as <- <-.
  destruct HI as [H1 H2 H3 H4 H5 H6 H7 H8 H9 H10].
  assert (t ∉ busy (pool s)) as Hnb by (intros Hb; destruct (H4 t Hb); congruence).
  assert (t ∉ called s) as Hnc by (intros Hb; destruct (H9 t Hb); congruence).
  set (p' := ThreadPool.mkState _ _ _ _ _ _) in *.
  assert (busy p' ≡ₚ t :: busy (pool s)) as Hb.
  { unfold busy, p', ThreadPool.executing. cbn [ThreadPool.tasks_ ThreadPool.workers].
    rewrite <- app_assoc. cbn. by rewrite <- Permutation_middle. }
  split; cbn [pool futures called set_pool set_future]; try done.
  - intros t' f0 [[<- <-]|[_ Hf0]]%lookup_insert_Some; [done|by apply H2].
  - rewrite Hb. by apply list.NoDup_cons.
  - intros t'. rewrite Hb. intros [->|Ht']%elem_of_cons; [by rewrite lookup_insert_eq|].
    apply lookup_insert_is_Some'. right. by apply H4.
  - intros t' f0 Ht' [[<- <-]|[Hne Hf0]]%lookup_insert_Some; [done|].
    apply elem_of_app in Ht' as [Ht'|Ht'%list_elem_of_singleton]; [by apply H5|congruence].
  - intros t' f0 [[<- <-]|[Hne Hf0]]%lookup_insert_Some; rewrite Hb, elem_of_cons; [tauto|].
    intros Hn. apply (H6 t' f0 Hf0). tauto.
  - intros t' f0 [[<- <-]|[Hne Hf0]]%lookup_insert_Some Hs; [done|by eapply H7].
  - intros t' Ht'. apply lookup_insert_is_Some'. right. by apply H9.
Qed.

(** ** What can go wrong *)

Definition is_error (a : action) : bool :=
  match a with AReadError _ _ => true | _ => false end.

(** No descriptor left, or no entry of the submission queue. *)
Definition exhausts (a : action) : bool :=
  match a with
  | ASubmit _ _ fd => negb fd
  | AConsumer _ entry => negb entry
  | _ => false
  end.

Definition errno_range (a : action) : Prop :=
  match a with AReadError _ e => 0 < e < 2 ^ 31 | _ => True end.

(** [eventfd(0, 0)] gives no descriptor. *)
Definition eventfd_fails : Prop := sys_eventfd 0 (EventFd.flags_value EventFd.None_) = None.

(** A crash after [acts] is due to a failed read, or to something that has run out. *)
Definition excused (c : crash) (acts : list action) : Prop :=
  (c = Aborted /\ existsb is_error acts = true) \/
  (c = AssertFailed /\ (existsb exhausts acts = true \/ eventfd_fails)).

Lemma excused_one c a acts : excused c [a] -> excused c (a :: acts).
Proof.
  unfold excused. cbn [existsb]. rewrite !orb_false_r.
  intros [[-> ->]|[-> [->|?]]]; [by left|right; by auto..].
Qed.

Lemma excused_more c a acts : excused c acts -> excused c (a :: acts).
Proof.
  unfold excused. cbn [existsb].
  intros [[-> ->]|[-> [->|?]]]; rewrite ?orb_true_r; [by left|right; by auto..].
Qed.

Lemma future_made waits :
  (exists f, Futures.init waits = Ok f) \/ (Futures.init waits = Crash AssertFailed /\ eventfd_fails).
Proof.
  unfold Futures.init, EventFd.make, eventfd_fails.
  destruct (sys_eventfd 0 (EventFd.flags_value EventFd.None_)); [left; by eexists|by right].
Qed.

Lemma read_error_inv t e s :
  Inv s -> 0 < e < 2 ^ 31 ->
  future_step (Futures.AReadError e) t s = Crash Aborted \/
  exists s', future_step (Futures.AReadError e) t s = Ok s' /\ Inv s'.
Proof.
  intros HI He. unfold future_step. destruct (futures s !! t) as [f|] eqn:Hf; [|right; by exists s].
  cbn [Futures.step]. rewrite Futures.read_error_eq by done.
  pose proof (inv_future s HI t f Hf) as HIf.
  destruct (Futures.consumer f); [right|by left|right..];
    (cbn [mbind outcome_bind]; eexists; split; [done|]; eapply set_future_inv; [done..|by left]).
Qed.

Lemma submits_step_inv a s :
  Inv s -> errno_range a ->
  match step a s with
  | Ok s' => Inv s'
  | Crash c => excused c [a]
  end.
Proof.
  intros HI He. destruct a as [t waits fd|w|t entry|t e|t|w|w|]; cbn [step].
  - destruct fd; [|unfold submit; destruct (futures s !! t), (ThreadPool.lock (pool s)); try done; right; by auto].
    destruct (future_made waits) as [Hf|[Hf ?]].
    + by destruct (submit_inv t waits s HI Hf) as (s' & -> & HI').
    + unfold submit. destruct (futures s !! t), (ThreadPool.lock (pool s)); try done.
      cbn [cassert mbind outcome_bind]. rewrite Hf. right. by auto.
  - by destruct (submits_worker_inv w s HI) as (s' & -> & HI').
  - unfold consumer_step. destruct (cassert _) as [[]|c] eqn:Ha; cbn [mbind outcome_bind].
    + by destruct (future_step_inv Futures.AConsumer t s HI (or_introl eq_refl)) as (s' & -> & HI').
    + right. destruct entry; [done|]. unfold cassert in Ha. destruct (_ || _); [done|].
      injection Ha as <-. by auto.
  - destruct (read_error_inv t e s HI He) as [->|(s' & -> & HI')]; [by left|done].
  - by destruct (future_step_inv Futures.ASpurious t s HI (or_intror eq_refl)) as (s' & -> & HI').
  - destruct (pool_step_inv (ThreadPool.ASpurious w) s HI) as (s' & -> & HI');
      [done|by intros t f ?%elem_of_nil|done].
  - destruct (pool_step_inv (ThreadPool.ANotifyOne w) s HI) as (s' & -> & HI');
      [done|by intros t f ?%elem_of_nil|done].
  - destruct (pool_step_inv ThreadPool.ADtor s HI) as (s' & -> & HI');
      [done|by intros t f ?%elem_of_nil|done].
Qed.

Lemma submits_run_inv acts : forall s,
  Inv s -> Forall errno_range acts ->
  match run acts s with
  | Ok s' => Inv s'
  | Crash c => excused c acts
  end.
Proof.
  induction acts as [|a acts IH]; intros s HI He; [done|]. cbn [run].
  apply Forall_cons_1 in He as [Ha He]. pose proof (submits_step_inv a s HI Ha) as H.
  destruct (step a s) as [s1|c]; cbn [mbind outcome_bind]; [|by apply excused_one].
  specialize (IH s1 H He). destruct (run acts s1); [done|by apply excused_more].
Qed.

(** ** After the task's end *)

Lemma consumer_delivers t entry n : forall s f,
  futures s !! t = Some f -> Futures.Inv k (value t) f -> Futures.setters f = [Futures.SDone] ->
  k = Futures.Valued -> n = Futures.remaining (Futures.consumer f) ->
  exists s' f', run (replicate n (AConsumer t entry)) s = Ok s' /\ futures s' !! t = Some f' /\
    Futures.consumer f' = Futures.CDone (Futures.expected k (value t)).
Proof.
  induction n as [|n IH]; intros s f Hf HI Hs Hk Hn.
  - destruct (Futures.consumer_finishes k (value t) 0 f HI Hs (or_introl Hk) Hn) as (f' & [= <-] & Hc).
    by exists s, f.
  - destruct (Futures.consumer_progress k (value t) f n HI Hs (or_introl Hk) Hn)
      as (f' & Hf' & HI' & Hs' & _ & Hn').
    cbn [replicate run step]. unfold consumer_step, future_step. rewrite Hf. cbn [fmap option_fmap option_map].
    assert (about_to_read f = false) as Hr.
    { unfold about_to_read. destruct (Futures.consumer f); try done.
      rewrite (Futures.ready_spec _ _ _ HI), Hs. by rewrite andb_false_r. }
    cbn [default]. rewrite Hr, orb_true_r. cbn [cassert mbind outcome_bind Futures.step]. rewrite Hf'.
    cbn [mbind outcome_bind]. apply (IH (set_future t f' s) f'); try done. apply lookup_insert_eq.
Qed.

(** Nothing else is needed: not even an entry of the submission queue. *)
Lemma task_delivers t f entry s :
  Inv s -> futures s !! t = Some f -> (t ∉ busy (pool s)) -> k = Futures.Valued ->
  exists n s' f', (n <= 4)%nat /\ run (replicate n (AConsumer t entry)) s = Ok s' /\
    futures s' !! t = Some f' /\ Futures.consumer f' = Futures.CDone (Futures.expected k (value t)).
Proof.
  intros HI Hf Hb Hk. pose proof (inv_over s HI t f Hf Hb) as Hs.
  destruct (consumer_delivers t entry _ s f Hf (inv_future s HI t f Hf) Hs Hk eq_refl) as (s' & f' & H).
  eexists _, s', f'. split; [|exact H]. destruct (Futures.consumer f); cbn; lia.
Qed.

(** C19: Functions submitted to the pool and awaited, from [get()] or on an I/O queue,
    under every interleaving of submissions, workers, consumers, notifications, spurious
    wakeups, reads that fail and the pool's destructor: every function is called at most
    once, no consumer returns anything but what its own function returned, and as soon
    as the task of a function with a value is neither queued nor being executed its
    consumer gets the result within four steps, whatever entries the submission queue
    has left.  (The consumer of a void one may wait for ever: [Futures.void_wait_hangs].)
    The program aborts only after a read of an eventfd that failed, and an assertion
    fails only where [submit] finds no descriptor for an eventfd or the consumer no entry
    in the submission queue. *)
Theorem submit_delivers numThreads acts :
  Forall errno_range acts ->
  match run acts (init numThreads) with
  | Ok s => NoDup (called s) /\
      forall t f, futures s !! t = Some f ->
        (forall w, Futures.consumer f = Futures.CDone w ->
          w = Futures.expected k (value t) /\ (k = Futures.Valued -> t ∈ called s)) /\
        ((t ∉ busy (pool s)) -> k = Futures.Valued -> forall entry,
          exists n s' f', (n <= 4)%nat /\ run (replicate n (AConsumer t entry)) s = Ok s' /\
            futures s' !! t = Some f' /\
            Futures.consumer f' = Futures.CDone (Futures.expected k (value t)))
  | Crash c => excused c acts
  end.
Proof.
  intros He. pose proof (submits_run_inv acts (init numThreads) (submits_init_inv numThreads) He) as HI.
  destruct (run acts (init numThreads)) as [s|c]; [|done].
  split; [apply HI|]. intros t f Hf. pose proof (inv_future s HI t f Hf) as HIf. split.
  - intros w Hw. destruct (Futures.inv_done _ _ _ HIf w Hw) as [Hs ->]. split; [done|].
    by apply (inv_called s HI t f).
  - intros Hb Hk entry. by eapply task_delivers.
Qed.

(** A function that returns void is never called: its task only sets the promise. *)
Theorem submit_void_not_called numThreads acts s :
  k = Futures.Void -> Forall errno_range acts -> run acts (init numThreads) = Ok s -> called s = [].
Proof.
  intros Hk He Hr.
  pose proof (submits_run_inv acts (init numThreads) (submits_init_inv numThreads) He) as HI.
  rewrite Hr in HI. by apply HI.
Qed.

End Submits.
End Submits.

(** ** A concrete execution *)

Import Submits SimEventfd.

(** The function of submission [t] returns [t * t]; the coroutine in [wrapAsTask]
    awaits the eventfd when the worker sets the promise. *)
Definition squared : list action :=
  ASubmit 7 true true :: replicate 6 (AWorker 0) ++ AConsumer 7 true :: replicate 4 (AWorker 0).

Lemma squared_usual : Forall errno_range squared.
Proof. by repeat constructor. Qed.

Definition awaits_read (f : Futures.state) : bool :=
  match Futures.consumer f with Futures.CRead => true | _ => false end.

(** What was called, whether the consumer still awaits, what is not done. *)
Definition outline (o : outcome state) : option (list Z * option bool * list Z) :=
  match o with
  | Ok s => Some (called s, awaits_read <$> futures s !! 7, busy (pool s))
  | Crash _ => None
  end.

Lemma squared_result :
  outline (run Futures.Valued (fun t => t * t) squared (init 2)) = Some ([7], Some true, []).
Proof. vm_compute. reflexivity. Qed.

Lemma submit_delivers_witness :
  exists s f, run Futures.Valued (fun t => t * t) squared (init 2) = Ok s /\
    called s = [7] /\ futures s !! 7 = Some f /\ Futures.consumer f = Futures.CRead /\
    exists n s' f', (n <= 4)%nat /\
      run Futures.Valued (fun t => t * t) (replicate n (AConsumer 7 false)) s = Ok s' /\
      futures s' !! 7 = Some f' /\ Futures.consumer f' = Futures.CDone (Some 49).
Proof.
  pose proof squared_result as H.
  pose proof (submit_delivers Futures.Valued (fun t => t * t) 2 squared squared_usual) as Hs.
  destruct (run Futures.Valued (fun t => t * t) squared (init 2)) as [s|c]; [|discriminate H].
  cbn [outline] in H. injection H as Hc Hf Hb. destruct Hs as [_ Hs].
  destruct (futures s !! 7) as [f|] eqn:E; [|discriminate Hf]. injection Hf as Hf.
  exists s, f. split; [reflexivity|]. split; [exact Hc|]. split; [exact E|].
  split; [unfold awaits_read in Hf; by destruct (Futures.consumer f)|].
  apply (proj2 (Hs 7 f E)); [|reflexivity]. rewrite Hb. by intros ?%elem_of_nil.
Defined.

(** A full submission queue. *)
Lemma full_queue_asserts :
  match run Futures.Valued (fun t => t * t) [ASubmit 7 true true; AConsumer 7 false] (init 2) with
  | Ok _ => None
  | Crash c => Some c
  end = Some AssertFailed.
Proof. vm_compute. reflexivity. Qed.
