(* ===== verification/TaskObjects.v ===== *)
(** * [Task] objects (task.hpp)

    A [Task] owns the frame of its coroutine.  The objects of a program are a store
    from names to handles; [frames] are the coroutine frames that exist. *)

From Stdlib Require Import ZArith Lia.
From stdpp Require Import base numbers gmap option.
From S2P Require Import Prelude.

Local Open Scope Z_scope.

Module TaskObjects.

Record state : Type := mkState { objects : gmap Z (option Z); frames : gset Z }.

Inductive op : Type :=
| Default (o : Z)                  (* Task() *)
| Create (o handle : Z)            (* a call of a coroutine: Task(handle) *)
| MoveConstruct (o other : Z)
| MoveAssign (o other : Z)
| Destroy (o : Z).

Definition set_handle (o : Z) (h : option Z) (s : state) : state :=
  mkState (<[o := h]> (objects s)) (frames s).

(** [handle_.destroy()], when there is a handle. *)
Definition destroy_handle (h : option Z) (s : state) : outcome state :=
  match h with
  | None => Ok s
  | Some h => if decide (h ∈ frames s) then Ok (mkState (objects s) (frames s ∖ {[h]}))
              else Crash UndefinedBehaviour
  end.

(** [std::exchange(other.handle_, nullptr)] *)
Definition take_handle (other : Z) (s : state) : outcome (option Z * state) :=
  h ← deref (objects s !! other);
  Ok (h, set_handle other None s).

Definition step (a : op) (s : state) : outcome state :=
  match a with
  | Default o => Ok (set_handle o None s)
  | Create o handle => Ok (set_handle o (Some handle) (mkState (objects s) ({[handle]} ∪ frames s)))
  | MoveConstruct o other => '(h, s) ← take_handle other s; Ok (set_handle o h s)
  | MoveAssign o other =>
      h ← deref (objects s !! o);
      s ← destroy_handle h s;
      '(h, s) ← take_handle other s;
      Ok (set_handle o h s)
  | Destroy o =>
      h ← deref (objects s !! o);
      s ← destroy_handle h s;
      Ok (mkState (delete o (objects s)) (frames s))
  end.

(** ** Ownership *)

(** Every frame is owned by one object, and every handle is of a frame; [x] is the
    handle of a frame that nobody owns while a member function runs. *)
Record owned (x : option Z) (s : state) : Prop := {
  owned_alive o h : objects s !! o = Some (Some h) -> h ∈ frames s /\ x <> Some h;
  owned_once o1 o2 h :
    objects s !! o1 = Some (Some h) -> objects s !! o2 = Some (Some h) -> o1 = o2;
  owned_free h : x = Some h -> h ∈ frames s;
  owned_all h : h ∈ frames s -> x = Some h \/ exists o, objects s !! o = Some (Some h)
}.

(** What a program may do: the objects it uses exist, those it makes do not, and a
    new coroutine has a frame of its own. *)
Definition allowed (a : op) (s : state) : Prop :=
  match a with
  | Default o => objects s !! o = None
  | Create o handle => objects s !! o = None /\ (handle ∉ frames s)
  | MoveConstruct o other => objects s !! o = None /\ is_Some (objects s !! other)
  | MoveAssign o other => is_Some (objects s !! o) /\ is_Some (objects s !! other)
  | Destroy o => is_Some (objects s !! o)
  end.

(** The object gets the handle at hand, and its own is at hand. *)
Lemma swap_owned x o s :
  owned x s -> owned (mjoin (objects s !! o)) (set_handle o x s).
Proof.
  intros [H1 H2 H3 H4]. split; cbn.
  - intros o' h [[<- ->]|[Hn Ho]]%lookup_insert_Some.
    + split; [by apply H3|]. intros E. destruct (objects s !! o) as [h'|] eqn:Ho; [|done].
      cbn in E. subst h'. by destruct (H1 o h Ho).
    + destruct (H1 o' h Ho) as [Hin _]. split; [done|]. intros E.
      destruct (objects s !! o) as [h'|] eqn:Ho'; [|done]. cbn in E. subst h'.
      by apply Hn, (H2 o o' h).
  - intros o1 o2 h [[<- ->]|[Hn1 Ho1]]%lookup_insert_Some [[<- Hp]|[Hn2 Ho2]]%lookup_insert_Some;
      [done| | |by eapply H2].
    + by destruct (H1 o2 h Ho2).
    + by destruct (H1 o1 h Ho1).
  - intros h E. destruct (objects s !! o) as [h'|] eqn:Ho; [|done]. cbn in E. subst h'.
    by destruct (H1 o h Ho).
  - intros h [->|[o' Ho']]%H4; [right; exists o; by rewrite lookup_insert_eq|].
    destruct (decide (o = o')) as [<-|Hn]; [left; by rewrite Ho'|].
    right. exists o'. by rewrite lookup_insert_ne.
Qed.

Lemma destroy_handle_ok x s :
  owned x s -> exists s', destroy_handle x s = Ok s' /\ owned None s' /\ objects s' = objects s.
Proof.
  intros [H1 H2 H3 H4]. destruct x as [h|]; [|by exists s]. cbn.
  rewrite decide_True by by apply H3. eexists. split; [done|]. split; [|done]. split; cbn.
  - intros o h' Ho. destruct (H1 o h' Ho) as [Hin Hne]. split; [set_solver|done].
  - done.
  - done.
  - intros h' [Hin Hn]%elem_of_difference. destruct (H4 h' Hin) as [E|?]; [set_solver|by right].
Qed.

Lemma take_handle_ok other s :
  owned None s -> is_Some (objects s !! other) ->
  exists h s', take_handle other s = Ok (h, s') /\ owned h s' /\ s' = set_handle other None s.
Proof.
  intros Hs [h Ho]. unfold take_handle. rewrite Ho. exists h, (set_handle other None s).
  split; [done|]. split; [|done]. pose proof (swap_owned None other s Hs) as H. by rewrite Ho in H.
Qed.

Lemma put_ok o h s : owned h s -> objects s !! o = None \/ objects s !! o = Some None ->
  owned None (set_handle o h s).
Proof. intros Hs Ho. pose proof (swap_owned h o s Hs) as H. by destruct Ho as [Ho|Ho]; rewrite Ho in H. Qed.

(** Destroying the frame of [o], which keeps the handle until it gets another. *)
Lemma destroy_own o h s :
  owned None s -> objects s !! o = Some h ->
  exists s', destroy_handle h s = Ok s' /\ objects s' = objects s /\
    owned None (mkState (<[o := None]> (objects s)) (frames s')) /\
    owned None (mkState (delete o (objects s)) (frames s')).
Proof.
  intros Hs Ho. pose proof (swap_owned None o s Hs) as H. rewrite Ho in H.
  destruct (destroy_handle_ok _ _ H) as (s1 & Hd & Hs1 & Hob). cbn in Hob.
  assert (exists s', destroy_handle h s = Ok s' /\ objects s' = objects s /\ frames s' = frames s1)
    as (s' & Hd' & Hob' & Hfr).
  { destruct h as [h|]; cbn in Hd |- *; [|by injection Hd as <-; exists s].
    destruct (decide _); [|done]. injection Hd as <-. by eexists. }
  exists s'. rewrite Hfr. split; [done|]. split; [done|].
  assert (mkState (<[o := None]> (objects s)) (frames s1) = s1) as -> by (destruct s1; cbn in *; by rewrite Hob).
  split; [done|]. destruct Hs1 as [H1 H2 H3 H4]. rewrite Hob in *. split; cbn.
  - intros o' h' [Hn Ho']%lookup_delete_Some. apply (H1 o'). by rewrite lookup_insert_ne.
  - intros o1 o2 h' [Hn1 Ho1]%lookup_delete_Some [Hn2 Ho2]%lookup_delete_Some.
    apply (H2 o1 o2 h'); by rewrite lookup_insert_ne.
  - done.
  - intros h' [?|[o' [[_ ?]|[Hn Ho']]%lookup_insert_Some]]%H4; [by left|done|].
    right. exists o'. by rewrite lookup_delete_ne.
Qed.

(** C30: [Task] objects own their coroutines' frames: construction, moves, assignment
    and destruction never destroy a frame twice, use one that is gone or lose one -
    except that assigning a task that has a coroutine to itself destroys the
    coroutine and keeps the handle, so that the task's destructor is undefined. *)
Theorem task_ownership a s :
  owned None s -> allowed a s ->
  match a with
  | MoveAssign o other =>
      if decide (o = other) then
        forall h, objects s !! o = Some (Some h) -> exists s', step a s = Ok s' /\
          objects s' !! o = Some (Some h) /\ (h ∉ frames s') /\
          step (Destroy o) s' = Crash UndefinedBehaviour
      else exists s', step a s = Ok s' /\ owned None s'
  | _ => exists s', step a s = Ok s' /\ owned None s'
  end.
Proof.
  intros Hs Ha. destruct a as [o|o h|o o'|o o'|o]; cbn [step allowed] in *.
  - eexists. split; [done|]. apply put_ok; [done|by left].
  - destruct Ha as [Ho Hh]. eexists. split; [done|]. apply put_ok; [|by left].
    destruct Hs as [H1 H2 H3 H4]. split; cbn; [|done|set_solver|].
    + intros o' h' Ho'. destruct (H1 o' h' Ho') as [Hin _]. split; [set_solver|].
      intros [= <-]. done.
    + intros h' [->%elem_of_singleton|[?|?]%H4]%elem_of_union; [by left|done|by right].
  - destruct Ha as [Ho Ho']. destruct (take_handle_ok o' s Hs Ho') as (h & s' & -> & Hs' & ->).
    cbn [mbind outcome_bind]. eexists. split; [done|]. apply put_ok; [done|].
    cbn. destruct (decide (o' = o)) as [->|Hn]; [right; by rewrite lookup_insert_eq|].
    left. by rewrite lookup_insert_ne.
  - destruct Ha as [[h Ho] Ho']. destruct (decide (o = o')) as [->|Hn].
    + intros h' E. rewrite E in Ho. injection Ho as <-. rewrite E. cbn [deref mbind outcome_bind].
      destruct (owned_alive None s Hs o' h' E) as [Hin _]. cbn [destroy_handle].
      rewrite decide_True by done. cbn [mbind outcome_bind]. unfold take_handle. cbn [objects].
      rewrite E. cbn [deref mbind outcome_bind]. eexists. split; [done|]. cbn [set_handle objects frames].
      rewrite lookup_insert_eq. split; [done|]. split; [set_solver|].
      cbn [deref mbind outcome_bind destroy_handle frames]. by rewrite decide_False by set_solver.
    + rewrite Ho. cbn [deref mbind outcome_bind].
      destruct (destroy_own o h s Hs Ho) as (s1 & -> & Hob & Hs1 & _). cbn [mbind outcome_bind].
      unfold take_handle. rewrite Hob. destruct Ho' as [h' Ho']. rewrite Ho'.
      cbn [deref mbind outcome_bind]. eexists. split; [done|].
      pose proof (swap_owned None o' _ Hs1) as Hs2. cbn [objects] in Hs2.
      rewrite lookup_insert_ne, Ho' in Hs2 by done. pose proof (put_ok o _ _ Hs2) as Hs3.
      unfold set_handle in *. cbn in *. rewrite Hob.
      rewrite (insert_insert_ne (objects s)) in Hs3 by done. rewrite insert_insert_eq in Hs3.
      apply Hs3. rewrite lookup_insert_eq. by right.
  - destruct Ha as [h Ho]. rewrite Ho. cbn [deref mbind outcome_bind].
    destruct (destroy_own o h s Hs Ho) as (s1 & -> & Hob & _ & Hs1). cbn [mbind outcome_bind].
    rewrite Hob. by eexists.
Qed.

(** Two tasks, one moved into the other. *)
Definition two_tasks : state := mkState {[1 := Some 10; 2 := Some 20]} {[10; 20]}.

Lemma two_tasks_handles o h :
  objects two_tasks !! o = Some (Some h) -> (o = 1 /\ h = 10) \/ (o = 2 /\ h = 20).
Proof.
  cbn. intros [[<- [= <-]]|[_ [<- [= <-]]%lookup_singleton_Some]]%lookup_insert_Some; auto.
Qed.

Lemma two_tasks_owned : owned None two_tasks.
Proof.
  split.
  - intros o h [[_ ->]|[_ ->]]%two_tasks_handles; split; try done; unfold two_tasks; set_solver.
  - intros o1 o2 h [[-> ->]|[-> ->]]%two_tasks_handles [[-> ?]|[-> ?]]%two_tasks_handles; done.
  - done.
  - intros h [->%elem_of_singleton| ->%elem_of_singleton]%elem_of_union; right; [by exists 1|by exists 2].
Qed.

Lemma task_ownership_witness :
  owned None two_tasks /\
  (exists s', step (MoveAssign 1 2) two_tasks = Ok s' /\ owned None s') /\
  exists s', step (MoveAssign 1 1) two_tasks = Ok s' /\
    step (Destroy 1) s' = Crash UndefinedBehaviour.
Proof.
  split; [exact two_tasks_owned|]. split.
  - exact (task_ownership (MoveAssign 1 2) two_tasks two_tasks_owned
      (conj (mk_is_Some _ _ eq_refl) (mk_is_Some _ _ eq_refl))).
  - destruct (task_ownership (MoveAssign 1 1) two_tasks two_tasks_owned
      (conj (mk_is_Some _ _ eq_refl) (mk_is_Some _ _ eq_refl)) 10 eq_refl) as (s' & H1 & _ & _ & H2).
    exists s'. split; [exact H1|exact H2].
Defined.

End TaskObjects.
