(* ===== verification/Messages.v ===== *)
(** * Datagrams: [recvfrom] and [sendto] (ioqueue.cpp, ioqueue.hpp)

    Both make a message header in the frame of their task and prepare an operation
    with its address.  The memory the kernel reads is a store of [iovec]s and
    [msghdr]s. *)

From Stdlib Require Import ZArith Lia.
From stdpp Require Import base numbers list gmap option.
From S2P Require Import Prelude Interfaces Uring Queue.

Local Open Scope Z_scope.

Module Messages.
Import IoQueue.

Record iovec : Type := mkIovec { iov_base : Z; iov_len : Z }.

Record msghdr : Type := mkMsghdr {
  msg_name : Z;
  msg_namelen : Z;
  msg_iov : Z;
  msg_iovlen : Z;
  msg_control : Z;
  msg_controllen : Z;
  msg_flags : Z
}.

Inductive object : Type := Iovec (i : iovec) | Msghdr (m : msghdr).

Abbreviation memory := (gmap Z object).

Definition sizeof_iovec : Z := 16.

(** The members of a [MsgHdr] at address [this]. *)
Definition iov_of (this : Z) : Z := this.
Definition msg_of (this : Z) : Z := this + sizeof_iovec.

(** [MsgHdr::MsgHdr] *)
Definition MsgHdr (this buf len addr addrLen : Z) (m : memory) : memory :=
  let iov := mkIovec buf len in
  let msg := mkMsghdr addr addrLen (iov_of this) 1 0 0 0 in
  <[msg_of this := Msghdr msg]> (<[iov_of this := Iovec iov]> m).

(** [recvfrom] and [sendto] with their header at [this]: the memory when the
    operation is prepared, and the coroutine. *)
Definition recvfrom_buf (this sockfd buf len flags srcAddr addrLen : Z) (m : memory) (k : Z -> prog)
    : memory * prog :=
  (MsgHdr this buf len srcAddr addrLen m, recvfrom sockfd (msg_of this) flags k).

Definition sendto_buf (this sockfd buf len flags destAddr addrLen : Z) (m : memory) (k : Z -> prog)
    : memory * prog :=
  (MsgHdr this buf len destAddr addrLen m, sendto sockfd (msg_of this) flags k).

(** The templates for a [SockAddr] of [size] bytes. *)
Definition recvfrom_sockaddr (this sockfd buf len flags srcAddr size : Z) (m : memory) (k : Z -> prog) :=
  recvfrom_buf this sockfd buf len flags srcAddr size m k.
Definition sendto_sockaddr (this sockfd buf len flags destAddr size : Z) (m : memory) (k : Z -> prog) :=
  sendto_buf this sockfd buf len flags destAddr size m k.

(** ** What the kernel finds at the address it is given *)

Fixpoint iovecs (n : nat) (p : Z) (m : memory) : option (list iovec) :=
  match n with
  | O => Some []
  | S n =>
      match m !! p with
      | Some (Iovec i) => (i ::.) <$> iovecs n (p + sizeof_iovec) m
      | _ => None
      end
  end.

(** The peer's address and its size, and the buffers. *)
Definition message (p : Z) (m : memory) : option (Z * Z * list iovec) :=
  match m !! p with
  | Some (Msghdr h) =>
      iovs ← iovecs (Z.to_nat (msg_iovlen h)) (msg_iov h) m;
      Some (msg_name h, msg_namelen h, iovs)
  | _ => None
  end.

(** The header a task makes stays what it is while other objects come and go. *)
Definition elsewhere (this : Z) (m m' : memory) : Prop :=
  forall p, p = iov_of this \/ p = msg_of this -> m' !! p = m !! p.

Lemma message_MsgHdr this buf len addr addrLen m m' :
  elsewhere this (MsgHdr this buf len addr addrLen m) m' ->
  message (msg_of this) m' = Some (addr, addrLen, [mkIovec buf len]).
Proof.
  intros He. assert (msg_of this <> iov_of this) as Hne by (unfold msg_of, iov_of, sizeof_iovec; lia).
  unfold message. rewrite (He (msg_of this)) by by right. unfold MsgHdr at 1.
  rewrite lookup_insert_eq. cbn [msg_iovlen msg_iov msg_name msg_namelen]. change (Z.to_nat 1) with 1%nat.
  cbn [iovecs]. rewrite (He (iov_of this)) by by left. unfold MsgHdr.
  by rewrite lookup_insert_ne, lookup_insert_eq.
Qed.

(** [recvfrom] and [sendto] prepare one message operation, and whatever else the
    program does with its memory until the kernel looks at it, the kernel finds
    exactly the caller's buffer and address there. *)
Theorem datagram_message this fd buf len flags addr addrLen m k m' :
  let '(m1, p1) := recvfrom_buf this fd buf len flags addr addrLen m k in
  let '(m2, p2) := sendto_buf this fd buf len flags addr addrLen m k in
  elsewhere this m1 m' ->
  p1 = Call (Recvmsg fd (msg_of this) flags) (fun h => Await h k) /\
  p2 = Call (Sendmsg fd (msg_of this) flags) (fun h => Await h k) /\
  m1 = m2 /\ message (msg_of this) m' = Some (addr, addrLen, [mkIovec buf len]).
Proof.
  intros He. split; [done|]. split; [done|]. split; [done|]. by eapply message_MsgHdr.
Qed.

(** A header that is copied still points to the buffer description of the original. *)
Lemma copied_header_dangles this that buf len addr addrLen m :
  (that <> this) -> that <> this - sizeof_iovec -> that <> this + sizeof_iovec ->
  let m1 := MsgHdr this buf len addr addrLen m in
  let m2 := <[msg_of that := Msghdr (mkMsghdr addr addrLen (iov_of this) 1 0 0 0)]>
              (<[iov_of that := Iovec (mkIovec buf len)]> m1) in
  message (msg_of that) (delete (iov_of this) (delete (msg_of this) m2)) = None.
Proof.
  intros H1 H2 H3. unfold message, iov_of, msg_of in *. rewrite !lookup_delete_ne by lia.
  rewrite lookup_insert_eq. cbn [msg_iovlen msg_iov]. change (Z.to_nat 1) with 1%nat.
  cbn [iovecs]. by rewrite lookup_delete_eq.
Qed.

End Messages.
