(* ===== verification/UdpRelays.v ===== *)
(** * What the UDP server echo-udp-coro.cpp sends

    [serve] with its memory: the headers that [recvfrom] and [sendto] make
    ([Messages]), the bytes of the buffer and the peer's address.  The kernel follows
    the header of the operation that is awaited. *)

From Stdlib Require Import ZArith Lia.
From stdpp Require Import base numbers list gmap option functions.
From S2P Require Import Prelude Interfaces Uring Queue Messages Servers Relays.

Local Open Scope Z_scope.

Module UdpRelays.
Import IoQueue Messages.

Abbreviation byte := Byte.byte.

Section Udp.
(** Where a peer's address is [peer]; the addresses of the header, the buffer and
    [clientAddr], all of them locals of coroutines. *)
Context {peer : Type}.
Variables (socket this buf clientAddr : Z).

Definition sizeof_sockaddr_in : Z := 16.
Definition buffer_size : Z := 1024.

Abbreviation datagram := (peer * list byte)%type.

(** What [serve] awaits. *)
Inductive pc : Type := Receiving | Sending.

(** [inbox] has the datagrams that arrived and were not received yet, [outbox] those
    that were sent. *)
Record state : Type := mkState {
  awaited : pc;
  headers : Messages.memory;
  bytes : Z -> byte;
  peers : Z -> option peer;
  inbox : list datagram;
  outbox : list datagram
}.

(** The head of the loop: a new buffer of zeros, and [io.recvfrom]. *)
Definition receive (s : state) : state :=
  mkState Receiving
    (recvfrom_sockaddr this socket buf buffer_size 0 clientAddr sizeof_sockaddr_in (headers s) (fun _ => Ret)).1
    (Relays.store buf (replicate (Z.to_nat buffer_size) Byte.x00) (bytes s)) (peers s) (inbox s) (outbox s).

(** [receiveBuffer.resize] and [io.sendto]. *)
Definition respond (receivedBytes : Z) (s : state) : state :=
  mkState Sending
    (sendto_sockaddr this socket buf receivedBytes 0 clientAddr sizeof_sockaddr_in (headers s) (fun _ => Ret)).1
    (bytes s) (peers s) (inbox s) (outbox s).

(** The coroutine is resumed with [r]. *)
Definition resume (r : Z) (s : state) : state :=
  match awaited s with
  | Receiving => if r <? 0 then receive s else respond r s
  | Sending => receive s
  end.

(** ** The kernel *)

(** The operation completes with [r]; [None] when that cannot be. *)
Definition complete (r : Z) (s : state) : option state :=
  if r <? 0 then Some s
  else
    '(name, _, iovs) ← message (msg_of this) (headers s);
    match iovs with
    | [iov] =>
        match awaited s with
        | Receiving =>
            match inbox s with
            | (p, d) :: inbox =>
                if r =? Z.min (iov_len iov) (Z.of_nat (length d)) then
                  Some (mkState (awaited s) (headers s)
                    (Relays.store (iov_base iov) (take (Z.to_nat r) d) (bytes s))
                    (<[name := Some p]> (peers s)) inbox (outbox s))
                else None
            | [] => None
            end
        | Sending =>
            if r =? iov_len iov then
              p ← peers s name;
              Some (mkState (awaited s) (headers s) (bytes s) (peers s) (inbox s)
                (outbox s ++ [(p, Relays.fetch (iov_base iov) (iov_len iov) (bytes s))]))
            else None
        end
    | _ => None
    end.

(** The operations complete with [rs], one after the other. *)
Fixpoint run (rs : list Z) (s : state) : option state :=
  match rs with
  | [] => Some s
  | r :: rs => s ← complete r s; run rs (resume r s)
  end.

Definition start (ds : list datagram) : state :=
  receive (mkState Receiving ∅ (fun _ => Byte.x00) (fun _ => None) ds []).

(** ** What is sent *)

(** The answer to a datagram: as much of it as the buffer holds. *)
Definition answer (d : datagram) : datagram := (d.1, take 1024 d.2).

(** All of [taken] was answered, if [all] went well, but for the last when the server
    is about to answer it. *)
Definition answered (all : Prop) (taken : list datagram) (s : state) : Prop :=
  outbox s `sublist_of` (answer <$> taken) /\ (all -> outbox s = answer <$> taken).

Definition Inv (all : Prop) (ds : list datagram) (s : state) : Prop :=
  exists taken, ds = taken ++ inbox s /\
  match awaited s with
  | Receiving => answered all taken s /\
      message (msg_of this) (headers s) = Some (clientAddr, sizeof_sockaddr_in, [mkIovec buf buffer_size])
  | Sending => exists before d n, taken = before ++ [d] /\ answered all before s /\
      message (msg_of this) (headers s) = Some (clientAddr, sizeof_sockaddr_in, [mkIovec buf n]) /\
      peers s clientAddr = Some d.1 /\ Relays.fetch buf n (bytes s) = take 1024 d.2
  end.

Lemma receive_inv all ds taken s :
  ds = taken ++ inbox s -> answered all taken s -> Inv all ds (receive s).
Proof.
  intros Hds Ha. exists taken. split; [done|]. split; [done|]. cbn. by apply (message_MsgHdr this buf buffer_size clientAddr sizeof_sockaddr_in (headers s)).
Qed.

Lemma answered_less (all all' : Prop) taken taken' s :
  answered all taken s -> taken `sublist_of` taken' -> (all' -> all /\ taken = taken') -> answered all' taken' s.
Proof.
  intros [Hs Ha] Ht Hall. split; [etransitivity; [exact Hs|by apply fmap_sublist]|].
  intros [H <-]%Hall. by apply Ha.
Qed.

(** One completion, and the coroutine's step. *)
Lemma udp_step_inv all ds r s s1 :
  Inv all ds s -> complete r s = Some s1 -> Inv (all /\ 0 <= r) ds (resume r s1).
Proof.
  intros (taken & Hds & HI) Hc. unfold complete in Hc. destruct (Z.ltb_spec r 0) as [Hr|Hr].
  - injection Hc as ->. unfold resume. destruct (awaited s1) eqn:Hp.
    + rewrite (proj2 (Z.ltb_lt r 0)) by done. destruct HI as [Ha _].
      apply (receive_inv _ _ taken); [done|]. apply (answered_less all _ taken); [done|done|lia].
    + destruct HI as (before & d & n & -> & Ha & _).
      apply (receive_inv _ _ (before ++ [d])); [done|].
      apply (answered_less all _ before); [done|by apply sublist_inserts_r|lia].
  - destruct (awaited s) eqn:Hp.
    + destruct HI as [Ha Hm]. rewrite Hm in Hc. cbn [mbind option_bind iov_len iov_base] in Hc.
      destruct (inbox s) as [|[p d] rest] eqn:Hi; [done|].
      destruct (Z.eqb_spec r (Z.min buffer_size (Z.of_nat (length d)))) as [Hrl|]; [|done].
      injection Hc as <-. unfold resume. cbn [awaited].
      rewrite (proj2 (Z.ltb_ge r 0)) by done. exists (taken ++ [(p, d)]). cbn [respond inbox awaited].
      split; [by rewrite Hds, <- app_assoc|]. exists taken, (p, d), r. split; [done|].
      split; [apply (answered_less all _ taken); [done|done|tauto]|].
      split; [by apply (message_MsgHdr this buf r clientAddr sizeof_sockaddr_in (headers s))|]. split; [cbn; by rewrite fn_lookup_insert|].
      cbn [bytes respond snd]. unfold buffer_size in *.
      assert (take (Z.to_nat r) d = take 1024 d) as ->.
      { destruct (decide (length d <= 1024)%nat).
        - rewrite (take_ge d 1024), take_ge by lia. done.
        - f_equal. lia. }
      replace r with (Z.of_nat (length (take 1024 d))) by (rewrite length_take; lia).
      apply Relays.fetch_store.
    + destruct HI as (before & d & n & -> & [Hs Ha] & Hm & Hpe & Hf).
      rewrite Hm in Hc. cbn [mbind option_bind iov_len iov_base] in Hc.
      destruct (r =? n); [|done]. rewrite Hpe in Hc. cbn [option_bind] in Hc. injection Hc as <-.
      unfold resume. cbn [awaited]. apply (receive_inv _ _ (before ++ [d])); [done|].
      cbn [outbox answered]. rewrite Hf. unfold answered. cbn [outbox]. rewrite fmap_app. cbn.
      split; [by apply sublist_app|]. intros [Hall _]. by rewrite Ha.
Qed.

Lemma Inv_less (all all' : Prop) ds s : Inv all ds s -> (all' -> all) -> Inv all' ds s.
Proof.
  intros (taken & Hds & HI) Hall. exists taken. split; [done|]. destruct (awaited s).
  - destruct HI as [Ha Hm]. split; [|done]. by apply (answered_less all _ taken); [| |auto].
  - destruct HI as (before & d & n & H1 & Ha & H2). exists before, d, n. split; [done|].
    split; [|done]. by apply (answered_less all _ before); [| |auto].
Qed.

Lemma udp_run_inv rs : forall all ds s s',
  Inv all ds s -> run rs s = Some s' -> Inv (all /\ Forall (Z.le 0) rs) ds s'.
Proof.
  induction rs as [|r rs IH]; intros all ds s s' HI Hr; cbn [run] in Hr.
  - injection Hr as <-. apply (Inv_less all); [done|tauto].
  - destruct (complete r s) as [s1|] eqn:Hc; [|done]. cbn in Hr.
    apply (Inv_less ((all /\ 0 <= r) /\ Forall (Z.le 0) rs)).
    + by apply (IH _ ds _ s' (udp_step_inv all ds r s s1 HI Hc)).
    + rewrite list.Forall_cons. tauto.
Qed.

(** The operations are those of the coroutine. *)
Fixpoint awaits (rs : list Z) (s : state) : list call :=
  let c := match awaited s with
           | Receiving => Recvmsg socket (msg_of this) 0
           | Sending => Sendmsg socket (msg_of this) 0
           end in
  match rs with
  | [] => [c]
  | r :: rs => c :: awaits rs (resume r s)
  end.

(** What is left of [serve]. *)
Definition program (rounds : nat) (s : state) : prog :=
  match awaited s with
  | Receiving => Servers.serve_udp (S rounds) socket (msg_of this)
  | Sending => sendto socket (msg_of this) 0 (fun _ => Servers.serve_udp rounds socket (msg_of this))
  end.

Lemma awaits_calls rs : forall rounds id s, (length rs <= rounds)%nat ->
  awaits rs s = (Servers.calls (program rounds s) rs id).1.
Proof.
  induction rs as [|r rs IH]; intros rounds id s Hl; cbn [length] in Hl; [by unfold program; cbn; destruct (awaited s)|].
  destruct rounds as [|rounds]; [lia|]. cbn [awaits].
  assert (Hnext : forall n, (length rs <= n)%nat -> forall c,
    (c :: awaits rs (resume r s)) =
    (let '(cs, p) := Servers.calls (program n (resume r s)) rs (id + 1) in (c :: cs, p)).1).
  { intros n Hn c. rewrite (IH n (id + 1)) by done. by destruct (Servers.calls _ rs (id + 1)). }
  unfold program at 1. unfold resume in *. destruct (awaited s).
  - destruct (r <? 0) eqn:Hr.
    + rewrite (Hnext rounds) by lia. cbn [Servers.serve_udp recvfrom Servers.calls]. by rewrite Hr.
    + rewrite (Hnext (S rounds)) by lia. cbn [Servers.serve_udp recvfrom Servers.calls]. by rewrite Hr.
  - rewrite (Hnext rounds) by lia. done.
Qed.

(** C23: The UDP server echoes: along the operations of its coroutine, whatever their
    results, each datagram it has sent goes back to where one came from that it
    received and holds the first 1024 bytes of it, in order; each received one is
    answered once at most, and once unless an operation failed. *)
Theorem udp_server_echoes ds rs s rounds :
  run rs (start ds) = Some s -> (length rs <= rounds)%nat ->
  awaits rs (start ds) = (Servers.calls (Servers.serve_udp (S rounds) socket (msg_of this)) rs 0).1 /\
  exists taken, ds = taken ++ inbox s /\ outbox s `sublist_of` (answer <$> taken) /\
    (Forall (Z.le 0) rs -> awaited s = Receiving -> outbox s = answer <$> taken).
Proof.
  intros Hr Hn. split; [by apply (awaits_calls rs rounds 0 (start ds))|].
  assert (Inv True ds (start ds)) as H0.
  { apply (receive_inv True ds []); [done|]. split; [apply sublist_nil|done]. }
  destruct (udp_run_inv rs True ds (start ds) s H0 Hr) as (taken & Hds & HI).
  exists taken. split; [done|]. destruct (awaited s) eqn:Hp.
  - destruct HI as [[Hs Ha] _]. split; [done|]. auto.
  - destruct HI as (before & d & n & -> & [Hs _] & _). split; [|done].
    rewrite fmap_app. by apply sublist_inserts_r.
Qed.

End Udp.
End UdpRelays.

(** ** A concrete execution *)

Import UdpRelays.

(** Two peers; receiving fails once, and the second datagram is being answered. *)
Definition two_datagrams : list (Z * list Byte.byte) :=
  [(1, [Byte.x61; Byte.x62; Byte.x63]); (2, [Byte.x64; Byte.x65])].

Definition results : list Z := [3; 3; -104; 2].

Definition sent_datagrams (o : option (state (peer := Z))) : option (list (Z * list Byte.byte)) :=
  outbox <$> o.

Lemma first_sent :
  sent_datagrams (run 7 4096 8192 16384 results (start 7 4096 8192 16384 two_datagrams)) =
    Some [(1, [Byte.x61; Byte.x62; Byte.x63])].
Proof. vm_compute. reflexivity. Qed.

Lemma udp_server_echoes_witness :
  exists s taken, run 7 4096 8192 16384 results (start 7 4096 8192 16384 two_datagrams) = Some s /\
    outbox s = [(1, [Byte.x61; Byte.x62; Byte.x63])] /\
    two_datagrams = taken ++ inbox s /\ outbox s `sublist_of` (answer <$> taken).
Proof.
  pose proof first_sent as H. pose proof (udp_server_echoes 7 4096 8192 16384 two_datagrams results) as Hs.
  destruct (run 7 4096 8192 16384 results (start 7 4096 8192 16384 two_datagrams)) as [s|]; [|discriminate H].
  injection H as H.
  destruct (Hs s 4%nat eq_refl ltac:(cbn; lia)) as (_ & taken & Hds & Hsub & _).
  exists s, taken. split; [reflexivity|]. split; [exact H|]. split; [exact Hds|exact Hsub].
Defined.
