(* ===== verification/Net.v ===== *)
(** * Name resolution: the function that [resolve] runs in the thread pool (net.cpp)

    [getaddrinfo] is a parameter: it returns an error or a linked list of results,
    which is a store of nodes here.  What becomes of the function's result is the
    matter of [Submits.v]. *)

From Stdlib Require Import ZArith Lia.
From stdpp Require Import base numbers list gmap option.
From S2P Require Import Prelude Addresses.

Local Open Scope Z_scope.

(** [sin_addr]: the address in the [sockaddr_in] that [ai_addr] points to. *)
Record addrinfo : Type := mkAddrinfo { ai_addrlen : Z; sin_addr : Z; ai_next : Z }.

(** A call of [getaddrinfo] for IPv4 stream sockets: the error code, the first node
    and the nodes allocated. *)
Class Resolver := getaddrinfo : str -> Z * Z * gmap Z addrinfo.

(** [p] is the head of a list of nodes that ends in a null pointer. *)
Fixpoint linked (nodes : gmap Z addrinfo) (p : Z) (l : list addrinfo) : Prop :=
  match l with
  | [] => p = 0
  | ai :: l => p <> 0 /\ nodes !! p = Some ai /\ linked nodes (ai_next ai) l
  end.

Class ResolverSpec {resolver : Resolver} :=
  getaddrinfo_spec name :
    let '(res, result, nodes) := getaddrinfo name in
    res = 0 -> exists l, linked nodes result l.

Module Net.
Section Net.
Context {resolver : Resolver}.

Definition sizeof_sockaddr_in : Z := 16.

(** The loop over the results; [None] when [fuel] did not suffice. *)
Fixpoint collect (fuel : nat) (nodes : gmap Z addrinfo) (ai : Z) (addrs : list IpAddress.IpAddress)
    : outcome (option (list IpAddress.IpAddress)) :=
  if ai =? 0 then Ok (Some addrs)
  else
    match fuel with
    | O => Ok None
    | S fuel =>
        node ← deref (nodes !! ai);
        let addrs :=
          if ai_addrlen node =? sizeof_sockaddr_in
          then addrs ++ [IpAddress.mkIpAddress (sin_addr node)] else addrs in
        collect fuel nodes (ai_next node) addrs
    end.

(** The function that [resolve] hands to [wrapAsTask]. *)
Definition resolve_name (name : str) : outcome (option (list IpAddress.IpAddress)) :=
  let '(res, result, nodes) := getaddrinfo (c_str name) in
  if negb (res =? 0) then Ok (Some [])
  else collect (size nodes) nodes result [].

Context {spec : ResolverSpec}.

Definition addresses (l : list addrinfo) : list IpAddress.IpAddress :=
  omap (fun ai => if ai_addrlen ai =? sizeof_sockaddr_in
                  then Some (IpAddress.mkIpAddress (sin_addr ai)) else None) l.

Lemma collect_linked fuel nodes l : forall p addrs,
  linked nodes p l -> (length l <= fuel)%nat ->
  collect fuel nodes p addrs = Ok (Some (addrs ++ addresses l)).
Proof.
  revert fuel. induction l as [|ai l IH]; intros fuel p addrs Hl Hfuel; cbn [linked length] in *.
  - subst p. destruct fuel; cbn; by rewrite app_nil_r.
  - destruct Hl as (Hp & Hn & Hl). destruct fuel as [|fuel]; [lia|]. cbn [collect].
    rewrite (proj2 (Z.eqb_neq p 0) Hp), Hn. cbn [deref mbind outcome_bind].
    rewrite IH by (done || lia). unfold addresses. cbn.
    destruct (ai_addrlen ai =? sizeof_sockaddr_in); [|done]. by rewrite <- app_assoc.
Qed.

(** The rest of a list from one of its nodes on is determined by the node. *)
Lemma linked_same nodes p l1 : forall l2, linked nodes p l1 -> linked nodes p l2 -> l1 = l2.
Proof.
  revert p. induction l1 as [|a l1 IH]; intros p [|b l2]; cbn; try done.
  - by intros -> [? _].
  - by intros [? _] ->.
  - intros (_ & Ha & H1) (_ & Hb & H2). assert (a = b) as -> by congruence.
    f_equal. by eapply IH.
Qed.

(** A list that ends has no more nodes than there are. *)
Lemma linked_length nodes l : forall p, linked nodes p l -> (length l <= size nodes)%nat.
Proof.
  revert nodes. induction l as [|ai l IH]; intros nodes p Hl; [cbn; lia|].
  destruct Hl as (Hp & Hn & Hl).
  assert (forall q l', linked nodes q l' -> (length l' <= length l)%nat ->
    linked (delete p nodes) q l') as Hdel.
  { intros q l'. revert q. induction l' as [|b l' IH']; intros q; cbn; [done|].
    intros (Hq & Hb & Hl') Hle. split; [done|]. destruct (decide (p = q)) as [->|Hne].
    - assert (b = ai) as -> by congruence. rewrite (linked_same _ _ _ _ Hl Hl') in Hle. lia.
    - rewrite lookup_delete_ne by done. split; [done|]. apply IH'; [done|lia]. }
  specialize (IH (delete p nodes) (ai_next ai) (Hdel _ _ Hl (le_n _))).
  rewrite map_size_delete_Some in IH by done.
  assert (size nodes <> 0%nat) by (intros H0%map_size_empty_inv; by rewrite H0 in Hn).
  cbn [length]. lia.
Qed.

(** Resolving a name comes to an end, without following a null pointer, and gives the
    IPv4 addresses of the results in their order, or nothing if there was an error. *)
Theorem resolve_addresses name :
  let '(res, result, nodes) := getaddrinfo (c_str name) in
  exists l, (res = 0 -> linked nodes result l) /\
    resolve_name name = Ok (Some (if res =? 0 then addresses l else [])).
Proof.
  unfold resolve_name. pose proof (getaddrinfo_spec (c_str name)) as H.
  destruct (getaddrinfo (c_str name)) as [[res result] nodes].
  destruct (Z.eqb_spec res 0) as [Hr|Hr]; cbn [negb].
  - destruct (H Hr) as [l Hl]. exists l. split; [done|].
    by rewrite (collect_linked _ _ l) by (done || by eapply linked_length).
  - by exists [].
Qed.

End Net.
End Net.
