(* ===== verification/Resolves.v ===== *)
(** * Name resolution on the thread pool (net.cpp with examples/resolve.cpp)

    [resolve] hands its function ([Net]) to [wrapAsTask], which submits it to the pool
    and awaits the future ([Submits]).  A vector moves from the function through the
    promise to the coroutine; it goes by the name of its submission. *)

From Stdlib Require Import ZArith Lia.
From stdpp Require Import base numbers list gmap option.
From S2P Require Import Prelude Addresses EventFds Futures Pool Submits Net.

Local Open Scope Z_scope.

Module Resolves.

Section Resolves.
Context {calls : EventfdCalls} {spec : EventfdSpec} {inet : Inet} {resolver : Resolver}.
(** The name that [start] resolves. *)
Variable name : str.

(** The submission of [start], and the vectors' names. *)
Definition submission : Z := 0.
Definition vector (t : Z) : Z := t.

(** [shown]: what [start] has printed, once it has. *)
Record state : Type := mkState {
  pool : Submits.state;
  shown : option (list str)
}.

Definition init (numThreads : nat) : state := mkState (Submits.init numThreads) None.

Inductive action : Type :=
| AResolve (fd : bool)           (* [start] calls [resolve]; a descriptor is left *)
| APool (a : Submits.action)     (* the pool, the worker and [wrapAsTask] *)
| AStart.                        (* [start] is resumed *)

(** What the function of [submission] returned. *)
Definition addresses_of (v : Z) : outcome (list IpAddress.IpAddress) :=
  o ← (if decide (v = vector submission) then Net.resolve_name name else Crash UndefinedBehaviour);
  deref o.

Definition start_step (s : state) : outcome state :=
  match Futures.consumer <$> Submits.futures (pool s) !! submission, shown s with
  | Some (Futures.CDone w), None =>
      v ← deref w;
      res ← addresses_of v;
      Ok (mkState (pool s) (Some (IpAddress.toString <$> res)))
  | _, _ => Ok s
  end.

Definition pool_step (a : Submits.action) (s : state) : outcome state :=
  p ← Submits.step Futures.Valued vector a (pool s); Ok (mkState p (shown s)).

Definition step (a : action) (s : state) : outcome state :=
  match a with
  | AResolve fd => pool_step (Submits.ASubmit submission true fd) s
  | APool a => pool_step a s
  | AStart => start_step s
  end.

Fixpoint run (acts : list action) (s : state) : outcome state :=
  match acts with
  | [] => Ok s
  | a :: acts => s ← step a s; run acts s
  end.

(** ** The output *)

Context {resolver_spec : ResolverSpec}.

(** What is to be printed: the IPv4 addresses the resolver reports, in its order, and
    nothing when it reports an error. *)
Definition to_print (out : list str) : Prop :=
  let '(res, result, nodes) := getaddrinfo (c_str name) in
  exists l, (res = 0 -> linked nodes result l) /\
    out = IpAddress.toString <$> (if res =? 0 then Net.addresses l else []).

Definition Inv (s : state) : Prop :=
  Submits.Inv Futures.Valued vector (pool s) /\ forall out, shown s = Some out -> to_print out.

Lemma start_prints :
  exists res, addresses_of (vector submission) = Ok res /\ to_print (IpAddress.toString <$> res).
Proof.
  unfold addresses_of, to_print. rewrite decide_True by done.
  pose proof (Net.resolve_addresses name) as H.
  destruct (getaddrinfo (c_str name)) as [[res result] nodes]. destruct H as (l & Hl & ->).
  cbn. eexists. split; [done|]. by exists l.
Qed.

Lemma resumed_start_inv s : Inv s -> exists s', start_step s = Ok s' /\ Inv s' /\
  (forall w, Futures.consumer <$> Submits.futures (pool s) !! submission = Some (Futures.CDone w) ->
     shown s' <> None).
Proof.
  intros HI0. pose proof HI0 as [HI Hs]. unfold start_step.
  destruct (Submits.futures (pool s) !! submission) as [f|] eqn:Hf; cbn;
    [|exists s; split; [done|]; split; [exact HI0|by intros]].
  destruct (Futures.consumer f) as [| |x| | | | | |w] eqn:Hc; 
    try (exists s; split; [done|]; split; [exact HI0|by intros]).
  destruct (shown s) as [out|] eqn:Hout; [exists s; split; [done|]; split; [exact HI0|by rewrite Hout]|].
  destruct (Futures.inv_done _ _ _ (Submits.inv_future _ _ _ HI submission f Hf) w Hc) as [_ ->].
  cbn. destruct start_prints as (res & -> & Hp). cbn. eexists. split; [done|].
  split; [|done]. split; [done|]. by intros out [= <-].
Qed.

(** The step of the pool that a step is, if any. *)
Definition pool_action (a : action) : option Submits.action :=
  match a with
  | AResolve fd => Some (Submits.ASubmit submission true fd)
  | APool a => Some a
  | AStart => None
  end.

Definition errno_range (a : action) : Prop :=
  match pool_action a with Some a => Submits.errno_range a | None => True end.

Lemma resolves_step_inv a s :
  Inv s -> errno_range a ->
  match step a s with
  | Ok s' => Inv s'
  | Crash c => Submits.excused c (option_list (pool_action a))
  end.
Proof.
  intros HI He.
  assert (Hpool : forall b, Submits.errno_range b ->
    match pool_step b s with Ok s' => Inv s' | Crash c => Submits.excused c [b] end).
  { intros b Hb. unfold pool_step. destruct HI as [HI Hs].
    pose proof (Submits.submits_step_inv Futures.Valued vector b (pool s) HI Hb) as H.
    by destruct (Submits.step Futures.Valued vector b (pool s)). }
  destruct a as [fd|b|]; cbn [step]; [by apply Hpool..|].
  by destruct (resumed_start_inv s HI) as (s' & -> & HI' & _).
Qed.

Lemma resolves_run_inv acts : forall s,
  Inv s -> Forall errno_range acts ->
  match run acts s with
  | Ok s' => Inv s'
  | Crash c => Submits.excused c (omap pool_action acts)
  end.
Proof.
  induction acts as [|a acts IH]; intros s HI He; [done|]. cbn [run].
  apply Forall_cons_1 in He as [Ha He]. pose proof (resolves_step_inv a s HI Ha) as H.
  destruct (step a s) as [s1|c]; cbn [mbind outcome_bind].
  - specialize (IH s1 H He). destruct (run acts s1); [done|].
    destruct a; cbn; [by apply Submits.excused_more..|done].
  - destruct a; cbn in *; [by apply Submits.excused_one..|].
    destruct H as [[_ ?]|[-> [?|?]]]; [done..|]. right. by auto.
Qed.

(** Steps of the pool alone, in the state of the whole. *)
Lemma pool_runs acts : forall s p,
  Submits.run Futures.Valued vector acts (pool s) = Ok p ->
  run (APool <$> acts) s = Ok (mkState p (shown s)).
Proof.
  induction acts as [|a acts IH]; intros s p; cbn; [intros [= <-]; by destruct s|].
  intros (p1 & H1 & Hr)%outcome_bind_Ok. unfold pool_step. rewrite H1. cbn [mbind outcome_bind].
  by apply (IH (mkState p1 (shown s))).
Qed.

Lemma resolves_run_app acts1 acts2 s :
  run (acts1 ++ acts2) s = (s1 ← run acts1 s; run acts2 s1).
Proof.
  revert s. induction acts1 as [|a acts1 IH]; intros s; [done|]. cbn.
  destruct (step a s); [apply IH|done].
Qed.

(** C20: resolve.cpp prints the addresses: under every interleaving with the pool's
    workers [start] prints nothing but the IPv4 addresses [getaddrinfo] reports, in its
    order; and as soon as its task is neither queued nor being executed, it prints them
    after at most four steps of the future and its own, whatever entries the submission
    queue has left.  The program aborts only after a read of the eventfd that failed,
    and an assertion fails only where no descriptor is left for the eventfd or no entry
    in the submission queue. *)
Theorem resolve_prints numThreads acts :
  Forall errno_range acts ->
  match run acts (init numThreads) with
  | Ok s => (forall out, shown s = Some out -> to_print out) /\
      (is_Some (Submits.futures (pool s) !! submission) ->
       (submission ∉ Submits.busy (Submits.pool (pool s))) -> forall entry,
       exists n s' out, (n <= 4)%nat /\
         run (replicate n (APool (Submits.AConsumer submission entry)) ++ [AStart]) s = Ok s' /\
         shown s' = Some out /\ to_print out)
  | Crash c => Submits.excused c (omap pool_action acts)
  end.
Proof.
  intros He. assert (Inv (init numThreads)) as H0 by (split; [apply Submits.submits_init_inv|done]).
  pose proof (resolves_run_inv acts _ H0 He) as HI. destruct (run acts (init numThreads)) as [s|c]; [|done].
  split; [apply HI|]. intros [f Hf] Hb entry.
  destruct (Submits.task_delivers _ _ _ f entry _ (proj1 HI) Hf Hb eq_refl) as (n & p & f' & Hn & Hp & Hf' & Hc).
  pose proof (pool_runs _ s p Hp) as Hr. rewrite fmap_replicate in Hr.
  pose proof (resolves_run_inv (replicate n (APool (Submits.AConsumer submission entry))) s HI) as HI1.
  rewrite Hr in HI1. specialize (HI1 ltac:(by apply Forall_replicate)).
  destruct (resumed_start_inv _ HI1) as (s2 & Hr2 & HI2 & Hsh). cbn [pool] in Hsh. rewrite Hf' in Hsh.
  cbn in Hsh. rewrite Hc in Hsh. destruct (shown s2) as [out|] eqn:Hout; [|by destruct (Hsh _ eq_refl)].
  exists n, s2, out. split; [done|]. rewrite resolves_run_app, Hr. cbn. rewrite Hr2.
  split; [done|]. split; [done|]. by apply HI2.
Qed.

End Resolves.
End Resolves.

(** ** A concrete execution *)

Import Resolves SimEventfd.

(** A resolver that knows two addresses and a result of another family. *)
#[local] Instance two_addresses : Resolver := fun name =>
  (0, 1, <[1 := mkAddrinfo 16 16777343 2]> (<[2 := mkAddrinfo 28 0 3]> {[3 := mkAddrinfo 16 33554559 0]})).

#[local] Instance two_addresses_spec : ResolverSpec.
Proof.
  intros name _. exists [mkAddrinfo 16 16777343 2; mkAddrinfo 28 0 3; mkAddrinfo 16 33554559 0].
  by split_and!.
Qed.

(** [start] resolves a name, and a worker has run the function. *)
Definition resolved : list action :=
  AResolve true :: replicate 6 (APool (Submits.AWorker 0)) ++ APool (Submits.AConsumer 0 true) ::
  replicate 4 (APool (Submits.AWorker 0)).

Lemma resolved_usual : Forall errno_range resolved.
Proof. by repeat constructor. Qed.

Definition settled (o : outcome state) : option (option bool * list Z * option (list str)) :=
  match o with
  | Ok s => Some ((fun _ => true) <$> Submits.futures (pool s) !! submission,
      Submits.busy (Submits.pool (pool s)), shown s)
  | Crash _ => None
  end.

Lemma resolved_settled name : settled (run name resolved (init 2)) = Some (Some true, [], None).
Proof. vm_compute. reflexivity. Qed.

Lemma resolve_prints_witness :
  exists s n s' out, run [] resolved (init 2) = Ok s /\ shown s = None /\ (n <= 4)%nat /\
    run [] (replicate n (APool (Submits.AConsumer submission false)) ++ [AStart]) s = Ok s' /\
    shown s' = Some out /\ to_print [] out.
Proof.
  pose proof (resolved_settled []) as H.
  pose proof (resolve_prints [] 2 resolved resolved_usual) as Hs.
  destruct (run [] resolved (init 2)) as [s|c]; [|discriminate H].
  cbn [settled] in H. injection H as Hf Hb Hsh. destruct Hs as [_ Hs].
  destruct (Submits.futures (pool s) !! submission) as [f|] eqn:E; [|discriminate Hf].
  destruct (Hs ltac:(by eexists) ltac:(rewrite Hb; by intros ?%elem_of_nil) false)
    as (n & s' & out & Hn & Hr' & Ho & Hp).
  exists s, n, s', out. split; [reflexivity|]. split; [exact Hsh|]. split; [exact Hn|].
  split; [exact Hr'|]. split; [exact Ho|exact Hp].
Defined.
